(* ===== verification/_CoqProject ===== *)
-Q . S2P
Prelude.v
Slice.v
Token.v
Tokenizer.v
Value.v
Attr.v
Schema.v
MetaData.v
Ast.v
Dump.v
ExprParser.v
TypeParser.v
StmtParser.v
Printer.v
StmtPrinter.v
Analyze.v
Lifetime.v
Visit.v
Layout.v
LLVM.v
CodegenExpr.v
CodegenStmt.v
Compile.v
Declare.v
Machine.v
Runtime.v
Concrete.v
Engine.v
Semantics.v
Shape.v
Typing.v
Simulate.v
ExprCorrect.v
StmtCorrect.v
TableCode.v
ScanCode.v
Faithful.v
Prepare.v
CompileCorrect.v
Execute.v
Checker.v
Progress.v
Accepted.v
WellDeclared.v
Tables.v
Driver.v
Behaviours.v
