(* ===== verification/Prelude.v ===== *)
(** * A verification of reir

    reir compiles a small language for transactions over tables and runs the result in a JIT on a
    storage engine.  A program's text goes through these parts, each modelled by the file named:

    - [src/src/util/slice.hpp]: non-owning byte strings (Slice.v);
    - [exec/token.hpp], [exec/tokenize.hpp]: token types, reserved words, the token stream and the
      character loop [tokenize] (Token.v, Tokenizer.v);
    - [db/value.*], [db/maybe_value.hpp]: cells and their byte codec (Value.v);
    - [db/attr_type.*], [db/attribute.*]: column types and columns, their byte and text codecs
      (Attr.v);
    - [db/schema.*]: tables: keys, values, rows, the text of the catalogue (Schema.v);
    - [db/metadata.*]: the catalogue, over LevelDB (MetaData.v);
    - [exec/ast_node.hpp], [exec/ast_expression.hpp], [exec/ast_statement.hpp]: the syntax tree
      (Ast.v), its [dump] methods (Dump.v), its visitors (Visit.v), the kinds of its nodes and
      its destructors (Lifetime.v);
    - [exec/ast_expression_parser.cpp], [exec/ast_node_parser.cpp],
      [exec/ast_statement_parser.cpp], [exec/parser.cpp]: the recursive-descent parsers
      (ExprParser.v, TypeParser.v, StmtParser.v), with a printer into the same language as their
      specification (Printer.v, StmtPrinter.v);
    - [exec/ast_node.cpp] and the [analyze] methods: types of expressions, the type and variable
      tables of [CompilerContext] (Analyze.v);
    - [exec/ast_expression_codegen.cpp], [exec/ast_statement_codegen.cpp]: code generation as
      calls of LLVM's builder (CodegenExpr.v, CodegenStmt.v, over the builder of LLVM.v); the
      records compiled inserts and scans write and read, by themselves (Layout.v);
    - [exec/db_interface.*]: the engine's side of code generation, the class [DBInterface] and its
      instance for FOEDUS (CodegenStmt.v); [engine/foedus_interface.cpp]: the functions over FOEDUS
      that compiled code calls (Runtime.v);
    - [exec/compiler_context.*], [exec/compiler.cpp]: the context, [compile] with its walk over all
      statements, what analysis leaves in the nodes (Compile.v, Visit.v), [compile_and_exec]
      (Execute.v), the functions of the language (Runtime.v);
    - [reirc.cpp], [exec/reir_context.*], [exec/executor.cpp], [engine/foedus_runner.cpp],
      [engine/foedus_executor.cpp], [engine/db_handle.*]: from the command line to the execution of
      a text and back (Driver.v).

    The code that is generated is run by a machine (Machine.v) that executes LLVM's instructions
    one by one on registers and a byte memory; Concrete.v instantiates everything the machine and
    the builder take from outside.  Semantics.v is the reference: an interpreter of the syntax
    tree; Declare.v says what a program declares.  The proofs that connect the two: what code
    generation leaves alone (Shape.v), the types it computes (Typing.v), one instruction and one
    call of the builder (Simulate.v), expressions (ExprCorrect.v), statements (StmtCorrect.v),
    inserts (TableCode.v), scans (ScanCode.v), all statements (Faithful.v), the pass that reserves
    the stack (Prepare.v), programs (CompileCorrect.v, Execute.v).  Checker.v is a type checker for
    what code generation accepts; its soundness goes through the weakest preconditions of the
    builder's calls and the code of expressions (Progress.v), the statements in both passes
    (Accepted.v) and the declarations of a program (WellDeclared.v).  Engine.v says what the
    functions over FOEDUS rely on: what a call that reports success does to the committed records,
    to the transaction that runs and to a cursor; Tables.v puts it together with the compiled
    inserts and scans.  Driver.v
    joins the front end, the compiler, the engine and the catalogue; Behaviours.v holds further
    properties of whole programs.

    ** How the code is modelled

    A function of the source is a function that returns a [result]: a value, a thrown exception
    with its text, an abort (a failed assertion or [abort()]), undefined behaviour, or no more
    fuel.  An unchecked access outside a buffer or vector, a null pointer followed and a read of
    an uninitialised member are undefined behaviour, so a theorem that excludes it is a theorem
    of memory safety.  Strings and buffers are lists of 8-bit characters; a [char*] argument is a
    buffer and an offset, and every write into it is checked against its length.  64-bit integers
    are integers with their range stated, stored as eight little-endian bytes.  Objects that the
    source shares through pointers and changes in place (payloads of values, analysed types) live
    on an explicit heap.  Names are those of the source where they are free; an operator or an
    overloaded member carries its class in front ([slice_eq], [Attribute_encode]).

    Output is part of what a function gives where the source prints: the parser's result carries
    what the constructors print while they parse ([printed]: the isolation word of a transaction),
    the runtime and the driver append to the world's [stdout].

    Structural recursion models loops over data.  The other loops take fuel: the parsers, which
    recurse on shorter token lists ([expr_fuel], twice the number of tokens and one, for
    expressions and statements; one more than the number of tokens for types and for the
    statements of a program), [Schema::deserialize] (one more than the length of the text) and
    [slice::split] (one more than the length); [slice::count] takes its fuel as an argument.  The
    theorems named [..._total] show that the fuel chosen is enough.  Where the code does not end,
    [parse_terminates_iff] (a stray closing brace) and [schema_deserialize_terminates] (a saved text
    that is cut off) say exactly when, and that no fuel is enough: a loop of
    [Schema::deserialize] that looks for a delimiter at the end of the text stands still and gives
    [OutOfFuel].

    Code generation passes a context along ([cg]): the blocks built so far with their instructions,
    LLVM's types, the tables of [CompilerContext].  A node of the tree is named by its path, where
    the source uses its address.  LLVM's assertions are [Abort] (the README asks for a debug build
    of LLVM), null pointers handed to it [UB].  The machine's fuel counts instructions: the
    theorems about it say that some fuel is enough.  The fuel of [exec_stmt] bounds the rounds of
    each loop; a run that ends needs no more than its rounds.

    Code outside the repository is a parameter: LevelDB is the class [KVStore] with the laws
    [KVLaws] (a [gmap] is an instance), FOEDUS the class [FoedusAPI] with the laws [FoedusLaws]
    (they take no call to succeed; a finite map with one thread's transaction is an instance), as a process the class [FoedusEngine], the random device [Random],
    the printing of doubles a function; LLVM's constant folding and the text of its types are the
    class [LLVM] with the laws [LLVMTyping], [LLVMFolds] and [PrintLaws], the processor's
    arithmetic and the layout of structs the class [Target] with [TargetLaws]; Concrete.v has
    instances of all of them that keep the laws.

    ** What the theorems show

    - Front end: printing a well-formed program and parsing the text gives the program back
      ([parse_print_roundtrip]); the expression parser accepts exactly a
      declarative grammar ([parse_expr_refines_grammar]); the parsers end in a tree or an
      exception ([parse_expr_total], [parse_statement_total]) except at a stray closing brace
      ([parse_terminates_iff]); what the grammar makes of operators, indices, [for] headers and
      adjacent statements ([operators_right_assoc], [index_loses_parent], [for_every_required],
      [statements_swallow]).
    - Tokenizer: the loop over indices equals a reference lexer ([tokenize_equiv_ref]), is safe but
      for an operator that is a single exclamation mark or bar ([tokenize_safe]), loses nothing ([tokenize_lossless]), classifies every word
      ([tokenize_lexemes], [reserved_any_case]) and inverts printing ([tokenize_render]).
    - Analysis: it follows typing rules on scalar expressions ([analyze_follows_typing]) and never
      follows a null pointer on programs that pass a scope check ([analyze_program_safe]).
    - Data: byte and text codecs of values, columns and schemas invert each other
      ([value_serialize_roundtrip], [attribute_codec_roundtrip], [attribute_text_roundtrip],
      [schema_codec_roundtrip], [schema_text_roundtrip]); reading a saved text that is cut off
      ends at the end of a column and nowhere else ([schema_deserialize_terminates]); keys
      fill their buffers exactly and determine table and key cells ([encode_key_exact],
      [encode_key_injective], [fixed_key_length_bounds]); slices split and join
      ([slice_split_char], [slice_split_intercalate]); what copies and nulls do
      ([maybe_copy_shares], [null_encode_keeps_stale]).
    - Catalogue: it implements a map from names to schemas ([catalogue_refines],
      [create_table_others]); after a program it holds the tables the program defined, over those
      it had before ([catalogue_after]); [recreate_diverges] shows where its two copies part.
    - Tables in compiled code: on an engine that works as FOEDUS does and whose calls succeed, an
      accepted program that fills a table in one transaction and scans it in the next prints the rows
      it inserted, once each, in the order of their keys ([fill_and_scan_sorted]); insert stores what the codec describes ([insert_stores_encoding])
      and scan reads it back ([insert_scan_roundtrip]); a scan's range holds other tables' records
      too ([scan_range_foreign]); a [define] keeps the columns of integer, double and string type with
      their types and properties ([define_keeps_storable]);
      the walk that reserves stack space reaches every statement ([each_statement_complete],
      [alloca_pass_calls]).
    - The compiler: what a program prints, emits and does to the engine when it is compiled and run
      is what the reference semantics says ([compile_and_exec_correct]), inserts and scans
      included, up to 2^31 - 1 rows (an [int] counts the rows printed: [show_rows_overflows]); a program that the analysis and the checker accept compiles, without an exception,
      a failed assertion or a null pointer ([accepted_compiles]), so that [main] executes every text
      that parses to an accepted program ([main_runs_accepted]; [main_runs_program] for the printed
      text of a program that compiles); the code of every program without jumps is well-formed
      ([compile_well_formed]) and the machine stays in it ([compiled_stays_in_code]); types are stable ([get_type_stable]); a counting loop ends after
      its rounds ([counting_finishes]); where code generation departs from the language
      ([let_comparison_fails], [break_two_terminators], [row_elements_twice],
      [show_RawRow_unsigned], [scan_twice_aborts], [row_named_string_aborts],
      [short_insert_reads_stale], [foreign_record_overruns]).
    - Lifetimes: the destructors free every node of a program once ([delete_frees_each_once]) and no
      type of a context twice ([context_deletes_once]).

    ** What is not modelled

    LLVM itself: its passes, its code generator and the JIT; a module is run by the machine, which
    does not ask that addresses are aligned.  The reference semantics covers integers, truth values,
    strings, rows, the functions of the language, transactions and every statement except [break]
    and [continue]; it has no pointers and arrays.  Those have their code generation modelled and
    their control flow proved.  Inserts and scans are those of tables of integer columns that cannot
    be null, with records shorter than 2^16 bytes (the lengths FOEDUS keeps have 16 bits); a program
    has to pass [well_declared], which the checker implies: it declares each table once and each row
    variable once, for the maps of [CompilerContext] keep one entry per name.  The checker leaves out
    what the code generator refuses (double literals, operators on strings, a [for] over an integer
    condition) and, although some of it compiles, arrays and pointers, strings passed to a function
    outside an expression statement, and initialisations of a [for] other than a [let] or an
    expression.  The elements of an emitted or inserted row
    have no effects (they would happen twice).  Exceptions that leave
    [main] end the process: what was created in the catalogue or stood in the output buffer by then
    is not modelled.  The dead [exec/storage.cpp], the commented-out code generators and the
    functions of [exec/compiler.cpp] that only they call, the unused copy [util/slide.hpp] of [slice.hpp] and the third-party
    [cmdline.h] are left out, and so are the output of debug builds, the memory that constructors
    leak when they throw, and what [DefineTuple::alloca_stack] writes back to the type table (the type that
    its own analysis has put there).

    This file holds what the others share: strings, the [result] monad and its tactics, machine
    integers, byte memories, decimal numerals. *)

From Stdlib Require Import ZArith NArith Ascii String Lia ZifyBool ZifyN.
From stdpp Require Import base option list strings gmap.

(** ** Characters and byte strings

    A C++ [std::string] and a [char] buffer are both lists of 8-bit characters. *)

Abbreviation cstr := (list ascii).

(** A string literal of the source. *)
Definition lit (s : string) : cstr := list_ascii_of_string s.

(** [std::string::find(c) != npos] *)
Definition has_char (c : ascii) (s : cstr) : bool := bool_decide (c ∈ s).

Definition ch (n : nat) : ascii := ascii_of_nat n.

(** ** Results

    What a call of the program may end in: a value, a C++ exception with its
    message, a call of [abort] (or a failed [assert]), undefined behaviour, or
    no end at all ([OutOfFuel] is the model's word for a run longer than its fuel). *)

Inductive result (A : Type) : Type :=
  | Ok (a : A)
  | Throw (what : cstr)
  | Abort
  | UB
  | OutOfFuel.
Arguments Ok {A} a.
Arguments Throw {A} what.
Arguments Abort {A}.
Arguments UB {A}.
Arguments OutOfFuel {A}.

#[export] Instance result_ret : MRet result := λ A, Ok.
#[export] Instance result_bind : MBind result := λ A B k m,
  match m with
  | Ok a => k a
  | Throw w => Throw w
  | Abort => Abort
  | UB => UB
  | OutOfFuel => OutOfFuel
  end.

(** [throw std::runtime_error("...")] *)
Definition throw {A} (s : string) : result A := Throw (lit s).

Definition is_ok {A} (r : result A) : bool :=
  match r with Ok _ => true | _ => false end.

#[export] Instance result_eq_dec `{EqDecision A} : EqDecision (result A).
Proof. solve_decision. Defined.

Lemma bind_Ok_inv {A B} (m : result A) (k : A → result B) b :
  m ≫= k = Ok b → ∃ a, m = Ok a ∧ k a = Ok b.
Proof. destruct m; simpl; intros; try discriminate; eauto. Qed.

Lemma bind_assoc {A B C} (m : result A) (f : A → result B) (g : B → result C) :
  (m ≫= f) ≫= g = m ≫= (λ a, f a ≫= g).
Proof. by destruct m. Qed.

(** A run that never meets one of the bad ends. *)
Definition no_ub {A} (r : result A) : Prop := r ≠ UB.
Definition terminates {A} (r : result A) : Prop := r ≠ OutOfFuel.

Lemma terminates_bind {A B} (m : result A) (k : A → result B) :
  terminates m → (∀ a, m = Ok a → terminates (k a)) → terminates (m ≫= k).
Proof. unfold terminates. destruct m; simpl; eauto. Qed.

Lemma no_ub_bind {A B} (m : result A) (k : A → result B) :
  no_ub m → (∀ a, m = Ok a → no_ub (k a)) → no_ub (m ≫= k).
Proof. unfold no_ub. destruct m; simpl; eauto. Qed.

(** A run that ends in a value or an exception: no abort, no undefined behaviour, no loop. *)
Definition orderly {A} (r : result A) : Prop :=
  match r with Ok _ | Throw _ => True | _ => False end.

Lemma orderly_bind {A B} (m : result A) (k : A → result B) :
  orderly m → (∀ a, m = Ok a → orderly (k a)) → orderly (m ≫= k).
Proof. destruct m; simpl; eauto. Qed.

(** ** Tactics *)

(** Lemmas on the totality of the components' operations. *)
Create HintDb reir.

(** Break a hypothesis [m ≫= k = Ok b] into its steps. *)
Ltac inv_bind :=
  repeat match goal with
  | H : _ ≫= _ = Ok _ |- _ =>
      let a := fresh "r" in let H1 := fresh "Hm" in let H2 := fresh "Hk" in
      apply bind_Ok_inv in H as (a & H1 & H2)
  | H : Ok _ = Ok _ |- _ => injection H as H; subst
  | H : Throw _ = Ok _ |- _ => discriminate H
  | H : Abort = Ok _ |- _ => discriminate H
  | H : UB = Ok _ |- _ => discriminate H
  | H : OutOfFuel = Ok _ |- _ => discriminate H
  | H : throw _ = Ok _ |- _ => discriminate H
  end.

(** The same through [let '(a, b) := x in ...]. *)
Ltac inv_prog :=
  inv_bind;
  repeat (match goal with
          | H : (let '(_, _) := ?x in _) = Ok _ |- _ => destruct x
          end; inv_bind).

Ltac inv_ok := inv_bind; simplify_eq/=; inv_bind.

(** ** Machine integers *)

Definition two_63 : Z := 2 ^ 63.
Definition two_64 : Z := 2 ^ 64.

(** The value range of [int64_t] and of [size_t]/[uint64_t]. *)
Definition is_i64 (z : Z) : Prop := (- two_63 ≤ z < two_63)%Z.
Definition is_u64 (z : Z) : Prop := (0 ≤ z < two_64)%Z.

(** The signed reading of a 64-bit pattern. *)
Definition signed64 (z : Z) : Z :=
  let u := (z mod two_64)%Z in if (u <? two_63)%Z then u else (u - two_64)%Z.

Lemma signed64_range z : is_i64 (signed64 z).
Proof.
  unfold is_i64, signed64, two_63, two_64.
  pose proof (Z.mod_pos_bound z (2 ^ 64) ltac:(lia)).
  destruct (Z.ltb_spec (z mod 2 ^ 64) (2 ^ 63)); lia.
Qed.

Lemma signed64_mod z : is_i64 z → signed64 (z mod two_64) = z.
Proof.
  unfold is_i64, signed64, two_63, two_64. intros Hz.
  rewrite Z.mod_mod by lia.
  destruct (decide (0 ≤ z)%Z).
  - rewrite Z.mod_small by lia. destruct (Z.ltb_spec z (2 ^ 63)); lia.
  - replace (z mod 2 ^ 64)%Z with (z + 2 ^ 64)%Z.
    + destruct (Z.ltb_spec (z + 2 ^ 64) (2 ^ 63)); lia.
    + apply (Z.mod_unique _ _ (-1)); lia.
Qed.

(** ** Little-endian bytes *)

Definition byte_of_Z (z : Z) : ascii := ascii_of_N (Z.to_N (z mod 256)).
Definition Z_of_byte (b : ascii) : Z := Z.of_N (N_of_ascii b).

Lemma Z_of_byte_range b : (0 ≤ Z_of_byte b < 256)%Z.
Proof. unfold Z_of_byte. pose proof (N_ascii_bounded b). lia. Qed.

Lemma Z_of_byte_of_Z z : Z_of_byte (byte_of_Z z) = (z mod 256)%Z.
Proof.
  unfold Z_of_byte, byte_of_Z. pose proof (Z.mod_pos_bound z 256 ltac:(lia)).
  rewrite N_ascii_embedding by lia. rewrite Z2N.id; lia.
Qed.

Lemma byte_of_Z_of_byte b : byte_of_Z (Z_of_byte b) = b.
Proof.
  unfold byte_of_Z. pose proof (Z_of_byte_range b). rewrite Z.mod_small by lia.
  unfold Z_of_byte. by rewrite N2Z.id, ascii_N_embedding.
Qed.

Fixpoint le_split (n : nat) (z : Z) : cstr :=
  match n with
  | O => []
  | S n => byte_of_Z z :: le_split n (z / 256)
  end.

Fixpoint le_combine (bs : cstr) : Z :=
  match bs with
  | [] => 0
  | b :: bs => Z_of_byte b + 256 * le_combine bs
  end%Z.

Lemma length_le_split n z : length (le_split n z) = n.
Proof. revert z. induction n; intros; simpl; by f_equal. Qed.

Lemma le_combine_split n z : le_combine (le_split n z) = (z mod 256 ^ Z.of_nat n)%Z.
Proof.
  revert z. induction n as [|n IH]; intros z; cbn [le_split le_combine].
  - by rewrite Z.mod_1_r.
  - rewrite IH, Z_of_byte_of_Z.
    replace (Z.of_nat (S n)) with (Z.succ (Z.of_nat n)) by lia.
    rewrite Z.pow_succ_r by lia.
    rewrite Z.rem_mul_r by lia. lia.
Qed.

Lemma le_combine_range bs : (0 ≤ le_combine bs < 256 ^ Z.of_nat (length bs))%Z.
Proof.
  induction bs as [|b bs IH]; cbn [le_combine length]; [lia|].
  pose proof (Z_of_byte_range b).
  replace (Z.of_nat (S (length bs))) with (Z.succ (Z.of_nat (length bs))) by lia.
  rewrite Z.pow_succ_r by lia. lia.
Qed.

Lemma le_split_combine bs : le_split (length bs) (le_combine bs) = bs.
Proof.
  induction bs as [|b bs IH]; cbn [le_combine length le_split]; [done|].
  pose proof (Z_of_byte_range b). f_equal.
  - rewrite <- (byte_of_Z_of_byte b) at 2. unfold byte_of_Z. do 2 f_equal.
    rewrite Z.mul_comm, Z.mod_add by lia. done.
  - rewrite Z.mul_comm, Z.div_add, Z.div_small, Z.add_0_l by lia. done.
Qed.

(** The encoders are used through their lemmas; evaluation by [vm_compute] still unfolds them. *)
#[global] Opaque le_split le_combine.

(** An [int64_t] stored in memory and read back. *)
Definition bytes_of_i64 (z : Z) : cstr := le_split 8 (z mod two_64).
Definition i64_of_bytes (bs : cstr) : Z := signed64 (le_combine bs).

Lemma length_bytes_of_i64 z : length (bytes_of_i64 z) = 8.
Proof. apply length_le_split. Qed.

Lemma i64_roundtrip z : is_i64 z → i64_of_bytes (bytes_of_i64 z) = z.
Proof.
  intros Hz. unfold i64_of_bytes, bytes_of_i64. rewrite le_combine_split.
  change (256 ^ Z.of_nat 8)%Z with two_64.
  rewrite Z.mod_mod by done. by apply signed64_mod.
Qed.

(** ** Byte memories: checked reads and writes through a [char*] *)

Definition mem_read (mem : cstr) (off n : nat) : result cstr :=
  if decide (off + n ≤ length mem) then Ok (take n (drop off mem)) else UB.

Definition mem_write (mem : cstr) (off : nat) (bs : cstr) : result cstr :=
  if decide (off + length bs ≤ length mem)
  then Ok (take off mem ++ bs ++ drop (off + length bs) mem) else UB.

Lemma mem_write_Ok mem off bs :
  off + length bs ≤ length mem →
  mem_write mem off bs = Ok (take off mem ++ bs ++ drop (off + length bs) mem).
Proof. intros. unfold mem_write. by rewrite decide_True. Qed.

Lemma mem_write_length mem off bs mem' :
  mem_write mem off bs = Ok mem' → length mem' = length mem.
Proof.
  unfold mem_write. case_decide; intros [= <-].
  rewrite !length_app, length_take, length_drop. lia.
Qed.

Lemma mem_read_written pre bs post :
  mem_read (pre ++ bs ++ post) (length pre) (length bs) = Ok bs.
Proof.
  unfold mem_read. rewrite !length_app. rewrite decide_True by lia.
  by rewrite drop_app_length, take_app_length.
Qed.

Lemma mem_read_at pre bs post off n :
  off = length pre → n = length bs → mem_read (pre ++ bs ++ post) off n = Ok bs.
Proof. intros -> ->. apply mem_read_written. Qed.

(** ** Decimal numerals: [operator<<] on integers, [std::stoi] and [std::stoll] *)

Definition digit_char (d : N) : ascii := ascii_of_N (48 + d).
Definition is_digit (c : ascii) : bool :=
  ((48 <=? N_of_ascii c) && (N_of_ascii c <=? 57))%N.
Definition digit_val (c : ascii) : Z := Z.of_N (N_of_ascii c) - 48.

Fixpoint show_rev (fuel : nat) (n : N) : cstr :=
  match fuel with
  | O => []
  | S f => digit_char (n mod 10) ::
           (if (n / 10 =? 0)%N then [] else show_rev f (n / 10))
  end.

(** The decimal numeral [operator<<] writes for an unsigned integer. *)
Definition show_N (n : N) : cstr := rev (show_rev (S (N.size_nat n)) n).

Definition show_Z (z : Z) : cstr :=
  if (z <? 0)%Z then lit "-" ++ show_N (Z.to_N (- z)) else show_N (Z.to_N z).

Definition digits_val (s : cstr) : Z := fold_left (λ acc c, 10 * acc + digit_val c)%Z s 0%Z.

(** [isspace] of the "C" locale, which [strtol] skips. *)
Definition is_space (c : ascii) : bool :=
  let n := N_of_ascii c in (n =? 32)%N || ((9 <=? n)%N && (n <=? 13)%N).

Fixpoint drop_while (f : ascii → bool) (s : cstr) : cstr :=
  match s with
  | [] => []
  | c :: s' => if f c then drop_while f s' else s
  end.

Fixpoint take_while (f : ascii → bool) (s : cstr) : cstr :=
  match s with
  | [] => []
  | c :: s' => if f c then c :: take_while f s' else []
  end.

(** [strtol] base 10 with the range check of [std::stoi] and [std::stoll]:
    [name] is the text of the exception. *)
Definition sto (name : string) (lo hi : Z) (s : cstr) : result Z :=
  let s := drop_while is_space s in
  let '(neg, s) := match s with
                   | c :: s' => if bool_decide (c = "-"%char) then (true, s')
                                else if bool_decide (c = "+"%char) then (false, s')
                                else (false, s)
                   | [] => (false, s)
                   end in
  match take_while is_digit s with
  | [] => throw name
  | ds => let v := if neg : bool then (- digits_val ds)%Z else digits_val ds in
          if ((lo <=? v) && (v <=? hi))%Z then Ok v else throw name
  end.

Definition stoi : cstr → result Z := sto "stoi" (- 2 ^ 31) (2 ^ 31 - 1).
Definition stoll : cstr → result Z := sto "stoll" (- two_63) (two_63 - 1).

Lemma sto_orderly name lo hi s : orderly (sto name lo hi s).
Proof.
  unfold sto. destruct (match drop_while is_space s with [] => _ | _ => _ end) as [neg t].
  destruct (take_while is_digit t); [done|]. by case_match.
Qed.

Lemma digit_char_code d : (d < 10)%N → N_of_ascii (digit_char d) = (48 + d)%N.
Proof. intros. unfold digit_char. rewrite N_ascii_embedding; lia. Qed.

Lemma digit_char_is_digit d : (d < 10)%N → is_digit (digit_char d) = true.
Proof. intros. unfold is_digit. rewrite digit_char_code by done. lia. Qed.

Lemma digit_val_char d : (d < 10)%N → digit_val (digit_char d) = Z.of_N d.
Proof. intros. unfold digit_val. rewrite digit_char_code by done. lia. Qed.

Lemma show_rev_digits fuel n : forallb is_digit (show_rev fuel n) = true.
Proof.
  revert n. induction fuel as [|f IH]; intros n; simpl; [done|].
  rewrite digit_char_is_digit by (apply N.mod_lt; done). simpl.
  by destruct (_ =? 0)%N.
Qed.

Lemma digits_val_app s c : digits_val (s ++ [c]) = (10 * digits_val s + digit_val c)%Z.
Proof. unfold digits_val. by rewrite fold_left_app. Qed.

Lemma show_rev_val fuel n :
  (n < 2 ^ N.of_nat fuel)%N → digits_val (rev (show_rev fuel n)) = Z.of_N n.
Proof.
  revert n. induction fuel as [|f IH]; intros n Hn.
  - assert (n = 0)%N by (simpl in Hn; lia). by subst.
  - cbn [show_rev rev]. rewrite digits_val_app, digit_val_char by (apply N.mod_lt; done).
    pose proof (N.div_mod n 10 ltac:(done)).
    destruct (N.eqb_spec (n / 10) 0) as [H0|H0].
    + change (digits_val (rev [])) with 0%Z. lia.
    + rewrite IH; [lia|].
      replace (N.of_nat (S f)) with (N.succ (N.of_nat f)) in Hn by lia.
      rewrite N.pow_succ_r in Hn by lia. apply N.Div0.div_lt_upper_bound. lia.
Qed.

Lemma size_nat_bound n : (n < 2 ^ N.of_nat (S (N.size_nat n)))%N.
Proof.
  assert (N.of_nat (N.size_nat n) = N.size n) as Hs.
  { destruct n as [|p]; [done|]. simpl. induction p; simpl in *; lia. }
  replace (N.of_nat (S (N.size_nat n))) with (N.succ (N.size n)) by lia.
  rewrite N.pow_succ_r by lia. pose proof (N.size_gt n). lia.
Qed.

Lemma digits_val_show n : digits_val (show_N n) = Z.of_N n.
Proof. apply show_rev_val, size_nat_bound. Qed.

Lemma show_N_digits n : Forall (λ c, is_digit c = true) (show_N n).
Proof.
  unfold show_N. rewrite Forall_forall. intros c Hc.
  apply list_elem_of_In, in_rev in Hc.
  pose proof (show_rev_digits (S (N.size_nat n)) n) as H.
  rewrite forallb_forall in H. by apply H.
Qed.

Lemma show_N_nonempty n : show_N n ≠ [].
Proof. unfold show_N. cbn [show_rev rev]. intros H. by apply app_nil in H as [_ ?]. Qed.

Lemma take_while_app f s t :
  Forall (λ c, f c = true) s → take_while f (s ++ t) = s ++ take_while f t.
Proof. induction 1 as [|c s Hc _ IH]; simpl; [done|]. by rewrite Hc, IH. Qed.

Lemma take_while_all f s : Forall (λ c, f c = true) s → take_while f s = s.
Proof. intros H. rewrite <- (app_nil_r s) at 1. rewrite take_while_app by done. apply app_nil_r. Qed.

Lemma is_digit_not_space c : is_digit c = true → is_space c = false.
Proof. unfold is_digit, is_space. lia. Qed.

Lemma is_digit_ne c d : is_digit c = true → is_digit d = false → c ≠ d.
Proof. congruence. Qed.

(** Reading back a numeral, after any blanks, gives its number. *)
Lemma sto_show name lo hi sp n :
  Forall (λ c, is_space c = true) sp →
  (lo ≤ Z.of_N n ≤ hi)%Z →
  sto name lo hi (sp ++ show_N n) = Ok (Z.of_N n).
Proof.
  intros Hsp Hn. unfold sto.
  pose proof (show_N_digits n) as Hd. pose proof (show_N_nonempty n) as Hne.
  pose proof (digits_val_show n) as Hv. revert Hd Hne Hv.
  generalize (show_N n). intros ds Hd Hne Hv.
  assert (drop_while is_space (sp ++ ds) = ds) as ->.
  { induction Hsp as [|c sp Hc Hsp IH]; simpl; [|by rewrite Hc].
    destruct Hd as [|d ds Hd0 Hd]; [done|]. simpl. by rewrite is_digit_not_space. }
  destruct Hd as [|d ds Hd0 Hd]; [done|].
  rewrite (bool_decide_false (d = "-"%char)), (bool_decide_false (d = "+"%char))
    by (by apply is_digit_ne).
  rewrite take_while_all by (by constructor). rewrite Hv.
  replace ((lo <=? Z.of_N n) && (Z.of_N n <=? hi))%Z with true by lia. done.
Qed.
