(* ===== verification/Slice.v ===== *)
(** * Slice: the string view [util::slice] of [src/src/util/slice.hpp]

    A slice is a [const char*] and a length; it does not own its characters.
    The pointer is modelled with the block it points into (a pointer is never
    written through, so a slice may carry its block), which makes a read past
    the end of that block visible as [UB].  [assert] is modelled as in a debug
    build: a failed one is [Abort].  [src/src/util/slide.hpp] is an older copy of
    the same class, under the same include guard, that no file includes. *)

From S2P Require Import Prelude.
From Stdlib Require Import ZArith Ascii String Lia.
From stdpp Require Import base option list strings.

(** [const char*]: null, or an offset into a block. *)
Definition ptr : Type := option (cstr * nat).

Record slice := mk_slice { ptr_ : ptr; len_ : nat }.

Definition NUL : ascii := ascii_of_nat 0.

(** ** Pointer reads *)

(** The [n] bytes at [&p[i]]; reading no byte is always allowed. *)
Definition ptr_read (p : ptr) (i n : nat) : result cstr :=
  match n with
  | O => Ok []
  | _ => match p with
         | None => UB
         | Some (blk, off) => mem_read blk (off + i) n
         end
  end.

Definition ptr_add (p : ptr) (n : nat) : ptr :=
  match p with None => None | Some (blk, off) => Some (blk, off + n) end.

(** [memcmp(&p[i], q, n) == 0] *)
Definition memcmp_eq (p : ptr) (i : nat) (q : ptr) (n : nat) : result bool :=
  a ← ptr_read p i n; b ← ptr_read q 0 n; Ok (bool_decide (a = b)).

(** The characters before the first NUL of a block's suffix, if there is one. *)
Fixpoint until_nul (s : cstr) : option cstr :=
  match s with
  | [] => None
  | c :: s => if decide (c = NUL) then Some [] else cons c <$> until_nul s
  end.

(** The C string a pointer denotes. *)
Definition c_string (p : ptr) : result cstr :=
  match p with
  | None => UB
  | Some (blk, off) => match until_nul (drop off blk) with
                       | Some s => Ok s
                       | None => UB
                       end
  end.

(** ** Constructors *)

Definition slice_default : slice := mk_slice None 0.
Definition slice_of_ptr (p : ptr) (n : nat) : slice := mk_slice p n.

(** A [std::string] keeps a NUL after its last character. *)
Definition slice_of_string (s : cstr) : slice := mk_slice (Some (s ++ [NUL], 0)) (length s).
Definition slice_of_vector (s : cstr) : slice := mk_slice (Some (s, 0)) (length s).
Definition slice_of_cstring (p : ptr) : result slice :=
  s ← c_string p; Ok (mk_slice p (length s)).

(** ** Observers *)

Definition slice_size (s : slice) : nat := len_ s.

Definition slice_empty (s : slice) : result bool :=
  if decide (len_ s = 0 ∨ ptr_ s = None) then Ok true
  else c ← ptr_read (ptr_ s) 0 1; Ok (bool_decide (c = [NUL])).

(** [operator[]]: the index is an [int] compared with [(int)len_]; a negative one
    passes the assertion and reads before the pointer. *)
Definition slice_at (s : slice) (idx : Z) : result ascii :=
  if (idx <? Z.of_nat (len_ s))%Z then
    match ptr_ s with
    | None => UB
    | Some (blk, off) =>
        let i := (Z.of_nat off + idx)%Z in
        if (i <? 0)%Z then UB
        else match blk !! Z.to_nat i with Some c => Ok c | None => UB end
    end
  else Abort.

(** [operator std::string] *)
Definition slice_to_string (s : slice) : result cstr := ptr_read (ptr_ s) 0 (len_ s).

Definition slice_eq (l r : slice) : result bool :=
  if decide (len_ l = len_ r) then memcmp_eq (ptr_ l) 0 (ptr_ r) (len_ l) else Ok false.

Definition slice_ne (l r : slice) : result bool := b ← slice_eq l r; Ok (negb b).

(** [strcmp(l, r) < 0]: characters compare as [unsigned char]; the lengths are not used. *)
Fixpoint strcmp_lt (a b : cstr) : bool :=
  match a, b with
  | [], [] => false
  | [], _ :: _ => true
  | _ :: _, [] => false
  | x :: a, y :: b =>
      if decide (x = y) then strcmp_lt a b else (N_of_ascii x <? N_of_ascii y)%N
  end.

Definition slice_lt (l r : slice) : result bool :=
  a ← c_string (ptr_ l); b ← c_string (ptr_ r); Ok (strcmp_lt a b).

(** ** Searching

    [find] tries every index below [len_] and compares [target.len_] bytes there,
    also where fewer than that are left in the slice.  [None] is [npos]. *)
Fixpoint find_from (s target : slice) (i n : nat) : result (option nat) :=
  match n with
  | O => Ok None
  | S n => b ← memcmp_eq (ptr_ s) i (ptr_ target) (len_ target);
           if b : bool then Ok (Some i) else find_from s target (S i) n
  end.

Definition slice_find (s target : slice) : result (option nat) := find_from s target 0 (len_ s).

Definition drop_head (s : slice) (n : nat) : result slice :=
  if decide (n ≤ len_ s) then Ok (mk_slice (ptr_add (ptr_ s) n) (len_ s - n)) else Abort.

(** The loop of [split]: [p] is the rest still to be cut. *)
Fixpoint split_loop (fuel : nat) (p delimiter : slice) (ret : list slice) : result (list slice) :=
  match fuel with
  | O => OutOfFuel
  | S fuel =>
      idx ← slice_find p delimiter;
      match idx with
      | None => Ok (ret ++ [p])
      | Some idx =>
          p' ← drop_head p (idx + len_ delimiter);
          split_loop fuel p' delimiter (ret ++ [mk_slice (ptr_ p) idx])
      end
  end.

(** Every turn of the loop drops at least the delimiter, so [len_ + 1] turns are enough
    unless the delimiter is empty. *)
Definition slice_split (s delimiter : slice) : result (list slice) :=
  split_loop (S (len_ s)) (mk_slice (ptr_ s) (len_ s)) delimiter [].

Definition slice_car (s delimiter : slice) : result slice :=
  pos ← slice_find s delimiter;
  match pos with
  | None => Ok s
  | Some pos => Ok (mk_slice (ptr_ s) pos)
  end.

(** The unsigned subtraction [len_ - offset] wraps when [find] matched past the end. *)
Definition size_sub (a b : nat) : nat :=
  if decide (b ≤ a) then a - b else Z.to_nat ((Z.of_nat a - Z.of_nat b) mod two_64).

Definition slice_cdr (s delimiter : slice) : result slice :=
  pos ← slice_find s delimiter;
  match pos with
  | None => Ok (mk_slice None 0)
  | Some pos =>
      let offset := pos + len_ delimiter in
      Ok (mk_slice (ptr_add (ptr_ s) offset) (size_sub (len_ s) offset))
  end.

(** [count] declares its counter [const size_t count = 0] and never changes it. *)
Fixpoint count_loop (fuel : nat) (cursor target : slice) : result nat :=
  match fuel with
  | O => OutOfFuel
  | S fuel =>
      offset ← slice_find cursor target;
      match offset with
      | None => Ok 0
      | Some offset =>
          let d := offset + len_ target in
          count_loop fuel (mk_slice (ptr_add (ptr_ cursor) d) (size_sub (len_ cursor) d)) target
      end
  end.

Definition slice_count (fuel : nat) (s target : slice) : result nat := count_loop fuel s target.

(** [join] appends [arr[i].ptr_] as a C string, whatever the slice's length. *)
Fixpoint join_loop (arr : list slice) (glue : slice) (joined : cstr) : result cstr :=
  match arr with
  | [] => Ok joined
  | [s] => a ← c_string (ptr_ s); Ok (joined ++ a)
  | s :: arr =>
      a ← c_string (ptr_ s); g ← c_string (ptr_ glue);
      join_loop arr glue (joined ++ a ++ g)
  end.

Definition slice_join (arr : list slice) (glue : slice) : result cstr := join_loop arr glue [].

Definition slice_suffix (s : slice) (advance : nat) : slice :=
  if decide (len_ s < advance) then slice_default
  else mk_slice (ptr_add (ptr_ s) advance) (len_ s - advance).

(** ** Well-formed slices and their contents *)

Definition slice_wf (s : slice) : Prop :=
  match ptr_ s with
  | None => len_ s = 0
  | Some (blk, off) => off + len_ s ≤ length blk
  end.

(** What the slice denotes. *)
Definition contents (s : slice) : cstr :=
  match ptr_ s with
  | None => []
  | Some (blk, off) => take (len_ s) (drop off blk)
  end.

Lemma length_contents s : slice_wf s → length (contents s) = len_ s.
Proof.
  unfold slice_wf, contents. destruct (ptr_ s) as [[blk off]|]; [|done].
  rewrite length_take, length_drop. lia.
Qed.

Lemma ptr_read_wf s i n :
  slice_wf s → i + n ≤ len_ s → ptr_read (ptr_ s) i n = Ok (take n (drop i (contents s))).
Proof.
  unfold slice_wf, contents, ptr_read. destruct (ptr_ s) as [[blk off]|].
  - intros Hwf Hn. destruct n as [|n].
    + by rewrite take_0.
    + unfold mem_read. rewrite decide_True by lia.
      rewrite skipn_firstn_comm, take_take, drop_drop.
      by rewrite Nat.min_l by lia.
  - intros -> ?. destruct n; [done|lia].
Qed.

(** ** Lemmas *)

Lemma memcmp_eq_contents l r :
  slice_wf l → slice_wf r → len_ l = len_ r →
  memcmp_eq (ptr_ l) 0 (ptr_ r) (len_ l) = Ok (bool_decide (contents l = contents r)).
Proof.
  intros Hl Hr E. pose proof (length_contents l Hl). pose proof (length_contents r Hr).
  unfold memcmp_eq. rewrite (ptr_read_wf l), (ptr_read_wf r) by (done || lia). simpl.
  by rewrite !drop_0, !take_ge by lia.
Qed.

Lemma find_from_Some s t i n k :
  find_from s t i n = Ok (Some k) →
  i ≤ k < i + n ∧ memcmp_eq (ptr_ s) k (ptr_ t) (len_ t) = Ok true ∧
  ∀ j, i ≤ j < k → memcmp_eq (ptr_ s) j (ptr_ t) (len_ t) = Ok false.
Proof.
  revert i. induction n as [|n IH]; intros i H; simpl in H; [done|].
  apply bind_Ok_inv in H as ([|] & Hm & H).
  - simplify_eq. repeat split; [lia..|done|lia].
  - apply IH in H as (? & ? & Hlt). repeat split; [lia..|done|].
    intros j Hj. destruct (decide (j = i)) as [->|]; [done|]. apply Hlt. lia.
Qed.

Lemma find_from_terminates s t i n : terminates (find_from s t i n).
Proof.
  revert i. induction n as [|n IH]; intros i; simpl; [done|].
  apply terminates_bind.
  - assert (∀ p i n, terminates (ptr_read p i n)) as Hr.
    { intros [[blk off]|] ? [|?]; simpl; try done. unfold mem_read. by case_decide. }
    unfold memcmp_eq. repeat (apply terminates_bind; [apply Hr|intros]). done.
  - intros [|] _; [done|apply IH].
Qed.

(** Where [find] matches inside the slice, it cuts the contents around the target. *)
Lemma match_cuts s t k :
  slice_wf s → slice_wf t → k + len_ t ≤ len_ s →
  memcmp_eq (ptr_ s) k (ptr_ t) (len_ t) = Ok true →
  contents s = take k (contents s) ++ contents t ++ drop (k + len_ t) (contents s).
Proof.
  intros Hs Ht Hk Hm. unfold memcmp_eq in Hm.
  rewrite (ptr_read_wf s), (ptr_read_wf t) in Hm by (done || lia). simpl in Hm.
  simplify_eq. apply bool_decide_eq_true in Hm.
  rewrite drop_0, (take_ge (contents t)) in Hm by (rewrite length_contents; done || lia).
  rewrite <- Hm, <- drop_drop, take_drop. by rewrite take_drop.
Qed.

Lemma contents_prefix s k :
  slice_wf s → k ≤ len_ s → contents (mk_slice (ptr_ s) k) = take k (contents s) ∧
                            slice_wf (mk_slice (ptr_ s) k).
Proof.
  unfold contents, slice_wf. destruct (ptr_ s) as [[blk off]|]; simpl; intros.
  - rewrite take_take, Nat.min_l by lia. split; [done|lia].
  - by rewrite take_nil; split; [|lia].
Qed.

Lemma contents_advance s n :
  slice_wf s → n ≤ len_ s →
  contents (mk_slice (ptr_add (ptr_ s) n) (len_ s - n)) = drop n (contents s) ∧
  slice_wf (mk_slice (ptr_add (ptr_ s) n) (len_ s - n)).
Proof.
  unfold contents, slice_wf. destruct (ptr_ s) as [[blk off]|]; simpl; intros.
  - rewrite skipn_firstn_comm, drop_drop. split; [done|lia].
  - rewrite drop_nil. split; [done|lia].
Qed.

(** The parts [ps] with [g] between neighbours. *)
Fixpoint intercalate (g : cstr) (ps : list cstr) : cstr :=
  match ps with
  | [] => []
  | [p] => p
  | p :: ps => p ++ g ++ intercalate g ps
  end.

Lemma intercalate_cons g p ps : ps ≠ [] → intercalate g (p :: ps) = p ++ g ++ intercalate g ps.
Proof. by destruct ps. Qed.

Lemma split_loop_contents fuel p d ret parts :
  slice_wf p → slice_wf d → split_loop fuel p d ret = Ok parts →
  ∃ cuts, parts = ret ++ cuts ∧ cuts ≠ [] ∧ Forall slice_wf cuts ∧
          contents p = intercalate (contents d) (contents <$> cuts).
Proof.
  revert p ret. induction fuel as [|fuel IH]; intros p ret Hp Hd H; simpl in H; [done|].
  apply bind_Ok_inv in H as ([idx|] & Hf & H).
  - apply bind_Ok_inv in H as (p' & Hdrop & H). unfold drop_head in Hdrop.
    case_decide as Hle; [|done]. injection Hdrop as <-.
    apply find_from_Some in Hf as (_ & Hm & _).
    destruct (contents_advance p (idx + len_ d)) as [Hc Hwf]; [done..|].
    destruct (contents_prefix p idx) as [Hc' Hwf']; [done|lia|].
    apply IH in H as (cuts & -> & Hne & Hall & Heq); [|done..].
    exists (mk_slice (ptr_ p) idx :: cuts). rewrite <- app_assoc.
    repeat split; [done..|by constructor|].
    rewrite (match_cuts p d idx) at 1 by done. rewrite fmap_cons, intercalate_cons.
    + by rewrite Hc', <- Heq, Hc.
    + by destruct cuts.
  - simplify_eq. exists [p]. repeat split; [done|by repeat constructor].
Qed.

Lemma split_loop_terminates fuel p d ret :
  0 < len_ d → len_ p < fuel → terminates (split_loop fuel p d ret).
Proof.
  revert p ret. induction fuel as [|fuel IH]; intros p ret Hd Hf; [lia|]. simpl.
  apply terminates_bind; [apply find_from_terminates|]. intros [idx|] _; [|done].
  unfold drop_head. case_decide; simpl; [|done].
  apply IH; [done|]. simpl. lia.
Qed.

(** ** One-character delimiters: every comparison stays inside the slice *)

Section one_char.
Context (d : slice) (c : ascii) (Hd : slice_wf d) (Hc : contents d = [c]).

Lemma one_char_len : len_ d = 1.
Proof using Hd Hc. rewrite <- length_contents by done. by rewrite Hc. Qed.

Lemma memcmp_char s i :
  slice_wf s → i < len_ s →
  memcmp_eq (ptr_ s) i (ptr_ d) (len_ d) = Ok (bool_decide (contents s !! i = Some c)).
Proof using Hd Hc.
  intros Hs Hi. unfold memcmp_eq. rewrite one_char_len.
  rewrite (ptr_read_wf s), (ptr_read_wf d) by (done || rewrite ?one_char_len; lia). simpl.
  rewrite Hc. destruct (lookup_lt_is_Some_2 (contents s) i) as [x Hx]; [by rewrite length_contents|].
  rewrite (drop_S _ x) by done. rewrite Hx. simpl. rewrite take_0. f_equal.
  apply bool_decide_ext. split; congruence.
Qed.

(** [find] returns the first occurrence. *)
Lemma find_from_char s i n :
  slice_wf s → i + n ≤ len_ s →
  ∃ r, find_from s d i n = Ok r ∧
       match r with
       | Some k => i ≤ k < i + n ∧ contents s !! k = Some c ∧ ∀ j, i ≤ j < k → contents s !! j ≠ Some c
       | None => ∀ j, i ≤ j < i + n → contents s !! j ≠ Some c
       end.
Proof using Hd Hc.
  intros Hs. revert i. induction n as [|n IH]; intros i Hi; simpl.
  { exists None. split; [done|]. lia. }
  rewrite memcmp_char by (done || lia). simpl. case_bool_decide as E.
  - exists (Some i). repeat split; [lia|lia|done|lia].
  - destruct (IH (S i)) as (r & -> & Hr); [lia|]. exists r. split; [done|].
    assert (∀ j, i ≤ j → j ≠ i → S i ≤ j) by lia.
    destruct r as [k|]; [destruct Hr as (? & ? & Hr); split; [lia|split; [done|]]|];
      intros j Hj; (destruct (decide (j = i)) as [->|]; [done|apply Hr; lia]).
Qed.

Lemma split_loop_char fuel p ret :
  slice_wf p → len_ p < fuel →
  ∃ cuts, split_loop fuel p d ret = Ok (ret ++ cuts) ∧ Forall (λ q, c ∉ contents q) cuts.
Proof using Hd Hc.
  revert p ret. induction fuel as [|fuel IH]; intros p ret Hp Hf; [lia|]. simpl.
  unfold slice_find. destruct (find_from_char p 0 (len_ p)) as (r & -> & Hr); [done|lia|]. simpl.
  destruct r as [k|].
  - destruct Hr as (Hk & _ & Hr). unfold drop_head. rewrite one_char_len, decide_True by lia. simpl.
    destruct (contents_advance p (k + 1)) as [_ Hwf]; [done|lia|].
    destruct (contents_prefix p k) as [Hpre _]; [done|lia|].
    destruct (IH _ (ret ++ [mk_slice (ptr_ p) k]) Hwf) as (cuts & -> & Hall); [simpl; lia|].
    exists (mk_slice (ptr_ p) k :: cuts). rewrite <- app_assoc. split; [done|].
    constructor; [|done]. rewrite Hpre. intros [j Hj]%list_elem_of_lookup.
    apply lookup_take_Some in Hj as [Hj ?]. by apply (Hr j); [lia|].
  - exists [p]. split; [done|]. repeat constructor. intros [j Hj]%list_elem_of_lookup.
    apply (Hr j); [|done]. apply lookup_lt_Some in Hj. rewrite length_contents in Hj by done. lia.
Qed.
End one_char.

(** * Properties *)

(** [operator==] is equality of the slices' contents. *)
Theorem slice_eq_spec l r :
  slice_wf l → slice_wf r → slice_eq l r = Ok (bool_decide (contents l = contents r)).
Proof.
  intros Hl Hr. unfold slice_eq.
  pose proof (length_contents l Hl). pose proof (length_contents r Hr).
  case_decide as E; [by apply memcmp_eq_contents|].
  rewrite bool_decide_false; [done|]. intros Heq. apply E. congruence.
Qed.

Lemma slice_eq_spec_witness :
  slice_eq (slice_of_string (lit "ab")) (mk_slice (Some (lit "xab", 1)) 2)
  = Ok (bool_decide (contents (slice_of_string (lit "ab")) = contents (mk_slice (Some (lit "xab", 1)) 2))).
Proof. apply slice_eq_spec; vm_compute; lia. Defined.

(** C36: splitting a slice at a one-character delimiter always returns: the parts are inside the
    slice, none of them holds the delimiter, and the delimiter put between them again gives the
    slice's contents. *)
Theorem slice_split_char s d c :
  slice_wf s → slice_wf d → contents d = [c] →
  ∃ parts, slice_split s d = Ok parts ∧ Forall slice_wf parts ∧ Forall (λ q, c ∉ contents q) parts ∧
           contents s = intercalate [c] (contents <$> parts).
Proof.
  intros Hs Hd Hc. destruct (split_loop_char d c Hd Hc (S (len_ s)) s []) as (parts & H & Hn); [done|lia|].
  rewrite app_nil_l in H. exists parts. unfold slice_split. destruct s as [p l]. cbn [ptr_ len_] in *.
  rewrite H. destruct (split_loop_contents _ _ _ _ _ Hs Hd H) as (cuts & -> & _ & Hall & E).
  rewrite <- Hc. by repeat split.
Qed.

Lemma slice_split_char_witness :
  ∃ parts, slice_split (slice_of_string (lit "a,b")) (slice_of_string (lit ",")) = Ok parts ∧
           Forall slice_wf parts ∧ Forall (λ q, ","%char ∉ contents q) parts ∧
           contents (slice_of_string (lit "a,b")) = intercalate [","%char] (contents <$> parts).
Proof. apply slice_split_char; [vm_compute; lia|vm_compute; lia|reflexivity]. Defined.

(** for any delimiter that is not empty [split] ends, and whatever parts it returns, with the
    delimiter between them, are the slice's contents. *)
Theorem slice_split_intercalate s d :
  slice_wf s → slice_wf d → 0 < len_ d →
  terminates (slice_split s d) ∧
  ∀ parts, slice_split s d = Ok parts →
    Forall slice_wf parts ∧ contents s = intercalate (contents d) (contents <$> parts).
Proof.
  intros Hs Hd Hl. split; [apply split_loop_terminates; simpl; lia|]. intros parts H.
  apply split_loop_contents in H as (cuts & -> & _ & Hall & Heq); [|done..].
  split; [done|]. by destruct s.
Qed.

Lemma slice_split_intercalate_witness :
  let s := slice_of_string (lit "a->b") in let d := slice_of_string (lit "->") in
  terminates (slice_split s d) ∧
  ∀ parts, slice_split s d = Ok parts →
    Forall slice_wf parts ∧ contents s = intercalate (contents d) (contents <$> parts).
Proof. apply slice_split_intercalate; vm_compute; lia. Defined.

(** [find] compares past the end of the slice: in the slice "a-" of the text "a->b" it finds "->",
    and [split] then fails the assertion of [drop_head]. *)
Theorem find_overruns :
  let s := mk_slice (Some (lit "a->b", 0)) 2 in
  slice_find s (slice_of_string (lit "->")) = Ok (Some 1) ∧
  slice_split s (slice_of_string (lit "->")) = Abort.
Proof. done. Qed.

(** [count] returns 0 whenever it returns. *)
Theorem count_is_zero fuel s t n : slice_count fuel s t = Ok n → n = 0.
Proof.
  unfold slice_count. revert s. induction fuel as [|fuel IH]; intros s H; simpl in H; [done|].
  apply bind_Ok_inv in H as ([k|] & _ & H); [by eapply IH|by injection H].
Qed.

(** [join] ignores the lengths of the slices: it appends up to the next NUL. *)
Theorem join_ignores_lengths :
  slice_join [mk_slice (Some (lit "abc" ++ [NUL], 0)) 1] (slice_of_string (lit ",")) = Ok (lit "abc").
Proof. done. Qed.
