(* ===== verification/Token.v ===== *)
(** * Token: token types, reserved words, operators and the token stream
      of [src/src/reir/exec/token.hpp] *)

From S2P Require Import Prelude.
From Stdlib Require Import ZArith Ascii String Lia.
From stdpp Require Import base option list strings sets.

Inductive token_type :=
  | IDENTIFIER | STRING_LITERAL | RESERVED | NUMBER | FLOAT
  (* symbols *)
  | OPEN_BRACE | CLOSE_BRACE | OPEN_PAREN | CLOSE_PAREN | OPEN_BRACKET | CLOSE_BRACKET
  | OPEN_ANGLE | CLOSE_ANGLE | COMMA | ASTERISK | SLASH | PLUS | MINUS | COLON | SEMICOLON
  | PERIOD | EQUAL | AND | PERCENT
  | EQUAL_EQUAL | EXCLAMATION_MARK_EQUAL | OPEN_ANGLE_EQUAL | CLOSE_ANGLE_EQUAL
  | PLUS_EQUAL | MINUS_EQUAL | ASTERISK_EQUAL | SLASH_EQUAL | PERCENT_EQUAL
  | AND_AND | OR_OR
  (* reserved words *)
  | reserved_splitter
  | TYPE | INT | DEFINE | LET | TRANSACTION | SERIALIZABLE | IF | ELSE | FOR | EMIT
  | INSERT | SCAN | BREAK | CONTINUE | TUPLE
  (* invalid *)
  | INVALID.

#[export] Instance token_type_eq_dec : EqDecision token_type.
Proof. solve_decision. Defined.

(** The enumerators in their order: position [i] is [token_type(i)]. *)
Definition token_types : list token_type :=
  [ IDENTIFIER; STRING_LITERAL; RESERVED; NUMBER; FLOAT;
    OPEN_BRACE; CLOSE_BRACE; OPEN_PAREN; CLOSE_PAREN; OPEN_BRACKET; CLOSE_BRACKET;
    OPEN_ANGLE; CLOSE_ANGLE; COMMA; ASTERISK; SLASH; PLUS; MINUS; COLON; SEMICOLON;
    PERIOD; EQUAL; AND; PERCENT;
    EQUAL_EQUAL; EXCLAMATION_MARK_EQUAL; OPEN_ANGLE_EQUAL; CLOSE_ANGLE_EQUAL;
    PLUS_EQUAL; MINUS_EQUAL; ASTERISK_EQUAL; SLASH_EQUAL; PERCENT_EQUAL;
    AND_AND; OR_OR;
    reserved_splitter;
    TYPE; INT; DEFINE; LET; TRANSACTION; SERIALIZABLE; IF; ELSE; FOR; EMIT;
    INSERT; SCAN; BREAK; CONTINUE; TUPLE;
    INVALID ].

(** The table of names, indexed by token type. *)
Definition strs : list string :=
  [ "IDENTIFIER"; "STRING_LITERAL"; "RESERVED"; "NUMBER"; "FLOAT";
    "OPEN_BRACE"; "CLOSE_BRACE"; "OPEN_PAREN"; "CLOSE_PAREN"; "OPEN_BRACKET"; "CLOSE_BRACKET";
    "OPEN_ANGLE"; "CLOSE_ANGLE"; "COMMA"; "ASTERISK"; "SLASH"; "PLUS"; "MINUS"; "COLON";
    "SEMICOLON"; "PERIOD"; "EQUAL"; "AND"; "PERCENT";
    "EQUAL_EQUAL"; "EXCLAMATION_MARK_EQUAL"; "OPEN_ANGLE_EQUAL"; "CLOSE_ANGLE_EQUAL";
    "PLUS_EQUAL"; "MINUS_EQUAL"; "ASTERISK_EQUAL"; "SLASH_EQUAL"; "PERCENT_EQUAL";
    "AND_AND"; "OR_OR";
    "reserved_splitter";
    "TYPE"; "INT"; "DEFINE"; "LET"; "TRANSACTION"; "SERIALIZABLE"; "IF"; "ELSE"; "FOR"; "EMIT";
    "INSERT"; "SCAN"; "BREAK"; "CONTINUE"; "TUPLE";
    "INVALID" ]%string.

Fixpoint index_of (t : token_type) (l : list token_type) : nat :=
  match l with
  | [] => 0
  | u :: l => if decide (t = u) then 0 else S (index_of t l)
  end.

Definition token_index (t : token_type) : nat := index_of t token_types.

(** [const size_t from = reserved_splitter + 1; const size_t to = INVALID;] *)
Definition from : nat := S (token_index reserved_splitter).
Definition to : nat := token_index INVALID.

Definition token_type_str (t : token_type) : cstr := lit (default ""%string (strs !! token_index t)).

(** [c &= ~0x20] *)
Definition capitalize (c : ascii) : ascii :=
  let '(Ascii b0 b1 b2 b3 b4 _ b6 b7) := c in Ascii b0 b1 b2 b3 b4 false b6 b7.

(** The loop [for (i = from; i < to; ++i) if (w == strs[i]) return token_type(i);]
    over [n] further indices. *)
Fixpoint reserved_loop (w : cstr) (i n : nat) : token_type :=
  match n with
  | O => INVALID
  | S n => if decide (lit <$> (strs !! i) = Some w) then default INVALID (token_types !! i)
           else reserved_loop w (S i) n
  end.

Definition as_reserved (word : cstr) : token_type :=
  reserved_loop (capitalize <$> word) from (to - from).

Definition symbols : cstr := lit "{}()[],:;".
Definition numbers : cstr := lit "1234567890".
Definition operator_tokens : cstr := lit "+-*/%=!<>.&|".

Definition symbol_token (c : ascii) : result token_type :=
  match c with
  | "{" => Ok OPEN_BRACE
  | "}" => Ok CLOSE_BRACE
  | "(" => Ok OPEN_PAREN
  | ")" => Ok CLOSE_PAREN
  | "[" => Ok OPEN_BRACKET
  | "]" => Ok CLOSE_BRACKET
  | "<" => Ok OPEN_ANGLE
  | ">" => Ok CLOSE_ANGLE
  | "," => Ok COMMA
  | "*" => Ok ASTERISK
  | "/" => Ok SLASH
  | "+" => Ok PLUS
  | "-" => Ok MINUS
  | ":" => Ok COLON
  | ";" => Ok SEMICOLON
  | "." => Ok PERIOD
  | "=" => Ok EQUAL
  | "&" => Ok AND
  | "%" => Ok PERCENT
  | _ => Abort
  end%char.

Definition operator_token_list : list (string * token_type) :=
  [ ("==", EQUAL_EQUAL); ("!=", EXCLAMATION_MARK_EQUAL); ("<=", OPEN_ANGLE_EQUAL);
    (">=", CLOSE_ANGLE_EQUAL); ("+=", PLUS_EQUAL); ("-=", MINUS_EQUAL);
    ("*=", ASTERISK_EQUAL); ("/=", SLASH_EQUAL); ("%=", PERCENT_EQUAL);
    ("&&", AND_AND); ("||", OR_OR) ]%string.

Fixpoint operator_lookup (image : cstr) (l : list (string * token_type)) : token_type :=
  match l with
  | [] => INVALID
  | (s, t) :: l => if decide (lit s = image) then t else operator_lookup image l
  end.

Definition operator_token (image : cstr) : result token_type :=
  match image with
  | [c] => symbol_token c
  | _ => Ok (operator_lookup image operator_token_list)
  end.

(** ** Tokens.  [text] is the contents of the token's slice of the source. *)

Record Token := mk_token { type : token_type; text : cstr; row : Z; col : Z }.

#[export] Instance Token_eq_dec : EqDecision Token.
Proof. solve_decision. Defined.

(** [operator<<(std::ostream&, const Token&)] *)
Definition show_token (t : Token) : cstr :=
  lit "[" ++ token_type_str (type t) ++ lit "]" ++
  match type t with
  | IDENTIFIER | STRING_LITERAL | RESERVED | NUMBER | FLOAT => lit "(" ++ text t ++ lit ")"
  | _ => []
  end.

(** ** The token stream: a vector and a position *)

Record TokenStream := mk_stream { tokens_ : list Token; idx_ : nat }.

Definition ts_new (tokens : list Token) : TokenStream := mk_stream tokens 0.

Definition ts_get (s : TokenStream) : result Token :=
  if decide (length (tokens_ s) ≤ idx_ s) then throw "reached EOF of tokens"
  else match tokens_ s !! idx_ s with Some t => Ok t | None => UB end.

Definition ts_next (s : TokenStream) : TokenStream := mk_stream (tokens_ s) (S (idx_ s)).
Definition ts_pos (s : TokenStream) : nat := idx_ s.
Definition ts_size (s : TokenStream) : nat := length (tokens_ s).
Definition ts_has_next (s : TokenStream) : bool := negb (bool_decide (idx_ s = length (tokens_ s))).

(** The parsers read the stream only through [get], [next] and [has_next], and call
    [next] only after a [get] that returned; on such runs the stream is its unread
    suffix.  The parser files work on that suffix. *)
Definition unread (s : TokenStream) : list Token := drop (idx_ s) (tokens_ s).

Definition get (ts : list Token) : result Token :=
  match ts with [] => throw "reached EOF of tokens" | t :: _ => Ok t end.
Definition next (ts : list Token) : list Token := tail ts.
Definition has_next (ts : list Token) : bool := match ts with [] => false | _ => true end.

(** The text of the exception [expect_token] throws (ast_node_parser.cpp). *)
Definition expect_message (t : Token) (ty : token_type) : cstr :=
  lit "line:" ++ show_Z (row t) ++ lit ":" ++ show_Z (col t) ++ lit " " ++
  lit "token: " ++ show_token t ++ lit " is not expected " ++ token_type_str ty ++ lit " desired".

Definition expect_token (t : Token) (ty : token_type) : result unit :=
  if decide (type t = ty) then Ok tt else Throw (expect_message t ty).

(** ** Lemmas *)

Lemma capitalize_idem c : capitalize (capitalize c) = capitalize c.
Proof. by destruct c. Qed.

(** The fifteen words between [from] and [to]. *)
Definition reserved_words : list (cstr * token_type) :=
  [ (lit "TYPE", TYPE); (lit "INT", INT); (lit "DEFINE", DEFINE); (lit "LET", LET);
    (lit "TRANSACTION", TRANSACTION); (lit "SERIALIZABLE", SERIALIZABLE); (lit "IF", IF);
    (lit "ELSE", ELSE); (lit "FOR", FOR); (lit "EMIT", EMIT); (lit "INSERT", INSERT);
    (lit "SCAN", SCAN); (lit "BREAK", BREAK); (lit "CONTINUE", CONTINUE); (lit "TUPLE", TUPLE) ].

Fixpoint assoc (w : cstr) (l : list (cstr * token_type)) : token_type :=
  match l with
  | [] => INVALID
  | (s, t) :: l => if decide (s = w) then t else assoc w l
  end.

Lemma reserved_loop_step u i n s t :
  strs !! i = Some s → token_types !! i = Some t →
  reserved_loop u i (S n) = if decide (lit s = u) then t else reserved_loop u (S i) n.
Proof.
  intros Hs Ht. cbn [reserved_loop]. rewrite Hs, Ht. simpl.
  destruct (decide (lit s = u)) as [->|Hne]; [by rewrite decide_True|].
  rewrite decide_False; [done|]. intros E. by injection E.
Qed.

Lemma as_reserved_assoc w : as_reserved w = assoc (capitalize <$> w) reserved_words.
Proof.
  unfold as_reserved. generalize (capitalize <$> w). intros u.
  unfold to, from. change (token_index INVALID - S (token_index reserved_splitter)) with 15.
  change (S (token_index reserved_splitter)) with 36.
  unfold reserved_words. cbn [assoc].
  do 15 (erewrite reserved_loop_step by reflexivity). reflexivity.
Qed.

Lemma assoc_not_INVALID w l : (∀ s t, (s, t) ∈ l → t ≠ INVALID) →
  assoc w l ≠ INVALID ↔ w ∈ l.*1.
Proof.
  induction l as [|[s t] l IH]; intros Hl; simpl; [set_solver|].
  case_decide as E; simpl.
  - subst. split; [set_solver|]. intros _. apply (Hl w t). set_solver.
  - rewrite IH; [set_solver|]. intros. apply (Hl s0 t0). set_solver.
Qed.

Lemma as_reserved_spec w :
  as_reserved w ≠ INVALID ↔ capitalize <$> w ∈ reserved_words.*1.
Proof.
  rewrite as_reserved_assoc. apply assoc_not_INVALID.
  assert (Forall (λ p, p.2 ≠ INVALID) reserved_words) as H by (by repeat constructor).
  intros s t Hin. rewrite Forall_forall in H. by apply (H (s, t)).
Qed.

(** The suffix view is a simulation of the stream for positions up to its end. *)
Lemma unread_get s : idx_ s ≤ length (tokens_ s) → ts_get s = get (unread s).
Proof.
  intros H. unfold ts_get, unread. case_decide as E.
  - by rewrite drop_ge by done.
  - destruct (lookup_lt_is_Some_2 (tokens_ s) (idx_ s)) as [t Ht]; [lia|].
    rewrite Ht. by rewrite (drop_S _ t).
Qed.

Lemma unread_next s : idx_ s < length (tokens_ s) →
  unread (ts_next s) = next (unread s) ∧ idx_ (ts_next s) ≤ length (tokens_ (ts_next s)).
Proof.
  intros H. destruct (lookup_lt_is_Some_2 (tokens_ s) (idx_ s)) as [t Ht]; [lia|].
  unfold unread. simpl. rewrite (drop_S _ t (idx_ s)) by done. split; [done|lia].
Qed.

Lemma unread_has_next s : idx_ s ≤ length (tokens_ s) → ts_has_next s = has_next (unread s).
Proof.
  intros H. unfold ts_has_next, unread. destruct (drop (idx_ s) (tokens_ s)) eqn:E; simpl.
  - apply (f_equal length) in E. rewrite length_drop in E. simpl in E.
    by rewrite bool_decide_true by lia.
  - apply (f_equal length) in E. rewrite length_drop in E. simpl in E.
    by rewrite bool_decide_false by lia.
Qed.
