(* ===== verification/Tokenizer.v ===== *)
(** * Tokenizer: [tokenize] of [src/src/reir/exec/tokenize.hpp]

    [Lexer] is the source's loop: it keeps the tokens found, the start [from] and
    length [len] of the word being read, the row, the column and the lexer state,
    and cuts each token's slice out of [code]; a slice outside [code] is [UB].
    [Ref] is a reference lexer that keeps the characters of the word instead of
    indices into the source; the two are proved equal, and the properties of the
    token list are proved on the reference. *)

From S2P Require Import Prelude Token.
From Stdlib Require Import ZArith Ascii String Lia.
From stdpp Require Import base option list strings sets.

Definition QUOTE : ascii := "034"%char.
Definition NEWLINE : ascii := "010"%char.
Definition TAB : ascii := "009"%char.

(** [static const std::string delimiters = "\n \t"] *)
Definition delimiters : cstr := [NEWLINE; " "%char; TAB].

Definition in_reserverd_word (word : cstr) : bool :=
  let w := capitalize <$> word in
  bool_decide (Some w ∈ (λ i, lit <$> (strs !! i)) <$> seq from (to - from)).

(** [add_token(ret, word, row, col)]: the reserved-word token is built with
    [Token{as_reserved(word), word, row}] and the identifier with
    [Token{IDENTIFIER, word, col}], so [col_] is zero in both and an identifier's
    [row] holds the column. *)
Definition add_word (ret : list Token) (word : cstr) (row col : Z) : list Token :=
  if in_reserverd_word word then ret ++ [mk_token (as_reserved word) word row 0]
  else ret ++ [mk_token IDENTIFIER word col 0].

Definition add_operator (ret : list Token) (word : cstr) (row col : Z) : result (list Token) :=
  ty ← operator_token word; Ok (ret ++ [mk_token ty word row col]).

Inductive lexer_state := S_INIT | S_NAME | S_NUMBER | S_STRING | S_OPERATOR.

#[export] Instance lexer_state_eq_dec : EqDecision lexer_state.
Proof. solve_decision. Defined.

Definition add_token (state : lexer_state) (ret : list Token) (word : cstr) (row col : Z)
    : result (list Token) :=
  match state with
  | S_NAME => Ok (add_word ret word row col)
  | S_NUMBER => Ok (ret ++ [mk_token NUMBER word row col])
  | S_OPERATOR => add_operator ret word row col
  | S_INIT | S_STRING => Abort
  end.

Definition number_message (c : ascii) (word : cstr) : cstr :=
  lit "don't use identifier " ++ [c] ++ lit " inside of number: " ++ word.

Definition is_delimiter (c : ascii) : bool := has_char c delimiters.
Definition is_symbol (c : ascii) : bool := has_char c symbols.
Definition is_operator (c : ascii) : bool := has_char c operator_tokens.
Definition is_number (c : ascii) : bool := has_char c numbers.

(** ** The loop of the source *)

Module Lexer.

Record state := mk {
  ret : list Token;
  from : nat;
  len : nat;
  row : Z;
  col : Z;
  current_state : lexer_state }.

Definition init : state := mk [] 0 0 1 0 S_INIT.

(** [add_token(current_state, ret, util::slice(&code[from], len), row, col)] *)
Definition flush (code : cstr) (st : state) : result (list Token) :=
  word ← mem_read code (from st) (len st);
  add_token (current_state st) (ret st) word (row st) (col st).

(** The same, guarded by [if (current_state != INIT)]. *)
Definition flush_unless_init (code : cstr) (st : state) : result (list Token) :=
  if decide (current_state st = S_INIT) then Ok (ret st) else flush code st.

(** One turn of the loop, at [code[i] = c]. *)
Definition step (code : cstr) (i : nat) (c : ascii) (st : state) : result state :=
  let '(mk rt fr ln rw cl cur) := st in
  if decide (cur = S_STRING) then
    if decide (c = QUOTE) then
      txt ← mem_read code (fr + 1) (ln - 1);
      Ok (mk (rt ++ [mk_token STRING_LITERAL txt rw cl]) i 0 rw (cl + 1) S_INIT)
    else Ok (mk rt fr (ln + 1) rw (cl + 1) cur)
  else if decide (c = QUOTE) then
    rt ← flush_unless_init code st;
    Ok (mk rt i 1 rw cl S_STRING)
  else if is_delimiter c then
    rt ← flush_unless_init code st;
    if decide (c = NEWLINE) then Ok (mk rt i 0 (rw + 1) (-1) S_INIT)
    else Ok (mk rt i 0 rw cl S_INIT)
  else if is_symbol c then
    rt ← flush_unless_init code st;
    ty ← symbol_token c;
    txt ← mem_read code i 1;
    Ok (mk (rt ++ [mk_token ty txt rw cl]) i 0 rw cl S_INIT)
  else if is_operator c then
    match cur with
    | S_INIT => Ok (mk rt i 1 rw cl S_OPERATOR)
    | S_NAME | S_NUMBER => rt ← flush code st; Ok (mk rt i 1 rw cl S_OPERATOR)
    | S_OPERATOR => Ok (mk rt fr (ln + 1) rw cl cur)
    | S_STRING => Abort
    end
  else if is_number c then
    match cur with
    | S_INIT => Ok (mk rt i 1 rw cl S_NUMBER)
    | S_NAME | S_NUMBER => Ok (mk rt fr (ln + 1) rw cl cur)
    | S_OPERATOR => rt ← flush code st; Ok (mk rt i 1 rw cl S_NUMBER)
    | S_STRING => Abort
    end
  else
    match cur with
    | S_INIT => Ok (mk rt i 1 rw (cl + 1) S_NAME)
    | S_NAME => Ok (mk rt fr (ln + 1) rw (cl + 1) cur)
    | S_NUMBER => word ← mem_read code fr ln; Throw (number_message c word)
    | S_OPERATOR => rt ← flush code st; Ok (mk rt i 1 rw (cl + 1) S_NAME)
    | S_STRING => Abort
    end.

(** [for (i = ...; i < code.size(); ++i)] over the [n] indices left. *)
Fixpoint loop (code : cstr) (i n : nat) (st : state) : result state :=
  match n with
  | O => Ok st
  | S n =>
      match code !! i with
      | None => UB
      | Some c => st ← step code i c st; loop code (S i) n st
      end
  end.

(** The switch after the loop. *)
Definition finish (code : cstr) (st : state) : result (list Token) :=
  match current_state st with
  | S_INIT => Ok (ret st)
  | S_NAME | S_NUMBER | S_OPERATOR => flush code st
  | S_STRING => throw "unexpected EOF in string literal"
  end.

End Lexer.

Definition tokenize (code : cstr) : result (list Token) :=
  st ← Lexer.loop code 0 (length code) Lexer.init; Lexer.finish code st.

(** ** The reference lexer: words as characters *)

Module Ref.

Record state := mk {
  ret : list Token;
  word : cstr;
  row : Z;
  col : Z;
  current_state : lexer_state }.

Definition init : state := mk [] [] 1 0 S_INIT.

Definition flush (st : state) : result (list Token) :=
  if decide (current_state st = S_INIT) then Ok (ret st)
  else add_token (current_state st) (ret st) (word st) (row st) (col st).

Definition step (c : ascii) (st : state) : result state :=
  let '(mk rt wd rw cl cur) := st in
  if decide (cur = S_STRING) then
    if decide (c = QUOTE) then
      Ok (mk (rt ++ [mk_token STRING_LITERAL wd rw cl]) [] rw (cl + 1) S_INIT)
    else Ok (mk rt (wd ++ [c]) rw (cl + 1) cur)
  else if decide (c = QUOTE) then rt ← flush st; Ok (mk rt [] rw cl S_STRING)
  else if is_delimiter c then
    rt ← flush st;
    if decide (c = NEWLINE) then Ok (mk rt [] (rw + 1) (-1) S_INIT) else Ok (mk rt [] rw cl S_INIT)
  else if is_symbol c then
    rt ← flush st; ty ← symbol_token c;
    Ok (mk (rt ++ [mk_token ty [c] rw cl]) [] rw cl S_INIT)
  else if is_operator c then
    if decide (cur = S_OPERATOR) then Ok (mk rt (wd ++ [c]) rw cl cur)
    else rt ← flush st; Ok (mk rt [c] rw cl S_OPERATOR)
  else if is_number c then
    if decide (cur = S_NAME ∨ cur = S_NUMBER) then Ok (mk rt (wd ++ [c]) rw cl cur)
    else rt ← flush st; Ok (mk rt [c] rw cl S_NUMBER)
  else if decide (cur = S_NAME) then Ok (mk rt (wd ++ [c]) rw (cl + 1) cur)
  else if decide (cur = S_NUMBER) then Throw (number_message c wd)
  else rt ← flush st; Ok (mk rt [c] rw (cl + 1) S_NAME).

Fixpoint run (s : cstr) (st : state) : result state :=
  match s with
  | [] => Ok st
  | c :: s => st ← step c st; run s st
  end.

Definition finish (st : state) : result (list Token) :=
  if decide (current_state st = S_STRING) then throw "unexpected EOF in string literal"
  else flush st.

Definition tokenize (code : cstr) : result (list Token) :=
  st ← run code init; finish st.

End Ref.

(** ** The simulation *)

(** The word the indices [from], [len] denote when the loop is at index [i]. *)
Definition word_at (code : cstr) (i : nat) (st : Lexer.state) (w : cstr) : Prop :=
  match Lexer.current_state st with
  | S_INIT => w = []
  | S_STRING => Lexer.from st + Lexer.len st = i ∧ 1 ≤ Lexer.len st ∧ i ≤ length code ∧
                w = take (Lexer.len st - 1) (drop (Lexer.from st + 1) code)
  | _ => Lexer.from st + Lexer.len st = i ∧ i ≤ length code ∧
         w = take (Lexer.len st) (drop (Lexer.from st) code)
  end.

Definition sim (code : cstr) (i : nat) (st : Lexer.state) (r : Ref.state) : Prop :=
  Lexer.ret st = Ref.ret r ∧ Lexer.row st = Ref.row r ∧ Lexer.col st = Ref.col r ∧
  Lexer.current_state st = Ref.current_state r ∧ word_at code i st (Ref.word r).

(** Two results are related when they end alike and their values are related. *)
Definition result_rel {A B} (R : A → B → Prop) (x : result A) (y : result B) : Prop :=
  match x, y with
  | Ok a, Ok b => R a b
  | Throw w, Throw w' => w = w'
  | Abort, Abort | UB, UB | OutOfFuel, OutOfFuel => True
  | _, _ => False
  end.

Lemma result_rel_bind {A B C D} (R : A → B → Prop) (S : C → D → Prop) x y f g :
  result_rel R x y → (∀ a b, R a b → result_rel S (f a) (g b)) →
  result_rel S (x ≫= f) (y ≫= g).
Proof. destruct x, y; simpl; try done. eauto. Qed.

Lemma result_rel_eq {A} (x y : result A) : result_rel eq x y ↔ x = y.
Proof. destruct x, y; simpl; split; intros; simplify_eq; try done. Qed.

Lemma take_snoc_lookup (code : cstr) a n c :
  code !! (a + n) = Some c → take n (drop a code) ++ [c] = take (n + 1) (drop a code).
Proof.
  intros H. rewrite Nat.add_1_r. symmetry. apply take_S_r. by rewrite lookup_drop.
Qed.

Lemma flush_sim code i st r :
  sim code i st r → Ref.current_state r ≠ S_STRING →
  Lexer.flush_unless_init code st = Ref.flush r ∧
  (Lexer.current_state st ≠ S_INIT → Lexer.flush code st = Ref.flush r).
Proof.
  destruct st as [rt fr ln rw cl cur], r as [rt' wd rw' cl' cur'].
  intros (E1 & E2 & E3 & E4 & Hw) Hns. simpl in *. subst rt' rw' cl' cur'.
  unfold Lexer.flush_unless_init, Lexer.flush, Ref.flush. simpl.
  unfold word_at in Hw. simpl in Hw.
  destruct cur; simpl; try done; destruct Hw as (? & ? & ->);
    unfold mem_read; rewrite decide_True by lia; done.
Qed.

(** The single character at [i], as a one-character slice of the source. *)
Lemma one_char (code : cstr) i c :
  code !! i = Some c → mem_read code i 1 = Ok [c] ∧ take 1 (drop i code) = [c].
Proof.
  intros H. pose proof (lookup_lt_Some _ _ _ H).
  unfold mem_read. rewrite decide_True by lia. by rewrite (drop_S _ c).
Qed.

Lemma start_word code i c cur rt rw cl :
  code !! i = Some c → cur ≠ S_STRING → cur ≠ S_INIT →
  sim code (S i) (Lexer.mk rt i 1 rw cl cur) (Ref.mk rt [c] rw cl cur).
Proof.
  intros H ??. pose proof (lookup_lt_Some _ _ _ H). destruct (one_char code i c H) as [_ E].
  repeat split; [done..|]. unfold word_at; destruct cur; try done; simpl; rewrite E;
    repeat split; lia.
Qed.

Lemma extend_word code i c st r rw cl :
  sim code i st r → code !! i = Some c → Lexer.current_state st ≠ S_INIT →
  sim code (S i)
    (Lexer.mk (Lexer.ret st) (Lexer.from st) (Lexer.len st + 1) rw cl (Lexer.current_state st))
    (Ref.mk (Ref.ret r) (Ref.word r ++ [c]) rw cl (Ref.current_state r)).
Proof.
  intros (E1 & E2 & E3 & E4 & Hw) H Hi. pose proof (lookup_lt_Some _ _ _ H).
  repeat split; simpl; try done. unfold word_at in *. simpl.
  destruct (Lexer.current_state st); try done.
  1,2,4: destruct Hw as (? & ? & ->); repeat split; [lia..|];
         apply take_snoc_lookup; by replace (Lexer.from st + Lexer.len st) with i by lia.
  destruct Hw as (? & ? & ? & ->); repeat split; [lia..|].
  replace (Lexer.len st + 1 - 1) with ((Lexer.len st - 1) + 1) by lia.
  apply take_snoc_lookup. by replace (Lexer.from st + 1 + (Lexer.len st - 1)) with i by lia.
Qed.

Ltac sim_flush Hs :=
  match type of Hs with sim ?code ?i ?st ?r =>
    let F := fresh "F" in let G := fresh "G" in
    destruct (flush_sim code i st r Hs) as [F G]; [done|];
    rewrite ?F, ?G by done; clear F G;
    eapply (result_rel_bind eq); [by apply result_rel_eq|]; intros ? ? <-
  end.

Lemma step_sim code i c st r :
  sim code i st r → code !! i = Some c →
  result_rel (sim code (S i)) (Lexer.step code i c st) (Ref.step c r).
Proof.
  intros Hs H. pose proof Hs as (E1 & E2 & E3 & E4 & Hw).
  destruct (one_char code i c H) as [Hone _]. pose proof (lookup_lt_Some _ _ _ H).
  destruct st as [rt fr ln rw cl cur], r as [rt' wd rw' cl' cur']. simpl in *.
  subst rt' rw' cl' cur'. unfold Lexer.step, Ref.step.
  destruct (decide (cur = S_STRING)) as [->|Hns].
  { case_decide as Hq.
    - destruct Hw as (? & ? & ? & ->). unfold mem_read. simpl in *.
      rewrite decide_True by lia. by repeat split.
    - by apply (extend_word code i c _ _ rw (cl + 1) Hs). }
  case_decide as Hq.
  { sim_flush Hs. repeat split; simpl; lia. }
  destruct (is_delimiter c).
  { sim_flush Hs. case_decide; by repeat split. }
  destruct (is_symbol c).
  { sim_flush Hs. eapply (result_rel_bind eq); [by apply result_rel_eq|]; intros ? ? <-.
    rewrite Hone. by repeat split. }
  destruct (is_operator c); [|destruct (is_number c)]; destruct cur; try done;
    repeat first [rewrite decide_True by auto | rewrite decide_False by naive_solver];
    first [ apply (extend_word code i c _ _ _ _ Hs H); done
          | by apply start_word
          | sim_flush Hs; by apply start_word
          | idtac ].
  destruct Hw as (? & ? & ->). unfold mem_read. simpl in *. by rewrite decide_True by lia.
Qed.

Lemma loop_sim code i n st r :
  sim code i st r → i + n = length code →
  result_rel (sim code (length code)) (Lexer.loop code i n st) (Ref.run (drop i code) r).
Proof.
  revert i st r. induction n as [|n IH]; intros i st r Hs Hn; simpl.
  - rewrite drop_ge by lia. simpl. by replace (length code) with i by lia.
  - destruct (lookup_lt_is_Some_2 code i) as [c Hc]; [lia|]. rewrite Hc, (drop_S _ c) by done.
    simpl. eapply result_rel_bind; [by apply step_sim|]. intros a b Hab.
    apply IH; [done|lia].
Qed.

Lemma finish_sim code st r :
  sim code (length code) st r → Lexer.finish code st = Ref.finish r.
Proof.
  intros Hs. pose proof Hs as (E1 & _ & _ & E4 & _).
  pose proof (flush_sim _ _ _ _ Hs) as HF.
  unfold Lexer.finish, Ref.finish. rewrite E4.
  destruct (Ref.current_state r) eqn:E; simpl; try done.
  { unfold Ref.flush. by rewrite E, E1. }
  all: apply HF; congruence.
Qed.

Lemma tokenize_ref code : tokenize code = Ref.tokenize code.
Proof.
  apply result_rel_eq. unfold tokenize, Ref.tokenize.
  eapply result_rel_bind.
  - rewrite <- (drop_0 code) at 3. apply loop_sim; [by repeat split|done].
  - intros a b Hab. apply result_rel_eq. by apply finish_sim.
Qed.

(** ** Lexemes: what the texts of each token type look like *)

(** A character that is none of quote, delimiter, symbol and operator character. *)
Definition is_name_char (c : ascii) : Prop :=
  c ≠ QUOTE ∧ is_delimiter c = false ∧ is_symbol c = false ∧ is_operator c = false.

Definition name_word (w : cstr) : Prop :=
  Forall is_name_char w ∧ ∃ c w', w = c :: w' ∧ is_number c = false.
Definition number_word (w : cstr) : Prop := w ≠ [] ∧ Forall (λ c, is_number c = true) w.
Definition operator_word (w : cstr) : Prop := w ≠ [] ∧ Forall (λ c, is_operator c = true) w.

Inductive lexeme : token_type → cstr → Prop :=
  | lex_reserved w : name_word w → in_reserverd_word w = true → lexeme (as_reserved w) w
  | lex_identifier w : name_word w → in_reserverd_word w = false → lexeme IDENTIFIER w
  | lex_number w : number_word w → lexeme NUMBER w
  | lex_string w : QUOTE ∉ w → lexeme STRING_LITERAL w
  | lex_symbol c ty : is_symbol c = true → symbol_token c = Ok ty → lexeme ty [c]
  | lex_operator w ty : operator_word w → operator_token w = Ok ty → lexeme ty w.

Create HintDb lex.
#[export] Hint Constructors lexeme : lex.

Lemma in_reserverd_word_spec w :
  in_reserverd_word w = true ↔ capitalize <$> w ∈ reserved_words.*1.
Proof.
  unfold in_reserverd_word. rewrite bool_decide_eq_true.
  replace ((λ i, lit <$> (strs !! i)) <$> seq from (to - from)) with (Some <$> reserved_words.*1)
    by reflexivity.
  rewrite list_elem_of_fmap. split.
  - intros (x & [= ->] & Hx). done.
  - intros H. by exists (capitalize <$> w).
Qed.

(** The state of the word being read. *)
Definition word_inv (st : Ref.state) : Prop :=
  match Ref.current_state st with
  | S_INIT => Ref.word st = []
  | S_NAME => name_word (Ref.word st)
  | S_NUMBER => number_word (Ref.word st)
  | S_STRING => QUOTE ∉ Ref.word st
  | S_OPERATOR => operator_word (Ref.word st)
  end.

Lemma add_token_lexeme cur rt w rw cl rt' :
  word_inv (Ref.mk rt w rw cl cur) → add_token cur rt w rw cl = Ok rt' →
  ∃ t, rt' = rt ++ [t] ∧ text t = w ∧ lexeme (type t) w ∧ type t ≠ STRING_LITERAL.
Proof.
  unfold word_inv. destruct cur; simpl; intros Hw H; try done.
  - injection H as <-. unfold add_word. destruct (in_reserverd_word w) eqn:E.
    + eexists; repeat split; simpl; eauto with lex.
      rewrite as_reserved_assoc. unfold reserved_words. simpl. by repeat case_decide.
    + eexists; repeat split; simpl; eauto with lex.
  - injection H as <-. eexists; repeat split; simpl; eauto with lex.
  - unfold add_operator in H. apply bind_Ok_inv in H as (ty & Hty & [= <-]).
    eexists; repeat split; simpl; eauto with lex. simpl.
    destruct w as [|c [|d w]]; simpl in Hty.
    + by simplify_eq.
    + destruct c as [[] [] [] [] [] [] [] []]; simpl in Hty; by simplify_eq.
    + injection Hty as <-. unfold operator_token_list. simpl. by repeat case_decide.
Qed.

Lemma flush_lexeme st rt' :
  word_inv st → Ref.flush st = Ok rt' →
  (Ref.current_state st = S_INIT ∧ rt' = Ref.ret st) ∨
  (Ref.current_state st ≠ S_INIT ∧ ∃ t, rt' = Ref.ret st ++ [t] ∧ text t = Ref.word st ∧
     lexeme (type t) (Ref.word st) ∧ type t ≠ STRING_LITERAL).
Proof.
  destruct st as [rt w rw cl cur]. unfold Ref.flush. simpl. intros Hw H.
  case_decide as E; [left; by simplify_eq|right]. split; [done|].
  by eapply add_token_lexeme.
Qed.

Lemma snoc_word (P : ascii → Prop) (w : cstr) c :
  w ≠ [] ∧ Forall P w → P c → w ++ [c] ≠ [] ∧ Forall P (w ++ [c]).
Proof.
  intros [Hne Hw] Hc. split; [by destruct w|]. apply Forall_app. split; [done|]. by constructor.
Qed.

Lemma name_word_snoc w c : name_word w → is_name_char c → name_word (w ++ [c]).
Proof.
  intros [Hw (d & w' & -> & Hd)] Hc. split.
  - apply Forall_app. split; [done|]. by constructor.
  - by exists d, (w' ++ [c]).
Qed.

Lemma name_word_single c : is_name_char c → is_number c = false → name_word [c].
Proof. intros. split; [by constructor|by exists c, []]. Qed.

Lemma word_single (P : ascii → Prop) c : P c → [c] ≠ [] ∧ Forall P [c].
Proof. intros. split; [done|by constructor]. Qed.
#[export] Hint Resolve name_word_snoc name_word_single : lex.

Definition is_lexeme (t : Token) : Prop := lexeme (type t) (text t).
Definition lex_inv (st : Ref.state) : Prop := Forall is_lexeme (Ref.ret st) ∧ word_inv st.

Lemma flush_inv st rt' : lex_inv st → Ref.flush st = Ok rt' → Forall is_lexeme rt'.
Proof.
  intros [Hr Hw] H. destruct (flush_lexeme st rt' Hw H) as [(_ & ->)|(_ & t & -> & E & Hl & _)].
  - done.
  - apply Forall_app. split; [done|]. constructor; [|done]. unfold is_lexeme. by rewrite E.
Qed.

Lemma step_inv c st st' : lex_inv st → Ref.step c st = Ok st' → lex_inv st'.
Proof.
  intros Hinv H. pose proof (λ rt', flush_inv st rt' Hinv) as Hflush.
  destruct Hinv as [Hr Hw]. destruct st as [rt w rw cl cur]. unfold word_inv in Hw. simpl in *.
  case_decide as Es; [subst; case_decide; inv_ok|].
  { split; simpl; [|done]. apply Forall_app. split; [done|].
    apply Forall_singleton. by apply lex_string. }
  { split; [done|]. unfold word_inv; simpl. rewrite elem_of_app, list_elem_of_singleton.
    naive_solver. }
  case_decide as Eq; [inv_ok; split; [by apply Hflush|]; unfold word_inv; simpl; set_solver|].
  destruct (is_delimiter c) eqn:Ed.
  { apply bind_Ok_inv in H as (r & Hm & H). case_decide; inv_ok; split; first [done | by apply Hflush]. }
  destruct (is_symbol c) eqn:Ey.
  { inv_ok. split; simpl; [|done]. apply Forall_app. split; [by apply Hflush|].
    apply Forall_singleton. by apply lex_symbol. }
  destruct (is_operator c) eqn:Eo.
  { case_decide; inv_ok; (split; [first [done | by apply Hflush]|]); unfold word_inv; simpl.
    - by apply snoc_word.
    - by apply word_single. }
  assert (is_name_char c) as Hname by done.
  destruct (is_number c) eqn:En.
  { case_decide as Ec; [destruct Ec; subst|]; inv_ok; (split; [first [done | by apply Hflush]|]);
      unfold word_inv; simpl; eauto with lex; first [by apply snoc_word|by apply word_single]. }
  case_decide; [subst; inv_ok; split; [done|by apply name_word_snoc]|].
  case_decide; [done|]. inv_ok. split; [by apply Hflush|by apply name_word_single].
Qed.

Lemma run_inv s st st' : lex_inv st → Ref.run s st = Ok st' → lex_inv st'.
Proof.
  revert st. induction s as [|c s IH]; intros st Hinv H; simpl in H; [by simplify_eq|].
  inv_bind. eapply IH; [|done]. by eapply step_inv.
Qed.

Lemma init_inv : lex_inv Ref.init.
Proof. split; [constructor|done]. Qed.

Lemma tokenize_lexeme_list code ts : tokenize code = Ok ts → Forall is_lexeme ts.
Proof.
  rewrite tokenize_ref. unfold Ref.tokenize. intros H. inv_bind.
  unfold Ref.finish in Hk. case_decide; [done|].
  eapply flush_inv; [|done]. eapply run_inv; [apply init_inv|done].
Qed.

(** ** What the tokens keep of the source *)

(** The source text of a token: a string literal carries its quotes. *)
Definition tok_image (ty : token_type) (txt : cstr) : cstr :=
  if decide (ty = STRING_LITERAL) then QUOTE :: txt ++ [QUOTE] else txt.

Definition images (ts : list Token) : cstr := concat ((λ t, tok_image (type t) (text t)) <$> ts).

(** The source without the delimiters outside string literals. *)
Fixpoint strip (in_string : bool) (s : cstr) : cstr :=
  match s with
  | [] => []
  | c :: s =>
      if decide (c = QUOTE) then c :: strip (negb in_string) s
      else if negb in_string && is_delimiter c then strip in_string s
      else c :: strip in_string s
  end.

(** The part of the source read but not yet in a token. *)
Definition pending (st : Ref.state) : cstr :=
  match Ref.current_state st with
  | S_STRING => QUOTE :: Ref.word st
  | S_INIT => []
  | _ => Ref.word st
  end.

Definition in_string (st : Ref.state) : bool := bool_decide (Ref.current_state st = S_STRING).

Lemma images_app ts us : images (ts ++ us) = images ts ++ images us.
Proof. unfold images. by rewrite fmap_app, concat_app. Qed.

Lemma images_single ty w rw cl : images [mk_token ty w rw cl] = tok_image ty w.
Proof. unfold images. simpl. apply app_nil_r. Qed.

Lemma tok_image_plain ty w : ty ≠ STRING_LITERAL → tok_image ty w = w.
Proof. intros. unfold tok_image. by rewrite decide_False. Qed.

Lemma flush_image st rt' :
  word_inv st → Ref.current_state st ≠ S_STRING → Ref.flush st = Ok rt' →
  images rt' = images (Ref.ret st) ++ pending st.
Proof.
  intros Hw Hs H. unfold pending.
  destruct (flush_lexeme st rt' Hw H) as [(-> & ->)|(Hi & t & -> & E & _ & Ht)].
  - by rewrite app_nil_r.
  - rewrite images_app. f_equal. unfold images. simpl. rewrite tok_image_plain, E, app_nil_r by done.
    by destruct (Ref.current_state st).
Qed.

Lemma symbol_not_string c ty : symbol_token c = Ok ty → ty ≠ STRING_LITERAL.
Proof. destruct c as [[] [] [] [] [] [] [] []]; simpl; intros; by simplify_eq. Qed.

Lemma is_delimiter_quote : is_delimiter QUOTE = false.
Proof. reflexivity. Qed.

Ltac by_assoc := repeat progress (rewrite <- ?app_assoc; simpl); done.

Lemma step_image c s st st' :
  lex_inv st → Ref.step c st = Ok st' →
  images (Ref.ret st') ++ pending st' ++ strip (in_string st') s =
  images (Ref.ret st) ++ pending st ++ strip (in_string st) (c :: s).
Proof.
  intros Hinv H. pose proof (λ Hs rt', flush_image st rt' (proj2 Hinv) Hs) as HF.
  destruct st as [rt w rw cl cur]. unfold pending, in_string in *. simpl in *.
  case_decide as Es; [subst; case_decide as Eq; inv_ok|].
  { rewrite images_app, images_single. unfold tok_image. simpl. by_assoc. }
  { by_assoc. }
  rewrite (bool_decide_false (cur = S_STRING)) by done. specialize (HF Es).
  case_decide as Eq; [inv_ok; rewrite (HF _ Hm); by_assoc|].
  simpl. destruct (is_delimiter c) eqn:Ed.
  { apply bind_Ok_inv in H as (r & Hm & H).
    case_decide; inv_ok; rewrite (HF _ Hm); by_assoc. }
  destruct (is_symbol c) eqn:Ey.
  { inv_ok. rewrite images_app, images_single, (HF _ Hm).
    rewrite tok_image_plain by (by eapply symbol_not_string). by_assoc. }
  destruct (is_operator c) eqn:Eo.
  { case_decide; inv_ok; [by_assoc|].
    rewrite (HF _ Hm). by_assoc. }
  destruct (is_number c) eqn:En.
  { case_decide as Ec; [destruct Ec; subst|]; inv_ok; try by_assoc.
    rewrite (HF _ Hm). by_assoc. }
  case_decide; [subst; inv_ok; by_assoc|].
  case_decide; [done|]. inv_ok. rewrite (HF _ Hm). by_assoc.
Qed.

Lemma run_image s st st' :
  lex_inv st → Ref.run s st = Ok st' →
  images (Ref.ret st') ++ pending st' = images (Ref.ret st) ++ pending st ++ strip (in_string st) s.
Proof.
  revert st. induction s as [|c s IH]; intros st Hinv H; simpl in H.
  - simplify_eq. simpl. by rewrite app_nil_r.
  - inv_bind. rewrite (IH r); [|by eapply step_inv|done].
    by apply (step_image c s).
Qed.

(** ** When [tokenize] fails *)

(** [r] is a value or an exception, or an abort where [P] holds. *)
Definition fine_end (P : Prop) {A} (r : result A) : Prop :=
  match r with
  | Ok _ | Throw _ => True
  | Abort => P
  | UB | OutOfFuel => False
  end.

Lemma fine_end_bind {A B} P (m : result A) (k : A → result B) :
  fine_end P m → (∀ a, m = Ok a → fine_end P (k a)) → fine_end P (m ≫= k).
Proof. destruct m; simpl; auto. Qed.

Lemma symbol_token_operator c :
  is_operator c = true → c ≠ "!"%char → c ≠ "|"%char → is_ok (symbol_token c) = true.
Proof. destruct c as [[] [] [] [] [] [] [] []]; vm_compute; congruence. Qed.

Lemma symbol_token_symbol c : is_symbol c = true → is_ok (symbol_token c) = true.
Proof. destruct c as [[] [] [] [] [] [] [] []]; vm_compute; congruence. Qed.

(** The words [symbol_token] has no case for. *)
Definition lone_operator (w : cstr) : Prop := w = lit "!" ∨ w = lit "|".

(** An operator word that is one of them. *)
Definition lone_word (st : Ref.state) : Prop :=
  Ref.current_state st = S_OPERATOR ∧ lone_operator (Ref.word st).

Lemma flush_fine st :
  word_inv st → Ref.current_state st ≠ S_STRING → fine_end (lone_word st) (Ref.flush st).
Proof.
  destruct st as [rt w rw cl cur]. unfold Ref.flush, word_inv, lone_word. simpl. intros Hw Hs.
  destruct cur; simpl; try done. unfold add_operator. apply fine_end_bind; [|done].
  destruct w as [|c [|d w]]; simpl; try done. destruct Hw as [_ Hw].
  apply Forall_inv in Hw.
  destruct (decide (c = "!"%char)) as [->|H1]; [split; [done|by left]|].
  destruct (decide (c = "|"%char)) as [->|H2]; [split; [done|by right]|].
  pose proof (symbol_token_operator c Hw H1 H2). by destruct (symbol_token c).
Qed.

Lemma step_fine c st : lex_inv st → fine_end (lone_word st) (Ref.step c st).
Proof.
  intros [_ Hw]. pose proof (λ Hs, flush_fine st Hw Hs) as HF.
  destruct st as [rt w rw cl cur]. simpl in *.
  case_decide as Es; [case_decide; done|]. specialize (HF Es).
  case_decide; [by apply fine_end_bind|].
  destruct (is_delimiter c); [apply fine_end_bind; [done|]; intros; by case_decide|].
  destruct (is_symbol c) eqn:Ey.
  { apply fine_end_bind; [done|]; intros ? _. apply fine_end_bind; [|done].
    pose proof (symbol_token_symbol c Ey). by destruct (symbol_token c). }
  destruct (is_operator c); [case_decide; [done|by apply fine_end_bind]|].
  destruct (is_number c); [case_decide; [done|by apply fine_end_bind]|].
  case_decide; [done|]. case_decide; [done|]. by apply fine_end_bind.
Qed.

(** The loop of the source stands, after [i] characters, before a lone operator that it is about to
    turn into a token. *)
Definition aborts_at (code : cstr) (i : nat) : Prop :=
  ∃ st w, Lexer.loop code 0 i Lexer.init = Ok st ∧ Lexer.current_state st = S_OPERATOR ∧
    mem_read code (Lexer.from st) (Lexer.len st) = Ok w ∧ lone_operator w ∧
    (i = length code ∨ ∃ c, code !! i = Some c ∧ Lexer.step code i c st = Abort).

Lemma loop_snoc code n : ∀ i st,
  Lexer.loop code i (S n) st =
  (st ← Lexer.loop code i n st; match code !! (i + n) with None => UB | Some c => Lexer.step code (i + n) c st end).
Proof.
  assert (Hloop : ∀ i n st, Lexer.loop code i (S n) st =
    match code !! i with None => UB | Some c => st ← Lexer.step code i c st; Lexer.loop code (S i) n st end) by done.
  induction n as [|n IH]; intros i st; rewrite Hloop.
  - cbn [Lexer.loop mbind result_bind]. rewrite Nat.add_0_r. destruct (code !! i); [|done]. by destruct (Lexer.step _ _ _ _).
  - rewrite Hloop. destruct (code !! i); [|done]. destruct (Lexer.step _ _ _ _); try done. cbn [mbind result_bind].
    rewrite IH. by rewrite Nat.add_succ_r.
Qed.

Lemma lone_word_read code i st r :
  sim code i st r → lone_word r →
  Lexer.current_state st = S_OPERATOR ∧
  mem_read code (Lexer.from st) (Lexer.len st) = Ok (Ref.word r) ∧ lone_operator (Ref.word r).
Proof.
  intros (_ & _ & _ & E & Hw) [Hc Hl]. rewrite Hc in E. unfold word_at in Hw. rewrite E in Hw.
  split; [done|]. split; [|done]. destruct Hw as (Hi & Hle & ->). unfold mem_read. by rewrite decide_True by lia.
Qed.

Lemma loop_fine code n : ∀ i st r,
  sim code i st r → lex_inv r → i + n = length code → Lexer.loop code 0 i Lexer.init = Ok st →
  fine_end (∃ i, aborts_at code i) (st ← Lexer.loop code i n st; Lexer.finish code st).
Proof.
  induction n as [|n IH]; intros i st r Hs Hinv Hn Hl.
  - cbn [Lexer.loop mbind result_bind]. unfold Lexer.finish.
    destruct (decide (Ref.current_state r = S_STRING)) as [Es|Es].
    { destruct Hs as (_ & _ & _ & -> & _). by rewrite Es. }
    pose proof (flush_fine r (proj2 Hinv) Es) as Hf. destruct (flush_sim _ _ _ _ Hs Es) as [_ Hfl].
    assert (Hlone : lone_word r → ∃ i, aborts_at code i).
    { intros Hr. destruct (lone_word_read _ _ _ _ Hs Hr) as (? & ? & ?).
      exists i, st, (Ref.word r). split_and!; [done..|left; lia]. }
    destruct (Lexer.current_state st) eqn:Ec; try done; try (rewrite Hfl by done; destruct (Ref.flush r); simpl in *; auto).
  - cbn [Lexer.loop]. destruct (lookup_lt_is_Some_2 code i ltac:(lia)) as [c Hc]. rewrite Hc.
    pose proof (step_sim code i c st r Hs Hc) as Hst. pose proof (step_fine c r Hinv) as Hf.
    destruct (Lexer.step code i c st) as [st1|w| | |] eqn:E1, (Ref.step c r) as [r1|w'| | |] eqn:E2; try done.
    + cbn [mbind result_bind]. eapply IH; [exact Hst|by eapply step_inv|lia|].
      rewrite loop_snoc, Hl. cbn [mbind result_bind Nat.add]. by rewrite Hc.
    + simpl in Hf. destruct (lone_word_read _ _ _ _ Hs Hf) as (? & ? & ?).
      simpl. exists i, st, (Ref.word r). split_and!; [done..|right; eauto].
Qed.

(** ** Rendering tokens back to source *)

Definition key (t : Token) : token_type * cstr := (type t, text t).

(** Each token's source text followed by a space. *)
Definition render (ks : list (token_type * cstr)) : cstr :=
  concat ((λ k, tok_image k.1 k.2 ++ [" "%char]) <$> ks).

Lemma run_app s t st : Ref.run (s ++ t) st = Ref.run s st ≫= Ref.run t.
Proof.
  revert st. induction s as [|c s IH]; intros st; simpl; [done|].
  rewrite bind_assoc. destruct (Ref.step c st); simpl; auto.
Qed.

(** Digits and operator characters belong to no earlier class. *)
Lemma number_char_class c :
  is_number c = true →
  is_operator c = false ∧ is_symbol c = false ∧ is_delimiter c = false ∧ c ≠ QUOTE.
Proof. destruct c as [[] [] [] [] [] [] [] []]; vm_compute; intros [=]; by repeat split. Qed.

Lemma operator_char_class c :
  is_operator c = true → is_symbol c = false ∧ is_delimiter c = false ∧ c ≠ QUOTE.
Proof. destruct c as [[] [] [] [] [] [] [] []]; vm_compute; intros [=]; by repeat split. Qed.

Lemma symbol_char_class c : is_symbol c = true → is_delimiter c = false ∧ c ≠ QUOTE.
Proof. destruct c as [[] [] [] [] [] [] [] []]; vm_compute; intros [=]; by repeat split. Qed.

Lemma run_name w rt acc rw cl :
  Forall is_name_char w → ∃ cl', Ref.run w (Ref.mk rt acc rw cl S_NAME) =
                                 Ok (Ref.mk rt (acc ++ w) rw cl' S_NAME).
Proof.
  intros Hw. revert acc cl. induction Hw as [|c w (Hq & Hd & Hy & Ho) Hw IH]; intros acc cl.
  - exists cl. by rewrite app_nil_r.
  - simpl. rewrite decide_False, Hd, Hy, Ho by done.
    destruct (is_number c); simpl.
    + destruct (IH (acc ++ [c]) cl) as [cl' E]. exists cl'. by rewrite E, <- app_assoc.
    + destruct (IH (acc ++ [c]) (cl + 1)%Z) as [cl' E]. exists cl'. by rewrite E, <- app_assoc.
Qed.

Lemma run_number w rt acc rw cl :
  Forall (λ c, is_number c = true) w →
  Ref.run w (Ref.mk rt acc rw cl S_NUMBER) = Ok (Ref.mk rt (acc ++ w) rw cl S_NUMBER).
Proof.
  intros Hw. revert acc. induction Hw as [|c w Hc Hw IH]; intros acc; [by rewrite app_nil_r|].
  destruct (number_char_class c Hc) as (Ho & Hy & Hd & Hq). simpl.
  rewrite decide_False, Hd, Hy, Ho, Hc by done. simpl.
  by rewrite IH, <- app_assoc.
Qed.

Lemma run_operator w rt acc rw cl :
  Forall (λ c, is_operator c = true) w →
  Ref.run w (Ref.mk rt acc rw cl S_OPERATOR) = Ok (Ref.mk rt (acc ++ w) rw cl S_OPERATOR).
Proof.
  intros Hw. revert acc. induction Hw as [|c w Hc Hw IH]; intros acc; [by rewrite app_nil_r|].
  destruct (operator_char_class c Hc) as (Hy & Hd & Hq). simpl.
  rewrite decide_False, Hd, Hy, Hc by done. simpl.
  by rewrite IH, <- app_assoc.
Qed.

Lemma run_string w rt acc rw cl :
  QUOTE ∉ w → ∃ cl', Ref.run w (Ref.mk rt acc rw cl S_STRING) =
                     Ok (Ref.mk rt (acc ++ w) rw cl' S_STRING).
Proof.
  revert acc cl. induction w as [|c w IH]; intros acc cl Hw.
  - exists cl. by rewrite app_nil_r.
  - simpl. rewrite decide_False by set_solver. simpl.
    destruct (IH (acc ++ [c]) (cl + 1)%Z) as [cl' E]; [set_solver|].
    exists cl'. by rewrite E, <- app_assoc.
Qed.

(** A space after a word ends it. *)
Lemma run_space rt w rw cl cur rt' :
  cur ≠ S_STRING → cur ≠ S_INIT → add_token cur rt w rw cl = Ok rt' →
  Ref.run [" "%char] (Ref.mk rt w rw cl cur) = Ok (Ref.mk rt' [] rw cl S_INIT).
Proof.
  intros Hs Hi H. simpl. rewrite decide_False by done. unfold Ref.flush. simpl.
  rewrite decide_False by done. by rewrite H.
Qed.

Lemma run_render_word cur c w rt rw cl (Q : list Token → Prop) :
  cur ≠ S_STRING → cur ≠ S_INIT →
  (∃ cl', Ref.run w (Ref.mk rt [c] rw cl cur) = Ok (Ref.mk rt (c :: w) rw cl' cur)) →
  (∀ cl', ∃ t, add_token cur rt (c :: w) rw cl' = Ok t ∧ Q t) →
  ∃ t cl', Ref.run (w ++ [" "%char]) (Ref.mk rt [c] rw cl cur) =
             Ok (Ref.mk t [] rw cl' S_INIT) ∧ Q t.
Proof.
  intros Hs Hi [cl' E] Hadd. destruct (Hadd cl') as (t & Ht & HP).
  exists t, cl'. split; [|done]. rewrite run_app, E. by apply run_space.
Qed.

Lemma run_render_lexeme ty w rt rw cl :
  lexeme ty w →
  ∃ t rw' cl', Ref.run (tok_image ty w ++ [" "%char]) (Ref.mk rt [] rw cl S_INIT) =
                 Ok (Ref.mk (rt ++ [t]) [] rw' cl' S_INIT) ∧ key t = (ty, w).
Proof.
  intros Hl. unfold tok_image. destruct Hl as [w Hw Hr|w Hw Hr|w Hw|w Hw|c ty Hc Hty|w ty Hw Hty].
  - assert (as_reserved w ≠ STRING_LITERAL) as Hns.
    { rewrite as_reserved_assoc. unfold reserved_words. simpl. by repeat case_decide. }
    rewrite decide_False by done. destruct Hw as [Hall (c & w' & -> & Hn)].
    pose proof (Forall_inv Hall) as (Hq & Hd & Hy & Ho). apply Forall_inv_tail in Hall.
    simpl. rewrite decide_False by done. rewrite Hd, Hy, Ho, Hn. simpl.
    destruct (run_render_word S_NAME c w' rt rw (cl + 1)
      (λ r, r = rt ++ [mk_token (as_reserved (c :: w')) (c :: w') rw 0])) as (t & cl' & E & ->);
      [done..|by apply (run_name w' rt [c])| |].
    + intros cl'. eexists. split; [done|]. unfold add_word. by rewrite Hr.
    + simpl in E. rewrite E. by eexists _, _, _.
  - rewrite decide_False by done. destruct Hw as [Hall (c & w' & -> & Hn)].
    pose proof (Forall_inv Hall) as (Hq & Hd & Hy & Ho). apply Forall_inv_tail in Hall.
    simpl. rewrite decide_False by done. rewrite Hd, Hy, Ho, Hn. simpl.
    destruct (run_render_word S_NAME c w' rt rw (cl + 1)
      (λ r, ∃ k, r = rt ++ [mk_token IDENTIFIER (c :: w') k 0])) as (t & cl' & E & k & ->);
      [done..|by apply (run_name w' rt [c])| |].
    + intros cl'. eexists. split; [done|]. exists cl'. unfold add_word. by rewrite Hr.
    + simpl in E. rewrite E. by eexists _, _, _.
  - rewrite decide_False by done. destruct Hw as [Hne Hall]. destruct w as [|c w]; [done|].
    pose proof (Forall_inv Hall) as Hc. apply Forall_inv_tail in Hall.
    destruct (number_char_class c Hc) as (Ho & Hy & Hd & Hq).
    simpl. rewrite decide_False by done. rewrite Hd, Hy, Ho, Hc. simpl.
    rewrite run_app, run_number by done. simpl. by eexists _, _, _.
  - rewrite decide_True by done. simpl.
    destruct (run_string w rt [] rw cl Hw) as [cl' E].
    rewrite <- app_assoc, run_app, E. simpl. by eexists _, _, _.
  - rewrite decide_False by (by eapply symbol_not_string).
    destruct (symbol_char_class c Hc) as (Hd & Hq). simpl.
    rewrite decide_False by done. rewrite Hd, Hc. simpl. rewrite Hty. simpl. by eexists _, _, _.
  - destruct Hw as [Hne Hall]. destruct w as [|c w]; [done|].
    assert (add_token S_OPERATOR rt (c :: w) rw cl =
              Ok (rt ++ [mk_token ty (c :: w) rw cl])) as Hadd.
    { unfold add_token, add_operator. by rewrite Hty. }
    assert (ty ≠ STRING_LITERAL) as Hns.
    { destruct (add_token_lexeme S_OPERATOR rt (c :: w) rw cl _ (conj Hne Hall) Hadd)
        as (t & Et & _ & _ & Hns). apply app_inv_head in Et. by injection Et as <-. }
    rewrite decide_False by done. pose proof (Forall_inv Hall) as Hc. apply Forall_inv_tail in Hall.
    destruct (operator_char_class c Hc) as (Hy & Hd & Hq).
    simpl. rewrite decide_False by done. rewrite Hd, Hy, Hc. simpl.
    rewrite run_app, run_operator by done. cbn [mbind result_bind app].
    rewrite (run_space rt (c :: w) rw cl S_OPERATOR _ ltac:(done) ltac:(done) Hadd).
    by eexists _, _, _.
Qed.

Lemma run_render ks rt rw cl :
  Forall (λ k, lexeme k.1 k.2) ks →
  ∃ ts rw' cl', Ref.run (render ks) (Ref.mk rt [] rw cl S_INIT) =
                  Ok (Ref.mk (rt ++ ts) [] rw' cl' S_INIT) ∧ key <$> ts = ks.
Proof.
  intros Hks. revert rt rw cl. induction Hks as [|[ty w] ks Hk Hks IH]; intros rt rw cl.
  - exists [], rw, cl. by rewrite app_nil_r.
  - unfold render. rewrite fmap_cons. cbn [concat]. rewrite run_app.
    destruct (run_render_lexeme ty w rt rw cl Hk) as (t & rw1 & cl1 & E & Ht).
    cbn [fst snd] in *. rewrite E.
    destruct (IH (rt ++ [t]) rw1 cl1) as (ts & rw2 & cl2 & E2 & Hts).
    exists (t :: ts), rw2, cl2. rewrite fmap_cons, Ht, Hts. split; [|done].
    simpl. unfold render in E2. rewrite E2. by rewrite <- app_assoc.
Qed.

Lemma tokenize_render_keys ks :
  Forall (λ k, lexeme k.1 k.2) ks → ∃ ts, tokenize (render ks) = Ok ts ∧ key <$> ts = ks.
Proof.
  intros Hks. rewrite tokenize_ref. unfold Ref.tokenize.
  destruct (run_render ks [] 1 0 Hks) as (ts & rw & cl & E & Hts).
  unfold Ref.init. rewrite E. by exists ts.
Qed.

(** * Properties *)

(** C9: the source's index-based loop, with its slices of the code, computes exactly
    what the reference lexer computes; in particular every slice lies inside the code. *)
Theorem tokenize_equiv_ref code : tokenize code = Ref.tokenize code.
Proof. apply tokenize_ref. Qed.

(** C29: on every input [tokenize] ends with a token list or an exception, or it aborts for one
    reason only: the loop has read an operator that is a single exclamation mark or a single bar and
    turns it into a token, for which [symbol_token] has no case.  It never reads outside the
    code, and no switch of [tokenize] and [add_token] reaches its [default: abort()]. *)
Theorem tokenize_safe code : fine_end (∃ i, aborts_at code i) (tokenize code).
Proof. by apply (loop_fine code (length code) 0 Lexer.init Ref.init); [|apply init_inv|..]. Qed.

(** C27: no character is lost or invented: the source texts of the tokens, put one after
    the other, are the code without the blanks outside its string literals. *)
Theorem tokenize_lossless code ts : tokenize code = Ok ts → images ts = strip false code.
Proof.
  rewrite tokenize_ref. unfold Ref.tokenize. intros H. inv_bind.
  pose proof (run_inv _ _ _ init_inv Hm) as [_ Hw].
  pose proof (run_image code Ref.init r init_inv Hm) as E. cbn in E.
  unfold Ref.finish in Hk. case_decide; [done|].
  by rewrite (flush_image r ts Hw).
Qed.

Lemma tokenize_lossless_witness :
  ∃ ts, tokenize (lit "let x = 10") = Ok ts ∧ images ts = strip false (lit "let x = 10").
Proof. eexists. split; [vm_compute; reflexivity|]. apply tokenize_lossless. vm_compute. reflexivity. Defined.

(** C28: every token carries a text of its class: a keyword or identifier is a word that
    does not start with a digit and is a keyword exactly if it is one of the reserved
    words up to case, a number consists of digits, a string literal holds no quote, and
    symbol and operator tokens have the type their characters stand for. *)
Theorem tokenize_lexemes code ts :
  tokenize code = Ok ts → Forall (λ t, lexeme (type t) (text t)) ts.
Proof. apply tokenize_lexeme_list. Qed.

Lemma tokenize_lexemes_witness :
  ∃ ts, tokenize (lit "insert t {1,x+2}") = Ok ts ∧ Forall (λ t, lexeme (type t) (text t)) ts.
Proof.
  eexists. split; [vm_compute; reflexivity|]. apply (tokenize_lexemes (lit "insert t {1,x+2}")).
  vm_compute. reflexivity.
Defined.

(** C21: writing out any list of lexemes with a space after each, and tokenizing the result,
    gives back tokens of the same types and texts. *)
Theorem tokenize_render ks :
  Forall (λ k, lexeme k.1 k.2) ks → ∃ ts, tokenize (render ks) = Ok ts ∧ key <$> ts = ks.
Proof. apply tokenize_render_keys. Qed.

Lemma tokenize_render_witness :
  ∃ ts, tokenize (render [(NUMBER, lit "12"); (STRING_LITERAL, lit "a b"); (COMMA, lit ",")]) = Ok ts ∧
        key <$> ts = [(NUMBER, lit "12"); (STRING_LITERAL, lit "a b"); (COMMA, lit ",")].
Proof.
  apply tokenize_render. repeat apply Forall_cons_2; [..|apply Forall_nil_2].
  - apply lex_number. split; [discriminate|]. by repeat constructor.
  - apply lex_string. apply (bool_decide_unpack _). vm_compute. exact I.
  - by apply lex_symbol.
Defined.

(** whether a word is reserved, and as what, depends only on the word with bit 5 of
    every character cleared, so keywords are recognised in any case; the two tests
    [in_reserverd_word] and [as_reserved] agree. *)
Theorem reserved_any_case w w' :
  capitalize <$> w = capitalize <$> w' →
  as_reserved w = as_reserved w' ∧ in_reserverd_word w = in_reserverd_word w' ∧
  (in_reserverd_word w = true ↔ as_reserved w ≠ INVALID).
Proof.
  intros E. rewrite as_reserved_spec, in_reserverd_word_spec, !as_reserved_assoc, E.
  split; [done|]. split; [|done].
  apply eq_bool_prop_intro. by rewrite !Is_true_true, !in_reserverd_word_spec, E.
Qed.

Lemma reserved_any_case_witness :
  as_reserved (lit "TuPLe") = as_reserved (lit "tuple") ∧
  in_reserverd_word (lit "TuPLe") = in_reserverd_word (lit "tuple") ∧
  (in_reserverd_word (lit "TuPLe") = true ↔ as_reserved (lit "TuPLe") ≠ INVALID).
Proof. apply reserved_any_case. vm_compute. reflexivity. Defined.

(** an exclamation mark or a bar that is not part of a longer operator makes the process
    abort, although [operator_tokens] lists both characters as operator characters. *)
Theorem tokenize_lone_bang_aborts :
  is_operator "!"%char = true ∧ is_operator "|"%char = true ∧
  tokenize (lit "! x") = Abort ∧ tokenize (lit "x | y") = Abort.
Proof. repeat split; vm_compute; reflexivity. Qed.

(** an identifier token records the column in its [row] and zero in its [col]: the
    identifier on the third line of this code is reported on row 0, while a number there is
    reported on row 3. *)
Theorem identifier_row_is_column :
  tokenize ([NEWLINE; NEWLINE] ++ lit " x") = Ok [mk_token IDENTIFIER (lit "x") 0 0] ∧
  tokenize ([NEWLINE; NEWLINE] ++ lit " 7") = Ok [mk_token NUMBER (lit "7") 3 (-1)].
Proof. split; vm_compute; reflexivity. Qed.
