(* ===== verification/Value.v ===== *)
(** * Value: [reir::Value], [reir::MaybeValue]
      ([src/src/reir/db/value.hpp], [value.cpp], [maybe_value.hpp])

    [ValueImpl] and [MaybeValue] are modelled by their contents.  The section
    [Sharing] models what the contents leave out: a [Value] is a
    [std::shared_ptr<ValueImpl>], copying one copies the pointer, and assigning to
    one writes through it.  A [double] is its 64-bit pattern. *)

From S2P Require Import Prelude.
From Stdlib Require Import ZArith NArith Ascii String Lia.
From stdpp Require Import base option list strings.

Inductive ValType := V_INT | V_VARCHAR | V_FLOAT | V_UNKNWON.

#[export] Instance ValType_eq_dec : EqDecision ValType.
Proof. solve_decision. Defined.

(** [boost::variant<int64_t, std::string, double>] *)
Inductive variant := VarInt (z : Z) | VarString (s : cstr) | VarDouble (bits : Z).

#[export] Instance variant_eq_dec : EqDecision variant.
Proof. solve_decision. Defined.

Record ValueImpl := mk_value { type_ : ValType; value_ : variant }.

#[export] Instance ValueImpl_eq_dec : EqDecision ValueImpl.
Proof. solve_decision. Defined.

(** The constructors; the default one leaves the variant at its first alternative. *)
Definition value_of_slice (s : cstr) : ValueImpl := mk_value V_VARCHAR (VarString s).
Definition value_of_int (v : Z) : ValueImpl := mk_value V_INT (VarInt v).
Definition value_of_double (bits : Z) : ValueImpl := mk_value V_FLOAT (VarDouble bits).
Definition value_default : ValueImpl := mk_value V_UNKNWON (VarInt 0).

Definition is_int (v : ValueImpl) : bool := bool_decide (type_ v = V_INT).
Definition is_varchar (v : ValueImpl) : bool := bool_decide (type_ v = V_VARCHAR).
Definition is_float (v : ValueImpl) : bool := bool_decide (type_ v = V_FLOAT).

(** [boost::get<T>] throws [boost::bad_get] when another alternative is held. *)
Definition bad_get {A} : result A := throw "boost::bad_get: failed value get using boost::get".

Definition get_int (x : variant) : result Z := match x with VarInt z => Ok z | _ => bad_get end.
Definition get_string (x : variant) : result cstr :=
  match x with VarString s => Ok s | _ => bad_get end.
Definition get_double (x : variant) : result Z :=
  match x with VarDouble b => Ok b | _ => bad_get end.

Definition as_int (v : ValueImpl) : result Z := if is_int v then get_int (value_ v) else Abort.
Definition as_varchar (v : ValueImpl) : result cstr :=
  if is_varchar v then get_string (value_ v) else Abort.
Definition as_float (v : ValueImpl) : result Z :=
  if is_float v then get_double (value_ v) else Abort.

Definition serialized_length (v : ValueImpl) : result nat :=
  match type_ v with
  | V_INT => Ok 8
  | V_VARCHAR => s ← get_string (value_ v); Ok (length s)
  | V_FLOAT => Ok 8
  | V_UNKNWON => throw "unknown valtype"
  end.

(** A [size_t] in memory. *)
Definition bytes_of_size (n : nat) : cstr := le_split 8 (Z.of_nat n).
Definition size_of_bytes (bs : cstr) : nat := Z.to_nat (le_combine bs).

(** [serialize(char* buffer)], the buffer being [mem] from [off] on. *)
Definition value_serialize (v : ValueImpl) (mem : cstr) (off : nat) : result cstr :=
  match type_ v with
  | V_INT => z ← get_int (value_ v); mem_write mem off (bytes_of_i64 z)
  | V_VARCHAR =>
      str ← get_string (value_ v);
      mem ← mem_write mem off (bytes_of_size (length str));
      mem_write mem (off + 8) str
  | V_FLOAT => b ← get_double (value_ v); mem_write mem off (le_split 8 b)
  | V_UNKNWON => throw "unknown valtype"
  end.

Definition value_deserialize (mem : cstr) (off : nat) (as_ : ValType) : result ValueImpl :=
  match as_ with
  | V_INT => bs ← mem_read mem off 8; Ok (mk_value V_INT (VarInt (i64_of_bytes bs)))
  | V_VARCHAR =>
      lbs ← mem_read mem off 8;
      str ← mem_read mem (off + 8) (size_of_bytes lbs);
      Ok (mk_value V_VARCHAR (VarString str))
  | V_FLOAT => bs ← mem_read mem off 8; Ok (mk_value V_FLOAT (VarDouble (le_combine bs)))
  | V_UNKNWON => throw "unknown valtype"
  end.

(** [==] of two doubles given by their bits: a NaN equals nothing, both zeros are equal. *)
Definition is_nan (b : Z) : bool :=
  ((2047 * 2 ^ 52 <? Z.land b (2 ^ 63 - 1))%Z).
Definition double_eqb (a b : Z) : bool :=
  negb (is_nan a) && negb (is_nan b) &&
  ((a =? b)%Z || ((Z.land a (2 ^ 63 - 1) =? 0)%Z && (Z.land b (2 ^ 63 - 1) =? 0)%Z)).

Definition variant_eqb (x y : variant) : bool :=
  match x, y with
  | VarInt a, VarInt b => (a =? b)%Z
  | VarString a, VarString b => bool_decide (a = b)
  | VarDouble a, VarDouble b => double_eqb a b
  | _, _ => false
  end.

Definition value_eqb (l r : ValueImpl) : bool :=
  bool_decide (type_ l = type_ r) && variant_eqb (value_ l) (value_ r).

(** ** MaybeValue *)

Record MaybeValue := mk_maybe { exists_ : bool; mvalue : ValueImpl }.

#[export] Instance MaybeValue_eq_dec : EqDecision MaybeValue.
Proof. solve_decision. Defined.

Definition maybe_default : MaybeValue := mk_maybe false value_default.
Definition maybe_of_slice (s : cstr) : MaybeValue := mk_maybe true (value_of_slice s).
Definition maybe_of_int (v : Z) : MaybeValue := mk_maybe true (value_of_int v).

(** [value()] asserts that there is one. *)
Definition maybe_value (m : MaybeValue) : result ValueImpl :=
  if exists_ m then Ok (mvalue m) else Abort.

Definition maybe_serialized_length (m : MaybeValue) : result nat :=
  if exists_ m then n ← serialized_length (mvalue m); Ok (1 + n) else Ok 1.

Definition make_null (m : MaybeValue) : MaybeValue := mk_maybe false value_default.

(** [tuple = v] *)
Definition maybe_assign (m : MaybeValue) (v : ValueImpl) : MaybeValue := mk_maybe true v.

Definition byte1 : ascii := ascii_of_nat 1.
Definition byte0 : ascii := ascii_of_nat 0.

Definition maybe_serialize (m : MaybeValue) (mem : cstr) (off : nat) : result cstr :=
  if exists_ m then
    mem ← mem_write mem off [byte1];
    value_serialize (mvalue m) mem (off + 1)
  else mem_write mem off [byte0].

(** Only the flag is reset when the buffer holds a null. *)
Definition maybe_deserialize (m : MaybeValue) (mem : cstr) (off : nat) (as_ : ValType)
    : result MaybeValue :=
  b ← mem_read mem off 1;
  if decide (b = [byte1]) then
    v ← value_deserialize mem (off + 1) as_; Ok (mk_maybe true v)
  else Ok (mk_maybe false (mvalue m)).

Definition maybe_eqb (l r : MaybeValue) : bool :=
  if decide (exists_ l = exists_ r) then
    if exists_ l then value_eqb (mvalue l) (mvalue r) else true
  else false.

(** ** Printing

    How the standard library writes a [double] is a parameter. *)
Section dump.
Context (show_double : Z → cstr).

(** [ValueImpl::dump] *)
Definition value_dump (v : ValueImpl) : cstr :=
  match value_ v with
  | VarInt z => show_Z z
  | VarString s => ["034"%char] ++ s ++ ["034"%char]
  | VarDouble b => show_double b
  end.

(** [operator<<] of [MaybeValue] *)
Definition show_maybe (m : MaybeValue) : cstr :=
  if exists_ m then value_dump (mvalue m) else lit "(null)".
End dump.

(** ** Shared payloads

    The heap of [ValueImpl]s; a [Value] is an address. *)
Section Sharing.

Abbreviation heap := (list ValueImpl).

(** [Value::Value(...)]: [pimpl_(new ValueImpl(...))] *)
Definition value_new (h : heap) (v : ValueImpl) : heap * nat := (h ++ [v], length h).

(** The implicit copy constructor copies the pointer. *)
Definition value_copy (l : nat) : nat := l.

(** [Value::operator=] writes the right-hand side's contents through the pointer. *)
Definition value_assign (h : heap) (l r : nat) : result heap :=
  match h !! l, h !! r with
  | Some _, Some v => Ok (<[l := v]> h)
  | _, _ => UB
  end.
Definition value_assign_int (h : heap) (l : nat) (z : Z) : result heap :=
  match h !! l with
  | Some _ => Ok (<[l := value_of_int z]> h)
  | None => UB
  end.

(** A [MaybeValue] object: its flag and its [Value]. *)
Record MaybeObj := mk_obj { o_exists : bool; o_value : nat }.

Definition obj_new (h : heap) (v : ValueImpl) : heap * MaybeObj :=
  let '(h, l) := value_new h v in (h, mk_obj true l).

(** The implicit copy constructor of [MaybeValue]. *)
Definition obj_copy (o : MaybeObj) : MaybeObj := mk_obj (o_exists o) (value_copy (o_value o)).

(** [make_null]: [exists_ = false; value_ = Value();] the temporary is a fresh default value. *)
Definition obj_make_null (h : heap) (o : MaybeObj) : result (heap * MaybeObj) :=
  let '(h, l) := value_new h value_default in
  h ← value_assign h (o_value o) l; Ok (h, mk_obj false (o_value o)).

(** What an object denotes. *)
Definition obj_contents (h : heap) (o : MaybeObj) : option MaybeValue :=
  mk_maybe (o_exists o) <$> (h !! o_value o).

End Sharing.

(** ** Well-formed values and lemmas *)

Definition value_wf (v : ValueImpl) : Prop :=
  match type_ v, value_ v with
  | V_INT, VarInt z => is_i64 z
  | V_VARCHAR, VarString s => (Z.of_nat (length s) < two_64)%Z
  | V_FLOAT, VarDouble b => is_u64 b
  | _, _ => False
  end.

(** How many bytes [serialize] writes. *)
Definition written_length (v : ValueImpl) : nat :=
  match value_ v with VarString s => 8 + length s | _ => 8 end.

Lemma length_bytes_of_size n : length (bytes_of_size n) = 8.
Proof. apply length_le_split. Qed.

Lemma size_roundtrip n : (Z.of_nat n < two_64)%Z → size_of_bytes (bytes_of_size n) = n.
Proof.
  intros H. unfold size_of_bytes, bytes_of_size. rewrite le_combine_split.
  change (256 ^ Z.of_nat 8)%Z with two_64. rewrite Z.mod_small by lia. lia.
Qed.

Lemma u64_roundtrip b : is_u64 b → le_combine (le_split 8 b) = b.
Proof.
  intros H. rewrite le_combine_split. change (256 ^ Z.of_nat 8)%Z with two_64.
  apply Z.mod_small. done.
Qed.

(** Writing two neighbouring pieces is writing their concatenation. *)
Lemma mem_write_app mem off a b :
  off + length (a ++ b) ≤ length mem →
  mem_write mem off a ≫= (λ m, mem_write m (off + length a) b) = mem_write mem off (a ++ b).
Proof.
  intros H. rewrite length_app in H. rewrite (mem_write_Ok mem off a) by lia. simpl.
  assert (length (take off mem) = off) as Ht by (rewrite length_take; lia).
  rewrite (mem_write_Ok mem) by (rewrite length_app; lia).
  rewrite mem_write_Ok by (rewrite !length_app, length_drop, Ht; lia).
  assert (length (take off mem ++ a) = off + length a) as Hta by (rewrite length_app; lia).
  f_equal. rewrite (app_assoc (take off mem) a (drop (off + length a) mem)).
  rewrite take_app_length' by done. rewrite drop_app_ge by lia.
  rewrite drop_drop, Hta, length_app, <- !app_assoc. do 4 f_equal. lia.
Qed.

(** The bytes [serialize] writes. *)
Definition value_bytes (v : ValueImpl) : cstr :=
  match value_ v with
  | VarInt z => bytes_of_i64 z
  | VarString s => bytes_of_size (length s) ++ s
  | VarDouble b => le_split 8 b
  end.

Lemma length_value_bytes v : length (value_bytes v) = written_length v.
Proof.
  unfold value_bytes, written_length. destruct (value_ v).
  - apply length_bytes_of_i64.
  - by rewrite length_app, length_bytes_of_size.
  - apply length_le_split.
Qed.

Lemma value_serialize_bytes v mem off :
  value_wf v → off + written_length v ≤ length mem →
  value_serialize v mem off = mem_write mem off (value_bytes v).
Proof.
  destruct v as [[] []]; unfold value_wf, value_serialize, value_bytes, written_length; simpl;
    try done. intros _ H.
  rewrite <- mem_write_app by (rewrite length_app, length_bytes_of_size; lia).
  by rewrite length_bytes_of_size.
Qed.

(** Reading a value where its bytes lie. *)
Lemma value_deserialize_bytes v pre post :
  value_wf v →
  value_deserialize (pre ++ value_bytes v ++ post) (length pre) (type_ v) = Ok v.
Proof.
  destruct v as [[] []]; unfold value_wf, value_deserialize, value_bytes; simpl; try done; intros H.
  - rewrite mem_read_at by (done || by rewrite length_bytes_of_i64). simpl.
    by rewrite i64_roundtrip.
  - rewrite <- !app_assoc, mem_read_at by (done || by rewrite length_bytes_of_size). simpl.
    rewrite size_roundtrip by done. rewrite (app_assoc pre).
    by rewrite mem_read_at by (rewrite ?length_app, ?length_bytes_of_size; done).
  - rewrite mem_read_at by (done || by rewrite length_le_split). simpl. by rewrite u64_roundtrip.
Qed.

(** * Properties *)

(** C34: a value of any type, serialized into a buffer with room for it and deserialized at
    the same place with its type, comes back. *)
Theorem value_serialize_roundtrip v mem off :
  value_wf v → off + written_length v ≤ length mem →
  ∃ mem', value_serialize v mem off = Ok mem' ∧ length mem' = length mem ∧
          value_deserialize mem' off (type_ v) = Ok v.
Proof.
  intros Hv Hm. rewrite value_serialize_bytes by done.
  rewrite <- length_value_bytes in Hm. rewrite mem_write_Ok by done. eexists. split; [done|].
  assert (length (take off mem) = off) as Ht by (rewrite length_take; lia). split.
  - rewrite !length_app, length_drop, Ht. lia.
  - rewrite <- Ht at 3. by apply value_deserialize_bytes.
Qed.

Lemma value_serialize_roundtrip_witness :
  ∃ mem', value_serialize (value_of_slice (lit "abc")) (replicate 12 byte0) 1 = Ok mem' ∧
          length mem' = length (replicate 12 byte0) ∧
          value_deserialize mem' 1 (type_ (value_of_slice (lit "abc"))) = Ok (value_of_slice (lit "abc")).
Proof. apply value_serialize_roundtrip; [vm_compute; reflexivity|vm_compute; lia]. Defined.

(** [serialized_length] tells how many bytes [serialize] writes for an integer or a double,
    but leaves out the eight length bytes of a string: a string serialized into a buffer of
    [serialized_length] bytes is written past its end. *)
Theorem string_serialized_length_short s :
  serialized_length (value_of_slice s) = Ok (length s) ∧
  written_length (value_of_slice s) = 8 + length s ∧
  value_serialize (value_of_slice s) (replicate (length s) byte0) 0 = UB.
Proof.
  split; [done|]. split; [done|]. unfold value_serialize. simpl. unfold mem_write.
  rewrite length_replicate, length_bytes_of_size.
  case_decide; simpl; [|done]. rewrite decide_False; [done|].
  rewrite length_app, length_bytes_of_size. rewrite drop_replicate, length_replicate. lia.
Qed.

(** copying a [MaybeValue] shares its payload: setting the copy to null turns the original,
    which still claims to hold a value, into one of unknown type. *)
Theorem maybe_copy_shares h v :
  let '(h1, o) := obj_new h v in
  ∃ h2 c, obj_make_null h1 (obj_copy o) = Ok (h2, c) ∧
          obj_contents h2 c = Some maybe_default ∧
          obj_contents h2 o = Some (mk_maybe true value_default).
Proof.
  simpl. unfold obj_make_null, value_assign, obj_copy, value_copy. simpl.
  assert (length h < length ((h ++ [v]) ++ [value_default])) by (rewrite !length_app; simpl; lia).
  destruct (lookup_lt_is_Some_2 ((h ++ [v]) ++ [value_default]) (length h)) as [x Hx]; [done|].
  rewrite Hx, list_lookup_middle by done. eexists _, _. split; [done|].
  unfold obj_contents. simpl. by rewrite list_lookup_insert_eq.
Qed.
