(* ===== verification/Attr.v ===== *)
(** * Attr: column types and columns
      ([AttrType] of [src/src/reir/db/attr_type.hpp], [attr_type.cpp];
       [Attribute] of [attribute.hpp], [attribute.cpp])

    [encode] and [decode] work on a [char*] buffer: the memory [mem] from [off] on.
    [serialize] writes text to a stream (a character list); [deserialize] reads the
    characters left in one through [std::istreambuf_iterator]s, returning the rest.  At the
    end of the stream such an iterator stands still and reads the end-of-file value, which is
    none of the delimiters: a loop that waits for one has no end ([OutOfFuel]). *)

From S2P Require Import Prelude Value.
From Stdlib Require Import ZArith NArith Ascii String Lia.
From stdpp Require Import base option list strings sets.

(** ** AttrType *)

(** [enum Type : size_t]; [deserialize] casts any number to it. *)
Inductive Type_ := INTEGER | DOUBLE | STRING | DATE | UNKNOWN | OTHER (n : N).

#[export] Instance Type_eq_dec : EqDecision Type_.
Proof. solve_decision. Defined.

Definition Type_to_N (t : Type_) : N :=
  match t with
  | INTEGER => 0 | DOUBLE => 1 | STRING => 2 | DATE => 3 | UNKNOWN => 4 | OTHER n => n
  end.
Definition Type_of_N (n : N) : Type_ :=
  match n with
  | 0 => INTEGER | 1 => DOUBLE | 2 => STRING | 3 => DATE | 4 => UNKNOWN | _ => OTHER n
  end%N.

Record AttrType := mk_attr_type { at_type : Type_; at_param : N }.

#[export] Instance AttrType_eq_dec : EqDecision AttrType.
Proof. solve_decision. Defined.

(** [explicit AttrType(const std::string& t)] *)
Definition AttrType_of_string (t : cstr) : AttrType :=
  if decide (t = lit "int") then mk_attr_type INTEGER 0
  else if decide (t = lit "string") then mk_attr_type STRING 16
  else mk_attr_type UNKNOWN 0.

Definition AttrType_fixed_length (t : AttrType) : bool :=
  negb (bool_decide (at_type t = STRING)) || negb (at_param t =? 0)%N.

Definition is_integer (t : AttrType) : bool := bool_decide (at_type t = INTEGER).

Definition AttrType_default_size (t : AttrType) : result nat :=
  match at_type t with
  | INTEGER => Ok 8
  | STRING => Ok (N.to_nat (at_param t))
  | DATE => Ok 8
  | DOUBLE => Ok 8
  | _ => Throw (lit "unknown type:" ++ show_N (Type_to_N (at_type t)))
  end.

Definition AttrType_encoded_length (t : AttrType) (v : ValueImpl) : result nat :=
  match at_type t with
  | INTEGER => Ok 8
  | STRING =>
      if is_varchar v then str ← as_varchar v; Ok (length str)
      else throw "tuple is not string type"
  | _ => throw "UNKNOWN Type cant be encoded"
  end.

Definition AttrType_encode (t : AttrType) (v : ValueImpl) (mem : cstr) (off : nat) : result cstr :=
  match at_type t with
  | INTEGER =>
      if is_int v then data ← as_int v; mem_write mem off (bytes_of_i64 data)
      else throw "tuple type unmatch, int is expected"
  | STRING =>
      if is_varchar v then
        data ← as_varchar v;
        mem ← mem_write mem off (bytes_of_size (length data));
        mem_write mem (off + 8) data
      else throw "tuple type unmatch, varchar is expected"
  | _ => throw "encoding unimplementd yet"
  end.

Definition AttrType_decode (t : AttrType) (mem : cstr) (off : nat) : result ValueImpl :=
  match at_type t with
  | INTEGER => bs ← mem_read mem off 8; Ok (value_of_int (i64_of_bytes bs))
  | STRING =>
      lbs ← mem_read mem off 8;
      str ← mem_read mem (off + 8) (size_of_bytes lbs);
      Ok (value_of_slice str)
  | _ => throw "decoding unimplementd yet"
  end.

Definition AttrType_serialize (t : AttrType) : cstr :=
  lit "(" ++ show_N (Type_to_N (at_type t)) ++ lit " " ++ show_N (at_param t) ++ lit ")".

(** [while ( *it != c) ++it;] leaves the stream at [c]; without a [c] it does not end. *)
Fixpoint skip_to (c : ascii) (s : cstr) : result cstr :=
  match s with
  | [] => OutOfFuel
  | d :: s' => if decide (d = c) then Ok s else skip_to c s'
  end.

(** [while ( *it != c) t << *it++;] collects the characters before [c]; without a [c] it does
    not end. *)
Fixpoint read_to (c : ascii) (s : cstr) : result (cstr * cstr) :=
  match s with
  | [] => OutOfFuel
  | d :: s' => if decide (d = c) then Ok ([], s)
               else '(w, r) ← read_to c s'; Ok (d :: w, r)
  end.

(** [static_cast<size_t>] of a [long long] *)
Definition to_size_t (z : Z) : N := Z.to_N (z mod two_64).

Definition AttrType_deserialize (s : cstr) : result (AttrType * cstr) :=
  s ← skip_to "("%char s;
  let s := tail s in
  '(t, s) ← read_to " "%char s;
  ty ← stoll t;
  let s := tail s in
  '(p, s) ← read_to ")"%char s;
  param ← stoll p;
  Ok (mk_attr_type (Type_of_N (to_size_t ty)) (to_size_t param), tail s).

Definition AttrType_eqb (l r : AttrType) : bool :=
  bool_decide (at_type l = at_type r) && (at_param l =? at_param r)%N.

(** [operator<<] *)
Definition show_AttrType (t : AttrType) : cstr :=
  match at_type t with
  | INTEGER => lit "(int)"
  | STRING => lit "(str(" ++ show_N (at_param t) ++ lit "))"
  | _ => lit "(unknown)"
  end.

(** ** Attribute *)

(** [enum AttrProperty : uint32_t] *)
Definition P_NONE : N := 0.
Definition P_NULLABLE : N := 1.
Definition P_KEY : N := 2.
Definition P_UNIQUE : N := 4.

Record Attribute := mk_attribute { name_ : cstr; a_type : AttrType; property_ : N }.

#[export] Instance Attribute_eq_dec : EqDecision Attribute.
Proof. solve_decision. Defined.

Definition Attribute_default : Attribute := mk_attribute [] (AttrType_of_string (lit "unknown")) P_NONE.

Definition Attribute_fixed_length (a : Attribute) : bool := AttrType_fixed_length (a_type a).
Definition is_key (a : Attribute) : bool := negb (N.land (property_ a) P_KEY =? 0)%N.


Definition Attribute_default_size (a : Attribute) : result nat :=
  n ← AttrType_default_size (a_type a);
  if negb (N.land (property_ a) P_NULLABLE =? 0)%N then Ok (n + 1) else Ok n.

(** The codec tests [property_ == NULLABLE], not the bit. *)
Definition Attribute_encoded_length (a : Attribute) (m : MaybeValue) : result nat :=
  if (property_ a =? P_NULLABLE)%N then
    if exists_ m then
      v ← maybe_value m; n ← AttrType_encoded_length (a_type a) v; Ok (1 + n)
    else Ok 1
  else
    if exists_ m then v ← maybe_value m; AttrType_encoded_length (a_type a) v
    else throw "NON-Nullable cell was null".

(** A null in a nullable column writes nothing. *)
Definition Attribute_encode (a : Attribute) (m : MaybeValue) (mem : cstr) (off : nat) : result cstr :=
  if (property_ a =? P_NULLABLE)%N then
    if exists_ m then
      mem ← mem_write mem off [byte1];
      v ← maybe_value m;
      AttrType_encode (a_type a) v mem (off + 1)
    else Ok mem
  else
    if exists_ m then v ← maybe_value m; AttrType_encode (a_type a) v mem off
    else throw "tuple value must be set".

Definition Attribute_decode (a : Attribute) (mem : cstr) (off : nat) (m : MaybeValue)
    : result MaybeValue :=
  if (property_ a =? P_NULLABLE)%N then
    b ← mem_read mem off 1;
    if decide (b = [byte0]) then Ok (make_null m)
    else v ← AttrType_decode (a_type a) mem (off + 1); Ok (maybe_assign m v)
  else
    v ← AttrType_decode (a_type a) mem off; Ok (maybe_assign m v).

Definition Attribute_serialize (a : Attribute) : cstr :=
  lit "(" ++ name_ a ++ lit " " ++ AttrType_serialize (a_type a) ++
  lit " " ++ show_N (property_ a) ++ lit ")".

(** The first loop's test [s.eof()] is never true: reading through the stream buffer
    does not set the stream's state. *)
Definition Attribute_deserialize (s : cstr) : result (Attribute * cstr) :=
  s ← skip_to "("%char s;
  let s := tail s in
  '(n, s) ← read_to " "%char s;
  let s := tail s in
  '(ty, s) ← AttrType_deserialize s;
  '(p, s) ← read_to ")"%char s;
  let s := tail s in
  prop ← stoll p;
  Ok (mk_attribute n ty (Z.to_N (prop mod 2 ^ 32)), s).

Definition Attribute_eqb (l r : Attribute) : bool :=
  bool_decide (name_ l = name_ r) && AttrType_eqb (a_type l) (a_type r) &&
  (property_ l =? property_ r)%N.

(** [operator<<]; [property_ & NONE] is never set. *)
Definition has_property (a : Attribute) (p : N) : bool := negb (N.land (property_ a) p =? 0)%N.
Definition show_Attribute (a : Attribute) : cstr :=
  show_AttrType (a_type a) ++ name_ a ++
  (if has_property a P_NONE then lit " NONE" else []) ++
  (if has_property a P_NULLABLE then lit " NULLABLE" else []) ++
  (if has_property a P_KEY then lit " KEY" else []) ++
  (if has_property a P_UNIQUE then lit " UNIQUE" else []).

(** ** Lemmas: the byte codec *)

(** A value a column of this type can hold. *)
Definition type_admits (t : AttrType) (v : ValueImpl) : Prop :=
  value_wf v ∧ ((at_type t = INTEGER ∧ type_ v = V_INT) ∨ (at_type t = STRING ∧ type_ v = V_VARCHAR)).

Lemma AttrType_encode_bytes t v mem off :
  type_admits t v → off + written_length v ≤ length mem →
  AttrType_encode t v mem off = mem_write mem off (value_bytes v).
Proof.
  intros [Hv Ht] Hm. rewrite <- value_serialize_bytes by done.
  unfold AttrType_encode, value_serialize, is_int, is_varchar, as_int, as_varchar.
  destruct Ht as [[-> E]|[-> E]]; unfold is_int, is_varchar; rewrite E; by rewrite bool_decide_true.
Qed.

Lemma AttrType_decode_bytes t v pre post :
  type_admits t v →
  AttrType_decode t (pre ++ value_bytes v ++ post) (length pre) = Ok v.
Proof.
  intros [Hv Ht]. rewrite <- (value_deserialize_bytes v pre post Hv).
  unfold AttrType_decode, value_deserialize. by destruct Ht as [[-> ->]|[-> ->]].
Qed.

(** A cell that holds a value of its column's type. *)
Definition cell_ok (a : Attribute) (m : MaybeValue) : Prop :=
  exists_ m = true ∧ type_admits (a_type a) (mvalue m).

(** The bytes a cell is stored as: a nullable column has a leading flag. *)
Definition cell_bytes (a : Attribute) (m : MaybeValue) : cstr :=
  (if (property_ a =? P_NULLABLE)%N then [byte1] else []) ++ value_bytes (mvalue m).

Lemma Attribute_encode_bytes a m mem off :
  cell_ok a m → off + length (cell_bytes a m) ≤ length mem →
  Attribute_encode a m mem off = mem_write mem off (cell_bytes a m).
Proof.
  destruct m as [ex v]. intros [He Hv] Hm; simpl in *; subst ex.
  unfold Attribute_encode, cell_bytes, maybe_value in *. simpl in *.
  destruct (property_ a =? P_NULLABLE)%N; simpl in *; rewrite length_value_bytes in Hm.
  - change (byte1 :: value_bytes v) with ([byte1] ++ value_bytes v).
    rewrite <- mem_write_app by (simpl; rewrite length_value_bytes; lia).
    rewrite (mem_write_Ok mem off [byte1]) by (simpl; lia). simpl.
    rewrite AttrType_encode_bytes; [done|done|].
    rewrite length_app, length_take. simpl. rewrite length_drop. lia.
  - by rewrite AttrType_encode_bytes.
Qed.

Lemma Attribute_decode_bytes a m m0 pre post :
  cell_ok a m →
  Attribute_decode a (pre ++ cell_bytes a m ++ post) (length pre) m0 = Ok m.
Proof.
  destruct m as [ex v]. intros [He Hv]; simpl in *; subst ex.
  unfold Attribute_decode, cell_bytes. simpl.
  destruct (property_ a =? P_NULLABLE)%N; simpl.
  - rewrite (mem_read_at pre [byte1] (value_bytes v ++ post)) by done. simpl.
    replace (pre ++ byte1 :: value_bytes v ++ post) with ((pre ++ [byte1]) ++ value_bytes v ++ post)
      by (by rewrite <- app_assoc).
    replace (length pre + 1) with (length (pre ++ [byte1])) by (rewrite length_app; done).
    by rewrite AttrType_decode_bytes.
  - by rewrite AttrType_decode_bytes.
Qed.

(** For an integer column [encoded_length] is the number of bytes written. *)
Lemma Attribute_encoded_length_int a m :
  cell_ok a m → at_type (a_type a) = INTEGER →
  Attribute_encoded_length a m = Ok (length (cell_bytes a m)).
Proof.
  destruct m as [ex v]. intros [He [Hw Hv]] Ht; simpl in *; subst ex.
  unfold Attribute_encoded_length, cell_bytes, maybe_value, AttrType_encoded_length. simpl.
  rewrite Ht. assert (length (value_bytes v) = 8) as Hl.
  { destruct Hv as [[_ Hi]|[Hs _]]; [|congruence]. rewrite length_value_bytes.
    unfold value_wf in Hw. rewrite Hi in Hw. unfold written_length. by destruct (value_ v). }
  destruct (property_ a =? P_NULLABLE)%N; simpl; by rewrite Hl.
Qed.

(** ** Lemmas: the text form *)

Lemma skip_to_here c s : skip_to c (c :: s) = Ok (c :: s).
Proof. simpl. by rewrite decide_True. Qed.

Lemma read_to_app c w s : c ∉ w → read_to c (w ++ c :: s) = Ok (w, c :: s).
Proof.
  induction w as [|d w IH]; intros Hw; simpl; [by rewrite decide_True|].
  rewrite decide_False by set_solver. rewrite IH by set_solver. done.
Qed.

Lemma show_N_no_char c n : is_digit c = false → c ∉ show_N n.
Proof.
  intros Hc Hin. pose proof (show_N_digits n) as H. rewrite Forall_forall in H.
  apply H in Hin. congruence.
Qed.

Lemma Type_of_to_N t : (∀ n, t = OTHER n → (4 < n)%N) → Type_of_N (Type_to_N t) = t.
Proof.
  intros H. destruct t; try done. specialize (H n eq_refl). simpl.
  destruct n as [|p]; [lia|]. by do 3 (destruct p as [p|p|]; try done; try lia).
Qed.

(** What text a column can be written as and read back: the numbers fit [long long]. *)
Definition AttrType_wf (t : AttrType) : Prop :=
  (Z.of_N (Type_to_N (at_type t)) < two_63)%Z ∧ (Z.of_N (at_param t) < two_63)%Z ∧
  ∀ n, at_type t = OTHER n → (4 < n)%N.

Lemma stoll_show sp n :
  Forall (λ c, is_space c = true) sp → (Z.of_N n < two_63)%Z →
  stoll (sp ++ show_N n) = Ok (Z.of_N n).
Proof. intros Hsp Hn. apply sto_show; [done|]. unfold two_63 in *. lia. Qed.

Lemma stoll_show_N n : (Z.of_N n < two_63)%Z → stoll (show_N n) = Ok (Z.of_N n).
Proof. exact (stoll_show [] n (Forall_nil_2 _)). Qed.

Lemma to_size_t_of_N n : (Z.of_N n < two_63)%Z → to_size_t (Z.of_N n) = n.
Proof. intros. unfold to_size_t, two_63, two_64 in *. rewrite Z.mod_small by lia. lia. Qed.

Lemma AttrType_deserialize_serialize t rest :
  AttrType_wf t → AttrType_deserialize (AttrType_serialize t ++ rest) = Ok (t, rest).
Proof.
  intros (H1 & H2 & H3). unfold AttrType_deserialize, AttrType_serialize.
  change (lit "(") with ["("%char]. rewrite <- !app_assoc. cbn [app].
  rewrite skip_to_here. cbn [mbind result_bind tail].
  change (lit " ") with [" "%char]. cbn [app].
  rewrite read_to_app by (by apply show_N_no_char). cbn [mbind result_bind tail].
  rewrite stoll_show_N by done. cbn [mbind result_bind].
  change (lit ")") with [")"%char]. cbn [app].
  rewrite read_to_app by (by apply show_N_no_char). cbn [mbind result_bind tail].
  rewrite stoll_show_N by done. cbn [mbind result_bind tail].
  rewrite !to_size_t_of_N, Type_of_to_N by done. by destruct t.
Qed.

Definition Attribute_wf (a : Attribute) : Prop :=
  (" "%char ∉ name_ a) ∧ AttrType_wf (a_type a) ∧ (property_ a < 2 ^ 32)%N.

Lemma Attribute_deserialize_serialize a rest :
  Attribute_wf a → Attribute_deserialize (Attribute_serialize a ++ rest) = Ok (a, rest).
Proof.
  intros (H1 & H2 & H3). unfold Attribute_deserialize, Attribute_serialize.
  change (lit "(") with ["("%char]. change (lit " ") with [" "%char].
  change (lit ")") with [")"%char]. rewrite <- !app_assoc. cbn [app].
  rewrite skip_to_here. cbn [mbind result_bind tail].
  rewrite read_to_app by done. cbn [mbind result_bind tail].
  rewrite AttrType_deserialize_serialize by done. cbn [mbind result_bind].
  replace (" "%char :: show_N (property_ a) ++ ")"%char :: rest)
    with ((" "%char :: show_N (property_ a)) ++ ")"%char :: rest) by done.
  rewrite read_to_app by (pose proof (show_N_no_char ")"%char (property_ a) eq_refl); set_solver).
  cbn [mbind result_bind tail].
  change (" "%char :: show_N (property_ a)) with ([" "%char] ++ show_N (property_ a)).
  rewrite stoll_show by (repeat constructor || (unfold two_63; lia)). cbn [mbind result_bind].
  rewrite Z.mod_small by lia. rewrite N2Z.id. by destruct a.
Qed.

(** * Properties *)

(** C33: a cell that is not null and holds a 64-bit integer in an [INTEGER] column or a string in a
    [STRING] column, encoded into a buffer with room for it, decodes from the same place to the same
    cell, whatever the cell object held before; in a nullable column too.  (A null does not come back,
    [null_encode_keeps_stale]; [DOUBLE] columns cannot be encoded.) *)
Theorem attribute_codec_roundtrip a m m0 mem off :
  cell_ok a m → off + length (cell_bytes a m) ≤ length mem →
  ∃ mem', Attribute_encode a m mem off = Ok mem' ∧ length mem' = length mem ∧
          Attribute_decode a mem' off m0 = Ok m.
Proof.
  intros Hc Hm. rewrite Attribute_encode_bytes, mem_write_Ok by done. eexists. split; [done|].
  assert (length (take off mem) = off) as Ht by (rewrite length_take; lia). split.
  - rewrite !length_app, length_drop, Ht. lia.
  - rewrite <- Ht at 3. by apply Attribute_decode_bytes.
Qed.

Lemma attribute_codec_roundtrip_witness :
  let a := mk_attribute (lit "age") (AttrType_of_string (lit "int")) P_NULLABLE in
  ∃ mem', Attribute_encode a (maybe_of_int (-5)) (replicate 10 byte0) 1 = Ok mem' ∧
          length mem' = length (replicate 10 byte0) ∧
          Attribute_decode a mem' 1 maybe_default = Ok (maybe_of_int (-5)).
Proof.
  apply attribute_codec_roundtrip; [|vm_compute; lia].
  split; [done|]. split; [vm_compute; split; congruence|]. by left.
Defined.

(** the text form of a column, followed by anything, reads back as that column and leaves
    what follows: names without blanks, numbers in the range of their types. *)
Theorem attribute_text_roundtrip a rest :
  Attribute_wf a → Attribute_deserialize (Attribute_serialize a ++ rest) = Ok (a, rest).
Proof. apply Attribute_deserialize_serialize. Qed.

Lemma attribute_text_roundtrip_witness :
  let a := mk_attribute (lit "id") (AttrType_of_string (lit "string")) P_KEY in
  Attribute_deserialize (Attribute_serialize a ++ lit "(x") = Ok (a, lit "(x").
Proof.
  apply attribute_text_roundtrip. split; [apply (bool_decide_unpack _); vm_compute; exact I|].
  split; [|done]. split; [done|]. split; [done|]. discriminate.
Defined.

(** C39: a null cell of a nullable column is encoded as no bytes at all: over a buffer that still
    holds an earlier cell of the column, decoding gives that earlier cell, not a null. *)
Theorem null_encode_keeps_stale a m v m0 pre post :
  property_ a = P_NULLABLE → exists_ m = false → cell_ok a v →
  let mem := pre ++ cell_bytes a v ++ post in
  Attribute_encode a m mem (length pre) = Ok mem ∧
  Attribute_encoded_length a m = Ok 1 ∧
  Attribute_decode a mem (length pre) m0 = Ok v.
Proof.
  intros Hp Hm Hv. simpl. unfold Attribute_encode at 1, Attribute_encoded_length.
  rewrite Hp, Hm. simpl. repeat split. by apply Attribute_decode_bytes.
Qed.

Lemma null_encode_keeps_stale_witness :
  let a := mk_attribute (lit "age") (AttrType_of_string (lit "int")) P_NULLABLE in
  let mem := [] ++ cell_bytes a (maybe_of_int 7) ++ [] in
  Attribute_encode a maybe_default mem 0 = Ok mem ∧
  Attribute_encoded_length a maybe_default = Ok 1 ∧
  Attribute_decode a mem 0 maybe_default = Ok (maybe_of_int 7).
Proof.
  apply (null_encode_keeps_stale _ maybe_default (maybe_of_int 7) maybe_default [] []); [done|done|].
  split; [done|]. split; [vm_compute; split; congruence|]. by left.
Defined.
