(* ===== verification/Schema.v ===== *)
(** * Schema: table schemas ([src/src/reir/db/schema.hpp], [schema.cpp])

    A schema turns a row (a vector of cells) into the bytes of a record's key and value,
    and itself into text for the catalogue.  A [char*] argument is a memory and an offset.
    [std::vector::operator[]] does not check its index: out of range it is [UB].
    The member [keys_], which nothing reads or writes, is left out. *)

From S2P Require Import Prelude Value Attr.
From Stdlib Require Import ZArith NArith Ascii String Lia.
From stdpp Require Import base option list strings sets.

Record Schema := mk_schema { s_name : cstr; attrs_ : list Attribute }.

#[export] Instance Schema_eq_dec : EqDecision Schema.
Proof. solve_decision. Defined.

Abbreviation row := (list MaybeValue).

Definition Schema_default : Schema := mk_schema [] [].

(** [v[i]] of a [std::vector] *)
Definition at_index {A} (v : list A) (i : nat) : result A :=
  match v !! i with Some x => Ok x | None => UB end.

(** [schema_is_key] is the member [is_key(int idx)]. *)
Definition get_tuple_length (s : Schema) (idx : nat) : result nat :=
  a ← at_index (attrs_ s) idx; Attribute_default_size a.
Definition schema_is_key (s : Schema) (idx : nat) : result bool :=
  a ← at_index (attrs_ s) idx; Ok (is_key a).
Definition add_column (s : Schema) (a : Attribute) : Schema :=
  mk_schema (s_name s) (attrs_ s ++ [a]).
Definition columns (s : Schema) : nat := length (attrs_ s).

Definition fixed_key_length (s : Schema) : bool :=
  forallb (λ a, negb (is_key a && negb (Attribute_fixed_length a))) (attrs_ s).
Definition fixed_value_length (s : Schema) : bool :=
  forallb (λ a, if negb (is_key a) then Attribute_fixed_length a else true) (attrs_ s).

(** The sum of the sizes of the columns that [sel] selects, added to [ret]. *)
Fixpoint sum_sizes (sel : Attribute → bool) (attrs : list Attribute) (ret : nat) : result nat :=
  match attrs with
  | [] => Ok ret
  | a :: attrs =>
      if sel a then n ← Attribute_default_size a; sum_sizes sel attrs (ret + n)
      else sum_sizes sel attrs ret
  end.

Definition get_fixed_key_length (s : Schema) : result nat :=
  if negb (fixed_key_length s)
  then throw "you cannot get fixed length of variable length key"
  else ret ← sum_sizes is_key (attrs_ s) (length (s_name s) + 1); Ok (ret + 1).

Definition get_fixed_value_length (s : Schema) : result nat :=
  if negb (fixed_value_length s)
  then throw "you cannot get fixed length of variable length key"
  else sum_sizes (λ a, negb (is_key a)) (attrs_ s) 0.

Definition get_key_prefix (s : Schema) : cstr := s_name s ++ [":"%char].
Definition get_prefix (s : Schema) : cstr := s_name s ++ lit ":".

Definition check_tuple_size (s : Schema) (tuple : row) : result unit :=
  if decide (length tuple = length (attrs_ s)) then Ok tt else throw "size does not match".

(** [len += attrs_[k].encoded_length(tuple[k])] for the selected columns, from index [i] on. *)
Fixpoint sum_encoded (sel : Attribute → bool) (attrs : list Attribute) (i : nat) (tuple : row)
    (len : nat) : result nat :=
  match attrs with
  | [] => Ok len
  | a :: attrs =>
      if sel a then
        m ← at_index tuple i; n ← Attribute_encoded_length a m;
        sum_encoded sel attrs (S i) tuple (len + n)
      else sum_encoded sel attrs (S i) tuple len
  end.

Definition any_column (a : Attribute) : bool := true.
Definition value_column (a : Attribute) : bool := negb (is_key a).

Definition schema_encoded_length (s : Schema) (tuple : row) : result nat :=
  _ ← check_tuple_size s tuple;
  sum_encoded any_column (attrs_ s) 0 tuple (length (s_name s) + 1).
Definition key_length (s : Schema) (tuple : row) : result nat :=
  sum_encoded is_key (attrs_ s) 0 tuple (length (s_name s) + 1).
Definition value_length (s : Schema) (tuple : row) : result nat :=
  sum_encoded value_column (attrs_ s) 0 tuple 0.
Definition val_length (s : Schema) (tuple : row) : result nat :=
  sum_encoded value_column (attrs_ s) 0 tuple 0.

(** [encode]: the cell is written, then its length asked for. *)
Fixpoint encode_loop (attrs : list Attribute) (i : nat) (tuple : row) (mem : cstr) (offset : nat)
    : result cstr :=
  match attrs with
  | [] => Ok mem
  | a :: attrs =>
      m ← at_index tuple i;
      mem ← Attribute_encode a m mem offset;
      n ← Attribute_encoded_length a m;
      encode_loop attrs (S i) tuple mem (offset + n)
  end.

(** The table name and a colon, as [encode] and [encode_key] write them. *)
Definition write_prefix (s : Schema) (mem : cstr) (buf : nat) : result cstr :=
  mem ← mem_write mem buf (s_name s);
  mem_write mem (buf + length (s_name s)) [":"%char].

Definition schema_encode (s : Schema) (tuple : row) (mem : cstr) (buf : nat) : result cstr :=
  _ ← check_tuple_size s tuple;
  mem ← write_prefix s mem buf;
  encode_loop (attrs_ s) 0 tuple mem (buf + (length (s_name s) + 1)).

(** [decode] starts at the buffer's first byte: it does not skip a prefix. *)
Fixpoint decode_loop (attrs : list Attribute) (i : nat) (mem : cstr) (offset : nat) (tuple : row)
    : result row :=
  match attrs with
  | [] => Ok tuple
  | a :: attrs =>
      m0 ← at_index tuple i;
      m ← Attribute_decode a mem offset m0;
      n ← Attribute_encoded_length a m;
      decode_loop attrs (S i) mem (offset + n) (<[i := m]> tuple)
  end.

Definition schema_decode (s : Schema) (mem : cstr) (buf : nat) (tuple : row) : result row :=
  _ ← check_tuple_size s tuple;
  decode_loop (attrs_ s) 0 mem buf tuple.

(** [encode_key] and [encode_value] ask for the length first, and skip the other columns. *)
Fixpoint encode_selected (sel : Attribute → bool) (attrs : list Attribute) (i : nat) (tuple : row)
    (mem : cstr) (offset : nat) : result cstr :=
  match attrs with
  | [] => Ok mem
  | a :: attrs =>
      if sel a then
        m ← at_index tuple i;
        advance ← Attribute_encoded_length a m;
        mem ← Attribute_encode a m mem offset;
        encode_selected sel attrs (S i) tuple mem (offset + advance)
      else encode_selected sel attrs (S i) tuple mem offset
  end.

Definition encode_key (s : Schema) (tuple : row) (mem : cstr) (buff : nat) : result cstr :=
  mem ← write_prefix s mem buff;
  encode_selected is_key (attrs_ s) 0 tuple mem (buff + (length (s_name s) + 1)).

Definition encode_value (s : Schema) (tuple : row) (mem : cstr) (buff : nat) : result cstr :=
  encode_selected value_column (attrs_ s) 0 tuple mem buff.

(** The text of the catalogue. *)
Definition schema_serialize (s : Schema) : cstr :=
  s_name s ++ lit ":" ++ concat (Attribute_serialize <$> attrs_ s).

(** Every turn of [deserialize]'s loop that ends reads at least one character,
    so the buffer's length bounds the number of turns. *)
Fixpoint deserialize_attrs (fuel : nat) (s : cstr) (attrs : list Attribute)
    : result (list Attribute) :=
  match fuel with
  | O => OutOfFuel
  | S fuel =>
      match s with
      | [] => Ok attrs
      | _ => '(a, s) ← Attribute_deserialize s; deserialize_attrs fuel s (attrs ++ [a])
      end
  end.

Definition schema_deserialize_within (fuel : nat) (buf : cstr) : result Schema :=
  '(name, s) ← read_to ":"%char buf;
  attrs ← deserialize_attrs fuel (tail s) [];
  Ok (mk_schema name attrs).

Definition schema_deserialize (buf : cstr) : result Schema :=
  schema_deserialize_within (S (length buf)) buf.

(** [operator<<] and [operator==] *)
Definition show_Schema (s : Schema) : cstr :=
  lit "(" ++ s_name s ++ lit " " ++
  concat (imap (λ i a, (if (0 <? i)%nat then lit ", " else []) ++ show_Attribute a) (attrs_ s)) ++
  lit ")".

Fixpoint attrs_eqb (l r : list Attribute) : bool :=
  match l, r with
  | [], [] => true
  | a :: l, b :: r => Attribute_eqb a b && attrs_eqb l r
  | _, _ => false
  end.
Definition schema_eqb (l r : Schema) : bool :=
  bool_decide (s_name l = s_name r) && attrs_eqb (attrs_ l) (attrs_ r).

(** ** Rows of integer columns *)

Definition int_column (a : Attribute) : Prop := at_type (a_type a) = INTEGER.

(** A row whose cells all hold values of their columns' types. *)
Definition row_ok (s : Schema) (tuple : row) : Prop := Forall2 cell_ok (attrs_ s) tuple.

(** The bytes of the selected columns, one after the other. *)
Fixpoint cells (sel : Attribute → bool) (attrs : list Attribute) (tuple : row) : cstr :=
  match attrs, tuple with
  | a :: attrs, m :: tuple =>
      (if sel a then cell_bytes a m else []) ++ cells sel attrs tuple
  | _, _ => []
  end.

Definition key_bytes (s : Schema) (tuple : row) : cstr :=
  get_prefix s ++ cells is_key (attrs_ s) tuple.
Definition val_bytes (s : Schema) (tuple : row) : cstr := cells value_column (attrs_ s) tuple.

Lemma at_index_middle {A} (pre : list A) x post i :
  i = length pre → at_index (pre ++ x :: post) i = Ok x.
Proof. intros ->. unfold at_index. by rewrite list_lookup_middle. Qed.

Lemma sum_encoded_cells sel attrs pre tuple i len :
  Forall2 cell_ok attrs tuple → Forall int_column attrs → i = length pre →
  sum_encoded sel attrs i (pre ++ tuple) len = Ok (len + length (cells sel attrs tuple)).
Proof.
  intros Hok. revert pre i len.
  induction Hok as [|a m attrs tuple Ha Hok IH]; intros pre i len Hi ->; simpl; [by rewrite Nat.add_0_r|].
  inversion Hi as [|?? Hia Hi']; subst.
  specialize (IH (pre ++ [m]) (S (length pre))). rewrite <- app_assoc, length_app in IH. simpl in IH.
  destruct (sel a); simpl; [|apply IH; [done|lia]].
  rewrite at_index_middle by done. simpl. rewrite Attribute_encoded_length_int by done. simpl.
  rewrite IH by (done || lia). f_equal. rewrite length_app. lia.
Qed.

Lemma encode_selected_cells sel attrs pre tuple i mem off :
  Forall2 cell_ok attrs tuple → Forall int_column attrs → i = length pre →
  off + length (cells sel attrs tuple) ≤ length mem →
  encode_selected sel attrs i (pre ++ tuple) mem off = mem_write mem off (cells sel attrs tuple).
Proof.
  intros Hok. revert pre i mem off.
  induction Hok as [|a m attrs tuple Ha Hok IH]; intros pre i mem off Hi -> Hm; simpl in *.
  { rewrite mem_write_Ok by (simpl; lia). simpl. by rewrite Nat.add_0_r, take_drop. }
  inversion Hi as [|?? Hia Hi']; subst. rewrite length_app in Hm.
  specialize (IH (pre ++ [m]) (S (length pre))). rewrite <- app_assoc, length_app in IH. simpl in IH.
  destruct (sel a); simpl in *; [|apply IH; [done|lia|done]].
  rewrite at_index_middle by done. simpl. rewrite Attribute_encoded_length_int by done. simpl.
  rewrite Attribute_encode_bytes by (done || lia).
  rewrite <- mem_write_app by (rewrite length_app; lia).
  destruct (mem_write mem off (cell_bytes a m)) eqn:E; try done. simpl.
  apply IH; [done|lia|]. apply mem_write_length in E. lia.
Qed.

Lemma write_prefix_bytes s mem buf :
  buf + length (get_prefix s) ≤ length mem →
  write_prefix s mem buf = mem_write mem buf (get_prefix s).
Proof. intros H. unfold write_prefix. by rewrite mem_write_app. Qed.

Lemma length_get_prefix s : length (get_prefix s) = length (s_name s) + 1.
Proof. unfold get_prefix. by rewrite length_app. Qed.

Lemma encode_key_bytes s tuple mem buff :
  row_ok s tuple → Forall int_column (attrs_ s) →
  buff + length (key_bytes s tuple) ≤ length mem →
  encode_key s tuple mem buff = mem_write mem buff (key_bytes s tuple).
Proof.
  intros Hok Hi Hm. unfold encode_key, key_bytes in *. rewrite length_app in Hm.
  rewrite write_prefix_bytes by lia.
  rewrite <- mem_write_app by (rewrite length_app; lia).
  rewrite length_get_prefix.
  destruct (mem_write mem buff (get_prefix s)) as [mem'| | | |] eqn:E; try done. simpl.
  apply mem_write_length in E. rewrite length_get_prefix in Hm.
  apply (encode_selected_cells is_key _ [] tuple 0); [done|done|done|lia].
Qed.

(** Without selection, [encode]'s loop is the same. *)
Lemma encode_loop_cells attrs pre tuple i mem off :
  Forall2 cell_ok attrs tuple → Forall int_column attrs → i = length pre →
  off + length (cells any_column attrs tuple) ≤ length mem →
  encode_loop attrs i (pre ++ tuple) mem off = mem_write mem off (cells any_column attrs tuple).
Proof.
  intros Hok Hi -> Hm. rewrite <- (encode_selected_cells any_column attrs pre tuple (length pre)) by done.
  revert pre mem off Hm.
  induction Hok as [|a m attrs tuple Ha Hok IH]; intros pre mem off Hm; simpl in *; [done|].
  inversion Hi as [|?? Hia Hi']; subst. rewrite length_app in Hm.
  specialize (IH Hi' (pre ++ [m])). rewrite <- app_assoc, length_app, Nat.add_1_r in IH. simpl in IH.
  rewrite at_index_middle by done. simpl.
  rewrite Attribute_encoded_length_int by done. simpl.
  destruct (Attribute_encode a m mem off) eqn:E; try done. simpl. apply IH.
  rewrite Attribute_encode_bytes in E by (done || lia). apply mem_write_length in E. lia.
Qed.

Lemma decode_loop_cells attrs done_ tuple old pre post off i :
  Forall2 cell_ok attrs tuple → Forall int_column attrs →
  length old = length attrs → i = length done_ → off = length pre →
  decode_loop attrs i (pre ++ cells any_column attrs tuple ++ post) off (done_ ++ old)
  = Ok (done_ ++ tuple).
Proof.
  intros Hok. revert done_ old pre off i.
  induction Hok as [|a m attrs tuple Ha Hok IH]; intros dn old pre off i Hi Hl -> ->; simpl in *.
  { by destruct old. }
  destruct old as [|m0 old]; [done|]. inversion Hi as [|?? Hia Hi']; subst.
  rewrite at_index_middle by done. simpl. rewrite <- app_assoc, Attribute_decode_bytes by done. simpl.
  rewrite Attribute_encoded_length_int by done. simpl.
  rewrite insert_app_r_alt, Nat.sub_diag by lia. simpl.
  specialize (IH (dn ++ [m]) old (pre ++ cell_bytes a m)).
  rewrite <- !app_assoc, !length_app in IH. simpl in *. apply IH; [done|lia|lia|done].
Qed.

(** ** The catalogue text *)

Definition Schema_wf (s : Schema) : Prop :=
  (":"%char ∉ s_name s) ∧ Forall Attribute_wf (attrs_ s).

Lemma Attribute_serialize_length a : 1 ≤ length (Attribute_serialize a).
Proof. unfold Attribute_serialize. rewrite length_app. simpl. lia. Qed.

Lemma deserialize_attrs_serialize fuel attrs acc :
  Forall Attribute_wf attrs →
  length (concat (Attribute_serialize <$> attrs)) < fuel →
  deserialize_attrs fuel (concat (Attribute_serialize <$> attrs)) acc = Ok (acc ++ attrs).
Proof.
  intros Hwf. revert fuel acc.
  induction Hwf as [|a attrs Ha Hwf IH]; intros [|fuel] acc Hf; [lia|by simpl; rewrite app_nil_r|lia|].
  cbn [deserialize_attrs]. rewrite fmap_cons in *. cbn [concat] in *.
  rewrite length_app in Hf. pose proof (Attribute_serialize_length a) as H1.
  pose proof (Attribute_deserialize_serialize a (concat (Attribute_serialize <$> attrs)) Ha) as H.
  destruct (Attribute_serialize a ++ concat (Attribute_serialize <$> attrs)) as [|c s] eqn:E.
  { apply (f_equal length) in E. rewrite length_app in E. simpl in E. lia. }
  rewrite H. simpl. rewrite IH by (done || lia). by rewrite <- app_assoc.
Qed.

Lemma read_to_none c s : c ∉ s → read_to c s = OutOfFuel.
Proof.
  induction s as [|d s IH]; intros Hs; simpl; [done|]. rewrite decide_False by set_solver.
  rewrite IH; [done|]. set_solver.
Qed.

(** *** Reading a beginning of a text

    A reader that gives an answer on a text gives the same answer whatever follows; where it gives
    none, it waits for a delimiter that the text does not have. *)

Definition stable {A} (r r' : result (A * cstr)) (rest : cstr) : Prop :=
  match r with
  | Ok (a, s) => r' = Ok (a, s ++ rest)
  | Throw w => r' = Throw w
  | OutOfFuel => True
  | _ => False
  end.

Lemma stable_bind {A B} (m m' : result (A * cstr)) (f : A * cstr → result (B * cstr)) rest :
  stable m m' rest → (∀ a s, m = Ok (a, s) → stable (f (a, s)) (f (a, s ++ rest)) rest) →
  stable (m ≫= f) (m' ≫= f) rest.
Proof. destruct m as [[a s]|w| | |]; simpl; try done; [intros -> Hf; by apply Hf|by intros ->]. Qed.

Lemma stable_pure {A B} (m : result A) (f g : A → result (B * cstr)) rest :
  orderly m → (∀ a, stable (f a) (g a) rest) → stable (m ≫= f) (m ≫= g) rest.
Proof. destruct m; simpl; auto. Qed.

Lemma skip_to_head c s r : skip_to c s = Ok r → ∃ r', r = c :: r'.
Proof. induction s as [|d s IH]; simpl; [done|]. case_decide; [intros [= <-]; subst; eauto|done]. Qed.

Lemma read_to_head c s w r : read_to c s = Ok (w, r) → ∃ r', r = c :: r'.
Proof.
  revert w. induction s as [|d s IH]; intros w; simpl; [done|]. case_decide; [intros [= _ <-]; subst; eauto|].
  intros ([w' r'] & Hr & [= _ <-])%bind_Ok_inv. eauto.
Qed.

(** Skipping, as a reader of nothing. *)
Lemma skip_to_bind {B} c s rest (f : cstr → result (B * cstr)) :
  (∀ r, stable (f (c :: r)) (f (c :: r ++ rest)) rest) →
  stable (skip_to c s ≫= f) (skip_to c (s ++ rest) ≫= f) rest.
Proof.
  intros Hf. induction s as [|d s IH]; simpl; [done|]. case_decide; [subst; apply Hf|exact IH].
Qed.

Lemma read_to_stable c s rest : stable (read_to c s) (read_to c (s ++ rest)) rest.
Proof.
  induction s as [|d s IH]; simpl; [done|]. case_decide; [done|].
  destruct (read_to c s) as [[w r]|w| | |]; simpl in *; try done; by rewrite IH.
Qed.

Lemma read_to_bind {B} c s rest (f : cstr * cstr → result (B * cstr)) :
  (∀ w r, stable (f (w, c :: r)) (f (w, c :: r ++ rest)) rest) →
  stable (read_to c s ≫= f) (read_to c (s ++ rest) ≫= f) rest.
Proof.
  intros Hf. apply stable_bind; [apply read_to_stable|]. intros w r Hr.
  apply read_to_head in Hr as (r' & ->). apply Hf.
Qed.

Lemma AttrType_deserialize_stable s rest : stable (AttrType_deserialize s) (AttrType_deserialize (s ++ rest)) rest.
Proof.
  unfold AttrType_deserialize. apply skip_to_bind. intros r. cbn [tail]. apply read_to_bind. intros t r1.
  apply stable_pure; [apply sto_orderly|]. intros ty. cbn [tail]. apply read_to_bind. intros p r2.
  by apply stable_pure; [apply sto_orderly|].
Qed.

Lemma Attribute_deserialize_stable s rest : stable (Attribute_deserialize s) (Attribute_deserialize (s ++ rest)) rest.
Proof.
  unfold Attribute_deserialize. apply skip_to_bind. intros r. cbn [tail]. apply read_to_bind. intros n r1. cbn [tail].
  apply stable_bind; [apply AttrType_deserialize_stable|]. intros ty r2 _. apply read_to_bind. intros p r3. cbn [tail].
  by apply stable_pure; [apply sto_orderly|].
Qed.

(** Reading a beginning of a column's text that is not all of it never ends. *)
Lemma Attribute_deserialize_cut a text rest :
  Attribute_wf a → Attribute_serialize a = text ++ rest → rest ≠ [] → Attribute_deserialize text = OutOfFuel.
Proof.
  intros Ha Ht Hr. pose proof (Attribute_deserialize_serialize a [] Ha) as Hfull. rewrite app_nil_r, Ht in Hfull.
  pose proof (Attribute_deserialize_stable text rest) as Hs. unfold stable in Hs. rewrite Hfull in Hs.
  destruct (Attribute_deserialize text) as [[b s]|w| | |]; try done. injection Hs as _ Hs.
  by destruct (app_eq_nil _ _ (eq_sym Hs)).
Qed.

(** The columns that the text of a schema has been cut in. *)
Lemma attrs_cut attrs text rest :
  Forall Attribute_wf attrs → concat (Attribute_serialize <$> attrs) = text ++ rest →
  (∃ k, text = concat (Attribute_serialize <$> take k attrs)) ∨
  ((∀ k, text ≠ concat (Attribute_serialize <$> take k attrs)) ∧
   ∀ fuel acc, deserialize_attrs fuel text acc = OutOfFuel).
Proof.
  intros Hwf. revert text. induction Hwf as [|a attrs Ha Hwf IH]; intros text Ht; cbn [fmap list_fmap concat] in Ht.
  { left. exists 0. symmetry in Ht. by apply app_eq_nil in Ht as [-> _]. }
  destruct text as [|c text]; [left; by exists 0|].
  destruct (decide (length (c :: text) < length (Attribute_serialize a))) as [Hl|Hl].
  - right. assert (Hcut : Attribute_serialize a = (c :: text) ++ drop (length (c :: text)) (Attribute_serialize a)).
    { rewrite <- (take_drop (length (c :: text)) (Attribute_serialize a)) at 1. f_equal.
      rewrite <- (take_app_le _ (concat (Attribute_serialize <$> attrs))) by lia. rewrite Ht. by rewrite take_app_length. }
    assert (Hd := Attribute_deserialize_cut a _ _ Ha Hcut).
    split; [|intros [|fuel] acc; [done|]; cbn [deserialize_attrs]; rewrite Hd; [done|]].
    + intros [|k] Hk; [done|]. cbn [take fmap list_fmap concat] in Hk. apply (f_equal length) in Hk.
      rewrite length_app in Hk. lia.
    + intros E. apply (f_equal length) in E. rewrite length_drop in E. simpl in E, Hl. lia.
  - assert (Hcut : c :: text = Attribute_serialize a ++ drop (length (Attribute_serialize a)) (c :: text)).
    { rewrite <- (take_drop (length (Attribute_serialize a)) (c :: text)) at 1. f_equal.
      rewrite <- (take_app_le _ rest) by lia. rewrite <- Ht. by rewrite take_app_length. }
    set (text' := drop _ _) in Hcut. rewrite Hcut, <- app_assoc in Ht. apply app_inv_head in Ht. rewrite Hcut.
    destruct (IH text' Ht) as [[k Hk]|[Hk Hd]]; [left; exists (S k); cbn [take fmap list_fmap concat]; by rewrite <- Hk|].
    right. split.
    + intros [|k]; cbn [take fmap list_fmap concat]; [by rewrite <- Hcut|]. intros E%app_inv_head. by apply (Hk k).
    + intros [|fuel] acc; [done|]. cbn [deserialize_attrs].
      rewrite (Attribute_deserialize_serialize a text' Ha). cbn [mbind result_bind]. rewrite <- Hcut. apply Hd.
Qed.

Lemma schema_text_read s : Schema_wf s → schema_deserialize (schema_serialize s) = Ok s.
Proof.
  intros [Hn Ha]. unfold schema_deserialize, schema_deserialize_within, schema_serialize.
  change (lit ":") with [":"%char]. cbn [app]. rewrite read_to_app by done.
  cbn [mbind result_bind tail]. rewrite deserialize_attrs_serialize; [by destruct s|done|].
  rewrite length_app. simpl. lia.
Qed.

(** ** Keys determine rows *)

(** The cells of the selected columns. *)
Fixpoint selected (sel : Attribute → bool) (attrs : list Attribute) (tuple : row) : row :=
  match attrs, tuple with
  | a :: attrs, m :: tuple => if sel a then m :: selected sel attrs tuple else selected sel attrs tuple
  | _, _ => []
  end.

Lemma cell_bytes_inj a m1 m2 r1 r2 :
  cell_ok a m1 → cell_ok a m2 → cell_bytes a m1 ++ r1 = cell_bytes a m2 ++ r2 →
  m1 = m2 ∧ r1 = r2.
Proof.
  intros H1 H2 E.
  pose proof (Attribute_decode_bytes a m1 maybe_default [] r1 H1) as D1.
  pose proof (Attribute_decode_bytes a m2 maybe_default [] r2 H2) as D2.
  simpl in D1, D2. rewrite E in D1. assert (m1 = m2) as -> by congruence.
  split; [done|]. by apply app_inv_head in E.
Qed.

Lemma cells_inj sel attrs t1 t2 :
  Forall2 cell_ok attrs t1 → Forall2 cell_ok attrs t2 →
  cells sel attrs t1 = cells sel attrs t2 → selected sel attrs t1 = selected sel attrs t2.
Proof.
  intros H1. revert t2. induction H1 as [|a m1 attrs t1 Ha H1 IH]; intros t2 H2 E.
  - by inversion H2.
  - inversion H2 as [|? m2 ? t2' Hm2 H2']; subst. simpl in *. destruct (sel a); simpl in E; [|auto].
    apply cell_bytes_inj in E as [-> E]; [|done|done]. f_equal. auto.
Qed.

Lemma prefix_inj s1 s2 r1 r2 :
  ":"%char ∉ s_name s1 → ":"%char ∉ s_name s2 →
  get_prefix s1 ++ r1 = get_prefix s2 ++ r2 → s_name s1 = s_name s2 ∧ r1 = r2.
Proof.
  intros H1 H2 E. unfold get_prefix in E. rewrite <- !app_assoc in E.
  pose proof (read_to_app ":"%char (s_name s1) r1 H1) as D1.
  pose proof (read_to_app ":"%char (s_name s2) r2 H2) as D2.
  change (lit ":" ++ r1) with (":"%char :: r1) in E. change (lit ":" ++ r2) with (":"%char :: r2) in E.
  rewrite E, D2 in D1. by injection D1.
Qed.

Lemma length_cells_key attrs t :
  Forall2 cell_ok attrs t → Forall int_column attrs →
  Forall (λ a, is_key a = true → has_property a P_NULLABLE = false) attrs →
  ∀ ret, sum_sizes is_key attrs ret = Ok (ret + length (cells is_key attrs t)).
Proof.
  induction 1 as [|a m attrs t Ha Hok IH]; intros Hi Hn ret; simpl; [by rewrite Nat.add_0_r|].
  inversion Hi as [|?? Hia Hi']; inversion Hn as [|?? Hna Hn']; subst. rewrite length_app.
  destruct (is_key a) eqn:K; [|by apply IH]. specialize (Hna eq_refl).
  unfold Attribute_default_size, AttrType_default_size. rewrite Hia. simpl.
  fold (has_property a P_NULLABLE). rewrite Hna. simpl. rewrite IH by done. rewrite Nat.add_assoc. do 3 f_equal.
  pose proof (Attribute_encoded_length_int a m Ha Hia) as L.
  unfold Attribute_encoded_length, AttrType_encoded_length, maybe_value in L.
  destruct Ha as [Hex _]. rewrite Hex, Hia in L. simpl in L.
  destruct (N.eqb_spec (property_ a) P_NULLABLE) as [E|]; simpl in L; [|congruence].
  unfold has_property in Hna. by rewrite E in Hna.
Qed.

(** * Properties *)

(** Sample data of the witnesses: the table [person(id int key, age int)]. *)
Definition int_type : AttrType := AttrType_of_string (lit "int").
Definition person : Schema :=
  mk_schema (lit "person")
    [mk_attribute (lit "id") int_type P_KEY; mk_attribute (lit "age") int_type P_NONE].
Definition alice : row := [maybe_of_int 1; maybe_of_int (-30)].

Lemma person_ints : Forall int_column (attrs_ person).
Proof. by repeat constructor. Qed.
Lemma alice_ok : row_ok person alice.
Proof.
  repeat constructor; try (vm_compute; congruence); by left.
Qed.

(** C22: for a table all of whose columns are [INTEGER] and a row of 64-bit integers without nulls,
    a key buffer of [key_length] bytes is filled completely and exactly by [encode_key]: the table
    name, a colon, then the key columns' eight-byte cells in column order; nothing is written
    outside it, whatever the buffer held.  (With a [STRING] column [key_length] is too small:
    [string_column_overwritten].) *)
Theorem encode_key_exact s t :
  row_ok s t → Forall int_column (attrs_ s) →
  key_length s t = Ok (length (key_bytes s t)) ∧
  ∀ pre mem post, length mem = length (key_bytes s t) →
    encode_key s t (pre ++ mem ++ post) (length pre) = Ok (pre ++ key_bytes s t ++ post).
Proof.
  intros Hok Hi. split.
  - unfold key_length, key_bytes. rewrite length_app, length_get_prefix.
    by apply (sum_encoded_cells _ _ []).
  - intros pre mem post Hl. rewrite encode_key_bytes by (done || rewrite !length_app; lia).
    rewrite mem_write_Ok by (rewrite !length_app; lia). f_equal.
    rewrite take_app_length. do 2 f_equal. rewrite <- Hl, app_assoc, <- length_app.
    apply drop_app_length.
Qed.

Lemma encode_key_exact_witness :
  key_length person alice = Ok (length (key_bytes person alice)) ∧
  ∀ pre mem post, length mem = length (key_bytes person alice) →
    encode_key person alice (pre ++ mem ++ post) (length pre) = Ok (pre ++ key_bytes person alice ++ post).
Proof. apply encode_key_exact; [apply alice_ok|apply person_ints]. Defined.

(** C18: two rows are stored under the same key only if they belong to the same table and
    agree on its key columns.  For tables all of whose columns are [INTEGER] and whose names hold no
    colon, and rows of 64-bit integers without nulls: keys of tables with different names never
    collide, and, for the same columns, equal keys give equal key cells. *)
Theorem encode_key_injective s1 s2 t1 t2 m1 m2 k :
  row_ok s1 t1 → Forall int_column (attrs_ s1) → ":"%char ∉ s_name s1 →
  row_ok s2 t2 → Forall int_column (attrs_ s2) → ":"%char ∉ s_name s2 →
  key_length s1 t1 = Ok (length m1) → encode_key s1 t1 m1 0 = Ok k →
  key_length s2 t2 = Ok (length m2) → encode_key s2 t2 m2 0 = Ok k →
  s_name s1 = s_name s2 ∧
  (attrs_ s1 = attrs_ s2 → selected is_key (attrs_ s1) t1 = selected is_key (attrs_ s2) t2).
Proof.
  assert (∀ s t m k, row_ok s t → Forall int_column (attrs_ s) →
    key_length s t = Ok (length m) → encode_key s t m 0 = Ok k → k = key_bytes s t) as Hk.
  { intros s t m k' Hok Hi Hl He. unfold key_length in Hl.
    rewrite (sum_encoded_cells _ _ [] t) in Hl by done.
    assert (length m = length (key_bytes s t)) as Hm.
    { unfold key_bytes. rewrite length_app, length_get_prefix. congruence. }
    rewrite encode_key_bytes, mem_write_Ok in He by (done || simpl; lia).
    simpl in He. rewrite drop_ge, app_nil_r in He by lia. congruence. }
  intros Ho1 Hi1 Hn1 Ho2 Hi2 Hn2 L1 E1 L2 E2.
  pose proof (Hk _ _ _ _ Ho1 Hi1 L1 E1) as K1. rewrite (Hk _ _ _ _ Ho2 Hi2 L2 E2) in K1.
  apply prefix_inj in K1 as [Hn K]; [|done|done]. split; [done|].
  intros Ha. unfold row_ok in *. rewrite Ha in *. apply cells_inj; congruence.
Qed.

Lemma encode_key_injective_witness :
  s_name person = s_name person ∧
  (attrs_ person = attrs_ person →
   selected is_key (attrs_ person) alice =
   selected is_key (attrs_ person) [maybe_of_int 1; maybe_of_int 99]).
Proof.
  assert (row_ok person [maybe_of_int 1; maybe_of_int 99]).
  { repeat constructor; try (vm_compute; congruence); by left. }
  assert (":"%char ∉ s_name person) by (apply (bool_decide_unpack _); vm_compute; exact I).
  apply (encode_key_injective person person alice [maybe_of_int 1; maybe_of_int 99]
           (replicate 15 byte0) (replicate 15 byte1) (key_bytes person alice));
    [apply alice_ok|apply person_ints|done|done|apply person_ints|done| | | |];
    vm_compute; reflexivity.
Defined.

(** C35: [get_fixed_key_length], which sizes the key buffers on the compiled code's stack, is one
    more than the number of bytes of every key, for tables of [INTEGER] columns whose key columns are
    not nullable and rows of 64-bit integers without nulls. *)
Theorem fixed_key_length_bounds s t :
  row_ok s t → Forall int_column (attrs_ s) →
  Forall (λ a, is_key a = true → has_property a P_NULLABLE = false) (attrs_ s) →
  ∃ n, key_length s t = Ok n ∧ get_fixed_key_length s = Ok (n + 1).
Proof.
  intros Hok Hi Hn. eexists. split; [by apply (sum_encoded_cells _ _ [])|].
  unfold get_fixed_key_length. assert (fixed_key_length s = true) as ->.
  { unfold fixed_key_length. apply forallb_forall. intros a Ha%list_elem_of_In.
    rewrite Forall_forall in Hi. apply Hi in Ha. unfold Attribute_fixed_length, AttrType_fixed_length. rewrite Ha. simpl.
    by rewrite andb_false_r. }
  simpl. erewrite length_cells_key by done. done.
Qed.

Lemma fixed_key_length_bounds_witness :
  ∃ n, key_length person alice = Ok n ∧ get_fixed_key_length person = Ok (n + 1).
Proof.
  apply fixed_key_length_bounds; [apply alice_ok|apply person_ints|].
  by repeat constructor.
Defined.

(** C30: a row of 64-bit integers without nulls, of a table of [INTEGER] columns, that [encode] writes
    behind the table's prefix into a buffer with room for it, is read back by [decode] when it is
    pointed just behind that prefix, into any row of the right size. *)
Theorem schema_codec_roundtrip s t t0 mem buf :
  row_ok s t → Forall int_column (attrs_ s) → length t0 = length t →
  buf + length (get_prefix s) + length (cells any_column (attrs_ s) t) ≤ length mem →
  ∃ mem', schema_encode s t mem buf = Ok mem' ∧
          schema_decode s mem' (buf + length (get_prefix s)) t0 = Ok t.
Proof.
  intros Hok Hi Ht Hm. pose proof (Forall2_length _ _ _ Hok) as Hl.
  unfold schema_encode, schema_decode, check_tuple_size. rewrite !decide_True by lia. simpl.
  rewrite write_prefix_bytes, mem_write_Ok by lia. simpl.
  set (m1 := take buf mem ++ get_prefix s ++ drop (buf + length (get_prefix s)) mem).
  assert (length m1 = length mem) as Hm1.
  { subst m1. rewrite !length_app, length_take, length_drop. lia. }
  rewrite <- length_get_prefix.
  rewrite (encode_loop_cells _ [] t) by (done || lia).
  rewrite mem_write_Ok by lia. eexists. split; [done|].
  apply (decode_loop_cells (attrs_ s) [] t t0); [done|done|lia|done|].
  rewrite length_take. lia.
Qed.

Lemma schema_codec_roundtrip_witness :
  ∃ mem', schema_encode person alice (replicate 30 byte1) 2 = Ok mem' ∧
          schema_decode person mem' (2 + length (get_prefix person)) [maybe_default; maybe_default]
          = Ok alice.
Proof.
  apply schema_codec_roundtrip; [apply alice_ok|apply person_ints|done|vm_compute; lia].
Defined.

(** C31: the text a well-formed schema is saved as in the catalogue reads back as the same schema:
    the table's name holds no colon, the columns' names hold no blank, and type ids and lengths
    are below 2^63, properties below 2^32. *)
Theorem schema_text_roundtrip s :
  Schema_wf s → schema_deserialize (schema_serialize s) = Ok s.
Proof. apply schema_text_read. Qed.

Lemma schema_text_roundtrip_witness :
  schema_deserialize (schema_serialize person) = Ok person.
Proof.
  apply schema_text_roundtrip. split; [apply (bool_decide_unpack _); vm_compute; exact I|].
  repeat constructor; try (apply (bool_decide_unpack _); vm_compute; exact I); try discriminate.
Defined.

(** C32: reading a text that is cut off.  Of the text a well-formed schema (no colon in the table's
    name, no blank in a column's, numbers in range) is saved as, take any beginning: when it ends behind a column (or behind the table's name and colon),
    [deserialize] ends with the schema of the columns up to there; everywhere else its loops wait for
    ever for a delimiter that does not come, however many turns they take. *)
Theorem schema_deserialize_terminates s text rest :
  Schema_wf s → schema_serialize s = text ++ rest →
  let shorter k := mk_schema (s_name s) (take k (attrs_ s)) in
  (∃ k, text = schema_serialize (shorter k) ∧ schema_deserialize text = Ok (shorter k)) ∨
  ((∀ k, text ≠ schema_serialize (shorter k)) ∧ ∀ fuel, schema_deserialize_within fuel text = OutOfFuel).
Proof.
  intros [Hn Ha] Ht shorter. unfold schema_serialize in Ht. destruct (decide (length text ≤ length (s_name s))) as [Hl|Hl].
  - right. assert (Hp : text = take (length text) (s_name s)).
    { rewrite <- (take_app_le _ (lit ":" ++ concat (Attribute_serialize <$> attrs_ s))) by lia.
      rewrite Ht. by rewrite take_app_length. }
    split.
    + intros k Hk. apply (f_equal length) in Hk. unfold schema_serialize in Hk. rewrite !length_app in Hk. simpl in Hk. lia.
    + intros fuel. unfold schema_deserialize_within. rewrite read_to_none; [done|]. rewrite Hp. intros Hin.
      apply Hn. by apply elem_of_take in Hin as (i & Hi%list_elem_of_lookup_2 & _).
  - assert (Hp : ∃ text', text = s_name s ++ lit ":" ++ text').
    { exists (drop (S (length (s_name s))) text).
      rewrite <- (take_drop (S (length (s_name s))) text) at 1. rewrite (app_assoc (s_name s)). f_equal.
      rewrite <- (take_app_le _ rest) by lia. rewrite <- Ht, app_assoc, take_app_le by (rewrite length_app; simpl; lia).
      rewrite take_ge; [done|]. rewrite length_app. simpl. lia. }
    destruct Hp as [text' ->]. rewrite <- !app_assoc in Ht. apply app_inv_head, app_inv_head in Ht.
    destruct (attrs_cut _ _ _ Ha Ht) as [[k ->]|[Hk Hd]].
    + left. exists k. split; [done|]. apply (schema_text_read (shorter k)). split; [done|]. by apply Forall_take.
    + right. split.
      * intros k E. apply app_inv_head, app_inv_head in E. by apply (Hk k).
      * intros fuel. unfold schema_deserialize_within. change (lit ":") with [":"%char]. cbn [app].
        rewrite read_to_app by done. cbn [mbind result_bind tail]. by rewrite Hd.
Qed.

Lemma schema_deserialize_terminates_witness :
  schema_deserialize (lit "person:(id (0 0") = OutOfFuel ∧
  schema_deserialize_within 1000 (lit "person:(id (0 0") = OutOfFuel.
Proof.
  destruct (schema_deserialize_terminates person (lit "person:(id (0 0") (drop 15 (schema_serialize person)))
    as [(k & Hk & _)|[_ Hd]].
  - split; [apply (bool_decide_unpack _); vm_compute; exact I|].
    repeat constructor; try (apply (bool_decide_unpack _); vm_compute; exact I); try discriminate.
  - vm_compute. reflexivity.
  - exfalso. destruct k as [|[|[|k]]]; vm_compute in Hk; discriminate.
  - split; apply Hd.
Defined.

(** [operator==] on schemas decides equality. *)
Theorem schema_eqb_spec l r : schema_eqb l r = true ↔ l = r.
Proof.
  assert (∀ a b, Attribute_eqb a b = true ↔ a = b) as Ha.
  { intros [n [t p] q] [n' [t' p'] q']. unfold Attribute_eqb, AttrType_eqb. simpl.
    rewrite !andb_true_iff, !bool_decide_eq_true, !N.eqb_eq. split; [by intros [[-> [-> ->]] ->]|].
    by intros [= -> -> -> ->]. }
  assert (∀ a b, attrs_eqb a b = true ↔ a = b) as Has.
  { induction a as [|x a IH]; intros [|y b]; simpl; try done.
    rewrite andb_true_iff, Ha, IH. split; [by intros [-> ->]|by intros [= -> ->]]. }
  destruct l, r. unfold schema_eqb. simpl. rewrite andb_true_iff, bool_decide_eq_true, Has.
  split; [by intros [-> ->]|by intros [= -> ->]].
Qed.

(** [encode], [decode] and [encoded_length] refuse a row of the wrong size before they touch
    the buffer. *)
Theorem schema_size_mismatch s t mem buf :
  length t ≠ length (attrs_ s) →
  schema_encode s t mem buf = throw "size does not match" ∧
  schema_decode s mem buf t = throw "size does not match" ∧
  schema_encoded_length s t = throw "size does not match".
Proof.
  intros H. unfold schema_encode, schema_decode, schema_encoded_length, check_tuple_size.
  by rewrite decide_False.
Qed.

Lemma schema_size_mismatch_witness :
  schema_encode person [] [] 0 = throw "size does not match" ∧
  schema_decode person [] 0 [] = throw "size does not match" ∧
  schema_encoded_length person [] = throw "size does not match".
Proof. by apply schema_size_mismatch. Defined.

(** [decode] pointed at what [encode] wrote reads the table's name as data. *)
Theorem decode_reads_prefix :
  ∃ mem', schema_encode person alice (replicate 30 byte0) 0 = Ok mem' ∧
          is_ok (schema_decode person mem' 0 alice) = true ∧
          schema_decode person mem' 0 alice ≠ Ok alice.
Proof. eexists. split; [vm_compute; reflexivity|]. by vm_compute. Qed.

(** behind a string column the next column is written over the string: [encoded_length]
    leaves out the eight bytes of the length.  Reading the row back runs out of the buffer. *)
Theorem string_column_overwritten :
  let s := mk_schema (lit "t") [mk_attribute (lit "a") (AttrType_of_string (lit "string")) P_NONE;
                                mk_attribute (lit "b") int_type P_NONE] in
  let t := [maybe_of_slice (lit "a"); maybe_of_int 1] in
  ∃ mem', schema_encode s t (replicate 64 byte0) 0 = Ok mem' ∧
          schema_decode s mem' (length (get_prefix s)) t = UB.
Proof. eexists. split; [vm_compute; reflexivity|]. vm_compute. reflexivity. Qed.
