(* ===== verification/MetaData.v ===== *)
(** * MetaData: the catalogue ([src/src/reir/db/metadata.hpp], [metadata.cpp])

    The catalogue keeps every table's schema twice: in the map [tables_], which
    [show_tables] prints, and as text in a LevelDB database, which [get_schema] reads.
    LevelDB is not part of the program: it is the type class [KVStore], and its documented
    behaviour the class [KVLaws].  A [gmap] is an instance of both. *)

From S2P Require Import Prelude Value Attr Schema.
From Stdlib Require Import ZArith NArith Ascii String Lia.
From stdpp Require Import base option list strings gmap.

(** ** The store *)

(** [Put] returns whether its [Status] is ok; [Get] a value when its [Status] is. *)
Class KVStore (St : Type) := {
  kv_put : St → cstr → cstr → St * bool;
  kv_get : St → cstr → option cstr;
}.

Class KVLaws (St : Type) `{KVStore St} : Prop := {
  kv_get_put st k v : (kv_put st k v).2 = true → kv_get (kv_put st k v).1 k = Some v;
  kv_get_put_ne st k k' v : k ≠ k' → kv_get (kv_put st k v).1 k' = kv_get st k';
}.

#[export] Instance gmap_store : KVStore (gmap cstr cstr) := {
  kv_put st k v := (<[k := v]> st, true);
  kv_get st k := st !! k;
}.

#[export] Instance gmap_store_laws : KVLaws (gmap cstr cstr).
Proof.
  split; simpl.
  - intros st k v _. apply lookup_insert_eq.
  - intros st k k' v Hk. by apply lookup_insert_ne.
Qed.

(** ** The catalogue *)

(** What the catalogue promises to be: a map from table names to columns. *)
Abbreviation catalogue := (gmap cstr (list Attribute)).

Section MetaData.
Context {St : Type} `{KVStore St}.

Record MetaData := mk_metadata { tables_ : gmap cstr Schema; db_ : St }.

(** [MetaData()]: [opened] is the database [leveldb::DB::Open] yields when its status is ok. *)
Definition MetaData_new (opened : option St) : result MetaData :=
  match opened with
  | Some db => Ok (mk_metadata ∅ db)
  | None => Abort
  end.

Definition schema_key (name : cstr) : cstr := lit "table:global_schema:" ++ name.

(** [unordered_map::insert] leaves a present key alone; [Put]'s status is dropped. *)
Definition tables_insert (m : gmap cstr Schema) (k : cstr) (s : Schema) : gmap cstr Schema :=
  match m !! k with Some _ => m | None => <[k := s]> m end.

Definition create_table (md : MetaData) (name : cstr) (attr : list Attribute) : MetaData :=
  let key := schema_key name in
  let new_schema := mk_schema name attr in
  mk_metadata (tables_insert (tables_ md) key new_schema)
              (kv_put (db_ md) key (schema_serialize new_schema)).1.

Definition drop_table (md : MetaData) (name : cstr) : MetaData := md.

Definition get_schema (md : MetaData) (name : cstr) : result Schema :=
  match kv_get (db_ md) (schema_key name) with
  | Some value => schema_deserialize value
  | None => Throw (lit "table " ++ name ++ lit " not found")
  end.

(** The lines [show_tables] prints; the order of an [unordered_map] is unspecified. *)
Definition show_tables (md : MetaData) : list cstr :=
  (λ '(k, s), k ++ lit " -> " ++ show_Schema s) <$> map_to_list (tables_ md).

(** ** What it promises: a map from names to schemas *)

Definition spec_get (c : catalogue) (name : cstr) : result Schema :=
  match c !! name with
  | Some attrs => Ok (mk_schema name attrs)
  | None => Throw (lit "table " ++ name ++ lit " not found")
  end.

(** The database holds the text of the catalogue's schemas and no other schema. *)
Definition represents (c : catalogue) (md : MetaData) : Prop :=
  map_Forall (λ name attrs, Schema_wf (mk_schema name attrs)) c ∧
  ∀ name, kv_get (db_ md) (schema_key name) =
          (λ attrs, schema_serialize (mk_schema name attrs)) <$> c !! name.

Definition create_all (md : MetaData) (ops : list (cstr * list Attribute)) : MetaData :=
  fold_left (λ md '(name, attrs), create_table md name attrs) ops md.
Definition spec_all (c : catalogue) (ops : list (cstr * list Attribute)) : catalogue :=
  fold_left (λ c '(name, attrs), <[name := attrs]> c) ops c.

End MetaData.
Arguments MetaData : clear implicits.

(** ** Lemmas *)

Lemma schema_key_inj n1 n2 : schema_key n1 = schema_key n2 → n1 = n2.
Proof. apply app_inv_head. Qed.

Section laws.
Context {St : Type} `{KVLaws St}.
Implicit Types md : MetaData St.

Lemma represents_get c md name : represents c md → get_schema md name = spec_get c name.
Proof.
  intros [Hwf Hdb]. unfold get_schema, spec_get. rewrite Hdb.
  destruct (c !! name) as [attrs|] eqn:E; [|done]. simpl. apply schema_text_read, (Hwf _ _ E).
Qed.

Lemma represents_create c md name attrs :
  (∀ st k v, (kv_put st k v).2 = true) → Schema_wf (mk_schema name attrs) →
  represents c md → represents (<[name := attrs]> c) (create_table md name attrs).
Proof.
  intros Hput Hwf [Hc Hdb]. split; [by apply map_Forall_insert_2|].
  intros n. simpl. destruct (decide (n = name)) as [->|Hn].
  - rewrite lookup_insert_eq. by rewrite kv_get_put.
  - rewrite lookup_insert_ne by done. rewrite kv_get_put_ne; [apply Hdb|].
    intros E. by apply schema_key_inj in E.
Qed.

End laws.

(** * Properties *)

(** The catalogue over a [gmap] store, for the witnesses. *)
Definition empty_md : MetaData (gmap cstr cstr) := mk_metadata ∅ ∅.

Lemma person_wf : Schema_wf person.
Proof.
  split; [apply (bool_decide_unpack _); vm_compute; exact I|].
  repeat constructor; try (apply (bool_decide_unpack _); vm_compute; exact I); discriminate.
Qed.

(** C20: the catalogue implements a map from table names to schemas.  On a store whose writes all
    succeed, after any sequence of [create_table] calls for well-formed schemas (no colon in the
    table's name, no blank in a column's, numbers in range), [get_schema] answers for every name what the map updated in that order
    holds, and throws "table ... not found" for every name not in it. *)
Theorem catalogue_refines {St} `{KVLaws St} (c : catalogue) (md : MetaData St) ops name :
  (∀ st k v, (kv_put st k v).2 = true) →
  Forall (λ '(n, attrs), Schema_wf (mk_schema n attrs)) ops →
  represents c md →
  get_schema (create_all md ops) name = spec_get (spec_all c ops) name.
Proof.
  intros Hput Hops Hr. apply represents_get. revert c md Hr.
  induction Hops as [|[n attrs] ops Hwf _ IH]; intros c md Hr; [done|].
  apply IH, represents_create; done.
Qed.

Lemma catalogue_refines_witness :
  get_schema (create_all empty_md [(lit "person", attrs_ person); (lit "person", [])]) (lit "person")
  = spec_get (spec_all ∅ [(lit "person", attrs_ person); (lit "person", [])]) (lit "person").
Proof.
  apply catalogue_refines; [done| |].
  - constructor; [apply person_wf|]. constructor; [|constructor].
    split; [apply (bool_decide_unpack _); vm_compute; exact I|constructor].
  - split; [apply map_Forall_empty|]. intros n. by rewrite lookup_empty.
Defined.

(** creating a table changes no other table: any other name is answered as before. *)
Theorem create_table_others {St} `{KVLaws St} (md : MetaData St) name attrs other :
  other ≠ name → get_schema (create_table md name attrs) other = get_schema md other.
Proof.
  intros Hn. unfold get_schema, create_table. simpl. rewrite kv_get_put_ne; [done|].
  intros E. by apply schema_key_inj in E.
Qed.

Lemma create_table_others_witness :
  get_schema (create_table empty_md (lit "person") (attrs_ person)) (lit "t") =
  get_schema empty_md (lit "t").
Proof. by apply create_table_others. Defined.

(** creating a table twice leaves the two copies of the catalogue apart: [get_schema] reads
    the second definition from the database, [tables_] keeps the first. *)
Theorem recreate_diverges {St} `{KVLaws St} (md : MetaData St) name a1 a2 :
  (∀ st k v, (kv_put st k v).2 = true) → Schema_wf (mk_schema name a2) →
  tables_ md !! schema_key name = None →
  let md' := create_table (create_table md name a1) name a2 in
  get_schema md' name = Ok (mk_schema name a2) ∧
  tables_ md' !! schema_key name = Some (mk_schema name a1).
Proof.
  intros Hput Hwf Hn. split.
  - unfold get_schema. simpl. rewrite kv_get_put by done. by apply schema_text_read.
  - simpl. unfold tables_insert. rewrite Hn. by rewrite !lookup_insert_eq.
Qed.

Lemma recreate_diverges_witness :
  let md' := create_table (create_table empty_md (lit "person") []) (lit "person") (attrs_ person) in
  get_schema md' (lit "person") = Ok person ∧
  tables_ md' !! schema_key (lit "person") = Some (mk_schema (lit "person") []).
Proof. apply recreate_diverges; [done|apply person_wf|done]. Defined.

(** [drop_table] drops nothing: a table created before is still there, with its schema. *)
Theorem drop_table_keeps {St} `{KVLaws St} (md : MetaData St) name attrs :
  (kv_put (db_ md) (schema_key name) (schema_serialize (mk_schema name attrs))).2 = true →
  Schema_wf (mk_schema name attrs) →
  get_schema (drop_table (create_table md name attrs) name) name = Ok (mk_schema name attrs).
Proof.
  intros Hput Hwf. unfold get_schema. simpl. rewrite kv_get_put by done. by apply schema_text_read.
Qed.

Lemma drop_table_keeps_witness :
  get_schema (drop_table (create_table empty_md (lit "person") (attrs_ person)) (lit "person"))
    (lit "person") = Ok person.
Proof. apply drop_table_keeps; [done|apply person_wf]. Defined.
