(* ===== verification/Ast.v ===== *)
(** * Ast: the syntax tree
      ([src/src/reir/exec/ast_node.hpp], [ast_expression.hpp], [ast_statement.hpp])

    Every concrete node class is a constructor.  The slots the compiler fills later
    (the [type_] of an expression, the LLVM values of [Insert] and [Scan], the [types_] of a
    tuple type) are not part of the tree the parser builds.  A pointer a constructor may leave
    null or unset is an [option].  The enumerations live in modules, since their enumerators
    share names with the token types. *)

From S2P Require Import Prelude Value.
From Stdlib Require Import ZArith NArith Ascii String Lia.
From stdpp Require Import base option list strings.

Module Op.
Inductive operators :=
  | PLUS | MINUS | MULTIPLE | DIVISION | EQUAL | MODULO | LESSTHAN | LESSEQUAL
  | MORETHAN | MOREEQUAL | NOTEQUAL | CONDITIONAL_AND | CONDITIONAL_OR | NONE.

#[global] Instance operators_eq_dec : EqDecision operators.
Proof. solve_decision. Defined.

(** The enumerator's value. *)
Definition index (op : operators) : nat :=
  match op with
  | PLUS => 0 | MINUS => 1 | MULTIPLE => 2 | DIVISION => 3 | EQUAL => 4 | MODULO => 5
  | LESSTHAN => 6 | LESSEQUAL => 7 | MORETHAN => 8 | MOREEQUAL => 9 | NOTEQUAL => 10
  | CONDITIONAL_AND => 11 | CONDITIONAL_OR => 12 | NONE => 13
  end.
End Op.

(** The table of [op_to_string] has twelve entries for fourteen operators. *)
Definition op_names : list string :=
  [ "PLUS"; "MINUS"; "MULTIPLE"; "DIVISION"; "EQUAL"; "MODULO"; "LESSTHAN"; "LESSEQUAL";
    "MORETHAN"; "MOREEQUAL"; "NOTEQUAL"; "NONE" ]%string.
Definition op_to_string (op : Op.operators) : result cstr :=
  match op_names !! Op.index op with Some s => Ok (lit s) | None => UB end.

Module TypeId.
Inductive type_id :=
  | NONE_TYPE | INTEGER | DOUBLE | STRING | DATE | BOOL | FUNCTION | POINTER | ARRAY | TUPLE.

#[global] Instance type_id_eq_dec : EqDecision type_id.
Proof. solve_decision. Defined.
End TypeId.

Definition type_to_string (t : TypeId.type_id) : cstr :=
  match t with
  | TypeId.NONE_TYPE => lit "NONE_TYPE" | TypeId.INTEGER => lit "INTEGER"
  | TypeId.DOUBLE => lit "DOUBLE" | TypeId.STRING => lit "STRING" | TypeId.DATE => lit "DATE"
  | TypeId.BOOL => lit "BOOL" | TypeId.FUNCTION => lit "FUNCTION"
  | TypeId.POINTER => lit "POINTER" | TypeId.ARRAY => lit "ARRAY" | TypeId.TUPLE => lit "TUPLE"
  end.

(** [PrimaryType::type_parse] *)
Definition type_parse (type : cstr) : result TypeId.type_id :=
  if decide (type = lit "int") then Ok TypeId.INTEGER
  else if decide (type = lit "double") then Ok TypeId.DOUBLE
  else if decide (type = lit "bool") then Ok TypeId.BOOL
  else if decide (type = lit "string") then Ok TypeId.STRING
  else if decide (type = lit "date") then Ok TypeId.DATE
  else Throw (lit "type parser: unknown type " ++ type).

(** The parallel vectors of a [TupleType] as it is parsed. *)
Record TupleDecl := mk_decl {
  names_ : list cstr;
  type_names_ : list cstr;
  props_ : list N;
  params_ : list (option Z);
}.

#[export] Instance TupleDecl_eq_dec : EqDecision TupleDecl.
Proof. solve_decision. Defined.

Inductive Ty :=
  | PrimaryType (type_ : TypeId.type_id)
  | ArrayType (type_ : TypeId.type_id)
  | TupleType (decl : TupleDecl).

#[export] Instance Ty_eq_dec : EqDecision Ty.
Proof. solve_decision. Defined.

(** The member [type_] of the base class. *)
Definition ty_id (t : Ty) : TypeId.type_id :=
  match t with PrimaryType i | ArrayType i => i | TupleType _ => TypeId.TUPLE end.

(** No constructor stores the second alternative of [PrimaryExpression]'s variant. *)
Inductive Expression :=
  | PrimaryExpression (value_ : MaybeValue)
  | BinaryExpression (lhs_ : Expression) (op_ : Op.operators) (rhs_ : Expression)
  | PointerOf (target_ : Expression)
  | RowLiteral (elements_ : list Expression)
  | ArrayLiteral (elements_ : list Expression)
  | VariableReference (name_ : cstr)
  | FunctionCall (parent_ : Expression) (args_ : list Expression)
  | ArrayReference (parent_ : option Expression) (idx_ : Expression)
  | MemberReference (parent_ : Expression) (name_ : cstr)
  | Assign (target_ : Expression) (value_ : Expression).

Inductive jump := continue_jump | break_jump.

(** [Define]'s [schema_] is a [dynamic_cast] that may fail; [For]'s first three members are set
    only when their part is present; a [Block*] is its list of statements. *)
Inductive Statement :=
  | Block (statements_ : list Statement)
  | Transaction (isolation_ : cstr) (sequence_ : list Statement)
  | Define (schema_ : option TupleDecl) (name_ : cstr)
  | For (init_ : option Statement) (cond_ every_ : option Expression) (blk_ : list Statement)
  | Jump (t_ : jump)
  | Emit (value_ : Expression)
  | Insert (table_ : cstr) (value_ : Expression)
  | Scan (table_ row_name_ : cstr) (blk_ : list Statement)
  | Let (name_ : cstr) (expr_ : Expression) (type_ : option Ty)
  | DefineTuple (name_ : cstr) (type_ : TupleDecl)
  | If (cond_ : Expression) (true_block_ : list Statement) (false_block_ : option (list Statement))
  | ExprStatement (value_ : Expression).

(** ** Induction over the trees, through the lists and options *)

Section expr_ind.
Context (P : Expression → Prop).
Context (HPrimary : ∀ v, P (PrimaryExpression v)).
Context (HBinary : ∀ l op r, P l → P r → P (BinaryExpression l op r)).
Context (HPointer : ∀ t, P t → P (PointerOf t)).
Context (HRow : ∀ es, Forall P es → P (RowLiteral es)).
Context (HArray : ∀ es, Forall P es → P (ArrayLiteral es)).
Context (HVariable : ∀ n, P (VariableReference n)).
Context (HFunc : ∀ p args, P p → Forall P args → P (FunctionCall p args)).
Context (HArrayRef : ∀ p i, (∀ e, p = Some e → P e) → P i → P (ArrayReference p i)).
Context (HMember : ∀ p n, P p → P (MemberReference p n)).
Context (HAssign : ∀ t v, P t → P v → P (Assign t v)).

Fixpoint Expression_rect' (e : Expression) : P e :=
  let fix go (es : list Expression) : Forall P es :=
    match es with
    | [] => Forall_nil_2 P
    | e :: es => Forall_cons_2 P e es (Expression_rect' e) (go es)
    end in
  match e with
  | PrimaryExpression v => HPrimary v
  | BinaryExpression l op r => HBinary l op r (Expression_rect' l) (Expression_rect' r)
  | PointerOf t => HPointer t (Expression_rect' t)
  | RowLiteral es => HRow es (go es)
  | ArrayLiteral es => HArray es (go es)
  | VariableReference n => HVariable n
  | FunctionCall p args => HFunc p args (Expression_rect' p) (go args)
  | ArrayReference None i =>
      HArrayRef None i (λ e E, match E with eq_refl => I end) (Expression_rect' i)
  | ArrayReference (Some p) i =>
      HArrayRef (Some p) i
        (λ e E, match E in _ = o return (match o with Some e => P e | None => True end) with
                | eq_refl => Expression_rect' p end)
        (Expression_rect' i)
  | MemberReference p n => HMember p n (Expression_rect' p)
  | Assign t v => HAssign t v (Expression_rect' t) (Expression_rect' v)
  end.
End expr_ind.

Section stmt_ind.
Context (P : Statement → Prop).
Context (HBlock : ∀ l, Forall P l → P (Block l)).
Context (HTransaction : ∀ i l, Forall P l → P (Transaction i l)).
Context (HDefine : ∀ s n, P (Define s n)).
Context (HFor : ∀ i c e l, (∀ s, i = Some s → P s) → Forall P l → P (For i c e l)).
Context (HJump : ∀ t, P (Jump t)).
Context (HEmit : ∀ e, P (Emit e)).
Context (HInsert : ∀ t e, P (Insert t e)).
Context (HScan : ∀ t r l, Forall P l → P (Scan t r l)).
Context (HLet : ∀ n e t, P (Let n e t)).
Context (HDefineTuple : ∀ n t, P (DefineTuple n t)).
Context (HIf : ∀ c t f, Forall P t → (∀ l, f = Some l → Forall P l) → P (If c t f)).
Context (HExpr : ∀ e, P (ExprStatement e)).

Fixpoint Statement_rect' (s : Statement) : P s :=
  let fix go (l : list Statement) : Forall P l :=
    match l with
    | [] => Forall_nil_2 P
    | s :: l => Forall_cons_2 P s l (Statement_rect' s) (go l)
    end in
  match s with
  | Block l => HBlock l (go l)
  | Transaction i l => HTransaction i l (go l)
  | Define s n => HDefine s n
  | For None c e l => HFor None c e l (λ s E, match E with eq_refl => I end) (go l)
  | For (Some i) c e l =>
      HFor (Some i) c e l
        (λ s E, match E in _ = o return (match o with Some s => P s | None => True end) with
                | eq_refl => Statement_rect' i end) (go l)
  | Jump t => HJump t
  | Emit e => HEmit e
  | Insert t e => HInsert t e
  | Scan t r l => HScan t r l (go l)
  | Let n e t => HLet n e t
  | DefineTuple n t => HDefineTuple n t
  | If c t None => HIf c t None (go t) (λ l E, match E with eq_refl => I end)
  | If c t (Some f) =>
      HIf c t (Some f) (go t)
        (λ l E, match E in _ = o return (match o with Some l => Forall P l | None => True end) with
                | eq_refl => go f end)
  | ExprStatement e => HExpr e
  end.
End stmt_ind.

(** ** Lemma *)

(** [op_to_string] reads past its table for the last two operators, and names [&&] "NONE". *)
Theorem op_to_string_table :
  op_to_string Op.CONDITIONAL_AND = Ok (lit "NONE") ∧
  op_to_string Op.CONDITIONAL_OR = UB ∧ op_to_string Op.NONE = UB.
Proof. done. Qed.
