(* ===== verification/Dump.v ===== *)
(** * Dump: the [dump] methods of the syntax tree
      ([src/src/reir/exec/ast_expression.hpp], [ast_statement.hpp], [src/src/util/blank.hpp])

    A dump writes to a stream; here it returns the text.  Dumping through a null pointer is
    [UB].  How a [double] prints is a parameter.  The compiler dumps a program before it analyses
    it: the vector [types_] of a tuple type, which the analysis fills, is still empty then. *)

From Stdlib Require Import ZArith NArith Ascii String Lia.
From stdpp Require Import base option list strings.
From S2P Require Import Prelude Value Ast.

Definition NEWLINE : ascii := "010"%char.

(** [operator<<] of [util::blank] *)
Definition blank (indent : nat) : cstr := replicate indent " "%char.

(** The operators as [BinaryExpression::dump] writes them. *)
Definition op_symbol (op : Op.operators) : cstr :=
  match op with
  | Op.PLUS => lit " + "
  | Op.MINUS => lit " - "
  | Op.MULTIPLE => lit " * "
  | Op.DIVISION => lit " / "
  | Op.EQUAL => lit " == "
  | Op.MODULO => lit " % "
  | Op.LESSTHAN => lit " < "
  | Op.LESSEQUAL => lit " <= "
  | Op.MORETHAN => lit " > "
  | Op.MOREEQUAL => lit " >= "
  | Op.NOTEQUAL => lit " != "
  | Op.CONDITIONAL_AND => lit " && "
  | Op.CONDITIONAL_OR => lit " || "
  | Op.NONE => lit " ???? "
  end.

(** The loops over elements and arguments: [", "] before all but the first. *)
Definition comma_before (i : nat) : cstr := if (0 <? i)%nat then lit ", " else [].

Section loops.
Context (dump : Expression → result cstr).
Fixpoint dump_items (i : nat) (es : list Expression) : result cstr :=
  match es with
  | [] => Ok []
  | e :: es => s ← dump e; r ← dump_items (S i) es; Ok (comma_before i ++ s ++ r)
  end.
End loops.

(** [Block::dump] *)
Section block.
Context (dump : Statement → nat → result cstr) (indent : nat).
Fixpoint dump_lines (l : list Statement) : result cstr :=
  match l with
  | [] => Ok []
  | s :: l =>
      t ← dump s (indent + 2); r ← dump_lines l;
      Ok (blank (indent + 2) ++ t ++ [NEWLINE] ++ r)
  end.
Definition dump_block (l : list Statement) : result cstr :=
  b ← dump_lines l; Ok (lit "Block [" ++ [NEWLINE] ++ b ++ blank indent ++ lit "]").
End block.

(** [TupleType::dump] of a type that is not analysed: its loop runs over the empty [types_]. *)
Definition dump_decl (d : TupleDecl) : result cstr := Ok (lit "{" ++ lit "}").

Section dump.
Context (show_double : Z → cstr).

(** The methods of the expression classes; [dump] is the method of their parts. *)
Section expr_methods.
Context (dump : Expression → result cstr).

Definition dump_primary (v : MaybeValue) : result cstr := Ok (show_maybe show_double v).
Definition dump_binary (l : Expression) (op : Op.operators) (r : Expression) : result cstr :=
  a ← dump l; b ← dump r; Ok (lit "(" ++ a ++ op_symbol op ++ b ++ lit ")").
Definition dump_pointer (t : Expression) : result cstr := s ← dump t; Ok (lit "&" ++ s).
Definition dump_variable (n : cstr) : result cstr := Ok (lit "VarRef:" ++ n).
Definition dump_array_ref (p : option Expression) (i : Expression) : result cstr :=
  match p with
  | None => UB
  | Some p => s ← dump p; t ← dump i; Ok (lit "ArrRef" ++ s ++ lit "[" ++ t ++ lit "]")
  end.
Definition dump_member (p : Expression) (n : cstr) : result cstr :=
  s ← dump p; Ok (s ++ lit "-m->" ++ n).
Definition dump_assign (t v : Expression) : result cstr :=
  s ← dump t; r ← dump v; Ok (s ++ lit " = " ++ r).

Definition dump_row (es : list Expression) : result cstr :=
  s ← dump_items dump 0 es; Ok (lit "RowLiteral{" ++ s ++ lit "}").
Definition dump_array (es : list Expression) : result cstr :=
  s ← dump_items dump 0 es;
  Ok (lit "ArrayLiteral(" ++ show_N (N.of_nat (length es)) ++ lit ")[" ++ s ++ lit "]").
Definition dump_call (p : Expression) (args : list Expression) : result cstr :=
  s ← dump p; a ← dump_items dump 0 args; Ok (lit "Fun:" ++ s ++ lit "(" ++ a ++ lit ")").
End expr_methods.

Fixpoint dump_expr (e : Expression) : result cstr :=
  match e with
  | PrimaryExpression v => dump_primary v
  | BinaryExpression l op r => dump_binary dump_expr l op r
  | PointerOf t => dump_pointer dump_expr t
  | RowLiteral es => dump_row dump_expr es
  | ArrayLiteral es => dump_array dump_expr es
  | VariableReference n => dump_variable n
  | FunctionCall p args => dump_call dump_expr p args
  | ArrayReference p i => dump_array_ref dump_expr p i
  | MemberReference p n => dump_member dump_expr p n
  | Assign t v => dump_assign dump_expr t v
  end.

(** The methods of the statement classes; [block] is [Block::dump] of their blocks. *)

Definition dump_jump (t : jump) : result cstr :=
  match t with continue_jump => Ok (lit "continue") | break_jump => Ok (lit "break") end.
Definition dump_define (d : option TupleDecl) (n : cstr) : result cstr :=
  match d with
  | None => UB
  | Some d => t ← dump_decl d; Ok (lit "Define(" ++ n ++ lit ")" ++ t)
  end.
Definition dump_define_tuple (n : cstr) (d : TupleDecl) : result cstr :=
  t ← dump_decl d; Ok (lit "typedef: " ++ t ++ lit " " ++ n).
Definition dump_emit (e : Expression) : result cstr := s ← dump_expr e; Ok (lit "emit: " ++ s).
Definition dump_insert (t : cstr) (e : Expression) : result cstr :=
  s ← dump_expr e; Ok (lit "insert into " ++ t ++ lit ": " ++ s).
Definition dump_let (n : cstr) (e : Expression) : result cstr :=
  s ← dump_expr e; Ok (lit "let " ++ n ++ lit " := " ++ s).
Definition dump_expr_statement (e : Expression) : result cstr :=
  s ← dump_expr e; Ok (lit "expr[" ++ s ++ lit "]").

(** A [for]'s absent part was never initialised: testing it is [UB]. *)
Definition dump_part {A} (f : A → result cstr) (o : option A) : result cstr :=
  match o with Some a => f a | None => UB end.

Section stmt_methods.
Context (block : list Statement → nat → result cstr) (indent : nat).

Definition dump_transaction (iso : cstr) (l : list Statement) : result cstr :=
  b ← block l (indent + 2);
  Ok (lit "transaction(" ++ iso ++ lit ") [" ++ [NEWLINE] ++ blank (indent + 2) ++ b ++
      [NEWLINE] ++ blank indent ++ lit "]").

Definition dump_scan (t r : cstr) (l : list Statement) : result cstr :=
  b ← block l indent;
  Ok (lit "full_scan(" ++ t ++ lit "): as |" ++ r ++ lit "|" ++ [NEWLINE] ++ blank indent ++ b).

(** [init] is the dump of the initialisation. *)
Definition dump_for (init : result cstr) (c e : option Expression) (l : list Statement) : result cstr :=
  a ← init;
  b ← dump_part dump_expr c;
  x ← dump_part dump_expr e;
  t ← block l (indent + 2);
  Ok (lit "for (" ++ a ++ lit ";" ++ b ++ lit ";" ++ x ++ lit ") {" ++ [NEWLINE] ++
      blank (indent + 2) ++ t ++ [NEWLINE] ++ blank indent ++ lit "}").

Definition dump_if (c : Expression) (t : list Statement) (f : option (list Statement)) : result cstr :=
  a ← dump_expr c;
  b ← block t (indent + 2);
  x ← match f with
      | Some f =>
          y ← block f (indent + 2);
          Ok ([NEWLINE] ++ blank indent ++ lit "else" ++ [NEWLINE] ++ blank (indent + 2) ++ y)
      | None => Ok []
      end;
  Ok (lit "if " ++ a ++ lit " then" ++ [NEWLINE] ++ blank (indent + 2) ++ b ++ x ++
      [NEWLINE] ++ blank indent ++ lit "fi").
End stmt_methods.

Fixpoint dump_stmt (s : Statement) (indent : nat) : result cstr :=
  let block l indent := dump_block dump_stmt indent l in
  match s with
  | Block l => block l indent
  | Transaction iso l => dump_transaction block indent iso l
  | Define d n => dump_define d n
  | For i c e l =>
      dump_for block indent (match i with Some s => dump_stmt s indent | None => UB end) c e l
  | Jump t => dump_jump t
  | Emit e => dump_emit e
  | Insert t e => dump_insert t e
  | Scan t r l => dump_scan block indent t r l
  | Let n e _ => dump_let n e
  | DefineTuple n d => dump_define_tuple n d
  | If c t f => dump_if block indent c t f
  | ExprStatement e => dump_expr_statement e
  end.
End dump.
