(* ===== verification/ExprParser.v ===== *)
(** * ExprParser: the expression parser ([src/src/reir/exec/ast_expression_parser.cpp])

    The parser's functions call each other; in the model every call takes a fuel, and
    [parse_expr] starts with [2 * length ts + 1], which the lemmas below show to be enough for
    any token list.  The relations [expr_g], [postfix_g] and [items_g] are the grammar the
    parser is meant for, without fuel, order of tests or error messages; the
    parser computes exactly these relations. *)

From Stdlib Require Import ZArith NArith Ascii String Lia.
From stdpp Require Import base option list strings.
From S2P Require Import Prelude Token Value Ast.

Abbreviation toks := (list Token).

(** The inner [switch] that turns a token into an operator. *)
Definition binary_op (ty : token_type) : option Op.operators :=
  match ty with
  | PLUS => Some Op.PLUS
  | MINUS => Some Op.MINUS
  | ASTERISK => Some Op.MULTIPLE
  | SLASH => Some Op.DIVISION
  | PERCENT => Some Op.MODULO
  | OPEN_ANGLE => Some Op.LESSTHAN
  | CLOSE_ANGLE => Some Op.MORETHAN
  | EQUAL_EQUAL => Some Op.EQUAL
  | EXCLAMATION_MARK_EQUAL => Some Op.NOTEQUAL
  | OPEN_ANGLE_EQUAL => Some Op.LESSEQUAL
  | CLOSE_ANGLE_EQUAL => Some Op.MOREEQUAL
  | AND_AND => Some Op.CONDITIONAL_AND
  | OR_OR => Some Op.CONDITIONAL_OR
  | _ => None
  end.

(** [PrimaryExpression(TokenStream&)]; a number is read by [std::stoi]. *)
Definition parse_primary (ts : toks) : result (Expression * toks) :=
  t ← get ts;
  match type t with
  | NUMBER => z ← stoi (text t); Ok (PrimaryExpression (maybe_of_int z), next ts)
  | STRING_LITERAL => Ok (PrimaryExpression (maybe_of_slice (text t)), next ts)
  | _ => Throw (lit "unsupported primary expression(" ++ text t ++ lit ")" ++ lit "passed")
  end.

(** [VariableReference(TokenStream&)] *)
Definition parse_variable (ts : toks) : result (Expression * toks) :=
  t ← get ts;
  _ ← expect_token t IDENTIFIER;
  Ok (VariableReference (text t), next ts).

(** [MemberReference(Expression*, TokenStream&)]; any token's text is a member name. *)
Definition parse_member (parent : Expression) (ts : toks) : result (Expression * toks) :=
  t ← get ts;
  _ ← expect_token t PERIOD;
  let ts := next ts in
  t ← get ts;
  Ok (MemberReference parent (text t), next ts).

(** [dynamic_cast<VariableReference*>] *)
Definition as_variable (e : Expression) : option Expression :=
  match e with VariableReference _ => Some e | _ => None end.

(** The common shape of [FunctionCall], [RowLiteral], [ArrayLiteral] and [Block]: an opening
    token, the items, a closing token. *)
Definition delimited {A} (items : toks → result (A * toks)) (open close : token_type)
    (ts : toks) : result (A * toks) :=
  t ← get ts;
  _ ← expect_token t open;
  '(es, ts) ← items (next ts);
  t ← get ts;
  _ ← expect_token t close;
  Ok (es, next ts).

(** The constructors that read their parts; [parse_expr] and [items] are the readers of the parts. *)
Section constructors.
Context (parse_expr : toks → result (Expression * toks)) (items : toks → result (list Expression * toks)).

(** [RowLiteral(TokenStream&)] *)
Definition new_RowLiteral (ts : toks) : result (Expression * toks) :=
  '(es, ts) ← delimited items OPEN_BRACE CLOSE_BRACE ts; Ok (RowLiteral es, ts).

(** [ArrayLiteral(TokenStream&)] *)
Definition new_ArrayLiteral (ts : toks) : result (Expression * toks) :=
  '(es, ts) ← delimited items OPEN_BRACKET CLOSE_BRACKET ts; Ok (ArrayLiteral es, ts).

(** [FunctionCall(Expression*, TokenStream&)] *)
Definition new_FunctionCall (parent : Expression) (ts : toks) : result (Expression * toks) :=
  '(args, ts) ← delimited items OPEN_PAREN CLOSE_PAREN ts; Ok (FunctionCall parent args, ts).

(** [ArrayReference(Expression*, TokenStream&)] *)
Definition new_ArrayReference (parent : option Expression) (ts : toks) : result (Expression * toks) :=
  t ← get ts;
  _ ← expect_token t OPEN_BRACKET;
  '(idx, ts) ← parse_expr (next ts);
  t ← get ts;
  _ ← expect_token t CLOSE_BRACKET;
  Ok (ArrayReference parent idx, next ts).

(** [Assign(Expression*, TokenStream&)] *)
Definition new_Assign (target : Expression) (ts : toks) : result (Expression * toks) :=
  t ← get ts;
  _ ← expect_token t EQUAL;
  '(v, ts) ← parse_expr (next ts);
  Ok (Assign target v, ts).
End constructors.

Fixpoint parse_expr_f (fuel : nat) (ts : toks) {struct fuel} : result (Expression * toks) :=
  match fuel with
  | O => OutOfFuel
  | S fuel =>
      t ← get ts;
      '(ret, ts) ←
        match type t with
        | AND => '(e, ts) ← parse_expr_f fuel (next ts); Ok (PointerOf e, ts)
        | OPEN_BRACE => new_RowLiteral (items_f fuel CLOSE_BRACE) ts
        | OPEN_PAREN =>
            '(e, ts) ← parse_expr_f fuel (next ts);
            t ← get ts;
            _ ← expect_token t CLOSE_PAREN;
            Ok (e, next ts)
        | OPEN_BRACKET => new_ArrayLiteral (items_f fuel CLOSE_BRACKET) ts
        | IDENTIFIER => parse_variable ts
        | STRING_LITERAL | NUMBER => parse_primary ts
        | _ => Throw (lit "unknown expr: " ++ text t)
        end;
      if negb (has_next ts) then Ok (ret, ts) else postfix_f fuel ret ts
  end

with postfix_f (fuel : nat) (ret : Expression) (ts : toks) {struct fuel}
    : result (Expression * toks) :=
  match fuel with
  | O => OutOfFuel
  | S fuel =>
      if negb (has_next ts) then Ok (ret, ts)
      else
        t ← get ts;
        match type t with
        | OPEN_PAREN => '(e, ts) ← new_FunctionCall (items_f fuel CLOSE_PAREN) ret ts; postfix_f fuel e ts
        | OPEN_BRACKET =>
            '(e, ts) ← new_ArrayReference (parse_expr_f fuel) (as_variable ret) ts; postfix_f fuel e ts
        | PERIOD => '(e, ts) ← parse_member ret ts; postfix_f fuel e ts
        | EQUAL => '(e, ts) ← new_Assign (parse_expr_f fuel) ret ts; postfix_f fuel e ts
        | ty =>
            match binary_op ty with
            | Some op =>
                '(rhs, ts) ← parse_expr_f fuel (next ts);
                Ok (BinaryExpression ret op rhs, ts)
            | None => Ok (ret, ts)
            end
        end
  end

(** The [while] loops of the three list constructors, up to the closing token. *)
with items_f (fuel : nat) (close : token_type) (ts : toks) {struct fuel}
    : result (list Expression * toks) :=
  match fuel with
  | O => OutOfFuel
  | S fuel =>
      t ← get ts;
      if decide (type t = close) then Ok ([], ts)
      else
        '(e, ts) ← parse_expr_f fuel ts;
        t ← get ts;
        if decide (type t = close) then Ok ([e], ts)
        else
          _ ← expect_token t COMMA;
          '(es, ts) ← items_f fuel close (next ts);
          Ok (e :: es, ts)
  end.

Definition expr_fuel (ts : toks) : nat := 2 * length ts + 1.
Definition parse_expr (ts : toks) : result (Expression * toks) := parse_expr_f (expr_fuel ts) ts.
Definition parse_expr_postfix (ret : Expression) (ts : toks) : result (Expression * toks) :=
  postfix_f (expr_fuel ts) ret ts.

(** ** The grammar *)

Definition postfix_start (ty : token_type) : bool :=
  match ty with
  | OPEN_PAREN | OPEN_BRACKET | PERIOD | EQUAL => true
  | _ => bool_decide (is_Some (binary_op ty))
  end.

(** No expression goes on here. *)
Definition stops (ts : toks) : Prop :=
  match ts with [] => True | t :: _ => postfix_start (type t) = false end.

Inductive expr_g : toks → Expression → toks → Prop :=
  | g_pointer t ts e0 ts' e rest :
      type t = AND → expr_g ts e0 ts' → postfix_g (PointerOf e0) ts' e rest →
      expr_g (t :: ts) e rest
  | g_row t ts es t' ts' e rest :
      type t = OPEN_BRACE → items_g CLOSE_BRACE ts es (t' :: ts') →
      postfix_g (RowLiteral es) ts' e rest → expr_g (t :: ts) e rest
  | g_paren t ts e0 t' ts' e rest :
      type t = OPEN_PAREN → expr_g ts e0 (t' :: ts') → type t' = CLOSE_PAREN →
      postfix_g e0 ts' e rest → expr_g (t :: ts) e rest
  | g_array t ts es t' ts' e rest :
      type t = OPEN_BRACKET → items_g CLOSE_BRACKET ts es (t' :: ts') →
      postfix_g (ArrayLiteral es) ts' e rest → expr_g (t :: ts) e rest
  | g_variable t ts e rest :
      type t = IDENTIFIER → postfix_g (VariableReference (text t)) ts e rest →
      expr_g (t :: ts) e rest
  | g_string t ts e rest :
      type t = STRING_LITERAL →
      postfix_g (PrimaryExpression (maybe_of_slice (text t))) ts e rest → expr_g (t :: ts) e rest
  | g_number t ts z e rest :
      type t = NUMBER → stoi (text t) = Ok z →
      postfix_g (PrimaryExpression (maybe_of_int z)) ts e rest → expr_g (t :: ts) e rest

(** What may follow the expression [ret]: nothing, or an operation on it. *)
with postfix_g : Expression → toks → Expression → toks → Prop :=
  | g_stop ret ts : stops ts → postfix_g ret ts ret ts
  | g_call ret t ts args t' ts' e rest :
      type t = OPEN_PAREN → items_g CLOSE_PAREN ts args (t' :: ts') →
      postfix_g (FunctionCall ret args) ts' e rest → postfix_g ret (t :: ts) e rest
  | g_index ret t ts i t' ts' e rest :
      type t = OPEN_BRACKET → expr_g ts i (t' :: ts') → type t' = CLOSE_BRACKET →
      postfix_g (ArrayReference (as_variable ret) i) ts' e rest → postfix_g ret (t :: ts) e rest
  | g_member ret t t' ts e rest :
      type t = PERIOD → postfix_g (MemberReference ret (text t')) ts e rest →
      postfix_g ret (t :: t' :: ts) e rest
  | g_assign ret t ts v ts' e rest :
      type t = EQUAL → expr_g ts v ts' → postfix_g (Assign ret v) ts' e rest →
      postfix_g ret (t :: ts) e rest
  | g_binary ret t ts op rhs rest :
      binary_op (type t) = Some op → expr_g ts rhs rest →
      postfix_g ret (t :: ts) (BinaryExpression ret op rhs) rest

(** Items separated by commas, up to the token [close]; a last comma is allowed. *)
with items_g : token_type → toks → list Expression → toks → Prop :=
  | g_nil close t ts : type t = close → items_g close (t :: ts) [] (t :: ts)
  | g_last close ts e t ts' :
      expr_g ts e (t :: ts') → type t = close → items_g close ts [e] (t :: ts')
  | g_cons close ts e t ts' es rest :
      expr_g ts e (t :: ts') → type t = COMMA → items_g close ts' es rest →
      items_g close ts (e :: es) rest.

Scheme expr_g_mut := Minimality for expr_g Sort Prop
  with postfix_g_mut := Minimality for postfix_g Sort Prop
  with items_g_mut := Minimality for items_g Sort Prop.
Combined Scheme grammar_ind from expr_g_mut, postfix_g_mut, items_g_mut.

Create HintDb grammar.
#[export] Hint Constructors expr_g postfix_g items_g : grammar.

(** The tokens that end a list of items. *)
Definition closing (ty : token_type) : Prop :=
  ty = CLOSE_PAREN ∨ ty = CLOSE_BRACE ∨ ty = CLOSE_BRACKET.

Lemma items_end close ts es rest : items_g close ts es rest → ∃ t r, rest = t :: r ∧ type t = close.
Proof. induction 1; eauto. Qed.

(** ** Inversion lemmas for the small steps *)

Lemma get_inv ts t : get ts = Ok t → ∃ ts', ts = t :: ts'.
Proof. destruct ts as [|u ts']; intros H; [done|]. injection H as ->. eauto. Qed.

Lemma get_cons_inv t ts u : get (t :: ts) = Ok u → u = t.
Proof. by intros [= ->]. Qed.

Lemma expect_inv t ty u : expect_token t ty = Ok u → type t = ty.
Proof. unfold expect_token. by case_decide. Qed.

Lemma expect_ok t ty : type t = ty → expect_token t ty = Ok tt.
Proof. intros. unfold expect_token. by rewrite decide_True. Qed.

Lemma delimited_inv {A} (items : toks → result (A * toks)) open close ts es r :
  delimited items open close ts = Ok (es, r) →
  ∃ t ts1 t', ts = t :: ts1 ∧ type t = open ∧ items ts1 = Ok (es, t' :: r) ∧ type t' = close.
Proof.
  unfold delimited. intros H. inv_prog. simplify_eq.
  repeat match goal with
  | H : get _ = Ok _ |- _ => apply get_inv in H as [? ->]
  | H : expect_token _ _ = Ok _ |- _ => apply expect_inv in H
  end. naive_solver.
Qed.

Lemma delimited_ok {A} (items : toks → result (A * toks)) open close t ts es t' r :
  type t = open → items ts = Ok (es, t' :: r) → type t' = close →
  delimited items open close (t :: ts) = Ok (es, r).
Proof.
  intros Ht Hi Ht'. unfold delimited. simpl. rewrite (expect_ok t) by done. simpl.
  rewrite Hi. simpl. by rewrite (expect_ok t').
Qed.

Ltac unfold_new := unfold new_RowLiteral, new_ArrayLiteral, new_FunctionCall, new_ArrayReference, new_Assign in *.

(** Invert the readers among the hypotheses. *)
Ltac inv_readers :=
  inv_prog;
  repeat match goal with
  | H : get (_ :: _) = Ok _ |- _ => apply get_cons_inv in H; subst
  | H : get _ = Ok _ |- _ => apply get_inv in H as [? ->]
  | H : expect_token _ _ = Ok _ |- _ => apply expect_inv in H
  | H : delimited _ _ _ _ = Ok _ |- _ => apply delimited_inv in H as (? & ? & ? & ? & ? & ? & ?)
  end; simplify_eq/=.

(** The tail of [parse_expr], which looks for a postfix when there are tokens left. *)
Lemma tail_sound fuel ret ts e r :
  (∀ ret ts e r, postfix_f fuel ret ts = Ok (e, r) → postfix_g ret ts e r) →
  (if negb (has_next ts) then Ok (ret, ts) else postfix_f fuel ret ts) = Ok (e, r) →
  postfix_g ret ts e r.
Proof. intros IH H. destruct ts; simpl in *; [|auto]. injection H as <- <-. by constructor. Qed.

Lemma postfix_other t : postfix_start (type t) = false → binary_op (type t) = None.
Proof. by destruct (type t). Qed.

(** ** Soundness: what the parser returns, the grammar derives *)

Lemma parser_sound fuel :
  (∀ ts e r, parse_expr_f fuel ts = Ok (e, r) → expr_g ts e r) ∧
  (∀ ret ts e r, postfix_f fuel ret ts = Ok (e, r) → postfix_g ret ts e r) ∧
  (∀ close ts es r, items_f fuel close ts = Ok (es, r) → items_g close ts es r).
Proof.
  induction fuel as [|fuel (IHe & IHp & IHi)]; [done|]. split_and!.
  - intros ts e r H. cbn [parse_expr_f] in H. inv_prog.
    apply tail_sound in Hk0; [|done]. apply get_inv in Hm as [ts' ->].
    destruct (type r0) eqn:Ht; unfold parse_variable, parse_primary in *; unfold_new; inv_readers;
      rewrite ?Ht in *; inv_readers; eauto with grammar.
  - intros ret ts e r H. cbn [postfix_f] in H. destruct ts as [|t ts]; simpl in H.
    { injection H as <- <-. by constructor. }
    destruct (type t) eqn:Ht; simpl in H; unfold parse_member in H; unfold_new; inv_readers; inv_readers;
      first [ eapply g_binary; [by rewrite Ht|by eauto]
            | by eauto with grammar
            | apply g_stop; simpl; by rewrite Ht ].
  - intros close ts es r H. cbn [items_f] in H. inv_prog. apply get_inv in Hm as [ts' ->].
    case_decide; inv_readers; [by constructor|].
    case_decide; inv_readers; [eapply g_last; eauto|eapply g_cons; eauto].
Qed.

(** ** The grammar makes progress *)

Lemma grammar_progress :
  (∀ ts e r, expr_g ts e r → length r < length ts) ∧
  (∀ ret ts e r, postfix_g ret ts e r → length r ≤ length ts) ∧
  (∀ close ts es r, items_g close ts es r → length r ≤ length ts).
Proof. apply grammar_ind; intros; simpl in *; lia. Qed.

(** An expression starts with none of the closing tokens. *)
Lemma expr_head t ts e r : expr_g (t :: ts) e r → ¬ closing (type t).
Proof. unfold closing. inversion 1; intros [?|[?|?]]; congruence. Qed.

(** ** Completeness: what the grammar derives, the parser returns, with the fuel chosen *)

Lemma tail_complete fuel ret ts e r :
  expr_fuel ts ≤ fuel →
  (∀ f, expr_fuel ts ≤ f → postfix_f f ret ts = Ok (e, r)) →
  (if negb (has_next ts) then Ok (ret, ts) else postfix_f fuel ret ts) = Ok (e, r).
Proof.
  intros Hf H. destruct ts; simpl; [|by apply H].
  specialize (H (S fuel)). simpl in H. apply H. unfold expr_fuel in *. simpl in *. lia.
Qed.

(** Length facts of the derivations at hand, and the fuel inequalities that follow. *)
Ltac lens :=
  pose proof grammar_progress as (Le & Lp & Li);
  repeat match goal with
  | H : expr_g ?ts ?e ?r |- _ =>
      lazymatch goal with _ : length r < length ts |- _ => fail | _ => pose proof (Le _ _ _ H) end
  | H : items_g ?c ?ts ?e ?r |- _ =>
      lazymatch goal with _ : length r ≤ length ts |- _ => fail | _ => pose proof (Li _ _ _ _ H) end
  end; clear Le Lp Li.
Ltac fuel := unfold expr_fuel in *; cbn [length next tail] in *; lia.
(** Spend one unit of fuel and take the branch of the token type [H] names. *)
Ltac branch H :=
  match goal with
  | |- parse_expr_f ?f _ = _ => destruct f as [|f]; [fuel|]
  | |- postfix_f ?f _ _ = _ => destruct f as [|f]; [fuel|]
  | |- items_f ?f _ _ = _ => destruct f as [|f]; [fuel|]
  end;
  cbn [parse_expr_f postfix_f items_f get has_next negb mbind result_bind next tail];
  rewrite ?H; unfold_new; cbn [mbind result_bind].

Ltac step := cbn [mbind result_bind get next tail].

Lemma delimited_complete f open close t ts es t' ts' :
  closing close → type t = open → items_g close ts es (t' :: ts') →
  items_f f close ts = Ok (es, t' :: ts') →
  delimited (items_f f close) open close (t :: ts) = Ok (es, ts').
Proof.
  intros Hc Ht Hi H. destruct (items_end _ _ _ _ Hi) as (? & ? & [= <- <-] & Ht').
  by eapply delimited_ok.
Qed.

#[export] Hint Unfold closing : grammar.

Lemma parser_complete :
  (∀ ts e r, expr_g ts e r → ∀ f, expr_fuel ts ≤ f → parse_expr_f f ts = Ok (e, r)) ∧
  (∀ ret ts e r, postfix_g ret ts e r → ∀ f, expr_fuel ts ≤ f → postfix_f f ret ts = Ok (e, r)) ∧
  (∀ close ts es r, items_g close ts es r → closing close →
     ∀ f, S (expr_fuel ts) ≤ f → items_f f close ts = Ok (es, r)).
Proof.
  apply grammar_ind.
  - intros t ts e0 ts' e rest Ht He IHe _ IHp f Hf. lens. branch Ht.
    rewrite IHe by fuel. step. apply tail_complete; [fuel|done].
  - intros t ts es t' ts' e rest Ht Hi IHi _ IHp f Hf. lens. branch Ht.
    erewrite delimited_complete; [|by auto with grammar|done|done|apply IHi; [auto with grammar|fuel]].
    step. apply tail_complete; [fuel|done].
  - intros t ts e0 t' ts' e rest Ht He IHe Ht' _ IHp f Hf. lens. branch Ht.
    rewrite IHe by fuel. step. rewrite expect_ok by done.
    step. apply tail_complete; [fuel|done].
  - intros t ts es t' ts' e rest Ht Hi IHi _ IHp f Hf. lens. branch Ht.
    erewrite delimited_complete; [|by auto with grammar|done|done|apply IHi; [auto with grammar|fuel]].
    step. apply tail_complete; [fuel|done].
  - intros t ts e rest Ht _ IHp f Hf. branch Ht. unfold parse_variable. step.
    rewrite expect_ok by done. step. apply tail_complete; [fuel|done].
  - intros t ts e rest Ht _ IHp f Hf. branch Ht. unfold parse_primary. step.
    rewrite Ht. step. apply tail_complete; [fuel|done].
  - intros t ts z e rest Ht Hz _ IHp f Hf. branch Ht. unfold parse_primary. step.
    rewrite Ht, Hz. step. apply tail_complete; [fuel|done].
  - intros ret [|t ts] Hs f Hf; (destruct f as [|f]; [fuel|]); [done|]. simpl in *.
    destruct (type t); done.
  - intros ret t ts args t' ts' e rest Ht Hi IHi _ IHp f Hf. lens. branch Ht.
    erewrite delimited_complete; [|by auto with grammar|done|done|apply IHi; [auto with grammar|fuel]].
    step. apply IHp; fuel.
  - intros ret t ts i t' ts' e rest Ht He IHe Ht' _ IHp f Hf. lens. branch Ht. step.
    rewrite expect_ok by done. step. rewrite IHe by fuel. step. rewrite expect_ok by done. step. apply IHp; fuel.
  - intros ret t t' ts e rest Ht _ IHp f Hf. branch Ht. unfold parse_member. step.
    rewrite expect_ok by done. step. apply IHp; fuel.
  - intros ret t ts v ts' e rest Ht He IHe _ IHp f Hf. lens. branch Ht. step.
    rewrite expect_ok by done. step. rewrite IHe by fuel. step. apply IHp; fuel.
  - intros ret t ts op rhs rest Hop He IHe f Hf. lens. branch Hop.
    destruct (type t); try discriminate Hop; rewrite ?Hop, IHe by fuel; by injection Hop as <-.
  - intros close t ts Ht _ f Hf. branch Ht. by rewrite decide_True.
  - intros close ts e t ts' He IHe Ht Hc f Hf. lens. destruct ts as [|u ts]; [simpl in *; lia|].
    branch Ht. rewrite decide_False by (intros <-; by apply (expr_head _ _ _ _ He)).
    rewrite IHe by fuel. step. by rewrite decide_True.
  - intros close ts e t ts' es rest He IHe Ht Hi IHi Hc f Hf. lens.
    destruct ts as [|u ts]; [simpl in *; lia|].
    branch Ht. rewrite decide_False by (intros <-; by apply (expr_head _ _ _ _ He)).
    rewrite IHe by fuel. step.
    rewrite decide_False by (unfold closing in Hc; intros E; destruct Hc as [?|[?|?]]; congruence).
    rewrite expect_ok by done. step. by rewrite IHi by (done || fuel).
Qed.

(** ** Every run ends, in a tree or in an exception *)

Lemma get_orderly ts : orderly (get ts).
Proof. by destruct ts. Qed.
Lemma expect_orderly t ty : orderly (expect_token t ty).
Proof. unfold expect_token. by case_decide. Qed.
Lemma stoi_orderly s : orderly (stoi s).
Proof. apply sto_orderly. Qed.
#[export] Hint Resolve get_orderly expect_orderly stoi_orderly : reir.

(** Step through a program whose parts are orderly. *)
Ltac orderly_steps :=
  repeat match goal with
  | |- orderly (_ ≫= _) => apply orderly_bind; [auto with reir|intros ? ?]
  | |- orderly (let '(_, _) := ?x in _) => destruct x
  | |- orderly (if decide _ then _ else _) => case_decide
  | |- orderly (Ok _) => exact I
  | |- orderly (Throw _) => exact I
  end.

Lemma delimited_orderly {A} (items : toks → result (A * toks)) open close t ts :
  orderly (items ts) → orderly (delimited items open close (t :: ts)).
Proof. intros Hi. unfold delimited. orderly_steps. Qed.

Lemma delimited_shorter f open close ts es r :
  delimited (items_f f close) open close ts = Ok (es, r) → length r < length ts.
Proof.
  intros H. apply delimited_inv in H as (t & ts1 & t' & -> & _ & Hi & _).
  apply parser_sound in Hi. lens. simpl in *. lia.
Qed.

Lemma tail_orderly fuel ret ts :
  orderly (postfix_f fuel ret ts) →
  orderly (if negb (has_next ts) then Ok (ret, ts) else postfix_f fuel ret ts).
Proof. by destruct ts. Qed.

(** Turn the runs among the hypotheses into length facts. *)
Ltac run_lens :=
  repeat match goal with
  | H : delimited _ _ _ _ = Ok _ |- _ => apply delimited_shorter in H
  | H : parse_expr_f _ _ = Ok _ |- _ => apply parser_sound in H
  | H : items_f _ _ _ = Ok _ |- _ => apply parser_sound in H
  end; lens.

Lemma parser_orderly fuel :
  (∀ ts, expr_fuel ts ≤ fuel → orderly (parse_expr_f fuel ts)) ∧
  (∀ ret ts, expr_fuel ts ≤ fuel → orderly (postfix_f fuel ret ts)) ∧
  (∀ close ts, S (expr_fuel ts) ≤ fuel → orderly (items_f fuel close ts)).
Proof.
  induction fuel as [|fuel (IHe & IHp & IHi)]; [split_and!; intros; fuel|].
  assert (∀ t ts, expr_fuel (t :: ts) ≤ S fuel → orderly (parse_expr_f fuel ts)) as He
    by (intros; apply IHe; fuel).
  assert (∀ o c t ts, expr_fuel (t :: ts) ≤ S fuel →
    orderly (delimited (items_f fuel c) o c (t :: ts))) as Hd
    by (intros; apply delimited_orderly, IHi; fuel).
  split_and!.
  - intros [|t ts] Hf; [done|]. cbn [parse_expr_f get mbind result_bind]. apply orderly_bind.
    + destruct (type t) eqn:Ht; unfold parse_variable, parse_primary; unfold_new; step; rewrite ?Ht;
        try exact I; orderly_steps; eauto.
    + intros [ret r] Hr. apply tail_orderly, IHp.
      destruct (type t) eqn:Ht; unfold parse_variable, parse_primary in Hr; unfold_new;
        inv_prog; simplify_eq/=; rewrite ?Ht in *; inv_prog; simplify_eq/=; run_lens;
        try (apply get_inv in Hm0 as [? ->]); fuel.
  - intros ret [|t ts] Hf; [done|]. cbn [postfix_f has_next negb get mbind result_bind].
    destruct (type t) eqn:Ht; try exact I; unfold parse_member; unfold_new; step;
      (apply orderly_bind; [eauto; orderly_steps; eauto|intros [x r] Hr]);
      orderly_steps; try apply IHp; inv_readers; run_lens; fuel.
  - intros close [|t ts] Hf; [done|]. cbn [items_f get mbind result_bind].
    case_decide; [done|]. apply orderly_bind; [apply IHe; fuel|]. intros [e r] Hr.
    orderly_steps. apply IHi. destruct r; run_lens; fuel.
Qed.

(** ** The grammar's consequences *)

Lemma grammar_stops :
  (∀ ts e r, expr_g ts e r → stops r) ∧
  (∀ ret ts e r, postfix_g ret ts e r → stops r) ∧
  (∀ close ts es r, items_g close ts es r → True).
Proof. by apply grammar_ind. Qed.

Lemma grammar_suffix :
  (∀ ts e r, expr_g ts e r → r `suffix_of` ts) ∧
  (∀ ret ts e r, postfix_g ret ts e r → r `suffix_of` ts) ∧
  (∀ close ts es r, items_g close ts es r → r `suffix_of` ts).
Proof.
  assert (∀ t (r ts : toks), (t :: r) `suffix_of` ts → r `suffix_of` ts) as Hs.
  { intros t r ts [k ->]. exists (k ++ [t]). by rewrite <- app_assoc. }
  assert (∀ a b c : toks, a `suffix_of` b → b `suffix_of` c → a `suffix_of` c) as Ht
    by (intros; by etrans).
  apply grammar_ind; intros; try done; eauto 7 using suffix_cons_r.
Qed.

Lemma parse_expr_grammar ts e r : parse_expr ts = Ok (e, r) ↔ expr_g ts e r.
Proof.
  split.
  - intros H. eapply (proj1 (parser_sound _)), H.
  - intros H. by apply (proj1 parser_complete).
Qed.

Lemma parse_expr_orderly ts : orderly (parse_expr ts).
Proof. by apply parser_orderly. Qed.

Lemma parse_expr_length ts e r : parse_expr ts = Ok (e, r) → length r < length ts.
Proof. intros H%parse_expr_grammar. by eapply grammar_progress. Qed.

#[export] Hint Resolve parse_expr_orderly : reir.

(** * Properties *)

(** Sample tokens for the witnesses. *)
Definition tok (ty : token_type) (s : string) : Token := mk_token ty (lit s) 1 0.

(** C7: the expression parser implements the grammar: it returns a tree and a rest of the tokens
    exactly when the grammar derives that tree from the tokens before that rest.  Fuel, the
    order of the tests and the error messages have no part in the grammar. *)
Theorem parse_expr_refines_grammar ts e r : parse_expr ts = Ok (e, r) ↔ expr_g ts e r.
Proof. apply parse_expr_grammar. Qed.

(** C24: the expression parser ends on every token list, in a tree or in an exception, never in
    an abort, undefined behaviour or an endless recursion; a tree uses up at least one token,
    the rest is a suffix of the tokens, and it never starts with a token that could have
    continued the expression. *)
Theorem parse_expr_total ts :
  orderly (parse_expr ts) ∧
  ∀ e r, parse_expr ts = Ok (e, r) → length r < length ts ∧ r `suffix_of` ts ∧ stops r.
Proof.
  split; [apply parse_expr_orderly|]. intros e r H%parse_expr_grammar.
  split_and!; [by eapply (proj1 grammar_progress)|by eapply (proj1 grammar_suffix)|
               by eapply (proj1 grammar_stops)].
Qed.

(** binary operators have no precedence and associate to the right: after [a op1 b op2] the
    parser groups [b op2 c] first, whatever the two operators are. *)
Theorem operators_right_assoc a t1 b t2 c op1 op2 :
  type a = IDENTIFIER → type b = IDENTIFIER → type c = IDENTIFIER →
  binary_op (type t1) = Some op1 → binary_op (type t2) = Some op2 →
  parse_expr [a; t1; b; t2; c] =
  Ok (BinaryExpression (VariableReference (text a)) op1
        (BinaryExpression (VariableReference (text b)) op2 (VariableReference (text c))), []).
Proof.
  intros Ha Hb Hc H1 H2. apply parse_expr_grammar. apply g_variable; [done|].
  apply g_binary; [done|]. apply g_variable; [done|].
  apply g_binary; [done|]. apply g_variable; [done|]. by constructor.
Qed.

Lemma operators_right_assoc_witness :
  parse_expr [tok IDENTIFIER "a"; tok ASTERISK "*"; tok IDENTIFIER "b"; tok PLUS "+"; tok IDENTIFIER "c"]
  = Ok (BinaryExpression (VariableReference (lit "a")) Op.MULTIPLE
          (BinaryExpression (VariableReference (lit "b")) Op.PLUS (VariableReference (lit "c"))), []).
Proof. by apply operators_right_assoc. Defined.

(** an index after anything but a plain variable loses what it indexes: the parser
    builds an array reference without a parent. *)
Theorem index_loses_parent ret t ts i t' rest :
  type t = OPEN_BRACKET → parse_expr ts = Ok (i, t' :: rest) → type t' = CLOSE_BRACKET →
  stops rest → as_variable ret = None →
  parse_expr_postfix ret (t :: ts) = Ok (ArrayReference None i, rest).
Proof.
  intros Ht Hi%parse_expr_grammar Ht' Hr Hv. apply (proj1 (proj2 parser_complete)); [|done].
  eapply g_index; [done|done|done|]. rewrite Hv. by constructor.
Qed.

Lemma index_loses_parent_witness :
  parse_expr_postfix (MemberReference (VariableReference (lit "r")) (lit "a"))
    [tok OPEN_BRACKET "["; tok NUMBER "0"; tok CLOSE_BRACKET "]"]
  = Ok (ArrayReference None (PrimaryExpression (maybe_of_int 0)), []).
Proof. by eapply index_loses_parent; [done|vm_compute; reflexivity| | |]. Defined.
