(* ===== verification/TypeParser.v ===== *)
(** * TypeParser: the parser of types ([src/src/reir/exec/ast_node_parser.cpp]) *)

From Stdlib Require Import ZArith NArith Ascii String Lia.
From stdpp Require Import base option list strings.
From S2P Require Import Prelude Token Value Attr Ast ExprParser.

(** [PrimaryType(TokenStream&)] *)
Definition parse_primary_type (ts : toks) : result (Ty * toks) :=
  t ← get ts;
  _ ← expect_token t INT;
  ty ← type_parse (text t);
  Ok (PrimaryType ty, next ts).

(** The loop over a column's properties. *)
Fixpoint parse_props (ts : toks) (prop : N) : result (N * toks) :=
  match ts with
  | [] => throw "reached EOF of tokens"
  | t :: ts' =>
      if decide (type t = IDENTIFIER) then
        if decide (text t = lit "key") then parse_props ts' (N.lor prop P_KEY)
        else if decide (text t = lit "nullable") then parse_props ts' (N.lor prop P_NULLABLE)
        else if decide (text t = lit "unique") then parse_props ts' (N.lor prop P_UNIQUE)
        else Throw (lit "unknown property: " ++ text t)
      else Ok (prop, ts)
  end.

(** The optional parameter of a column's type: [(n)]. *)
Definition parse_param (ts : toks) : result (option Z * toks) :=
  t ← get ts;
  if decide (type t = OPEN_PAREN) then
    let ts := next ts in
    t ← get ts;
    _ ← expect_token t NUMBER;
    z ← stoi (text t);
    let ts := next ts in
    t ← get ts;
    _ ← expect_token t CLOSE_PAREN;
    Ok (Some z, next ts)
  else Ok (None, ts).

(** One column: the vectors grow by one element each. *)
Definition parse_column (d : TupleDecl) (ts : toks) : result (TupleDecl * toks) :=
  t ← get ts;
  let tn := text t in
  '(param, ts) ← parse_param (next ts);
  t ← get ts;
  _ ← expect_token t COLON;
  let ts := next ts in
  t ← get ts;
  _ ← expect_token t IDENTIFIER;
  let nm := text t in
  '(prop, ts) ← parse_props (next ts) P_NONE;
  Ok (mk_decl (names_ d ++ [nm]) (type_names_ d ++ [tn]) (props_ d ++ [prop]) (params_ d ++ [param]),
      ts).

(** The [for (;;)] loop; every turn reads a token. *)
Fixpoint parse_columns (fuel : nat) (d : TupleDecl) (ts : toks) : result (TupleDecl * toks) :=
  match fuel with
  | O => OutOfFuel
  | S fuel =>
      '(d, ts) ← parse_column d ts;
      t ← get ts;
      if decide (type t ≠ COMMA) then Ok (d, ts)
      else
        _ ← expect_token t COMMA;
        parse_columns fuel d (next ts)
  end.

Definition empty_decl : TupleDecl := mk_decl [] [] [] [].

(** [TupleType(TokenStream&)] *)
Definition parse_tuple_type (ts : toks) : result (Ty * toks) :=
  t ← get ts;
  _ ← expect_token t OPEN_BRACE;
  '(d, ts) ← parse_columns (length ts) empty_decl (next ts);
  t ← get ts;
  _ ← expect_token t CLOSE_BRACE;
  Ok (TupleType d, next ts).

(** [parse_type] and [ArrayType(TokenStream&)], which keeps only its element's type id. *)
Fixpoint parse_type_f (fuel : nat) (ts : toks) : result (Ty * toks) :=
  match fuel with
  | O => OutOfFuel
  | S fuel =>
      t ← get ts;
      match type t with
      | OPEN_BRACKET =>
          '(elt, ts) ← parse_type_f fuel (next ts);
          t ← get ts;
          _ ← expect_token t CLOSE_BRACKET;
          Ok (ArrayType (ty_id elt), next ts)
      | OPEN_BRACE => parse_tuple_type ts
      | _ => parse_primary_type ts
      end
  end.

Definition parse_type (ts : toks) : result (Ty * toks) := parse_type_f (S (length ts)) ts.

Definition parse_row_type (ts : toks) : result (Ty * toks) :=
  t ← get ts;
  _ ← expect_token t OPEN_ANGLE;
  '(t0, ts) ← parse_type (next ts);
  t ← get ts;
  _ ← expect_token t CLOSE_ANGLE;
  Ok (t0, next ts).

(** ** Every run ends, and reads tokens *)

Lemma parse_props_orderly ts p : orderly (parse_props ts p).
Proof. revert p. induction ts; intros; simpl; [done|]. repeat case_decide; done. Qed.

Lemma parse_props_length ts p q r : parse_props ts p = Ok (q, r) → length r ≤ length ts.
Proof.
  revert p. induction ts as [|t ts IH]; intros p; simpl; [done|].
  repeat case_decide; intros Hr; try done; try (apply IH in Hr; lia). by injection Hr as <- <-.
Qed.

Lemma parse_param_orderly ts : orderly (parse_param ts).
Proof. unfold parse_param. orderly_steps. Qed.

Lemma length_next ts : length (next ts) = length ts - 1.
Proof. destruct ts; simpl; lia. Qed.

Lemma parse_param_length ts p r : parse_param ts = Ok (p, r) → length r ≤ length ts.
Proof.
  unfold parse_param. intros H. inv_prog. case_decide; inv_prog; simplify_eq; [|lia].
  rewrite !length_next. lia.
Qed.

Lemma type_parse_orderly s : orderly (type_parse s).
Proof. unfold type_parse. repeat case_decide; done. Qed.

#[export] Hint Resolve parse_props_orderly parse_param_orderly type_parse_orderly : reir.

Lemma parse_column_orderly d ts : orderly (parse_column d ts).
Proof. unfold parse_column. orderly_steps. Qed.

Lemma parse_column_length d ts d' r : parse_column d ts = Ok (d', r) → length r < length ts.
Proof.
  unfold parse_column. intros H. inv_prog. simplify_eq.
  repeat match goal with
  | H : parse_param _ = Ok _ |- _ => apply parse_param_length in H
  | H : parse_props _ _ = Ok _ |- _ => apply parse_props_length in H
  | H : get _ = Ok _ |- _ => apply get_inv in H as [? ->]
  end. simpl in *. rewrite ?length_next in *. simpl in *. lia.
Qed.

Lemma parse_columns_orderly fuel d ts : length ts < fuel → orderly (parse_columns fuel d ts).
Proof.
  revert d ts. induction fuel as [|fuel IH]; intros d ts Hf; [lia|]. simpl.
  apply orderly_bind; [apply parse_column_orderly|]. intros [d' r] Hc%parse_column_length.
  orderly_steps. apply IH. rewrite length_next. lia.
Qed.

Lemma parse_columns_length fuel d ts d' r : parse_columns fuel d ts = Ok (d', r) → length r < length ts.
Proof.
  revert d ts. induction fuel as [|fuel IH]; intros d ts H; [done|]. simpl in H. inv_prog.
  match goal with H : parse_column _ _ = _ |- _ => apply parse_column_length in H end.
  case_decide; inv_prog; simplify_eq; [done|].
  match goal with H : parse_columns _ _ _ = _ |- _ => apply IH in H end.
  rewrite length_next in *. lia.
Qed.

Lemma parse_tuple_type_orderly ts : orderly (parse_tuple_type ts).
Proof.
  unfold parse_tuple_type. destruct ts as [|t ts]; [done|].
  pose proof (parse_columns_orderly (length (t :: ts)) empty_decl (next (t :: ts)) ltac:(simpl; lia)).
  orderly_steps.
Qed.

Lemma parse_tuple_type_length ts t r : parse_tuple_type ts = Ok (t, r) → length r < length ts.
Proof.
  unfold parse_tuple_type. intros H. inv_prog. simplify_eq.
  match goal with H : parse_columns _ _ _ = _ |- _ => apply parse_columns_length in H end.
  rewrite length_next in *. lia.
Qed.

Lemma parse_primary_type_orderly ts : orderly (parse_primary_type ts).
Proof. unfold parse_primary_type. orderly_steps. Qed.

#[export] Hint Resolve parse_tuple_type_orderly parse_primary_type_orderly : reir.

Lemma parse_type_f_length fuel ts t r : parse_type_f fuel ts = Ok (t, r) → length r < length ts.
Proof.
  revert ts t r. induction fuel as [|fuel IH]; intros ts t r H; [done|]. cbn [parse_type_f] in H.
  inv_prog. apply get_inv in Hm as [ts' ->].
  assert (parse_primary_type (r0 :: ts') = Ok (t, r) → length r < length (r0 :: ts')) as Hp.
  { unfold parse_primary_type. intros Hq. inv_prog. simplify_eq. cbn [next tail length]. lia. }
  destruct (type r0); eauto using parse_tuple_type_length.
  inv_prog. simplify_eq. match goal with H : parse_type_f _ _ = _ |- _ => apply IH in H end.
  rewrite length_next in *. cbn [length] in *. lia.
Qed.

Lemma parse_type_f_orderly fuel ts : length ts < fuel → orderly (parse_type_f fuel ts).
Proof.
  revert ts. induction fuel as [|fuel IH]; intros ts Hf; [lia|]. cbn [parse_type_f].
  destruct ts as [|t ts]; [done|]. step.
  destruct (type t); auto with reir.
  apply orderly_bind; [apply IH; simpl in *; lia|]. intros. orderly_steps.
Qed.

Lemma parse_type_orderly ts : orderly (parse_type ts).
Proof. apply parse_type_f_orderly. lia. Qed.
#[export] Hint Resolve parse_type_orderly : reir.

Lemma parse_type_length ts t r : parse_type ts = Ok (t, r) → length r < length ts.
Proof. apply parse_type_f_length. Qed.

Lemma parse_row_type_orderly ts : orderly (parse_row_type ts).
Proof. unfold parse_row_type. orderly_steps. Qed.
#[export] Hint Resolve parse_row_type_orderly : reir.

Lemma parse_row_type_length ts t r : parse_row_type ts = Ok (t, r) → length r < length ts.
Proof.
  unfold parse_row_type. intros H. inv_prog. simplify_eq.
  match goal with H : parse_type _ = _ |- _ => apply parse_type_length in H end.
  rewrite !length_next in *. lia.
Qed.
