(* ===== verification/StmtParser.v ===== *)
(** * StmtParser: the statement parser and [parse]
      ([src/src/reir/exec/ast_statement_parser.cpp], [parser.cpp])

    [parse_statement] returns no statement ([nullptr]) before a closing brace and reads
    nothing then.  The fuel of the recursion is [2 * length ts + 1], enough for every token list
    (see [statements_orderly]).  The loop of [parse] gets one turn more than there are tokens: every turn
    that returns a statement reads a token, and a turn that returns none would repeat for ever.

    The parser of a transaction prints its isolation level: the parsers of statements return what was
    printed on [std::cout] along with what they parsed. *)

From Stdlib Require Import ZArith NArith Ascii String Lia.
From stdpp Require Import base option list strings.
From S2P Require Import Prelude Token Tokenizer Value Ast ExprParser TypeParser.

(** [dynamic_cast<TupleType*>] *)
Definition as_tuple (t : Ty) : option TupleDecl :=
  match t with TupleType d => Some d | _ => None end.

Definition parse_let (ts : toks) : result (Statement * toks) :=
  t ← get ts;
  _ ← expect_token t LET;
  let ts := next ts in
  t ← get ts;
  '(type_, ts) ← (if decide (type t = OPEN_ANGLE)
                  then '(ty, ts) ← parse_row_type ts; Ok (Some ty, ts) else Ok (None, ts));
  t ← get ts;
  _ ← expect_token t IDENTIFIER;
  let name := text t in
  let ts := next ts in
  t ← get ts;
  _ ← expect_token t EQUAL;
  '(e, ts) ← parse_expr (next ts);
  Ok (Let name e type_, ts).

Definition parse_define_tuple (ts : toks) : result (Statement * toks) :=
  t ← get ts;
  _ ← expect_token t TUPLE;
  let ts := next ts in
  t ← get ts;
  _ ← expect_token t IDENTIFIER;
  let name := text t in
  '(ty, ts) ← parse_type (next ts);
  match as_tuple ty with
  | None => throw "invalid define tuple"
  | Some d => Ok (DefineTuple name d, ts)
  end.

Definition parse_define (ts : toks) : result (Statement * toks) :=
  t ← get ts;
  _ ← expect_token t DEFINE;
  '(ty, ts) ← parse_row_type (next ts);
  t ← get ts;
  _ ← expect_token t IDENTIFIER;
  Ok (Define (as_tuple ty) (text t), next ts).

Definition parse_emit (ts : toks) : result (Statement * toks) :=
  t ← get ts;
  _ ← expect_token t EMIT;
  '(e, ts) ← parse_expr (next ts);
  Ok (Emit e, ts).

Definition parse_insert (ts : toks) : result (Statement * toks) :=
  t ← get ts;
  _ ← expect_token t INSERT;
  let ts := next ts in
  t ← get ts;
  _ ← expect_token t IDENTIFIER;
  let table := text t in
  let ts := next ts in
  t ← get ts;
  _ ← expect_token t OPEN_BRACE;
  '(e, ts) ← parse_expr ts;
  Ok (Insert table e, ts).

Definition parse_expr_statement (ts : toks) : result (Statement * toks) :=
  '(e, ts) ← parse_expr ts; Ok (ExprStatement e, ts).

(** What is read, and what was printed on the way. *)
Definition printed (A : Type) : Type := A * cstr.

(** [std::cout << "to: " << tokens.get() << std::endl] *)
Definition announce (t : Token) : cstr := lit "to: " ++ show_token t ++ [ch 10].

(** The constructors that hold blocks take the parser of blocks as an argument. *)
Section blocks.
Context (block : toks → result (printed (list Statement) * toks)).

Definition parse_transaction (ts : toks) : result (printed Statement * toks) :=
  t ← get ts;
  _ ← expect_token t TRANSACTION;
  let ts := next ts in
  t ← get ts;
  let '(isolation, out, ts) := if decide (type t ≠ OPEN_BRACE) then (text t, announce t, next ts)
                               else (lit "SERIALIZABLE", [], ts) in
  t ← get ts;
  _ ← expect_token t OPEN_BRACE;
  '(l, out', ts) ← block ts;
  Ok (Transaction isolation l, out ++ out', ts).

Definition parse_if (ts : toks) : result (printed Statement * toks) :=
  t ← get ts;
  _ ← expect_token t IF;
  '(cond, ts) ← parse_expr (next ts);
  t ← get ts;
  _ ← expect_token t OPEN_BRACE;
  '(tb, out, ts) ← block ts;
  match ts with
  | t :: ts' =>
      if decide (type t = ELSE) then
        t ← get ts';
        _ ← expect_token t OPEN_BRACE;
        '(fb, out', ts) ← block ts';
        Ok (If cond tb (Some fb), out ++ out', ts)
      else Ok (If cond tb None, out, ts)
  | [] => Ok (If cond tb None, out, ts)
  end.

Definition parse_scan (ts : toks) : result (printed Statement * toks) :=
  t ← get ts;
  _ ← expect_token t SCAN;
  let ts := next ts in
  t ← get ts;
  _ ← expect_token t IDENTIFIER;
  let table := text t in
  let ts := next ts in
  t ← get ts;
  _ ← expect_token t COMMA;
  let ts := next ts in
  t ← get ts;
  let row_name := text t in
  let ts := next ts in
  t ← get ts;
  _ ← expect_token t OPEN_BRACE;
  '(l, out, ts) ← block ts;
  Ok (Scan table row_name l, out, ts).

(** A part of a [for] header: absent when a semicolon comes at once. *)
Definition unless_semicolon {A} (p : toks → result (A * toks)) (ts : toks)
    : result (option A * toks) :=
  t ← get ts;
  if decide (type t ≠ SEMICOLON) then '(a, ts) ← p ts; Ok (Some a, ts) else Ok (None, ts).

(** [statement] parses the initialiser; a null statement is stored as it is. *)
Definition parse_for (statement : toks → result (printed (option Statement) * toks)) (ts : toks)
    : result (printed Statement * toks) :=
  t ← get ts;
  _ ← expect_token t FOR;
  '(init, ts) ← unless_semicolon statement (next ts);
  t ← get ts;
  _ ← expect_token t SEMICOLON;
  '(cond, ts) ← unless_semicolon parse_expr (next ts);
  t ← get ts;
  _ ← expect_token t SEMICOLON;
  '(every, ts) ← unless_semicolon parse_expr (next ts);
  t ← get ts;
  _ ← expect_token t OPEN_BRACE;
  '(l, out, ts) ← block ts;
  let '(init, out_init) := default (None, []) init in
  Ok (For init cond every l, out_init ++ out, ts).

End blocks.

(** The message of [parse_statement]'s default case. *)
Definition unparsable (t : Token) : cstr :=
  if decide (type t = IDENTIFIER) then lit "unexpected identifier: " ++ text t
  else lit "un-parsable token: " ++ token_type_str (type t).

Definition some_statement (r : result (printed Statement * toks)) : result (printed (option Statement) * toks) :=
  '(s, out, ts) ← r; Ok (Some s, out, ts).
(** The constructors without blocks print nothing. *)
Definition silent (r : result (Statement * toks)) : result (printed (option Statement) * toks) :=
  '(s, ts) ← r; Ok (Some s, [], ts).

Fixpoint parse_statement_f (fuel : nat) (ts : toks) {struct fuel}
    : result (printed (option Statement) * toks) :=
  match fuel with
  | O => OutOfFuel
  | S fuel =>
      let block := delimited (statements_f fuel) OPEN_BRACE CLOSE_BRACE in
      if negb (has_next ts) then Abort
      else
        t ← get ts;
        if decide (type t = CLOSE_BRACE) then Ok (None, [], ts)
        else
          match type t with
          | OPEN_BRACE => some_statement ('(l, out, ts) ← block ts; Ok (Block l, out, ts))
          | CLOSE_BRACE => Ok (None, [], ts)
          | TRANSACTION => some_statement (parse_transaction block ts)
          | LET => silent (parse_let ts)
          | IF => some_statement (parse_if block ts)
          | FOR => some_statement (parse_for block (parse_statement_f fuel) ts)
          | DEFINE => silent (parse_define ts)
          | EMIT => silent (parse_emit ts)
          | INSERT => silent (parse_insert ts)
          | SCAN => some_statement (parse_scan block ts)
          | BREAK => Ok (Some (Jump break_jump), [], next ts)
          | CONTINUE => Ok (Some (Jump continue_jump), [], next ts)
          | OPEN_BRACKET | OPEN_PAREN | NUMBER | STRING_LITERAL | IDENTIFIER =>
              silent (parse_expr_statement ts)
          | TUPLE => silent (parse_define_tuple ts)
          | _ => Throw (unparsable t)
          end
  end

(** The [while] loop of [Block]: statements up to the closing brace. *)
with statements_f (fuel : nat) (ts : toks) {struct fuel} : result (printed (list Statement) * toks) :=
  match fuel with
  | O => OutOfFuel
  | S fuel =>
      t ← get ts;
      if decide (type t = CLOSE_BRACE) then Ok ([], [], ts)
      else
        '(s, out, ts) ← parse_statement_f fuel ts;
        '(l, out', ts) ← statements_f fuel ts;
        Ok (match s with Some s => s :: l | None => l end, out ++ out', ts)
  end.

Definition parse_statement (ts : toks) : result (printed (option Statement) * toks) :=
  parse_statement_f (expr_fuel ts) ts.

(** The loop of [parse]. *)
Fixpoint parse_loop (fuel : nat) (ts : toks) (global_block : list Statement) (cout : cstr)
    : result (printed (list Statement)) :=
  match fuel with
  | O => OutOfFuel
  | S fuel =>
      if has_next ts then
        '(entry, out, ts) ← parse_statement ts;
        parse_loop fuel ts (match entry with Some s => global_block ++ [s] | None => global_block end) (cout ++ out)
      else Ok (global_block, cout)
  end.

(** [parse] hands the global block to its callback; the model returns it, with what was printed. *)
Definition parse (code : cstr) : result (printed (list Statement)) :=
  token_list ← Tokenizer.tokenize code;
  parse_loop (S (length token_list)) token_list [] [].

(** ** Every run ends, and reads tokens *)

(** [r] is orderly and, if it returns, leaves at most [n - k] tokens. *)
Definition reads {A} (k n : nat) (r : result (A * toks)) : Prop :=
  match r with
  | Ok (_, ts) => length ts + k ≤ n
  | Throw _ => True
  | _ => False
  end.

Lemma reads_intro {A} k n (r : result (A * toks)) :
  orderly r → (∀ a ts, r = Ok (a, ts) → length ts + k ≤ n) → reads k n r.
Proof. destruct r as [[a ts]| | | |]; simpl; intros; eauto. Qed.

Lemma reads_orderly {A} k n (r : result (A * toks)) : reads k n r → orderly r.
Proof. by destruct r as [[a ts]| | | |]. Qed.

Lemma reads_length {A} k n (r : result (A * toks)) a ts :
  reads k n r → r = Ok (a, ts) → length ts + k ≤ n.
Proof. intros H ->. done. Qed.

Lemma reads_bind {A B} k n k' n' (m : result (A * toks)) (f : A * toks → result (B * toks)) :
  reads k n m → (∀ a ts, length ts + k ≤ n → reads k' n' (f (a, ts))) → reads k' n' (m ≫= f).
Proof. destruct m as [[a ts]| | | |]; simpl; auto. Qed.

Lemma reads_bind_orderly {A B} k n (m : result A) (f : A → result (B * toks)) :
  orderly m → (∀ a, m = Ok a → reads k n (f a)) → reads k n (m ≫= f).
Proof. destruct m; simpl; auto. Qed.

(** Reading the next token shows that there is one. *)
Lemma reads_get {B} k n ts (f : Token → result (B * toks)) :
  (∀ t, 1 ≤ length ts → get ts = Ok t → reads k n (f t)) → reads k n (get ts ≫= f).
Proof. destruct ts; simpl; intros H; [done|]. apply H; [lia|done]. Qed.

Lemma parse_expr_reads ts : reads 1 (length ts) (parse_expr ts).
Proof.
  apply reads_intro; [apply parse_expr_orderly|]. intros e r H%parse_expr_length. lia.
Qed.
Lemma parse_type_reads ts : reads 1 (length ts) (parse_type ts).
Proof. apply reads_intro; [apply parse_type_orderly|]. intros e r H%parse_type_length. lia. Qed.
Lemma parse_row_type_reads ts : reads 1 (length ts) (parse_row_type ts).
Proof.
  apply reads_intro; [apply parse_row_type_orderly|]. intros e r H%parse_row_type_length. lia.
Qed.

(** Walk through a parser built from [get], [expect_token] and parsers known to read. *)
Ltac reads_steps :=
  repeat match goal with
  | |- reads _ _ (get _ ≫= _) => apply reads_get; intros ? ? ?
  | |- reads _ _ (expect_token _ _ ≫= _) =>
      apply reads_bind_orderly; [apply expect_orderly|intros _ _]
  | |- reads _ _ (parse_expr _ ≫= _) => eapply reads_bind; [apply parse_expr_reads|intros ? ? ?]
  | |- reads _ _ (parse_type _ ≫= _) => eapply reads_bind; [apply parse_type_reads|intros ? ? ?]
  | |- reads _ _ (parse_row_type _ ≫= _) =>
      eapply reads_bind; [apply parse_row_type_reads|intros ? ? ?]
  | |- reads _ _ (if decide _ then _ else _) => case_decide
  | |- reads _ _ (Throw _) => exact I
  | |- reads _ _ (Ok _) => cbn [reads]
  end.
Ltac reads_len := rewrite ?length_next in *; lia.

Lemma parse_let_reads ts : reads 1 (length ts) (parse_let ts).
Proof.
  unfold parse_let. reads_steps. eapply (reads_bind 0 (length (next ts))).
  - reads_steps; reads_len.
  - intros. reads_steps. reads_len.
Qed.

Lemma parse_define_tuple_reads ts : reads 1 (length ts) (parse_define_tuple ts).
Proof. unfold parse_define_tuple. reads_steps. destruct (as_tuple _); reads_steps; [reads_len|done]. Qed.

Lemma parse_define_reads ts : reads 1 (length ts) (parse_define ts).
Proof. unfold parse_define. reads_steps. reads_len. Qed.

Lemma parse_emit_reads ts : reads 1 (length ts) (parse_emit ts).
Proof. unfold parse_emit. reads_steps. reads_len. Qed.

Lemma parse_insert_reads ts : reads 1 (length ts) (parse_insert ts).
Proof. unfold parse_insert. reads_steps. reads_len. Qed.

Lemma parse_expr_statement_reads ts : reads 1 (length ts) (parse_expr_statement ts).
Proof. unfold parse_expr_statement. reads_steps. reads_len. Qed.

(** The same for the constructors with blocks, for a block parser that reads whatever is
    shorter than [n]. *)
Section blocks_read.
Context (block : toks → result (printed (list Statement) * toks)) (n : nat).
Context (Hblock : ∀ ts, length ts < n → reads 1 (length ts) (block ts)).

Lemma parse_transaction_reads ts : length ts ≤ n → reads 1 (length ts) (parse_transaction block ts).
Proof.
  intros Hn. unfold parse_transaction. reads_steps. case_decide; reads_steps;
    (eapply reads_bind; [apply Hblock; reads_len|intros [l out] ? ?; reads_steps; reads_len]).
Qed.

Lemma parse_if_reads ts : length ts ≤ n → reads 1 (length ts) (parse_if block ts).
Proof.
  intros Hn. unfold parse_if. reads_steps.
  eapply reads_bind; [apply Hblock; reads_len|intros [tb out] [|t1 r] Hl]; reads_steps; cbn [length] in *;
    try reads_len.
  eapply reads_bind; [apply Hblock; reads_len|intros [l o] ? ?; reads_steps; reads_len].
Qed.

Lemma parse_scan_reads ts : length ts ≤ n → reads 1 (length ts) (parse_scan block ts).
Proof.
  intros Hn. unfold parse_scan. reads_steps.
  eapply reads_bind; [apply Hblock; reads_len|intros [l out] ? ?; reads_steps; reads_len].
Qed.

Lemma unless_semicolon_reads {A} (p : toks → result (A * toks)) ts :
  (1 ≤ length ts → reads 0 (length ts) (p ts)) → reads 0 (length ts) (unless_semicolon p ts).
Proof.
  intros Hp. unfold unless_semicolon. reads_steps; [|lia].
  eapply reads_bind; [by apply Hp|intros; reads_steps; lia].
Qed.

Lemma reads_weaken {A} k (r : result (A * toks)) m : reads k m r → reads 0 m r.
Proof. destruct r as [[]| | | |]; simpl; intros; try done; lia. Qed.

Lemma parse_for_reads statement ts :
  (∀ ts, 1 ≤ length ts → length ts < n → reads 0 (length ts) (statement ts)) →
  length ts ≤ n → reads 1 (length ts) (parse_for block statement ts).
Proof.
  intros Hs Hn. unfold parse_for. reads_steps.
  eapply reads_bind; [apply unless_semicolon_reads; intros; apply Hs; reads_len|intros init r1 L1].
  reads_steps.
  eapply reads_bind; [apply unless_semicolon_reads; intros; eapply reads_weaken, parse_expr_reads|].
  intros cond r2 L2. reads_steps.
  eapply reads_bind; [apply unless_semicolon_reads; intros; eapply reads_weaken, parse_expr_reads|].
  intros every r3 L3. reads_steps.
  eapply reads_bind; [apply Hblock; reads_len|intros [l out] ? ?; destruct (default _ _); reads_steps; reads_len].
Qed.

End blocks_read.

Lemma some_statement_reads k n r : reads k n r → reads k n (some_statement r).
Proof. by destruct r as [[[]]| | | |]. Qed.
Lemma silent_reads k n r : reads k n r → reads k n (silent r).
Proof. by destruct r as [[]| | | |]. Qed.

Lemma statement_brace fuel t ts :
  type t = CLOSE_BRACE → parse_statement_f (S fuel) (t :: ts) = Ok (None, [], t :: ts).
Proof. intros Ht. simpl. by rewrite decide_True. Qed.

(** Before anything but a closing brace a statement is returned. *)
Lemma statement_some fuel t ts s out r :
  parse_statement_f fuel (t :: ts) = Ok (s, out, r) → type t ≠ CLOSE_BRACE → is_Some s.
Proof.
  destruct fuel as [|fuel]; [done|]. cbn [parse_statement_f has_next negb]. step. intros H Ht.
  rewrite decide_False in H by done. unfold some_statement, silent in H.
  destruct (type t); inv_prog; simplify_eq; eauto.
Qed.

Create HintDb reads.
#[export] Hint Resolve parse_let_reads parse_define_tuple_reads parse_define_reads parse_emit_reads
  parse_insert_reads parse_expr_statement_reads some_statement_reads silent_reads : reads.

Lemma block_reads fuel ts :
  (∀ ts, S (expr_fuel ts) ≤ fuel → reads 0 (length ts) (statements_f fuel ts)) →
  expr_fuel ts ≤ S fuel →
  reads 1 (length ts) (delimited (statements_f fuel) OPEN_BRACE CLOSE_BRACE ts).
Proof.
  intros IH Hf. unfold delimited. reads_steps.
  eapply reads_bind; [apply IH|intros; reads_steps; reads_len].
  unfold expr_fuel in *. reads_len.
Qed.

Lemma statements_read fuel :
  (∀ t ts, expr_fuel (t :: ts) ≤ fuel → type t ≠ CLOSE_BRACE →
     reads 1 (length (t :: ts)) (parse_statement_f fuel (t :: ts))) ∧
  (∀ ts, S (expr_fuel ts) ≤ fuel → reads 0 (length ts) (statements_f fuel ts)).
Proof.
  induction fuel as [|fuel (IHs & IHl)]; [split; intros; fuel|].
  assert (∀ n, 2 * n ≤ fuel → ∀ ts, length ts < n →
    reads 1 (length ts) (delimited (statements_f fuel) OPEN_BRACE CLOSE_BRACE ts)) as Hb.
  { intros. apply block_reads; [done|fuel]. }
  split.
  - intros t ts Hf Ht. cbn [parse_statement_f has_next negb]. step.
    rewrite decide_False by done. pose proof (Hb (length (t :: ts)) ltac:(fuel)) as Hbn.
    destruct (type t); try done; eauto with reads; try apply some_statement_reads.
    + eapply reads_bind; [apply block_reads; [done|fuel]|]. intros [] ? ?. cbn [reads]. lia.
    + by apply (parse_transaction_reads _ (length (t :: ts))).
    + by apply (parse_if_reads _ (length (t :: ts))).
    + apply (parse_for_reads _ (length (t :: ts))); [done| |done].
      intros [|u us] H1 H2; [simpl in *; lia|]. destruct (decide (type u = CLOSE_BRACE)) as [E|E].
      * destruct fuel; [fuel|]. rewrite statement_brace by done. simpl. lia.
      * eapply reads_weaken, IHs; [fuel|done].
    + by apply (parse_scan_reads _ (length (t :: ts))).
    + simpl. lia.
    + simpl. lia.
  - intros [|t ts] Hf; [done|]. cbn [statements_f]. step. case_decide as E; [simpl; lia|].
    eapply reads_bind; [apply IHs; [fuel|done]|]. intros [s out] r Hr.
    eapply reads_bind; [apply IHl; fuel|]. intros [] ? ?. cbn [reads]. lia.
Qed.

Lemma parse_statement_reads t ts :
  type t ≠ CLOSE_BRACE → reads 1 (length (t :: ts)) (parse_statement (t :: ts)).
Proof. by apply statements_read. Qed.

(** A missing part leaves the semicolon unread. *)
Lemma unless_semicolon_none {A} (p : toks → result (A * toks)) ts r :
  unless_semicolon p ts = Ok (None, r) → ∃ t, get r = Ok t ∧ type t = SEMICOLON.
Proof.
  unfold unless_semicolon. intros H. inv_prog. case_decide as E; inv_prog; simplify_eq.
  exists r0. split; [done|]. destruct (decide (type r0 = SEMICOLON)); [done|]. by destruct E.
Qed.

(** ** The top-level loop *)

(** The loop of [parse] comes to a closing brace that no block opened. *)
Inductive stray_brace : toks → Prop :=
  | stray_here t ts : type t = CLOSE_BRACE → stray_brace (t :: ts)
  | stray_later ts s out r : parse_statement ts = Ok (Some s, out, r) → stray_brace r → stray_brace ts.

Lemma parse_statement_brace t ts :
  type t = CLOSE_BRACE → parse_statement (t :: ts) = Ok (None, [], t :: ts).
Proof.
  intros Ht. unfold parse_statement, expr_fuel. rewrite Nat.add_1_r. by apply statement_brace.
Qed.

Lemma parse_loop_stray ts : stray_brace ts → ∀ fuel acc out, parse_loop fuel ts acc out = OutOfFuel.
Proof.
  induction 1 as [t ts Ht|ts s out0 r Hs _ IH]; intros fuel.
  - induction fuel as [|fuel IH]; intros acc out; [done|]. cbn [parse_loop has_next].
    rewrite parse_statement_brace by done. apply IH.
  - intros acc out. destruct fuel as [|fuel]; [done|]. cbn [parse_loop].
    destruct ts as [|t ts]; [done|]. cbn [has_next]. rewrite Hs. apply IH.
Qed.

Lemma parse_loop_orderly fuel ts acc out :
  length ts < fuel → ¬ stray_brace ts → orderly (parse_loop fuel ts acc out).
Proof.
  revert ts acc out. induction fuel as [|fuel IH]; intros ts acc out Hf Hn; [lia|]. cbn [parse_loop].
  destruct ts as [|t ts]; [done|]. cbn [has_next].
  destruct (decide (type t = CLOSE_BRACE)) as [E|E]; [by destruct Hn; constructor|].
  pose proof (parse_statement_reads t ts E) as Hr.
  apply orderly_bind; [by eapply reads_orderly|]. intros [[s o] r] Hs.
  pose proof (reads_length _ _ _ _ _ Hr Hs). apply IH; [simpl in *; lia|].
  destruct (statement_some _ _ _ _ _ _ Hs E) as [s' ->]. intros Hb. apply Hn. by eapply stray_later.
Qed.

(** More turns than tokens never matter. *)
Lemma parse_loop_enough f g ts acc out :
  length ts < f → length ts < g → parse_loop f ts acc out = parse_loop g ts acc out.
Proof.
  revert g ts acc out. induction f as [|f IH]; intros [|g] ts acc out Hf Hg; try lia. cbn [parse_loop].
  destruct ts as [|t ts]; [done|]. cbn [has_next].
  destruct (decide (type t = CLOSE_BRACE)) as [E|E].
  - rewrite parse_statement_brace by done. step. by rewrite !parse_loop_stray by (by constructor).
  - pose proof (parse_statement_reads t ts E) as Hr.
    destruct (parse_statement (t :: ts)) as [[[s o] r]| | | |]; try done. step. simpl in *.
    apply IH; lia.
Qed.

(** * Properties *)

(** C25: one statement: before a closing brace nothing is read or printed and no
    statement is returned; before any other token the parser ends in a statement, which reads at least
    that token, or in an exception.  It never aborts, never runs into undefined behaviour and
    never recurses without end. *)
Theorem parse_statement_total t ts :
  (type t = CLOSE_BRACE → parse_statement (t :: ts) = Ok (None, [], t :: ts)) ∧
  (type t ≠ CLOSE_BRACE →
     (∃ s out r, parse_statement (t :: ts) = Ok (Some s, out, r) ∧ length r ≤ length ts) ∨
     (∃ w, parse_statement (t :: ts) = Throw w)).
Proof.
  split; [apply parse_statement_brace|]. intros E.
  pose proof (parse_statement_reads t ts E) as Hr.
  destruct (parse_statement (t :: ts)) as [[[s out] r]|w| | |] eqn:H; try done; [|eauto].
  destruct (statement_some _ _ _ _ _ _ H E) as [s' ->]. left. exists s', out, r.
  split; [done|]. simpl in Hr. lia.
Qed.

(** C8: [parse] ends exactly on the programs in which no closing brace is left over: when its
    loop comes to such a brace it reads nothing for ever, however long it runs; otherwise it
    ends in a program or an exception. *)
Theorem parse_terminates_iff code ts :
  Tokenizer.tokenize code = Ok ts →
  (stray_brace ts → ∀ fuel, parse_loop fuel ts [] [] = OutOfFuel) ∧
  (¬ stray_brace ts → orderly (parse code)) ∧
  ∀ fuel, length ts < fuel → parse_loop fuel ts [] [] = parse code.
Proof.
  intros Ht. unfold parse. rewrite Ht. step. split_and!.
  - intros Hb fuel. by apply parse_loop_stray.
  - intros Hb. apply parse_loop_orderly; [lia|done].
  - intros fuel Hf. apply parse_loop_enough; lia.
Qed.

Lemma parse_terminates_iff_witness :
  let ts := [mk_token CLOSE_BRACE (lit "}") 1 0] in
  (stray_brace ts → ∀ fuel, parse_loop fuel ts [] [] = OutOfFuel) ∧
  (¬ stray_brace ts → orderly (parse (lit "}"))) ∧
  ∀ fuel, length ts < fuel → parse_loop fuel ts [] [] = parse (lit "}").
Proof. apply parse_terminates_iff. vm_compute. reflexivity. Defined.

(** the third part of a [for] header cannot be left out, though the constructor tests for it:
    every [for] statement the parser returns has one. *)
Theorem for_every_required block statement ts i c e b out r :
  parse_for block statement ts = Ok (For i c e b, out, r) → is_Some e.
Proof.
  unfold parse_for. intros H. inv_prog. simplify_eq. destruct e as [e|]; [eauto|].
  match goal with H : unless_semicolon parse_expr _ = Ok (None, _) |- _ =>
    apply unless_semicolon_none in H as (t & Hg & Ht) end.
  repeat match goal with H : expect_token _ _ = Ok _ |- _ => apply expect_inv in H end.
  congruence.
Qed.

Lemma for_every_required_witness :
  is_Some (Some (VariableReference (lit "x"))).
Proof.
  eapply (for_every_required (delimited (statements_f 9) OPEN_BRACE CLOSE_BRACE) (parse_statement_f 9)
    [tok FOR "for"; tok SEMICOLON ";"; tok SEMICOLON ";"; tok IDENTIFIER "x";
     tok OPEN_BRACE "{"; tok CLOSE_BRACE "}"]).
  vm_compute. reflexivity.
Defined.
