(* ===== verification/Printer.v ===== *)
(** * Printer: source text for syntax trees, and the round trips through the front end

    The printer is the reference the tokenizer and the parser are checked against: printing a tree,
    tokenizing the text and parsing the tokens gives the tree back.  A printed tree is a list of
    keys (a token type and a text); any tokens with these keys will do, so line and column
    numbers play no part.  Where the parser would group differently, the printer writes
    parentheses. *)

From Stdlib Require Import ZArith NArith Ascii String Lia.
From stdpp Require Import base option list strings sets.
From S2P Require Import Prelude Token Tokenizer Value Attr Ast ExprParser TypeParser StmtParser.

Abbreviation tkey := (token_type * cstr)%type.

(** A word of the source: a reserved word or an identifier. *)
Definition word_key (w : cstr) : tkey :=
  if in_reserverd_word w then (as_reserved w, w) else (IDENTIFIER, w).

Definition op_key (op : Op.operators) : tkey :=
  match op with
  | Op.PLUS => (PLUS, lit "+")
  | Op.MINUS => (MINUS, lit "-")
  | Op.MULTIPLE => (ASTERISK, lit "*")
  | Op.DIVISION => (SLASH, lit "/")
  | Op.MODULO => (PERCENT, lit "%")
  | Op.LESSTHAN => (OPEN_ANGLE, lit "<")
  | Op.MORETHAN => (CLOSE_ANGLE, lit ">")
  | Op.EQUAL => (EQUAL_EQUAL, lit "==")
  | Op.NOTEQUAL => (EXCLAMATION_MARK_EQUAL, lit "!=")
  | Op.LESSEQUAL => (OPEN_ANGLE_EQUAL, lit "<=")
  | Op.MOREEQUAL => (CLOSE_ANGLE_EQUAL, lit ">=")
  | Op.CONDITIONAL_AND => (AND_AND, lit "&&")
  | Op.CONDITIONAL_OR => (OR_OR, lit "||")
  | Op.NONE => (INVALID, [])
  end.

Definition literal_key (m : MaybeValue) : tkey :=
  match value_ (mvalue m) with
  | VarInt z => (NUMBER, show_N (Z.to_N z))
  | VarString s => (STRING_LITERAL, s)
  | VarDouble _ => (INVALID, [])
  end.

Definition open_paren : tkey := (OPEN_PAREN, lit "(").
Definition close_paren : tkey := (CLOSE_PAREN, lit ")").
Definition open_brace : tkey := (OPEN_BRACE, lit "{").
Definition close_brace : tkey := (CLOSE_BRACE, lit "}").
Definition open_bracket : tkey := (OPEN_BRACKET, lit "[").
Definition close_bracket : tkey := (CLOSE_BRACKET, lit "]").
Definition comma : tkey := (COMMA, lit ",").

Fixpoint sep_by (c : tkey) (l : list (list tkey)) : list tkey :=
  match l with
  | [] => []
  | [x] => x
  | x :: l => x ++ c :: sep_by c l
  end.

(** Expressions a postfix operation may follow without parentheses. *)
Definition is_head (e : Expression) : bool :=
  match e with BinaryExpression _ _ _ | PointerOf _ | Assign _ _ => false | _ => true end.

Definition guarded (e : Expression) (ks : list tkey) : list tkey :=
  if is_head e then ks else open_paren :: ks ++ [close_paren].

Fixpoint print_expr (e : Expression) : list tkey :=
  match e with
  | PrimaryExpression m => [literal_key m]
  | BinaryExpression l op r => guarded l (print_expr l) ++ op_key op :: print_expr r
  | PointerOf t => (AND, lit "&") :: print_expr t
  | RowLiteral es => open_brace :: sep_by comma (map print_expr es) ++ [close_brace]
  | ArrayLiteral es => open_bracket :: sep_by comma (map print_expr es) ++ [close_bracket]
  | VariableReference n => [(IDENTIFIER, n)]
  | FunctionCall p args =>
      guarded p (print_expr p) ++ open_paren :: sep_by comma (map print_expr args) ++ [close_paren]
  | ArrayReference (Some p) i =>
      guarded p (print_expr p) ++ open_bracket :: print_expr i ++ [close_bracket]
  | ArrayReference None i => []
  | MemberReference p n => guarded p (print_expr p) ++ [(PERIOD, lit "."); word_key n]
  | Assign t v => guarded t (print_expr t) ++ (EQUAL, lit "=") :: print_expr v
  end.

(** The expressions the parser can produce: literals in its range, proper names, array references
    to variables only. *)
Definition wf_name (n : cstr) : Prop := name_word n ∧ in_reserverd_word n = false.

Definition wf_literal (m : MaybeValue) : Prop :=
  (∃ z, m = maybe_of_int z ∧ (0 ≤ z < 2 ^ 31)%Z) ∨ (∃ s, m = maybe_of_slice s ∧ QUOTE ∉ s).

Inductive wf_expr : Expression → Prop :=
  | wf_primary m : wf_literal m → wf_expr (PrimaryExpression m)
  | wf_binary l op r : op ≠ Op.NONE → wf_expr l → wf_expr r → wf_expr (BinaryExpression l op r)
  | wf_pointer t : wf_expr t → wf_expr (PointerOf t)
  | wf_row es : Forall wf_expr es → wf_expr (RowLiteral es)
  | wf_array es : Forall wf_expr es → wf_expr (ArrayLiteral es)
  | wf_variable n : wf_name n → wf_expr (VariableReference n)
  | wf_func p args : wf_expr p → Forall wf_expr args → wf_expr (FunctionCall p args)
  | wf_arrayref n i : wf_name n → wf_expr i → wf_expr (ArrayReference (Some (VariableReference n)) i)
  | wf_member p n : wf_expr p → name_word n → wf_expr (MemberReference p n)
  | wf_assign t v : wf_expr t → wf_expr v → wf_expr (Assign t v).

(** ** Tokens with given keys *)

(** [ts] are tokens with the keys [ks]. *)
Definition spells (ts : toks) (ks : list tkey) : Prop := key <$> ts = ks.

Lemma spells_app ts a b :
  spells ts (a ++ b) → ∃ ta tb, ts = ta ++ tb ∧ spells ta a ∧ spells tb b.
Proof. intros H. apply fmap_app_inv in H as (ta & tb & -> & -> & ->). by exists ta, tb. Qed.

Lemma spells_cons ts ty w ks :
  spells ts ((ty, w) :: ks) → ∃ t ts', ts = t :: ts' ∧ type t = ty ∧ text t = w ∧ spells ts' ks.
Proof.
  intros H. destruct ts as [|t ts']; [done|]. unfold spells in H. simpl in H.
  injection H as H1 H2 H3. by exists t, ts'.
Qed.

Lemma spells_nil ts : spells ts [] → ts = [].
Proof. apply fmap_nil_inv. Qed.

(** Cut the tokens as their keys are put together. *)
Ltac cut_keys :=
  repeat match goal with
  | H : spells _ (_ ++ _) |- _ => apply spells_app in H as (? & ? & -> & ? & ?)
  | H : spells _ ((_, _) :: _) |- _ => apply spells_cons in H as (? & ? & -> & ? & ? & ?)
  | H : spells _ [] |- _ => apply spells_nil in H as ->
  end.

(** ** Expressions: printed tokens derive their tree *)

(** Followed by something that ends an expression, the printed tokens derive [e]. *)
Definition prints (e : Expression) : Prop :=
  ∀ ts rest, spells ts (print_expr e) → stops rest → expr_g (ts ++ rest) e rest.
(** Followed by a postfix, the guarded tokens derive what the postfix makes of [e]. *)
Definition prints_head (e : Expression) : Prop :=
  ∀ ts rest e' r, spells ts (guarded e (print_expr e)) → postfix_g e rest e' r →
    expr_g (ts ++ rest) e' r.

Lemma stops_type t ts ty : type t = ty → postfix_start ty = false → stops (t :: ts).
Proof. by intros <-. Qed.

Lemma prints_of_head e : is_head e = true → prints_head e → prints e.
Proof.
  intros Hh H ts rest Hts Hr. apply (H ts rest e rest); [|by constructor].
  unfold guarded. by rewrite Hh.
Qed.

Lemma head_of_prints e : is_head e = false → prints e → prints_head e.
Proof.
  intros Hh H ts rest e' r Hts Hp. unfold guarded in Hts. rewrite Hh in Hts.
  unfold open_paren, close_paren in Hts. cut_keys. rewrite <- app_comm_cons, <- app_assoc. simpl.
  eapply g_paren; [done|apply H; [done|by eapply stops_type]|done|done].
Qed.

Lemma items_print close es t rest :
  Forall prints es → closing close → type t = close →
  ∀ ts, spells ts (sep_by comma (map print_expr es)) → items_g close (ts ++ t :: rest) es (t :: rest).
Proof.
  intros Hes Hc Ht. assert (postfix_start close = false) as Hs
    by (destruct Hc as [-> | [-> | ->]]; done).
  induction Hes as [|e es He Hes IH]; intros ts Hts.
  { apply spells_nil in Hts as ->. by constructor. }
  destruct es as [|e2 es].
  - eapply g_last; [|done]. apply He; [done|by eapply stops_type].
  - cbn [map sep_by] in Hts. unfold comma in Hts at 1. cut_keys.
    rewrite <- app_assoc, <- app_comm_cons. eapply g_cons; [|done|by apply IH].
    apply He; [done|by eapply stops_type].
Qed.

Lemma binary_op_key op t ts :
  op ≠ Op.NONE → spells (t :: ts) [op_key op] → binary_op (type t) = Some op.
Proof.
  intros Hop H. unfold spells in H. destruct op; try done; injection H as H1 H2 _; by rewrite H1.
Qed.

Lemma literal_head m : wf_literal m → prints_head (PrimaryExpression m).
Proof.
  intros Hm ts rest e' r Hts Hp. unfold guarded in Hts. cbn [is_head print_expr] in Hts.
  destruct Hm as [(z & -> & Hz)|(s & -> & _)]; unfold literal_key in Hts; simpl in Hts;
    cut_keys; simpl.
  - eapply g_number; [done| |done].
    match goal with H : text _ = _ |- _ => rewrite H end.
    unfold stoi. pose proof (sto_show "stoi" (- 2 ^ 31) (2 ^ 31 - 1) [] (Z.to_N z)) as S.
    simpl in S. rewrite S by (done || lia). f_equal. lia.
  - apply g_string; [done|]. by match goal with H : text _ = _ |- _ => rewrite H end.
Qed.

Lemma word_key_text w t ts : spells (t :: ts) [word_key w] → text t = w.
Proof. unfold spells, word_key. simpl. intros [= H _]. by destruct (in_reserverd_word w); injection H. Qed.

Lemma Forall_prints es :
  Forall (λ e, wf_expr e → prints e ∧ prints_head e) es → Forall wf_expr es → Forall prints es.
Proof. intros H1 H2. induction H1; inversion H2; subst; constructor; naive_solver. Qed.

(** Close a goal about a parent followed by a postfix: cut the keys, use the parent's lemma. *)
Ltac postfix_case Hp :=
  let ts := fresh "ts" in let rest := fresh "rest" in
  intros ts rest ? ? Hts ?; unfold guarded in Hts; cbn [is_head print_expr] in Hts;
  apply spells_app in Hts as (? & ? & -> & Hts' & Hts);
  unfold open_paren, close_paren, open_bracket, close_bracket, open_brace, close_brace in Hts;
  cut_keys; rewrite <- !app_assoc; eapply Hp; [exact Hts'|].

Lemma func_head p args : prints_head p → Forall prints args → prints_head (FunctionCall p args).
Proof.
  intros Hp Ha. postfix_case Hp. rewrite <- app_comm_cons, <- app_assoc. simpl.
  eapply g_call; [done| |done]. eapply items_print; eauto with grammar.
Qed.

Lemma arrayref_head n i :
  prints_head (VariableReference n) → prints i →
  prints_head (ArrayReference (Some (VariableReference n)) i).
Proof.
  intros Hp Hi. postfix_case Hp. rewrite <- app_comm_cons, <- app_assoc. simpl.
  eapply g_index; [done|apply Hi; [done|by eapply stops_type]|done|done].
Qed.

Lemma member_head p n : prints_head p → prints_head (MemberReference p n).
Proof.
  intros Hp. postfix_case Hp.
  match goal with H : spells ?l [word_key n] |- _ =>
    destruct l as [|t' l]; [done|]; pose proof (word_key_text _ _ _ H) as Ht';
    assert (l = []) as -> by (injection H as H; by apply spells_nil) end.
  simpl. apply g_member; [done|]. by rewrite Ht'.
Qed.

Lemma assign_prints t v : prints_head t → prints v → prints (Assign t v).
Proof.
  intros Ht Hv ts rest Hts Hr. cbn [print_expr] in Hts.
  apply spells_app in Hts as (? & ? & -> & Hts' & Hts). cut_keys. rewrite <- app_assoc.
  eapply Ht; [done|]. simpl. eapply g_assign; [done|by apply Hv|by constructor].
Qed.

Lemma binary_prints l op r : op ≠ Op.NONE → prints_head l → prints r → prints (BinaryExpression l op r).
Proof.
  intros Hop Hl Hr ts rest Hts Hs. cbn [print_expr] in Hts.
  apply spells_app in Hts as (? & ts2 & -> & Hts' & Hts). rewrite <- app_assoc.
  eapply Hl; [done|]. destruct ts2 as [|t ts2]; [done|]. injection Hts as Hk Hts. simpl.
  apply g_binary; [|by apply Hr]. apply (binary_op_key op t []); [done|]. unfold spells. simpl. congruence.
Qed.

Lemma list_head open close es t0 :
  Forall prints es → closing close →
  (∀ t ts l t' ts' e r, type t = open → items_g close ts l (t' :: ts') →
     postfix_g (t0 l) ts' e r → expr_g (t :: ts) e r) →
  ∀ ts wo wc rest e r,
    spells ts ((open, wo) :: sep_by comma (map print_expr es) ++ [(close, wc)]) →
    postfix_g (t0 es) rest e r → expr_g (ts ++ rest) e r.
Proof.
  intros Hes Hc Hg ts wo wc rest e r Hts Hp. cut_keys. rewrite <- app_comm_cons, <- app_assoc. simpl.
  eapply Hg; [done|by eapply items_print|done].
Qed.

Lemma pointer_prints t : prints t → prints (PointerOf t).
Proof.
  intros Ht ts rest Hts Hr. cbn [print_expr] in Hts. cut_keys. simpl.
  eapply g_pointer; [done|by apply Ht|by constructor].
Qed.

Lemma variable_head n : prints_head (VariableReference n).
Proof.
  intros ts rest e r Hts Hp. unfold guarded in Hts. cbn [is_head print_expr] in Hts. cut_keys. simpl.
  apply g_variable; [done|]. congruence.
Qed.

Lemma expr_print e : wf_expr e → prints e ∧ prints_head e.
Proof.
  assert (∀ e, is_head e = true → prints_head e → prints e ∧ prints_head e) as Hh
    by (split; [by apply prints_of_head|done]).
  assert (∀ e, is_head e = false → prints e → prints e ∧ prints_head e) as Hp
    by (split; [done|by apply head_of_prints]).
  induction e using Expression_rect'; intros Hwf; inversion Hwf; subst.
  - by apply Hh, literal_head.
  - apply Hp, binary_prints; naive_solver.
  - apply Hp, pointer_prints; naive_solver.
  - apply Hh; [done|]. intros ts rest. eapply (list_head _ _ _ RowLiteral);
      eauto using Forall_prints, g_row with grammar.
  - apply Hh; [done|]. intros ts rest. eapply (list_head _ _ _ ArrayLiteral);
      eauto using Forall_prints, g_array with grammar.
  - apply Hh, variable_head; done.
  - apply Hh, func_head; eauto using Forall_prints; naive_solver.
  - apply Hh, arrayref_head; [done|apply variable_head|naive_solver].
  - apply Hh, member_head; naive_solver.
  - apply Hp, assign_prints; naive_solver.
Qed.

Lemma parse_printed_expr e ts rest :
  wf_expr e → spells ts (print_expr e) → stops rest → parse_expr (ts ++ rest) = Ok (e, rest).
Proof. intros He Hts Hr. apply parse_expr_grammar. by apply (proj1 (expr_print e He)). Qed.

(** ** Types *)

Record column := mk_column { c_type : cstr; c_param : option Z; c_name : cstr; c_prop : N }.

Definition decl_of (cols : list column) : TupleDecl :=
  mk_decl (c_name <$> cols) (c_type <$> cols) (c_prop <$> cols) (c_param <$> cols).

Definition print_props (p : N) : list tkey :=
  (if N.testbit p 1 then [(IDENTIFIER, lit "key")] else []) ++
  (if N.testbit p 0 then [(IDENTIFIER, lit "nullable")] else []) ++
  (if N.testbit p 2 then [(IDENTIFIER, lit "unique")] else []).

Definition print_param (p : option Z) : list tkey :=
  match p with
  | Some z => [open_paren; (NUMBER, show_N (Z.to_N z)); close_paren]
  | None => []
  end.

Definition print_column (c : column) : list tkey :=
  word_key (c_type c) :: print_param (c_param c) ++
  (COLON, lit ":") :: (IDENTIFIER, c_name c) :: print_props (c_prop c).

Definition print_columns (cols : list column) : list tkey :=
  open_brace :: sep_by comma (map print_column cols) ++ [close_brace].

Definition wf_column (c : column) : Prop :=
  name_word (c_type c) ∧ wf_name (c_name c) ∧ (c_prop c < 8)%N ∧
  ∀ z, c_param c = Some z → (0 ≤ z < 2 ^ 31)%Z.

(** The columns of a declaration, read off its parallel vectors. *)
Definition columns_of (d : TupleDecl) : list column :=
  zip_with (λ '(t, p) '(n, q), mk_column t p n q)
    (zip (type_names_ d) (params_ d)) (zip (names_ d) (props_ d)).

Definition wf_decl (d : TupleDecl) : Prop :=
  d = decl_of (columns_of d) ∧ columns_of d ≠ [] ∧ Forall wf_column (columns_of d).

Definition print_type (t : Ty) : list tkey :=
  match t with
  | PrimaryType _ => [(INT, lit "int")]
  | ArrayType _ => [open_bracket; (INT, lit "int"); close_bracket]
  | TupleType d => print_columns (columns_of d)
  end.

Definition wf_type (t : Ty) : Prop :=
  match t with
  | PrimaryType i | ArrayType i => i = TypeId.INTEGER
  | TupleType d => wf_decl d
  end.

Lemma stoi_show z : (0 ≤ z < 2 ^ 31)%Z → stoi (show_N (Z.to_N z)) = Ok z.
Proof.
  intros Hz. pose proof (sto_show "stoi" (- 2 ^ 31) (2 ^ 31 - 1) [] (Z.to_N z)) as S.
  simpl in S. unfold stoi. rewrite S by (done || lia). f_equal. lia.
Qed.

(** What a property word adds. *)
Definition prop_bit (w : cstr) : option N :=
  if decide (w = lit "key") then Some P_KEY
  else if decide (w = lit "nullable") then Some P_NULLABLE
  else if decide (w = lit "unique") then Some P_UNIQUE else None.

Lemma parse_props_cons t ts p b :
  type t = IDENTIFIER → prop_bit (text t) = Some b → parse_props (t :: ts) p = parse_props ts (N.lor p b).
Proof.
  intros Ht Hb. unfold prop_bit in Hb. cbn [parse_props]. rewrite decide_True by done.
  repeat case_decide; congruence.
Qed.

Lemma parse_props_end t ts p : type t ≠ IDENTIFIER → parse_props (t :: ts) p = Ok (p, t :: ts).
Proof. intros Ht. simpl. by rewrite decide_False. Qed.

Lemma parse_props_print p ts t rest :
  (p < 8)%N → spells ts (print_props p) → type t ≠ IDENTIFIER →
  parse_props (ts ++ t :: rest) P_NONE = Ok (p, t :: rest).
Proof.
  intros Hp Hts Ht.
  assert (p = 0 ∨ p = 1 ∨ p = 2 ∨ p = 3 ∨ p = 4 ∨ p = 5 ∨ p = 6 ∨ p = 7)%N as Hc by lia.
  unfold print_props in Hts.
  repeat destruct Hc as [-> | Hc]; [..|subst p]; simpl in Hts; cut_keys; cbn [app];
    repeat (erewrite parse_props_cons; [|done|
      match goal with H : text ?x = _ |- prop_bit (text ?x) = _ => rewrite H; reflexivity end]);
    by apply parse_props_end.
Qed.

Lemma parse_param_print p ts t rest :
  (∀ z, p = Some z → (0 ≤ z < 2 ^ 31)%Z) → spells ts (print_param p) → type t = COLON →
  parse_param (ts ++ t :: rest) = Ok (p, t :: rest).
Proof.
  intros Hp Hts Ht. unfold parse_param. destruct p as [z|]; simpl in Hts.
  - unfold open_paren, close_paren in Hts. cut_keys. simpl. rewrite decide_True by done. simpl.
    rewrite expect_ok by done. simpl. match goal with H : text _ = show_N _ |- _ => rewrite H end.
    rewrite stoi_show by auto. simpl. by rewrite expect_ok.
  - cut_keys. simpl. by rewrite decide_False by congruence.
Qed.

Definition push_column (d : TupleDecl) (c : column) : TupleDecl :=
  mk_decl (names_ d ++ [c_name c]) (type_names_ d ++ [c_type c]) (props_ d ++ [c_prop c])
          (params_ d ++ [c_param c]).

Lemma spells_word ts w ks :
  spells ts (word_key w :: ks) → ∃ t ts', ts = t :: ts' ∧ key t = word_key w ∧ text t = w ∧ spells ts' ks.
Proof.
  intros H. destruct ts as [|t ts']; [done|]. injection H as H1 H2. exists t, ts'. split_and!; try done.
  apply (word_key_text w t []). unfold spells. simpl. by rewrite H1.
Qed.

Lemma parse_column_print c d ts t rest :
  wf_column c → spells ts (print_column c) → type t ≠ IDENTIFIER →
  parse_column d (ts ++ t :: rest) = Ok (push_column d c, t :: rest).
Proof.
  intros (H1 & H2 & H3 & H4) Hts Ht. unfold print_column in Hts.
  apply spells_word in Hts as (tw & ts1 & -> & _ & Hw & Hts). cut_keys.
  unfold parse_column. rewrite <- app_comm_cons. step.
  rewrite <- app_assoc, <- app_comm_cons, (parse_param_print (c_param c)) by done. step.
  rewrite expect_ok by done. step. rewrite <- app_comm_cons. step.
  rewrite expect_ok by done. step. rewrite (parse_props_print (c_prop c)) by done.
  unfold push_column. step. congruence.
Qed.

Lemma parse_columns_print cols d ts t rest fuel :
  Forall wf_column cols → cols ≠ [] → spells ts (sep_by comma (map print_column cols)) →
  type t = CLOSE_BRACE → length ts < fuel →
  parse_columns fuel d (ts ++ t :: rest) = Ok (fold_left push_column cols d, t :: rest).
Proof.
  intros Hc. revert d ts fuel. induction Hc as [|c cols Hc Hcs IH]; intros d ts fuel Hne Hts Ht Hf;
    [done|]. destruct fuel as [|fuel]; [lia|]. cbn [parse_columns].
  destruct cols as [|c2 cols].
  - rewrite (parse_column_print c) by (done || congruence). step. by rewrite decide_True by congruence.
  - cbn [map sep_by] in Hts. unfold comma in Hts at 1. cut_keys.
    rewrite <- app_assoc, <- app_comm_cons, (parse_column_print c) by (done || congruence). step.
    rewrite decide_False by (by intros []). rewrite expect_ok by done. step.
    rewrite length_app in Hf. simpl in Hf. apply IH; [done|done|done|lia].
Qed.

Lemma fold_push cols d :
  fold_left push_column cols d =
  mk_decl (names_ d ++ (c_name <$> cols)) (type_names_ d ++ (c_type <$> cols))
          (props_ d ++ (c_prop <$> cols)) (params_ d ++ (c_param <$> cols)).
Proof.
  revert d. induction cols as [|c cols IH]; intros d; simpl.
  - rewrite !app_nil_r. by destruct d.
  - rewrite IH. unfold push_column. simpl. by rewrite <- !app_assoc.
Qed.

Lemma parse_tuple_print d ts rest :
  wf_decl d → spells ts (print_columns (columns_of d)) →
  parse_tuple_type (ts ++ rest) = Ok (TupleType d, rest).
Proof.
  intros (Hd & Hne & Hc) Hts. unfold print_columns, open_brace, close_brace in Hts. cut_keys.
  unfold parse_tuple_type. rewrite <- app_comm_cons. step. rewrite expect_ok by done. step.
  rewrite <- app_assoc. cbn [app].
  rewrite (parse_columns_print (columns_of d)) by (done || (simpl; rewrite length_app; lia)).
  step. rewrite expect_ok by done. step. do 3 f_equal.
  rewrite fold_push. simpl. by rewrite Hd at 5.
Qed.

Lemma parse_primary_print ts rest :
  spells ts [(INT, lit "int")] → parse_primary_type (ts ++ rest) = Ok (PrimaryType TypeId.INTEGER, rest).
Proof.
  intros Hts. cut_keys. unfold parse_primary_type. cbn [app]. step. rewrite expect_ok by done. step.
  match goal with H : text _ = _ |- _ => rewrite H end. done.
Qed.

Lemma parse_printed_type t ts rest :
  wf_type t → spells ts (print_type t) → parse_type (ts ++ rest) = Ok (t, rest).
Proof.
  intros Ht Hts. unfold parse_type. destruct t as [i|i|d]; simpl in Ht; subst; cbn [print_type] in Hts.
  - pose proof (parse_primary_print ts rest Hts) as Hp.
    apply spells_cons in Hts as (t1 & ts1 & -> & T1 & _). cbn [app parse_type_f] in *. step.
    by rewrite T1.
  - apply spells_cons in Hts as (t1 & ts1 & -> & T1 & _ & Hts).
    assert (∃ t2 t3, ts1 = [t2] ++ [t3] ∧ spells [t2] [(INT, lit "int")] ∧ type t3 = CLOSE_BRACKET)
      as (t2 & t3 & -> & H2 & T3).
    { apply spells_cons in Hts as (t2 & ts2 & -> & T2 & W2 & Hts). unfold close_bracket in Hts.
      cut_keys. eexists t2, _. split; [done|]. split; [|done]. unfold spells, key. simpl. by rewrite T2, W2. }
    pose proof (parse_primary_print [t2] (t3 :: rest) H2) as Hp. injection H2 as T2 _.
    cbn [app parse_type_f length] in *. step. rewrite T1. step. rewrite T2, Hp. step.
    by rewrite expect_ok.
  - pose proof (parse_tuple_print d ts rest Ht Hts) as Hp. unfold print_columns in Hts.
    apply spells_cons in Hts as (t1 & ts1 & -> & T1 & _). cbn [app parse_type_f] in *. step.
    by rewrite T1.
Qed.

Lemma parse_printed_row_type t ts rest :
  wf_type t → spells ts ((OPEN_ANGLE, lit "<") :: print_type t ++ [(CLOSE_ANGLE, lit ">")]) →
  parse_row_type (ts ++ rest) = Ok (t, rest).
Proof.
  intros Ht Hts. cut_keys. unfold parse_row_type. cbn [app]. step. rewrite expect_ok by done. step.
  rewrite <- app_assoc. rewrite (parse_printed_type t) by done. cbn [app]. step. by rewrite expect_ok.
Qed.
