(* ===== verification/StmtPrinter.v ===== *)
(** * StmtPrinter: source text for statements and programs, and the front end's round trip

    Continues [Printer] with statements.  The language has no statement separator: a statement that
    ends in an expression swallows a following statement that starts with [(] or [\[].  The
    well-formed blocks are those without such neighbours. *)

From Stdlib Require Import ZArith NArith Ascii String Lia.
From stdpp Require Import base option list strings sets.
From S2P Require Import Prelude Token Tokenizer Value Attr Ast ExprParser TypeParser StmtParser Printer.

Definition semicolon : tkey := (SEMICOLON, lit ";").
Definition angles (ks : list tkey) : list tkey :=
  (OPEN_ANGLE, lit "<") :: ks ++ [(CLOSE_ANGLE, lit ">")].
Definition print_opt {A} (p : A → list tkey) (o : option A) : list tkey :=
  match o with Some a => p a | None => [] end.

Definition braces (ks : list tkey) : list tkey := open_brace :: ks ++ [close_brace].

Fixpoint print_stmt (s : Statement) : list tkey :=
  let block l := braces (concat (map print_stmt l)) in
  match s with
  | Block l => block l
  | Transaction iso l =>
      (TRANSACTION, lit "transaction") ::
      (if decide (iso = lit "SERIALIZABLE") then [] else [word_key iso]) ++ block l
  | Define d n =>
      (DEFINE, lit "define") :: angles (print_opt (λ d, print_type (TupleType d)) d) ++ [(IDENTIFIER, n)]
  | For i c e l =>
      (FOR, lit "for") ::
      match i with Some i => print_stmt i | None => [] end ++ semicolon ::
      print_opt print_expr c ++ semicolon :: print_opt print_expr e ++ block l
  | Jump continue_jump => [(CONTINUE, lit "continue")]
  | Jump break_jump => [(BREAK, lit "break")]
  | Emit e => (EMIT, lit "emit") :: print_expr e
  | Insert t e => (INSERT, lit "insert") :: (IDENTIFIER, t) :: print_expr e
  | Scan t r l => (SCAN, lit "scan") :: (IDENTIFIER, t) :: comma :: word_key r :: block l
  | Let n e ty =>
      (LET, lit "let") :: print_opt (λ ty, angles (print_type ty)) ty ++
      (IDENTIFIER, n) :: (EQUAL, lit "=") :: print_expr e
  | DefineTuple n d => (TUPLE, lit "tuple") :: (IDENTIFIER, n) :: print_columns (columns_of d)
  | If c t f =>
      (IF, lit "if") :: print_expr c ++ block t ++
      match f with Some f => (ELSE, lit "else") :: block f | None => [] end
  | ExprStatement e => print_expr e
  end.

Definition print_program (l : list Statement) : list tkey := concat (map print_stmt l).

(** What parsing the text of a statement prints: the isolation words of its transactions. *)
Definition announce_key (k : tkey) : cstr := announce (mk_token k.1 k.2 0 0).

Fixpoint announced (s : Statement) : cstr :=
  let block l := concat (map announced l) in
  match s with
  | Block l | Scan _ _ l => block l
  | Transaction iso l =>
      (if decide (iso = lit "SERIALIZABLE") then [] else announce_key (word_key iso)) ++ block l
  | For i _ _ l => match i with Some i => announced i | None => [] end ++ block l
  | If _ t f => block t ++ match f with Some f => block f | None => [] end
  | Define _ _ | Jump _ | Emit _ | Insert _ _ | Let _ _ _ | DefineTuple _ _ | ExprStatement _ => []
  end.

Definition announced_all (l : list Statement) : cstr := concat (map announced l).

Definition first_type (ks : list tkey) : token_type :=
  match ks with [] => INVALID | k :: _ => k.1 end.

(** The token types an expression statement may start with. *)
Definition starts_expr_statement (ty : token_type) : bool :=
  match ty with
  | OPEN_BRACKET | OPEN_PAREN | NUMBER | STRING_LITERAL | IDENTIFIER => true
  | _ => false
  end.

(** No statement but the first starts with a token that could continue an expression. *)
Definition no_swallow (l : list Statement) : Prop :=
  Forall (λ s, postfix_start (first_type (print_stmt s)) = false) (tail l).

Inductive wf_stmt : Statement → Prop :=
  | wf_Block l : wf_block l → wf_stmt (Block l)
  | wf_Transaction iso l : name_word iso → wf_block l → wf_stmt (Transaction iso l)
  | wf_Define d n : wf_decl d → wf_name n → wf_stmt (Define (Some d) n)
  | wf_For i c e l :
      (∀ s, i = Some s → wf_stmt s) → (∀ x, c = Some x → wf_expr x) → wf_expr e → wf_block l →
      wf_stmt (For i c (Some e) l)
  | wf_Jump t : wf_stmt (Jump t)
  | wf_Emit e : wf_expr e → wf_stmt (Emit e)
  | wf_Insert t e :
      wf_name t → wf_expr e → first_type (print_expr e) = OPEN_BRACE → wf_stmt (Insert t e)
  | wf_Scan t r l : wf_name t → name_word r → wf_block l → wf_stmt (Scan t r l)
  | wf_Let n e ty : wf_name n → wf_expr e → (∀ t, ty = Some t → wf_type t) → wf_stmt (Let n e ty)
  | wf_DefineTuple n d : wf_name n → wf_decl d → wf_stmt (DefineTuple n d)
  | wf_If c t f :
      wf_expr c → wf_block t → (∀ l, f = Some l → wf_block l) → wf_stmt (If c t f)
  | wf_ExprStatement e :
      wf_expr e → starts_expr_statement (first_type (print_expr e)) = true → wf_stmt (ExprStatement e)
with wf_block : list Statement → Prop :=
  | wf_statements l : Forall wf_stmt l → no_swallow l → wf_block l.

(** What may come after a statement. *)
Definition ends (rest : toks) : Prop :=
  stops rest ∧ match rest with [] => True | t :: _ => type t ≠ ELSE end.

(** [s] is parsed back, given enough fuel. *)
Definition stmt_prints (s : Statement) : Prop :=
  ∀ ts rest f, spells ts (print_stmt s) → ends rest → expr_fuel (ts ++ rest) ≤ f →
    parse_statement_f f (ts ++ rest) = Ok (Some s, announced s, rest).

(** The first token of a statement. *)
Lemma first_spells ts ks : spells ts ks → ks ≠ [] → ∃ t ts', ts = t :: ts' ∧ type t = first_type ks.
Proof.
  intros H Hne. destruct ks as [|[ty w] ks]; [done|].
  apply spells_cons in H as (t & ts' & -> & Ht & _). by exists t, ts'.
Qed.

Lemma stmt_first s :
  wf_stmt s → print_stmt s ≠ [] ∧
  let ty := first_type (print_stmt s) in ty ≠ ELSE ∧ ty ≠ CLOSE_BRACE ∧ ty ≠ SEMICOLON.
Proof.
  inversion 1; subst; try (simpl; done).
  - by destruct t.
  - simpl. destruct (print_expr e) as [|[ty w] ks]; [done|]. simpl in *. by destruct ty.
Qed.

(** Fuel inequalities over concatenations. *)
Ltac lfuel :=
  unfold expr_fuel in *; repeat progress (rewrite ?length_app in *; cbn [app length] in *); lia.

Lemma ends_type t ts : postfix_start (type t) = false → type t ≠ ELSE → ends (t :: ts).
Proof. done. Qed.

Lemma ends_program l tb t rest :
  Forall wf_stmt l → Forall (λ s, postfix_start (first_type (print_stmt s)) = false) l →
  spells tb (print_program l) → type t = CLOSE_BRACE → ends (tb ++ t :: rest).
Proof.
  intros Hwf Hp Hts Ht. destruct l as [|s l].
  - apply spells_nil in Hts as ->. apply ends_type; by rewrite Ht.
  - apply spells_app in Hts as (ta & tc & -> & Ha & _).
    apply Forall_inv in Hwf, Hp. destruct (stmt_first s Hwf) as (Hne & He & _).
    destruct (first_spells _ _ Ha Hne) as (t1 & ts1 & -> & T1). rewrite <- app_assoc.
    apply ends_type; by rewrite T1.
Qed.

Lemma statements_print l : Forall stmt_prints l → Forall wf_stmt l → no_swallow l →
  ∀ ts t rest f, spells ts (print_program l) → type t = CLOSE_BRACE →
    S (expr_fuel (ts ++ t :: rest)) ≤ f → statements_f f (ts ++ t :: rest) = Ok (l, announced_all l, t :: rest).
Proof.
  intros Hl. induction Hl as [|s l Hs Hl IH]; intros Hwf Hn ts t rest f Hts Ht Hf;
    (destruct f as [|f]; [lfuel|]); cbn [statements_f].
  { apply spells_nil in Hts as ->. cbn [app]. step. by rewrite decide_True. }
  apply spells_app in Hts as (ta & tb & -> & Ha & Hb).
  inversion Hwf as [|?? Hws Hwl]; subst. destruct (stmt_first s Hws) as (Hne & _ & Hc & _).
  pose proof (ends_program l tb t rest Hwl Hn Hb Ht) as He.
  destruct (first_spells _ _ Ha Hne) as (t1 & ts1 & -> & T1).
  rewrite <- app_assoc in *. cbn [app] in *. step. rewrite decide_False by congruence.
  change (t1 :: ts1 ++ tb ++ t :: rest) with ((t1 :: ts1) ++ (tb ++ t :: rest)).
  rewrite Hs by (done || lfuel). step. rewrite IH; [done|done| |done|done|lfuel].
  unfold no_swallow in *. destruct l; [done|]. by apply Forall_inv_tail in Hn.
Qed.

(** A block in braces. *)
Definition block_prints (l : list Statement) : Prop :=
  ∀ ts rest f, spells ts (braces (print_program l)) → expr_fuel (ts ++ rest) ≤ S f →
    delimited (statements_f f) OPEN_BRACE CLOSE_BRACE (ts ++ rest) = Ok (l, announced_all l, rest).

Lemma block_print l : Forall stmt_prints l → wf_block l → block_prints l.
Proof.
  intros Hl Hwf ts rest f Hts Hf. inversion Hwf; subst.
  unfold braces, open_brace, close_brace in Hts. cut_keys.
  rewrite <- app_comm_cons, <- app_assoc in *. cbn [app] in *.
  eapply delimited_ok; [done|apply statements_print; try done|done]. lfuel.
Qed.

(** What a block starts with. *)
Lemma block_first ts ks :
  spells ts (braces ks) → ∃ t ts', ts = t :: ts' ∧ type t = OPEN_BRACE.
Proof. intros H. by apply first_spells in H. Qed.

Lemma wf_block_all l :
  Forall (λ s, wf_stmt s → stmt_prints s) l → wf_block l → block_prints l.
Proof.
  intros Hl Hwf. apply block_print; [|done]. inversion Hwf as [? Hs Hn]; subst.
  clear Hwf Hn. induction Hl; inversion Hs; subst; constructor; auto.
Qed.

(** Take the branch of [parse_statement] that token type [T] selects. *)
Ltac dispatch T :=
  match goal with |- parse_statement_f ?f _ = _ => destruct f as [|f]; [lfuel|] end;
  cbn [app parse_statement_f has_next negb]; step;
  rewrite decide_False by congruence; rewrite T; unfold some_statement, silent.

Lemma block_case l : block_prints l → stmt_prints (Block l).
Proof.
  intros Hb ts rest f Hts He Hf. change (spells ts (braces (print_program l))) in Hts.
  destruct (block_first _ _ Hts) as (t & ts' & -> & T). dispatch T.
  change (t :: ts' ++ rest) with ((t :: ts') ++ rest). by rewrite Hb.
Qed.

Lemma emit_case e : wf_expr e → stmt_prints (Emit e).
Proof.
  intros He ts rest f Hts [Hs _] Hf. cbn [print_stmt] in Hts.
  apply spells_cons in Hts as (t & ts1 & -> & T & _ & Hts). dispatch T. unfold parse_emit. step.
  rewrite expect_ok by done. step. by rewrite (parse_printed_expr e).
Qed.

Lemma jump_case j : stmt_prints (Jump j).
Proof. intros ts rest f Hts _ Hf. destruct j; simpl in Hts; cut_keys; by dispatch H. Qed.

Lemma expr_case e :
  wf_expr e → starts_expr_statement (first_type (print_expr e)) = true → stmt_prints (ExprStatement e).
Proof.
  intros He Hf ts rest f Hts [Hs _] Hfu. cbn [print_stmt] in Hts.
  pose proof (parse_printed_expr e ts rest He Hts Hs) as Hp.
  destruct (first_spells ts (print_expr e) Hts) as (t & ts1 & -> & T); [by intros E; rewrite E in Hf|].
  destruct f as [|f]; [lfuel|]. cbn [app parse_statement_f has_next negb] in *. step.
  rewrite T. destruct (first_type (print_expr e)); try done;
    rewrite decide_False by done; unfold silent, parse_expr_statement; by rewrite Hp.
Qed.

Lemma insert_case t e :
  wf_expr e → first_type (print_expr e) = OPEN_BRACE → stmt_prints (Insert t e).
Proof.
  intros He Hf ts rest f Hts [Hs _] Hfu. cbn [print_stmt] in Hts.
  apply spells_cons in Hts as (t1 & ts1 & -> & T1 & _ & Hts).
  apply spells_cons in Hts as (t2 & ts2 & -> & T2 & W2 & Hts).
  pose proof (parse_printed_expr e ts2 rest He Hts Hs) as Hp.
  destruct (first_spells ts2 (print_expr e) Hts) as (t3 & ts3 & -> & T3); [by intros E; rewrite E in Hf|].
  dispatch T1. unfold parse_insert. do 3 (step; rewrite expect_ok by congruence). cbn [app] in Hp. step. rewrite Hp. step. by rewrite W2.
Qed.

Lemma define_case d n : wf_decl d → stmt_prints (Define (Some d) n).
Proof.
  intros Hd ts rest f Hts _ Hf. cbn [print_stmt print_opt] in Hts.
  apply spells_cons in Hts as (t1 & ts1 & -> & T1 & _ & Hts).
  apply spells_app in Hts as (ta & tb & -> & Ha & Hb). cut_keys.
  dispatch T1. unfold parse_define. step. rewrite expect_ok by done. step.
  rewrite <- app_assoc. rewrite (parse_printed_row_type (TupleType d)) by done. cbn [app]. step.
  rewrite expect_ok by done. simpl. congruence.
Qed.

Lemma define_tuple_case n d : wf_decl d → stmt_prints (DefineTuple n d).
Proof.
  intros Hd ts rest f Hts _ Hf. cbn [print_stmt] in Hts.
  apply spells_cons in Hts as (t1 & ts1 & -> & T1 & _ & Hts).
  apply spells_cons in Hts as (t2 & ts2 & -> & T2 & W2 & Hts).
  dispatch T1. unfold parse_define_tuple. step. rewrite expect_ok by done. step.
  rewrite expect_ok by done. step. rewrite (parse_printed_type (TupleType d)) by done. step.
  simpl. congruence.
Qed.

Lemma let_case n e ty : wf_expr e → (∀ t, ty = Some t → wf_type t) → stmt_prints (Let n e ty).
Proof.
  intros He Ht ts rest f Hts [Hs _] Hf. cbn [print_stmt] in Hts.
  apply spells_cons in Hts as (t1 & ts1 & -> & T1 & _ & Hts).
  apply spells_app in Hts as (ta & tb & -> & Ha & Hb).
  apply spells_cons in Hb as (t2 & ts2 & -> & T2 & W2 & Hb).
  apply spells_cons in Hb as (t3 & ts3 & -> & T3 & _ & Hb).
  dispatch T1. unfold parse_let. step. rewrite expect_ok by done. step.
  destruct ty as [ty|]; cbn [print_opt] in Ha.
  - pose proof (parse_printed_row_type ty ta (t2 :: t3 :: ts3 ++ rest) (Ht _ eq_refl) Ha) as Hp.
    unfold angles in Ha. apply spells_cons in Ha as (t0 & ta' & -> & T0 & _ & Ha).
    rewrite <- app_assoc. cbn [app] in *. step. rewrite decide_True by done. rewrite Hp. step.
    rewrite expect_ok by done. step. rewrite expect_ok by done. step.
    rewrite (parse_printed_expr e) by done. step. by rewrite W2.
  - apply spells_nil in Ha as ->. cbn [app]. step. rewrite decide_False by congruence. step.
    rewrite expect_ok by done. step. rewrite expect_ok by done. step.
    rewrite (parse_printed_expr e) by done. step. by rewrite W2.
Qed.

(** Reserved words are not symbols. *)
Lemma word_key_not_brace w : (word_key w).1 ≠ OPEN_BRACE.
Proof.
  unfold word_key. destruct (in_reserverd_word w); [|done]. simpl. rewrite as_reserved_assoc.
  assert (∀ u l, Forall (λ p, p.2 ≠ OPEN_BRACE) l → assoc u l ≠ OPEN_BRACE) as H.
  { intros u l. induction 1 as [|[s t] l Ht _ IH]; simpl; [done|]. by case_decide. }
  apply H. by repeat constructor.
Qed.

Lemma transaction_case iso l : block_prints l → stmt_prints (Transaction iso l).
Proof.
  intros Hb ts rest f Hts _ Hf. cbn [print_stmt] in Hts.
  apply spells_cons in Hts as (t1 & ts1 & -> & T1 & _ & Hts).
  apply spells_app in Hts as (ta & tb & -> & Ha & Hbl).
  change (spells tb (braces (print_program l))) in Hbl.
  assert (expr_fuel (tb ++ rest) ≤ f) as Hfb by lfuel.
  dispatch T1. unfold parse_transaction. step. rewrite expect_ok by done. step.
  pose proof (λ g, Hb tb rest g Hbl) as Hp.
  destruct (block_first _ _ Hbl) as (t2 & ts2 & -> & T2).
  case_decide as Hiso; cbn [app] in *.
  - apply spells_nil in Ha as ->. cbn [app]. step. rewrite decide_False by (intros []; done).
    step. rewrite expect_ok by done. step. rewrite Hp by lfuel. step. cbn [announced]. rewrite decide_True by done.
    by rewrite Hiso.
  - apply spells_word in Ha as (t3 & ts3 & -> & K3 & W3 & Ha). apply spells_nil in Ha as ->.
    cbn [app]. step. rewrite decide_True.
    2: { pose proof (word_key_not_brace iso) as Hn. rewrite <- K3 in Hn. done. }
    step. rewrite expect_ok by done. step. rewrite Hp by lfuel. step. cbn [announced]. rewrite decide_False by done.
    rewrite W3. assert (announce t3 = announce_key (word_key iso)) as ->; [|done].
    rewrite <- K3. by destruct t3.
Qed.

Lemma scan_case t r l : block_prints l → stmt_prints (Scan t r l).
Proof.
  intros Hb ts rest f Hts _ Hf. cbn [print_stmt] in Hts.
  apply spells_cons in Hts as (t1 & ts1 & -> & T1 & _ & Hts).
  apply spells_cons in Hts as (t2 & ts2 & -> & T2 & W2 & Hts).
  apply spells_cons in Hts as (t3 & ts3 & -> & T3 & _ & Hts).
  apply spells_word in Hts as (t4 & ts4 & -> & _ & W4 & Hts).
  change (spells ts4 (braces (print_program l))) in Hts.
  pose proof (λ g, Hb ts4 rest g Hts) as Hp.
  destruct (block_first _ _ Hts) as (t5 & ts5 & -> & T5).
  dispatch T1. unfold parse_scan. do 5 (step; rewrite ?expect_ok by done). cbn [app] in Hp. step.
  rewrite Hp by lfuel. step. by rewrite W2, W4.
Qed.

Lemma if_case c t fb :
  wf_expr c → block_prints t → (∀ l, fb = Some l → block_prints l) → stmt_prints (If c t fb).
Proof.
  intros Hc Ht Hfb ts rest f Hts He Hf. cbn [print_stmt] in Hts.
  apply spells_cons in Hts as (t1 & ts1 & -> & T1 & _ & Hts).
  apply spells_app in Hts as (tc & ts2 & -> & Hec & Hts).
  apply spells_app in Hts as (tt & te & -> & Htt & Hte).
  change (spells tt (braces (print_program t))) in Htt.
  dispatch T1. unfold parse_if. step. rewrite expect_ok by done. step. rewrite <- !app_assoc.
  pose proof (λ g, Ht tt (te ++ rest) g Htt) as Hp.
  destruct (block_first _ _ Htt) as (t2 & ts2 & -> & T2).
  rewrite (parse_printed_expr c) by (done || by eapply stops_type). cbn [app] in *. step.
  rewrite expect_ok by done. step. rewrite Hp by lfuel. step.
  destruct fb as [l|].
  - apply spells_cons in Hte as (t3 & ts3 & -> & T3 & _ & Hte).
    change (spells ts3 (braces (print_program l))) in Hte. cbn [app].
    pose proof (λ g, Hfb l eq_refl ts3 rest g Hte) as Hq.
    destruct (block_first _ _ Hte) as (t4 & ts4 & -> & T4). cbn [app] in *.
    rewrite decide_True by done. step. rewrite expect_ok by done. step. by rewrite Hq by lfuel.
  - apply spells_nil in Hte as ->. cbn [app announced]. rewrite app_nil_r. destruct rest as [|t3 rest]; [done|].
    by rewrite decide_False by apply He.
Qed.

(** A part of a [for] header that is there. *)
Lemma unless_semicolon_some {A} (p : toks → result (A * toks)) t ts a r :
  p (t :: ts) = Ok (a, r) → type t ≠ SEMICOLON → unless_semicolon p (t :: ts) = Ok (Some a, r).
Proof. intros Hp Ht. unfold unless_semicolon. step. rewrite decide_True by done. by rewrite Hp. Qed.

Lemma unless_semicolon_skip {A} (p : toks → result (A * toks)) t ts :
  type t = SEMICOLON → unless_semicolon p (t :: ts) = Ok (None, t :: ts).
Proof. intros Ht. unfold unless_semicolon. step. by rewrite decide_False by (intros []; done). Qed.

Lemma expr_first e ts rest :
  wf_expr e → spells ts (print_expr e) → stops rest →
  unless_semicolon parse_expr (ts ++ rest) = Ok (Some e, rest).
Proof.
  intros He Hts Hr. pose proof (parse_printed_expr e ts rest He Hts Hr) as Hp.
  pose proof (proj1 (parse_expr_grammar _ _ _) Hp) as Hg.
  destruct (ts ++ rest) as [|t l] eqn:E; [inversion Hg|].
  apply unless_semicolon_some; [done|]. inversion Hg; congruence.
Qed.

Lemma for_parts_print (c : option Expression) ts t rest :
  (∀ x, c = Some x → wf_expr x) → spells ts (print_opt print_expr c) → type t = SEMICOLON →
  unless_semicolon parse_expr (ts ++ t :: rest) = Ok (c, t :: rest).
Proof.
  intros Hc Hts Ht. destruct c as [c|]; cbn [print_opt] in Hts.
  - apply expr_first; [auto|done|by eapply stops_type].
  - apply spells_nil in Hts as ->. by apply unless_semicolon_skip.
Qed.

Lemma for_init_print f (i : option Statement) ts t rest :
  (∀ s, i = Some s → wf_stmt s ∧ stmt_prints s) →
  spells ts (match i with Some s => print_stmt s | None => [] end) → type t = SEMICOLON →
  expr_fuel (ts ++ t :: rest) ≤ f →
  unless_semicolon (parse_statement_f f) (ts ++ t :: rest) = Ok ((λ s, (Some s, announced s)) <$> i, t :: rest).
Proof.
  intros Hi Hts Ht Hf. destruct i as [s|].
  - destruct (Hi s eq_refl) as [Hwf Hs]. destruct (stmt_first s Hwf) as (Hne & _ & _ & Hsc).
    pose proof (Hs ts (t :: rest) f Hts) as Hp.
    destruct (first_spells _ _ Hts Hne) as (t1 & ts1 & -> & T1).
    apply unless_semicolon_some; [|congruence]. apply Hp; [|done]. apply ends_type; by rewrite Ht.
  - apply spells_nil in Hts as ->. by apply unless_semicolon_skip.
Qed.

Lemma for_case i c e l :
  (∀ s, i = Some s → wf_stmt s ∧ stmt_prints s) → (∀ x, c = Some x → wf_expr x) → wf_expr e →
  block_prints l → stmt_prints (For i c (Some e) l).
Proof.
  intros Hi Hc He Hb ts rest f Hts _ Hf. cbn [print_stmt] in Hts.
  apply spells_cons in Hts as (t1 & ts1 & -> & T1 & _ & Hts).
  apply spells_app in Hts as (ta & ts2 & -> & Ha & Hts).
  apply spells_cons in Hts as (t2 & ts3 & -> & T2 & _ & Hts).
  apply spells_app in Hts as (tb & ts4 & -> & Hcond & Hts).
  apply spells_cons in Hts as (t3 & ts5 & -> & T3 & _ & Hts).
  apply spells_app in Hts as (tc & td & -> & Hev & Hts). cbn [print_opt] in Hev.
  change (spells td (braces (print_program l))) in Hts.
  pose proof (λ g, Hb td rest g Hts) as Hp.
  destruct (block_first _ _ Hts) as (t4 & ts6 & -> & T4).
  dispatch T1. unfold parse_for. step. rewrite expect_ok by done. step.
  repeat (rewrite <- !app_assoc; cbn [app]).
  rewrite (for_init_print f i) by (done || lfuel). step. rewrite expect_ok by done. step.
  rewrite (for_parts_print c) by done. step. rewrite expect_ok by done. step.
  rewrite (expr_first e) by (done || by eapply stops_type). step. rewrite expect_ok by done. step.
  cbn [app] in Hp. rewrite Hp by lfuel. step. by destruct i.
Qed.

Lemma stmt_print s : wf_stmt s → stmt_prints s.
Proof.
  induction s using Statement_rect'; intros Hwf; inversion Hwf; subst.
  - by apply block_case, wf_block_all.
  - by apply transaction_case, wf_block_all.
  - by apply define_case.
  - apply for_case; [|done|done|by apply wf_block_all]. naive_solver.
  - apply jump_case.
  - by apply emit_case.
  - by apply insert_case.
  - by apply scan_case, wf_block_all.
  - by apply let_case.
  - by apply define_tuple_case.
  - apply if_case; [done|by apply wf_block_all|]. intros l ->. apply wf_block_all; auto.
  - by apply expr_case.
Qed.

(** ** Programs *)

Lemma parse_loop_print l : Forall wf_stmt l → no_swallow l →
  ∀ ts acc out fuel, spells ts (print_program l) → length ts < fuel →
    parse_loop fuel ts acc out = Ok (acc ++ l, out ++ announced_all l).
Proof.
  intros Hwf. induction Hwf as [|s l Hs Hl IH]; intros Hn ts acc out fuel Hts Hf;
    (destruct fuel as [|fuel]; [lia|]); cbn [parse_loop].
  { apply spells_nil in Hts as ->. by rewrite !app_nil_r. }
  apply spells_app in Hts as (ta & tb & -> & Ha & Hb).
  destruct (stmt_first s Hs) as (Hne & _).
  assert (parse_statement (ta ++ tb) = Ok (Some s, announced s, tb)) as Hp.
  { apply stmt_print; [done|done| |done]. destruct l as [|s2 l]; [by apply spells_nil in Hb as ->|].
    apply spells_app in Hb as (tc & td & -> & Hc & _).
    apply Forall_inv in Hl. apply Forall_inv in Hn. destruct (stmt_first s2 Hl) as (Hne2 & He2 & _).
    destruct (first_spells _ _ Hc Hne2) as (t1 & ts1 & -> & T1). apply ends_type; by rewrite T1. }
  destruct (first_spells _ _ Ha Hne) as (t1 & ts1 & -> & T1). cbn [app has_next] in *. rewrite Hp. step.
  cbn [length] in Hf. rewrite length_app in Hf.
  rewrite IH; [by rewrite <- !app_assoc| |done|lia].
  unfold no_swallow in *. destruct l; [done|]. by apply Forall_inv_tail in Hn.
Qed.

(** ** Printed keys are lexemes *)

Definition name_wordb (w : cstr) : bool :=
  forallb (λ c, negb (bool_decide (c = QUOTE)) && negb (is_delimiter c) && negb (is_symbol c) &&
                negb (Tokenizer.is_operator c)) w &&
  match w with c :: _ => negb (is_number c) | [] => false end.

Lemma name_wordb_sound w : name_wordb w = true → name_word w.
Proof.
  unfold name_wordb. rewrite andb_true_iff. intros [Hf Hh]. split.
  - rewrite forallb_forall in Hf. apply Forall_forall. intros c Hc%list_elem_of_In.
    apply Hf in Hc. rewrite !andb_true_iff, !negb_true_iff, bool_decide_eq_false in Hc.
    unfold is_name_char. naive_solver.
  - destruct w as [|c w]; [done|]. exists c, w. split; [done|]. by apply negb_true_iff.
Qed.

Lemma lexeme_keyword w ty :
  name_wordb w = true → in_reserverd_word w = true → as_reserved w = ty → lexeme ty w.
Proof. intros Hw Hr <-. constructor; [by apply name_wordb_sound|done]. Qed.

Lemma lexeme_operator w ty :
  w ≠ [] → forallb Tokenizer.is_operator w = true → operator_token w = Ok ty → lexeme ty w.
Proof.
  intros Hne Hw Ht. apply lex_operator; [|done]. split; [done|].
  rewrite forallb_forall in Hw. apply Forall_forall. intros c Hc%list_elem_of_In. auto.
Qed.

Lemma lexeme_number n : lexeme NUMBER (show_N n).
Proof.
  apply lex_number. split; [apply show_N_nonempty|].
  eapply Forall_impl; [apply show_N_digits|]. intros c Hc. simpl in Hc.
  unfold is_number, has_char. apply bool_decide_eq_true. unfold is_digit in Hc.
  destruct c as [[] [] [] [] [] [] [] []]; try discriminate Hc; vm_compute; set_solver.
Qed.

Definition is_lex (k : tkey) : Prop := lexeme k.1 k.2.

(** A fixed key: an operator, a symbol or a reserved word. *)
Ltac fixed_lexeme :=
  first [ apply lex_symbol; reflexivity
        | apply lexeme_operator; [done|reflexivity|reflexivity]
        | apply lexeme_keyword; reflexivity ].

Lemma lex_word w : name_word w → is_lex (word_key w).
Proof. intros Hw. unfold is_lex, word_key. destruct (in_reserverd_word w) eqn:E; by constructor. Qed.

Lemma lex_name n : wf_name n → is_lex (IDENTIFIER, n).
Proof. intros [Hw Hr]. by constructor. Qed.

Lemma lex_op op : op ≠ Op.NONE → is_lex (op_key op).
Proof. unfold is_lex. destruct op; intros; try done; simpl; fixed_lexeme. Qed.

Lemma lex_literal m : wf_literal m → is_lex (literal_key m).
Proof.
  intros [(z & -> & _)|(s & -> & Hs)]; unfold is_lex; simpl; [apply lexeme_number|by constructor].
Qed.

Lemma lex_sep c l : is_lex c → Forall (Forall is_lex) l → Forall is_lex (sep_by c l).
Proof.
  intros Hc. induction 1 as [|x l Hx Hl IH]; simpl; [done|]. destruct l; [done|].
  apply Forall_app; split; [done|]. by constructor.
Qed.

(** Split a list of keys and close the fixed ones. *)
Ltac lex_steps :=
  unfold guarded, braces, angles, open_paren, close_paren, open_brace, close_brace, open_bracket,
    close_bracket, comma, semicolon;
  repeat match goal with
  | |- Forall is_lex (_ ++ _) => apply Forall_app; split
  | |- Forall is_lex (_ :: _) => apply Forall_cons; split
  | |- Forall is_lex [] => apply Forall_nil_2
  | |- Forall is_lex (if _ then _ else _) => case_match
  | |- is_lex (IDENTIFIER, lit _) => apply lex_name; split; [by apply name_wordb_sound|done]
  | |- is_lex (_, lit _) => unfold is_lex; simpl; fixed_lexeme
  | |- is_lex (word_key _) => apply lex_word
  | |- is_lex (IDENTIFIER, _) => apply lex_name
  end; try done.

Lemma lex_items es :
  Forall (λ e, wf_expr e → Forall is_lex (print_expr e)) es → Forall wf_expr es →
  Forall is_lex (sep_by comma (map print_expr es)).
Proof.
  intros H1 H2. apply lex_sep; [unfold is_lex; simpl; fixed_lexeme|].
  induction H1; inversion H2; subst; constructor; auto.
Qed.

Lemma lex_expr e : wf_expr e → Forall is_lex (print_expr e).
Proof.
  induction e using Expression_rect'; intros Hwf; inversion Hwf; subst; cbn [print_expr];
    lex_steps; auto using lex_literal, lex_op, lex_items.
Qed.

Lemma lex_column c : wf_column c → Forall is_lex (print_column c).
Proof.
  intros (H1 & H2 & H3 & H4). unfold print_column, print_props, print_param. lex_steps.
  destruct (c_param c); lex_steps. unfold is_lex. apply lexeme_number.
Qed.

Lemma lex_columns d : wf_decl d → Forall is_lex (print_columns (columns_of d)).
Proof.
  intros (_ & _ & Hc). unfold print_columns. lex_steps.
  apply lex_sep; [unfold is_lex; simpl; fixed_lexeme|].
  induction Hc; constructor; auto using lex_column.
Qed.

Lemma lex_type t : wf_type t → Forall is_lex (print_type t).
Proof. destruct t; cbn [print_type wf_type]; intros; [| |by apply lex_columns]; lex_steps. Qed.

Lemma lex_block l :
  Forall (λ s, wf_stmt s → Forall is_lex (print_stmt s)) l → wf_block l →
  Forall is_lex (concat (map print_stmt l)).
Proof.
  intros H1 H2. inversion H2 as [? Hs _]; subst. clear H2.
  induction H1; inversion Hs; subst; simpl; [done|]. apply Forall_app; auto.
Qed.

Lemma lex_stmt s : wf_stmt s → Forall is_lex (print_stmt s).
Proof.
  induction s using Statement_rect'; intros Hwf; inversion Hwf; subst; cbn [print_stmt print_opt];
    lex_steps; auto using lex_expr, lex_block, lex_columns.
  - by apply lex_columns.
  - destruct i; [naive_solver|done].
  - destruct c; simpl; [apply lex_expr; auto|done].
  - destruct t; cbn [print_opt]; [|done]. lex_steps. apply lex_type; auto.
  - destruct f; [|done]. lex_steps. apply lex_block; auto.
Qed.

Lemma lex_program l : wf_block l → Forall is_lex (print_program l).
Proof.
  intros Hl. apply lex_block; [|done]. apply Forall_forall. intros s _. apply lex_stmt.
Qed.

Lemma program_roundtrip l : wf_block l → parse (render (print_program l)) = Ok (l, announced_all l).
Proof.
  intros Hl. destruct (tokenize_render_keys (print_program l)) as (ts & Ht & Hk).
  { by apply lex_program. }
  unfold parse. rewrite Ht. step. inversion Hl; subst. rewrite (parse_loop_print l); try done. lia.
Qed.

(** ** Deciding well-formedness *)

Definition wf_nameb (n : cstr) : bool := name_wordb n && negb (in_reserverd_word n).
Definition int31b (z : Z) : bool := ((0 <=? z) && (z <? 2 ^ 31))%Z.
Definition optb {A} (f : A → bool) (o : option A) : bool :=
  match o with Some a => f a | None => true end.

Definition wf_literalb (m : MaybeValue) : bool :=
  match mvalue m with
  | mk_value V_INT (VarInt z) => exists_ m && int31b z
  | mk_value V_VARCHAR (VarString s) => exists_ m && bool_decide (QUOTE ∉ s)
  | _ => false
  end.

Fixpoint wf_exprb (e : Expression) : bool :=
  match e with
  | PrimaryExpression m => wf_literalb m
  | BinaryExpression l op r => bool_decide (op ≠ Op.NONE) && wf_exprb l && wf_exprb r
  | PointerOf t => wf_exprb t
  | RowLiteral es | ArrayLiteral es => forallb wf_exprb es
  | VariableReference n => wf_nameb n
  | FunctionCall p args => wf_exprb p && forallb wf_exprb args
  | ArrayReference (Some (VariableReference n)) i => wf_nameb n && wf_exprb i
  | ArrayReference _ _ => false
  | MemberReference p n => wf_exprb p && name_wordb n
  | Assign t v => wf_exprb t && wf_exprb v
  end.

Definition wf_columnb (c : column) : bool :=
  name_wordb (c_type c) && wf_nameb (c_name c) && (c_prop c <? 8)%N && optb int31b (c_param c).
Definition wf_declb (d : TupleDecl) : bool :=
  bool_decide (d = decl_of (columns_of d)) && negb (bool_decide (length (columns_of d) = 0)) &&
  forallb wf_columnb (columns_of d).
Definition wf_typeb (t : Ty) : bool :=
  match t with
  | PrimaryType i | ArrayType i => bool_decide (i = TypeId.INTEGER)
  | TupleType d => wf_declb d
  end.

Definition no_swallowb (l : list Statement) : bool :=
  forallb (λ s, negb (postfix_start (first_type (print_stmt s)))) (tail l).

Fixpoint wf_stmtb (s : Statement) : bool :=
  let block l := forallb wf_stmtb l && no_swallowb l in
  match s with
  | Block l => block l
  | Transaction iso l => name_wordb iso && block l
  | Define (Some d) n => wf_declb d && wf_nameb n
  | Define None _ => false
  | For i c (Some e) l =>
      match i with Some s => wf_stmtb s | None => true end && optb wf_exprb c && wf_exprb e && block l
  | For _ _ None _ => false
  | Jump _ => true
  | Emit e => wf_exprb e
  | Insert t e => wf_nameb t && wf_exprb e && bool_decide (first_type (print_expr e) = OPEN_BRACE)
  | Scan t r l => wf_nameb t && name_wordb r && block l
  | Let n e ty => wf_nameb n && wf_exprb e && optb wf_typeb ty
  | DefineTuple n d => wf_nameb n && wf_declb d
  | If c t f =>
      wf_exprb c && block t && match f with Some f => block f | None => true end
  | ExprStatement e => wf_exprb e && starts_expr_statement (first_type (print_expr e))
  end.

Definition wf_blockb (l : list Statement) : bool := forallb wf_stmtb l && no_swallowb l.

(** Read the boolean tests among the hypotheses. *)
Ltac btests :=
  repeat match goal with
  | H : _ && _ = true |- _ => apply andb_true_iff in H as [? ?]
  | H : negb _ = true |- _ => apply negb_true_iff in H
  | H : bool_decide _ = true |- _ => apply bool_decide_eq_true in H
  | H : bool_decide _ = false |- _ => apply bool_decide_eq_false in H
  end.

Lemma wf_nameb_sound n : wf_nameb n = true → wf_name n.
Proof. unfold wf_nameb. intros H. btests. split; [by apply name_wordb_sound|done]. Qed.

Lemma int31b_sound z : int31b z = true → (0 ≤ z < 2 ^ 31)%Z.
Proof. unfold int31b. lia. Qed.

Lemma forallb_sound {A} (f : A → bool) (P : A → Prop) l :
  Forall (λ x, f x = true → P x) l → forallb f l = true → Forall P l.
Proof. induction 1; simpl; intros; [constructor|]. btests. constructor; auto. Qed.

Lemma forallb_impl {A} (f : A → bool) (P : A → Prop) l :
  (∀ x, f x = true → P x) → forallb f l = true → Forall P l.
Proof. intros Hf. apply forallb_sound, Forall_forall. auto. Qed.

Lemma wf_literalb_sound m : wf_literalb m = true → wf_literal m.
Proof.
  destruct m as [ex [[] [z|s|]]]; cbn [wf_literalb mvalue exists_]; intros H; try done; btests; subst.
  - left. exists z. split; [done|]. by apply int31b_sound.
  - right. by exists s.
Qed.

Lemma wf_exprb_sound e : wf_exprb e = true → wf_expr e.
Proof.
  induction e using Expression_rect'; cbn [wf_exprb]; intros Hb; btests;
    try (constructor; eauto using wf_literalb_sound, wf_nameb_sound, forallb_sound, name_wordb_sound; fail).
  destruct p as [[]|]; try done. btests. constructor; auto using wf_nameb_sound.
Qed.

Lemma wf_columnb_sound c : wf_columnb c = true → wf_column c.
Proof.
  unfold wf_columnb. intros H. btests. split; [by apply name_wordb_sound|].
  split; [by apply wf_nameb_sound|]. split; [by apply N.ltb_lt|].
  intros z E. rewrite E in *. by apply int31b_sound.
Qed.

Lemma wf_declb_sound d : wf_declb d = true → wf_decl d.
Proof.
  unfold wf_declb. intros H. btests. split; [done|]. split.
  - intros E. by rewrite E in *.
  - eauto using forallb_impl, wf_columnb_sound.
Qed.

Lemma wf_typeb_sound t : wf_typeb t = true → wf_type t.
Proof. destruct t; simpl; intros; btests; auto using wf_declb_sound. Qed.

Lemma optb_sound {A} (f : A → bool) (P : A → Prop) o :
  (∀ x, f x = true → P x) → optb f o = true → ∀ x, o = Some x → P x.
Proof. intros Hf Ho x ->. auto. Qed.

Lemma no_swallowb_sound l : no_swallowb l = true → no_swallow l.
Proof. apply forallb_impl. intros s. apply negb_true_iff. Qed.

Lemma block_sound l :
  Forall (λ s, wf_stmtb s = true → wf_stmt s) l → forallb wf_stmtb l = true →
  no_swallowb l = true → wf_block l.
Proof. intros. constructor; eauto using forallb_sound, no_swallowb_sound. Qed.

Lemma optb_expr_sound o : optb wf_exprb o = true → ∀ x, o = Some x → wf_expr x.
Proof. apply optb_sound, wf_exprb_sound. Qed.
Lemma optb_type_sound o : optb wf_typeb o = true → ∀ x, o = Some x → wf_type x.
Proof. apply optb_sound, wf_typeb_sound. Qed.

Create HintDb wfb.
#[local] Hint Resolve wf_nameb_sound name_wordb_sound wf_exprb_sound wf_declb_sound block_sound
  optb_expr_sound optb_type_sound : wfb.

Lemma wf_stmtb_sound s : wf_stmtb s = true → wf_stmt s.
Proof.
  induction s using Statement_rect'; cbn [wf_stmtb]; intros Hb; btests;
    try (constructor; eauto with wfb; fail).
  - destruct s; [|done]. btests. constructor; eauto with wfb.
  - destruct e; [|done]. btests. constructor; eauto with wfb. intros s ->. eauto.
  - constructor; eauto with wfb. intros l ->. btests. eauto with wfb.
Qed.

Lemma wf_blockb_sound l : wf_blockb l = true → wf_block l.
Proof.
  unfold wf_blockb. intros H. btests. constructor; eauto using forallb_impl, wf_stmtb_sound, no_swallowb_sound.
Qed.

(** * Properties *)

(** A sample program for the witnesses:
    [define<{int:id key, string(16):name}>person
     transaction snapshot { insert person {1, "x"} scan person, row { emit row.id } }
     for let i = 0; i < 3; i = i + 1 { if f(i) { break } else { x } }]. *)
Definition var (s : string) : Expression := VariableReference (lit s).
Definition num (z : Z) : Expression := PrimaryExpression (maybe_of_int z).
Definition sample_columns : list column :=
  [mk_column (lit "int") None (lit "id") P_KEY; mk_column (lit "string") (Some 16%Z) (lit "name") P_NONE].
Definition sample : list Statement :=
  [ Define (Some (decl_of sample_columns)) (lit "person");
    Transaction (lit "snapshot")
      [ Insert (lit "person") (RowLiteral [num 1; PrimaryExpression (maybe_of_slice (lit "x"))]);
        Scan (lit "person") (lit "row") [Emit (MemberReference (var "row") (lit "id"))] ];
    For (Some (Let (lit "i") (num 0) None))
      (Some (BinaryExpression (var "i") Op.LESSTHAN (num 3)))
      (Some (Assign (var "i") (BinaryExpression (var "i") Op.PLUS (num 1))))
      [ If (FunctionCall (var "f") [var "i"]) [Jump break_jump] (Some [ExprStatement (var "x")]) ] ].

(** C5: the whole front end: printing any well-formed program, tokenizing the text and parsing the
    tokens gives the program back, and prints the isolation words of its transactions, which the
    parser announces, and nothing else.  Well-formed programs use every statement, expression,
    operator and type the parser can build; their names are not reserved words, their numbers
    fit [std::stoi], and no statement would be swallowed by the one before it. *)
Theorem parse_print_roundtrip l : wf_block l → 
  parse (render (print_program l)) = Ok (l, announced_all l).
Proof. apply program_roundtrip. Qed.

Lemma parse_print_roundtrip_witness :
  parse (render (print_program sample)) = Ok (sample, lit "to: [IDENTIFIER](snapshot)" ++ [ch 10]).
Proof. apply (parse_print_roundtrip sample), wf_blockb_sound. vm_compute. reflexivity. Defined.

(** an expression printed with parentheses only where they are needed parses back to
    itself, in front of anything that does not continue an expression. *)
Theorem parse_print_expr e ts rest :
  wf_expr e → key <$> ts = print_expr e → stops rest → parse_expr (ts ++ rest) = Ok (e, rest).
Proof. apply parse_printed_expr. Qed.

Lemma parse_print_expr_witness :
  parse_expr ([tok AND "&"; tok IDENTIFIER "a"; tok PLUS "+"; tok NUMBER "1"] ++ [tok SEMICOLON ";"])
  = Ok (PointerOf (BinaryExpression (var "a") Op.PLUS (num 1)), [tok SEMICOLON ";"]).
Proof.
  apply parse_print_expr; [by apply wf_exprb_sound|vm_compute; reflexivity|done].
Defined.

(** statements are not separated: [emit a] followed by a parenthesised expression statement
    is parsed as one statement that emits the result of calling [a]. *)
Theorem statements_swallow a b :
  wf_name a → wf_expr b →
  parse (render (print_stmt (Emit (VariableReference a)) ++ open_paren :: print_expr b ++ [close_paren]))
  = Ok ([Emit (FunctionCall (VariableReference a) [b])], []).
Proof.
  intros Ha Hb. change (@nil ascii) with (announced_all [Emit (FunctionCall (VariableReference a) [b])]).
  rewrite <- (program_roundtrip [Emit (FunctionCall (VariableReference a) [b])]).
  - do 2 f_equal. unfold print_program. simpl. by rewrite app_nil_r.
  - constructor; [|constructor]. repeat constructor; done || apply Ha.
Qed.

Lemma statements_swallow_witness :
  parse (render (print_stmt (Emit (var "a")) ++ open_paren :: print_expr (num 1) ++ [close_paren]))
  = Ok ([Emit (FunctionCall (var "a") [num 1])], []).
Proof. apply statements_swallow; [by apply wf_nameb_sound|by apply wf_exprb_sound]. Defined.
