(* ===== verification/Analyze.v ===== *)
(** * Analyze: the semantic analysis
      ([TupleType::analyze] and [operate] of [src/src/reir/exec/ast_node.cpp]; the [analyze]
       methods of [ast_expression.hpp] and [ast_statement.hpp]; the tables of
       [compiler_context.hpp])

    [Type] objects live in a heap ([types]) and are shared: the tables, the expressions and the tuple
    types hold pointers to them, and a pointer may be null ([None]).  [analyze_expr] returns the
    pointer that it stores in the expression's [type_].  [unordered_map::operator[]] on a missing key adds
    a null entry ([table_at]).  Following a null pointer is [UB]; a failed [assert] is [Abort].
    A literal's table key ends in its own address; a counter stands for it. *)

From Stdlib Require Import ZArith NArith Ascii String Lia.
From stdpp Require Import base option list strings gmap.
From S2P Require Import Prelude Value Attr Schema Ast Dump.

(** [Type*] *)
Abbreviation tptr := (option nat).

(** A tuple type's [type_] is [NONE_TYPE] when it is built from a row literal. *)
Inductive TypeObj :=
  | OPrimary (type_ : TypeId.type_id)
  | OArray (type_ : TypeId.type_id)
  | OTuple (type_ : TypeId.type_id) (names : list cstr) (types : list tptr).

Definition obj_id (o : TypeObj) : TypeId.type_id :=
  match o with OPrimary t | OArray t | OTuple t _ _ => t end.

(** The part of [CompilerContext] the analysis uses. *)
Record ctx := mk_ctx {
  types : list TypeObj;
  analyze_type_table_ : gmap cstr tptr;
  variable_type_table_ : gmap cstr tptr;
  local_schema_table_ : gmap cstr (option Schema);
  addresses : N;
}.

Definition set_types (st : ctx) l :=
  mk_ctx l (analyze_type_table_ st) (variable_type_table_ st) (local_schema_table_ st) (addresses st).
Definition set_type_table (st : ctx) m :=
  mk_ctx (types st) m (variable_type_table_ st) (local_schema_table_ st) (addresses st).
Definition set_variable (st : ctx) (k : cstr) (p : tptr) :=
  mk_ctx (types st) (analyze_type_table_ st) (<[k := p]> (variable_type_table_ st))
    (local_schema_table_ st) (addresses st).
Definition set_type (st : ctx) (k : cstr) (p : tptr) :=
  set_type_table st (<[k := p]> (analyze_type_table_ st)).

(** The constructor's default types. *)
Definition ctx_new : ctx :=
  mk_ctx [OPrimary TypeId.INTEGER; OPrimary TypeId.STRING; OPrimary TypeId.DATE;
          OPrimary TypeId.DOUBLE; OPrimary TypeId.BOOL]
    (list_to_map [(lit "integer", Some 0); (lit "string", Some 1); (lit "date", Some 2);
                  (lit "double", Some 3); (lit "bool", Some 4)]) ∅ ∅ 0.

Definition new_type (st : ctx) (o : TypeObj) : ctx * tptr :=
  (set_types st (types st ++ [o]), Some (length (types st))).

Definition deref (st : ctx) (p : tptr) : result TypeObj :=
  match p with
  | Some l => match types st !! l with Some o => Ok o | None => UB end
  | None => UB
  end.

(** [analyze_type_table_[k]] *)
Definition table_at (st : ctx) (k : cstr) : ctx * tptr :=
  match analyze_type_table_ st !! k with
  | Some p => (st, p)
  | None => (set_type st k None, None)
  end.

(** ** Types *)

(** The loop of [TupleType::dump] over the parts and their names. *)
Section dump_parts.
Context (dump : TypeObj → result cstr) (st : ctx) (names : list cstr).
Fixpoint dump_parts (i : nat) (ps : list tptr) : result cstr :=
  match ps with
  | [] => Ok []
  | p :: ps =>
      o ← deref st p;
      s ← dump o;
      n ← at_index names i;
      rest ← dump_parts (S i) ps;
      Ok ((if (0 <? i)%nat then lit ", " else []) ++ s ++ lit ":" ++ n ++ rest)
  end.
End dump_parts.

(** [dump]; a tuple type prints through its parts' pointers, at most as deep as the heap. *)
Fixpoint dump_type (fuel : nat) (st : ctx) (o : TypeObj) : result cstr :=
  match fuel with
  | O => OutOfFuel
  | S fuel =>
      match o with
      | OPrimary t => Ok (type_to_string t)
      | OArray _ => Ok (lit "[ARRAY]")
      | OTuple _ names ps =>
          s ← dump_parts (dump_type fuel st) st names 0 ps; Ok (lit "{" ++ s ++ lit "}")
      end
  end.

(** A column's type name: the built-in names first, then the table. *)
Definition lookup_type_name (st : ctx) (tn : cstr) : result (ctx * tptr) :=
  if decide (tn = lit "int") then Ok (table_at st (lit "integer"))
  else if decide (tn = lit "double") then Ok (table_at st (lit "double"))
  else if decide (tn = lit "string") then Ok (table_at st (lit "string"))
  else if decide (tn = lit "date") then Ok (table_at st (lit "integer"))
  else match analyze_type_table_ st !! tn with
       | None => Throw (lit "undefined type " ++ tn)
       | Some p => Ok (st, p)
       end.

Fixpoint lookup_type_names (st : ctx) (tns : list cstr) : result (ctx * list tptr) :=
  match tns with
  | [] => Ok (st, [])
  | tn :: tns =>
      '(st, p) ← lookup_type_name st tn;
      '(st, ps) ← lookup_type_names st tns;
      Ok (st, p :: ps)
  end.

(** [TupleType::analyze] on the object the parser made. *)
Definition tuple_analyze (st : ctx) (d : TupleDecl) : result (ctx * tptr) :=
  '(st, ps) ← lookup_type_names st (type_names_ d);
  Ok (new_type st (OTuple TypeId.TUPLE (names_ d) ps)).

Definition is_arithmetic (op : Op.operators) : bool :=
  match op with
  | Op.PLUS | Op.MINUS | Op.MULTIPLE | Op.DIVISION | Op.MODULO => true
  | _ => false
  end.
Definition is_comparison (op : Op.operators) : bool :=
  match op with
  | Op.EQUAL | Op.LESSTHAN | Op.LESSEQUAL | Op.MORETHAN | Op.MOREEQUAL | Op.NOTEQUAL => true
  | _ => false
  end.

(** What follows [operate]'s outer [switch]. *)
Definition operate_unknown (st : ctx) (lhs rhs : TypeObj) (op : Op.operators)
    : result (ctx * tptr) :=
  l ← dump_type (S (length (types st))) st lhs;
  o ← op_to_string op;
  r ← dump_type (S (length (types st))) st rhs;
  Throw (lit "not implemented operator for " ++ l ++ lit " " ++ o ++ lit " " ++ r).

(** [operate]; [lp] is the address of [lhs]. *)
Definition operate (st : ctx) (lp : tptr) (lhs rhs : TypeObj) (op : Op.operators)
    : result (ctx * tptr) :=
  let same := bool_decide (obj_id rhs = obj_id lhs) in
  let bool_type := Ok (table_at st (lit "bool")) in
  let logical :=
    match obj_id rhs with
    | TypeId.INTEGER | TypeId.BOOL => bool_type
    | _ => throw "you can't || or && with other types than int or bool"
    end in
  match obj_id lhs with
  | TypeId.ARRAY => throw "array with operator not supported yet"
  | TypeId.TUPLE => throw "tuple operator not supported yet"
  | TypeId.INTEGER | TypeId.DOUBLE =>
      match op with
      | Op.PLUS | Op.MINUS | Op.MULTIPLE | Op.DIVISION | Op.MODULO =>
          if same then Ok (st, lp) else throw "you can't operate with different types"
      | Op.EQUAL | Op.LESSTHAN | Op.LESSEQUAL | Op.MORETHAN | Op.MOREEQUAL | Op.NOTEQUAL =>
          if same then bool_type else throw "you can't operate with different types"
      | Op.NONE => throw "invalid operator"
      | Op.CONDITIONAL_AND | Op.CONDITIONAL_OR =>
          if bool_decide (obj_id lhs = TypeId.DOUBLE ∨ obj_id rhs = TypeId.DOUBLE)
          then throw "you can't || or && with double" else logical
      end
  | TypeId.STRING =>
      match op with
      | Op.PLUS =>
          if same then Ok (table_at st (lit "string"))
          else throw "you can't operate string and different types"
      | Op.EQUAL | Op.LESSTHAN | Op.LESSEQUAL | Op.MORETHAN | Op.MOREEQUAL | Op.NOTEQUAL =>
          if same then bool_type else throw "you can't operate with different types"
      | _ => throw "you cannot string with operator"
      end
  | TypeId.BOOL =>
      match op with
      | Op.CONDITIONAL_AND | Op.CONDITIONAL_OR => logical
      | _ => throw "only || and && operations are allowed for bool"
      end
  | TypeId.DATE => throw "operation with date is not supported"
  | TypeId.NONE_TYPE | TypeId.FUNCTION | TypeId.POINTER => operate_unknown st lhs rhs op
  end.

(** ** Expressions *)

(** [TupleType(std::vector<Type*>&&)] names its members "(anonymous)". *)
Definition row_type (ps : list tptr) : TypeObj :=
  OTuple TypeId.NONE_TYPE (replicate (length ps) (lit "(anonymous)")) ps.

(** Register a literal's type under its address. *)
Definition register (st : ctx) (prefix : string) (p : tptr) : ctx :=
  let st := set_type st (lit prefix ++ show_N (addresses st)) p in
  mk_ctx (types st) (analyze_type_table_ st) (variable_type_table_ st) (local_schema_table_ st)
    (addresses st + 1).

(** The search of [MemberReference::analyze]. *)
Fixpoint find_member (name : cstr) (names : list cstr) (i : nat) : option nat :=
  match names with
  | [] => None
  | n :: names => if decide (n = name) then Some i else find_member name names (S i)
  end.

(** The loops over the elements of a row literal and over the arguments of a call. *)
Section loops.
Context (analyze : Expression → ctx → result (ctx * tptr)).

Fixpoint analyze_elements (es : list Expression) (st : ctx) : result (ctx * list tptr) :=
  match es with
  | [] => Ok (st, [])
  | e :: es =>
      '(st, p) ← analyze e st;
      match p with
      | None => Abort
      | Some _ => '(st, ps) ← analyze_elements es st; Ok (st, p :: ps)
      end
  end.

Fixpoint analyze_args (es : list Expression) (st : ctx) : result ctx :=
  match es with
  | [] => Ok st
  | e :: es => '(st, _) ← analyze e st; analyze_args es st
  end.
End loops.

(** The loop of [Block::analyze]. *)
Section block.
Context (analyze : Statement → ctx → result ctx).
Fixpoint analyze_statements (l : list Statement) (st : ctx) : result ctx :=
  match l with
  | [] => Ok st
  | s :: l => st ← analyze s st; analyze_statements l st
  end.
End block.

Section analyze.
(** How the standard library writes a [double]: part of an error message only. *)
Context (show_double : Z → cstr).

(** The [analyze] methods of the expression classes; [analyze] is the method of their parts. *)
Section expr_methods.
Context (analyze : Expression → ctx → result (ctx * tptr)).

Definition analyze_primary (v : MaybeValue) (st : ctx) : result (ctx * tptr) :=
  if exists_ v then
    if is_int (mvalue v) then Ok (table_at st (lit "integer"))
    else if is_varchar (mvalue v) then Ok (table_at st (lit "string"))
    else if is_float (mvalue v) then Ok (table_at st (lit "double"))
    else throw "unknown primary type"
  else Ok (st, None).

Definition analyze_binary (l : Expression) (op : Op.operators) (r : Expression) (st : ctx)
    : result (ctx * tptr) :=
  '(st, lp) ← analyze l st;
  '(st, rp) ← analyze r st;
  lo ← deref st lp;
  ro ← deref st rp;
  operate st lp lo ro op.

Definition analyze_row (es : list Expression) (st : ctx) : result (ctx * tptr) :=
  '(st, ps) ← analyze_elements analyze es st;
  let '(st, p) := new_type st (row_type ps) in
  Ok (register st "__TupleLiteral:" p, p).

Definition analyze_array (es : list Expression) (st : ctx) : result (ctx * tptr) :=
  match es with
  | [] => Throw (lit "empty array literal's type cant be resolved" ++ [NEWLINE])
  | e :: _ =>
      '(st, p) ← analyze e st;
      o ← deref st p;
      let '(st, p) := new_type st (OArray (obj_id o)) in
      Ok (register st "__ArrayLiteral:" p, p)
  end.

Definition analyze_variable (n : cstr) (st : ctx) : result (ctx * tptr) :=
  match variable_type_table_ st !! n with
  | None => Throw (lit "undefined variable " ++ n ++ lit " referenced")
  | Some p => Ok (st, p)
  end.

Definition analyze_call (args : list Expression) (st : ctx) : result (ctx * tptr) :=
  let '(st, p) := table_at st (lit "integer") in
  st ← analyze_args analyze args st;
  Ok (st, p).

Definition analyze_array_ref (parent : option Expression) (i : Expression) (st : ctx)
    : result (ctx * tptr) :=
  match parent with
  | None => UB
  | Some p =>
      '(st, pp) ← analyze p st;
      '(st, _) ← analyze i st;
      match pp with
      | None => throw "array reference must detect array"
      | Some _ =>
          o ← deref st pp;
          match o with
          | OArray _ => Ok (st, pp)
          | _ => throw "array reference must detect array"
          end
      end
  end.

Definition analyze_member (parent : Expression) (name : cstr) (st : ctx) : result (ctx * tptr) :=
  '(st, pp) ← analyze parent st;
  match pp with
  | None => throw "type must be tuple"
  | Some _ =>
      o ← deref st pp;
      match o with
      | OTuple _ names ps =>
          match find_member name names 0 with
          | Some i => p ← at_index ps i; Ok (st, p)
          | None =>
              a ← dump_expr show_double parent;
              b ← dump_type (S (length (types st))) st o;
              Throw (lit "not found member named " ++ name ++ lit " in " ++ a ++ lit " " ++ b)
          end
      | _ => throw "type must be tuple"
      end
  end.

Definition analyze_assign (t v : Expression) (st : ctx) : result (ctx * tptr) :=
  '(st, _) ← analyze t st;
  analyze v st.
End expr_methods.

(** [PointerOf::analyze] has an empty body and leaves [type_] null. *)
Fixpoint analyze_expr (e : Expression) (st : ctx) {struct e} : result (ctx * tptr) :=
  match e with
  | PrimaryExpression v => analyze_primary v st
  | BinaryExpression l op r => analyze_binary analyze_expr l op r st
  | PointerOf _ => Ok (st, None)
  | RowLiteral es => analyze_row analyze_expr es st
  | ArrayLiteral es => analyze_array analyze_expr es st
  | VariableReference n => analyze_variable n st
  | FunctionCall _ args => analyze_call analyze_expr args st
  | ArrayReference p i => analyze_array_ref analyze_expr p i st
  | MemberReference p n => analyze_member analyze_expr p n st
  | Assign t v => analyze_assign analyze_expr t v st
  end.

(** ** Statements *)

Definition is_row_literal (e : Expression) : bool :=
  match e with RowLiteral _ => true | _ => false end.

(** A [for]'s absent part was never initialised: testing the pointer is [UB]. *)
Definition analyze_part (o : option Expression) (st : ctx) : result ctx :=
  match o with
  | Some e => '(st, _) ← analyze_expr e st; Ok st
  | None => UB
  end.

(** [Let::analyze]; [ty] is the declared type. *)
Definition analyze_let (n : cstr) (e : Expression) (ty : option Ty) (st : ctx) : result ctx :=
  '(st, p) ← analyze_expr e st;
  match e with
  | RowLiteral _ =>
      match ty with
      | None => Ok (set_variable st n p)
      | Some (TupleType d) =>
          '(st, tp) ← tuple_analyze st d;
          Ok (set_variable (set_type st n tp) n tp)
      | Some _ => UB
      end
  | ArrayLiteral _ =>
      o ← deref st p;
      let '(st, tmp) := new_type st (OArray (obj_id o)) in
      Ok (set_variable (set_type st n tmp) n tmp)
  | _ =>
      match ty with
      | None => Ok (set_variable st n p)
      | Some _ => Throw (lit "unknown type variable of " ++ n)
      end
  end.

(** [local_schema_table_[k]] as [Scan::analyze] evaluates it. *)
Definition schema_at (st : ctx) (k : cstr) : ctx :=
  match local_schema_table_ st !! k with
  | Some _ => st
  | None => mk_ctx (types st) (analyze_type_table_ st) (variable_type_table_ st)
              (<[k := None]> (local_schema_table_ st)) (addresses st)
  end.

(** The [analyze] methods of the statement classes; [block] is [Block::analyze] of their blocks. *)

Definition analyze_define (d : option TupleDecl) (n : cstr) (st : ctx) : result ctx :=
  match d with
  | None => UB
  | Some d => '(st, p) ← tuple_analyze st d; Ok (set_type st n p)
  end.
Definition analyze_define_tuple (n : cstr) (d : TupleDecl) (st : ctx) : result ctx :=
  '(st, p) ← tuple_analyze st d; Ok (set_type st n p).

(** [Emit], [Insert] and [ExprStatement] *)
Definition analyze_value (e : Expression) (st : ctx) : result ctx :=
  '(st, _) ← analyze_expr e st; Ok st.

Section stmt_methods.
Context (block : list Statement → ctx → result ctx).

(** [init] is the analysis of the initialisation. *)
Definition analyze_for (init : ctx → result ctx) (c e : option Expression) (l : list Statement)
    (st : ctx) : result ctx :=
  st ← init st;
  st ← analyze_part c st;
  st ← analyze_part e st;
  block l st.

Definition analyze_scan (t r : cstr) (l : list Statement) (st : ctx) : result ctx :=
  let st := schema_at st t in
  let '(st, p) := table_at st t in
  block l (set_variable st r p).

Definition analyze_if (c : Expression) (t : list Statement) (f : option (list Statement)) (st : ctx)
    : result ctx :=
  '(st, _) ← analyze_expr c st;
  st ← block t st;
  match f with Some f => block f st | None => Ok st end.
End stmt_methods.

Fixpoint analyze_stmt (s : Statement) (st : ctx) : result ctx :=
  let block := analyze_statements analyze_stmt in
  match s with
  | Block l | Transaction _ l => block l st
  | Define d n => analyze_define d n st
  | For i c e l =>
      analyze_for block (λ st, match i with Some s => analyze_stmt s st | None => UB end) c e l st
  | Jump _ => Ok st
  | Emit e | Insert _ e | ExprStatement e => analyze_value e st
  | Scan t r l => analyze_scan block t r l st
  | Let n e ty => analyze_let n e ty st
  | DefineTuple n d => analyze_define_tuple n d st
  | If c t f => analyze_if block c t f st
  end.

Definition analyze_block : list Statement → ctx → result ctx := analyze_statements analyze_stmt.

End analyze.

(** ** The typing rules the analysis implements on scalar expressions *)

Definition is_scalar (t : TypeId.type_id) : bool :=
  match t with
  | TypeId.INTEGER | TypeId.DOUBLE | TypeId.STRING | TypeId.BOOL | TypeId.DATE => true
  | _ => false
  end.

(** The result type of an operator, if it has one. *)
Definition op_type (l : TypeId.type_id) (op : Op.operators) (r : TypeId.type_id)
    : option TypeId.type_id :=
  match op with
  | Op.NONE => None
  | Op.CONDITIONAL_AND | Op.CONDITIONAL_OR =>
      match l, r with
      | (TypeId.INTEGER | TypeId.BOOL), (TypeId.INTEGER | TypeId.BOOL) => Some TypeId.BOOL
      | _, _ => None
      end
  | _ =>
      if decide (l = r) then
        match l with
        | TypeId.INTEGER | TypeId.DOUBLE => Some (if is_arithmetic op then l else TypeId.BOOL)
        | TypeId.STRING =>
            if decide (op = Op.PLUS) then Some TypeId.STRING
            else if is_comparison op then Some TypeId.BOOL else None
        | _ => None
        end
      else None
  end.

Definition all_typed (ty : Expression → option TypeId.type_id) (es : list Expression) : bool :=
  forallb (λ e, bool_decide (is_Some (ty e))) es.

Fixpoint typeof (Γ : cstr → option TypeId.type_id) (e : Expression) : option TypeId.type_id :=
  match e with
  | PrimaryExpression v => Some (if is_int (mvalue v) then TypeId.INTEGER else TypeId.STRING)
  | BinaryExpression l op r => tl ← typeof Γ l; tr ← typeof Γ r; op_type tl op tr
  | VariableReference n => Γ n
  | FunctionCall _ args => if all_typed (typeof Γ) args then Some TypeId.INTEGER else None
  | Assign t v => _ ← typeof Γ t; typeof Γ v
  | _ => None
  end.

(** Unfold the methods of one node. *)
Ltac open_expr :=
  cbn [typeof analyze_expr];
  unfold analyze_primary, analyze_binary, analyze_row, analyze_array, analyze_variable,
    analyze_call, analyze_array_ref, analyze_member, analyze_assign.
Ltac open_dump :=
  cbn [dump_expr];
  unfold dump_primary, dump_binary, dump_pointer, dump_variable, dump_array_ref, dump_member,
    dump_assign, dump_row, dump_array, dump_call.

(** Expressions of literals, variables, operators, calls and assignments. *)
Fixpoint scalar_expr (e : Expression) : bool :=
  match e with
  | PrimaryExpression v => exists_ v && (is_int (mvalue v) || is_varchar (mvalue v))
  | BinaryExpression l _ r => scalar_expr l && scalar_expr r
  | VariableReference _ => true
  | FunctionCall _ args => forallb scalar_expr args
  | Assign t v => scalar_expr t && scalar_expr v
  | _ => false
  end.

(** The type id a pointer leads to. *)
Definition ptr_id (st : ctx) (p : tptr) : option TypeId.type_id :=
  l ← p; obj_id <$> types st !! l.
Definition var_id (st : ctx) (n : cstr) : option TypeId.type_id :=
  p ← variable_type_table_ st !! n; ptr_id st p.

(** The built-in names still have their types, and every variable has a scalar one. *)
Definition scalar_ctx (st : ctx) : Prop :=
  (∃ p, analyze_type_table_ st !! lit "integer" = Some p ∧ ptr_id st p = Some TypeId.INTEGER) ∧
  (∃ p, analyze_type_table_ st !! lit "string" = Some p ∧ ptr_id st p = Some TypeId.STRING) ∧
  (∃ p, analyze_type_table_ st !! lit "bool" = Some p ∧ ptr_id st p = Some TypeId.BOOL) ∧
  map_Forall (λ _ p, ∃ t, ptr_id st p = Some t ∧ is_scalar t = true) (variable_type_table_ st).

Lemma ptr_id_deref st p t : ptr_id st p = Some t → ∃ o, deref st p = Ok o ∧ obj_id o = t.
Proof.
  unfold ptr_id, deref. destruct p as [l|]; simpl; [|done].
  destruct (types st !! l) as [o|]; simpl; [|done]. intros [= <-]. eauto.
Qed.

Lemma table_at_Some st k p : analyze_type_table_ st !! k = Some p → table_at st k = (st, p).
Proof. intros H. unfold table_at. by rewrite H. Qed.

(** What [operate] makes of two scalar types. *)
Lemma operate_scalar st lp lo ro op :
  scalar_ctx st → ptr_id st lp = Some (obj_id lo) →
  is_scalar (obj_id lo) = true → is_scalar (obj_id ro) = true →
  match op_type (obj_id lo) op (obj_id ro) with
  | Some t => ∃ p, operate st lp lo ro op = Ok (st, p) ∧ ptr_id st p = Some t ∧ is_scalar t = true
  | None => ∃ w, operate st lp lo ro op = Throw w
  end.
Proof.
  intros ((ip & Hi & Ti) & (sp & Hs & Ts) & (bp & Hb & Tb) & _) Hl Sl Sr.
  unfold operate. rewrite (table_at_Some _ _ _ Hs), (table_at_Some _ _ _ Hb).
  destruct (obj_id lo); try done; destruct op; destruct (obj_id ro); try done; simpl; eauto.
Qed.

(** The analysis of [e] in [st] follows the typing rules. *)
Definition follows_rules (show_double : Z → cstr) (st : ctx) (e : Expression) : Prop :=
  match typeof (var_id st) e with
  | Some t => ∃ p, analyze_expr show_double e st = Ok (st, p) ∧ ptr_id st p = Some t ∧ is_scalar t = true
  | None => ∃ w, analyze_expr show_double e st = Throw w
  end.

Section scalar.
Context (show_double : Z → cstr) (st : ctx) (Hst : scalar_ctx st).

Lemma primary_scalar v :
  exists_ v && (is_int (mvalue v) || is_varchar (mvalue v)) = true →
  follows_rules show_double st (PrimaryExpression v).
Proof using Hst.
  intros [He Hv]%andb_true_iff.
  destruct Hst as ((ip & Hi & Ti) & (sp & Hs & Ts) & _).
  unfold follows_rules. open_expr. rewrite He.
  destruct (is_int (mvalue v)); [rewrite (table_at_Some _ _ _ Hi); by exists ip|].
  simpl in Hv. rewrite Hv, (table_at_Some _ _ _ Hs). by exists sp.
Qed.

Lemma variable_scalar n : follows_rules show_double st (VariableReference n).
Proof using Hst.
  destruct Hst as (_ & _ & _ & Hv). unfold follows_rules, var_id. open_expr.
  destruct (variable_type_table_ st !! n) as [p|] eqn:E; simpl; [|eauto].
  destruct (Hv _ _ E) as (t & Ht & Hs). rewrite Ht. eauto.
Qed.

Lemma binary_scalar l op r :
  follows_rules show_double st l → follows_rules show_double st r →
  follows_rules show_double st (BinaryExpression l op r).
Proof using Hst.
  unfold follows_rules. open_expr. intros Hl Hr.
  destruct (typeof (var_id st) l) as [tl|]; simpl; [|by destruct Hl as (w & ->); eauto].
  destruct Hl as (lp & -> & Tl & Sl). simpl.
  destruct (typeof (var_id st) r) as [tr|]; simpl; [|by destruct Hr as (w & ->); eauto].
  destruct Hr as (rp & -> & Tr & Sr). simpl.
  destruct (ptr_id_deref _ _ _ Tl) as (lo & -> & <-), (ptr_id_deref _ _ _ Tr) as (ro & -> & <-). simpl.
  by apply operate_scalar.
Qed.

Lemma call_scalar p args :
  Forall (follows_rules show_double st) args → follows_rules show_double st (FunctionCall p args).
Proof using Hst.
  intros Ha. destruct Hst as ((ip & Hi & Ti) & _).
  unfold follows_rules. open_expr. rewrite (table_at_Some _ _ _ Hi).
  assert (if all_typed (typeof (var_id st)) args
          then analyze_args (analyze_expr show_double) args st = Ok st
          else ∃ w, analyze_args (analyze_expr show_double) args st = Throw w) as Hg.
  { induction Ha as [|e args He Ha IH]; [done|]. unfold follows_rules in He.
    cbn [all_typed forallb analyze_args] in *. destruct (typeof (var_id st) e); simpl.
    - destruct He as (q & -> & _). apply IH.
    - destruct He as (w & ->). simpl. eauto. }
  destruct (all_typed _ args); [rewrite Hg; simpl; eauto|]. destruct Hg as (w & ->). simpl. eauto.
Qed.

Lemma assign_scalar t v :
  follows_rules show_double st t → follows_rules show_double st v →
  follows_rules show_double st (Assign t v).
Proof using Type.
  unfold follows_rules. open_expr. intros Ht Hv.
  destruct (typeof (var_id st) t); simpl; [|by destruct Ht as (w & ->); eauto].
  destruct Ht as (p & -> & _). simpl. done.
Qed.

Lemma scalar_rules e : scalar_expr e = true → follows_rules show_double st e.
Proof using Hst.
  induction e using Expression_rect'; cbn [scalar_expr]; intros Hs; try done.
  - by apply primary_scalar.
  - apply andb_true_iff in Hs as [? ?]. apply binary_scalar; auto.
  - apply variable_scalar.
  - apply call_scalar. apply Forall_forall. intros x Hx. rewrite Forall_forall in H.
    rewrite forallb_forall in Hs. apply H; [done|]. apply Hs. by apply list_elem_of_In.
  - apply andb_true_iff in Hs as [? ?]. apply assign_scalar; auto.
Qed.
End scalar.

(** ** Memory safety of the analysis *)

(** A pointer to one of the first [n] types. *)
Definition valid (n : nat) (p : tptr) : Prop := match p with Some l => l < n | None => False end.

(** A type at position [l] refers to earlier ones only, one for each of its names. *)
Definition obj_ok (l : nat) (o : TypeObj) : Prop :=
  match o with
  | OTuple _ ns ps => length ns = length ps ∧ Forall (valid l) ps
  | _ => True
  end.

Definition builtins : list cstr := [lit "integer"; lit "string"; lit "double"; lit "bool"].

(** No null pointers anywhere, and the built-in names are there. *)
Definition solid (st : ctx) : Prop :=
  (∀ l o, types st !! l = Some o → obj_ok l o) ∧
  map_Forall (λ _ p, valid (length (types st)) p) (analyze_type_table_ st) ∧
  map_Forall (λ _ p, valid (length (types st)) p) (variable_type_table_ st) ∧
  Forall (λ k, is_Some (analyze_type_table_ st !! k)) builtins.

(** [st'] knows more than [st]. *)
Definition grows (st st' : ctx) : Prop :=
  length (types st) ≤ length (types st') ∧
  ∀ k, is_Some (analyze_type_table_ st !! k) → is_Some (analyze_type_table_ st' !! k).

#[export] Instance grows_preorder : PreOrder grows.
Proof.
  split.
  - by intros st.
  - intros a b c [H1 H2] [H3 H4]. split; [lia|auto].
Qed.

(** A run from [st] that ends well leaves a solid context, and a pointer that is not null. *)
Definition good (st : ctx) (r : result (ctx * tptr)) : Prop :=
  match r with
  | Ok (st', p) => solid st' ∧ grows st st' ∧ valid (length (types st')) p
  | Throw _ => True
  | _ => False
  end.

Definition good_list (st : ctx) (r : result (ctx * list tptr)) : Prop :=
  match r with
  | Ok (st', ps) => solid st' ∧ grows st st' ∧ Forall (valid (length (types st'))) ps
  | Throw _ => True
  | _ => False
  end.

Definition good_ctx (st : ctx) (r : result ctx) : Prop :=
  match r with
  | Ok st' => solid st' ∧ grows st st'
  | Throw _ => True
  | _ => False
  end.

Lemma valid_mono n m p : valid n p → n ≤ m → valid m p.
Proof. destruct p; simpl; lia. Qed.

Lemma valid_deref st p : valid (length (types st)) p → ∃ l o, p = Some l ∧ types st !! l = Some o ∧ deref st p = Ok o.
Proof.
  destruct p as [l|]; simpl; [|done]. intros [o Ho]%lookup_lt_is_Some_2. rewrite Ho. eauto.
Qed.

Lemma table_at_builtin st k : solid st → k ∈ builtins → good st (Ok (table_at st k)).
Proof.
  intros Hs Hk. pose proof Hs as (_ & Ht & _ & Hb). rewrite Forall_forall in Hb.
  destruct (Hb k Hk) as [p Hp]. rewrite (table_at_Some _ _ _ Hp). simpl.
  split; [done|]. split; [done|]. by apply (Ht k).
Qed.

Lemma solid_new_type st o st' p :
  solid st → obj_ok (length (types st)) o → new_type st o = (st', p) →
  solid st' ∧ grows st st' ∧ valid (length (types st')) p.
Proof.
  intros (Ho & Ht & Hv & Hb) Hok [= <- <-]. unfold solid, grows. simpl. rewrite length_app. simpl.
  split_and!; try done; try lia.
  - intros l o' Hl. apply lookup_app_Some in Hl as [Hl|[Hl1 Hl2]]; [by eapply Ho|].
    apply list_lookup_singleton_Some in Hl2 as [Hl2 <-]. by replace l with (length (types st)) by lia.
  - intros k q Hq. eapply valid_mono; [by apply (Ht k)|lia].
  - intros k q Hq. eapply valid_mono; [by apply (Hv k)|lia].
Qed.

Lemma solid_set_type st k p :
  solid st → valid (length (types st)) p → solid (set_type st k p) ∧ grows st (set_type st k p).
Proof.
  intros (Ho & Ht & Hv & Hb) Hp. unfold solid, grows. simpl. split_and!; try done.
  - by apply map_Forall_insert_2.
  - eapply Forall_impl; [done|]. intros x Hx. simpl in *. destruct (decide (x = k)) as [->|].
    + rewrite lookup_insert_eq. eauto.
    + by rewrite lookup_insert_ne.
  - intros x Hx. destruct (decide (x = k)) as [->|]; [rewrite lookup_insert_eq; eauto|].
    by rewrite lookup_insert_ne.
Qed.

Lemma solid_set_variable st k p :
  solid st → valid (length (types st)) p → solid (set_variable st k p) ∧ grows st (set_variable st k p).
Proof.
  intros (Ho & Ht & Hv & Hb) Hp. unfold solid, grows. simpl. split_and!; try done.
  by apply map_Forall_insert_2.
Qed.

Lemma solid_register st s p :
  solid st → valid (length (types st)) p → solid (register st s p) ∧ grows st (register st s p).
Proof. intros Hs Hp. destruct (solid_set_type st (lit s ++ show_N (addresses st)) p Hs Hp). done. Qed.

Lemma good_bind st r k :
  good st r →
  (∀ st' p, solid st' → grows st st' → valid (length (types st')) p → good st (k (st', p))) →
  good st (r ≫= k).
Proof. destruct r as [[st' p]| | | |]; simpl; naive_solver. Qed.

Lemma good_trans st st' r : grows st st' → good st' r → good st r.
Proof. intros Hg. destruct r as [[st'' p]| | | |]; simpl; try done. intros (? & ? & ?). split_and!; [done|by etrans|done]. Qed.

(** Dumps of solid contexts end. *)
Lemma dump_type_ok st fuel l o :
  solid st → types st !! l = Some o → l < fuel → ∃ s, dump_type fuel st o = Ok s.
Proof.
  intros Hs. revert l o. induction fuel as [|fuel IH]; intros l o Hl Hf; [lia|]. cbn [dump_type].
  destruct o as [t|t|t ns ps]; [eauto|eauto|].
  destruct Hs as (Ho & _). destruct (Ho _ _ Hl) as [Hlen Hv].
  assert (∀ qs i, i + length qs = length ns → Forall (valid l) qs →
            ∃ s, dump_parts (dump_type fuel st) st ns i qs = Ok s) as Hg.
  { induction qs as [|q qs IHq]; intros i Hi Hq; cbn [dump_parts]; [eauto|].
    inversion Hq as [|? ? Hv1 Hv2]; subst. destruct q as [k|]; [|done]. simpl in Hv1.
    assert (k < length (types st)) as [ok Hk]%lookup_lt_is_Some_2
      by (apply lookup_lt_Some in Hl; lia).
    unfold deref. rewrite Hk. cbn [mbind result_bind]. destruct (IH k ok Hk) as [s ->]; [lia|].
    unfold at_index. destruct (lookup_lt_is_Some_2 ns i) as [n ->]; [simpl in Hi; lia|].
    cbn [mbind result_bind]. destruct (IHq (S i)) as [r ->]; [simpl in Hi; lia|done|]. simpl. eauto. }
  destruct (Hg ps 0) as [s ->]; [lia|done|]. simpl. eauto.
Qed.

(** Operators whose names [op_to_string] knows. *)
Definition named_op (op : Op.operators) : bool :=
  match op with Op.CONDITIONAL_OR | Op.NONE => false | _ => true end.

Lemma operate_unknown_throws st lp lo rp ro op :
  solid st → types st !! lp = Some lo → types st !! rp = Some ro → named_op op = true →
  ∃ w, operate_unknown st lo ro op = Throw w.
Proof.
  intros Hs Hl Hr Hop. unfold operate_unknown.
  destruct (dump_type_ok st (S (length (types st))) lp lo Hs Hl) as [a ->];
    [apply lookup_lt_Some in Hl; lia|]. cbn [mbind result_bind].
  assert (∃ s, op_to_string op = Ok s) as [s ->] by (destruct op; try done; eexists; reflexivity). cbn [mbind result_bind].
  destruct (dump_type_ok st (S (length (types st))) rp ro Hs Hr) as [b ->];
    [apply lookup_lt_Some in Hr; lia|]. cbn [mbind result_bind]. eauto.
Qed.

Lemma operate_good st lp lo rp ro op :
  solid st → types st !! lp = Some lo → types st !! rp = Some ro → named_op op = true →
  good st (operate st (Some lp) lo ro op).
Proof.
  intros Hs Hl Hr Hop.
  assert (good st (Ok (table_at st (lit "bool")))) as Hb by (apply table_at_builtin; [done|set_solver]).
  assert (good st (Ok (table_at st (lit "string")))) as Hst by (apply table_at_builtin; [done|set_solver]).
  assert (good st (Ok (st, Some lp))) as Hlp.
  { split; [done|]. split; [done|]. simpl. by apply lookup_lt_Some in Hl. }
  destruct (operate_unknown_throws st lp lo rp ro op Hs Hl Hr Hop) as [w Hw].
  unfold operate. rewrite Hw.
  destruct (obj_id lo); try done; destruct op; try done; repeat case_match; done.
Qed.

(** Expressions without [&], [||] and null parts. *)
Fixpoint safe_expr (e : Expression) : bool :=
  match e with
  | PrimaryExpression v => exists_ v
  | BinaryExpression l op r => named_op op && safe_expr l && safe_expr r
  | PointerOf _ => false
  | RowLiteral es | ArrayLiteral es => forallb safe_expr es
  | VariableReference _ => true
  | FunctionCall p args => safe_expr p && forallb safe_expr args
  | ArrayReference None _ => false
  | ArrayReference (Some p) i => safe_expr p && safe_expr i
  | MemberReference p _ => safe_expr p
  | Assign t v => safe_expr t && safe_expr v
  end.

Lemma Forall_safe (P : Expression → Prop) es :
  Forall (λ e, safe_expr e = true → P e) es → forallb safe_expr es = true → Forall P es.
Proof. induction 1; simpl; intros; [constructor|]. apply andb_true_iff in H1 as [? ?]. constructor; auto. Qed.

Lemma dump_items_ok show_double es i :
  Forall (λ e, ∃ s, dump_expr show_double e = Ok s) es →
  ∃ s, dump_items (dump_expr show_double) i es = Ok s.
Proof.
  intros H. revert i. induction H as [|e es [s He] _ IH]; intros i; cbn [dump_items]; [eauto|].
  rewrite He. cbn [mbind result_bind]. destruct (IH (S i)) as [r ->]. simpl. eauto.
Qed.

(** Split the tests of [safe_expr] and run the parts known to return. *)
Ltac safe_parts :=
  repeat match goal with
  | H : _ && _ = true |- _ => apply andb_true_iff in H as [? ?]
  | H : Forall _ ?es, H' : forallb safe_expr ?es = true |- _ =>
      apply Forall_safe in H; [clear H'|exact H']
  | IH : safe_expr ?e = true → _, H : safe_expr ?e = true |- _ => specialize (IH H)
  end.

Lemma dump_expr_ok show_double e : safe_expr e = true → ∃ s, dump_expr show_double e = Ok s.
Proof.
  induction e using Expression_rect'; intros Hs; cbn [safe_expr] in Hs;
    try (destruct p; [|done]; specialize (H _ eq_refl)); safe_parts; open_dump; try done;
    repeat match goal with
    | H : ∃ s, dump_expr _ _ = Ok s |- _ => destruct H as [? ->]
    | H : Forall _ ?es |- context [dump_items _ ?i ?es] =>
        destruct (dump_items_ok show_double es i H) as [? ->]
    end; simpl; eauto.
Qed.

Section safety.
Context (show_double : Z → cstr).
Abbreviation analyze := (analyze_expr show_double).

(** [e] is analysed well in every solid context. *)
Definition analyzes (e : Expression) : Prop := ∀ st, solid st → good st (analyze e st).

Lemma elements_good es st :
  Forall analyzes es → solid st → good_list st (analyze_elements analyze es st).
Proof using Type.
  intros He. revert st. induction He as [|e es He _ IH]; intros st Hs; cbn [analyze_elements].
  { by split_and!. }
  specialize (He st Hs). destruct (analyze e st) as [[st1 p]| | | |]; try done. simpl in *.
  destruct He as (Hs1 & Hg1 & Hp). destruct p as [l|]; [|done].
  specialize (IH st1 Hs1). destruct (analyze_elements analyze es st1) as [[st2 ps]| | | |]; try done.
  simpl in *. destruct IH as (Hs2 & Hg2 & Hps). split_and!; [done|by etrans|].
  constructor; [|done]. eapply valid_mono; [exact Hp|]. apply Hg2.
Qed.

Lemma args_good es st :
  Forall analyzes es → solid st → good_ctx st (analyze_args analyze es st).
Proof using Type.
  intros He. revert st. induction He as [|e es He _ IH]; intros st Hs; cbn [analyze_args].
  { by split_and!. }
  specialize (He st Hs). destruct (analyze e st) as [[st1 p]| | | |]; try done. simpl in *.
  destruct He as (Hs1 & Hg1 & Hp). specialize (IH st1 Hs1).
  destruct (analyze_args analyze es st1); try done. simpl in *. destruct IH. split; [done|by etrans].
Qed.

Lemma register_good st o s :
  solid st → obj_ok (length (types st)) o →
  good st (let '(st, p) := new_type st o in Ok (register st s p, p)).
Proof using Type.
  intros Hs Ho. destruct (new_type st o) as [st1 p] eqn:E.
  destruct (solid_new_type st o st1 p Hs Ho E) as (Hs1 & Hg1 & Hp).
  destruct (solid_register st1 s p Hs1 Hp) as [Hs2 Hg2]. split_and!; [done|by etrans|done].
Qed.

Lemma row_good es : Forall analyzes es → analyzes (RowLiteral es).
Proof using Type.
  intros He st Hs. open_expr. pose proof (elements_good es st He Hs) as Hg.
  destruct (analyze_elements analyze es st) as [[st1 ps]| | | |]; try done.
  destruct Hg as (Hs1 & Hg1 & Hps). cbn [mbind result_bind]. eapply good_trans; [done|].
  apply register_good; [done|]. simpl. by rewrite length_replicate.
Qed.

Lemma array_good es : Forall analyzes es → analyzes (ArrayLiteral es).
Proof using Type.
  intros He st Hs. destruct es as [|e es]; [done|]. open_expr. apply Forall_inv in He.
  apply good_bind; [by apply He|]. intros st1 p Hs1 Hg1 Hp.
  destruct (valid_deref _ _ Hp) as (l & o & -> & _ & ->). cbn [mbind result_bind].
  eapply good_trans; [done|]. by apply register_good.
Qed.

Lemma binary_good l op r : named_op op = true → analyzes l → analyzes r → analyzes (BinaryExpression l op r).
Proof using Type.
  intros Hop Hl Hr st Hs. open_expr.
  apply good_bind; [by apply Hl|]. intros st1 lp Hs1 Hg1 Hlp. eapply good_trans; [done|].
  apply good_bind; [by apply Hr|]. intros st2 rp Hs2 Hg2 Hrp. eapply good_trans; [done|].
  destruct (valid_deref st2 lp) as (a & lo & -> & Ha & ->); [eapply valid_mono; [done|apply Hg2]|].
  destruct (valid_deref st2 rp) as (b & ro & -> & Hb & ->); [done|]. cbn [mbind result_bind].
  by eapply operate_good.
Qed.

Lemma call_good p args : Forall analyzes args → analyzes (FunctionCall p args).
Proof using Type.
  intros Ha st Hs. open_expr.
  assert (good st (Ok (table_at st (lit "integer")))) as Hi by (apply table_at_builtin; [done|set_solver]).
  destruct (table_at st (lit "integer")) as [st1 q]. destruct Hi as (Hs1 & Hg1 & Hq).
  pose proof (args_good args st1 Ha Hs1) as Hg.
  destruct (analyze_args analyze args st1) as [st2| | | |]; try done. destruct Hg as [Hs2 Hg2]. simpl.
  split_and!; [done|by etrans|]. eapply valid_mono; [done|apply Hg2].
Qed.

Lemma arrayref_good p i : analyzes p → analyzes i → analyzes (ArrayReference (Some p) i).
Proof using Type.
  intros Hp Hi st Hs. open_expr.
  apply good_bind; [by apply Hp|]. intros st1 pp Hs1 Hg1 Hpp. eapply good_trans; [done|].
  apply good_bind; [by apply Hi|]. intros st2 q Hs2 Hg2 _.
  assert (valid (length (types st2)) pp) as Hpp2 by (eapply valid_mono; [done|apply Hg2]).
  destruct (valid_deref _ _ Hpp2) as (l & o & -> & _ & ->). cbn [mbind result_bind]. by destruct o.
Qed.

Lemma find_member_lt n ns i j : find_member n ns i = Some j → j < i + length ns.
Proof using Type.
  revert i. induction ns as [|m ns IH]; intros i; simpl; [done|].
  case_decide; intros Hj; [injection Hj as <-; lia|]. apply IH in Hj. lia.
Qed.

Lemma member_good p n : safe_expr p = true → analyzes p → analyzes (MemberReference p n).
Proof using Type.
  intros Hsafe Hp st Hs. open_expr.
  apply good_bind; [by apply Hp|]. intros st1 pp Hs1 Hg1 Hpp. eapply good_trans; [done|].
  destruct (valid_deref _ _ Hpp) as (l & o & -> & Hl & ->). cbn [mbind result_bind].
  destruct o as [|?|t ns ps]; [done|done|]. pose proof Hs1 as (Ho & _). destruct (Ho _ _ Hl) as [Hlen Hv].
  destruct (find_member n ns 0) as [i|] eqn:E.
  - apply find_member_lt in E. unfold at_index.
    destruct (lookup_lt_is_Some_2 ps i) as [q Hq]; [simpl in E; lia|]. rewrite Hq. simpl.
    split_and!; [done|done|]. rewrite Forall_forall in Hv. eapply valid_mono.
    + apply Hv. by eapply list_elem_of_lookup_2.
    + simpl in Hpp. lia.
  - destruct (dump_expr_ok show_double p Hsafe) as [a ->]. cbn [mbind result_bind].
    destruct (dump_type_ok st1 (S (length (types st1))) l _ Hs1 Hl) as [b ->]; [simpl in Hpp; lia|]. done.
Qed.

Lemma safe_analyzes e : safe_expr e = true → analyzes e.
Proof using Type.
  induction e using Expression_rect'; intros Hs; cbn [safe_expr] in Hs;
    try (destruct p; [|done]; specialize (H _ eq_refl)); safe_parts; try done.
  - intros st Hst. open_expr. rewrite Hs.
    repeat case_match; try (apply table_at_builtin; [done|set_solver]); done.
  - by apply binary_good.
  - by apply row_good.
  - by apply array_good.
  - intros st Hst. open_expr. destruct (variable_type_table_ st !! n) as [q|] eqn:E; [|done].
    split_and!; [done|done|]. destruct Hst as (_ & _ & Hv & _). by apply (Hv n).
  - by apply call_good.
  - by apply arrayref_good.
  - by apply member_good.
  - intros st Hst. open_expr. apply good_bind; [by apply IHe1|]. intros st1 q Hs1 Hg1 _.
    eapply good_trans; [done|]. by apply IHe2.
Qed.
End safety.

(** ** Statements *)

Definition decl_ok (d : TupleDecl) : bool := bool_decide (length (names_ d) = length (type_names_ d)).

(** The check of statements that the analysis itself does not make: no null parts, and every scanned
    table defined before.  [D] are the type names known so far; the result those known after. *)
Section scope_list.
Context (scope : gset cstr → Statement → option (gset cstr)).
Fixpoint scope_statements (D : gset cstr) (l : list Statement) : option (gset cstr) :=
  match l with
  | [] => Some D
  | s :: l => D ← scope D s; scope_statements D l
  end.
End scope_list.

Fixpoint scope (D : gset cstr) (s : Statement) : option (gset cstr) :=
  let block := scope_statements scope in
  match s with
  | Block l | Transaction _ l => block D l
  | Define None _ => None
  | Define (Some d) n | DefineTuple n d => if decl_ok d then Some ({[n]} ∪ D) else None
  | For (Some i) (Some c) (Some e) l =>
      D ← scope D i; if safe_expr c && safe_expr e then block D l else None
  | For _ _ _ _ => None
  | Jump _ => Some D
  | Emit e | Insert _ e | ExprStatement e => if safe_expr e then Some D else None
  | Scan t _ l => if decide (t ∈ D) then block D l else None
  | Let n e ty =>
      if safe_expr e then
        match e, ty with
        | RowLiteral _, Some (TupleType d) => if decl_ok d then Some ({[n]} ∪ D) else None
        | RowLiteral _, Some _ => None
        | ArrayLiteral _, _ => Some ({[n]} ∪ D)
        | _, _ => Some D
        end
      else None
  | If c t f =>
      if safe_expr c then
        D ← block D t; match f with Some f => block D f | None => Some D end
      else None
  end.

Ltac open_stmt :=
  cbn [scope analyze_stmt] in *;
  unfold analyze_define, analyze_define_tuple, analyze_value, analyze_for, analyze_scan, analyze_if in *.

(** The names of [D] are in the type table. *)
Definition knows (st : ctx) (D : gset cstr) : Prop :=
  ∀ k, k ∈ D → is_Some (analyze_type_table_ st !! k).

(** Well-behaved analysis of a statement: the context stays solid and knows the names it should. *)
Definition good_stmt (D' : gset cstr) (r : result ctx) : Prop :=
  match r with
  | Ok st' => solid st' ∧ knows st' D'
  | Throw _ => True
  | _ => False
  end.

Lemma good_stmt_bind D1 D2 r k :
  good_stmt D1 r → (∀ st, solid st → knows st D1 → good_stmt D2 (k st)) → good_stmt D2 (r ≫= k).
Proof. destruct r; simpl; naive_solver. Qed.

Lemma knows_grows st st' D : knows st D → grows st st' → knows st' D.
Proof. intros Hk [_ Hg] k Hin. auto. Qed.

Lemma knows_set_type st D n p : knows st D → knows (set_type st n p) ({[n]} ∪ D).
Proof.
  intros Hk k [->%elem_of_singleton|Hin]%elem_of_union; simpl.
  - rewrite lookup_insert_eq. eauto.
  - destruct (decide (k = n)) as [->|]; [rewrite lookup_insert_eq; eauto|].
    rewrite lookup_insert_ne by done. auto.
Qed.

Lemma good_then_stmt st r D D' k :
  good st r → knows st D →
  (∀ st' p, solid st' → knows st' D → valid (length (types st')) p → good_stmt D' (k (st', p))) →
  good_stmt D' (r ≫= k).
Proof.
  destruct r as [[st' p]| | | |]; simpl; try done. intros (Hs & Hg & Hp) Hk H. apply H; try done.
  by eapply knows_grows.
Qed.

Lemma lookup_type_names_good st tns : solid st → good_list st (lookup_type_names st tns).
Proof.
  revert st. induction tns as [|tn tns IH]; intros st Hs; cbn [lookup_type_names].
  { by split_and!. }
  assert (good st (lookup_type_name st tn)) as Hg.
  { unfold lookup_type_name. repeat case_decide; try (apply table_at_builtin; [done|set_solver]).
    destruct (analyze_type_table_ st !! tn) as [p|] eqn:E; [|done]. split_and!; [done|done|].
    destruct Hs as (_ & Ht & _). by apply (Ht tn). }
  destruct (lookup_type_name st tn) as [[st1 p]| | | |]; try done. destruct Hg as (Hs1 & Hg1 & Hp).
  cbn [mbind result_bind]. specialize (IH st1 Hs1).
  destruct (lookup_type_names st1 tns) as [[st2 ps]| | | |]; try done. destruct IH as (Hs2 & Hg2 & Hps).
  split_and!; [done|by etrans|]. constructor; [|done]. eapply valid_mono; [done|apply Hg2].
Qed.

Lemma lookup_type_names_length st tns st' ps :
  lookup_type_names st tns = Ok (st', ps) → length ps = length tns.
Proof.
  revert st ps. induction tns as [|tn tns IH]; intros st ps H; simpl in H; [by inv_ok|].
  inv_prog. simplify_eq. simpl. f_equal. eauto.
Qed.

Lemma tuple_analyze_good st d : solid st → decl_ok d = true → good st (tuple_analyze st d).
Proof.
  intros Hs Hd%bool_decide_eq_true. unfold tuple_analyze.
  pose proof (lookup_type_names_good st (type_names_ d) Hs) as Hg.
  destruct (lookup_type_names st (type_names_ d)) as [[st1 ps]| | | |] eqn:E; try done.
  destruct Hg as (Hs1 & Hg1 & Hps). cbn [mbind result_bind]. apply lookup_type_names_length in E.
  assert (obj_ok (length (types st1)) (OTuple TypeId.TUPLE (names_ d) ps)) as Ho by (split; [lia|done]).
  destruct (new_type st1 _) as [st2 p] eqn:En.
  destruct (solid_new_type _ _ _ _ Hs1 Ho En) as (? & ? & ?).
  split_and!; [done|by etrans|done].
Qed.

Section stmt_safety.
Context (show_double : Z → cstr).

(** [s] is analysed well whenever the scope check passes. *)
Definition stmt_analyzes (s : Statement) : Prop :=
  ∀ st D D', solid st → knows st D → scope D s = Some D' →
    good_stmt D' (analyze_stmt show_double s st).

Lemma statements_good l :
  Forall stmt_analyzes l → ∀ st D D', solid st → knows st D → scope_statements scope D l = Some D' →
    good_stmt D' (analyze_statements (analyze_stmt show_double) l st).
Proof using Type.
  induction 1 as [|s l Hs _ IH]; intros st D D' Hst Hk Hsc; cbn [scope_statements analyze_statements] in *.
  - by injection Hsc as <-.
  - apply bind_Some in Hsc as (D1 & H1 & H2). eapply good_stmt_bind; [by eapply Hs|].
    intros st1 Hs1 Hk1. by eapply IH.
Qed.

(** An expression statement. *)
Lemma expr_stmt_good e st D :
  solid st → knows st D → safe_expr e = true →
  good_stmt D ('(st, _) ← analyze_expr show_double e st; Ok st).
Proof using Type.
  intros Hs Hk He. eapply good_then_stmt; [by apply safe_analyzes|done|]. intros st1 p Hs1 Hk1 _. done.
Qed.

(** Naming a type. *)
Lemma define_good st D n d :
  solid st → knows st D → decl_ok d = true →
  good_stmt ({[n]} ∪ D) ('(st, p) ← tuple_analyze st d; Ok (set_type st n p)).
Proof using Type.
  intros Hs Hk Hd. eapply good_then_stmt; [by apply tuple_analyze_good|done|]. intros st1 p Hs1 Hk1 Hp.
  split; [by apply solid_set_type|]. by apply knows_set_type.
Qed.

Lemma variable_good st D n p :
  solid st → knows st D → valid (length (types st)) p → good_stmt D (Ok (set_variable st n p)).
Proof using Type. intros Hs Hk Hp. split; [by apply solid_set_variable|done]. Qed.

Lemma named_variable_good st D n p :
  solid st → knows st D → valid (length (types st)) p →
  good_stmt ({[n]} ∪ D) (Ok (set_variable (set_type st n p) n p)).
Proof using Type.
  intros Hs Hk Hp. destruct (solid_set_type st n p Hs Hp) as [Hs1 _].
  split; [by apply solid_set_variable|]. by apply (knows_set_type st D n p).
Qed.

Lemma let_good n e ty : stmt_analyzes (Let n e ty).
Proof using Type.
  intros st D D' Hs Hk Hsc. open_stmt. unfold analyze_let.
  destruct (safe_expr e) eqn:He; [|done].
  eapply good_then_stmt; [by apply safe_analyzes|done|]. intros st1 p Hs1 Hk1 Hp.
  destruct e; try (destruct ty; [done|injection Hsc as <-; by apply variable_good]).
  - destruct ty as [[]|]; try done; [|injection Hsc as <-; by apply variable_good].
    destruct (decl_ok decl) eqn:Hd; [|done]. injection Hsc as <-.
    eapply good_then_stmt; [by apply tuple_analyze_good|done|]. intros. by apply named_variable_good.
  - injection Hsc as <-. destruct (valid_deref _ _ Hp) as (l & o & -> & _ & ->). cbn [mbind result_bind].
    destruct (new_type st1 (OArray (obj_id o))) as [st2 q] eqn:En.
    destruct (solid_new_type st1 (OArray (obj_id o)) _ _ Hs1 I En) as (Hs2 & Hg2 & Hq).
    apply named_variable_good; [done|by eapply knows_grows|done].
Qed.

Lemma scan_good t r l : Forall stmt_analyzes l → stmt_analyzes (Scan t r l).
Proof using Type.
  intros Hl st D D' Hs Hk Hsc. open_stmt. case_decide as Ht; [|done].
  assert (solid (schema_at st t) ∧ knows (schema_at st t) D) as [Hs1 Hk1]
    by (unfold schema_at; by destruct (local_schema_table_ st !! t)).
  destruct (Hk1 t Ht) as [p Hp]. rewrite (table_at_Some _ _ _ Hp).
  assert (valid (length (types (schema_at st t))) p) as Hv
    by (destruct Hs1 as (_ & Htt & _); by apply (Htt t)).
  destruct (variable_good _ D r p Hs1 Hk1 Hv) as [Hs2 Hk2]. by eapply statements_good.
Qed.

Lemma for_good i c e l :
  (∀ s, i = Some s → stmt_analyzes s) → Forall stmt_analyzes l → stmt_analyzes (For i c e l).
Proof using Type.
  intros Hi Hl st D D' Hs Hk Hsc. open_stmt.
  destruct i as [i|]; [|done]. destruct c as [c|]; [|done]. destruct e as [e|]; [|done].
  apply bind_Some in Hsc as (D1 & H1 & Hsc).
  destruct (safe_expr c) eqn:Hc; [|done]. destruct (safe_expr e) eqn:He; [|done]. simpl in Hsc.
  eapply good_stmt_bind; [by eapply Hi|]. intros st1 Hs1 Hk1.
  eapply good_stmt_bind; [by apply expr_stmt_good|]. intros st2 Hs2 Hk2.
  eapply good_stmt_bind; [by apply expr_stmt_good|]. intros st3 Hs3 Hk3.
  by eapply statements_good.
Qed.

Lemma if_good c t f :
  Forall stmt_analyzes t → (∀ l, f = Some l → Forall stmt_analyzes l) → stmt_analyzes (If c t f).
Proof using Type.
  intros Ht Hf st D D' Hs Hk Hsc. open_stmt.
  destruct (safe_expr c) eqn:Hc; [|done]. apply bind_Some in Hsc as (D1 & H1 & Hsc).
  eapply good_then_stmt; [by apply safe_analyzes|done|]. intros st1 p Hs1 Hk1 _.
  eapply good_stmt_bind; [by eapply statements_good|]. intros st2 Hs2 Hk2.
  destruct f as [f|]; [eapply statements_good; eauto|]. by injection Hsc as <-.
Qed.

Lemma scope_analyzes s : stmt_analyzes s.
Proof using Type.
  induction s using Statement_rect'; try (by apply for_good || by apply scan_good ||
    by apply let_good || by apply if_good); intros st D D' Hst Hk Hsc; open_stmt;
    try (destruct (safe_expr e) eqn:He; [|done]; injection Hsc as <-; by apply expr_stmt_good).
  - by eapply statements_good.
  - by eapply statements_good.
  - destruct s as [d|]; [|done]. destruct (decl_ok d) eqn:Hd; [|done]. injection Hsc as <-.
    by apply define_good.
  - by injection Hsc as <-.
  - destruct (decl_ok t) eqn:Hd; [|done]. injection Hsc as <-. by apply define_good.
Qed.
End stmt_safety.

Lemma ctx_new_solid : solid ctx_new.
Proof.
  split_and!.
  - intros l o Hl. do 5 (destruct l as [|l]; [by injection Hl as <-|]). done.
  - apply map_Forall_lookup. intros k p Hk.
    apply elem_of_list_to_map_2 in Hk.
    rewrite !elem_of_cons in Hk. destruct Hk as [E|[E|[E|[E|[E|E]]]]];
      [injection E as _ ->; vm_compute; lia..|]. by apply not_elem_of_nil in E.
  - apply map_Forall_empty.
  - repeat (constructor; [by eexists; vm_compute; reflexivity|]). constructor.
Qed.

Lemma ctx_new_scalar : scalar_ctx ctx_new.
Proof. split_and!; try (eexists; split; vm_compute; reflexivity). apply map_Forall_empty. Qed.

(** * Properties *)

(** C16: on expressions of literals, variables, operators, calls and assignments the analysis
    implements the typing rules [typeof] (with the operator table [op_type]): it stores a type with
    the id the rules give, changing nothing else, or throws where the rules give none. *)
Theorem analyze_follows_typing show_double st e :
  scalar_ctx st → scalar_expr e = true →
  match typeof (var_id st) e with
  | Some t => ∃ p, analyze_expr show_double e st = Ok (st, p) ∧ ptr_id st p = Some t ∧ is_scalar t = true
  | None => ∃ w, analyze_expr show_double e st = Throw w
  end.
Proof. intros Hst He. by apply (scalar_rules show_double st Hst e). Qed.

(** [1 < 2 && f(3)] *)
Definition sample_expr : Expression :=
  BinaryExpression
    (BinaryExpression (PrimaryExpression (maybe_of_int 1)) Op.LESSTHAN (PrimaryExpression (maybe_of_int 2)))
    Op.CONDITIONAL_AND
    (FunctionCall (VariableReference (lit "f")) [PrimaryExpression (maybe_of_int 3)]).

Lemma analyze_follows_typing_witness :
  match typeof (var_id ctx_new) sample_expr with
  | Some t => ∃ p, analyze_expr (λ _, []) sample_expr ctx_new = Ok (ctx_new, p) ∧
                   ptr_id ctx_new p = Some t ∧ is_scalar t = true
  | None => ∃ w, analyze_expr (λ _, []) sample_expr ctx_new = Throw w
  end.
Proof. apply analyze_follows_typing; [apply ctx_new_scalar|vm_compute; reflexivity]. Defined.

(** C13: the analysis of a program is memory safe where the check [scope] passes (no [&], no [||], no
    absent parts, scanned tables defined before): it ends in an exception or in a context without null
    pointers, whose tuple types have a type for each name, and which knows the tables defined;
    it never follows a null pointer and never fails an assertion. *)
Theorem analyze_program_safe show_double st D l D' :
  solid st → knows st D → scope_statements scope D l = Some D' →
  good_stmt D' (analyze_block show_double l st).
Proof.
  intros Hs Hk Hsc. eapply statements_good; [|done|done|done].
  apply Forall_forall. intros s _. apply scope_analyzes.
Qed.

(** [define<{int:id key}>person transaction { scan person, row { emit row.id + 1 } }] *)
Definition sample_program : list Statement :=
  [ Define (Some (mk_decl [lit "id"] [lit "int"] [P_KEY] [None])) (lit "person");
    Transaction (lit "SERIALIZABLE")
      [ Scan (lit "person") (lit "row")
          [ Emit (BinaryExpression (MemberReference (VariableReference (lit "row")) (lit "id")) Op.PLUS
                    (PrimaryExpression (maybe_of_int 1))) ] ] ].

Lemma analyze_program_safe_witness :
  good_stmt ({[lit "person"]} ∪ ∅) (analyze_block (λ _, []) sample_program ctx_new).
Proof.
  apply (analyze_program_safe _ _ ∅).
  - apply ctx_new_solid.
  - intros k Hk. by apply elem_of_empty in Hk.
  - vm_compute. reflexivity.
Defined.

(** The type of a row literal has the id [NONE_TYPE], so [operate] prints an error message for it, and
    for [||] reads the operator's name past the end of its table. *)
Theorem row_literal_or_is_ub show_double :
  analyze_expr show_double
    (BinaryExpression (RowLiteral [PrimaryExpression (maybe_of_int 1)]) Op.CONDITIONAL_OR
       (PrimaryExpression (maybe_of_int 2))) ctx_new = UB.
Proof. vm_compute. reflexivity. Qed.

(** An address has no type: an operator on it follows a null pointer. *)
Theorem pointer_operand_is_ub show_double :
  analyze_expr show_double
    (BinaryExpression (PointerOf (PrimaryExpression (maybe_of_int 1))) Op.PLUS
       (PrimaryExpression (maybe_of_int 2))) ctx_new = UB.
Proof. vm_compute. reflexivity. Qed.

(** Scanning a table that was never defined is not reported: the row's variable gets a null type. *)
Theorem scan_unknown_table show_double :
  ∃ st, analyze_stmt show_double (Scan (lit "nope") (lit "row") []) ctx_new = Ok st ∧
        variable_type_table_ st !! lit "row" = Some None.
Proof. eexists. split; vm_compute; reflexivity. Qed.
