(* ===== verification/Lifetime.v ===== *)
(** * Lifetime: the nodes of a program and their destruction
      ([Node] of [src/src/reir/exec/ast_node.hpp]; the destructors of [ast_expression.hpp],
      [ast_statement.hpp] and [ast_expression_parser.cpp]; [~CompilerContext])

    A program is a tree of nodes that own their parts through raw pointers; a context owns the types
    that its table points to.  Destructors are modelled by what they free, in order: a node by its
    path from the root, a type by its place in the heap. *)

From Stdlib Require Import ZArith NArith Ascii String Lia.
From stdpp Require Import base option list strings gmap.
From S2P Require Import Prelude Value Attr Schema Ast Analyze.

(** ** Nodes *)

Inductive NodeKind :=
  | ND_None
  | ND_EXPRESSION_FIRST
  | ND_Primary | ND_Binary | ND_Pointer | ND_Row | ND_Array | ND_Variable | ND_Func | ND_ArrayRef
  | ND_MemberRef | ND_Assign
  | ND_EXPRESSION_LAST
  | ND_STATEMENT_FIRST
  | ND_Block | ND_Define | ND_Emit | ND_ExprStatement | ND_For | ND_DefineTuple | ND_If | ND_Jump
  | ND_Insert | ND_Scan | ND_Let | ND_Transaction
  | ND_STATEMENT_LAST.

(** The numbers of the enumeration. *)
Definition kind_index (k : NodeKind) : nat :=
  match k with
  | ND_None => 0 | ND_EXPRESSION_FIRST => 1
  | ND_Primary => 2 | ND_Binary => 3 | ND_Pointer => 4 | ND_Row => 5 | ND_Array => 6 | ND_Variable => 7
  | ND_Func => 8 | ND_ArrayRef => 9 | ND_MemberRef => 10 | ND_Assign => 11
  | ND_EXPRESSION_LAST => 12 | ND_STATEMENT_FIRST => 13
  | ND_Block => 14 | ND_Define => 15 | ND_Emit => 16 | ND_ExprStatement => 17 | ND_For => 18
  | ND_DefineTuple => 19 | ND_If => 20 | ND_Jump => 21 | ND_Insert => 22 | ND_Scan => 23 | ND_Let => 24
  | ND_Transaction => 25 | ND_STATEMENT_LAST => 26
  end.

(** A [Block*] member is a block statement. *)
Inductive Node := NStmt (s : Statement) | NExpr (e : Expression).

Definition getKind (n : Node) : NodeKind :=
  match n with
  | NExpr e =>
      match e with
      | PrimaryExpression _ => ND_Primary | BinaryExpression _ _ _ => ND_Binary | PointerOf _ => ND_Pointer
      | RowLiteral _ => ND_Row | ArrayLiteral _ => ND_Array | VariableReference _ => ND_Variable
      | FunctionCall _ _ => ND_Func | ArrayReference _ _ => ND_ArrayRef | MemberReference _ _ => ND_MemberRef
      | Assign _ _ => ND_Assign
      end
  | NStmt s =>
      match s with
      | Block _ => ND_Block | Transaction _ _ => ND_Transaction | Define _ _ => ND_Define | For _ _ _ _ => ND_For
      | Jump _ => ND_Jump | Emit _ => ND_Emit | Insert _ _ => ND_Insert | Scan _ _ _ => ND_Scan | Let _ _ _ => ND_Let
      | DefineTuple _ _ => ND_DefineTuple | If _ _ _ => ND_If | ExprStatement _ => ND_ExprStatement
      end
  end.

Definition Expression_classof (n : Node) : bool :=
  (kind_index ND_EXPRESSION_FIRST <? kind_index (getKind n)) && (kind_index (getKind n) <? kind_index ND_EXPRESSION_LAST).
Definition Statement_classof (n : Node) : bool :=
  (kind_index ND_STATEMENT_FIRST <? kind_index (getKind n)) && (kind_index (getKind n) <? kind_index ND_STATEMENT_LAST).

(** The tests on kinds tell expressions from statements. *)
Lemma classof_sound n :
  Expression_classof n = (match n with NExpr _ => true | NStmt _ => false end) ∧
  Statement_classof n = (match n with NExpr _ => false | NStmt _ => true end).
Proof. by destruct n as [[]|[]]. Qed.

(** The pointers a node owns, in the order its destructor deletes them; null is [None].  The
    pointers of a [for] that were never set are [None], too. *)
Definition members (n : Node) : list (option Node) :=
  let expr e := Some (NExpr e) in
  let block l := Some (NStmt (Block l)) in
  match n with
  | NExpr (PrimaryExpression _ | VariableReference _) => []
  | NExpr (BinaryExpression l _ r) => [expr l; expr r]
  | NExpr (PointerOf t) => [expr t]
  | NExpr (RowLiteral es | ArrayLiteral es) => expr <$> es
  | NExpr (FunctionCall p es) => expr p :: (expr <$> es)
  | NExpr (ArrayReference p i) => [NExpr <$> p; expr i]
  | NExpr (MemberReference p _) => [expr p]
  | NExpr (Assign t v) => [expr t; expr v]
  | NStmt (Block l) => (λ s, Some (NStmt s)) <$> l
  | NStmt (Transaction _ l) => [block l]
  | NStmt (Define _ _ | Jump _ | DefineTuple _ _) => []
  | NStmt (For i c e l) => [NStmt <$> i; NExpr <$> c; NExpr <$> e; block l]
  | NStmt (Emit e | Insert _ e | Let _ e _ | ExprStatement e) => [expr e]
  | NStmt (Scan _ _ l) => [block l]
  | NStmt (If c t f) => [expr c; block t; (λ l, NStmt (Block l)) <$> f]
  end.

(** The node at a path. *)
Fixpoint node_at (n : Node) (p : list nat) : option Node :=
  match p with
  | [] => Some n
  | i :: p => o ← members n !! i; m ← o; node_at m p
  end.

(** ** Destructors *)

Abbreviation freed := (result (list (list nat))).

(** [delete] of a node at [p]: its destructor deletes its members, then its memory is freed. *)
Fixpoint delete_all (ms : list freed) : freed :=
  match ms with
  | [] => Ok []
  | m :: ms => a ← m; b ← delete_all ms; Ok (a ++ b)
  end.
Definition delete_node (p : list nat) (ms : list freed) : freed := a ← delete_all ms; Ok (a ++ [p]).

(** Deleting null does nothing; deleting a pointer that was never set is [UB]. *)
Definition delete_null (o : option freed) : freed := match o with Some f => f | None => Ok [] end.
Definition delete_unset (o : option freed) : freed := match o with Some f => f | None => UB end.

(** *** One destructor per class, on what its members free *)

(** The variant of a primary expression never holds an expression. *)
Definition PrimaryExpression_delete (p : list nat) : freed := delete_node p [].
Definition PointerOf_delete (p : list nat) (target : freed) : freed := delete_node p [target].
Definition BinaryExpression_delete (p : list nat) (lhs rhs : freed) : freed := delete_node p [lhs; rhs].
Definition RowLiteral_delete (p : list nat) (elements : list freed) : freed := delete_node p elements.
Definition ArrayLiteral_delete (p : list nat) (elements : list freed) : freed := delete_node p elements.
Definition FunctionCall_delete (p : list nat) (parent : freed) (args : list freed) : freed :=
  delete_node p (parent :: args).
Definition ArrayReference_delete (p : list nat) (parent : option freed) (idx : freed) : freed :=
  delete_node p [delete_null parent; idx].
Definition MemberReference_delete (p : list nat) (parent : freed) : freed := delete_node p [parent].
Definition Assign_delete (p : list nat) (target value : freed) : freed := delete_node p [target; value].
Definition Block_delete (p : list nat) (statements : list freed) : freed := delete_node p statements.
Definition Transaction_delete (p : list nat) (sequence : freed) : freed := delete_node p [sequence].
Definition For_delete (p : list nat) (init cond every : option freed) (blk : freed) : freed :=
  delete_node p [delete_unset init; delete_unset cond; delete_unset every; blk].
Definition Emit_delete (p : list nat) (value : freed) : freed := delete_node p [value].
Definition Insert_delete (p : list nat) (value : freed) : freed := delete_node p [value].
Definition Scan_delete (p : list nat) (blk : freed) : freed := delete_node p [blk].
Definition Let_delete (p : list nat) (expr : freed) : freed := delete_node p [expr].
Definition If_delete (p : list nat) (cond true_block : freed) (false_block : option freed) : freed :=
  delete_node p [cond; true_block; delete_null false_block].
Definition ExprStatement_delete (p : list nat) (value : freed) : freed := delete_node p [value].

Section each.
Context {A : Type} (del : A → list nat → freed) (p : list nat).
Fixpoint delete_each (i : nat) (l : list A) : list freed :=
  match l with [] => [] | x :: l => del x (p ++ [i]) :: delete_each (S i) l end.
End each.

Fixpoint delete_expr (e : Expression) (p : list nat) : freed :=
  let child e i := delete_expr e (p ++ [i]) in
  match e with
  | PrimaryExpression _ => PrimaryExpression_delete p
  | VariableReference _ => delete_node p []
  | BinaryExpression l _ r => BinaryExpression_delete p (child l 0) (child r 1)
  | PointerOf t => PointerOf_delete p (child t 0)
  | RowLiteral es => RowLiteral_delete p (delete_each delete_expr p 0 es)
  | ArrayLiteral es => ArrayLiteral_delete p (delete_each delete_expr p 0 es)
  | FunctionCall q es => FunctionCall_delete p (child q 0) (delete_each delete_expr p 1 es)
  | ArrayReference q i =>
      ArrayReference_delete p (match q with Some q => Some (child q 0) | None => None end) (child i 1)
  | MemberReference q _ => MemberReference_delete p (child q 0)
  | Assign t v => Assign_delete p (child t 0) (child v 1)
  end.

Fixpoint delete_stmt (s : Statement) (p : list nat) : freed :=
  let block l i := Block_delete (p ++ [i]) (delete_each delete_stmt (p ++ [i]) 0 l) in
  let part (o : option Expression) i := match o with Some e => Some (delete_expr e (p ++ [i])) | None => None end in
  match s with
  | Block l => Block_delete p (delete_each delete_stmt p 0 l)
  | Transaction _ l => Transaction_delete p (block l 0)
  | Define _ _ | Jump _ | DefineTuple _ _ => delete_node p []
  | For i c e l =>
      For_delete p (match i with Some i => Some (delete_stmt i (p ++ [0])) | None => None end) (part c 1) (part e 2)
        (block l 3)
  | Emit e => Emit_delete p (delete_expr e (p ++ [0]))
  | Insert _ e => Insert_delete p (delete_expr e (p ++ [0]))
  | Scan _ _ l => Scan_delete p (block l 0)
  | Let _ e _ => Let_delete p (delete_expr e (p ++ [0]))
  | If c t f =>
      If_delete p (delete_expr c (p ++ [0])) (block t 1) (match f with Some f => Some (block f 2) | None => None end)
  | ExprStatement e => ExprStatement_delete p (delete_expr e (p ++ [0]))
  end.

(** Every [for] has all its parts. *)
Fixpoint complete (s : Statement) : bool :=
  match s with
  | Block l | Transaction _ l | Scan _ _ l => forallb complete l
  | For (Some i) (Some _) (Some _) l => complete i && forallb complete l
  | For _ _ _ _ => false
  | If _ t f => forallb complete t && match f with Some f => forallb complete f | None => true end
  | Define _ _ | Jump _ | Emit _ | Insert _ _ | Let _ _ _ | DefineTuple _ _ | ExprStatement _ => true
  end.

(** ** Every node is freed once *)

(** [r] frees the nodes of [o], whose root is at [p], once each. *)
Definition frees (p : list nat) (o : option Node) (r : freed) : Prop :=
  ∃ l, r = Ok l ∧ NoDup l ∧ ∀ q, q ∈ l ↔ ∃ n r', o = Some n ∧ q = p ++ r' ∧ is_Some (node_at n r').

Fixpoint frees_all (p : list nat) (i : nat) (ms : list (option Node)) (rs : list freed) : Prop :=
  match ms, rs with
  | [], [] => True
  | m :: ms, r :: rs => frees (p ++ [i]) m r ∧ frees_all p (S i) ms rs
  | _, _ => False
  end.

Lemma frees_null p : frees p None (Ok []).
Proof. exists []. split; [done|]. split; [constructor|]. intros q. rewrite elem_of_nil. naive_solver. Qed.

Lemma delete_all_frees p ms : ∀ i rs, frees_all p i ms rs →
  ∃ l, delete_all rs = Ok l ∧ NoDup l ∧
    ∀ q, q ∈ l ↔ ∃ j n r', ms !! j = Some (Some n) ∧ q = p ++ (i + j) :: r' ∧ is_Some (node_at n r').
Proof.
  induction ms as [|m ms IH]; intros i [|r rs] Ha; try done; cbn [delete_all].
  { exists []. split; [done|]. split; [constructor|]. intros q. rewrite elem_of_nil. split; [done|]. by intros (j & ? & ? & ? & _). }
  destruct Ha as [(a & -> & Na & Ea) Hrs], (IH (S i) rs ltac:(done)) as (b & -> & Nb & Eb). simpl.
  exists (a ++ b). split; [done|]. split.
  - apply NoDup_app. split; [done|]. split; [|done]. intros q Hqa Hqb.
    apply Ea in Hqa as (n & r' & -> & -> & _). apply Eb in Hqb as (j & n' & r2 & _ & Heq & _).
    rewrite <- app_assoc in Heq. simplify_list_eq. lia.
  - intros q. rewrite elem_of_app, Ea, Eb. split.
    + intros [(n & r' & -> & -> & Hn)|(j & n & r' & Hj & -> & Hn)].
      * exists 0, n, r'. rewrite <- app_assoc, Nat.add_0_r. done.
      * exists (S j), n, r'. by rewrite <- Nat.add_succ_comm.
    + intros ([|j] & n & r' & Hj & -> & Hn); simpl in Hj.
      * left. exists n, r'. injection Hj as ->. rewrite <- app_assoc, Nat.add_0_r. done.
      * right. exists j, n, r'. by rewrite <- Nat.add_succ_comm.
Qed.

(** Behind its members a node is freed itself. *)
Lemma delete_node_frees p n rs : frees_all p 0 (members n) rs → frees p (Some n) (delete_node p rs).
Proof.
  intros (l & El & Nl & Hl)%delete_all_frees. exists (l ++ [p]). unfold delete_node. rewrite El. split; [done|]. split.
  - apply NoDup_app. split; [done|]. split; [|apply NoDup_singleton]. intros q Hq ->%list_elem_of_singleton.
    apply Hl in Hq as (j & m & r' & _ & Heq & _). by apply (f_equal length) in Heq; rewrite length_app in Heq; simpl in Heq; lia.
  - intros q. rewrite elem_of_app, Hl, list_elem_of_singleton. split.
    + intros [(j & m & r' & Hj & -> & Hm)| ->].
      * exists n, (j :: r'). split; [done|]. split; [done|]. simpl. by rewrite Hj.
      * exists n, []. rewrite app_nil_r. by eauto.
    + intros (m & [|j r'] & [= <-] & -> & Hm); [right; by rewrite app_nil_r|]. left. simpl in Hm.
      destruct (members n !! j) as [[m|]|] eqn:Hj; simpl in Hm; [|by destruct Hm..]. by exists j, m, r'.
Qed.

Lemma delete_each_frees {A : Type} (del : A → list nat → freed) (node : A → Node) p l : ∀ i,
  Forall (λ x, ∀ p, frees p (Some (node x)) (del x p)) l →
  frees_all p i ((λ x, Some (node x)) <$> l) (delete_each del p i l).
Proof. induction l as [|x l IH]; intros i Hl; [done|]. apply Forall_cons in Hl as [Hx Hl]. split; [apply Hx|by apply IH]. Qed.

Lemma delete_expr_frees e : ∀ p, frees p (Some (NExpr e)) (delete_expr e p).
Proof.
  induction e as [v|l op r Hl Hr|t Ht|es Hes|es Hes|n|q es Hq Hes|q i Hq Hi|q n Hq|t v Ht Hv] using Expression_rect';
    intros p; apply delete_node_frees; cbn [members]; repeat split; auto; try (by apply delete_each_frees).
  destruct q as [q|]; [by apply Hq|apply frees_null].
Qed.

Lemma delete_block_frees p l :
  Forall (λ s, ∀ p, frees p (Some (NStmt s)) (delete_stmt s p)) l →
  frees p (Some (NStmt (Block l))) (Block_delete p (delete_each delete_stmt p 0 l)).
Proof. intros Hl. apply delete_node_frees. by apply delete_each_frees. Qed.

Lemma complete_all l :
  Forall (λ s, complete s = true → ∀ p, frees p (Some (NStmt s)) (delete_stmt s p)) l → forallb complete l = true →
  Forall (λ s, ∀ p, frees p (Some (NStmt s)) (delete_stmt s p)) l.
Proof. induction 1 as [|s l Hs _ IH]; intros Hc; [done|]. simpl in Hc. apply andb_prop in Hc as [H1 H2]. constructor; auto. Qed.

Lemma delete_stmt_frees s : complete s = true → ∀ p, frees p (Some (NStmt s)) (delete_stmt s p).
Proof.
  induction s as [l Hl|i l Hl|d n|i c e l Hi Hl|t|e|t e|t r l Hl|n e t|n t|c t f Ht Hf|e] using Statement_rect';
    intros Hc p; simpl in Hc.
  1: by apply delete_block_frees, complete_all.
  all: apply delete_node_frees; cbn [members]; repeat split; auto using delete_expr_frees.
  - by apply delete_block_frees, complete_all.
  - destruct i as [i|], c, e; try done. apply andb_prop in Hc as [Hc _]. by apply Hi.
  - destruct i as [i|], c, e; try done. apply delete_expr_frees.
  - destruct i as [i|], c, e; try done. apply delete_expr_frees.
  - destruct i as [i|], c, e; try done. apply andb_prop in Hc as [_ Hc]. by apply delete_block_frees, complete_all.
  - by apply delete_block_frees, complete_all.
  - apply andb_prop in Hc as [Hc _]. by apply delete_block_frees, complete_all.
  - destruct f as [f|]; [|apply frees_null]. apply andb_prop in Hc as [_ Hc]. apply delete_block_frees, complete_all; [|done].
    by apply Hf.
Qed.

(** *** Pointers nobody set *)

Definition settled (r : freed) : Prop := r = UB ∨ ∃ l, r = Ok l.

Lemma frees_settled p o r : frees p o r → settled r.
Proof. intros (l & -> & _). right. by exists l. Qed.

Lemma delete_node_UB p rs : Forall settled rs → UB ∈ rs → delete_node p rs = UB.
Proof.
  intros Hs Hin. unfold delete_node. assert (delete_all rs = UB) as ->; [|done].
  induction Hs as [|r rs [->|[l ->]] Hs IH]; [by apply not_elem_of_nil in Hin|done|].
  apply elem_of_cons in Hin as [?|Hin]; [done|]. simpl. by rewrite IH.
Qed.

(** What is freed of a statement, or [UB]. *)
Definition deletes (s : Statement) : Prop := ∀ p, settled (delete_stmt s p) ∧ (complete s = false → delete_stmt s p = UB).

Lemma each_settled l : Forall deletes l → ∀ p i, Forall settled (delete_each delete_stmt p i l).
Proof. induction 1 as [|s l Hs _ IH]; intros p i; constructor; [apply Hs|apply IH]. Qed.

Lemma each_UB l : Forall deletes l → forallb complete l = false → ∀ p i, UB ∈ delete_each delete_stmt p i l.
Proof.
  induction 1 as [|s l Hs _ IH]; intros Hc p i; [done|]. simpl in Hc. apply andb_false_iff in Hc as [Hc|Hc].
  - simpl. rewrite (proj2 (Hs _) Hc). by left.
  - right. by apply IH.
Qed.

Lemma block_UB l p : Forall deletes l → forallb complete l = false → Block_delete p (delete_each delete_stmt p 0 l) = UB.
Proof. intros Hl Hc. apply delete_node_UB; [by apply each_settled|by apply each_UB]. Qed.

Lemma node_settled p rs : Forall settled rs → settled (delete_node p rs).
Proof.
  intros Hs. unfold delete_node. assert (Ha : settled (delete_all rs)).
  { induction Hs as [|r rs [->|[l ->]] _ [IH|[l' IH]]]; simpl; try rewrite IH; [by right; eexists|by left..|by right; eexists]. }
  destruct Ha as [->|[l ->]]; [by left|by right; eexists].
Qed.

Lemma block_settled l p : Forall deletes l → settled (Block_delete p (delete_each delete_stmt p 0 l)).
Proof. intros Hl. by apply node_settled, each_settled. Qed.

Lemma expr_settled e p : settled (delete_expr e p).
Proof. eapply frees_settled, delete_expr_frees. Qed.

Ltac members_settled := repeat first [apply List.Forall_nil | apply List.Forall_cons]; auto.

Lemma stmt_deletes s : deletes s.
Proof.
  pose proof expr_settled as He.
  assert (Hn : settled (Ok [])) by (right; by eexists). assert (Hu : settled UB) by by left.
  assert (Hb : ∀ l p, Forall deletes l → let r := Block_delete p (delete_each delete_stmt p 0 l) in
    settled r ∧ (forallb complete l = false → r = UB)).
  { intros l p Hl. split; [by apply block_settled|by apply block_UB]. }
  assert (H1 : ∀ p r c, settled r ∧ (c = false → r = UB) → settled (delete_node p [r]) ∧ (c = false → delete_node p [r] = UB)).
  { intros p r c [H1 H2]. split; [apply node_settled; by members_settled|]. intros Hc. rewrite (H2 Hc). apply delete_node_UB; [by members_settled|by left]. }
  induction s as [l Hl|i l Hl|d n|i c e l Hi Hl|t|e|t e|t r l Hl|n e t|n t|c t f Ht Hf|e] using Statement_rect';
    intros p; cbn [complete delete_stmt]; try (by apply Hb); try (by apply H1, Hb);
    try (split; [apply node_settled; by members_settled|done]).
  - unfold For_delete. split.
    + apply node_settled. members_settled; try (by apply Hb); [destruct i as [i|]|destruct c|destruct e]; simpl; try done; [by apply Hi|apply He..].
    + intros Hc. apply delete_node_UB.
      * members_settled; try (by apply Hb); [destruct i as [i|]|destruct c|destruct e]; simpl; try done; [by apply Hi|apply He..].
      * destruct i as [i|]; [|by left]. destruct c as [c|]; [|right; by left]. destruct e as [e|]; [|right; right; by left].
        apply andb_false_iff in Hc as [Hc|Hc]; [simpl; rewrite (proj2 (Hi i eq_refl _) Hc); by left|]. do 3 right. rewrite (proj2 (Hb l _ Hl) Hc). by left.
  - unfold If_delete. split.
    + apply node_settled. members_settled; try (by apply Hb). destruct f as [f|]; [|done]. by apply Hb, Hf.
    + intros Hc. apply delete_node_UB.
      * members_settled; try (by apply Hb). destruct f as [f|]; [|done]. by apply Hb, Hf.
      * apply andb_false_iff in Hc as [Hc|Hc]; [right; rewrite (proj2 (Hb t _ Ht) Hc); by left|].
        destruct f as [f|]; [|done]. do 2 right. simpl. rewrite (proj2 (Hb f _ (Hf f eq_refl)) Hc). by left.
Qed.

(** C14: deleting a program frees every one of its nodes exactly once, or is undefined: when every
    [for] has all its parts, the destructor of the program's block returns, and what it frees are
    the paths of the program's nodes, without repetition; when some [for] lacks one, the destructor
    deletes a pointer nobody has set. *)
Theorem delete_frees_each_once l :
  if forallb complete l
  then ∃ fs, delete_stmt (Block l) [] = Ok fs ∧ NoDup fs ∧ ∀ q, q ∈ fs ↔ is_Some (node_at (NStmt (Block l)) q)
  else delete_stmt (Block l) [] = UB.
Proof.
  destruct (forallb complete l) eqn:Hc; [|by apply (stmt_deletes (Block l))].
  destruct (delete_stmt_frees (Block l) Hc []) as (fs & E & N & H). exists fs. split; [done|]. split; [done|].
  intros q. rewrite H. split; [by intros (n & r & [= <-] & -> & Hn)|]. intros Hn. by exists (NStmt (Block l)), q.
Qed.

Lemma delete_program_sample :
  delete_stmt (Block [For None None (Some (VariableReference (lit "i"))) []]) [] = UB ∧
  delete_stmt (Block [If (VariableReference (lit "c")) [Jump break_jump] None]) [] = Ok [[0; 0]; [0; 1; 0]; [0; 1]; [0]; []].
Proof. split; vm_compute; reflexivity. Qed.

(** ** The types of a context *)

(** [~CompilerContext] deletes what [analyze_type_table_] points to; deleting null does nothing. *)
Definition context_delete_types (st : ctx) : list nat := omap snd (map_to_list (analyze_type_table_ st)).

(** No type stands under two names. *)
Definition own (st : ctx) : Prop :=
  ∀ k1 k2 l, analyze_type_table_ st !! k1 = Some (Some l) → analyze_type_table_ st !! k2 = Some (Some l) →
    k1 = k2 ∧ l < length (types st).

(** A type that stands under no name yet. *)
Definition free_type (st : ctx) (p : tptr) : Prop :=
  ∃ l, p = Some l ∧ l < length (types st) ∧ ∀ k, analyze_type_table_ st !! k ≠ Some (Some l).

Definition owns {A : Type} (f : A → ctx) (P : A → Prop) (r : result A) : Prop :=
  ∀ a, r = Ok a → own (f a) ∧ P a.
Abbreviation owns_ctx := (owns (λ st : ctx, st) (λ _, True)).
Abbreviation owns_fst := (owns fst (λ _, True)).

Lemma owns_bind {A B : Type} f P g Q (r : result A) (k : A → result B) :
  owns f P r → (∀ a, own (f a) → P a → owns g Q (k a)) → owns g Q (r ≫= k).
Proof. intros Hr Hk b Hb. apply bind_Ok_inv in Hb as (a & Ha & Hb). destruct (Hr _ Ha). by eapply Hk. Qed.

Lemma owns_Ok {A : Type} f (P : A → Prop) a : own (f a) → P a → owns f P (Ok a).
Proof. by intros Ho Hp ? [= <-]. Qed.

(** A step that leaves the context alone. *)
Lemma owns_pure {A B : Type} g Q (r : result A) (k : A → result B) : (∀ a, owns g Q (k a)) → owns g Q (r ≫= k).
Proof. intros Hk b Hb. apply bind_Ok_inv in Hb as (a & _ & Hb). by eapply Hk. Qed.

Lemma owns_throw {A : Type} f (P : A → Prop) (r : result A) : is_ok r = false → owns f P r.
Proof. intros Hr a ->. done. Qed.

Lemma own_new st o : own st → own (new_type st o).1.
Proof. intros Ho k1 k2 l H1 H2. destruct (Ho _ _ _ H1 H2). split; [done|]. simpl. rewrite length_app. simpl. lia. Qed.

Lemma new_free st o : own st → free_type (new_type st o).1 (new_type st o).2.
Proof.
  intros Ho. exists (length (types st)). split; [done|]. simpl. rewrite length_app. split; [simpl; lia|].
  intros k Hk. destruct (Ho _ _ _ Hk Hk). lia.
Qed.

Lemma own_set_type st k p : own st → p = None ∨ free_type st p → own (set_type st k p).
Proof.
  intros Ho Hp k1 k2 l. simpl. rewrite !lookup_insert_Some.
  intros [[<- H1]|[N1 H1]] [[<- H2]|[N2 H2]]; [| | |by apply (Ho _ _ _ H1 H2)]; simplify_eq;
    destruct Hp as [?|(l' & [= <-] & Hl & Hf)]; try done; try (by apply Hf in H1); by apply Hf in H2.
Qed.

Lemma own_register st s p : own st → free_type st p → own (register st s p).
Proof. intros Ho Hp. pose proof (own_set_type st (lit s ++ show_N (addresses st)) p Ho (or_intror Hp)) as H. exact H. Qed.

Lemma own_table_at st k : own st → own (table_at st k).1.
Proof. intros Ho. unfold table_at. destruct (analyze_type_table_ st !! k); [done|]. by apply own_set_type; [|left]. Qed.

Create HintDb own.
#[local] Hint Resolve own_new new_free own_set_type own_register own_table_at : own.

Lemma names_own tns : ∀ st, own st → owns_fst (lookup_type_names st tns).
Proof.
  induction tns as [|tn tns IH]; intros st Ho; cbn [lookup_type_names]; [by apply owns_Ok|].
  apply (owns_bind fst (λ _, True)).
  - unfold lookup_type_name. repeat case_decide; try (apply owns_Ok; auto with own).
    destruct (analyze_type_table_ st !! tn); [by apply owns_Ok|by apply owns_throw].
  - intros [st1 p] H1 _. apply (owns_bind fst (λ _, True)); [by apply IH|]. intros [st2 ps] H2 _. by apply owns_Ok.
Qed.

Lemma tuple_own st d : own st → owns fst (λ '(st, p), free_type st p) (tuple_analyze st d).
Proof.
  intros Ho. apply (owns_bind fst (λ _, True)); [by apply names_own|]. intros [st1 ps] H1 _.
  apply owns_Ok; [by apply own_new|by apply new_free].
Qed.

Lemma operate_own st lp lo ro op : own st → owns_fst (operate st lp lo ro op).
Proof.
  intros Ho. unfold operate.
  assert (Hu : owns_fst (operate_unknown st lo ro op)).
  { unfold operate_unknown. do 3 (apply owns_pure; intros ?). by apply owns_throw. }
  repeat case_match; try done; try (by apply owns_throw); apply owns_Ok; auto with own.
Qed.

Section analyze_own.
Context (show_double : Z → cstr).
Abbreviation analyze := (analyze_expr show_double).

Lemma elements_own es : Forall (λ e, ∀ st, own st → owns_fst (analyze e st)) es →
  ∀ st, own st → owns_fst (analyze_elements analyze es st).
Proof.
  induction 1 as [|e es He _ IH]; intros st Ho; cbn [analyze_elements]; [by apply owns_Ok|].
  apply (owns_bind fst (λ _, True)); [by apply He|]. intros [st1 [p|]] H1 _; [|by apply owns_throw].
  apply (owns_bind fst (λ _, True)); [by apply IH|]. intros [st2 ps] H2 _. by apply owns_Ok.
Qed.

Lemma args_own es : Forall (λ e, ∀ st, own st → owns_fst (analyze e st)) es →
  ∀ st, own st → owns_ctx (analyze_args analyze es st).
Proof.
  induction 1 as [|e es He _ IH]; intros st Ho; cbn [analyze_args]; [by apply owns_Ok|].
  apply (owns_bind fst (λ _, True)); [by apply He|]. intros [st1 p] H1 _. by apply IH.
Qed.
Lemma expr_own e : ∀ st, own st → owns_fst (analyze e st).
Proof.
  induction e as [v|l op r Hl Hr|t Ht|es Hes|es Hes|n|q es Hq Hes|q i Hq Hi|q n Hq|t v Ht Hv] using Expression_rect';
    intros st Ho; cbn [analyze_expr].
  - unfold analyze_primary. repeat case_match; try (by apply owns_throw); apply owns_Ok; auto with own.
  - eapply owns_bind; [by apply Hl|]. intros [st1 lp] H1 _. eapply owns_bind; [by apply Hr|]. intros [st2 rp] H2 _.
    do 2 (apply owns_pure; intros ?). by apply operate_own.
  - by apply owns_Ok.
  - eapply owns_bind; [by apply elements_own|]. intros [st1 ps] H1 _. apply owns_Ok; [|done]. simpl fst.
    apply (own_register _ _ _ (own_new _ _ H1)), (new_free _ _ H1).
  - unfold analyze_array. destruct es as [|e es]; [by apply owns_throw|]. apply Forall_cons in Hes as [He _].
    eapply owns_bind; [by apply He|]. intros [st1 p] H1 _. apply owns_pure. intros o. apply owns_Ok; [|done].
    apply (own_register _ _ _ (own_new _ _ H1)), (new_free _ _ H1).
  - unfold analyze_variable. case_match; [by apply owns_Ok|by apply owns_throw].
  - unfold analyze_call. destruct (table_at st (lit "integer")) as [st1 p] eqn:Et.
    assert (H1 : own st1) by (change st1 with (st1, p).1; rewrite <- Et; by apply own_table_at).
    eapply owns_bind; [by apply args_own|]. intros st2 H2 _. by apply owns_Ok.
  - unfold analyze_array_ref. destruct q as [q|]; [|by apply owns_throw].
    eapply owns_bind; [by apply Hq|]. intros [st1 [pp|]] H1 _; (eapply owns_bind; [by apply Hi|]); intros [st2 ?] H2 _;
      [|by apply owns_throw]. apply owns_pure. intros [| |]; [by apply owns_throw|by apply owns_Ok|by apply owns_throw].
  - unfold analyze_member. eapply owns_bind; [by apply Hq|]. intros [st1 [pp|]] H1 _; [|by apply owns_throw].
    apply owns_pure. intros [| |t0 ns ps]; [by apply owns_throw..|]. case_match.
    + apply owns_pure. intros p. by apply owns_Ok.
    + do 2 (apply owns_pure; intros ?). by apply owns_throw.
  - eapply owns_bind; [by apply Ht|]. intros [st1 ?] H1 _. by apply Hv.
Qed.

(** *** Statements *)

Abbreviation stmt := (analyze_stmt show_double).

Lemma part_own o st : own st → owns_ctx (analyze_part show_double o st).
Proof.
  intros Ho. destruct o as [e|]; [|by apply owns_throw]. eapply owns_bind; [by apply expr_own|]. intros [st1 ?] H1 _. by apply owns_Ok.
Qed.

Lemma statements_own l : Forall (λ s, ∀ st, own st → owns_ctx (stmt s st)) l →
  ∀ st, own st → owns_ctx (analyze_statements stmt l st).
Proof.
  induction 1 as [|s l Hs _ IH]; intros st Ho; cbn [analyze_statements]; [by apply owns_Ok|].
  eapply owns_bind; [by apply Hs|]. intros st1 H1 _. by apply IH.
Qed.

Lemma define_own d n st : own st → owns_ctx ('(st, p) ← tuple_analyze st d; Ok (set_type st n p)).
Proof.
  intros Ho. eapply owns_bind; [by apply tuple_own|]. intros [st1 p] H1 Hp. apply owns_Ok; [|done]. apply own_set_type; [done|by right].
Qed.

Lemma let_own n e ty st : own st → owns_ctx (analyze_let show_double n e ty st).
Proof.
  intros Ho. eapply owns_bind; [by apply expr_own|]. intros [st1 p] H1 _.
  assert (Hs : ∀ st p, own st → owns_ctx (Ok (set_variable st n p))) by (intros ? ? H; by apply owns_Ok).
  destruct e; try (destruct ty; [by apply owns_throw|by apply Hs]).
  - destruct ty as [[| |d]|]; try (by apply owns_throw); [|by apply Hs].
    eapply owns_bind; [by apply tuple_own|]. intros [st2 tp] H2 Hp. apply Hs. apply own_set_type; [done|by right].
  - apply owns_pure. intros o. apply Hs. apply own_set_type; [by apply own_new|right; by apply new_free].
Qed.

Lemma stmt_own s : ∀ st, own st → owns_ctx (stmt s st).
Proof.
  induction s as [l Hl|i l Hl|d n|i c e l Hi Hl|t|e|t e|t r l Hl|n e t|n t|c t f Ht Hf|e] using Statement_rect';
    intros st Ho; cbn [analyze_stmt]; try (by apply statements_own); try (by apply owns_Ok); try (by apply let_own);
    try (by apply define_own); try (by eapply owns_bind; [by apply expr_own|]; intros [st1 ?] H1 _; apply owns_Ok).
  - destruct d as [d|]; [by apply define_own|by apply owns_throw].
  - unfold analyze_for. eapply owns_bind; [destruct i as [i|]; [by apply Hi|by apply (owns_throw (λ st, st) (λ _, True))]|].
    intros st1 H1 _. eapply owns_bind; [by apply part_own|]. intros st2 H2 _.
    eapply owns_bind; [by apply part_own|]. intros st3 H3 _. by apply statements_own.
  - unfold analyze_scan. destruct (table_at (schema_at st t) t) as [st1 p] eqn:Et. apply statements_own; [done|].
    assert (H0 : own (schema_at st t)) by (unfold schema_at; by case_match).
    assert (H1 : own st1) by (change st1 with (st1, p).1; rewrite <- Et; by apply own_table_at). exact H1.
  - unfold analyze_if. eapply owns_bind; [by apply expr_own|]. intros [st1 ?] H1 _.
    eapply owns_bind; [by apply statements_own|]. intros st2 H2 _.
    destruct f as [f|]; [|by apply owns_Ok]. apply statements_own; [by apply Hf|done].
Qed.
End analyze_own.

Lemma ctx_new_own : own ctx_new.
Proof.
  intros k1 k2 l. unfold ctx_new. cbn [analyze_type_table_].
  intros H1%elem_of_list_to_map_2 H2%elem_of_list_to_map_2. rewrite !elem_of_cons, elem_of_nil in *.
  naive_solver lia.
Qed.

(** C15: the destructor of a context deletes no type twice.  After the analysis of any program every
    type stands in the table under one name at most, so that what [~CompilerContext] deletes are
    different types of the heap. *)
Theorem context_deletes_once show_double l st :
  analyze_block show_double l ctx_new = Ok st →
  NoDup (context_delete_types st) ∧ Forall (λ p, p < length (types st)) (context_delete_types st).
Proof.
  intros Ea. assert (Ho : own st).
  { eapply (statements_own show_double l); [|exact ctx_new_own|exact Ea]. apply list.Forall_forall. intros s _. apply stmt_own. }
  unfold context_delete_types. split.
  - pose proof (NoDup_fst_map_to_list (analyze_type_table_ st)) as Hn.
    assert (Hin : ∀ kp, kp ∈ map_to_list (analyze_type_table_ st) → analyze_type_table_ st !! kp.1 = Some kp.2).
    { intros [k p]. apply elem_of_map_to_list. }
    induction (map_to_list (analyze_type_table_ st)) as [|[k [p|]] m IH]; simpl; [constructor| |].
    + apply NoDup_cons in Hn as [Hk Hn]. apply NoDup_cons. split; [|apply IH; [done|intros; apply Hin; by right]].
      intros ([k' p'] & Hm & Hp)%list_elem_of_omap. simpl in Hp. subst p'.
      destruct (Ho k k' p (Hin (k, Some p) ltac:(by left)) (Hin (k', Some p) ltac:(by right))) as [-> _].
      apply Hk. apply list_elem_of_fmap. by exists (k', Some p).
    + apply NoDup_cons in Hn as [_ Hn]. apply IH; [done|]. intros; apply Hin; by right.
  - apply list.Forall_forall. intros p ([k p'] & Hm & Hp)%list_elem_of_omap. simpl in Hp. subst p'.
    apply elem_of_map_to_list in Hm. by destruct (Ho _ _ _ Hm Hm).
Qed.

Lemma context_deletes_once_witness :
  ∃ st, analyze_block (λ _, []) sample_program ctx_new = Ok st ∧ NoDup (context_delete_types st).
Proof.
  assert (Ha : is_ok (analyze_block (λ _, []) sample_program ctx_new) = true) by (vm_compute; reflexivity).
  destruct (analyze_block _ _ _) as [st| | | |] eqn:Ea; [|discriminate Ha..]. exists st. split; [reflexivity|].
  apply (context_deletes_once (λ _, []) sample_program st Ea).
Defined.
