(* ===== verification/Visit.v ===== *)
(** * Visit: the visitors of the syntax tree
      ([each_value] and [each_statement] of [src/src/reir/exec/ast_expression.hpp] and
      [ast_statement.hpp])

    The compiler reserves the stack of a program by walking it with [each_statement], and the
    stack of an expression statement with [each_value].  A visitor calls a function on nodes, in
    order; here it returns the nodes it visits.  A statement node is identified by its path from
    the node the walk starts at, as the source identifies it by its address.  Following a null
    pointer, or testing one of [For]'s pointers that was never set, is [UB]. *)

From Stdlib Require Import ZArith NArith Ascii String Lia.
From stdpp Require Import base option list strings.
From S2P Require Import Prelude Value Ast.

(** ** Expressions *)

Section each_loops.
Context (visit : Expression → result (list Expression)).

(** The loop of [ArrayLiteral::each_value]. *)
Fixpoint each_element (es : list Expression) : result (list Expression) :=
  match es with
  | [] => Ok []
  | e :: es => a ← visit e; b ← each_element es; Ok (a ++ b)
  end.

(** The loop of [FunctionCall::each_value]. *)
Fixpoint each_argument (es : list Expression) : result (list Expression) :=
  match es with
  | [] => Ok []
  | e :: es => a ← visit e; b ← each_argument es; Ok (e :: a ++ b)
  end.
End each_loops.

(** Binary expressions and row literals inherit the base class's visitor, which visits nothing. *)
Fixpoint each_value (e : Expression) : result (list Expression) :=
  match e with
  | PrimaryExpression _ | BinaryExpression _ _ _ | RowLiteral _ => Ok []
  | PointerOf t => Ok [t]
  | ArrayLiteral es => v ← each_element each_value es; Ok (v ++ [e])
  | VariableReference _ => Ok [e]
  | FunctionCall _ args => each_argument each_value args
  | ArrayReference None _ => UB
  | ArrayReference (Some p) _ => v ← each_value p; Ok (e :: v)
  | MemberReference p _ => v ← each_value p; Ok (e :: v)
  | Assign _ x => v ← each_value x; Ok (e :: v)
  end.

(** ** Statements: values *)

Section block_values.
Context (visit : Statement → result (list Expression)).
Fixpoint each_value_block (l : list Statement) : result (list Expression) :=
  match l with
  | [] => Ok []
  | s :: l => a ← visit s; b ← each_value_block l; Ok (a ++ b)
  end.
End block_values.

Fixpoint each_value_stmt (s : Statement) : result (list Expression) :=
  let block := each_value_block each_value_stmt in
  match s with
  | Block l | Transaction _ l => block l
  | Define _ _ | For _ _ _ _ | Jump _ | Scan _ _ _ | DefineTuple _ _ => Ok []
  | Emit e | Insert _ e => Ok [e]
  | Let _ e _ | ExprStatement e => each_value e
  | If c t f =>
      a ← each_value c;
      b ← block t;
      d ← match f with Some f => block f | None => Ok [] end;
      Ok (a ++ b ++ d)
  end.

(** ** Statements: statements *)

(** One step of a path: the [i]-th statement of the body or of the true block, the [i]-th
    statement of the false block, or a [for]'s initialisation. *)
Inductive pstep := In_body (i : nat) | In_else (i : nat) | In_init.

#[export] Instance pstep_eq_dec : EqDecision pstep.
Proof. solve_decision. Defined.

Abbreviation path := (list pstep).
Abbreviation visits := (list (list pstep * Statement)).

Definition below (p : pstep) (v : visits) : visits := (λ '(q, s), (p :: q, s)) <$> v.

Section each_block.
Context (visit : Statement → result visits) (mk : nat → pstep).

(** [Block::each_statement]: [func(s)], then the statement's own visitor. *)
Fixpoint each_of_block (i : nat) (l : list Statement) : result visits :=
  match l with
  | [] => Ok []
  | s :: l =>
      a ← visit s;
      b ← each_of_block (S i) l;
      Ok (([mk i], s) :: below (mk i) a ++ b)
  end.
End each_block.

(** [For::each_statement] calls the function on [init_] and does not walk it. *)
Fixpoint each_statement (s : Statement) : result visits :=
  let block := each_of_block each_statement In_body 0 in
  match s with
  | Block l | Transaction _ l | Scan _ _ l => block l
  | For None _ _ _ => UB
  | For (Some i) _ _ l => v ← block l; Ok (([In_init], i) :: v)
  | If _ t None => block t
  | If _ t (Some f) =>
      a ← block t; b ← each_of_block each_statement In_else 0 f; Ok (a ++ b)
  | Define _ _ | Jump _ | Emit _ | Insert _ _ | Let _ _ _ | DefineTuple _ _ | ExprStatement _ => Ok []
  end.

(** ** What a complete walk visits *)

Definition child (s : Statement) (p : pstep) : option Statement :=
  match p, s with
  | In_body i, (Block l | Transaction _ l | Scan _ _ l | For _ _ _ l | If _ l _) => l !! i
  | In_else i, If _ _ (Some l) => l !! i
  | In_init, For i _ _ _ => i
  | _, _ => None
  end.

(** The statement at a path. *)
Fixpoint at_path (s : Statement) (p : path) : option Statement :=
  match p with
  | [] => Some s
  | q :: p => t ← child s q; at_path t p
  end.

(** Statements that hold no other statements. *)
Definition is_leaf (s : Statement) : bool :=
  match s with
  | Define _ _ | Jump _ | Emit _ | Insert _ _ | Let _ _ _ | DefineTuple _ _ | ExprStatement _ => true
  | _ => false
  end.

(** Every [for] has an initialisation that holds no other statements. *)
Fixpoint plain_inits (s : Statement) : bool :=
  let block l := forallb plain_inits l in
  match s with
  | Block l | Transaction _ l | Scan _ _ l => block l
  | For (Some i) _ _ l => is_leaf i && block l
  | For None _ _ _ => false
  | If _ t f => block t && match f with Some f => block f | None => true end
  | Define _ _ | Jump _ | Emit _ | Insert _ _ | Let _ _ _ | DefineTuple _ _ | ExprStatement _ => true
  end.

(** [v] lists every node below a node, each once, where [R] tells what is at a path. *)
Definition lists (v : visits) (R : path → option Statement) : Prop :=
  NoDup v.*1 ∧ ∀ p x, (p, x) ∈ v ↔ R p = Some x.

Definition walk (s : Statement) (p : path) : option Statement :=
  match p with [] => None | _ => at_path s p end.

(** The part of a walk that goes through the statements [l], numbered from [i] on by [mk]. *)
Definition block_walk (mk : nat → pstep) (i : nat) (l : list Statement) (p : path) (x : Statement) : Prop :=
  ∃ j s q, p = mk (i + j) :: q ∧ l !! j = Some s ∧ at_path s q = Some x.

Definition lists_block (v : visits) (mk : nat → pstep) (i : nat) (l : list Statement) : Prop :=
  NoDup v.*1 ∧ ∀ p x, (p, x) ∈ v ↔ block_walk mk i l p x.

Definition walked (s : Statement) : Prop :=
  plain_inits s = true → ∃ v, each_statement s = Ok v ∧ lists v (walk s).

Lemma below_fst p v : (below p v).*1 = (λ q, p :: q) <$> v.*1.
Proof. unfold below. rewrite <- !list_fmap_compose. apply list_fmap_ext. by intros ? []. Qed.

Lemma elem_of_below p q x v : (q, x) ∈ below p v ↔ ∃ r, q = p :: r ∧ (r, x) ∈ v.
Proof.
  unfold below. rewrite list_elem_of_fmap. split.
  - intros ([r y] & [= -> ->] & H). eauto.
  - intros (r & -> & H). by exists (r, x).
Qed.

Lemma at_path_here s q x : at_path s q = Some x ↔ (q = [] ∧ s = x) ∨ walk s q = Some x.
Proof. destruct q; simpl; naive_solver. Qed.

Lemma block_walk_cons mk i s l p x :
  block_walk mk i (s :: l) p x ↔
  (∃ q, p = mk i :: q ∧ at_path s q = Some x) ∨ block_walk mk (S i) l p x.
Proof.
  unfold block_walk. split.
  - intros ([|j] & t & q & -> & Hl & Hq); simpl in Hl.
    + simplify_eq. left. exists q. by rewrite Nat.add_0_r.
    + right. exists j, t, q. by rewrite Nat.add_succ_comm.
  - intros [(q & -> & Hq)|(j & t & q & -> & Hl & Hq)].
    + exists 0, s, q. by rewrite Nat.add_0_r.
    + exists (S j), t, q. by rewrite Nat.add_succ_comm.
Qed.

Lemma each_of_block_lists mk i l :
  Inj (=) (=) mk → Forall walked l → forallb plain_inits l = true →
  ∃ v, each_of_block each_statement mk i l = Ok v ∧ lists_block v mk i l.
Proof.
  intros Hmk Hl. revert i. induction Hl as [|s l Hs Hl IH]; intros i Hp; simpl in *.
  { exists []. split; [done|]. split; [constructor|]. intros p x. rewrite elem_of_nil.
    split; [done|]. by intros (j & ? & ? & _ & ? & _). }
  apply andb_prop in Hp as [Hp1 Hp2].
  destruct (Hs Hp1) as (a & -> & Hna & Ha), (IH (S i) Hp2) as (b & Eb & Hnb & Hb).
  simpl. rewrite Eb. simpl. eexists. split; [done|]. split.
  - rewrite fmap_cons, fmap_app, below_fst. simpl. apply NoDup_cons. split.
    + rewrite elem_of_app, list_elem_of_fmap. intros [(q & [= <-] & Hq)|Hq].
      * apply list_elem_of_fmap in Hq as ([q x] & E & Hq). simpl in E. subst q. by apply Ha in Hq.
      * apply list_elem_of_fmap in Hq as ([q x] & E & Hq). simpl in E. subst q.
        apply Hb in Hq as (j & ? & ? & [= E%(inj mk) _] & _). lia.
    + apply NoDup_app. split; [by apply NoDup_fmap_2; [intros ?? [=]|]|]. split; [|done].
      intros p (q & -> & Hq)%list_elem_of_fmap ([r x] & E & Hr)%list_elem_of_fmap.
      simpl in E. subst r. apply Hb in Hr as (j & ? & ? & [= E%(inj mk) _] & _). lia.
  - intros p x. rewrite elem_of_cons, elem_of_app, elem_of_below, Hb, block_walk_cons.
    setoid_rewrite Ha. setoid_rewrite at_path_here.
    split; [naive_solver|]. intros [(q & -> & [[-> ->]|Hq])|Hq]; eauto.
Qed.

Lemma walk_child s p x :
  walk s p = Some x ↔ ∃ q r t, p = q :: r ∧ child s q = Some t ∧ at_path t r = Some x.
Proof.
  destruct p as [|q r]; simpl; [naive_solver|]. rewrite bind_Some. naive_solver.
Qed.

(** A statement whose only nested statements are those of one list. *)
Lemma lists_body s l v :
  (∀ q t, child s q = Some t ↔ ∃ j, q = In_body j ∧ l !! j = Some t) →
  lists_block v In_body 0 l → lists v (walk s).
Proof.
  intros Hc [Hn Hv]. split; [done|]. intros p x. rewrite Hv, walk_child. unfold block_walk.
  setoid_rewrite Hc. naive_solver.
Qed.

Lemma lists_leaf s : is_leaf s = true → ∀ p x, at_path s p = Some x ↔ p = [] ∧ x = s.
Proof. intros Hs [|q p] x; simpl; [naive_solver|]. destruct s, q; naive_solver. Qed.

Lemma lists_if c t f a b :
  lists_block a In_body 0 t → lists_block b In_else 0 f → lists (a ++ b) (walk (If c t (Some f))).
Proof.
  intros [Hna Ha] [Hnb Hb]. split.
  - rewrite fmap_app. apply NoDup_app. split; [done|]. split; [|done].
    intros p ([q x] & -> & Hq)%list_elem_of_fmap ([r y] & E & Hr)%list_elem_of_fmap. simpl in E.
    apply Ha in Hq as (? & ? & ? & -> & _). apply Hb in Hr as (? & ? & ? & -> & _). done.
  - intros p x. rewrite elem_of_app, Ha, Hb, walk_child. unfold block_walk. split.
    + intros [(j & s & q & -> & ? & ?)|(j & s & q & -> & ? & ?)]; eauto 8.
    + intros ([j|j|] & r & s & -> & ? & ?); simpl in *; [left|right|done]; eauto 8.
Qed.

Lemma lists_for i c e l v :
  is_leaf i = true → lists_block v In_body 0 l →
  lists (([In_init], i) :: v) (walk (For (Some i) c e l)).
Proof.
  intros Hi [Hn Hv]. split.
  - rewrite fmap_cons. apply NoDup_cons. split; [|done].
    intros ([q x] & E & Hq)%list_elem_of_fmap. simpl in E. subst q.
    by apply Hv in Hq as (? & ? & ? & ? & _).
  - intros p x. rewrite elem_of_cons, Hv, walk_child. unfold block_walk. split.
    + intros [[= -> ->]|(j & s & q & -> & ? & ?)]; [|eauto 8]. exists In_init, [], i. done.
    + intros ([j|j|] & r & s & -> & Hs & Hr); simpl in *; [right; eauto 8|done|].
      injection Hs as <-. apply lists_leaf in Hr as [-> ->]; [|done]. by left.
Qed.

Ltac body_case :=
  let Hp := fresh in
  intros Hp; simpl in Hp;
  match goal with
  | Hl : Forall _ ?l |- _ =>
      destruct (each_of_block_lists In_body 0 l) as (v & E & Hv);
      [intros ?? [=]; done | done | done | exists v; split; [exact E|]];
      apply (lists_body _ l); [intros [] ?; simpl; naive_solver | done]
  end.

Lemma all_walked s : walked s.
Proof.
  induction s as [l Hl|i l Hl|d n|i c e l _ Hl|t|e|t e|t r l Hl|n e t|n t|c t f Ht Hf|e]
    using Statement_rect'.
  1,2,8: body_case.
  all: try (intros _; exists []; split; [done|]; split; [constructor|];
            intros [|[] ?] ?; simpl; (split; [inversion 1|done])).
  - intros Hp. simpl in Hp. destruct i as [i|]; [|done]. apply andb_prop in Hp as [Hi Hp].
    destruct (each_of_block_lists In_body 0 l) as (v & E & Hv); [intros ?? [=]; done|done|done|].
    simpl. rewrite E. simpl. eexists. split; [done|]. by apply lists_for.
  - intros Hp. simpl in Hp. apply andb_prop in Hp as [Hp1 Hp2].
    destruct (each_of_block_lists In_body 0 t) as (a & Ea & Ha); [intros ?? [=]; done|done|done|].
    simpl. rewrite Ea. destruct f as [f|]; simpl.
    + destruct (each_of_block_lists In_else 0 f) as (b & Eb & Hb); [intros ?? [=]; done|by apply Hf|done|].
      rewrite Eb. simpl. eexists. split; [done|]. by apply lists_if.
    + exists a. split; [done|]. apply (lists_body _ t); [intros [] ?; simpl; naive_solver|done].
Qed.

(** ** The pass that reserves the stack ([Compiler::compile], [src/src/reir/exec/compiler.cpp]) *)

(** The nodes on which [alloca_stack] runs when it is called on one node: [For] passes the call on
    to its initialisation.  [If] passes it on to its blocks, whose [alloca_stack] does nothing. *)
Fixpoint alloca_calls (p : path) (s : Statement) : result visits :=
  match s with
  | For None _ _ _ => UB
  | For (Some i) _ _ _ => v ← alloca_calls (p ++ [In_init]) i; Ok ((p, s) :: v)
  | _ => Ok [(p, s)]
  end.

Fixpoint alloca_all (v : visits) : result visits :=
  match v with
  | [] => Ok []
  | (p, s) :: v => a ← alloca_calls p s; b ← alloca_all v; Ok (a ++ b)
  end.

(** [whole_block->each_statement(... n->alloca_stack(ctx) ...)] *)
Definition alloca_pass (l : list Statement) : result visits :=
  v ← each_statement (Block l); alloca_all v.

(** The path of a [for]'s initialisation. *)
Definition ends_init (p : path) : bool :=
  match last p with Some In_init => true | _ => false end.

Definition inits (v : visits) : visits :=
  concat ((λ '(p, s), match s with For (Some i) _ _ _ => [(p ++ [In_init], i)] | _ => [] end) <$> v).

Lemma at_path_app s p q : at_path s (p ++ q) = (t ← at_path s p; at_path t q).
Proof. revert s. induction p as [|c p IH]; intros s; simpl; [done|]. by destruct (child s c); simpl. Qed.

Lemma plain_child s q t :
  plain_inits s = true → child s q = Some t → plain_inits t = true ∧ (q = In_init → is_leaf t = true).
Proof.
  assert (Hb : ∀ l i, forallb plain_inits l = true → l !! i = Some t → plain_inits t = true).
  { intros l i Hl Hi. rewrite forallb_forall in Hl. apply Hl, list_elem_of_In.
    by eapply list_elem_of_lookup_2. }
  destruct s as [l|? l|?|i ?? l|?|?|?|?? l|?|?|? l f|?]; destruct q; intros Hs Hc; simpl in *;
    try done; try (split; [by eapply Hb|done]).
  - destruct i; [|done]. apply andb_prop in Hs as []. split; [by eapply Hb|done].
  - subst i. apply andb_prop in Hs as [Hi _]. split; [by destruct t|done].
  - apply andb_prop in Hs as [Hs _]. split; [by eapply Hb|done].
  - destruct f; [|done]. apply andb_prop in Hs as [_ Hs]. split; [by eapply Hb|done].
Qed.

Lemma plain_at s p t : plain_inits s = true → at_path s p = Some t → plain_inits t = true.
Proof.
  revert s. induction p as [|q p IH]; intros s Hs Ht; simpl in *; [congruence|].
  destruct (child s q) as [u|] eqn:E; [|done]. by apply plain_child in E as [? _]; eauto.
Qed.

(** Calling [alloca_stack] on plain nodes: each node, and each [for]'s initialisation. *)
Lemma alloca_all_perm v :
  (∀ p s, (p, s) ∈ v → plain_inits s = true) → ∃ w, alloca_all v = Ok w ∧ w ≡ₚ v ++ inits v.
Proof.
  induction v as [|[p s] v IH]; intros Hv; simpl; [by exists []|].
  destruct IH as (w & E & Hw); [intros q x Hq; apply (Hv q); by right|].
  assert (plain_inits s = true) as Hs by (apply (Hv p); by left). rewrite E.
  unfold inits. rewrite fmap_cons. simpl. fold (inits v).
  destruct s as [| | |[i|] c e l| | | | | | | |]; simpl in *; try done;
    try (eexists; split; [done|]; by rewrite Hw).
  apply andb_prop in Hs as [Hi _].
  replace (alloca_calls (p ++ [In_init]) i) with (Ok [(p ++ [In_init], i)]) by by destruct i.
  simpl. eexists. split; [done|]. rewrite Hw. simpl. constructor.
  by rewrite Permutation_middle.
Qed.

Lemma ends_init_snoc p q : ends_init (p ++ [q]) = bool_decide (q = In_init).
Proof. unfold ends_init. rewrite last_snoc. by destruct q. Qed.

Lemma elem_of_inits r x v :
  (r, x) ∈ inits v ↔ ∃ p c e l, r = p ++ [In_init] ∧ (p, For (Some x) c e l) ∈ v.
Proof.
  unfold inits. rewrite list_elem_of_In, in_concat. setoid_rewrite <- list_elem_of_In.
  setoid_rewrite list_elem_of_fmap. split.
  - intros (? & ([p s] & -> & Hp) & Hx). destruct s as [| | |[i|] c e l| | | | | | | |]; try by inversion Hx.
    apply list_elem_of_singleton in Hx. simplify_eq. eauto 8.
  - intros (p & c & e & l & -> & Hp). eexists. split; [exists (p, For (Some x) c e l); done|].
    by apply list_elem_of_singleton.
Qed.

Lemma NoDup_inits v : NoDup v.*1 → NoDup (inits v).*1.
Proof.
  induction v as [|[p s] v IH]; intros Hv; [constructor|].
  rewrite fmap_cons in Hv. apply NoDup_cons in Hv as [Hp Hv].
  unfold inits. rewrite fmap_cons. simpl. fold (inits v).
  destruct s as [| | |[i|] c e l| | | | | | | |]; simpl; eauto.
  apply NoDup_cons. split; [|eauto].
  intros ([r x] & E & (q & c' & e' & l' & -> & Hq)%elem_of_inits)%list_elem_of_fmap.
  simpl in E. apply app_inj_2 in E as [-> _]; [|done].
  apply Hp, list_elem_of_fmap. by exists (q, For (Some x) c' e' l').
Qed.

Lemma lists_inits l v :
  lists v (walk (Block l)) →
  lists (inits v) (λ p, if ends_init p then walk (Block l) p else None).
Proof.
  intros [Hn Hv]. split; [by apply NoDup_inits|]. intros r x. rewrite elem_of_inits.
  setoid_rewrite Hv. split.
  - intros (p & c & e & b & -> & Hp). rewrite ends_init_snoc.
    destruct p as [|q p]; [done|]. simpl in *.
    destruct q; simpl in *; try done. destruct (l !! i); simpl in *; [|done].
    rewrite at_path_app, Hp. done.
  - destruct r as [|q r _] using rev_ind; [done|]. rewrite ends_init_snoc.
    case_bool_decide; [subst q|done]. intros Hw.
    assert (at_path (Block l) (r ++ [In_init]) = Some x) as H by by destruct r.
    rewrite at_path_app in H. destruct (at_path (Block l) r) as [t|] eqn:E; [|done]. simpl in H.
    destruct t as [| | |i c e b| | | | | | | |]; try done. simpl in H. destruct i as [i|]; [|done].
    simpl in H. injection H as ->. exists r, c, e, b. split; [done|].
    destruct r; [by injection E|done].
Qed.

(** ** The properties *)

(** where every [for] has a simple initialisation, [each_statement] visits every statement
    nested in a statement, at any depth and through every kind of statement, exactly once. *)
Theorem each_statement_complete s :
  plain_inits s = true →
  ∃ v, each_statement s = Ok v ∧ NoDup v.*1 ∧
       ∀ p x, (p, x) ∈ v ↔ p ≠ [] ∧ at_path s p = Some x.
Proof.
  intros Hs. destruct (all_walked s Hs) as (v & E & Hn & Hv). exists v. split; [done|]. split; [done|].
  intros p x. rewrite Hv. destruct p; simpl; naive_solver.
Qed.

Definition one : Expression := PrimaryExpression (maybe_of_int 1).
Definition nest : list Statement :=
  [For (Some (Let (lit "i") one None)) (Some one) (Some one)
     [If one [Emit one] (Some [Jump break_jump]); Scan (lit "t") (lit "r") [Block []]]].

Lemma each_statement_complete_witness :
  plain_inits (Block nest) = true ∧
  ∃ v, each_statement (Block nest) = Ok v ∧ NoDup v.*1 ∧
       ∀ p x, (p, x) ∈ v ↔ p ≠ [] ∧ at_path (Block nest) p = Some x.
Proof. split; [reflexivity|]. apply (each_statement_complete (Block nest)). reflexivity. Defined.

(** C26: the pass that reserves stack space calls [alloca_stack] on every statement of the program
    once, and on the initialisation of every [for] a second time.  For programs each of whose [for]s
    has an initialisation that holds no other statements ([plain_inits]); the statements of a block
    used as an initialisation are not visited ([init_block_unreserved]). *)
Theorem alloca_pass_calls l :
  plain_inits (Block l) = true →
  ∃ w nodes again, alloca_pass l = Ok w ∧ w ≡ₚ nodes ++ again ∧
    lists nodes (walk (Block l)) ∧
    lists again (λ p, if ends_init p then walk (Block l) p else None).
Proof.
  intros Hl. destruct (all_walked (Block l) Hl) as (v & E & Hv).
  destruct (alloca_all_perm v) as (w & Ew & Hw).
  { intros p s Hp. apply Hv in Hp. eapply (plain_at (Block l) p); [done|]. by destruct p. }
  exists w, v, (inits v). unfold alloca_pass. rewrite E. simpl. split; [done|]. split; [done|].
  split; [done|]. by apply lists_inits.
Qed.

Lemma alloca_pass_calls_witness :
  plain_inits (Block nest) = true ∧
  ∃ w nodes again, alloca_pass nest = Ok w ∧ w ≡ₚ nodes ++ again ∧
    lists nodes (walk (Block nest)) ∧
    lists again (λ p, if ends_init p then walk (Block nest) p else None).
Proof. split; [reflexivity|]. apply (alloca_pass_calls nest). reflexivity. Defined.

(** A statement inside a block that initialises a [for] is never visited: no stack is reserved
    for the variable it declares. *)
Theorem init_block_unreserved :
  ∃ w, alloca_pass [For (Some (Block [Let (lit "i") one None])) (Some one) (Some one) []] = Ok w ∧
       Forall (λ '(_, s), match s with Let _ _ _ => False | _ => True end) w.
Proof. eexists. split; [vm_compute; reflexivity|]. repeat constructor. Qed.
