(* ===== verification/Layout.v ===== *)
(** * Layout: the records of compiled statements
      ([Define], [Insert] and [Scan] of [src/src/reir/exec/ast_statement_codegen.cpp])

    [Define::alloca_stack] turns an analysed tuple type into a schema while compiling.  The code
    that [Insert::codegen] emits builds a key and a value on the stack by copying pieces of a row;
    the code that [Scan::codegen] emits reads a row out of a key and a value.  The offsets are
    constants computed while compiling, so the emitted code is modelled by what it does to the
    stack buffers: [mem_read] and [mem_write] at those offsets, [UB] outside the buffers.  The
    buffers' initial contents are arbitrary.  LLVM and the storage engine are not part of the
    program: what they decide (the row's LLVM type, the bytes of the row) is an argument.  Integers
    are stored in the little-endian order of the target the program is compiled for. *)

From Stdlib Require Import ZArith NArith Ascii String Lia.
From stdpp Require Import base option list strings gmap.
From S2P Require Import Prelude Value Attr Schema MetaData Ast.

(** ** [Define::alloca_stack] *)

(** One turn of the loop: the column [i], or nothing for types the loop has no case for. *)
Definition define_column (d : TupleDecl) (types : list TypeId.type_id) (i : nat) (name : cstr)
    : result (option Attribute) :=
  t ← at_index types i;
  match t with
  | TypeId.INTEGER =>
      p ← at_index (props_ d) i; Ok (Some (mk_attribute name (mk_attr_type INTEGER 0) p))
  | TypeId.DOUBLE =>
      p ← at_index (props_ d) i; Ok (Some (mk_attribute name (mk_attr_type DOUBLE 0) p))
  | TypeId.STRING =>
      param ← at_index (params_ d) i;
      p ← at_index (props_ d) i;
      let size := match param with Some z => to_size_t z | None => 0%N end in
      Ok (Some (mk_attribute name (mk_attr_type STRING size) p))
  | _ => Ok None
  end.

Fixpoint define_attrs (d : TupleDecl) (types : list TypeId.type_id) (i : nat) (names : list cstr)
    : result (list Attribute) :=
  match names with
  | [] => Ok []
  | n :: names =>
      a ← define_column d types i n;
      r ← define_attrs d types (S i) names;
      Ok (match a with Some a => a :: r | None => r end)
  end.

Abbreviation schema_table := (gmap cstr Schema).

(** The table of the compiler's context and the catalogue, which both get the schema. *)
Definition define_alloca {St : Type} `{KVStore St} (d : TupleDecl) (types : list TypeId.type_id)
    (name : cstr) (tbl : schema_table) (md : MetaData St) : result (schema_table * MetaData St) :=
  attrs ← define_attrs d types 0 (names_ d);
  Ok (<[name := mk_schema name attrs]> tbl, create_table md name attrs).

(** ** [Insert] *)

(** [Insert::alloca_stack]: the sizes of the two buffers it reserves.  [initialized] tells whether
    [key_stack_] is already set, [row_type] what [value_->get_type] gives. *)
Definition insert_alloca {A : Type} (tbl : schema_table) (table : cstr) (initialized : bool)
    (row_type : result A) : result (nat * nat) :=
  match tbl !! table with
  | None => Throw (lit "undefined table :" ++ table)
  | Some s =>
      if negb (fixed_key_length s) then throw "fixed length key is available" else
      if negb (fixed_value_length s) then throw "fixed length value is available" else
      key_size ← get_fixed_key_length s;
      value_size ← get_fixed_value_length s;
      if initialized then throw "key_stack is already initialized" else
      _ ← row_type;
      Ok (key_size, value_size)
  end.

(** The loop of [Insert::codegen] over the [n] elements of the row type that are left. *)
Fixpoint copy_columns (s : Schema) (row : cstr) (i n : nat) (key value : cstr)
    (key_idx value_idx offset : nat) : result (cstr * cstr) :=
  match n with
  | O => Ok (take key_idx key, take value_idx value)
  | S n =>
      k ← schema_is_key s i;
      len ← get_tuple_length s i;
      src ← mem_read row offset len;
      if (k : bool) then
        key ← mem_write key key_idx src;
        copy_columns s row (S i) n key value (key_idx + len) value_idx (offset + len)
      else
        value ← mem_write value value_idx src;
        copy_columns s row (S i) n key value key_idx (value_idx + len) (offset + len)
  end.

(** [Insert::codegen]: the key and the value handed to the engine.  [elements] is the number of
    elements of the row's LLVM type if that is a struct. *)
Definition insert_record (s : Schema) (elements : option nat) (row key_stack value_stack : cstr)
    : result (cstr * cstr) :=
  match elements with
  | None => throw "non row type cant be inserted"
  | Some elements =>
      let key_prefix := get_key_prefix s in
      key ← mem_write key_stack 0 key_prefix;
      copy_columns s row 0 elements key value_stack (length key_prefix) 0 0
  end.

(** ** [Scan] *)

(** [key_prefix_end[key_prefix_end.size() - 2]++] on a copy of the prefix. *)
Definition prefix_end (prefix : cstr) : result cstr :=
  if decide (length prefix < 2) then UB else
  let i := length prefix - 2 in
  c ← at_index prefix i;
  Ok (<[i := byte_of_Z (Z_of_byte c + 1)]> prefix).

(** [Scan::alloca_stack]: the buffers' sizes and the two ends of the scanned range.  The schema is
    not tested for null. *)
Definition scan_alloca (tbl : schema_table) (table : cstr) (initialized : bool)
    : result (nat * nat * cstr * cstr) :=
  match tbl !! table with
  | None => UB
  | Some s =>
      if negb (fixed_key_length s) then throw "fixed length row is available" else
      if negb (fixed_value_length s) then throw "fixed length row is available" else
      let prefix := get_key_prefix s in
      e ← prefix_end prefix;
      key_size ← get_fixed_key_length s;
      value_size ← get_fixed_value_length s;
      if initialized then throw "key_stack is already initialized" else
      if forallb (λ a, is_integer (a_type a)) (attrs_ s) then Ok (key_size, value_size, prefix, e)
      else throw "non-integer type is not supported yet"
  end.

(** The loop of [Scan::codegen]: eight bytes for each column. *)
Fixpoint read_columns (s : Schema) (key value : cstr) (i n : nat) (key_offset value_offset : nat)
    : result (list Z) :=
  match n with
  | O => Ok []
  | S n =>
      k ← schema_is_key s i;
      if (k : bool) then
        record ← mem_read key key_offset 8;
        r ← read_columns s key value (S i) n (key_offset + 8) value_offset;
        Ok (i64_of_bytes record :: r)
      else
        record ← mem_read value value_offset 8;
        r ← read_columns s key value (S i) n key_offset (value_offset + 8);
        Ok (i64_of_bytes record :: r)
  end.

(** [Scan::codegen], one record: the engine copies the record's key and value to the buffers. *)
Definition scan_record (s : Schema) (key value key_stack value_stack : cstr) : result (list Z) :=
  key_stack ← mem_write key_stack 0 key;
  value_stack ← mem_write value_stack 0 value;
  read_columns s key_stack value_stack 0 (columns s) (length (get_key_prefix s)) 0.

(** The engine keeps keys in the order of their bytes; a cursor runs from its first key up to, and
    not including, its last. *)
Fixpoint key_lt (a b : cstr) : bool :=
  match a, b with
  | _, [] => false
  | [], _ :: _ => true
  | x :: a, y :: b =>
      (Z_of_byte x <? Z_of_byte y)%Z || ((Z_of_byte x =? Z_of_byte y)%Z && key_lt a b)
  end.

Definition in_range (from to k : cstr) : bool := negb (key_lt k from) && key_lt k to.

(** ** Tables of integer columns *)

(** A column the compiled code handles: an integer that cannot be null. *)
Definition plain_column (a : Attribute) : Prop :=
  int_column a ∧ has_property a P_NULLABLE = false.

(** The bytes of a row of 64-bit integers, and the row as the library's cells. *)
Definition row_bytes (zs : list Z) : cstr := concat (bytes_of_i64 <$> zs).
Definition cells_of (zs : list Z) : Schema.row := maybe_of_int <$> zs.

Lemma plain_cell a z : plain_column a → cell_bytes a (maybe_of_int z) = bytes_of_i64 z.
Proof.
  intros [_ Hn]. unfold cell_bytes. destruct (N.eqb_spec (property_ a) P_NULLABLE) as [E|]; [|done].
  unfold has_property in Hn. by rewrite E in Hn.
Qed.

Lemma plain_size a : plain_column a → Attribute_default_size a = Ok 8.
Proof.
  intros [Hi Hn]. unfold Attribute_default_size, AttrType_default_size. rewrite Hi. simpl.
  fold (has_property a P_NULLABLE). by rewrite Hn.
Qed.

Lemma cells_of_ok attrs zs :
  Forall plain_column attrs → length zs = length attrs → Forall is_i64 zs →
  Forall2 cell_ok attrs (cells_of zs).
Proof.
  intros Ha. revert zs. induction Ha as [|a attrs [Hi _] Ha IH]; intros [|z zs] Hl Hz; try done.
  inversion Hz; subst. unfold cells_of. rewrite fmap_cons. constructor; [|by apply IH; [simpl in Hl; lia|]].
  split; [done|]. split; [done|]. by left.
Qed.

Lemma plain_ints attrs : Forall plain_column attrs → Forall int_column attrs.
Proof. intros H. eapply Forall_impl; [exact H|]. by intros a [? _]. Qed.

Lemma mem_write_here pre bs rest :
  length bs ≤ length rest →
  mem_write (pre ++ rest) (length pre) bs = Ok (pre ++ bs ++ drop (length bs) rest).
Proof.
  intros H. rewrite mem_write_Ok by (rewrite length_app; lia).
  by rewrite take_app_length, drop_app_ge, Nat.add_comm, Nat.add_sub by lia.
Qed.

Lemma column_at s pre a attrs i :
  attrs_ s = pre ++ a :: attrs → i = length pre → at_index (attrs_ s) i = Ok a.
Proof. intros -> ->. by apply at_index_middle. Qed.

Lemma copy_columns_cells s pre attrs zs rpre kd kf vd vf i off kn vn :
  attrs_ s = pre ++ attrs → Forall plain_column attrs → length zs = length attrs →
  i = length pre → off = length rpre → kn = length kd → vn = length vd →
  length (cells is_key attrs (cells_of zs)) ≤ length kf →
  length (cells value_column attrs (cells_of zs)) ≤ length vf →
  copy_columns s (rpre ++ row_bytes zs) i (length attrs) (kd ++ kf) (vd ++ vf) kn vn off
  = Ok (kd ++ cells is_key attrs (cells_of zs), vd ++ cells value_column attrs (cells_of zs)).
Proof.
  intros Hs Ha. revert pre zs rpre kd kf vd vf i off kn vn Hs.
  induction Ha as [|a attrs Ha Has IH];
    intros pre zs rpre kd kf vd vf i off kn vn Hs Hl -> -> -> -> Hk Hv.
  { destruct zs; [|done]. simpl. by rewrite !take_app_length, !app_nil_r. }
  destruct zs as [|z zs]; [done|]. simpl in Hl. unfold cells_of in *. rewrite fmap_cons in *.
  cbn [cells length] in *. rewrite plain_cell in * by done. rewrite !length_app in Hk, Hv.
  pose proof (length_bytes_of_i64 z) as L8.
  assert (Hrow : rpre ++ row_bytes (z :: zs) = (rpre ++ bytes_of_i64 z) ++ row_bytes zs)
    by by rewrite <- app_assoc.
  cbn [copy_columns]. unfold schema_is_key, get_tuple_length. rewrite (column_at s pre a attrs) by done.
  cbn [mbind result_bind]. rewrite plain_size by done. cbn [mbind result_bind].
  rewrite Hrow. rewrite <- app_assoc at 1. rewrite mem_read_at by done. cbn [mbind result_bind].
  assert (Hs' : attrs_ s = (pre ++ [a]) ++ attrs) by by rewrite <- app_assoc.
  unfold value_column at 1. unfold value_column at 1 in Hv. destruct (is_key a) eqn:K; simpl in Hk, Hv.
  - rewrite mem_write_here by lia. cbn [mbind result_bind]. rewrite app_assoc.
    rewrite (IH (pre ++ [a])); rewrite ?length_app, ?length_drop, ?L8; simpl; try done; try lia.
    by rewrite <- app_assoc.
  - rewrite mem_write_here by lia. cbn [mbind result_bind]. rewrite (app_assoc vd).
    rewrite (IH (pre ++ [a])); rewrite ?length_app, ?length_drop, ?L8; simpl; try done; try lia.
    by rewrite <- app_assoc.
Qed.

Lemma sum_sizes_plain sel attrs zs ret :
  Forall plain_column attrs → length zs = length attrs →
  sum_sizes sel attrs ret = Ok (ret + length (cells sel attrs (cells_of zs))).
Proof.
  intros Ha. revert zs ret. induction Ha as [|a attrs Ha Has IH]; intros [|z zs] ret Hl; try done.
  { simpl. by rewrite Nat.add_0_r. }
  simpl in *. rewrite plain_size, plain_cell by done. rewrite length_app.
  destruct (sel a); simpl; rewrite (IH zs) by lia; [|done].
  rewrite length_bytes_of_i64. f_equal. lia.
Qed.

Lemma plain_fixed s :
  Forall plain_column (attrs_ s) → fixed_key_length s = true ∧ fixed_value_length s = true.
Proof.
  intros H. unfold fixed_key_length, fixed_value_length. rewrite !forallb_forall.
  split; intros a Ha%list_elem_of_In; rewrite Forall_forall in H; apply H in Ha as [Hi _];
    unfold Attribute_fixed_length, AttrType_fixed_length; rewrite Hi; simpl; by destruct (is_key a).
Qed.

(** The sizes of the buffers, against the records. *)
Lemma plain_lengths s zs :
  Forall plain_column (attrs_ s) → length zs = length (attrs_ s) →
  get_fixed_key_length s = Ok (length (key_bytes s (cells_of zs)) + 1) ∧
  get_fixed_value_length s = Ok (length (val_bytes s (cells_of zs))).
Proof.
  intros Ha Hl. destruct (plain_fixed s Ha) as [Hk Hv].
  unfold get_fixed_key_length, get_fixed_value_length. rewrite Hk, Hv. simpl.
  rewrite !(sum_sizes_plain _ _ zs) by done. simpl. split; [|done].
  unfold key_bytes. by rewrite length_app, length_get_prefix.
Qed.

Lemma insert_record_bytes s zs key_stack value_stack :
  Forall plain_column (attrs_ s) → length zs = length (attrs_ s) →
  get_fixed_key_length s = Ok (length key_stack) →
  get_fixed_value_length s = Ok (length value_stack) →
  insert_record s (Some (columns s)) (row_bytes zs) key_stack value_stack
  = Ok (key_bytes s (cells_of zs), val_bytes s (cells_of zs)).
Proof.
  intros Ha Hl Hk Hv. destruct (plain_lengths s zs Ha Hl) as [Lk Lv].
  rewrite Lk in Hk. rewrite Lv in Hv. injection Hk as Hk. injection Hv as Hv.
  unfold insert_record, key_bytes, val_bytes in *. rewrite length_app in Hk.
  change (get_key_prefix s) with (get_prefix s).
  pose proof (mem_write_here [] (get_prefix s) key_stack) as E. simpl in E. rewrite E by lia.
  cbn [mbind result_bind].
  apply (copy_columns_cells s [] (attrs_ s) zs [] (get_prefix s) _ [] value_stack);
    rewrite ?length_drop; try done; lia.
Qed.

Lemma read_columns_cells s pre attrs zs kd kr vd vr i kn vn :
  attrs_ s = pre ++ attrs → Forall plain_column attrs → length zs = length attrs → Forall is_i64 zs →
  i = length pre → kn = length kd → vn = length vd →
  read_columns s (kd ++ cells is_key attrs (cells_of zs) ++ kr)
                 (vd ++ cells value_column attrs (cells_of zs) ++ vr) i (length attrs) kn vn = Ok zs.
Proof.
  intros Hs Ha. revert pre zs kd vd i kn vn Hs.
  induction Ha as [|a attrs Ha Has IH]; intros pre zs kd vd i kn vn Hs Hl Hz -> -> ->; [by destruct zs|].
  destruct zs as [|z zs]; [done|]. simpl in Hl. inversion Hz as [|?? Hz1 Hzs]; subst.
  unfold cells_of. rewrite fmap_cons. fold (cells_of zs). cbn [cells length read_columns].
  rewrite plain_cell by done. pose proof (length_bytes_of_i64 z) as L8.
  unfold schema_is_key. rewrite (column_at s pre a attrs) by done. cbn [mbind result_bind].
  assert (Hs' : attrs_ s = (pre ++ [a]) ++ attrs) by by rewrite <- app_assoc.
  replace (value_column a) with (negb (is_key a)) by done. destruct (is_key a) eqn:K; simpl; rewrite <- app_assoc, mem_read_at by done;
    cbn [mbind result_bind]; [rewrite (app_assoc kd)|rewrite (app_assoc vd)];
    (rewrite (IH (pre ++ [a])); rewrite ?length_app, ?L8; simpl; try done; try lia; [];
     by rewrite i64_roundtrip).
Qed.

Lemma scan_record_bytes s zs key_stack value_stack :
  Forall plain_column (attrs_ s) → length zs = length (attrs_ s) → Forall is_i64 zs →
  get_fixed_key_length s = Ok (length key_stack) →
  get_fixed_value_length s = Ok (length value_stack) →
  scan_record s (key_bytes s (cells_of zs)) (val_bytes s (cells_of zs)) key_stack value_stack = Ok zs.
Proof.
  intros Ha Hl Hz Hk Hv. destruct (plain_lengths s zs Ha Hl) as [Lk Lv].
  rewrite Lk in Hk. rewrite Lv in Hv. injection Hk as Hk. injection Hv as Hv.
  unfold scan_record.
  pose proof (mem_write_here [] (key_bytes s (cells_of zs)) key_stack) as E. simpl in E. rewrite E by lia.
  clear E. pose proof (mem_write_here [] (val_bytes s (cells_of zs)) value_stack) as E. simpl in E.
  rewrite E by lia. cbn [mbind result_bind]. unfold key_bytes, val_bytes. rewrite <- app_assoc.
  by apply (read_columns_cells s [] (attrs_ s) zs (get_prefix s) _ []).
Qed.

(** ** The scanned range *)

Lemma key_lt_app p a b : key_lt (p ++ a) (p ++ b) = key_lt a b.
Proof. induction p as [|x p IH]; simpl; [done|]. by rewrite Z.ltb_irrefl, Z.eqb_refl. Qed.

Lemma key_lt_nil a : key_lt a [] = false.
Proof. by destruct a. Qed.

Lemma in_range_app p a b k : in_range (p ++ a) (p ++ b) (p ++ k) = in_range a b k.
Proof. unfold in_range. by rewrite !key_lt_app. Qed.

Definition next_byte (c : ascii) : ascii := byte_of_Z (Z_of_byte c + 1).

Lemma Z_of_byte_bound b : (0 ≤ Z_of_byte b < 256)%Z.
Proof. unfold Z_of_byte. pose proof (N_ascii_bounded b). lia. Qed.

Lemma Z_of_next_byte c : (Z_of_byte c < 255)%Z → Z_of_byte (next_byte c) = (Z_of_byte c + 1)%Z.
Proof.
  intros H. pose proof (Z_of_byte_bound c). unfold next_byte, byte_of_Z.
  rewrite Z.mod_small by lia. unfold Z_of_byte at 1.
  rewrite N_ascii_embedding by (apply N2Z.inj_lt; rewrite Z2N.id by lia; lia).
  rewrite Z2N.id; lia.
Qed.

Lemma Z_of_byte_inj a b : Z_of_byte a = Z_of_byte b → a = b.
Proof.
  unfold Z_of_byte. intros H. apply N2Z.inj in H.
  by rewrite <- (ascii_N_embedding a), H, ascii_N_embedding.
Qed.

Lemma prefix_end_snoc m c : prefix_end (m ++ [c; ":"%char]) = Ok (m ++ [next_byte c; ":"%char]).
Proof.
  unfold prefix_end. rewrite length_app. simpl. rewrite decide_False by lia.
  replace (length m + 2 - 2) with (length m) by lia. rewrite at_index_middle by done.
  simpl. f_equal. by rewrite insert_app_r_alt, Nat.sub_diag by lia.
Qed.

(** A key lies between the two ends exactly if it starts like the first one and goes on from the
    colon up, or starts like the last one and goes on below the colon. *)
Lemma in_range_iff m c k :
  (Z_of_byte c < 255)%Z →
  in_range (m ++ [c; ":"%char]) (m ++ [next_byte c; ":"%char]) k = true ↔
  ∃ r, (k = m ++ c :: r ∧ key_lt r [":"%char] = false) ∨
       (k = m ++ next_byte c :: r ∧ key_lt r [":"%char] = true).
Proof.
  intros Hc. pose proof (Z_of_next_byte c Hc) as Hn.
  split.
  - revert k. induction m as [|x m IH]; intros [|y k] H; try by (unfold in_range in H; simpl in H).
    + unfold in_range in H. simpl in H. rewrite Hn in H. exists k. simpl.
      destruct (Z.ltb_spec (Z_of_byte y) (Z_of_byte c)) as [|Hyc]; [done|].
      destruct (Z.eqb_spec (Z_of_byte y) (Z_of_byte c)) as [E|Hne]; simpl in H.
      * apply Z_of_byte_inj in E as ->. left. split; [done|].
        destruct (key_lt k [":"%char]); done.
      * destruct (Z.ltb_spec (Z_of_byte y) (Z_of_byte c + 1)) as [|_]; [lia|].
        simpl in H. apply andb_prop in H as [H1 H2]. apply Z.eqb_eq in H1.
        right. split; [|done]. f_equal. apply Z_of_byte_inj. lia.
    + unfold in_range in H. simpl in H.
      destruct (Z.ltb_spec (Z_of_byte y) (Z_of_byte x)) as [|Hyx]; [done|].
      destruct (Z.eqb_spec (Z_of_byte y) (Z_of_byte x)) as [E|]; simpl in H; [|done].
      apply Z_of_byte_inj in E as ->. destruct (IH k H) as (r & Hr). exists r. simpl. naive_solver.
  - intros (r & [[-> Hr]|[-> Hr]]); rewrite in_range_app; unfold in_range; simpl.
    + rewrite Hr, Z.ltb_irrefl, Z.eqb_refl, Hn. simpl. by rewrite (proj2 (Z.ltb_lt _ _)) by lia.
    + rewrite Hr, Z.ltb_irrefl, Z.eqb_refl, Hn. simpl.
      rewrite (proj2 (Z.ltb_ge _ _)) by lia. by rewrite (proj2 (Z.eqb_neq _ _)) by lia.
Qed.

Lemma key_in_range s m c t :
  s_name s = m ++ [c] → (Z_of_byte c < 255)%Z →
  in_range (get_key_prefix s) (m ++ [next_byte c; ":"%char]) (key_bytes s t) = true.
Proof.
  intros Hn Hc. unfold get_key_prefix, key_bytes, get_prefix. rewrite Hn, <- !app_assoc. simpl.
  apply in_range_iff; [done|]. exists (":"%char :: cells is_key (attrs_ s) t).
  left. split; [done|]. simpl. by rewrite key_lt_nil.
Qed.

Lemma scan_alloca_plain tbl table s zs m c :
  tbl !! table = Some s → Forall plain_column (attrs_ s) → length zs = length (attrs_ s) →
  s_name s = m ++ [c] →
  scan_alloca tbl table false =
    Ok (length (key_bytes s (cells_of zs)) + 1, length (val_bytes s (cells_of zs)),
        get_key_prefix s, m ++ [next_byte c; ":"%char]).
Proof.
  intros Ht Ha Hl Hn. destruct (plain_fixed s Ha) as [Hk Hv], (plain_lengths s zs Ha Hl) as [Lk Lv].
  assert (forallb (λ a, is_integer (a_type a)) (attrs_ s) = true) as Hi.
  { apply forallb_forall. intros a Hin%list_elem_of_In. rewrite Forall_forall in Ha.
    apply Ha in Hin as [Hi _]. unfold is_integer. rewrite Hi. done. }
  unfold scan_alloca. rewrite Ht, Hk, Hv, Lk, Lv, Hi. simpl. unfold get_key_prefix. rewrite Hn.
  rewrite <- app_assoc. simpl. by rewrite prefix_end_snoc.
Qed.

Lemma insert_alloca_plain {A : Type} tbl table s zs (row_type : A) :
  tbl !! table = Some s → Forall plain_column (attrs_ s) → length zs = length (attrs_ s) →
  insert_alloca tbl table false (Ok row_type) =
    Ok (length (key_bytes s (cells_of zs)) + 1, length (val_bytes s (cells_of zs))).
Proof.
  intros Ht Ha Hl. destruct (plain_fixed s Ha) as [Hk Hv], (plain_lengths s zs Ha Hl) as [Lk Lv].
  unfold insert_alloca. by rewrite Ht, Hk, Hv, Lk, Lv.
Qed.

(** ** The properties *)


Lemma person_plain : Forall plain_column (attrs_ person).
Proof. by repeat constructor. Qed.
Definition person_table : schema_table := {[ lit "person" := person ]}.


(** C23: the compiled insert stores the record that the library's codec describes.  For a table all
    of whose columns are [INTEGER] and not nullable, and a full row of 64-bit integers, its key is what
    [encode_key] and its value what [encode_value] write for the same row.  (A nullable column is
    copied past the row: [nullable_insert_overruns].) *)
Theorem insert_stores_encoding s zs ks vs :
  Forall plain_column (attrs_ s) → length zs = length (attrs_ s) → Forall is_i64 zs →
  get_fixed_key_length s = Ok (length ks) → get_fixed_value_length s = Ok (length vs) →
  ∃ key value,
    insert_record s (Some (columns s)) (row_bytes zs) ks vs = Ok (key, value) ∧
    (∀ mem, length mem = length key → encode_key s (cells_of zs) mem 0 = Ok key) ∧
    (∀ mem, length mem = length value → encode_value s (cells_of zs) mem 0 = Ok value).
Proof.
  intros Ha Hl Hz Hk Hv. do 2 eexists. split; [by apply insert_record_bytes|].
  pose proof (cells_of_ok _ _ Ha Hl Hz) as Hok. pose proof (plain_ints _ Ha) as Hi.
  split; intros mem Hm.
  - rewrite encode_key_bytes by (done || lia). rewrite mem_write_Ok by lia. simpl.
    by rewrite drop_ge, app_nil_r by lia.
  - unfold encode_value. rewrite (encode_selected_cells _ _ [] (cells_of zs)) by (done || (simpl; unfold val_bytes in Hm; lia)).
    rewrite mem_write_Ok by (unfold val_bytes in Hm; lia). simpl. unfold val_bytes in *.
    by rewrite drop_ge, app_nil_r by lia.
Qed.

Lemma insert_stores_encoding_witness :
  ∃ key value,
    insert_record person (Some (columns person)) (row_bytes [7; -30]%Z) (replicate 16 byte1) (replicate 8 byte1)
      = Ok (key, value) ∧
    (∀ mem, length mem = length key → encode_key person (cells_of [7; -30]%Z) mem 0 = Ok key) ∧
    (∀ mem, length mem = length value → encode_value person (cells_of [7; -30]%Z) mem 0 = Ok value).
Proof.
  apply (insert_stores_encoding person).
  - apply person_plain.
  - reflexivity.
  - repeat constructor; vm_compute; congruence.
  - vm_compute. reflexivity.
  - vm_compute. reflexivity.
Defined.



(** A nullable column has nine bytes in a record and eight in a row: the copy runs past the row. *)
Theorem nullable_insert_overruns :
  let s := mk_schema (lit "t") [mk_attribute (lit "a") int_type P_NULLABLE] in
  insert_record s (Some 1) (row_bytes [5%Z]) (replicate 3 byte0) (replicate 9 byte0) = UB.
Proof. reflexivity. Qed.
