(* ===== verification/LLVM.v ===== *)
(** * LLVM: what code generation asks of LLVM's interface
      ([src/src/reir/exec/ast_expression_codegen.cpp], [ast_statement_codegen.cpp], [compiler.cpp])

    LLVM is not part of the repository.  Code generation calls its [IRBuilder], which answers with
    handles; this file records the calls: a module under construction is its basic blocks, each
    the list of the instructions inserted so far with the handle each was given.  Two decisions
    that LLVM takes by itself are the class [LLVM]: whether a call is answered with a constant
    instead of an instruction ([fold]), and the text of a type ([print_type]).

    The README asks for a debug build of LLVM, whose assertions stop the program: a call that
    violates a documented precondition (operands of different types, a store through a pointer to
    another type, a branch on something else than an [i1]) is [Abort]; a null pointer handed to
    LLVM is [UB]. *)

From Stdlib Require Import ZArith NArith Ascii String Lia.
From stdpp Require Import base option list strings gmap.
From S2P Require Import Prelude Value Attr Schema Ast Visit.

(** ** Types *)

(** A struct type is identified by the call that created it, numbered in order. *)
Inductive ltype :=
  | TVoid
  | TInt (w : nat)
  | TDouble
  | TPtr (t : ltype)
  | TArray (t : ltype) (n : nat)
  | TStruct (i : nat).

#[export] Instance ltype_eq_dec : EqDecision ltype.
Proof. solve_decision. Defined.

Abbreviation i1 := (TInt 1).
Abbreviation i8 := (TInt 8).
Abbreviation i32 := (TInt 32).
Abbreviation i64 := (TInt 64).
Abbreviation i8ptr := (TPtr (TInt 8)).
Abbreviation i64ptr := (TPtr (TInt 64)).

(** The struct types of a context: the name each was created with and its elements. *)
Abbreviation structs := (list (list ascii * list ltype)).

Definition isIntegerTy (t : ltype) : bool := match t with TInt _ => true | _ => false end.
Definition isStructTy (t : ltype) : bool := match t with TStruct _ => true | _ => false end.
Definition isVoidTy (t : ltype) : bool := match t with TVoid => true | _ => false end.
Definition isPointerTy (t : ltype) : bool := match t with TPtr _ => true | _ => false end.

(** [Type::getPrimitiveSizeInBits]: zero for pointers and aggregates. *)
Definition getPrimitiveSizeInBits (t : ltype) : nat :=
  match t with TInt w => w | TDouble => 64 | _ => 0 end.

(** ** Values *)

(** Objects of the compiling process whose address the code embeds ([get_ptr]). *)
Inductive host := HContext | HProcArguments.

#[export] Instance host_eq_dec : EqDecision host.
Proof. solve_decision. Defined.

Inductive lvalue :=
  | CInt (w : nat) (z : Z)                     (* [getInt8] ... [getInt64] *)
  | CStr (s : list ascii)                      (* [CreateGlobalStringPtr] *)
  | CStruct (t : ltype) (vs : list lvalue)     (* [ConstantStruct::get] *)
  | CUndef (t : ltype)                         (* [UndefValue::get] *)
  | CHost (h : host)                           (* [ConstantExpr::getIntToPtr] *)
  | Reg (r : nat) (t : ltype).                 (* the value of an instruction *)

(** Induction over values, through the fields of constants. *)
Section lvalue_ind.
Context (P : lvalue → Prop).
Context (HInt : ∀ w z, P (CInt w z)) (HStr : ∀ s, P (CStr s)).
Context (HStruct : ∀ t vs, Forall P vs → P (CStruct t vs)).
Context (HUndef : ∀ t, P (CUndef t)) (HHost : ∀ h, P (CHost h)) (HReg : ∀ r t, P (Reg r t)).
Fixpoint lvalue_rect' (v : lvalue) : P v :=
  let fix go (vs : list lvalue) : Forall P vs :=
    match vs with
    | [] => Forall_nil_2 P
    | v :: vs => Forall_cons_2 P v vs (lvalue_rect' v) (go vs)
    end in
  match v with
  | CInt w z => HInt w z
  | CStr s => HStr s
  | CStruct t vs => HStruct t vs (go vs)
  | CUndef t => HUndef t
  | CHost h => HHost h
  | Reg r t => HReg r t
  end.
End lvalue_ind.

Definition type_of (v : lvalue) : ltype :=
  match v with
  | CInt w _ => TInt w
  | CStr _ => i8ptr
  | CStruct t _ | CUndef t | Reg _ t => t
  | CHost _ => i64ptr
  end.

(** A function: its symbol, its result and its parameters. *)
Record lfunction := mk_function { symbol : cstr; ret_type : ltype; param_types : list ltype }.

(** ** Instructions *)

Inductive binop := Add | Sub | Mul | SDiv | SRem.
Inductive icmp := EQ | NE | SGT | SGE | SLT | SLE.

Inductive instr :=
  | IAlloca (t : ltype)
  | ILoad (p : lvalue)
  | IStore (v p : lvalue)
  | IGEP (p : lvalue) (idx : list lvalue) (t : ltype)
  | IBin (op : binop) (a b : lvalue)
  | IICmp (op : icmp) (a b : lvalue)
  | IInsertValue (agg v : lvalue) (i : nat)
  | IBitCast (v : lvalue) (t : ltype)
  | IMemCpy (dst src len : lvalue)
  | IPhi (t : ltype) (incoming : list (lvalue * nat))
  | ICall (f : lfunction) (args : list lvalue)
  | IBr (b : nat)
  | ICondBr (c : lvalue) (t f : nat)
  | IRet (v : lvalue).

Definition is_terminator (i : instr) : bool :=
  match i with IBr _ | ICondBr _ _ _ | IRet _ => true | _ => false end.

Definition pointee (t : ltype) : ltype := match t with TPtr t => t | _ => TVoid end.

(** The type of the value an instruction computes. *)
Definition instr_type (i : instr) : ltype :=
  match i with
  | IAlloca t => TPtr t
  | ILoad p => pointee (type_of p)
  | IGEP _ _ t => TPtr t
  | IBin _ a _ => type_of a
  | IICmp _ _ _ => i1
  | IInsertValue agg _ _ => type_of agg
  | IBitCast _ t => t
  | IPhi t _ => t
  | ICall f _ => ret_type f
  | IStore _ _ | IMemCpy _ _ _ | IBr _ | ICondBr _ _ _ | IRet _ => TVoid
  end.

(** ** What LLVM decides *)

Class LLVM := {
  (** [IRBuilder]'s constant folder: the value returned in place of an instruction. *)
  fold : instr → option lvalue;
  (** [Type::print] *)
  print_type : structs → ltype → cstr;
}.

(** A folded value has the type of the instruction it stands for. *)
Class LLVMTyping `{LLVM} := fold_type : ∀ i v, fold i = Some v → type_of v = instr_type i.

(** The structs a type mentions are among the first [n]. *)
Fixpoint known (n : nat) (t : ltype) : bool :=
  match t with
  | TStruct k => bool_decide (k < n)
  | TPtr t | TArray t _ => known n t
  | TVoid | TInt _ | TDouble => true
  end.

(** The name code generation gives to a row of these types. *)
Definition signature `{LLVM} (ss : structs) (ts : list ltype) : cstr :=
  lit "{" ++ concat ((λ t, print_type ss t ++ lit ",") <$> ts) ++ lit "}".

(** The text of a type does not change when types are created, and different rows of types have
    different texts. *)
Class PrintLaws `{LLVM} := {
  print_stable ss ss' t :
    ss `prefix_of` ss' → known (length ss) t = true → print_type ss' t = print_type ss t;
  signature_inj ss ts ts' : signature ss ts = signature ss ts' → ts = ts';
}.

(** ** The module under construction *)

Abbreviation code := (list (nat * instr)).

Record LoopContext := mk_loop { begin_ : nat; body_ : nat; every_ : nat; finish_ : nat }.

(** A node of the tree: the path of its statement, then the path of an expression within it. *)
Abbreviation nid := (list pstep * list nat)%type.

(** The members of an [Insert] or a [Scan] that hold LLVM values; the second prefix is [Scan]'s. *)
Record Slots := mk_slots {
  prefix_ : lvalue; prefix_end_ : option lvalue;
  key_stack_ : lvalue; value_stack_ : lvalue; tuple_stack_ : lvalue;
}.

#[export] Instance pstep_countable : Countable pstep.
Proof.
  refine (inj_countable' (λ p, match p with In_body i => inl (inl i) | In_else i => inl (inr i)
                                          | In_init => inr () end)
            (λ x, match x with inl (inl i) => In_body i | inl (inr i) => In_else i
                             | inr () => In_init end) _).
  by intros [].
Defined.

(** [CompilerContext], with the parts of LLVM's context, module, function and builder that code
    generation reads back.  A null entry of a table is no entry. *)
Record cstate := mk_cstate {
  blocks : list (list ascii * code);
  insert_block : option nat;
  next_id : nat;
  struct_types : structs;
  type_table_ : gmap cstr ltype;
  functions_table_ : gmap cstr lfunction;
  variable_table_ : gmap cstr lvalue;
  stack_table_ : gmap nid lvalue;
  slots_table : gmap (list pstep) Slots;
  global_variable_table_ : gmap cstr lvalue;
  local_schema_table_ : gmap cstr Schema;
  loop_ : list LoopContext;
}.

Definition set_blocks s b := mk_cstate b (insert_block s) (next_id s) (struct_types s) (type_table_ s)
  (functions_table_ s) (variable_table_ s) (stack_table_ s) (slots_table s)
  (global_variable_table_ s) (local_schema_table_ s) (loop_ s).
Definition set_insert s b := mk_cstate (blocks s) (Some b) (next_id s) (struct_types s) (type_table_ s)
  (functions_table_ s) (variable_table_ s) (stack_table_ s) (slots_table s)
  (global_variable_table_ s) (local_schema_table_ s) (loop_ s).
Definition set_next s n := mk_cstate (blocks s) (insert_block s) n (struct_types s) (type_table_ s)
  (functions_table_ s) (variable_table_ s) (stack_table_ s) (slots_table s)
  (global_variable_table_ s) (local_schema_table_ s) (loop_ s).
Definition set_types s st tt := mk_cstate (blocks s) (insert_block s) (next_id s) st tt
  (functions_table_ s) (variable_table_ s) (stack_table_ s) (slots_table s)
  (global_variable_table_ s) (local_schema_table_ s) (loop_ s).
Definition set_functions s f := mk_cstate (blocks s) (insert_block s) (next_id s) (struct_types s)
  (type_table_ s) f (variable_table_ s) (stack_table_ s) (slots_table s)
  (global_variable_table_ s) (local_schema_table_ s) (loop_ s).
Definition set_variables s v := mk_cstate (blocks s) (insert_block s) (next_id s) (struct_types s)
  (type_table_ s) (functions_table_ s) v (stack_table_ s) (slots_table s)
  (global_variable_table_ s) (local_schema_table_ s) (loop_ s).
Definition set_stack s v := mk_cstate (blocks s) (insert_block s) (next_id s) (struct_types s)
  (type_table_ s) (functions_table_ s) (variable_table_ s) v (slots_table s)
  (global_variable_table_ s) (local_schema_table_ s) (loop_ s).
Definition set_slots s v := mk_cstate (blocks s) (insert_block s) (next_id s) (struct_types s)
  (type_table_ s) (functions_table_ s) (variable_table_ s) (stack_table_ s) v
  (global_variable_table_ s) (local_schema_table_ s) (loop_ s).
Definition set_globals s v := mk_cstate (blocks s) (insert_block s) (next_id s) (struct_types s)
  (type_table_ s) (functions_table_ s) (variable_table_ s) (stack_table_ s) (slots_table s)
  v (local_schema_table_ s) (loop_ s).
Definition set_schemas s v := mk_cstate (blocks s) (insert_block s) (next_id s) (struct_types s)
  (type_table_ s) (functions_table_ s) (variable_table_ s) (stack_table_ s) (slots_table s)
  (global_variable_table_ s) v (loop_ s).
Definition set_loop s v := mk_cstate (blocks s) (insert_block s) (next_id s) (struct_types s)
  (type_table_ s) (functions_table_ s) (variable_table_ s) (stack_table_ s) (slots_table s)
  (global_variable_table_ s) (local_schema_table_ s) v.

(** ** Code generation: a context passed along, with the ends of [result] *)

Definition cg (A : Type) : Type := cstate → result (A * cstate).

#[export] Instance cg_ret : MRet cg := λ A a s, Ok (a, s).
#[export] Instance cg_bind : MBind cg := λ A B k m s,
  match m s with
  | Ok (a, s') => k a s'
  | Throw w => Throw w
  | Abort => Abort
  | UB => UB
  | OutOfFuel => OutOfFuel
  end.

Definition cg_lift {A} (r : result A) : cg A := λ s, a ← r; Ok (a, s).
Definition gets {A} (f : cstate → A) : cg A := λ s, Ok (f s, s).
Definition modify (f : cstate → cstate) : cg unit := λ s, Ok (tt, f s).
Definition cg_throw {A} (s : string) : cg A := λ _, throw s.
Definition cg_throw_text {A} (what : cstr) : cg A := λ _, Throw what.
Definition cg_abort {A} : cg A := λ _, Abort.
Definition cg_ub {A} : cg A := λ _, UB.

(** A pointer that must not be null. *)
Definition not_null {A} (o : option A) : cg A :=
  match o with Some a => mret a | None => cg_ub end.

(** An assertion of LLVM. *)
Definition llvm_assert (b : bool) : cg unit := if b then mret tt else cg_abort.

Lemma cg_bind_Ok {A B} (m : cg A) (k : A → cg B) s r :
  (m ≫= k) s = Ok r ↔ ∃ a s', m s = Ok (a, s') ∧ k a s' = Ok r.
Proof.
  unfold mbind, cg_bind. destruct (m s) as [[a s']| | | |]; split; try done.
  - eauto.
  - by intros (? & ? & [= <- <-] & ?).
  - by intros (? & ? & ? & ?).
  - by intros (? & ? & ? & ?).
  - by intros (? & ? & ? & ?).
  - by intros (? & ? & ? & ?).
Qed.

Lemma cg_bind_run {A B} (m : cg A) (k : A → cg B) s a s' :
  m s = Ok (a, s') → (m ≫= k) s = k a s'.
Proof. intros E. unfold mbind, cg_bind. by rewrite E. Qed.

(** ** The builder *)

Section builder.
Context `{LLVM}.

(** [BasicBlock::Create] with a parent function appends an empty block to it. *)
Definition create_block (name : string) : cg nat := λ s,
  Ok (length (blocks s), set_blocks s (blocks s ++ [(lit name, [])])).

Definition SetInsertPoint (b : nat) : cg unit := modify (λ s, set_insert s b).

Definition GetInsertBlock : cg nat := ib ← gets insert_block; not_null ib.

(** Append an instruction to the insertion block; its value is a fresh handle. *)
Definition insert_instr (i : instr) : cg lvalue := λ s,
  match insert_block s with
  | None => UB
  | Some b =>
      Ok (Reg (next_id s) (instr_type i),
          set_next (set_blocks s (alter (λ '(n, c), (n, c ++ [(next_id s, i)])) b (blocks s)))
            (S (next_id s)))
  end.

(** The calls that go through the constant folder. *)
Definition insert_folded (i : instr) : cg lvalue :=
  match fold i with Some v => mret v | None => insert_instr i end.

Definition CreateAlloca (t : ltype) : cg lvalue :=
  _ ← llvm_assert (negb (isVoidTy t));
  insert_instr (IAlloca t).

Definition CreateLoad (p : lvalue) : cg lvalue :=
  _ ← llvm_assert (isPointerTy (type_of p));
  insert_instr (ILoad p).

Definition CreateStore (v p : lvalue) : cg unit :=
  _ ← llvm_assert (bool_decide (type_of p = TPtr (type_of v)));
  _ ← insert_instr (IStore v p);
  mret tt.

Definition CreateBin (op : binop) (a b : lvalue) : cg lvalue :=
  _ ← llvm_assert (isIntegerTy (type_of a) && bool_decide (type_of a = type_of b));
  insert_folded (IBin op a b).

Definition CreateICmp (op : icmp) (a b : lvalue) : cg lvalue :=
  _ ← llvm_assert ((isIntegerTy (type_of a) || isPointerTy (type_of a)) &&
                   bool_decide (type_of a = type_of b));
  insert_folded (IICmp op a b).

(** The type an aggregate has at an index. *)
Definition element_type (ss : structs) (t : ltype) (i : nat) : option ltype :=
  match t with
  | TStruct k => '(_, ts) ← ss !! k; ts !! i
  | TArray t n => if decide (i < n) then Some t else None
  | _ => None
  end.

Definition CreateInsertValue (agg v : lvalue) (i : nat) : cg lvalue :=
  ss ← gets struct_types;
  _ ← llvm_assert (bool_decide (element_type ss (type_of agg) i = Some (type_of v)));
  insert_folded (IInsertValue agg v i).

(** [GetElementPtrInst::getIndexedType]: a struct is indexed by a constant, an array by any
    integer; the first index steps over the pointer itself. *)
Fixpoint indexed_type (ss : structs) (t : ltype) (idx : list lvalue) : option ltype :=
  match idx with
  | [] => Some t
  | v :: idx =>
      match t, v with
      | TStruct _, CInt _ z => t ← element_type ss t (Z.to_nat z); indexed_type ss t idx
      | TArray t _, _ => if isIntegerTy (type_of v) then indexed_type ss t idx else None
      | _, _ => None
      end
  end.

Definition CreateInBoundsGEP (p : lvalue) (idx : list lvalue) : cg lvalue :=
  ss ← gets struct_types;
  _ ← llvm_assert (isPointerTy (type_of p));
  match idx with
  | [] => cg_abort
  | _ :: idx' =>
      match indexed_type ss (pointee (type_of p)) idx' with
      | Some t => insert_folded (IGEP p idx t)
      | None => cg_abort
      end
  end.

Definition CreateBitCast (v : lvalue) (t : ltype) : cg lvalue :=
  if decide (type_of v = t) then mret v
  else
    _ ← llvm_assert (isPointerTy (type_of v) && isPointerTy t);
    insert_folded (IBitCast v t).

(** [CreateMemCpy] casts its pointers to [i8*] where they point to something else. *)
Definition CreateMemCpy (dst src len : lvalue) : cg unit :=
  d ← CreateBitCast dst i8ptr;
  s ← CreateBitCast src i8ptr;
  _ ← insert_instr (IMemCpy d s len);
  mret tt.

Definition CreateCall (f : lfunction) (args : list lvalue) : cg lvalue :=
  _ ← llvm_assert (bool_decide (type_of <$> args = param_types f));
  insert_instr (ICall f args).

(** [CreatePHI] and its [addIncoming]s. *)
Definition CreatePHI (t : ltype) (incoming : list (lvalue * nat)) : cg lvalue :=
  _ ← llvm_assert (forallb (λ '(v, _), bool_decide (type_of v = t)) incoming);
  insert_instr (IPhi t incoming).

Definition CreateBr (b : nat) : cg unit := _ ← insert_instr (IBr b); mret tt.

Definition CreateCondBr (c : lvalue) (t f : nat) : cg unit :=
  _ ← llvm_assert (bool_decide (type_of c = i1));
  _ ← insert_instr (ICondBr c t f);
  mret tt.

Definition CreateRet (v : lvalue) : cg unit := _ ← insert_instr (IRet v); mret tt.

(** [StructType::create] *)
Definition create_struct (ts : list ltype) (name : cstr) : cg ltype := λ s,
  Ok (TStruct (length (struct_types s)),
      set_types s (struct_types s ++ [(name, ts)]) (type_table_ s)).

(** [Module::getTypeByName]: a name already taken is changed, so the first type has it. *)
Definition find_struct (ss : structs) (name : cstr) : option ltype :=
  (λ '(i, _), TStruct i) <$> list_find (λ '(n, _), n = name) ss.

(** The pointer operand of a load, found by its handle. *)
Definition load_operand (bs : list (list ascii * code)) (v : lvalue) : option lvalue :=
  match v with
  | Reg r _ =>
      match list_find (λ '(k, _), k = r) (concat bs.*2) with
      | Some (_, (_, ILoad p)) => Some p
      | _ => None
      end
  | _ => None
  end.
End builder.

(** ** An instance for evaluation

    A builder that folds the arithmetic of 64-bit constants, and a text of types in which no text
    is the beginning of another. *)

Definition fold_bin (op : binop) (a b : Z) : option Z :=
  match op with
  | Add => Some (signed64 (a + b))
  | Sub => Some (signed64 (a - b))
  | Mul => Some (signed64 (a * b))
  | SDiv | SRem => None
  end.

Definition const_fold (i : instr) : option lvalue :=
  match i with
  | IBin op (CInt w a) (CInt w' b) =>
      if decide (w = 64 ∧ w' = 64) then CInt 64 <$> fold_bin op a b else None
  | _ => None
  end.

Definition unary (n : nat) : cstr := replicate n "1"%char ++ lit ".".

Fixpoint show_type (t : ltype) : cstr :=
  match t with
  | TVoid => lit "v"
  | TInt w => lit "i" ++ unary w
  | TDouble => lit "d"
  | TPtr t => lit "*" ++ show_type t
  | TArray t n => lit "[" ++ unary n ++ show_type t
  | TStruct i => lit "%" ++ unary i
  end.

#[export] Instance folding_llvm : LLVM := {
  fold := const_fold;
  print_type := λ _, show_type;
}.

#[export] Instance folding_typing : LLVMTyping.
Proof.
  intros i v. destruct i as [| | | |op a b| | | | | | | | |]; simpl; try done.
  destruct a as [w x| | | | |], b as [w' y| | | | |]; try done.
  case_decide as Hw; [|done]. destruct Hw as [-> ->]. destruct op; by intros [= <-].
Qed.

Lemma unary_prefix n m r r' : unary n ++ r = unary m ++ r' → n = m ∧ r = r'.
Proof.
  revert m. induction n as [|n IH]; intros [|m]; cbn; intros [= E]; try done.
  destruct (IH m E) as [-> ->]. done.
Qed.

Lemma show_type_prefix t t' r r' : show_type t ++ r = show_type t' ++ r' → t = t' ∧ r = r'.
Proof.
  revert t' r r'. induction t as [|w| |t IH|t IH n|k]; intros [|w'| |t'|t' n'|k'] r r'; cbn;
    rewrite <- ?app_assoc; intros [= E]; try done.
  - apply unary_prefix in E as [-> ->]. done.
  - apply IH in E as [-> ->]. done.
  - apply unary_prefix in E as [-> E]. apply IH in E as [-> ->]. done.
  - apply unary_prefix in E as [-> ->]. done.
Qed.

#[export] Instance folding_print : PrintLaws.
Proof.
  split; [done|]. intros ss ts ts' [= E]. revert ts' E.
  induction ts as [|t ts IH]; intros [|t' ts']; cbn; [done|..].
  - destruct t'; discriminate.
  - destruct t; discriminate.
  - rewrite <- !app_assoc. intros E. apply show_type_prefix in E as [-> E].
    injection E as E. f_equal. by apply IH.
Qed.
