(* ===== verification/CodegenExpr.v ===== *)
(** * CodegenExpr: code generation for expressions
      ([src/src/reir/exec/ast_expression_codegen.cpp])

    [get_type] computes the LLVM type of an expression, [get_value] emits the code that computes
    its value, [get_ref] the code that computes its address.  A node is identified by its path, as
    the source identifies it by its address: [stack_table_] is keyed by nodes, and analysis leaves
    the type and the offset of a member reference in its node ([member]). *)

From Stdlib Require Import ZArith NArith Ascii String Lia.
From stdpp Require Import base option list strings gmap.
From S2P Require Import Prelude Value Attr Schema Ast Visit LLVM.

Section codegen.
Context `{LLVM}.
(** What [MemberReference::analyze] stored in a node: [type_->type_] and [offset_]. *)
Context (member : nid → option (TypeId.type_id * nat)).

(** [type_table_["string"]], never null after [init_types]. *)
Definition string_type : cg ltype := t ← gets type_table_; not_null (t !! lit "string").

Definition value_emitter (v : MaybeValue) : cg lvalue :=
  if exists_ v then
    if is_int (mvalue v) then
      int_value ← cg_lift (as_int (mvalue v));
      mret (CInt 64 int_value)
    else if is_varchar (mvalue v) then
      str ← cg_lift (as_varchar (mvalue v));
      string_struct ← string_type;
      mret (CStruct string_struct [CStr str; CInt 64 (Z.of_nat (length str))])
    else cg_throw "unsupported value"
  else mret (CInt 8 0).

Definition convert_type (t : TypeId.type_id) : cg ltype :=
  match t with
  | TypeId.INTEGER => mret i64
  | TypeId.STRING => string_type
  | TypeId.DOUBLE => mret TDouble
  | TypeId.NONE_TYPE => cg_throw "unknown type"
  | _ => cg_throw_text (lit "convert_type: unknown type: " ++ type_to_string t)
  end.

(** [reinterpret_cast<VariableReference*>(parent_)->name_] *)
Definition callee_name (parent : Expression) : cg cstr :=
  match parent with VariableReference n => mret n | _ => cg_ub end.

Definition find_function (name : cstr) : cg lfunction :=
  fs ← gets functions_table_;
  match fs !! name with
  | None => cg_throw_text (lit "undefined function: " ++ name)
  | Some f => mret f
  end.

(** ** [get_type]; the section's [get_type] is the method of the parts, given a part and its index *)

Section types.
Context (get_type : Expression → nat → cg ltype).

(** The loop over the elements of a row, from the index [i] on. *)
Fixpoint element_types (i : nat) (es : list Expression) : cg (list ltype) :=
  match es with
  | [] => mret []
  | e :: es => t ← get_type e i; ts ← element_types (S i) es; mret (t :: ts)
  end.

Fixpoint signature_loop (i : nat) (es : list Expression) : cg cstr :=
  match es with
  | [] => mret []
  | e :: es =>
      t ← get_type e i;
      ss ← gets struct_types;
      r ← signature_loop (S i) es;
      mret (print_type ss t ++ lit "," ++ r)
  end.

Definition get_type_signature (es : list Expression) : cg cstr :=
  r ← signature_loop 0 es; mret (lit "{" ++ r ++ lit "}").

Definition get_type_primary (v : MaybeValue) : cg ltype :=
  if exists_ v then
    if is_int (mvalue v) then mret i64
    else if is_varchar (mvalue v) then string_type
    else if is_float (mvalue v) then mret TDouble
    else cg_throw "unknown type"
  else mret i32.

Definition get_type_call (parent : Expression) : cg ltype :=
  name ← callee_name parent;
  f ← find_function name;
  mret (ret_type f).

Definition get_type_row (es : list Expression) : cg ltype :=
  sign ← get_type_signature es;
  tt ← gets type_table_;
  match tt !! sign with
  | Some t => mret t
  | None =>
      types ← element_types 0 es;
      new_type ← create_struct types sign;
      _ ← modify (λ s, set_types s (struct_types s) (<[sign := new_type]> (type_table_ s)));
      mret new_type
  end.

Definition get_type_array (es : list Expression) : cg ltype :=
  match es with
  | [] => cg_throw "zero-length array-literal cannot be defined"
  | e :: _ => t ← get_type e 0; mret (TArray t (length es))
  end.

Definition get_type_variable (name : cstr) : cg ltype :=
  vt ← gets variable_table_;
  match vt !! name with
  | Some v => mret (pointee (type_of v))
  | None => cg_throw_text (lit "get_type() value: " ++ name ++ lit " not defined")
  end.

Definition get_type_array_ref (parent : option Expression) : cg ltype :=
  match parent with
  | None => cg_ub
  | Some p => t ← get_type p 0; match t with TArray t _ => mret t | _ => cg_abort end
  end.

Definition get_type_member (n : nid) : cg ltype :=
  m ← not_null (member n); convert_type m.1.

(** The operands of [!=] are evaluated in an order C++ leaves open; here the right one first. *)
Definition get_type_binary (l r : Expression) : cg ltype :=
  rt ← get_type r 1;
  lt ← get_type l 0;
  if decide (rt ≠ lt) then cg_throw "binary operation can't do with different types"
  else get_type r 1.
End types.

(** [sp] is the path of the statement, [p] that of the expression. *)
Fixpoint get_type (sp : list pstep) (p : list nat) (e : Expression) {struct e} : cg ltype :=
  let child e i := get_type sp (p ++ [i]) e in
  match e with
  | PrimaryExpression v => get_type_primary v
  | BinaryExpression l _ r => get_type_binary child l r
  | PointerOf t => ty ← child t 0; mret (TPtr ty)
  | RowLiteral es => get_type_row child es
  | ArrayLiteral es => get_type_array child es
  | VariableReference n => get_type_variable n
  | FunctionCall f _ => get_type_call f
  | ArrayReference q _ => get_type_array_ref child q
  | MemberReference _ _ => get_type_member (sp, p)
  | Assign _ v => child v 1
  end.

(** ** [get_value] and [get_ref] *)

(** [to_i1] *)
Definition to_i1 (v : lvalue) : cg lvalue :=
  if decide (type_of v = i1) then mret v else CreateICmp NE v (CInt 64 0).

Definition variable_ref (name : cstr) : cg lvalue :=
  vt ← gets variable_table_;
  match vt !! name with
  | Some v => mret v
  | None => cg_throw_text (lit "value: " ++ name ++ lit " not defined")
  end.

(** [reinterpret_cast<llvm::LoadInst*>(val)->getPointerOperand()] *)
Definition pointer_operand (v : lvalue) : cg lvalue :=
  bs ← gets blocks; not_null (load_operand bs v).

Definition member_ref (n : nid) (parent : Expression) : cg lvalue :=
  match parent with
  | VariableReference name =>
      vt ← gets variable_table_;
      ptr ← not_null (vt !! name);
      m ← not_null (member n);
      CreateInBoundsGEP ptr [CInt 32 0; CInt 32 (Z.of_nat m.2)]
  | _ => cg_ub
  end.

Section values.
Context (sp : list pstep) (p : list nat).
Context (get_value : Expression → nat → cg lvalue).

(** What is passed for the argument [i]: an integer itself, a struct by its stack space. *)
Definition pass_arg (i : nat) (value : lvalue) : cg lvalue :=
  if isIntegerTy (type_of value) then mret value
  else if isStructTy (type_of value) then
    st ← gets stack_table_;
    stack ← not_null (st !! (sp, p ++ [i]));
    _ ← CreateStore value stack;
    mret stack
  else if isPointerTy (type_of value) then
    if isIntegerTy (pointee (type_of value)) then CreateLoad value else mret value
  else
    ss ← gets struct_types;
    cg_throw_text (lit "unexpected argument type: " ++ print_type ss (type_of value)).

(** The loop of [FunctionCall::get_value]. *)
Fixpoint call_args (i : nat) (es : list Expression) : cg (list lvalue) :=
  match es with
  | [] => mret []
  | a :: es =>
      value ← get_value a i;
      arg ← pass_arg i value;
      args ← call_args (S i) es;
      mret (arg :: args)
  end.

Definition get_value_call (parent : Expression) (args : list Expression) : cg lvalue :=
  name ← callee_name parent;
  f ← find_function name;
  args ← call_args 0 args;
  CreateCall f args.

(** The loop of [RowLiteral::get_value] calls [get_value] of an element twice. *)
Fixpoint row_values (i : nat) (es : list Expression) (prev : lvalue) : cg lvalue :=
  match es with
  | [] => mret prev
  | e :: es =>
      probe ← get_value e i;
      prev ←
        (if isPointerTy (type_of probe) then
           v ← get_value e i;
           val ← CreateLoad v;
           CreateInsertValue prev val i
         else
           v ← get_value e i;
           CreateInsertValue prev v i);
      row_values (S i) es prev
  end.

Definition get_value_row (es : list Expression) : cg lvalue :=
  let child e i := get_type sp (p ++ [i]) e in
  _ ← get_type_signature child es;
  sign ← get_type_signature child es;
  ss ← gets struct_types;
  match find_struct ss sign with
  | None => cg_abort
  | Some type => row_values 0 es (CUndef type)
  end.

Fixpoint array_values (i : nat) (es : list Expression) (prev : lvalue) : cg lvalue :=
  match es with
  | [] => mret prev
  | e :: es =>
      v ← get_value e i;
      prev ← CreateInsertValue prev v i;
      array_values (S i) es prev
  end.

Definition get_value_array (es : list Expression) : cg lvalue :=
  type ← get_type_array (λ e i, get_type sp (p ++ [i]) e) es;
  array_values 0 es (CUndef type).

Definition array_ref (parent : option Expression) (idx : Expression) : cg lvalue :=
  match parent with
  | None => cg_ub
  | Some par =>
      arr ← get_value par 0;
      idx ← get_value idx 1;
      ptr ← pointer_operand arr;
      CreateInBoundsGEP ptr [CInt 64 0; idx]
  end.

(** [get_conditional_value] *)
Definition get_conditional_value (l r : Expression) (forAND : bool) : cg lvalue :=
  next ← create_block "bin_next";
  fin ← create_block "bin_fin";
  lv ← get_value l 0;
  lh ← to_i1 lv;
  _ ← (if forAND then CreateCondBr lh next fin else CreateCondBr lh fin next);
  current ← GetInsertBlock;
  _ ← SetInsertPoint next;
  rv ← get_value r 1;
  rh ← to_i1 rv;
  _ ← CreateBr fin;
  next ← GetInsertBlock;
  _ ← SetInsertPoint fin;
  CreatePHI i1 [(lh, current); (rh, next)].

Definition get_value_binary (l : Expression) (op : Op.operators) (r : Expression) : cg lvalue :=
  let strict create := lh ← get_value l 0; rh ← get_value r 1; create lh rh in
  match op with
  | Op.PLUS => strict (CreateBin Add)
  | Op.MINUS => strict (CreateBin Sub)
  | Op.MULTIPLE => strict (CreateBin Mul)
  | Op.DIVISION => strict (CreateBin SDiv)
  | Op.EQUAL => strict (CreateICmp EQ)
  | Op.MODULO => strict (CreateBin SRem)
  | Op.LESSTHAN => strict (CreateICmp SLT)
  | Op.LESSEQUAL => strict (CreateICmp SLE)
  | Op.MORETHAN => strict (CreateICmp SGT)
  | Op.MOREEQUAL => strict (CreateICmp SGE)
  | Op.NOTEQUAL => strict (CreateICmp NE)
  | Op.CONDITIONAL_AND => get_conditional_value l r true
  | Op.CONDITIONAL_OR => get_conditional_value l r false
  | Op.NONE => strict (λ _ _, cg_throw "unknown operator compiled")
  end.

(** [get_ref]: null for an expression that has no address of its own. *)
Definition get_ref (e : Expression) : cg (option lvalue) :=
  match e with
  | VariableReference n => r ← variable_ref n; mret (Some r)
  | ArrayReference q i => r ← array_ref q i; mret (Some r)
  | MemberReference q _ => r ← member_ref (sp, p) q; mret (Some r)
  | _ => mret None
  end.

(** [Assign::get_value] *)
Definition get_value_assign (target : cg (option lvalue)) (v : Expression) : cg lvalue :=
  target ← target;
  value ← get_value v 1;
  target ← not_null target;
  _ ← CreateStore value target;
  CreateLoad target.
End values.

Fixpoint get_value (sp : list pstep) (p : list nat) (e : Expression) {struct e} : cg lvalue :=
  let child e i := get_value sp (p ++ [i]) e in
  match e with
  | PrimaryExpression v => value_emitter v
  | BinaryExpression l op r => get_value_binary child l op r
  | PointerOf t => val ← child t 0; pointer_operand val
  | RowLiteral es => get_value_row sp p child es
  | ArrayLiteral es => get_value_array sp p child es
  | VariableReference n => r ← variable_ref n; CreateLoad r
  | FunctionCall f args => get_value_call sp p child f args
  | ArrayReference q i => r ← array_ref child q i; CreateLoad r
  | MemberReference q _ => r ← member_ref (sp, p) q; CreateLoad r
  | Assign t v =>
      get_value_assign child
        (get_ref sp (p ++ [0]) (λ e i, get_value sp ((p ++ [0]) ++ [i]) e) t) v
  end.
End codegen.
