(* ===== verification/CodegenStmt.v ===== *)
(** * CodegenStmt: code generation for statements
      ([src/src/reir/exec/ast_statement_codegen.cpp], [compiler_context.*], [db_interface.*])

    [alloca_stack] reserves the stack of a statement, [codegen] emits its code.  The storage
    engine's interface to the compiler is the class [DBInterface]; [FoedusInterface] implements it
    by calls of runtime functions. *)

From Stdlib Require Import ZArith NArith Ascii String Lia.
From stdpp Require Import base option list strings gmap.
From S2P Require Import Prelude Value Attr Schema Ast Visit LLVM CodegenExpr Layout.

(** ** The interface of the engine to code generation *)

Class DBInterface `{LLVM} := {
  CursorBase : Type;
  define_functions : cg unit;
  emit_begin_txn : cg unit;
  emit_precommit_txn : cg unit;
  emit_insert : lvalue → lvalue → lvalue → lvalue → cg unit;
  emit_update : lvalue → lvalue → lvalue → lvalue → cg unit;
  emit_delete : lvalue → lvalue → cg unit;
  emit_scan : lvalue → lvalue → lvalue → cg unit;
  emit_get_cursor : lvalue → lvalue → lvalue → lvalue → cg CursorBase;
  emit_cursor_next : CursorBase → cg lvalue;
  emit_is_valid_cursor : CursorBase → cg lvalue;
  emit_cursor_copy_key : CursorBase → lvalue → cg unit;
  emit_cursor_copy_value : CursorBase → lvalue → cg unit;
  emit_cursor_destroy : CursorBase → cg unit;
}.

(** [functions_table_[name] = Function::Create(...)] *)
Definition add_function (name sym : string) (ret : ltype) (params : list ltype) : cg unit :=
  modify (λ s, set_functions s (<[lit name := mk_function (lit sym) ret params]> (functions_table_ s))).

(** *** FOEDUS *)

Module Foedus.
Section foedus.
Context `{LLVM}.

Definition define_functions : cg unit :=
  _ ← add_function "__begin_xct" "begin_xct" i1 [i64ptr];
  _ ← add_function "__precommit_xct" "precommit_xct" i1 [i64ptr];
  _ ← add_function "__insert" "foedus_insert" i1 [i64ptr; i8ptr; i64; i8ptr; i64];
  _ ← add_function "__get_cursor" "foedus_generate_cursor" i64ptr [i64ptr; i8ptr; i64; i8ptr; i64];
  _ ← add_function "__cursor_next" "foedus_cursor_next" i1 [i64ptr];
  _ ← add_function "__cursor_is_valid" "foedus_cursor_is_valid" i1 [i64ptr];
  _ ← add_function "__cursor_copy_key" "foedus_cursor_copy_key" TVoid [i64ptr; i8ptr];
  _ ← add_function "__cursor_copy_value" "foedus_cursor_copy_value" TVoid [i64ptr; i8ptr];
  add_function "__cursor_destroy" "foedus_cursor_destroy" TVoid [i64ptr].

(** [CreateCall(ctx.functions_table_[name], args)] *)
Definition call_table (name : string) (args : list lvalue) : cg lvalue :=
  fs ← gets functions_table_;
  f ← not_null (fs !! lit name);
  CreateCall f args.

Definition arg : lvalue := CHost HProcArguments.

Definition emit_begin_txn : cg unit := _ ← call_table "__begin_xct" [arg]; mret tt.
Definition emit_precommit_txn : cg unit := _ ← call_table "__precommit_xct" [arg]; mret tt.
Definition emit_insert (key key_len value value_len : lvalue) : cg unit :=
  _ ← call_table "__insert" [arg; key; key_len; value; value_len]; mret tt.
Definition emit_get_cursor (from_prefix from_len to_prefix to_len : lvalue) : cg lvalue :=
  call_table "__get_cursor" [arg; from_prefix; from_len; to_prefix; to_len].
Definition emit_is_valid_cursor (cursor : lvalue) : cg lvalue :=
  call_table "__cursor_is_valid" [cursor].
Definition emit_cursor_copy_key (cursor buffer : lvalue) : cg unit :=
  _ ← call_table "__cursor_copy_key" [cursor; buffer]; mret tt.
Definition emit_cursor_next (cursor : lvalue) : cg lvalue := call_table "__cursor_next" [cursor].
Definition emit_cursor_copy_value (cursor buffer : lvalue) : cg unit :=
  _ ← call_table "__cursor_copy_value" [cursor; buffer]; mret tt.
Definition emit_cursor_destroy (cursor : lvalue) : cg unit :=
  _ ← call_table "__cursor_destroy" [cursor]; mret tt.

(** Updates, deletions and point scans emit nothing: [emit_update] reads two members of the
    arguments into variables it does not use, the other bodies are empty. *)
Definition emit_update (key key_len value value_len : lvalue) : cg unit := mret tt.
Definition emit_delete (key key_len : lvalue) : cg unit := mret tt.
Definition emit_scan (key key_len offset : lvalue) : cg unit := mret tt.
End foedus.
End Foedus.

(** A [FoedusCursor] is the value of the call that made it. *)
#[export] Instance FoedusInterface `{LLVM} : DBInterface := {
  CursorBase := lvalue;
  define_functions := Foedus.define_functions;
  emit_begin_txn := Foedus.emit_begin_txn;
  emit_precommit_txn := Foedus.emit_precommit_txn;
  emit_insert := Foedus.emit_insert;
  emit_update := Foedus.emit_update;
  emit_delete := Foedus.emit_delete;
  emit_scan := Foedus.emit_scan;
  emit_get_cursor := Foedus.emit_get_cursor;
  emit_cursor_next := Foedus.emit_cursor_next;
  emit_is_valid_cursor := Foedus.emit_is_valid_cursor;
  emit_cursor_copy_key := Foedus.emit_cursor_copy_key;
  emit_cursor_copy_value := Foedus.emit_cursor_copy_value;
  emit_cursor_destroy := Foedus.emit_cursor_destroy;
}.

(** ** Statements *)

(** What analysis left in the nodes: the type and offset of a member reference, and the types of
    the columns of a [define]'s schema. *)
Record annotations := mk_annotations {
  member_of : nid → option (TypeId.type_id * nat);
  types_of : list pstep → option (list TypeId.type_id);
}.

(** [enter_loop] and [exit_loop_ctx]: the innermost loop comes first. *)
Definition enter_loop (b bo e f : nat) : cg unit :=
  modify (λ s, set_loop s (mk_loop b bo e f :: loop_ s)).
Definition exit_loop_ctx : cg unit := λ s,
  match loop_ s with [] => UB | _ :: out => Ok (tt, set_loop s out) end.

(** [each_value] of an expression, with the path of each node it visits. *)
Section each_loops.
Context (visit : Expression → nat → result (list (list nat * Expression))).
Context (p : list nat).

Fixpoint each_element_at (i : nat) (es : list Expression) : result (list (list nat * Expression)) :=
  match es with
  | [] => Ok []
  | e :: es => a ← visit e i; b ← each_element_at (S i) es; Ok (a ++ b)
  end.

Fixpoint each_argument_at (i : nat) (es : list Expression) : result (list (list nat * Expression)) :=
  match es with
  | [] => Ok []
  | e :: es => a ← visit e i; b ← each_argument_at (S i) es; Ok ((p ++ [i], e) :: a ++ b)
  end.
End each_loops.

Fixpoint each_value_at (p : list nat) (e : Expression) : result (list (list nat * Expression)) :=
  let child e i := each_value_at (p ++ [i]) e in
  match e with
  | PrimaryExpression _ | BinaryExpression _ _ _ | RowLiteral _ => Ok []
  | PointerOf t => Ok [(p ++ [0], t)]
  | ArrayLiteral es => v ← each_element_at child 0 es; Ok (v ++ [(p, e)])
  | VariableReference _ => Ok [(p, e)]
  | FunctionCall _ args => each_argument_at child p 0 args
  | ArrayReference None _ => UB
  | ArrayReference (Some q) _ => v ← child q 0; Ok ((p, e) :: v)
  | MemberReference q _ => v ← child q 0; Ok ((p, e) :: v)
  | Assign _ x => v ← child x 1; Ok ((p, e) :: v)
  end.

Section codegen.
Context `{DB : DBInterface} (ann : annotations).

Abbreviation get_type := (get_type (member_of ann)).
Abbreviation get_value := (get_value (member_of ann)).

(** *** [alloca_stack] *)

(** [Let::alloca_stack]; the expression of a statement is its child 0. *)
Definition alloca_let (sp : list pstep) (name : cstr) (e : Expression) : cg unit :=
  type ← get_type sp [0] e;
  store ← CreateAlloca type;
  modify (λ s, set_variables s (<[name := store]> (variable_table_ s))).

(** [stack_table_[node] = CreateAlloca(type)] *)
Definition alloca_node (n : nid) (t : ltype) : cg unit :=
  alloc ← CreateAlloca t;
  modify (λ s, set_stack s (<[n := alloc]> (stack_table_ s))).

(** The visitor of [ExprStatement::alloca_stack]. *)
Fixpoint alloca_values (sp : list pstep) (v : list (list nat * Expression)) : cg unit :=
  match v with
  | [] => mret tt
  | (p, e) :: v =>
      t ← get_type sp p e;
      _ ← (if isStructTy t then st ← get_type sp p e; alloca_node (sp, p) st else mret tt);
      alloca_values sp v
  end.

Definition alloca_expr (sp : list pstep) (e : Expression) : cg unit :=
  t ← get_type sp [0] e;
  _ ← (if isStructTy t then alloca_node (sp, []) t else mret tt);
  v ← cg_lift (each_value_at [0] e);
  alloca_values sp v.

(** [Define::alloca_stack]; the catalogue is changed in [created], in the order of the calls. *)
Definition alloca_define (sp : list pstep) (d : option TupleDecl) (name : cstr) : cg (list Attribute) :=
  d ← not_null d;
  types ← not_null (types_of ann sp);
  attrs ← cg_lift (define_attrs d types 0 (names_ d));
  _ ← modify (λ s, set_schemas s (<[name := mk_schema name attrs]> (local_schema_table_ s)));
  mret attrs.

Definition alloca_emit (sp : list pstep) (e : Expression) : cg unit :=
  t ← get_type sp [0] e;
  alloca_node (sp, []) t.

Definition find_or_create_prefix (prefix : cstr) : cg lvalue :=
  gs ← gets global_variable_table_;
  match gs !! prefix with
  | Some v => mret v
  | None =>
      let ret := CStr prefix in
      _ ← modify (λ s, set_globals s (<[prefix := ret]> (global_variable_table_ s)));
      mret ret
  end.

Definition set_node_slots (sp : list pstep) (v : Slots) : cg unit :=
  modify (λ s, set_slots s (<[sp := v]> (slots_table s))).

Definition alloca_insert (sp : list pstep) (table : cstr) (e : Expression) : cg unit :=
  tbl ← gets local_schema_table_;
  match tbl !! table with
  | None => cg_throw_text (lit "undefined table :" ++ table)
  | Some schema =>
      if negb (fixed_key_length schema) then cg_throw "fixed length key is available" else
      if negb (fixed_value_length schema) then cg_throw "fixed length value is available" else
      prefix ← find_or_create_prefix (get_key_prefix schema);
      key_size ← cg_lift (get_fixed_key_length schema);
      value_size ← cg_lift (get_fixed_value_length schema);
      st ← gets slots_table;
      if decide (is_Some (st !! sp)) then cg_throw "key_stack is already initialized" else
      key_stack ← CreateAlloca (TArray i8 key_size);
      value_stack ← CreateAlloca (TArray i8 value_size);
      buff_type ← get_type sp [0] e;
      tuple_stack ← CreateAlloca buff_type;
      set_node_slots sp (mk_slots prefix None key_stack value_stack tuple_stack)
  end.

(** The visitor of [Scan::alloca_stack]: every column is an integer. *)
Fixpoint row_attrs (attrs : list Attribute) : cg (list ltype) :=
  match attrs with
  | [] => mret []
  | a :: attrs =>
      if is_integer (a_type a) then ts ← row_attrs attrs; mret (i64 :: ts)
      else cg_throw "non-integer type is not supported yet"
  end.

Definition alloca_scan (sp : list pstep) (table row_name : cstr) : cg unit :=
  tbl ← gets local_schema_table_;
  schema ← not_null (tbl !! table);
  if negb (fixed_key_length schema) then cg_throw "fixed length row is available" else
  if negb (fixed_value_length schema) then cg_throw "fixed length row is available" else
  let prefix := get_key_prefix schema in
  prefix_begin ← find_or_create_prefix prefix;
  e ← cg_lift (prefix_end prefix);
  prefix_end ← find_or_create_prefix e;
  key_size ← cg_lift (get_fixed_key_length schema);
  value_size ← cg_lift (get_fixed_value_length schema);
  st ← gets slots_table;
  if decide (is_Some (st !! sp)) then cg_throw "key_stack is already initialized" else
  key_stack ← CreateAlloca (TArray i8 key_size);
  value_stack ← CreateAlloca (TArray i8 value_size);
  types ← row_attrs (attrs_ schema);
  row_type ← create_struct types row_name;
  _ ← modify (λ s, set_types s (struct_types s) (<[row_name := row_type]> (type_table_ s)));
  store ← CreateAlloca row_type;
  _ ← modify (λ s, set_variables s (<[row_name := store]> (variable_table_ s)));
  set_node_slots sp (mk_slots prefix_begin (Some prefix_end) key_stack value_stack store).

(** [alloca_stack] of a node: the tables it creates in the catalogue.  [For] passes the call on to
    its initialisation; a block does nothing, so [If] does nothing; what [DefineTuple] changes is
    not read again. *)
Fixpoint alloca_stack (sp : list pstep) (s : Statement) : cg (list (list ascii * list Attribute)) :=
  match s with
  | Block _ | Transaction _ _ | If _ _ _ | Jump _ | DefineTuple _ _ => mret []
  | Define d n => attrs ← alloca_define sp d n; mret [(n, attrs)]
  | For None _ _ _ => cg_ub
  | For (Some i) _ _ _ => alloca_stack (sp ++ [In_init]) i
  | Emit e => _ ← alloca_emit sp e; mret []
  | Insert t e => _ ← alloca_insert sp t e; mret []
  | Scan t r _ => _ ← alloca_scan sp t r; mret []
  | Let n e _ => _ ← alloca_let sp n e; mret []
  | ExprStatement e => _ ← alloca_expr sp e; mret []
  end.

(** *** [codegen] *)

Definition codegen_let (sp : list pstep) (name : cstr) (e : Expression) : cg unit :=
  _ ← get_type sp [0] e;
  vt ← gets variable_table_;
  match vt !! name with
  | None => cg_throw_text (lit "undefined variable: " ++ name)
  | Some stack => v ← get_value sp [0] e; CreateStore v stack
  end.

Definition codegen_jump (t : jump) : cg unit :=
  ls ← gets loop_;
  current_loop ← not_null (head ls);
  match t with
  | continue_jump => CreateBr (every_ current_loop)
  | break_jump => CreateBr (finish_ current_loop)
  end.

Definition emit_size (ts : list ltype) : nat :=
  fold_left (λ size t, size + (getPrimitiveSizeInBits t + 7) / 8) ts 0.

Definition codegen_emit (sp : list pstep) (e : Expression) : cg unit :=
  st ← gets stack_table_;
  t ← get_type sp [0] e;
  if isStructTy t then
    value ← get_value sp [0] e;
    stack ← not_null (st !! (sp, []));
    _ ← CreateStore value stack;
    fs ← gets functions_table_;
    type ← get_type sp [0] e;
    ss ← gets struct_types;
    elements ← not_null (match type with TStruct i => snd <$> ss !! i | _ => None end);
    from ← CreateBitCast stack i8ptr;
    emit_func ← not_null (fs !! lit "__emit_func");
    _ ← CreateCall emit_func [CHost HContext; from; CInt 64 (Z.of_nat (emit_size elements))];
    mret tt
  else cg_throw "non struct type cant be emitted".

(** The loop of [Insert::codegen] over the [n] elements left; it returns the two final offsets. *)
Fixpoint insert_columns (schema : Schema) (buff key_stack value_stack : lvalue) (i n : nat)
    (key_idx value_idx offset : nat) : cg (nat * nat) :=
  match n with
  | O => mret (key_idx, value_idx)
  | S n =>
      src ← CreateInBoundsGEP buff [CInt 32 (Z.of_nat offset)];
      k ← cg_lift (schema_is_key schema i);
      len ← cg_lift (get_tuple_length schema i);
      if (k : bool) then
        dst ← CreateInBoundsGEP key_stack [CInt 64 0; CInt 32 (Z.of_nat key_idx)];
        _ ← CreateMemCpy dst src (CInt 64 (Z.of_nat len));
        insert_columns schema buff key_stack value_stack (S i) n (key_idx + len) value_idx (offset + len)
      else
        dst ← CreateInBoundsGEP value_stack [CInt 32 0; CInt 32 (Z.of_nat value_idx)];
        _ ← CreateMemCpy dst src (CInt 64 (Z.of_nat len));
        insert_columns schema buff key_stack value_stack (S i) n key_idx (value_idx + len) (offset + len)
  end.

Definition node_slots (sp : list pstep) : cg Slots := st ← gets slots_table; not_null (st !! sp).

Definition codegen_insert (sp : list pstep) (table : cstr) (e : Expression) : cg unit :=
  tbl ← gets local_schema_table_;
  row ← get_value sp [0] e;
  schema ← not_null (tbl !! table);
  let key_prefix := get_key_prefix schema in
  t ← get_type sp [0] e;
  if isStructTy t then
    row_type ← get_type sp [0] e;
    ss ← gets struct_types;
    elements ← not_null (match row_type with TStruct i => snd <$> ss !! i | _ => None end);
    sl ← node_slots sp;
    _ ← CreateStore row (tuple_stack_ sl);
    buff ← CreateBitCast (tuple_stack_ sl) i8ptr;
    _ ← CreateMemCpy (key_stack_ sl) (prefix_ sl) (CInt 64 (Z.of_nat (length key_prefix)));
    r ← insert_columns schema buff (key_stack_ sl) (value_stack_ sl) 0 (length elements)
          (length key_prefix) 0 0;
    key ← CreateBitCast (key_stack_ sl) i8ptr;
    value ← CreateBitCast (value_stack_ sl) i8ptr;
    emit_insert key (CInt 64 (Z.of_nat r.1)) value (CInt 64 (Z.of_nat r.2))
  else cg_throw "non row type cant be inserted".

(** The loop of [Scan::codegen] over the [n] columns left. *)
Fixpoint scan_columns (schema : Schema) (key value_stack : lvalue) (i n : nat)
    (key_offset value_offset : nat) (prev : lvalue) : cg lvalue :=
  match n with
  | O => mret prev
  | S n =>
      k ← cg_lift (schema_is_key schema i);
      if (k : bool) then
        offset_key ← CreateInBoundsGEP key [CInt 32 (Z.of_nat key_offset)];
        key_r ← CreateBitCast offset_key i64ptr;
        record ← CreateLoad key_r;
        prev ← CreateInsertValue prev record i;
        scan_columns schema key value_stack (S i) n (key_offset + 8) value_offset prev
      else
        offset_value ← CreateInBoundsGEP value_stack [CInt 32 0; CInt 32 (Z.of_nat value_offset)];
        value_r ← CreateBitCast offset_value i64ptr;
        record ← CreateLoad value_r;
        prev ← CreateInsertValue prev record i;
        scan_columns schema key value_stack (S i) n key_offset (value_offset + 8) prev
  end.

(** The code of a record: copy the key and the value out of the cursor, build the row. *)
Definition scan_row (schema : Schema) (rowtype : ltype) (sl : Slots) (cursor : CursorBase) : cg unit :=
  key ← CreateBitCast (key_stack_ sl) i8ptr;
  _ ← emit_cursor_copy_key cursor key;
  value ← CreateBitCast (value_stack_ sl) i8ptr;
  _ ← emit_cursor_copy_value cursor value;
  row ← scan_columns schema key (value_stack_ sl) 0 (columns schema)
          (length (get_key_prefix schema)) 0 (CUndef rowtype);
  CreateStore row (tuple_stack_ sl).

(** [Scan::codegen] once the cursor is made; [blk] is the code of the body. *)
Definition scan_loop (schema : Schema) (rowtype : option ltype) (sl : Slots) (cursor : CursorBase)
    (blk : cg unit) : cg unit :=
  check ← create_block "fullscan_check";
  begin ← create_block "fullscan_begin";
  fin ← create_block "fullscan_fin";
  _ ← CreateBr check;
  _ ← SetInsertPoint check;
  valid ← emit_is_valid_cursor cursor;
  cond ← CreateICmp EQ valid (CInt 1 1);
  _ ← CreateCondBr cond begin fin;
  _ ← SetInsertPoint begin;
  rowtype ← not_null rowtype;
  _ ← scan_row schema rowtype sl cursor;
  _ ← blk;
  _ ← emit_cursor_next cursor;
  _ ← CreateBr check;
  _ ← SetInsertPoint fin;
  emit_cursor_destroy cursor.

Definition codegen_scan (sp : list pstep) (table row_name : cstr) (blk : cg unit) : cg unit :=
  tbl ← gets local_schema_table_;
  schema ← not_null (tbl !! table);
  let key_prefix := get_key_prefix schema in
  key_prefix_end ← cg_lift (prefix_end key_prefix);
  types ← gets type_table_;
  sl ← node_slots sp;
  prefix_end ← not_null (prefix_end_ sl);
  cursor ← emit_get_cursor (prefix_ sl) (CInt 64 (Z.of_nat (length key_prefix)))
             prefix_end (CInt 64 (Z.of_nat (length key_prefix_end)));
  scan_loop schema (types !! row_name) sl cursor blk.

Definition codegen_if (sp : list pstep) (cond : Expression) (true_block false_block : cg unit) : cg unit :=
  t ← create_block "true_blk";
  f ← create_block "false_blk";
  fin ← create_block "fin";
  c ← get_value sp [0] cond;
  c ← to_i1 c;
  _ ← CreateCondBr c t f;
  _ ← SetInsertPoint t;
  _ ← true_block;
  _ ← CreateBr fin;
  _ ← SetInsertPoint f;
  _ ← false_block;
  _ ← CreateBr fin;
  SetInsertPoint fin.

(** A part of a [for] that is absent was never set: testing its pointer is [UB]. *)
Definition codegen_for (sp : list pstep) (init : cg unit) (cond every : option Expression)
    (blk : cg unit) : cg unit :=
  _ ← init;
  begin ← create_block "for_begin";
  body ← create_block "for_body";
  every_blk ← create_block "for_every";
  finish ← create_block "for_finish";
  _ ← enter_loop begin body every_blk finish;
  _ ← CreateBr begin;
  _ ← SetInsertPoint begin;
  _ ← match cond with
      | Some cond => ret ← get_value sp [0] cond; CreateCondBr ret body finish
      | None => cg_ub
      end;
  _ ← SetInsertPoint body;
  _ ← blk;
  _ ← CreateBr every_blk;
  _ ← SetInsertPoint every_blk;
  _ ← match every with
      | Some every => _ ← get_value sp [1] every; mret tt
      | None => cg_ub
      end;
  _ ← CreateBr begin;
  _ ← SetInsertPoint finish;
  exit_loop_ctx.

(** The loop of [Block::codegen]. *)
Section block.
Context (codegen : Statement → list pstep → cg unit) (mk : nat → pstep) (sp : list pstep).
Fixpoint codegen_statements (i : nat) (l : list Statement) : cg unit :=
  match l with
  | [] => mret tt
  | s :: l => _ ← codegen s (sp ++ [mk i]); codegen_statements (S i) l
  end.
End block.

Fixpoint codegen (s : Statement) (sp : list pstep) {struct s} : cg unit :=
  let block := codegen_statements codegen In_body sp 0 in
  match s with
  | Block l => block l
  | Transaction _ l => _ ← emit_begin_txn; _ ← block l; emit_precommit_txn
  | Define _ _ | DefineTuple _ _ => mret tt
  | For None _ _ _ => cg_ub
  | For (Some i) c e l => codegen_for sp (codegen i (sp ++ [In_init])) c e (block l)
  | Jump t => codegen_jump t
  | Emit e => codegen_emit sp e
  | Insert t e => codegen_insert sp t e
  | Scan t r l => codegen_scan sp t r (block l)
  | Let n e _ => codegen_let sp n e
  | If c t f =>
      codegen_if sp c (block t)
        (match f with Some f => codegen_statements codegen In_else sp 0 f | None => mret tt end)
  | ExprStatement e => _ ← get_value sp [0] e; mret tt
  end.
End codegen.
