(* ===== verification/Compile.v ===== *)
(** * Compile: from a program to a module
      ([Compiler::compile] of [src/src/reir/exec/compiler.cpp], [CompilerContext])

    A context is made with the engine's functions; [compile] adds the types and functions of the
    language, analyses the program, reserves its stack with a walk over all statements and emits
    its code into one function. *)

From Stdlib Require Import ZArith NArith Ascii String Lia.
From stdpp Require Import base option list strings gmap.
From S2P Require Import Prelude Value Attr Schema MetaData Ast Visit Analyze LLVM CodegenExpr.
From S2P Require Import CodegenStmt.

(** ** What analysis leaves in the nodes *)

Abbreviation member_notes := (list ((list pstep * list nat) * (TypeId.type_id * nat))).
Abbreviation type_notes := (list (list pstep * list TypeId.type_id)).

Section annotate.
Context (show_double : Z → cstr).

(** The node a member reference's analysis fills: the types of variables do not change while an
    expression is analysed, so [st] is the context before the expression. *)
Definition note_member (st : Analyze.ctx) (n : nid) (parent : Expression) (name : cstr) : member_notes :=
  match analyze_expr show_double parent st with
  | Ok (st, pp) =>
      match deref st pp with
      | Ok (OTuple _ names ps) =>
          match i ← find_member name names 0; p ← ps !! i; Some (i, p) with
          | Some (i, p) => match deref st p with Ok o => [(n, (obj_id o, i))] | _ => [] end
          | None => []
          end
      | _ => []
      end
  | _ => []
  end.

Section notes.
Context (note : Expression → nat → member_notes).
Fixpoint note_list (i : nat) (es : list Expression) : member_notes :=
  match es with [] => [] | e :: es => note e i ++ note_list (S i) es end.
End notes.

Fixpoint note_expr (st : Analyze.ctx) (sp : list pstep) (p : list nat) (e : Expression) : member_notes :=
  let child e i := note_expr st sp (p ++ [i]) e in
  match e with
  | PrimaryExpression _ | VariableReference _ | PointerOf _ => []
  | BinaryExpression l _ r => child l 0 ++ child r 1
  | RowLiteral es => note_list child 0 es
  | ArrayLiteral es => match es with [] => [] | e :: _ => child e 0 end
  | FunctionCall _ args => note_list child 0 args
  | ArrayReference q i => match q with Some q => child q 0 | None => [] end ++ child i 1
  | MemberReference q n => child q 0 ++ note_member st (sp, p) q n
  | Assign t v => child t 0 ++ child v 1
  end.

Abbreviation analyze_stmt := (analyze_stmt show_double).
Abbreviation analyze_expr := (analyze_expr show_double).

(** The types of the columns of a [define]'s schema. *)
Definition note_define (st : Analyze.ctx) (sp : list pstep) (d : option TupleDecl) : type_notes :=
  match d with
  | None => []
  | Some d =>
      match tuple_analyze st d with
      | Ok (st, p) =>
          match deref st p with
          | Ok (OTuple _ _ ps) =>
              match mapM (λ p, match deref st p with Ok o => Some (obj_id o) | _ => None end) ps with
              | Some ts => [(sp, ts)]
              | None => []
              end
          | _ => []
          end
      | _ => []
      end
  end.

Section note_block.
Context (note : Statement → list pstep → Analyze.ctx → member_notes * type_notes).
Context (mk : nat → pstep) (sp : list pstep).
(** Each statement is noted in the context its predecessors leave. *)
Fixpoint note_statements (i : nat) (l : list Statement) (st : Analyze.ctx)
    : member_notes * type_notes :=
  match l with
  | [] => ([], [])
  | s :: l =>
      let '(m, t) := note s (sp ++ [mk i]) st in
      match analyze_stmt s st with
      | Ok st => let '(m', t') := note_statements (S i) l st in (m ++ m', t ++ t')
      | _ => (m, t)
      end
  end.
End note_block.

(** The context after an expression or a statement; where analysis fails there is no code. *)
Definition after_expr (e : Expression) (st : Analyze.ctx) : Analyze.ctx :=
  match analyze_expr e st with Ok (st, _) => st | _ => st end.
Definition after_stmt (s : Statement) (st : Analyze.ctx) : Analyze.ctx :=
  match analyze_stmt s st with Ok st => st | _ => st end.
Definition after_block (l : list Statement) (st : Analyze.ctx) : Analyze.ctx :=
  after_stmt (Block l) st.

Fixpoint note_stmt (s : Statement) (sp : list pstep) (st : Analyze.ctx)
    : member_notes * type_notes :=
  let block := note_statements note_stmt In_body sp 0 in
  let expr e i st := note_expr st sp [i] e in
  match s with
  | Block l | Transaction _ l => block l st
  | Define d _ => ([], note_define st sp d)
  | Jump _ | DefineTuple _ _ => ([], [])
  | Emit e | Insert _ e | ExprStatement e | Let _ e _ => (expr e 0 st, [])
  | Scan t r l =>
      let st := schema_at st t in
      let '(st, p) := table_at st t in
      block l (set_variable st r p)
  | For (Some i) (Some c) (Some e) l =>
      let '(m, t) := note_stmt i (sp ++ [In_init]) st in
      let st := after_stmt i st in
      let mc := expr c 0 st in
      let st := after_expr c st in
      let me := expr e 1 st in
      let st := after_expr e st in
      let '(m', t') := block l st in
      (m ++ mc ++ me ++ m', t ++ t')
  | For _ _ _ _ => ([], [])
  | If c tb fb =>
      let m := expr c 0 st in
      let st := after_expr c st in
      let '(m1, t1) := block tb st in
      let st := after_block tb st in
      let '(m2, t2) :=
        match fb with Some fb => note_statements note_stmt In_else sp 0 fb st | None => ([], []) end in
      (m ++ m1 ++ m2, t1 ++ t2)
  end.

Definition lookup_note {K A : Type} `{EqDecision K} (k : K) (l : list (K * A)) : option A :=
  (λ x, x.2.2) <$> list_find (λ x, x.1 = k) l.

Definition annotate (l : list Statement) (st : Analyze.ctx) : annotations :=
  let '(m, t) := note_stmt (Block l) [] st in
  mk_annotations (λ n, lookup_note n m) (λ sp, lookup_note sp t).
End annotate.

(** ** The walk that reserves the stack *)

(** [each_statement] with a callback that generates code. *)
Section walk.
Context {A : Type} (func : list pstep → Statement → cg (list A)).

Section walk_block.
Context (visit : Statement → list pstep → cg (list A)) (mk : nat → pstep) (sp : list pstep).
Fixpoint walk_statements (i : nat) (l : list Statement) : cg (list A) :=
  match l with
  | [] => mret []
  | s :: l =>
      a ← func (sp ++ [mk i]) s;
      b ← visit s (sp ++ [mk i]);
      c ← walk_statements (S i) l;
      mret (a ++ b ++ c)
  end.
End walk_block.

Fixpoint walk (s : Statement) (sp : list pstep) : cg (list A) :=
  let block := walk_statements walk In_body sp 0 in
  match s with
  | Block l | Transaction _ l | Scan _ _ l => block l
  | For None _ _ _ => cg_ub
  | For (Some i) _ _ l => a ← func (sp ++ [In_init]) i; b ← block l; mret (a ++ b)
  | If _ t None => block t
  | If _ t (Some f) => a ← block t; b ← walk_statements walk In_else sp 0 f; mret (a ++ b)
  | Define _ _ | Jump _ | Emit _ | Insert _ _ | Let _ _ _ | DefineTuple _ _ | ExprStatement _ => mret []
  end.
End walk.

(** ** The compiler *)

Section compile.
Context `{DB : DBInterface}.

Definition init_types : cg unit :=
  ss ← gets struct_types;
  tt' ← gets type_table_;
  match find_struct ss (lit "string_type") with
  | Some t => modify (λ s, set_types s (struct_types s) (<[lit "string" := t]> (type_table_ s)))
  | None =>
      match tt' !! lit "string" with
      | Some _ => mret tt
      | None =>
          strtype ← create_struct [i8ptr; i64] (lit "string_type");
          modify (λ s, set_types s (struct_types s) (<[lit "string" := strtype]> (type_table_ s)))
      end
  end.

Definition init_functions : cg unit :=
  _ ← add_function "malloc" "malloc" i8ptr [i64];
  _ ← add_function "drop_table" "drop_table_func" TVoid [i64ptr; i64ptr];
  _ ← add_function "print_int" "print_int" TVoid [i64];
  string ← string_type;
  _ ← add_function "print_string" "print_string" TVoid [TPtr string];
  _ ← add_function "rand" "rand_int" i64 [i64; i64];
  add_function "__emit_func" "__emit_func" TVoid [i64ptr; i8ptr; i64].

(** An empty context. *)
Definition context_empty : cstate :=
  mk_cstate [] None 0 [] ∅ ∅ ∅ ∅ ∅ ∅ ∅ [].

(** The constructor of [CompilerContext] *)
Definition context_new : result cstate := '(_, s) ← define_functions context_empty; Ok s.

(** [Compiler::compile]: the tables it creates in the catalogue; the code is in the context. *)
Definition compile (show_double : Z → cstr) (l : list Statement)
    : cg (list (list ascii * list Attribute)) :=
  _ ← init_types;
  _ ← init_functions;
  _ ← cg_lift (analyze_block show_double l ctx_new);
  let ann := annotate show_double l ctx_new in
  bb ← create_block "entry_jit";
  _ ← SetInsertPoint bb;
  created ← walk (alloca_stack ann) (Block l) [];
  _ ← codegen ann (Block l) [];
  _ ← CreateRet (CInt 1 1);
  mret created.

(** The whole of a compilation in a context of its own. *)
Definition compile_new (show_double : Z → cstr) (l : list Statement)
    : result (list (list ascii * list Attribute) * cstate) :=
  s ← context_new; compile show_double l s.
End compile.
