(* ===== verification/Declare.v ===== *)
(** * Declare: what a program declares

    Code generation keeps the tables of a program, the slots of its inserts and scans and the
    variables of its rows in maps that statements fill while the stack is reserved and read while
    code is generated.  A later entry replaces an earlier one.  [decls_of] collects what the
    statements of a program declare; a program that passes [declares] declares each table and each
    row variable once, so that the maps hold for every statement what it declared itself.  At the end:
    the columns a [define] gives its table. *)

From Stdlib Require Import ZArith NArith Ascii String Lia.
From stdpp Require Import base option list strings gmap.
From S2P Require Import Prelude Value Attr Schema MetaData Ast Analyze Visit LLVM CodegenExpr Layout CodegenStmt Compile.

(** The schemas of tables, the scan each row variable belongs to, and for each node of an [insert]
    or a [scan] its table and, of a [scan], its row variable. *)
Record decls := mk_decls {
  d_tables : gmap cstr Schema;
  d_rows : gmap cstr (list pstep);
  d_nodes : gmap (list pstep) (cstr * option cstr);
}.

Definition decls_none : decls := mk_decls ∅ ∅ ∅.

Section declare.
Context (ann : annotations).

(** The schema a [define] gives its table. *)
Definition defined_schema (sp : list pstep) (d : option TupleDecl) (n : cstr) : option Schema :=
  d ← d;
  types ← types_of ann sp;
  match define_attrs d types 0 (names_ d) with Ok attrs => Some (mk_schema n attrs) | _ => None end.

(** *** Collecting *)

Section block.
Context (collect : Statement → list pstep → decls → decls) (mk : nat → pstep) (sp : list pstep).
Fixpoint collect_statements (i : nat) (l : list Statement) (D : decls) : decls :=
  match l with
  | [] => D
  | s :: l => collect_statements (S i) l (collect s (sp ++ [mk i]) D)
  end.
End block.

Fixpoint collect (s : Statement) (sp : list pstep) (D : decls) : decls :=
  let block := collect_statements collect In_body sp 0 in
  match s with
  | Block l | Transaction _ l => block l D
  | Define d n =>
      match defined_schema sp d n with
      | Some sch => mk_decls (<[n := sch]> (d_tables D)) (d_rows D) (d_nodes D)
      | None => D
      end
  | Insert t _ => mk_decls (d_tables D) (d_rows D) (<[sp := (t, None)]> (d_nodes D))
  | Scan t r l => block l (mk_decls (d_tables D) (<[r := sp]> (d_rows D)) (<[sp := (t, Some r)]> (d_nodes D)))
  | For i _ _ l => block l (match i with Some i => collect i (sp ++ [In_init]) D | None => D end)
  | If _ t f =>
      let D := block t D in
      match f with Some f => collect_statements collect In_else sp 0 f D | None => D end
  | Jump _ | Emit _ | Let _ _ _ | DefineTuple _ _ | ExprStatement _ => D
  end.

Definition decls_of (l : list Statement) : decls := collect (Block l) [] decls_none.

(** *** Checking *)

Context (D : decls).

Section block.
Context (check : Statement → list pstep → bool) (mk : nat → pstep) (sp : list pstep).
Fixpoint check_statements (i : nat) (l : list Statement) : bool :=
  match l with
  | [] => true
  | s :: l => check s (sp ++ [mk i]) && check_statements (S i) l
  end.
End block.

(** The name of a row variable becomes the name of a struct type and an entry of [type_table_]: it
    must not look like the signature of a row, nor be the name of the type of strings. *)
Definition row_name_ok (r : cstr) : bool :=
  bool_decide (head r ≠ Some "{"%char) && bool_decide (r ≠ lit "string").

(** What the statement [s] at [sp] declares is what [D] holds. *)
Fixpoint declares (s : Statement) (sp : list pstep) : bool :=
  let block := check_statements declares In_body sp 0 in
  match s with
  | Block l | Transaction _ l => block l
  | Define d n => bool_decide (d_tables D !! n = defined_schema sp d n)
  | Insert t _ => bool_decide (d_nodes D !! sp = Some (t, None))
  | Scan t r l =>
      bool_decide (d_nodes D !! sp = Some (t, Some r)) && bool_decide (d_rows D !! r = Some sp) && row_name_ok r &&
      block l
  | For i _ _ l => match i with Some i => declares i (sp ++ [In_init]) | None => true end && block l
  | If _ t f => block t && match f with Some f => check_statements declares In_else sp 0 f | None => true end
  | Let x _ _ => bool_decide (d_rows D !! x = None)
  | Jump _ | Emit _ | DefineTuple _ _ | ExprStatement _ => true
  end.
End declare.

(** A program whose declarations do not get in each other's way. *)
Definition well_declared (ann : annotations) (l : list Statement) : bool :=
  declares ann (decls_of ann l) (Block l) [].

(** ** What a [define] keeps of its columns *)

(** The type a column's type name stands for: the names of the language, then those of the context. *)
Definition column_type (st : Analyze.ctx) (tn : cstr) : option TypeId.type_id :=
  if decide (tn ∈ [lit "int"; lit "date"]) then Some TypeId.INTEGER
  else if decide (tn = lit "double") then Some TypeId.DOUBLE
  else if decide (tn = lit "string") then Some TypeId.STRING
  else analyze_type_table_ st !! tn ≫= ptr_id st.

(** The context's own names for these types have not been given to others. *)
Definition builtin_types (st : Analyze.ctx) : Prop :=
  ∀ n t, (n, t) ∈ [(lit "integer", TypeId.INTEGER); (lit "double", TypeId.DOUBLE); (lit "string", TypeId.STRING)] →
  analyze_type_table_ st !! n ≫= ptr_id st = Some t.

(** The attribute of a column, by its type, name, properties and parameter. *)
Definition stored_column (c : TypeId.type_id * cstr * N * option Z) : option Attribute :=
  let '(t, n, p, q) := c in
  ty ← match t with
       | TypeId.INTEGER => Some (mk_attr_type INTEGER 0)
       | TypeId.DOUBLE => Some (mk_attr_type DOUBLE 0)
       | TypeId.STRING => Some (mk_attr_type STRING (default 0%N (to_size_t <$> q)))
       | _ => None
       end;
  Some (mk_attribute n ty p).

Definition stored_columns (ts : list TypeId.type_id) (d : TupleDecl) : list Attribute :=
  omap stored_column (zip (zip (zip ts (names_ d)) (props_ d)) (params_ d)).

Lemma define_column_stored d t n p q i types :
  types !! i = Some t → props_ d !! i = Some p → params_ d !! i = Some q →
  define_column d types i n = Ok (stored_column (t, n, p, q)).
Proof.
  intros Ht Hp Hq. unfold define_column, at_index. rewrite Ht, Hp, Hq. by destruct t, q.
Qed.

Lemma define_attrs_stored d types ns : ∀ i ts ps qs,
  (∀ j, ts !! j = types !! (i + j)) → (∀ j, ps !! j = props_ d !! (i + j)) → (∀ j, qs !! j = params_ d !! (i + j)) →
  length ts = length ns → length ps = length ns → length qs = length ns →
  define_attrs d types i ns = Ok (omap stored_column (zip (zip (zip ts ns) ps) qs)).
Proof.
  induction ns as [|n ns IH]; intros i [|t ts] [|p ps] [|q qs] H1 H2 H3 L1 L2 L3; try done. cbn [define_attrs].
  assert (Hnext : ∀ A (l : list A) x k, (∀ j, (x :: k) !! j = l !! (i + j)) → l !! i = Some x ∧ ∀ j, k !! j = l !! (S i + j)).
  { intros A l x k H. split; [by rewrite <- (Nat.add_0_r i), <- H|]. intros j. by rewrite Nat.add_succ_comm, <- H. }
  destruct (Hnext _ _ _ _ H1) as [T1 T2], (Hnext _ _ _ _ H2) as [P1 P2], (Hnext _ _ _ _ H3) as [Q1 Q2].
  rewrite (define_column_stored d t n p q i types T1 P1 Q1). cbn [mbind result_bind].
  injection L1 as L1. injection L2 as L2. injection L3 as L3. by rewrite (IH (S i) ts ps qs T2 P2 Q2 L1 L2 L3).
Qed.

Lemma lookup_type_name_builtin st tn t : builtin_types st → column_type st tn = Some t →
  ∃ p, lookup_type_name st tn = Ok (st, p) ∧ ptr_id st p = Some t.
Proof.
  intros Hb Ht.
  assert (Hat : ∀ n t, (n, t) ∈ [(lit "integer", TypeId.INTEGER); (lit "double", TypeId.DOUBLE); (lit "string", TypeId.STRING)] →
    ∃ p, Ok (table_at st n) = Ok (st, p) ∧ ptr_id st p = Some t).
  { intros n t' [p [Hp Hid]]%Hb%bind_Some. exists p. by rewrite (table_at_Some _ _ _ Hp). }
  unfold lookup_type_name. unfold column_type in Ht.
  destruct (decide (tn = lit "int")) as [->|H1]; [injection Ht as <-; apply Hat; set_solver|].
  destruct (decide (tn = lit "date")) as [->|H2]; [injection Ht as <-; apply Hat; set_solver|].
  rewrite decide_False in Ht by set_solver.
  case_decide; [injection Ht as <-; apply Hat; set_solver|]. case_decide; [injection Ht as <-; apply Hat; set_solver|].
  apply bind_Some in Ht as (p & Hp & Hid). exists p. by rewrite Hp.
Qed.

Lemma lookup_type_names_builtin st tns ts : builtin_types st → mapM (column_type st) tns = Some ts →
  ∃ ps, lookup_type_names st tns = Ok (st, ps) ∧ mapM (ptr_id st) ps = Some ts.
Proof.
  intros Hb. revert ts. induction tns as [|tn tns IH]; intros ts Hm; cbn [mapM] in Hm.
  { injection Hm as <-. by exists []. }
  apply bind_Some in Hm as (t & Ht & Hm). apply bind_Some in Hm as (ts' & Hts & [= <-]).
  destruct (lookup_type_name_builtin st tn t Hb Ht) as (p & Ep & Hp). destruct (IH _ Hts) as (ps & Eps & Hps).
  exists (p :: ps). split; [cbn [lookup_type_names]; rewrite Ep; cbn [mbind result_bind]; by rewrite Eps|].
  cbn [mapM]. rewrite Hp. cbn [mbind option_bind]. by rewrite Hps.
Qed.

(** The types analysis notes for a [define]. *)
Lemma note_define_types st sp d ts : builtin_types st → mapM (column_type st) (type_names_ d) = Some ts →
  note_define st sp (Some d) = [(sp, ts)].
Proof.
  intros Hb Hm. destruct (lookup_type_names_builtin _ _ _ Hb Hm) as (ps & Eps & Hps).
  unfold note_define, tuple_analyze. rewrite Eps. cbn [mbind result_bind new_type]. unfold deref at 1.
  cbn [types Analyze.set_types]. rewrite list_lookup_middle by done.
  assert (mapM (λ p, match deref (Analyze.set_types st (types st ++ [OTuple TypeId.TUPLE (names_ d) ps])) p with
                     | Ok o => Some (obj_id o) | _ => None end) ps = Some ts) as ->; [|done].
  apply mapM_Some. apply mapM_Some in Hps. eapply Forall2_impl; [exact Hps|]. intros [l|] t Hp; [|done].
  unfold ptr_id in Hp. simpl in Hp |- *. apply fmap_Some in Hp as (o & Ho & ->).
  by rewrite (lookup_app_l_Some _ _ _ _ Ho).
Qed.


Lemma builtin_types_new : builtin_types ctx_new.
Proof. intros n t Hin. repeat (apply elem_of_cons in Hin as [[= -> ->]|Hin]; [reflexivity|]). by apply elem_of_nil in Hin. Qed.

