(* ===== verification/Machine.v ===== *)
(** * Machine: running the code

    What the instructions recorded by LLVM.v do, after LLVM's language reference, for the
    instructions that code generation uses.  What depends on the processor is the class [Target]:
    the arithmetic of machine words, and how values lie in memory; [TargetLaws] states what the
    reference and the data layout promise.  The functions the code calls are a parameter of this
    file; Runtime.v defines them.

    A register holds the value of the instruction with its number.  The memory is the stack: a
    region of bytes for each [alloca]; constant strings are read in place.  A pointer in memory is
    kept as eight fragments of it. *)

From Stdlib Require Import ZArith NArith Ascii String Lia.
From stdpp Require Import base option list strings gmap.
From S2P Require Import Prelude LLVM.

(** ** Values at run time *)

Inductive pointer :=
  | PStack (r off : nat)
  | PString (s : list ascii) (off : nat)
  | PHost (h : host)
  | PCursor (n : nat).

#[export] Instance pointer_eq_dec : EqDecision pointer.
Proof. solve_decision. Defined.

(** An integer of [w] bits is its pattern, from 0 up to [2^w]. *)
Inductive rval :=
  | RInt (w : nat) (z : Z)
  | RPtr (p : pointer)
  | RAgg (vs : list rval)
  | RUndef.

Inductive memval := MUndef | MByte (b : ascii) | MPtr (p : pointer) (i : nat).

#[export] Instance memval_eq_dec : EqDecision memval.
Proof. solve_decision. Defined.

Abbreviation memory := (gmap nat (list memval)).
Abbreviation registers := (gmap nat rval).

Definition pattern (w : nat) (z : Z) : Z := (z mod 2 ^ Z.of_nat w)%Z.

Lemma pattern_signed z : pattern 64 (signed64 z) = pattern 64 z.
Proof.
  unfold pattern, signed64. change (2 ^ Z.of_nat 64)%Z with two_64.
  destruct (z mod two_64 <? two_63)%Z.
  - by rewrite Z.mod_mod.
  - rewrite Zminus_mod, Z.mod_mod, Z.mod_same, Z.sub_0_r, Z.mod_mod; done.
Qed.

Lemma signed_pattern z : is_i64 z → signed64 (pattern 64 z) = z.
Proof. apply signed64_mod. Qed.

(** ** The processor *)

Class Target := {
  (** Integer arithmetic on patterns of [w] bits; an undefined operation has no result. *)
  sem_bin : binop → nat → Z → Z → option Z;
  sem_icmp : icmp → nat → Z → Z → bool;
  (** The data layout: sizes of types in bytes, and offsets of the elements of structs. *)
  alloc_size : structs → ltype → nat;
  field_offset : structs → nat → nat → nat;
  (** What a store writes and a load reads. *)
  encode : structs → ltype → rval → option (list memval);
  decode : structs → ltype → list memval → option rval;
}.

(** ** Types of values *)

Fixpoint has_type (fuel : nat) (ss : structs) (t : ltype) (v : rval) : bool :=
  match fuel with
  | O => false
  | S fuel =>
      match t, v with
      | TInt w, RInt w' z => bool_decide (w = w' ∧ 0 ≤ z < 2 ^ Z.of_nat w)%Z
      | TPtr _, RPtr _ => true
      | TStruct k, RAgg vs =>
          match ss !! k with
          | Some (_, ts) =>
              bool_decide (length ts = length vs) &&
              forallb (λ '(t, v), has_type fuel ss t v) (zip ts vs)
          | None => false
          end
      | _, _ => false
      end
  end.

(** A value all of whose parts are defined and have the types of [t]. *)
Definition typed (ss : structs) (t : ltype) (v : rval) : Prop := ∃ fuel, has_type fuel ss t v = true.

(** The elements of a struct type exist before it. *)
Fixpoint type_below (k : nat) (t : ltype) : bool :=
  match t with
  | TStruct j => bool_decide (j < k)
  | TArray t _ => type_below k t
  | _ => true
  end.

Definition wf_structs (ss : structs) : Prop :=
  ∀ k n ts, ss !! k = Some (n, ts) → Forall (λ t, type_below k t = true) ts.

Definition slice (off n : nat) (m : list memval) : list memval := take n (drop off m).

Definition all_i64 (ts : list ltype) : Prop := Forall (λ t, t = i64) ts.

(** The signed reading of a pattern of 64 bits is [signed64]. *)
Class TargetLaws `{Target} := {
  bin_add a b : sem_bin Add 64 a b = Some (pattern 64 (a + b));
  bin_sub a b : sem_bin Sub 64 a b = Some (pattern 64 (a - b));
  bin_mul a b : sem_bin Mul 64 a b = Some (pattern 64 (a * b));
  (** Division by zero and the one quotient out of range are undefined. *)
  bin_sdiv a b : (signed64 b ≠ 0)%Z → is_i64 (Z.quot (signed64 a) (signed64 b)) →
    sem_bin SDiv 64 a b = Some (pattern 64 (Z.quot (signed64 a) (signed64 b)));
  bin_srem a b : (signed64 b ≠ 0)%Z → is_i64 (Z.quot (signed64 a) (signed64 b)) →
    sem_bin SRem 64 a b = Some (pattern 64 (Z.rem (signed64 a) (signed64 b)));
  cmp_eq w a b : sem_icmp EQ w a b = (a =? b)%Z;
  cmp_ne w a b : sem_icmp NE w a b = negb (a =? b)%Z;
  cmp_slt a b : sem_icmp SLT 64 a b = (signed64 a <? signed64 b)%Z;
  cmp_sle a b : sem_icmp SLE 64 a b = (signed64 a <=? signed64 b)%Z;
  cmp_sgt a b : sem_icmp SGT 64 a b = (signed64 b <? signed64 a)%Z;
  cmp_sge a b : sem_icmp SGE 64 a b = (signed64 b <=? signed64 a)%Z;
  (** The elements of a struct lie one after the other inside it. *)
  field_bounds ss k n ts i t : wf_structs ss → ss !! k = Some (n, ts) → ts !! i = Some t →
    field_offset ss k i + alloc_size ss t ≤ alloc_size ss (TStruct k);
  field_disjoint ss k n ts i j t : wf_structs ss → ss !! k = Some (n, ts) → ts !! i = Some t → i < j →
    j < length ts → field_offset ss k i + alloc_size ss t ≤ field_offset ss k j;
  (** A load reads back what a store of a whole value wrote. *)
  encode_typed ss t v : wf_structs ss → typed ss t v →
    ∃ bs, encode ss t v = Some bs ∧ length bs = alloc_size ss t ∧ decode ss t bs = Some v;
  (** Buffers are arrays of bytes; eight bytes are loaded as a little-endian word. *)
  size_i8 ss : alloc_size ss i8 = 1;
  size_i64 ss : alloc_size ss i64 = 8;
  size_bytes ss n : alloc_size ss (TArray i8 n) = n;
  decode_i64 ss bs : length bs = 8 → decode ss i64 (MByte <$> bs) = Some (RInt 64 (le_combine bs));
  (** A pointer and a length, as [string_struct] has them. *)
  encode_string ss k n p z bs : ss !! k = Some (n, [i8ptr; i64]) →
    encode ss (TStruct k) (RAgg [RPtr p; RInt 64 z]) = Some bs →
    bs = (MPtr p <$> seq 0 8) ++ (MByte <$> le_split 8 z);
  (** Structs of 64-bit integers are stored without gaps. *)
  encode_i64_struct ss k n ts zs bs : ss !! k = Some (n, ts) → all_i64 ts → length zs = length ts →
    encode ss (TStruct k) (RAgg (RInt 64 <$> zs)) = Some bs →
    bs = MByte <$> concat (le_split 8 <$> zs);
  (** A struct is loaded and stored element by element. *)
  decode_struct ss k n ts bs vs : wf_structs ss → ss !! k = Some (n, ts) →
    length bs = alloc_size ss (TStruct k) →
    decode ss (TStruct k) bs = Some (RAgg vs) ↔
    length vs = length ts ∧
    ∀ i t v, ts !! i = Some t → vs !! i = Some v →
      decode ss t (slice (field_offset ss k i) (alloc_size ss t) bs) = Some v;
}.

(** ** Memory *)

Definition load_bytes (m : memory) (p : pointer) (n : nat) : option (list memval) :=
  match p with
  | PStack r off =>
      bs ← m !! r;
      if decide (off + n ≤ length bs) then Some (slice off n bs) else None
  | PString s off =>
      let bs := MByte <$> (s ++ [ch 0]) in
      if decide (off + n ≤ length bs) then Some (slice off n bs) else None
  | PHost _ | PCursor _ => None
  end.

Definition store_bytes (m : memory) (p : pointer) (new : list memval) : option memory :=
  match p with
  | PStack r off =>
      bs ← m !! r;
      if decide (off + length new ≤ length bs)
      then Some (<[r := take off bs ++ new ++ drop (off + length new) bs]> m) else None
  | _ => None
  end.

(** A [char*] and a length, as the runtime functions read them. *)
Definition byte_of (v : memval) : option ascii := match v with MByte b => Some b | _ => None end.
Definition load_string (m : memory) (p : pointer) (n : nat) : option cstr :=
  bs ← load_bytes m p n; mapM byte_of bs.

Definition shift_ptr (p : pointer) (d : nat) : option pointer :=
  match p with
  | PStack r off => Some (PStack r (off + d))
  | PString s off => Some (PString s (off + d))
  | _ => None
  end.

(** ** Instructions *)

Section machine.
Context `{T : Target} (ss : structs).

Definition eval_undef (t : ltype) : rval :=
  match t with
  | TStruct k => match ss !! k with Some (_, ts) => RAgg (replicate (length ts) RUndef) | None => RUndef end
  | TArray _ n => RAgg (replicate n RUndef)
  | _ => RUndef
  end.

Fixpoint eval (regs : registers) (v : lvalue) : option rval :=
  match v with
  | CInt w z => Some (RInt w (pattern w z))
  | CStr s => Some (RPtr (PString s 0))
  | CStruct _ vs => RAgg <$> mapM (eval regs) vs
  | CUndef t => Some (eval_undef t)
  | CHost h => Some (RPtr (PHost h))
  | Reg r _ => regs !! r
  end.

(** The distance an index list moves a pointer to [t]: the first index counts whole objects. *)
Fixpoint index_offset (regs : registers) (t : ltype) (idx : list lvalue) : option nat :=
  match idx with
  | [] => Some 0
  | v :: idx =>
      x ← eval regs v;
      match t, x with
      | TStruct k, RInt _ z =>
          ft ← element_type ss t (Z.to_nat z);
          d ← index_offset regs ft idx;
          Some (field_offset ss k (Z.to_nat z) + d)
      | TArray t n, RInt _ z =>
          if decide (Z.to_nat z ≤ n) then
            d ← index_offset regs t idx; Some (Z.to_nat z * alloc_size ss t + d)
          else None
      | _, _ => None
      end
  end.

Definition gep_offset (regs : registers) (t : ltype) (idx : list lvalue) : option nat :=
  match idx with
  | [] => None
  | v :: idx =>
      x ← eval regs v;
      match x with
      | RInt _ z => d ← index_offset regs t idx; Some (Z.to_nat z * alloc_size ss t + d)
      | _ => None
      end
  end.

Definition insert_value (agg v : rval) (i : nat) : option rval :=
  match agg with
  | RAgg vs => if decide (i < length vs) then Some (RAgg (<[i := v]> vs)) else None
  | _ => None
  end.

(** The instructions that neither touch memory nor the flow of control. *)
Definition eval_pure (regs : registers) (i : instr) : option rval :=
  match i with
  | IBin op a b =>
      x ← eval regs a; y ← eval regs b;
      match x, y with
      | RInt w x, RInt w' y => if decide (w = w') then RInt w <$> sem_bin op w x y else None
      | _, _ => None
      end
  | IICmp op a b =>
      x ← eval regs a; y ← eval regs b;
      match x, y with
      | RInt w x, RInt w' y =>
          if decide (w = w') then Some (RInt 1 (if sem_icmp op w x y then 1 else 0)%Z) else None
      | _, _ => None
      end
  | IInsertValue agg v i => x ← eval regs agg; y ← eval regs v; insert_value x y i
  | IBitCast v _ => eval regs v
  | IGEP p idx _ =>
      x ← eval regs p;
      match x with
      | RPtr q => d ← gep_offset regs (pointee (type_of p)) idx; RPtr <$> shift_ptr q d
      | _ => None
      end
  | _ => None
  end.

(** ** States and steps *)

Context {W : Type}.
(** The functions the code calls, by symbol. *)
Context (call_fn : cstr → list rval → memory → W → result (rval * memory * W)).

Record mstate := mk_mstate {
  blk : nat; idx : nat; pred : nat; regs : registers; mem : memory; world : W;
}.

Inductive outcome := Next (σ : mstate) | Returned (v : rval) (m : memory) (w : W).

Definition of_option {A} (o : option A) : result A := match o with Some a => Ok a | None => UB end.

(** After an instruction that computes a value. *)
Definition advance (σ : mstate) (r : nat) (v : rval) : outcome :=
  Next (mk_mstate (blk σ) (S (idx σ)) (pred σ) (<[r := v]> (regs σ)) (mem σ) (world σ)).

Definition goto (σ : mstate) (b : nat) : outcome :=
  Next (mk_mstate b 0 (blk σ) (regs σ) (mem σ) (world σ)).

(** After an instruction that changes memory or the world. *)
Definition advance_mem (σ : mstate) (r : nat) (v : rval) (m : memory) (w : W) : outcome :=
  Next (mk_mstate (blk σ) (S (idx σ)) (pred σ) (<[r := v]> (regs σ)) m w).

Definition exec (σ : mstate) (r : nat) (i : instr) : result outcome :=
  let ev v := of_option (eval (regs σ) v) in
  match i with
  | IAlloca t =>
      Ok (advance_mem σ r (RPtr (PStack r 0)) (<[r := replicate (alloc_size ss t) MUndef]> (mem σ)) (world σ))
  | ILoad p =>
      x ← ev p;
      match x with
      | RPtr q =>
          let t := pointee (type_of p) in
          bs ← of_option (load_bytes (mem σ) q (alloc_size ss t));
          v ← of_option (decode ss t bs);
          Ok (advance σ r v)
      | _ => UB
      end
  | IStore v p =>
      x ← ev v; y ← ev p;
      match y with
      | RPtr q =>
          bs ← of_option (encode ss (type_of v) x);
          m ← of_option (store_bytes (mem σ) q bs);
          Ok (advance_mem σ r RUndef m (world σ))
      | _ => UB
      end
  | IMemCpy dst src len =>
      d ← ev dst; s ← ev src; n ← ev len;
      match d, s, n with
      | RPtr d, RPtr s, RInt _ n =>
          bs ← of_option (load_bytes (mem σ) s (Z.to_nat n));
          m ← of_option (store_bytes (mem σ) d bs);
          Ok (advance_mem σ r RUndef m (world σ))
      | _, _, _ => UB
      end
  | IPhi _ inc =>
      v ← of_option (snd <$> list_find (λ '(_, b), b = pred σ) inc);
      x ← ev v.1;
      Ok (advance σ r x)
  | ICall f args =>
      xs ← of_option (mapM (eval (regs σ)) args);
      '(v, m, w) ← call_fn (symbol f) xs (mem σ) (world σ);
      Ok (advance_mem σ r v m w)
  | IBr b => Ok (goto σ b)
  | ICondBr c t f =>
      x ← ev c;
      match x with
      | RInt _ z => Ok (goto σ (if (z =? 0)%Z then f else t))
      | _ => UB
      end
  | IRet v => x ← ev v; Ok (Returned x (mem σ) (world σ))
  | IBin _ _ _ | IICmp _ _ _ | IInsertValue _ _ _ | IBitCast _ _ | IGEP _ _ _ =>
      v ← of_option (eval_pure (regs σ) i);
      Ok (advance σ r v)
  end.

(** The instruction at the program's position; running off a block is [UB]. *)
Definition step (P : list (list ascii * code)) (σ : mstate) : result outcome :=
  '(_, c) ← of_option (P !! blk σ);
  '(r, i) ← of_option (c !! idx σ);
  exec σ r i.

Fixpoint run (fuel : nat) (P : list (list ascii * code)) (σ : mstate) : result (rval * memory * W) :=
  match fuel with
  | O => OutOfFuel
  | S fuel =>
      o ← step P σ;
      match o with
      | Next σ => run fuel P σ
      | Returned v m w => Ok (v, m, w)
      end
  end.

Definition steps_to (P : list (list ascii * code)) : mstate → mstate → Prop :=
  rtc (λ σ σ', step P σ = Ok (Next σ')).
End machine.

Arguments mk_mstate {W}.
Arguments blk {W}.
Arguments idx {W}.
Arguments pred {W}.
Arguments regs {W}.
Arguments mem {W}.
Arguments world {W}.
Arguments Next {W}.
Arguments Returned {W}.

(** The registers a value mentions are below [n]. *)
Fixpoint below (n : nat) (v : lvalue) : bool :=
  match v with
  | Reg r _ => bool_decide (r < n)
  | CStruct _ vs => forallb (below n) vs
  | CInt _ _ | CStr _ | CUndef _ | CHost _ => true
  end.

Definition operands (i : instr) : list lvalue :=
  match i with
  | IAlloca _ | IBr _ => []
  | ILoad p | IBitCast p _ | ICondBr p _ _ | IRet p => [p]
  | IStore v p | IInsertValue v p _ | IBin _ v p | IICmp _ v p => [v; p]
  | IGEP p idx _ => p :: idx
  | IMemCpy d s l => [d; s; l]
  | IPhi _ inc => inc.*1
  | ICall _ args => args
  end.

(** A constant the builder returns in place of an instruction has the instruction's value, where
    that is defined, and mentions no other registers. *)
Class LLVMFolds `{L : LLVM} `{T : Target} := {
  fold_eval ss regs i v x :
    fold i = Some v → eval_pure ss regs i = Some x → eval ss regs v = Some x;
  fold_below n i v : fold i = Some v → forallb (below n) (operands i) = true → below n v = true;
}.
