(* ===== verification/Runtime.v ===== *)
(** * Runtime: the functions compiled code calls
      ([src/src/reir/exec/compiler.cpp], [compiler_context.*], [src/src/reir/engine/foedus_interface.cpp])

    Compiled code calls functions of the process by symbol: those of the language ([print_int],
    [print_string], [rand_int], [__emit_func]) and those that pass a call on to FOEDUS.  FOEDUS and
    the random device are not part of the repository: they are the classes [FoedusAPI] and
    [Random].  The world is what these functions read and change. *)

From Stdlib Require Import ZArith NArith Ascii String Lia.
From stdpp Require Import base option list strings gmap.
From S2P Require Import Prelude Value LLVM Machine.

(** ** What the functions are built on *)

(** FOEDUS: each call gives the engine's new state and whether it returned [kErrorCodeOk]; an error
    is looked up in the state it leaves.  The state includes the thread's transaction: what it has
    read (through a cursor, too) and what it is going to write.  Lengths are taken to fit FOEDUS's
    types for them. *)
Class FoedusAPI (E C : Type) := {
  foedus_begin : E → E * bool;
  foedus_precommit : E → E * bool;
  insert_record : E → cstr → cstr → E * bool;
  overwrite_record : E → cstr → cstr → E * bool;
  cursor_open : E → cstr → cstr → E * C * bool;
  is_valid_record : E → C → bool;
  cursor_next : E → C → E * C * bool;
  copy_combined_key : E → C → cstr;
  get_payload : E → C → cstr;
  (** [get_error_message] *)
  error_message : E → cstr;
  (** [operator<<] of an error code. *)
  show_error : E → cstr;
}.

(** [std::uniform_int_distribution] on a random device, whose state is part of the world. *)
Class Random (G : Type) := { uniform : Z → Z → G → Z * G }.
Class RandomLaws (G : Type) `{Random G} :=
  uniform_range : ∀ a b g, (a ≤ b)%Z → (a ≤ (uniform a b g).1 ≤ b)%Z.

Record World (E C G : Type) := mk_world {
  stdout : cstr;
  outputs_ : list (list memval);
  engine : E;
  cursors : list (option C);
  random : G;
}.
Arguments mk_world {E C G}.
Arguments stdout {E C G}.
Arguments outputs_ {E C G}.
Arguments engine {E C G}.
Arguments cursors {E C G}.
Arguments random {E C G}.

Section runtime.
Context {E C G : Type} `{FoedusAPI E C} `{Random G}.
Abbreviation W := (World E C G).

Definition set_stdout (w : W) (s : cstr) : W := mk_world s (outputs_ w) (engine w) (cursors w) (random w).
Definition print (w : W) (s : cstr) : W := set_stdout w (stdout w ++ s).
Definition set_outputs (w : W) (o : list (list memval)) : W := mk_world (stdout w) o (engine w) (cursors w) (random w).
Definition set_engine (w : W) (e : E) : W := mk_world (stdout w) (outputs_ w) e (cursors w) (random w).
Definition set_cursors (w : W) (c : list (option C)) : W := mk_world (stdout w) (outputs_ w) (engine w) c (random w).
Definition set_random (w : W) (g : G) : W := mk_world (stdout w) (outputs_ w) (engine w) (cursors w) g.

Definition endl : cstr := [ch 10].

(** ** Functions of the language *)

Definition print_int (s : Z) (w : W) : W := print w (show_Z s ++ endl).

Definition print_string (s : cstr) (w : W) : W := print w s.

(** [uniform_int_distribution] requires [from <= to]. *)
Definition rand_int (from to : Z) (w : W) : result (Z * W) :=
  if decide (from ≤ to)%Z then let '(z, g) := uniform from to (random w) in Ok (z, set_random w g)
  else UB.

(** [CompilerContext::get_output]: a [RawRow] with a copy of the buffer. *)
Definition get_output (buff : list memval) (w : W) : W := set_outputs w (outputs_ w ++ [buff]).

(** [emit] *)
Definition emit (buff : list memval) (w : W) : W := get_output buff w.

(** [get_int_value] *)
Definition get_int_value (v : MaybeValue) : result Z :=
  if negb (exists_ v) then throw "key is null" else
  val ← maybe_value v;
  if negb (is_int val) then throw "key is not integer" else as_int val.

(** [operator<<] of [RawRow]: every eight bytes as an unsigned number. *)
Fixpoint show_words (n : nat) (first : bool) (bs : cstr) : cstr :=
  match n with
  | O => []
  | S n => (if first then [] else lit ", ") ++ show_Z (le_combine (take 8 bs)) ++
           show_words n false (drop 8 bs)
  end.
Definition show_RawRow (bs : cstr) : cstr :=
  lit "[" ++ show_words (length bs / 8) true bs ++ lit "]".

(** ** Functions over FOEDUS *)

Definition begin_xct (w : W) : bool * W :=
  let w := print w (lit "FOEDUS transaction started " ++ endl) in
  let '(e, ok) := foedus_begin (engine w) in
  let w := set_engine w e in
  if ok then (true, w)
  else (false, print w (lit "foedus error:[begin_xct]: " ++ error_message e ++ endl)).

Definition foedus_insert (key value : cstr) (w : W) : bool * W :=
  let '(e, ok) := insert_record (engine w) key value in
  let w := set_engine w e in
  if ok then (true, w)
  else (false, print w (lit "foedus error:[insert]: " ++ error_message e ++ endl)).

(** A new cursor is the next entry of the table of cursors. *)
Definition foedus_generate_cursor (from to : cstr) (w : W) : nat * W :=
  let '(e, c, ok) := cursor_open (engine w) from to in
  let w := set_engine w e in
  let w := if ok then w
           else print w (lit "foedus error:[open_cursor]: " ++ error_message e ++ endl) in
  (length (cursors w), set_cursors w (cursors w ++ [Some c])).

(** The cursor a pointer refers to; a deleted one is not to be used. *)
Definition get_cursor (n : nat) (w : W) : result C :=
  match cursors w !! n with Some (Some c) => Ok c | _ => UB end.

Definition foedus_cursor_is_valid (n : nat) (w : W) : result bool :=
  c ← get_cursor n w; Ok (is_valid_record (engine w) c).

(** What [next] returns is dropped. *)
Definition foedus_cursor_next (n : nat) (w : W) : result (bool * W) :=
  c ← get_cursor n w;
  let '(e, c, _) := cursor_next (engine w) c in
  let w := set_cursors (set_engine w e) (<[n := Some c]> (cursors w)) in
  Ok (is_valid_record e c, w).

Definition foedus_cursor_copy_key (n : nat) (w : W) : result cstr :=
  c ← get_cursor n w; Ok (copy_combined_key (engine w) c).

Definition foedus_cursor_copy_value (n : nat) (w : W) : result cstr :=
  c ← get_cursor n w; Ok (get_payload (engine w) c).

Definition foedus_cursor_destroy (n : nat) (w : W) : result W :=
  _ ← get_cursor n w; Ok (set_cursors w (<[n := None]> (cursors w))).

Definition foedus_update (key value : cstr) (w : W) : result (bool * W) :=
  let '(e, ok) := overwrite_record (engine w) key value in
  let w := print (set_engine w e) (lit "update invoked" ++ endl) in
  if ok then Ok (true, w) else Throw (error_message e).

(** [precommit_xct] returns nothing, whatever FOEDUS answers.  The call of [wait_for_commit] at its
    end changes nothing here: it only waits until what was committed is on disk. *)
Definition precommit_xct (w : W) : W :=
  let w := print w (lit "FOEDUS commit" ++ endl) in
  let '(e, ok) := foedus_precommit (engine w) in
  let w := set_engine w e in
  if ok then print w (lit "success." ++ endl) else print w (show_error e ++ endl).

(** *** Functions nothing calls *)

Definition foedus_next_cursor (n : nat) (w : W) : result (bool * W) :=
  c ← get_cursor n w;
  let '(e, c, _) := cursor_next (engine w) c in
  let w := set_cursors (set_engine w e) (<[n := Some c]> (cursors w)) in
  Ok (is_valid_record e c, w).

Definition foedus_destroy_cursor (n : nat) (w : W) : result (bool * W) :=
  _ ← get_cursor n w; Ok (true, set_cursors w (<[n := None]> (cursors w))).

Definition foedus_scan (key : cstr) (w : W) : bool * W := (true, w).

(** [get_length], [get_data]: a [std::string]. *)
Definition get_length (s : cstr) : nat := length s.
Definition get_data (s : cstr) (w : W) : cstr * W := (s, print w (lit "getting data(" ++ s ++ lit ")" ++ endl)).

Definition debug_out (w : W) : W := print w (lit "you came here!" ++ endl).

Definition signed_char (c : ascii) : Z := if (Z_of_byte c <? 128)%Z then Z_of_byte c else (Z_of_byte c - 256)%Z.

(** [debug_string] shows thirteen bytes as signed numbers; fewer are [UB]. *)
Definition debug_string (v : cstr) (w : W) : result W :=
  if decide (length v < 13) then UB else
  Ok (print w (concat ((λ c, show_Z (signed_char c) ++ lit " ") <$> take 13 v) ++ endl)).

(** ** The call of a symbol, with its arguments in registers and memory *)

Definition rbool (b : bool) : rval := RInt 1 (if b then 1 else 0)%Z.

(** A [string_struct] in memory: a pointer and a length. *)
Definition load_ptr (m : memory) (p : pointer) : option pointer :=
  bs ← load_bytes m p 8;
  match bs with
  | MPtr q 0 :: _ => if decide (bs = MPtr q <$> seq 0 8) then Some q else None
  | _ => None
  end.

Definition load_string_struct (m : memory) (p : pointer) : option cstr :=
  q ← load_ptr m p;
  p' ← shift_ptr p 8;
  n ← load_string m p' 8;
  load_string m q (Z.to_nat (le_combine n)).

Definition call_runtime (symbol : cstr) (args : list rval) (m : memory) (w : W)
    : result (rval * memory * W) :=
  if decide (symbol = lit "print_int") then
    match args with
    | [RInt 64 z] => Ok (RUndef, m, print_int (signed64 z) w)
    | _ => UB
    end
  else if decide (symbol = lit "print_string") then
    match args with
    | [RPtr p] => s ← of_option (load_string_struct m p); Ok (RUndef, m, print_string s w)
    | _ => UB
    end
  else if decide (symbol = lit "rand_int") then
    match args with
    | [RInt 64 a; RInt 64 b] =>
        '(z, w) ← rand_int (signed64 a) (signed64 b) w;
        Ok (RInt 64 (pattern 64 z), m, w)
    | _ => UB
    end
  else if decide (symbol = lit "__emit_func") then
    match args with
    | [RPtr (PHost HContext); RPtr p; RInt 64 n] =>
        buff ← of_option (load_bytes m p (Z.to_nat n));
        Ok (RUndef, m, emit buff w)
    | _ => UB
    end
  else if decide (symbol = lit "begin_xct") then
    match args with
    | [RPtr (PHost HProcArguments)] => let '(b, w) := begin_xct w in Ok (rbool b, m, w)
    | _ => UB
    end
  else if decide (symbol = lit "precommit_xct") then
    match args with
    | [RPtr (PHost HProcArguments)] => Ok (RUndef, m, precommit_xct w)
    | _ => UB
    end
  else if decide (symbol = lit "foedus_insert") then
    match args with
    | [RPtr (PHost HProcArguments); RPtr k; RInt 64 kn; RPtr v; RInt 64 vn] =>
        key ← of_option (load_string m k (Z.to_nat kn));
        value ← of_option (load_string m v (Z.to_nat vn));
        let '(b, w) := foedus_insert key value w in Ok (rbool b, m, w)
    | _ => UB
    end
  else if decide (symbol = lit "foedus_generate_cursor") then
    match args with
    | [RPtr (PHost HProcArguments); RPtr f; RInt 64 fn; RPtr t; RInt 64 tn] =>
        from ← of_option (load_string m f (Z.to_nat fn));
        to ← of_option (load_string m t (Z.to_nat tn));
        let '(n, w) := foedus_generate_cursor from to w in Ok (RPtr (PCursor n), m, w)
    | _ => UB
    end
  else if decide (symbol = lit "foedus_cursor_next") then
    match args with
    | [RPtr (PCursor n)] => '(b, w) ← foedus_cursor_next n w; Ok (rbool b, m, w)
    | _ => UB
    end
  else if decide (symbol = lit "foedus_cursor_is_valid") then
    match args with
    | [RPtr (PCursor n)] => b ← foedus_cursor_is_valid n w; Ok (rbool b, m, w)
    | _ => UB
    end
  else if decide (symbol = lit "foedus_cursor_copy_key") then
    match args with
    | [RPtr (PCursor n); RPtr p] =>
        k ← foedus_cursor_copy_key n w;
        m ← of_option (store_bytes m p (MByte <$> k));
        Ok (RUndef, m, w)
    | _ => UB
    end
  else if decide (symbol = lit "foedus_cursor_copy_value") then
    match args with
    | [RPtr (PCursor n); RPtr p] =>
        v ← foedus_cursor_copy_value n w;
        m ← of_option (store_bytes m p (MByte <$> v));
        Ok (RUndef, m, w)
    | _ => UB
    end
  else if decide (symbol = lit "foedus_cursor_destroy") then
    match args with
    | [RPtr (PCursor n)] => w ← foedus_cursor_destroy n w; Ok (RUndef, m, w)
    | _ => UB
    end
  else UB.
End runtime.
