(* ===== verification/Concrete.v ===== *)
(** * Concrete: instances of the interfaces

    A processor, an engine and a random source to evaluate compiled programs on: little-endian
    words, structs without gaps between their elements, and records in a finite map.  They
    show that the laws the theorems assume of LLVM, FOEDUS and the random device can hold. *)

From Stdlib Require Import ZArith NArith Ascii String Lia.
From stdpp Require Import base option list strings gmap sorting numbers.
From S2P Require Import Prelude LLVM Layout Machine Runtime.

(** ** A processor *)

Definition signed (w : nat) (z : Z) : Z :=
  if (z <? 2 ^ (Z.of_nat w - 1))%Z then z else (z - 2 ^ Z.of_nat w)%Z.

Definition word_bin (op : binop) (w : nat) (a b : Z) : option Z :=
  match op with
  | Add => Some (pattern w (a + b))
  | Sub => Some (pattern w (a - b))
  | Mul => Some (pattern w (a * b))
  | SDiv | SRem =>
      let x := signed w (pattern w a) in
      let y := signed w (pattern w b) in
      let q := Z.quot x y in
      if ((y =? 0) || (2 ^ (Z.of_nat w - 1) <=? q))%Z then None
      else Some (pattern w (match op with SRem => Z.rem x y | _ => q end))
  end.

Definition word_icmp (op : icmp) (w : nat) (a b : Z) : bool :=
  let x := signed w (pattern w a) in
  let y := signed w (pattern w b) in
  match op with
  | EQ => (a =? b)%Z
  | NE => negb (a =? b)%Z
  | SLT => (x <? y)%Z
  | SLE => (x <=? y)%Z
  | SGT => (y <? x)%Z
  | SGE => (y <=? x)%Z
  end.

Section packed.
Context (ss : structs).

Section sizes.
Context (inner : ltype → nat).
Fixpoint size_with (t : ltype) : nat :=
  match t with
  | TVoid => 0
  | TInt w => (w + 7) / 8
  | TDouble | TPtr _ => 8
  | TArray t n => n * size_with t
  | TStruct k => match ss !! k with Some (_, ts) => sum_list (inner <$> ts) | None => 0 end
  end.
End sizes.

(** Structs nest at most as deep as there are structs. *)
Fixpoint size_fuel (fuel : nat) : ltype → nat :=
  size_with (match fuel with O => λ _, 0 | S f => size_fuel f end).
Definition packed_size : ltype → nat := size_fuel (length ss).

Definition packed_offset (k i : nat) : nat :=
  match ss !! k with Some (_, ts) => sum_list (packed_size <$> take i ts) | None => 0 end.

Definition int_bytes (w : nat) (z : Z) : list memval := MByte <$> le_split ((w + 7) / 8) z.

Fixpoint packed_encode (fuel : nat) (t : ltype) (v : rval) : option (list memval) :=
  match fuel with
  | O => None
  | S f =>
      match t, v with
      | TInt w, RInt w' z => if decide (w = w') then Some (int_bytes w z) else None
      | TPtr _, RPtr p => Some (MPtr p <$> seq 0 8)
      | TStruct k, RAgg vs =>
          '(_, ts) ← ss !! k;
          if decide (length ts = length vs)
          then mjoin <$> mapM (λ '(t, v), packed_encode f t v) (zip ts vs) else None
      | _, _ => None
      end
  end.

(** The elements of a struct, one after the other. *)
Section elements.
Context (decode : ltype → list memval → option rval).
Fixpoint decode_elements (ts : list ltype) (bs : list memval) : option (list rval) :=
  match ts with
  | [] => Some []
  | t :: ts =>
      v ← decode t (take (packed_size t) bs);
      vs ← decode_elements ts (drop (packed_size t) bs);
      Some (v :: vs)
  end.
End elements.

Fixpoint packed_decode (fuel : nat) (t : ltype) (bs : list memval) : option rval :=
  match fuel with
  | O => None
  | S f =>
      match t with
      | TInt w =>
          b ← mapM byte_of bs;
          let z := le_combine b in
          if (z <? 2 ^ Z.of_nat w)%Z then Some (RInt w z) else None
      | TPtr _ =>
          match bs with
          | MPtr p 0 :: _ => if decide (bs = MPtr p <$> seq 0 8) then Some (RPtr p) else None
          | _ => None
          end
      | TStruct k =>
          '(_, ts) ← ss !! k;
          RAgg <$> decode_elements (packed_decode f) ts bs
      | _ => None
      end
  end.
End packed.

#[export] Instance packed_target : Target := {
  sem_bin := word_bin;
  sem_icmp := word_icmp;
  alloc_size := packed_size;
  field_offset := packed_offset;
  encode ss := packed_encode ss (S (length ss));
  decode ss := packed_decode ss (S (length ss));
}.

(** ** The processor keeps its laws *)

Lemma signed_pattern64 z : signed 64 (pattern 64 z) = signed64 z.
Proof. reflexivity. Qed.

Lemma sum_list_app l k : sum_list (l ++ k) = sum_list l + sum_list k.
Proof. induction l as [|x l IH]; simpl; [done|]. rewrite IH. simpl. lia. Qed.

Section packed_laws.
Context (ss : structs) (Hwf : wf_structs ss).

(** *** Sizes *)

(** Fuel beyond the depth of a type makes no difference. *)
Lemma size_fuel_enough k : ∀ f f' t, k ≤ f → k ≤ f' → type_below k t = true →
  size_fuel ss f t = size_fuel ss f' t.
Proof.
  induction k as [k IH] using lt_wf_ind. intros f f' t Hf Hf' Ht.
  destruct f as [|g], f' as [|g']; cbn [size_fuel];
    (induction t as [| | | |t IHt n|j]; cbn [size_with type_below] in *; auto; try (by rewrite IHt)).
  all: apply bool_decide_eq_true in Ht; try lia.
  destruct (ss !! j) as [[n ts]|] eqn:Hj; [|done]. f_equal. apply list_fmap_ext. intros i t Hi.
  apply (IH j Ht); [lia|lia|]. exact (Forall_lookup_1 _ _ _ _ (Hwf _ _ _ Hj) Hi).
Qed.

Lemma packed_struct_size k n ts :
  ss !! k = Some (n, ts) → packed_size ss (TStruct k) = sum_list (packed_size ss <$> ts).
Proof.
  intros Hk. unfold packed_size. pose proof (lookup_lt_Some _ _ _ Hk).
  destruct (length ss) as [|m] eqn:Hl; [lia|]. cbn [size_fuel size_with]. rewrite Hk. f_equal.
  apply list_fmap_ext. intros i t Hi. change (size_fuel ss m t = size_fuel ss (S m) t).
  apply (size_fuel_enough k); [lia|lia|]. exact (Forall_lookup_1 _ _ _ _ (Hwf _ _ _ Hk) Hi).
Qed.

Lemma packed_offset_at k n ts i :
  ss !! k = Some (n, ts) → packed_offset ss k i = sum_list (packed_size ss <$> take i ts).
Proof. intros Hk. unfold packed_offset. by rewrite Hk. Qed.

Lemma offset_next k n ts i t :
  ss !! k = Some (n, ts) → ts !! i = Some t →
  packed_offset ss k i + packed_size ss t = packed_offset ss k (S i).
Proof.
  intros Hk Ht. rewrite !(packed_offset_at _ _ _ _ Hk), (take_S_r _ _ _ Ht), fmap_app, sum_list_app. simpl. lia.
Qed.
Lemma offset_mono k n ts i j :
  ss !! k = Some (n, ts) → i ≤ j → packed_offset ss k i ≤ packed_offset ss k j.
Proof.
  intros Hk Hij. rewrite !(packed_offset_at _ _ _ _ Hk). replace j with (i + (j - i)) by lia.
  rewrite <- take_take_drop, fmap_app, sum_list_app. lia.
Qed.

Lemma offset_end k n ts : ss !! k = Some (n, ts) → packed_offset ss k (length ts) = packed_size ss (TStruct k).
Proof. intros Hk. by rewrite (packed_offset_at _ _ _ _ Hk), (packed_struct_size _ _ _ Hk), firstn_all. Qed.

(** *** Loads and stores *)

Lemma mapM_bytes_of bs : mapM byte_of (MByte <$> bs) = Some bs.
Proof. by apply mapM_fmap_Some. Qed.

Lemma decode_int w z : (0 ≤ z < 2 ^ Z.of_nat w)%Z → le_combine (le_split ((w + 7) / 8) z) = z.
Proof.
  intros Hz. rewrite le_combine_split. apply Z.mod_small. split; [lia|]. eapply Z.lt_le_trans; [apply Hz|].
  change 256%Z with (2 ^ 8)%Z. rewrite <- Z.pow_mul_r by lia. apply Z.pow_le_mono_r; [lia|].
  pose proof (Nat.div_mod_eq (w + 7) 8). pose proof (Nat.mod_upper_bound (w + 7) 8). lia.
Qed.

(** A whole value is read back, with fuel beyond the depth of its type. *)
Lemma encode_decode k : ∀ f t v n, type_below k t = true → has_type f ss t v = true → k < n →
  ∃ bs, packed_encode ss n t v = Some bs ∧ length bs = packed_size ss t ∧ packed_decode ss n t bs = Some v.
Proof.
  induction k as [k IH] using lt_wf_ind. intros f t v n Ht Hv Hn.
  destruct n as [|n]; [lia|]. destruct f as [|f]; [done|]. destruct t as [|w| |t|t m|j], v as [w' z|p|vs|]; try done.
  - simpl in Hv. apply bool_decide_eq_true in Hv as [<- Hz]. exists (int_bytes w z). split_and!.
    + simpl. by rewrite decide_True.
    + unfold int_bytes. rewrite length_fmap, length_le_split. unfold packed_size. by destruct (length ss).
    + unfold int_bytes. cbn [packed_decode]. rewrite mapM_bytes_of. cbn [mbind option_bind]. rewrite decode_int by done.
      destruct (Z.ltb_spec z (2 ^ Z.of_nat w)); [done|lia].
  - exists (MPtr p <$> seq 0 8). split_and!; [done| |].
    + rewrite length_fmap, length_seq. unfold packed_size. by destruct (length ss).
    + cbn [packed_decode fmap list_fmap seq]. by rewrite decide_True.
  - simpl in Ht, Hv. apply bool_decide_eq_true in Ht. destruct (ss !! j) as [[nm ts]|] eqn:Hj; [|done].
    apply andb_prop in Hv as [Hl Hv]. apply bool_decide_eq_true in Hl.
    assert (Hels : ∃ bs, mjoin <$> mapM (λ '(t, v), packed_encode ss n t v) (zip ts vs) = Some bs ∧
      length bs = sum_list (packed_size ss <$> ts) ∧ decode_elements ss (packed_decode ss n) ts bs = Some vs).
    { assert (Hbelow : Forall (λ t, type_below j t = true) ts) by by eapply Hwf. clear Hj.
      revert vs Hl Hv. induction Hbelow as [|t ts Ht' _ IHts]; intros [|v vs] Hl Hv; try done; [by exists []|].
      simpl in Hv. apply andb_prop in Hv as [Hv1 Hv2].
      destruct (IH j Ht f t v n Ht' Hv1 ltac:(lia)) as (b1 & He1 & Hl1 & Hd1).
      destruct (IHts vs ltac:(simpl in Hl; lia) Hv2) as (b2 & He2 & Hl2 & Hd2).
      apply fmap_Some in He2 as (bb & He2 & ->). exists (b1 ++ mjoin bb). split_and!.
      - cbn [zip zip_with mapM]. rewrite He1. cbn [mbind option_bind]. by rewrite He2.
      - rewrite length_app, Hl1, Hl2. done.
      - cbn [decode_elements]. rewrite take_app_length' by done. rewrite Hd1. simpl.
        rewrite drop_app_length' by done. by rewrite Hd2. }
    destruct Hels as (bs & He & Hlen & Hd). exists bs. split_and!.
    + cbn [packed_encode]. rewrite Hj. cbn. by rewrite decide_True.
    + by rewrite (packed_struct_size _ _ _ Hj).
    + cbn [packed_decode]. rewrite Hj. cbn. by rewrite Hd.
Qed.
(** Fuel beyond the depth of a type makes no difference to a load. *)
Lemma decode_enough k : ∀ n n' t bs, type_below k t = true → k < n → k < n' →
  packed_decode ss n t bs = packed_decode ss n' t bs.
Proof.
  induction k as [k IH] using lt_wf_ind. intros n n' t bs Ht Hn Hn'.
  destruct n as [|n], n' as [|n']; try lia. destruct t as [|w| |t|t m|j]; try done.
  simpl in Ht. apply bool_decide_eq_true in Ht. cbn [packed_decode].
  destruct (ss !! j) as [[nm ts]|] eqn:Hj; [|done]. cbn. f_equal.
  assert (Hbelow : Forall (λ t, type_below j t = true) ts) by by eapply Hwf. clear Hj. revert bs.
  induction Hbelow as [|t ts Ht' _ IHts]; intros bs; [done|]. cbn [decode_elements].
  rewrite (IH j Ht n n' t _ Ht') by lia. destruct (packed_decode ss n' t _); [|done]. cbn. by rewrite IHts.
Qed.

Lemma decode_elements_iff dec ts bs vs :
  decode_elements ss dec ts bs = Some vs ↔
  length vs = length ts ∧ ∀ i t v, ts !! i = Some t → vs !! i = Some v →
    dec t (slice (sum_list (packed_size ss <$> take i ts)) (packed_size ss t) bs) = Some v.
Proof.
  revert bs vs. induction ts as [|t ts IH]; intros bs vs; cbn [decode_elements].
  { split; [by intros [= <-]|]. intros [Hl _]. by destruct vs. }
  split.
  - intros Hd. apply bind_Some in Hd as (v & Hv & Hd). apply bind_Some in Hd as (vs' & Hvs & [= <-]).
    apply IH in Hvs as [Hl Hvs]. split; [simpl; by rewrite Hl|]. intros [|i] t' v' Ht' Hv'; simplify_eq/=; [done|].
    specialize (Hvs _ _ _ Ht' Hv'). unfold slice in *. by rewrite drop_drop in Hvs.
  - intros [Hl Hd]. destruct vs as [|v vs]; [done|]. apply bind_Some. exists v.
    split; [by apply (Hd 0)|]. apply bind_Some. exists vs. split; [|done]. apply IH.
    split; [simpl in Hl; lia|]. intros i t' v' Ht' Hv'. specialize (Hd (S i) t' v' Ht' Hv'). unfold slice in *.
    by rewrite drop_drop.
Qed.
End packed_laws.

Lemma mapM_int_words ss n zs ts :
  all_i64 ts → length zs = length ts →
  mapM (λ '(t, v), packed_encode ss (S n) t v) (zip ts (RInt 64 <$> zs)) =
  Some ((λ z, MByte <$> le_split 8 z) <$> zs).
Proof.
  intros Hts. revert zs. induction Hts as [|t ts -> _ IH]; intros [|z zs] Hl; try done.
  cbn [zip zip_with fmap list_fmap mapM]. injection Hl as Hl. by rewrite (IH _ Hl).
Qed.

Lemma word_div op a b x :
  (op = SDiv ∧ x = Z.quot (signed64 a) (signed64 b)) ∨ (op = SRem ∧ x = Z.rem (signed64 a) (signed64 b)) →
  signed64 b ≠ 0%Z → is_i64 (Z.quot (signed64 a) (signed64 b)) → word_bin op 64 a b = Some (pattern 64 x).
Proof.
  intros Hop Hb Hq. unfold is_i64, two_63 in Hq.
  assert (((signed64 b =? 0) || (2 ^ 63 <=? Z.quot (signed64 a) (signed64 b)))%Z = false) as Hd.
  { apply orb_false_intro; [by apply Z.eqb_neq|apply Z.leb_gt; lia]. }
  unfold word_bin. rewrite !signed_pattern64. change (2 ^ (Z.of_nat 64 - 1))%Z with (2 ^ 63)%Z.
  destruct Hop as [[-> ->]|[-> ->]]; by rewrite Hd.
Qed.

#[export] Instance packed_target_laws : TargetLaws (H := packed_target).
Proof.
  split; try done.
  - intros a b. apply word_div. by left.
  - intros a b. apply word_div. by right.
  - intros ss k n ts i t Hwf Hk Ht. simpl.
    rewrite (offset_next ss _ _ _ _ _ Hk Ht), <- (offset_end ss Hwf _ _ _ Hk).
    apply (offset_mono _ _ _ _ _ _ Hk). by apply lookup_lt_Some in Ht.
  - intros ss k n ts i j t Hwf Hk Ht Hij Hj. simpl. rewrite (offset_next ss _ _ _ _ _ Hk Ht).
    by apply (offset_mono _ _ _ _ _ _ Hk).
  - intros ss t v Hwf [f Hv]. assert (Hb : type_below (length ss) t = true).
    { destruct f as [|f], t as [| | | | |k], v; try done. simpl in Hv |- *.
      destruct (ss !! k) as [[n ts]|] eqn:Hk; [|done]. apply bool_decide_eq_true. by eapply lookup_lt_Some. }
    apply (encode_decode ss Hwf (length ss) f); [done|done|lia].
  - intros ss. simpl. unfold packed_size. by destruct (length ss).
  - intros ss. simpl. unfold packed_size. by destruct (length ss).
  - intros ss n. simpl. unfold packed_size. destruct (length ss); cbn [size_fuel size_with]; change ((8 + 7) / 8) with 1; lia.
  - intros ss bs Hl. cbn [decode packed_target packed_decode]. rewrite mapM_bytes_of. cbn [mbind option_bind].
    pose proof (le_combine_range bs) as Hr. rewrite Hl in Hr. change (256 ^ Z.of_nat 8)%Z with (2 ^ Z.of_nat 64)%Z in Hr.
    destruct (Z.ltb_spec (le_combine bs) (2 ^ Z.of_nat 64)); [done|lia].
  - intros ss k n p z bs Hk. simpl. rewrite Hk. cbn. pose proof (lookup_lt_Some _ _ _ Hk).
    destruct (length ss) as [|m]; [lia|]. cbn. by intros [= <-].
  - intros ss k n ts zs bs Hk Hts Hl. simpl. rewrite Hk. cbn. rewrite decide_True by by rewrite length_fmap.
    pose proof (lookup_lt_Some _ _ _ Hk). destruct (length ss) as [|m]; [lia|].
    rewrite (mapM_int_words _ _ _ _ Hts Hl). intros [= <-]. clear. induction zs as [|z zs IH]; [done|].
    cbn [fmap list_fmap mjoin list_join concat]. by rewrite fmap_app, <- IH.
  - intros ss k n ts bs vs Hwf Hk _. cbn [decode alloc_size field_offset packed_target].
    assert (packed_decode ss (S (length ss)) (TStruct k) bs =
      RAgg <$> decode_elements ss (packed_decode ss (length ss)) ts bs) as -> by (cbn [packed_decode]; by rewrite Hk).
    assert (Hdec : ∀ i t b, ts !! i = Some t →
      packed_decode ss (length ss) t b = packed_decode ss (S (length ss)) t b).
    { intros i t b Ht. pose proof (lookup_lt_Some _ _ _ Hk). apply (decode_enough ss Hwf k); [|lia|lia].
      exact (Forall_lookup_1 _ _ _ _ (Hwf _ _ _ Hk) Ht). }
    pose proof (decode_elements_iff ss (packed_decode ss (length ss)) ts bs vs) as Hiff.
    rewrite fmap_Some. split.
    + intros (vs' & Hd & [= <-]). apply Hiff in Hd as [Hl Hd]. split; [done|]. intros i t v Ht Hv.
      rewrite <- (Hdec i) by done. rewrite (packed_offset_at _ _ _ _ _ Hk). by apply Hd.
    + intros [Hl Hd]. exists vs. split; [|done]. apply Hiff. split; [done|]. intros i t v Ht Hv.
      rewrite (Hdec i) by done. rewrite <- (packed_offset_at _ _ _ _ _ Hk). by apply Hd.
Qed.

(** The folding builder computes what the instructions compute. *)
#[export] Instance folding_folds : LLVMFolds (L := folding_llvm) (T := packed_target).
Proof.
  split.
  - intros ss rg i v x Hf He. destruct i as [| | | |op a b| | | | | | | | |]; try done.
    destruct a as [w a| | | | |], b as [w' b| | | | |]; try done. simpl in Hf. case_decide as Hw; [|done].
    destruct Hw as [-> ->].
    destruct op; simplify_eq/=; f_equal; f_equal; rewrite pattern_signed; unfold pattern;
      rewrite <- ?Zplus_mod, <- ?Zminus_mod, <- ?Zmult_mod; done.
  - intros n i v Hf _. destruct i as [| | | |op a b| | | | | | | | |]; try done.
    destruct a as [w a| | | | |], b as [w' b| | | | |]; try done. simpl in Hf. case_decide; [|done].
    by destruct op; simplify_eq/=.
Qed.

(** ** An engine: committed records and one thread's transaction *)

Abbreviation record := (list ascii * list ascii)%type.
Abbreviation records := (gmap (list ascii) (list ascii)).

(** The records that are committed, and what the running transaction has written. *)
Record store := mk_store { committed_ : records; running_ : option records }.

Definition store_new : store := mk_store ∅ None.

(** The key of [b] does not come before that of [a]. *)
Definition key_le (a b : record) : Prop := key_lt b.1 a.1 = false.
#[export] Instance key_le_dec a b : Decision (key_le a b).
Proof. unfold key_le. apply _. Defined.

(** A cursor holds the records it has yet to come to. *)
Abbreviation list_cursor := (list record).

Definition range_of (from to : cstr) (m : records) : list record :=
  merge_sort key_le (filter (λ r, in_range from to r.1 = true) (map_to_list m)).

(** Transactions do not nest; only a running one writes, reads and commits; what it has written it
    does not see with a cursor. *)
#[export] Instance list_engine : FoedusAPI store list_cursor := {
  foedus_begin s :=
    match running_ s with None => (mk_store (committed_ s) (Some ∅), true) | Some _ => (s, false) end;
  foedus_precommit s :=
    match running_ s with Some ws => (mk_store (ws ∪ committed_ s) None, true) | None => (s, false) end;
  insert_record s k v :=
    match running_ s, (committed_ s ∪ default ∅ (running_ s)) !! k with
    | Some ws, None => (mk_store (committed_ s) (Some (<[k := v]> ws)), true)
    | _, _ => (s, false)
    end;
  overwrite_record s k v :=
    match running_ s, committed_ s !! k with
    | Some ws, Some _ => (mk_store (committed_ s) (Some (<[k := v]> ws)), true)
    | _, _ => (s, false)
    end;
  cursor_open s f t :=
    match running_ s with Some _ => (s, range_of f t (committed_ s), true) | None => (s, [], false) end;
  is_valid_record s c := match c with [] => false | _ => true end;
  cursor_next s c := match c with [] => (s, [], false) | _ :: c => (s, c, true) end;
  copy_combined_key s c := match c with [] => [] | r :: _ => r.1 end;
  get_payload s c := match c with [] => [] | r :: _ => r.2 end;
  error_message s := lit "error";
  show_error s := lit "1";
}.

(** ** A random source: a counter *)

#[export] Instance counter_random : Random nat := {
  uniform a b g := (a + Z.of_nat g mod (b - a + 1), S g)%Z;
}.
#[export] Instance counter_laws : RandomLaws nat.
Proof.
  intros a b g Hab. simpl. pose proof (Z.mod_pos_bound (Z.of_nat g) (b - a + 1)). lia.
Qed.

Definition world_new : World store list_cursor nat := mk_world [] [] store_new [] 0.

(** The machine at the start of a module's function. *)
Definition machine_new : mstate := mk_mstate 0 0 0 ∅ ∅ world_new.
