(* ===== verification/Engine.v ===== *)
(** * Engine: what the functions over FOEDUS rely on

    FOEDUS keeps records in the order of their keys and lets a thread work on them in transactions.
    [FoedusLaws] states what a call does that reports success; no call is taken to succeed.  Outside
    a transaction one can be begun; what it inserts is committed by precommit; a cursor opened before
    anything is written goes through the committed records of its range in the order of their keys
    (whether a transaction sees its own writes is left open).  The development has one thread, as
    [FoedusRunner] has.  The engine of Concrete.v keeps the laws. *)

From Stdlib Require Import ZArith NArith Ascii String Lia.
From Stdlib Require Import Sorting.Sorted.
From stdpp Require Import base option list strings gmap sorting.
From S2P Require Import Prelude Value Attr Schema Layout LLVM Machine Runtime Concrete.

(** The order of records. *)
Definition before (a b : record) : Prop := key_lt a.1 b.1 = true.

(** A record in the range of a cursor. *)
Definition within (from to : cstr) (r : record) : Prop := in_range from to r.1 = true.
#[export] Instance within_dec from to r : Decision (within from to r).
Proof. unfold within. apply _. Defined.
#[global] Typeclasses Opaque within.

Class FoedusLaws (E C : Type) `{FoedusAPI E C} := {
  (** The records that are committed. *)
  committed : E → records;
  (** Whether the thread runs a transaction, and what that has written. *)
  running : E → option records;
  (** The records a cursor has yet to come to. *)
  at_records : E → C → list record → Prop;
  begin_law e e' : running e = None → foedus_begin e = (e', true) →
    committed e' = committed e ∧ running e' = Some ∅;
  insert_law e ws k v e' : running e = Some ws → Runtime.insert_record e k v = (e', true) →
    committed e' = committed e ∧ running e' = Some (<[k := v]> ws);
  precommit_law e ws e' : running e = Some ws → foedus_precommit e = (e', true) →
    committed e' = ws ∪ committed e ∧ running e' = None;
  open_law e from to e' c : running e = Some ∅ → cursor_open e from to = (e', c, true) →
    committed e' = committed e ∧ running e' = Some ∅ ∧
    ∃ l, at_records e' c l ∧ l ≡ₚ filter (within from to) (map_to_list (committed e)) ∧ StronglySorted before l;
  valid_law e c l : at_records e c l → is_valid_record e c = bool_decide (l ≠ []);
  copy_law e c r l : at_records e c (r :: l) → copy_combined_key e c = r.1 ∧ get_payload e c = r.2;
  next_law e c r l e' c' : at_records e c (r :: l) → cursor_next e c = (e', c', true) →
    committed e' = committed e ∧ running e' = running e ∧ at_records e' c' l;
}.

(** ** Calls that succeed *)

Section calls.
Context {E C : Type} `{FA : FoedusAPI E C}.

Definition succeeded (r : E * bool) : option E := if r.2 then Some r.1 else None.

Fixpoint inserted (rs : list record) (e : E) : option E :=
  match rs with
  | [] => Some e
  | r :: rs => e ← succeeded (Runtime.insert_record e r.1 r.2); inserted rs e
  end.

(** A transaction that inserts records. *)
Definition filled (rs : list record) (e : E) : option E :=
  e ← succeeded (foedus_begin e);
  e ← inserted rs e;
  succeeded (foedus_precommit e).

(** [n] steps of a cursor. *)
Fixpoint passed (n : nat) (e : E) (c : C) : option E :=
  match n with
  | O => Some e
  | S n => let '(e, c, ok) := cursor_next e c in if ok then passed n e c else None
  end.

(** A transaction that goes through [n] records of a range. *)
Definition scanned (from to : cstr) (n : nat) (e : E) : option E :=
  e ← succeeded (foedus_begin e);
  let '(e, c, ok) := cursor_open e from to in
  e ← (if ok : bool then passed n e c else None);
  succeeded (foedus_precommit e).

Lemma succeeded_Some r e : succeeded r = Some e → r = (e, true).
Proof. destruct r as [e' []]; [|done]. by intros [= <-]. Qed.
End calls.

(** ** The order of keys *)

Lemma key_lt_irrefl k : key_lt k k = false.
Proof. induction k as [|x k IH]; [done|]. simpl. by rewrite Z.ltb_irrefl, Z.eqb_refl, IH. Qed.

Lemma key_lt_trans a b c : key_lt a b = true → key_lt b c = true → key_lt a c = true.
Proof.
  revert b c. induction a as [|x a IH]; intros [|y b] [|z c] H1 H2; try done. simpl in *.
  destruct (Z.ltb_spec (Z_of_byte x) (Z_of_byte y)), (Z.ltb_spec (Z_of_byte y) (Z_of_byte z)); simpl in *;
    destruct (Z.ltb_spec (Z_of_byte x) (Z_of_byte z)); simpl; try done; try lia;
    repeat match goal with
    | H : (_ =? _)%Z && _ = true |- _ => apply andb_prop in H as [?%Z.eqb_eq ?]
    end; try lia.
  rewrite (proj2 (Z.eqb_eq _ _)) by lia. by eapply IH.
Qed.

Lemma key_lt_total a b : a ≠ b → key_lt a b = false → key_lt b a = true.
Proof.
  revert b. induction a as [|x a IH]; intros [|y b] Hne Hf; try done. simpl in *.
  apply orb_false_elim in Hf as [H1 H2]. apply Z.ltb_ge in H1.
  destruct (Z.ltb_spec (Z_of_byte y) (Z_of_byte x)); [done|]. simpl.
  assert (Hxy : Z_of_byte y = Z_of_byte x) by lia. rewrite Hxy, Z.eqb_refl in *. simpl in *.
  apply IH; [|done]. intros ->. apply Hne. f_equal. by apply Z_of_byte_inj.
Qed.

#[export] Instance before_trans : Transitive before.
Proof. intros [? ?] [? ?] [? ?]. apply key_lt_trans. Qed.

(** ** The engine of Concrete.v *)

#[export] Instance key_le_total : Total key_le.
Proof.
  intros [a x] [b y]. unfold key_le. simpl. destruct (key_lt b a) eqn:H; [right|by left].
  destruct (key_lt a b) eqn:H'; [|done]. by rewrite <- (key_lt_irrefl a), (key_lt_trans _ _ _ H' H).
Qed.

#[export] Instance key_le_trans : Transitive key_le.
Proof.
  intros [a x] [b y] [c z]. unfold key_le. simpl. intros H1 H2. destruct (key_lt c a) eqn:H; [|done].
  destruct (decide (b = c)) as [->|Hne]; [congruence|].
  pose proof (key_lt_total c b ltac:(done) H2) as H3. rewrite <- H1. by rewrite (key_lt_trans _ _ _ H3 H).
Qed.

(** Records with different keys are in strict order. *)
Lemma sorted_strictly (l : list record) : NoDup l.*1 → StronglySorted key_le l → StronglySorted before l.
Proof.
  intros Hn Hs. induction Hs as [|r l _ IH Hr]; [constructor|]. rewrite fmap_cons in Hn.
  apply NoDup_cons in Hn as [Hni Hn]. constructor; [by apply IH|]. rewrite !list.Forall_forall in *.
  intros r' Hin. apply key_lt_total; [|by apply Hr]. intros Heq. apply Hni. rewrite <- Heq. by apply list_elem_of_fmap_2.
Qed.

Lemma NoDup_fst_filter (P : record → Prop) `{∀ r, Decision (P r)} l : NoDup l.*1 → NoDup (filter P l).*1.
Proof.
  induction l as [|r l IH]; [done|]. rewrite fmap_cons. intros [Hni Hn]%NoDup_cons. rewrite filter_cons.
  case_decide; [|by apply IH]. rewrite fmap_cons. constructor; [|by apply IH]. intros (r' & Heq & Hin)%list_elem_of_fmap.
  apply list_elem_of_filter in Hin as [_ Hin]. apply Hni. rewrite Heq. by apply list_elem_of_fmap_2.
Qed.

Lemma range_keys from to m : NoDup (filter (λ r : record, in_range from to r.1 = true) (map_to_list m)).*1.
Proof. apply NoDup_fst_filter, NoDup_fst_map_to_list. Qed.

#[export] Program Instance list_laws : FoedusLaws store list_cursor := {
  committed := committed_;
  running := running_;
  at_records _ c l := c = l;
}.
Next Obligation. intros s s'. simpl. intros ->. by intros [= <-]. Qed.
Next Obligation. intros s ws k v s'. simpl. intros ->. by case_match; intros [= <-]. Qed.
Next Obligation. intros s ws s'. simpl. intros ->. by intros [= <-]. Qed.
Next Obligation.
  intros s from to s' c. simpl. intros Hr. rewrite Hr. intros [= <- <-]. split_and!; [done..|].
  exists (range_of from to (committed_ s)). pose proof (merge_sort_Permutation key_le) as Hp.
  split_and!; [done|apply Hp|]. apply sorted_strictly; [|apply StronglySorted_merge_sort; apply _].
  unfold range_of. rewrite Hp. apply range_keys.
Qed.
Next Obligation. intros s c l ->. by destruct l. Qed.
Next Obligation. by intros s c r l ->. Qed.
Next Obligation. intros s c r l s' c' ->. by intros [= <- <-]. Qed.
