(* ===== verification/Semantics.v ===== *)
(** * Semantics: what a program means

    The reference against which compiled code is judged: a direct interpreter of the syntax tree.
    Variables hold integers of 64 bits, truth values, strings and rows; they live until the end of
    the program, whatever block declares them.  Operands are evaluated from left to right, [&&] and
    [||] stop at the operand that decides.  What the language does not define (an uninitialised
    variable, a division by zero, an operand of the wrong kind) is [UB].  The functions of the
    language and those over FOEDUS are those of Runtime.v, applied to values.  An [insert] hands the
    engine the key and the value that the library's codec writes for the row; a [scan] runs its
    block for every record of its range that the cursor comes to, with the row that the record's key
    and value hold.  Tables of other columns than 64-bit integers that cannot be null, and records
    that do not fit the buffers of compiled code, have no meaning. *)

From Stdlib Require Import ZArith NArith Ascii String Lia.
From stdpp Require Import base option list strings gmap.
From S2P Require Import Prelude Value Attr Schema Ast Visit LLVM Layout Machine Runtime.

Inductive value :=
  | VUnit
  | VInt (z : Z)
  | VBool (b : bool)
  | VStr (s : list ascii)
  | VRow (vs : list value).

Section semantics.
Context {E C G : Type} `{FoedusAPI E C} `{Random G}.

Record env := mk_env { vars : gmap cstr value; env_world : World E C G }.

Definition set_var (σ : env) (x : cstr) (v : value) : env := mk_env (<[x := v]> (vars σ)) (env_world σ).
Definition set_world (σ : env) (w : World E C G) : env := mk_env (vars σ) w.

(** ** Operators *)

Definition arith (op : Op.operators) (a b : Z) : result value :=
  match op with
  | Op.PLUS => Ok (VInt (signed64 (a + b)))
  | Op.MINUS => Ok (VInt (signed64 (a - b)))
  | Op.MULTIPLE => Ok (VInt (signed64 (a * b)))
  | Op.DIVISION =>
      if decide (b ≠ 0 ∧ is_i64 (Z.quot a b))%Z then Ok (VInt (Z.quot a b)) else UB
  | Op.MODULO =>
      if decide (b ≠ 0 ∧ is_i64 (Z.quot a b))%Z then Ok (VInt (Z.rem a b)) else UB
  | Op.EQUAL => Ok (VBool (a =? b)%Z)
  | Op.NOTEQUAL => Ok (VBool (negb (a =? b)%Z))
  | Op.LESSTHAN => Ok (VBool (a <? b)%Z)
  | Op.LESSEQUAL => Ok (VBool (a <=? b)%Z)
  | Op.MORETHAN => Ok (VBool (b <? a)%Z)
  | Op.MOREEQUAL => Ok (VBool (b <=? a)%Z)
  | Op.CONDITIONAL_AND | Op.CONDITIONAL_OR | Op.NONE => UB
  end.

(** A condition: a truth value, or an integer other than zero. *)
Definition truth (v : value) : result bool :=
  match v with
  | VBool b => Ok b
  | VInt z => Ok (negb (z =? 0)%Z)
  | _ => UB
  end.

(** ** The functions of the language *)

Definition call_builtin (name : cstr) (args : list value) (σ : env) : result (value * env) :=
  if decide (name = lit "print_int") then
    match args with
    | [VInt z] => Ok (VUnit, set_world σ (print_int z (env_world σ)))
    | _ => UB
    end
  else if decide (name = lit "print_string") then
    match args with
    | [VStr s] => Ok (VUnit, set_world σ (print_string s (env_world σ)))
    | _ => UB
    end
  else if decide (name = lit "rand") then
    match args with
    | [VInt a; VInt b] => '(z, w) ← rand_int a b (env_world σ); Ok (VInt z, set_world σ w)
    | _ => UB
    end
  else UB.

(** ** Expressions *)

(** The column a member reference selects, as analysis resolved it. *)
Context (member : nid → option (TypeId.type_id * nat)).

(** No string is longer than the address space. *)
Definition literal (v : MaybeValue) : result value :=
  if exists_ v then
    if is_int (mvalue v) then z ← as_int (mvalue v); Ok (VInt (signed64 z))
    else if is_varchar (mvalue v) then s ← as_varchar (mvalue v);
      if decide (Z.of_nat (length s) < two_64)%Z then Ok (VStr s) else UB
    else UB
  else UB.

Definition read_var (σ : env) (x : cstr) : result value := of_option (vars σ !! x).

Definition read_member (σ : env) (n : nid) (x : cstr) : result value :=
  v ← read_var σ x;
  m ← of_option (member n);
  match v with VRow vs => of_option (vs !! m.2) | _ => UB end.

Definition write_member (σ : env) (n : nid) (x : cstr) (new : value) : result env :=
  v ← read_var σ x;
  m ← of_option (member n);
  match v with
  | VRow vs => if decide (m.2 < length vs) then Ok (set_var σ x (VRow (<[m.2 := new]> vs))) else UB
  | _ => UB
  end.

Section values.
Context (eval_expr : Expression → nat → env → result (value * env)).
Fixpoint eval_list (i : nat) (es : list Expression) (σ : env) : result (list value * env) :=
  match es with
  | [] => Ok ([], σ)
  | e :: es =>
      '(v, σ) ← eval_expr e i σ;
      '(vs, σ) ← eval_list (S i) es σ;
      Ok (v :: vs, σ)
  end.

(** [&&] and [||]: the left operand decides whether the right one is evaluated. *)
Definition eval_cond (l r : Expression) (forAND : bool) (σ : env) : result (value * env) :=
  '(v, σ) ← eval_expr l 0 σ;
  b ← truth v;
  if Bool.eqb b forAND then
    '(v, σ) ← eval_expr r 1 σ;
    b ← truth v;
    Ok (VBool b, σ)
  else Ok (VBool b, σ).

Definition eval_binary (l : Expression) (op : Op.operators) (r : Expression) (σ : env)
    : result (value * env) :=
  match op with
  | Op.CONDITIONAL_AND => eval_cond l r true σ
  | Op.CONDITIONAL_OR => eval_cond l r false σ
  | _ =>
      '(a, σ) ← eval_expr l 0 σ;
      '(b, σ) ← eval_expr r 1 σ;
      match a, b with
      | VInt a, VInt b => v ← arith op a b; Ok (v, σ)
      | _, _ => UB
      end
  end.
End values.

(** Pointers and arrays are outside this semantics. *)
Fixpoint eval_expr (sp : list pstep) (p : list nat) (e : Expression) (σ : env) : result (value * env) :=
  let child e i := eval_expr sp (p ++ [i]) e in
  match e with
  | PrimaryExpression v => x ← literal v; Ok (x, σ)
  | BinaryExpression l op r => eval_binary child l op r σ
  | RowLiteral es => '(vs, σ) ← eval_list child 0 es σ; Ok (VRow vs, σ)
  | VariableReference x => v ← read_var σ x; Ok (v, σ)
  | FunctionCall (VariableReference f) args =>
      '(vs, σ) ← eval_list child 0 args σ;
      call_builtin f vs σ
  | MemberReference (VariableReference x) _ => v ← read_member σ (sp, p) x; Ok (v, σ)
  | Assign (VariableReference x) v =>
      '(v, σ) ← child v 1 σ;
      Ok (v, set_var σ x v)
  | Assign (MemberReference (VariableReference x) _) v =>
      _ ← read_member σ (sp, p ++ [0]) x;
      '(v, σ) ← child v 1 σ;
      σ ← write_member σ (sp, p ++ [0]) x v;
      Ok (v, σ)
  | _ => UB
  end.

(** ** Statements *)

(** [emit] appends the 64-bit words of a row of integers to the program's output. *)
Definition int_of (v : value) : option Z := match v with VInt z => Some z | _ => None end.
Definition emit_row (v : value) (σ : env) : result env :=
  match v with
  | VRow vs =>
      zs ← of_option (mapM int_of vs);
      Ok (set_world σ (emit (MByte <$> concat (bytes_of_i64 <$> zs)) (env_world σ)))
  | _ => UB
  end.

(** *** Tables *)

#[export] Instance plain_column_dec a : Decision (plain_column a).
Proof. unfold plain_column, int_column. apply _. Defined.

(** The schemas of the program's tables. *)
Context (tables : gmap cstr Schema).

(** Records are short enough for the 16-bit lengths FOEDUS keeps them with. *)
Definition short_records (s : Schema) : Prop :=
  (Z.of_nat (length (get_key_prefix s) + 8 * columns s + 1) < 2 ^ 16)%Z.

Definition table_of (t : cstr) : result Schema :=
  s ← of_option (tables !! t);
  if decide (Forall plain_column (attrs_ s) ∧ short_records s) then Ok s else UB.

Definition insert_row (t : cstr) (v : value) (σ : env) : result env :=
  s ← table_of t;
  match v with
  | VRow vs =>
      zs ← of_option (mapM int_of vs);
      if decide (length zs = columns s) then
        Ok (set_world σ (foedus_insert (key_bytes s (cells_of zs)) (val_bytes s (cells_of zs)) (env_world σ)).2)
      else UB
  | _ => UB
  end.

(** The row of a record that fits the buffers. *)
Definition read_record (s : Schema) (k v : cstr) : result (list Z) :=
  kn ← get_fixed_key_length s;
  vn ← get_fixed_value_length s;
  if decide (length k ≤ kn ∧ length v ≤ vn)
  then read_columns s k v 0 (columns s) (length (get_key_prefix s)) 0 else UB.

(** The loop of a [scan] over the cursor [n]. *)
Section scan.
Context (s : Schema) (x : cstr) (n : nat) (body : env → result env).
Fixpoint exec_scan (fuel : nat) (σ : env) : result env :=
  match fuel with
  | O => OutOfFuel
  | S fuel =>
      valid ← foedus_cursor_is_valid n (env_world σ);
      if (valid : bool) then
        k ← foedus_cursor_copy_key n (env_world σ);
        v ← foedus_cursor_copy_value n (env_world σ);
        zs ← read_record s k v;
        σ ← body (set_var σ x (VRow (VInt <$> zs)));
        '(_, w) ← foedus_cursor_next n (env_world σ);
        exec_scan fuel (set_world σ w)
      else
        w ← foedus_cursor_destroy n (env_world σ); Ok (set_world σ w)
  end.
End scan.

Section block.
Context (exec : Statement → list pstep → env → result env) (mk : nat → pstep) (sp : list pstep).
Fixpoint exec_statements (i : nat) (l : list Statement) (σ : env) : result env :=
  match l with
  | [] => Ok σ
  | s :: l => σ ← exec s (sp ++ [mk i]) σ; exec_statements (S i) l σ
  end.
End block.

(** The loop of a [for]; the condition is a truth value. *)
Section loop.
Context (cond : env → result (value * env)) (every : env → result (value * env)) (body : env → result env).
Fixpoint exec_loop (fuel : nat) (σ : env) : result env :=
  match fuel with
  | O => OutOfFuel
  | S fuel =>
      '(v, σ) ← cond σ;
      match v with
      | VBool true => σ ← body σ; '(_, σ) ← every σ; exec_loop fuel σ
      | VBool false => Ok σ
      | _ => UB
      end
  end.
End loop.

(** [break] and [continue] are outside this semantics. *)
Fixpoint exec_stmt (fuel : nat) (s : Statement) (sp : list pstep) (σ : env) {struct s} : result env :=
  let block := exec_statements (exec_stmt fuel) In_body sp 0 in
  match s with
  | Block l => block l σ
  | Transaction _ l =>
      σ ← block l (set_world σ (begin_xct (env_world σ)).2);
      Ok (set_world σ (precommit_xct (env_world σ)))
  | Define _ _ | DefineTuple _ _ => Ok σ
  | For (Some i) (Some c) (Some e) l =>
      σ ← exec_stmt fuel i (sp ++ [In_init]) σ;
      exec_loop (eval_expr sp [0] c) (eval_expr sp [1] e) (block l) fuel σ
  | Emit e => '(v, σ) ← eval_expr sp [0] e σ; emit_row v σ
  | Insert t e => '(v, σ) ← eval_expr sp [0] e σ; insert_row t v σ
  | Scan t x l =>
      s ← table_of t;
      e ← prefix_end (get_key_prefix s);
      let '(n, w) := foedus_generate_cursor (get_key_prefix s) e (env_world σ) in
      exec_scan s x n (block l) fuel (set_world σ w)
  | Let x e _ => '(v, σ) ← eval_expr sp [0] e σ; Ok (set_var σ x v)
  | If c t f =>
      '(v, σ) ← eval_expr sp [0] c σ;
      b ← truth v;
      if (b : bool) then block t σ
      else match f with Some f => exec_statements (exec_stmt fuel) In_else sp 0 f σ | None => Ok σ end
  | ExprStatement e => '(_, σ) ← eval_expr sp [0] e σ; Ok σ
  | _ => UB
  end.
End semantics.

Arguments env E C G : clear implicits.
