(* ===== verification/Shape.v ===== *)
(** * Shape: the control flow that code generation builds

    Code generation appends to basic blocks.  This file shows what it leaves alone: a part of a
    program only appends to the block it starts in and to blocks it creates itself, and it leaves
    every block it finishes with exactly one terminator, at the end.  Code generation is a monad,
    so the properties are proved for the builder's calls and carried through sequences of them. *)

From Stdlib Require Import ZArith NArith Ascii String Lia.
From stdpp Require Import base option list strings gmap sets.
From S2P Require Import Prelude Value Attr Schema Ast Visit LLVM CodegenExpr CodegenStmt Compile.

(** ** Blocks *)

(** Code without a terminator, and code that ends in its only one. *)
Definition plain (c : code) : bool := forallb (λ x, negb (is_terminator x.2)) c.
Definition closed (c : code) : bool :=
  match last c with
  | Some x => is_terminator x.2 && plain (removelast c)
  | None => false
  end.

Abbreviation block_set := (gset nat).

(** The blocks of [D] are still open, all others are closed. *)
Definition shape (s : cstate) (D : block_set) : Prop :=
  (∀ b, b ∈ D → b < length (blocks s)) ∧
  (∀ b n c, blocks s !! b = Some (n, c) → b ∈ D → plain c = true) ∧
  (∀ b n c, blocks s !! b = Some (n, c) → b ∉ D → closed c = true).

(** The blocks a terminator goes to, and that they all exist. *)
Definition targets (i : instr) : list nat :=
  match i with IBr b => [b] | ICondBr _ t f => [t; f] | _ => [] end.
Definition targets_exist (s : cstate) : Prop :=
  ∀ b n c x, blocks s !! b = Some (n, c) → x ∈ c → ∀ t, t ∈ targets x.2 → t < length (blocks s).

(** From [s] to [s'] only blocks of [own] and new blocks change, by growing. *)
Record frame (own : nat → Prop) (s s' : cstate) : Prop := {
  f_keep b : b < length (blocks s) → ¬ own b → blocks s' !! b = blocks s !! b;
  f_grow b n c : blocks s !! b = Some (n, c) → ∃ c', blocks s' !! b = Some (n, c ++ c');
  f_next : next_id s ≤ next_id s';
  f_structs : struct_types s `prefix_of` struct_types s';
  f_targets : targets_exist s → targets_exist s';
}.

Lemma frame_refl own s : frame own s s.
Proof. split; eauto using app_nil_r. intros b n c H. exists []. by rewrite app_nil_r. Qed.

Lemma frame_length own s s' : frame own s s' → length (blocks s) ≤ length (blocks s').
Proof.
  intros F. destruct (length (blocks s)) as [|n] eqn:E; [lia|].
  destruct (lookup_lt_is_Some_2 (blocks s) n) as [[m c] Hb]; [lia|].
  destruct (f_grow _ _ _ F _ _ _ Hb) as [c' H]. apply lookup_lt_Some in H. lia.
Qed.

Lemma frame_trans o1 o2 (own : nat → Prop) s s' s'' :
  frame o1 s s' → frame o2 s' s'' →
  (∀ b, b < length (blocks s) → o1 b ∨ o2 b → own b) → frame own s s''.
Proof.
  intros F1 F2 Ho. pose proof (frame_length _ _ _ F1). split.
  - intros b Hb Hn. rewrite (f_keep _ _ _ F2), (f_keep _ _ _ F1); naive_solver lia.
  - intros b n c Hb. destruct (f_grow _ _ _ F1 _ _ _ Hb) as [c1 H1].
    destruct (f_grow _ _ _ F2 _ _ _ H1) as [c2 H2]. exists (c1 ++ c2). by rewrite app_assoc.
  - etransitivity; [apply (f_next _ _ _ F1)|apply (f_next _ _ _ F2)].
  - etransitivity; [apply (f_structs _ _ _ F1)|apply (f_structs _ _ _ F2)].
  - intros HT. apply (f_targets _ _ _ F2), (f_targets _ _ _ F1), HT.
Qed.

Lemma targets_same s s' : blocks s' = blocks s → targets_exist s → targets_exist s'.
Proof. unfold targets_exist. by intros ->. Qed.

Lemma frame_weaken (o1 o2 : nat → Prop) s s' :
  frame o1 s s' → (∀ b, b < length (blocks s) → o1 b → o2 b) → frame o2 s s'.
Proof. intros F H. eapply frame_trans; [exact F|apply (frame_refl o1)|naive_solver]. Qed.

(** ** What a piece of code generation does

    It starts in a block [cur] and ends in [cur'], the same block or a new one; if [cur] was open
    when it started then, apart from [cur], exactly the blocks that were open still are, and
    [cur'] is open. *)
Definition emits (s s' : cstate) : Prop :=
  ∃ cur cur', insert_block s = Some cur ∧ insert_block s' = Some cur' ∧
    cur < length (blocks s) ∧ cur' < length (blocks s') ∧
    (cur' = cur ∨ length (blocks s) ≤ cur') ∧
    frame (eq cur) s s' ∧ loop_ s' = loop_ s ∧
    ∀ D, shape s D → cur ∈ D → shape s' ({[cur']} ∪ (D ∖ {[cur]})).

Definition valid_cur (s : cstate) : Prop :=
  ∃ cur, insert_block s = Some cur ∧ cur < length (blocks s).

Definition emitter {A : Type} (m : cg A) : Prop :=
  ∀ s a s', valid_cur s → m s = Ok (a, s') → emits s s'.

Lemma shape_ext s D D' : shape s D → (∀ b, b ∈ D' ↔ b ∈ D) → shape s D'.
Proof.
  intros (H1 & H2 & H3) E. split_and!; intros b; [|intros n c..]; rewrite E; eauto.
Qed.

Lemma emits_refl s : valid_cur s → emits s s.
Proof.
  intros (cur & Hi & Hl). exists cur, cur. split_and!; auto using frame_refl.
  intros D H HD. eapply shape_ext; [exact H|]. intros b. destruct (decide (b = cur)); set_solver.
Qed.

Lemma emits_valid s s' : emits s s' → valid_cur s'.
Proof. intros (cur & cur' & ? & ? & ? & ? & _). by exists cur'. Qed.

Lemma emits_trans s s' s'' : emits s s' → emits s' s'' → emits s s''.
Proof.
  intros (c0 & c1 & H0 & H1 & L0 & L1 & M1 & F1 & P1 & S1).
  intros (c1' & c2 & H1' & H2 & _ & L2 & M2 & F2 & P2 & S2).
  rewrite H1 in H1'. injection H1' as <-.
  pose proof (frame_length _ _ _ F1). exists c0, c2. split_and!; auto; try congruence; try lia.
  { eapply frame_trans; [exact F1|exact F2|]. naive_solver lia. }
  intros D HD Hc. destruct HD as (Hlt & HD). specialize (S1 D (conj Hlt HD) Hc).
  apply S2 in S1; [|set_solver]. eapply shape_ext; [exact S1|]. intros b.
  specialize (Hlt b). rewrite !elem_of_union, !elem_of_difference, !elem_of_union, !elem_of_difference.
  rewrite !elem_of_singleton.
  split; [intros [->|[Hb Hn]]; [tauto|right; split; [tauto|lia]]|intros [->|[[->|[Hb Hn]] Hn']]; tauto].
Qed.

(** ** Sequences of calls *)

Lemma emitter_ret {A : Type} (a : A) : emitter (mret a).
Proof. intros s b s' V [= <- <-]. by apply emits_refl. Qed.

Lemma emitter_bind {A B : Type} (m : cg A) (k : A → cg B) :
  emitter m → (∀ a, emitter (k a)) → emitter (m ≫= k).
Proof.
  intros Hm Hk s b s' V E. apply cg_bind_Ok in E as (a & s1 & E1 & E2).
  pose proof (Hm _ _ _ V E1). eapply emits_trans; [done|]. eapply Hk; [by eapply emits_valid|done].
Qed.

Lemma emitter_gets {A : Type} (f : cstate → A) : emitter (gets f).
Proof. intros s b s' V [= <- <-]. by apply emits_refl. Qed.

Lemma emitter_lift {A : Type} (r : result A) : emitter (cg_lift r).
Proof. intros s b s' V E. unfold cg_lift in E. destruct r; simplify_eq/=. by apply emits_refl. Qed.

Lemma emitter_none {A : Type} (m : cg A) : (∀ s, is_ok (m s) = false) → emitter m.
Proof. intros H s a s' _ E. specialize (H s). by rewrite E in H. Qed.

Lemma emitter_not_null {A : Type} (o : option A) : emitter (not_null o).
Proof. destruct o; [apply emitter_ret|by apply emitter_none]. Qed.

Lemma emitter_assert b : emitter (llvm_assert b).
Proof. destruct b; [apply emitter_ret|by apply emitter_none]. Qed.

(** A change of the tables only. *)
Lemma emitter_modify f :
  (∀ s, blocks (f s) = blocks s ∧ insert_block (f s) = insert_block s ∧ next_id (f s) = next_id s ∧
        struct_types s `prefix_of` struct_types (f s) ∧ loop_ (f s) = loop_ s) →
  emitter (modify f).
Proof.
  intros Hf s a s' (cur & Hi & Hl) [= _ <-]. destruct (Hf s) as (Hb & Hi' & Hn & Hs & Hp).
  exists cur, cur. rewrite Hb, Hi', Hp. split_and!; auto.
  - split; rewrite ?Hb, ?Hn; eauto; [|by apply targets_same]. intros b n c H. exists [].
    by rewrite app_nil_r.
  - intros D H Hc. unfold shape in *. rewrite Hb. eapply shape_ext; [exact H|].
    intros b. destruct (decide (b = cur)); set_solver.
Qed.

(** ** The builder *)

Lemma alter_insert {A : Type} (f : A → A) (l : list A) i x :
  l !! i = Some x → alter f i l = <[i := f x]> l.
Proof.
  revert i. induction l as [|y l IH]; intros [|i] H; simpl in *; simplify_eq; [done|].
  f_equal. by apply IH.
Qed.

(** Appending one instruction to the block [cur]. *)
Lemma insert_instr_inv i s v s' cur :
  insert_block s = Some cur → cur < length (blocks s) → insert_instr i s = Ok (v, s') →
  ∃ n c, blocks s !! cur = Some (n, c) ∧ v = Reg (next_id s) (instr_type i) ∧
    blocks s' = <[cur := (n, c ++ [(next_id s, i)])]> (blocks s) ∧
    s' = set_next (set_blocks s (blocks s')) (S (next_id s)).
Proof.
  intros Hi Hl E. unfold insert_instr in E. rewrite Hi in E. injection E as <- <-.
  apply lookup_lt_is_Some_2 in Hl as [[n c] Hb]. exists n, c. split_and!; auto.
  simpl. by rewrite (alter_insert _ _ _ _ Hb).
Qed.

Lemma plain_app c d : plain (c ++ d) = plain c && plain d.
Proof. apply forallb_app. Qed.

Lemma closed_snoc c r i : is_terminator i = true → closed (c ++ [(r, i)]) = plain c.
Proof. intros H. unfold closed. by rewrite last_snoc, removelast_last; simpl; rewrite H. Qed.

Lemma insert_frame i s v s' cur :
  insert_block s = Some cur → cur < length (blocks s) → insert_instr i s = Ok (v, s') →
  Forall (λ t, t < length (blocks s)) (targets i) →
  frame (eq cur) s s' ∧ length (blocks s') = length (blocks s).
Proof.
  intros Hi Hl E Ht. destruct (insert_instr_inv _ _ _ _ _ Hi Hl E) as (n & c & Hb & -> & Hb' & ->).
  simpl in *. split; [|by rewrite Hb', length_insert]. split; simpl; [| |lia|done|].
  - intros b _ Hn. by rewrite Hb', list_lookup_insert_ne.
  - intros b m d H. rewrite Hb'. destruct (decide (b = cur)) as [->|Hn].
    + rewrite list_lookup_insert_eq by done. simplify_eq. eauto.
    + rewrite list_lookup_insert_ne by done. exists []. by rewrite app_nil_r.
  - intros HT b m d x. simpl. rewrite Hb', length_insert. destruct (decide (b = cur)) as [->|Hn].
    + rewrite list_lookup_insert_eq by done. intros [= <- <-].
      rewrite elem_of_app, list_elem_of_singleton. intros [Hx| ->]; [by eapply HT|].
      rewrite Forall_forall in Ht. apply Ht.
    + rewrite list_lookup_insert_ne by done. apply HT.
Qed.

Lemma no_targets i : is_terminator i = false → targets i = [].
Proof. by destruct i. Qed.

Lemma insert_shape i s v s' cur D :
  insert_block s = Some cur → cur < length (blocks s) → insert_instr i s = Ok (v, s') →
  shape s D → cur ∈ D → shape s' (if is_terminator i then D ∖ {[cur]} else D).
Proof.
  intros Hi Hl E (HD & Hp & Hc) Hin.
  destruct (insert_instr_inv _ _ _ _ _ Hi Hl E) as (n & c & Hb & -> & Hb' & ->).
  unfold shape. simpl. rewrite Hb', length_insert. split_and!.
  - destruct (is_terminator i); set_solver.
  - intros b m d. destruct (decide (b = cur)) as [->|Hn].
    + rewrite list_lookup_insert_eq by done. intros [= <- <-] HD'.
      destruct (is_terminator i) eqn:Et; [set_solver|]. rewrite plain_app, (Hp _ _ _ Hb Hin). simpl.
      by rewrite Et.
    + rewrite list_lookup_insert_ne by done. intros Hb2 HD'. eapply Hp; [done|].
      destruct (is_terminator i); set_solver.
  - intros b m d. destruct (decide (b = cur)) as [->|Hn].
    + rewrite list_lookup_insert_eq by done. intros [= <- <-] HD'.
      destruct (is_terminator i) eqn:Et; [|by destruct HD']. rewrite closed_snoc by done. eauto.
    + rewrite list_lookup_insert_ne by done. intros Hb2 HD'. eapply Hc; [done|].
      destruct (is_terminator i); set_solver.
Qed.

Lemma insert_kept i s v s' :
  insert_instr i s = Ok (v, s') → insert_block s' = insert_block s ∧ loop_ s' = loop_ s.
Proof. unfold insert_instr. destruct (insert_block s) eqn:H; [|done]. intros E. by injection E as <- <-. Qed.

Lemma emitter_insert i : is_terminator i = false → emitter (insert_instr i).
Proof.
  intros Hi s v s' (cur & Hc & Hl) E.
  destruct (insert_frame _ _ _ _ _ Hc Hl E) as [F L]; [by rewrite no_targets|].
  destruct (insert_kept _ _ _ _ E) as [Hi' Hp]. exists cur, cur. rewrite Hi', L. split_and!; auto.
  intros D HD Hin. pose proof (insert_shape _ _ _ _ _ D Hc Hl E HD Hin) as Hs. rewrite Hi in Hs.
  eapply shape_ext; [exact Hs|]. intros b. destruct (decide (b = cur)); set_solver.
Qed.

(** A terminator closes the block. *)
Lemma insert_terminator i s v s' cur :
  is_terminator i = true → insert_block s = Some cur → cur < length (blocks s) →
  insert_instr i s = Ok (v, s') → Forall (λ t, t < length (blocks s)) (targets i) →
  frame (eq cur) s s' ∧ length (blocks s') = length (blocks s) ∧ insert_block s' = Some cur ∧
  loop_ s' = loop_ s ∧ ∀ D, shape s D → cur ∈ D → shape s' (D ∖ {[cur]}).
Proof.
  intros Ht Hc Hl E Hts. destruct (insert_frame _ _ _ _ _ Hc Hl E Hts) as [F L].
  destruct (insert_kept _ _ _ _ E) as [Hi' Hp]. split_and!; auto; [congruence|].
  intros D HD Hin. pose proof (insert_shape _ _ _ _ _ D Hc Hl E HD Hin) as Hs. by rewrite Ht in Hs.
Qed.

(** A new block is empty and open. *)
Lemma create_block_inv name s b s' :
  create_block name s = Ok (b, s') →
  b = length (blocks s) ∧ blocks s' = blocks s ++ [(lit name, [])] ∧ insert_block s' = insert_block s ∧
  loop_ s' = loop_ s ∧ frame (λ _, False) s s' ∧ (∀ D, shape s D → shape s' ({[b]} ∪ D)).
Proof.
  unfold create_block. intros [= <- <-]. simpl. split_and!; auto.
  - split; simpl; [| |lia|done|].
    + intros b Hb _. by rewrite lookup_app_l.
    + intros b n c Hb. exists []. rewrite app_nil_r. by apply lookup_app_l_Some.
    + intros HT b n c x. simpl. rewrite length_app. simpl. rewrite lookup_app.
      destruct (blocks s !! b) eqn:E.
      * intros [= ->] Hx t Ht. pose proof (HT _ _ _ _ E Hx t Ht). lia.
      * destruct (b - length (blocks s)); simpl; [|done]. intros [= _ <-] Hx. by apply elem_of_nil in Hx.
  - intros D (HD & Hp & Hc). unfold shape. simpl. rewrite length_app. simpl. split_and!.
    + intros b. rewrite elem_of_union, elem_of_singleton. intros [->|H]; [lia|]. apply HD in H. lia.
    + intros b n c. rewrite lookup_app. destruct (blocks s !! b) eqn:E.
      * intros [= ->] HD'. apply (Hp _ _ _ E). apply lookup_lt_Some in E. set_solver by lia.
      * destruct (b - length (blocks s)); simpl; [|done]. by intros [= _ <-].
    + intros b n c. rewrite lookup_app. destruct (blocks s !! b) eqn:E.
      * intros [= ->] HD'. apply (Hc _ _ _ E). set_solver.
      * apply lookup_ge_None in E. destruct (b - length (blocks s)) eqn:E2; simpl; [|done].
        intros _ HD'. set_solver by lia.
Qed.

Lemma insert_point_inv b s u s' :
  SetInsertPoint b s = Ok (u, s') →
  blocks s' = blocks s ∧ insert_block s' = Some b ∧ loop_ s' = loop_ s ∧
  frame (λ _, False) s s' ∧ (∀ D, shape s D → shape s' D).
Proof.
  intros [= _ <-]. split_and!; auto.
  split; simpl; eauto. intros ? n c Hn. exists []. by rewrite app_nil_r.
Qed.

(** ** Calls that go through the builder *)

Create HintDb emitter.

(** Split a sequence of calls and try the known lemmas at each. *)
Ltac emitting :=
  repeat first
    [ solve [auto with emitter nocore]
    | match goal with
      | |- emitter (_ ≫= _) => apply emitter_bind; [|intros ?]
      | |- emitter (match ?x with _ => _ end) => destruct x
      | |- emitter (if ?x then _ else _) => destruct x
      | |- emitter (cg_throw _) => by apply emitter_none
      | |- emitter (cg_throw_text _) => by apply emitter_none
      | |- emitter cg_abort => by apply emitter_none
      | |- emitter cg_ub => by apply emitter_none
      end ].

#[export] Hint Resolve emitter_ret emitter_gets emitter_lift emitter_not_null emitter_assert : emitter.

Section builder.
Context `{LLVM}.

Lemma emitter_folded i : is_terminator i = false → emitter (insert_folded i).
Proof. intros Hi. unfold insert_folded. destruct (fold i); [apply emitter_ret|by apply emitter_insert]. Qed.

Lemma emitter_set_types f : (∀ s, struct_types s `prefix_of` (f s).1) →
  emitter (modify (λ s, set_types s (f s).1 (f s).2)).
Proof. intros Hf. apply emitter_modify. by intros s. Qed.

Lemma emitter_create_struct ts name : emitter (create_struct ts name).
Proof.
  intros s t s' V E. unfold create_struct in E. injection E as <- <-.
  eapply (emitter_modify (λ s, set_types s (struct_types s ++ [(name, ts)]) (type_table_ s))); [|done|done].
  intros s0. simpl. split_and!; auto. by exists [(name, ts)].
Qed.
End builder.
#[export] Hint Resolve emitter_folded emitter_insert emitter_create_struct : emitter.
#[export] Hint Extern 1 (is_terminator _ = false) => reflexivity : emitter.

Section calls.
Context `{LLVM}.

Lemma emitter_alloca t : emitter (CreateAlloca t).
Proof. unfold CreateAlloca. emitting. Qed.
Lemma emitter_load p : emitter (CreateLoad p).
Proof. unfold CreateLoad. emitting. Qed.
Lemma emitter_store v p : emitter (CreateStore v p).
Proof. unfold CreateStore. emitting. Qed.
Lemma emitter_bin op a b : emitter (CreateBin op a b).
Proof. unfold CreateBin. emitting. Qed.
Lemma emitter_icmp op a b : emitter (CreateICmp op a b).
Proof. unfold CreateICmp. emitting. Qed.
Lemma emitter_insert_value agg v i : emitter (CreateInsertValue agg v i).
Proof. unfold CreateInsertValue. emitting. Qed.
Lemma emitter_gep p idx : emitter (CreateInBoundsGEP p idx).
Proof. unfold CreateInBoundsGEP. emitting. Qed.
Lemma emitter_bitcast v t : emitter (CreateBitCast v t).
Proof. unfold CreateBitCast. emitting. Qed.
Lemma emitter_call f args : emitter (CreateCall f args).
Proof. unfold CreateCall. emitting. Qed.
Lemma emitter_phi t inc : emitter (CreatePHI t inc).
Proof. unfold CreatePHI. emitting. Qed.
End calls.
#[export] Hint Resolve emitter_alloca emitter_load emitter_store emitter_bin emitter_icmp
  emitter_insert_value emitter_gep emitter_bitcast emitter_call emitter_phi : emitter.

Section memcpy.
Context `{LLVM}.
Lemma emitter_memcpy d s n : emitter (CreateMemCpy d s n).
Proof. unfold CreateMemCpy. emitting. Qed.
End memcpy.
#[export] Hint Resolve emitter_memcpy : emitter.

(** Break a run of a sequence into the runs of its calls. *)
Ltac inv_cg :=
  repeat match goal with
  | H : (_ ≫= _) _ = Ok _ |- _ =>
      let a := fresh "a" in let s := fresh "s" in let H1 := fresh "E" in let H2 := fresh "E" in
      apply cg_bind_Ok in H as (a & s & H1 & H2); cbv beta in H2
  end.

Lemma condbr_inv c t f s u s' :
  CreateCondBr c t f s = Ok (u, s') →
  type_of c = i1 ∧ ∃ v, insert_instr (ICondBr c t f) s = Ok (v, s').
Proof.
  unfold CreateCondBr, llvm_assert. intros E. inv_cg. case_bool_decide; [|done].
  injection E0 as _ <-. injection E2 as _ <-. eauto.
Qed.

Lemma br_inv b s u s' : CreateBr b s = Ok (u, s') → ∃ v, insert_instr (IBr b) s = Ok (v, s').
Proof. unfold CreateBr. intros E. inv_cg. injection E1 as _ <-. eauto. Qed.

Lemma get_insert_block_inv s b s' : GetInsertBlock s = Ok (b, s') → s' = s ∧ insert_block s = Some b.
Proof.
  unfold GetInsertBlock. intros E. inv_cg. injection E0 as <- <-.
  unfold not_null in E1. destruct (insert_block s); [by injection E1 as <- <-|done].
Qed.

Lemma frame_join o1 o2 s s' s'' :
  frame o1 s s' → frame o2 s' s'' → frame (λ b, o1 b ∨ o2 b) s s''.
Proof. intros F1 F2. eapply frame_trans; [exact F1|exact F2|auto]. Qed.

(** Join all steps known of a run. *)
Ltac join_frames :=
  repeat match goal with
  | F1 : frame _ ?s ?s1, F2 : frame _ ?s1 ?s2 |- _ =>
      let F := fresh "F" in pose proof (frame_join _ _ _ _ _ F1 F2) as F; clear F1 F2
  end.

(** Membership in sets of blocks, by arithmetic on their numbers. *)
Lemma iff_true (P : Prop) : P → (P ↔ True).
Proof. tauto. Qed.
Lemma iff_false (P : Prop) : ¬ P → (P ↔ False).
Proof. tauto. Qed.

Ltac block_mem :=
  rewrite ?elem_of_union, ?elem_of_difference, ?elem_of_union, ?elem_of_difference,
    ?elem_of_union, ?elem_of_difference, ?elem_of_union, ?elem_of_difference, ?elem_of_singleton;
  repeat match goal with
  | |- context [?b ∈ ?D] =>
      let Hb := fresh in
      destruct (decide (b ∈ D)) as [Hb|Hb];
      [rewrite (iff_true _ Hb); match goal with H : ∀ b, b ∈ D → b < _ |- _ => pose proof (H b Hb) end
      |rewrite (iff_false _ Hb)]
  end;
  first [contradiction | lia].

(** ** Expressions *)

(** Leaving the block [cur] by a terminator for the open block [b]. *)
Lemma leave_block i s v s1 u s2 cur b :
  is_terminator i = true → insert_block s = Some cur → cur < length (blocks s) →
  insert_instr i s = Ok (v, s1) → SetInsertPoint b s1 = Ok (u, s2) →
  Forall (λ t, t < length (blocks s)) (targets i) →
  insert_block s2 = Some b ∧ length (blocks s2) = length (blocks s) ∧ loop_ s2 = loop_ s ∧
  frame (eq cur) s s2 ∧ ∀ D, shape s D → cur ∈ D → shape s2 (D ∖ {[cur]}).
Proof.
  intros Hi Hc Hl E1 E2 Ht. destruct (insert_terminator _ _ _ _ _ Hi Hc Hl E1 Ht) as (F & L & _ & P & S).
  destruct (insert_point_inv _ _ _ _ E2) as (Hb & Hi2 & P2 & F2 & S2). split_and!; auto.
  - by rewrite Hb.
  - congruence.
  - eapply frame_trans; [exact F|exact F2|]. naive_solver.
Qed.

(** The part of [emits] that does not ask the start to be open. *)
Lemma emits_inv s s' cur :
  emits s s' → insert_block s = Some cur →
  ∃ cur', insert_block s' = Some cur' ∧ cur < length (blocks s) ∧ cur' < length (blocks s') ∧
    (cur' = cur ∨ length (blocks s) ≤ cur') ∧ frame (eq cur) s s' ∧ loop_ s' = loop_ s ∧
    length (blocks s) ≤ length (blocks s') ∧
    ∀ D, shape s D → cur ∈ D → shape s' ({[cur']} ∪ (D ∖ {[cur]})).
Proof.
  intros (c & c' & Hc & Hc' & L & L' & M & F & P & S) E. rewrite Hc in E. injection E as ->.
  exists c'. split_and!; auto. by eapply frame_length.
Qed.

(** A piece of code generation from the block [cur], a terminator, and on in the block [b]. *)
Lemma emits_leave i s s1 v s2 u s3 cur b :
  emits s s1 → insert_block s = Some cur → is_terminator i = true →
  insert_instr i s1 = Ok (v, s2) → SetInsertPoint b s2 = Ok (u, s3) →
  Forall (λ t, t < length (blocks s)) (targets i) →
  insert_block s3 = Some b ∧ length (blocks s) ≤ length (blocks s3) ∧ loop_ s3 = loop_ s ∧
  frame (eq cur) s s3 ∧ ∀ D, shape s D → cur ∈ D → shape s3 (D ∖ {[cur]}).
Proof.
  intros J Hc Ti E1 E2 Ht. destruct (emits_inv _ _ _ J Hc) as (c1 & H1 & L & L1 & M & F & P & LL & S).
  destruct (leave_block _ _ _ _ _ _ _ _ Ti H1 L1 E1 E2) as (H3 & L3 & P3 & F3 & S3).
  { eapply Forall_impl; [exact Ht|]. cbn. lia. }
  split_and!; auto; [lia|congruence| |].
  - eapply frame_trans; [exact F|exact F3|]. intros x Hx [?|?]; [done|lia].
  - intros D HD Hin. pose proof (proj1 HD) as Hlt.
    pose proof (S D HD Hin) as HS. apply S3 in HS; [|set_solver].
    eapply shape_ext; [exact HS|]. intros x. block_mem.
Qed.

(** The end of a piece that created blocks: it goes on in the new block [b]. *)
Lemma emits_done s s' cur b D0 :
  insert_block s = Some cur → cur < length (blocks s) → insert_block s' = Some b →
  length (blocks s) ≤ b < length (blocks s') → frame (eq cur) s s' → loop_ s' = loop_ s →
  (∀ D, shape s D → cur ∈ D → shape s' (D0 D)) →
  (∀ D, (∀ x, x ∈ D → x < length (blocks s)) → cur ∈ D → ∀ x, x ∈ D0 D ↔ x = b ∨ (x ∈ D ∧ x ≠ cur)) →
  emits s s'.
Proof.
  intros Hc Lc Hb Lb F P S HD. exists cur, b. split_and!; auto; try lia.
  intros D HS Hin. eapply shape_ext; [by apply S|]. intros x. rewrite (HD D (proj1 HS) Hin x). set_solver.
Qed.

Ltac targets_here := repeat constructor; lia.

Section expressions.
Context `{LLVM} (member : nid → option (TypeId.type_id * nat)).

Lemma emitter_string_type : emitter string_type.
Proof. unfold string_type. emitting. Qed.
Hint Resolve emitter_string_type : emitter.

Lemma emitter_types get_type i es :
  Forall (λ e, ∀ i, emitter (get_type e i)) es → emitter (element_types get_type i es).
Proof.
  intros Hes. revert i. induction Hes as [|e es He _ IH]; intros i; simpl; emitting.
Qed.

Lemma emitter_signature get_type es :
  Forall (λ e, ∀ i, emitter (get_type e i)) es → emitter (get_type_signature get_type es).
Proof.
  intros Hes. unfold get_type_signature. apply emitter_bind; [|intros ?; emitting].
  generalize 0. induction Hes as [|e es He _ IH]; intros i; simpl; emitting.
Qed.

Lemma emitter_type_row get_type es :
  Forall (λ e, ∀ i, emitter (get_type e i)) es → emitter (get_type_row get_type es).
Proof.
  intros Hes. unfold get_type_row. apply emitter_bind; [by apply emitter_signature|intros sign].
  emitting; [by apply emitter_types|]. by apply emitter_modify.
Qed.

Lemma emitter_get_type e : ∀ sp p, emitter (get_type member sp p e).
Proof.
  induction e as [v|l op r IHl IHr|t IHt|es IHes|es IHes|n|f args _ _|q i IHq _|q n _|t v _ IHv]
    using Expression_rect'; intros sp p; cbn [get_type].
  - unfold get_type_primary. emitting.
  - unfold get_type_binary. emitting.
  - emitting.
  - apply emitter_type_row. eapply Forall_impl; [exact IHes|]. eauto.
  - unfold get_type_array. destruct IHes; emitting.
  - unfold get_type_variable. emitting.
  - unfold get_type_call, callee_name, find_function. emitting.
  - unfold get_type_array_ref. destruct q; [|by apply emitter_none]. specialize (IHq _ eq_refl). emitting.
  - unfold get_type_member, convert_type. emitting.
  - emitting.
Qed.
Hint Resolve emitter_get_type : emitter.

Lemma emitter_to_i1 v : emitter (to_i1 v).
Proof. unfold to_i1. emitting. Qed.
Hint Resolve emitter_to_i1 : emitter.

(** The branch of a short circuit is closed, and so is the block it left from. *)
Lemma emitter_conditional get_value l r forAND :
  (∀ i, emitter (get_value l i)) → (∀ i, emitter (get_value r i)) →
  emitter (get_conditional_value get_value l r forAND).
Proof.
  intros Hl Hr s v s' (cur & Hc & Lc) E. unfold get_conditional_value in E. inv_cg.
  rename a into next, a0 into fin.
  destruct (create_block_inv _ _ _ _ E0) as (Bn & Hb1 & Hi1 & P1 & F1 & S1).
  destruct (create_block_inv _ _ _ _ E) as (Bf & Hb2 & Hi2 & P2 & F2 & S2).
  assert (L1 : length (blocks s0) = S (length (blocks s))) by (rewrite Hb1, length_app; simpl; lia).
  assert (L2 : length (blocks s1) = S (S (length (blocks s)))) by (rewrite Hb2, length_app; simpl; lia).
  assert (Hi : insert_block s1 = Some cur) by congruence.
  assert (Hsub : ∀ e i (Hv : ∀ i, emitter (get_value e i)) t u x t' v,
    valid_cur t → get_value e i t = Ok (x, u) → to_i1 x u = Ok (v, t') → emits t t').
  { intros e i Hv t u x t' w V Ev E'. eapply (emitter_bind (get_value e i) to_i1);
      [apply Hv|apply emitter_to_i1|exact V|]. by rewrite (cg_bind_run _ _ _ _ _ Ev). }
  assert (J1 : emits s1 s3) by (eapply Hsub; [|exists cur; split; [done|lia]|exact E1|exact E2]; done).
  assert (∃ i v, is_terminator i = true ∧ insert_instr i s3 = Ok (v, s4) ∧
    Forall (λ t, t < length (blocks s1)) (targets i)) as (i & vi & Ti & Ei & Hts).
  { destruct forAND; apply condbr_inv in E3 as (_ & w & E3); eexists _, w;
      (split; [|split; [exact E3|]]); [done|targets_here|done|targets_here]. }
  apply get_insert_block_inv in E4 as [-> _].
  destruct (emits_leave _ _ _ _ _ _ _ _ _ J1 Hi Ti Ei E5 Hts) as (Hi6 & L6 & P6 & F6 & S6).
  assert (J2 : emits s6 s8) by (eapply Hsub; [|exists next; split; [done|lia]|exact E6|exact E7]; done).
  apply br_inv in E8 as (w & E8). apply get_insert_block_inv in E9 as [-> _].
  destruct (emits_leave (IBr fin) _ _ _ _ _ _ _ _ J2 Hi6 eq_refl E8 E10) as (Hi11 & L11 & P11 & F11 & S11);
    [targets_here|].
  eapply emits_trans; [|eapply emitter_phi; [|exact E12]; exists fin; split; [done|lia]].
  join_frames. eapply (emits_done s s11 cur fin (λ D, ({[fin]} ∪ ({[next]} ∪ D)) ∖ {[cur]} ∖ {[next]}));
    auto; try lia; try congruence.
  - eapply frame_weaken; [eassumption|]. cbn. clear -Bn Bf L1 L2. lia.
  - intros D HD Hin. apply S11; [|set_solver by lia]. apply S6; [|set_solver]. by apply S2, S1.
  - clear -Bn Bf L1 L2 Lc. intros D Hlt Hin x. block_mem.
Qed.

Lemma emitter_value_emitter v : emitter (value_emitter v).
Proof. unfold value_emitter. emitting. Qed.

Lemma emitter_binary get_value l op r :
  (∀ i, emitter (get_value l i)) → (∀ i, emitter (get_value r i)) →
  emitter (get_value_binary get_value l op r).
Proof.
  intros Hl Hr. unfold get_value_binary.
  destruct op; try (by apply emitter_conditional); emitting.
Qed.

Lemma emitter_pass_arg sp p i v : emitter (pass_arg sp p i v).
Proof. unfold pass_arg. emitting. Qed.
Hint Resolve emitter_pass_arg : emitter.

Lemma emitter_call_args sp p get_value i es :
  Forall (λ e, ∀ i, emitter (get_value e i)) es → emitter (call_args sp p get_value i es).
Proof.
  intros Hes. revert i. induction Hes as [|e es He _ IH]; intros i; cbn [call_args]; emitting.
Qed.

Lemma emitter_row_values get_value i es prev :
  Forall (λ e, ∀ i, emitter (get_value e i)) es → emitter (row_values get_value i es prev).
Proof.
  intros Hes. revert i prev. induction Hes as [|e es He _ IH]; intros i prev; cbn [row_values]; emitting.
Qed.

Lemma emitter_array_values get_value i es prev :
  Forall (λ e, ∀ i, emitter (get_value e i)) es → emitter (array_values get_value i es prev).
Proof.
  intros Hes. revert i prev. induction Hes as [|e es He _ IH]; intros i prev; cbn [array_values]; emitting.
Qed.

Lemma emitter_variable_ref n : emitter (variable_ref n).
Proof. unfold variable_ref. emitting. Qed.
Lemma emitter_pointer_operand v : emitter (pointer_operand v).
Proof. unfold pointer_operand. emitting. Qed.
Lemma emitter_member_ref n q : emitter (member_ref member n q).
Proof. unfold member_ref. emitting. Qed.
Hint Resolve emitter_value_emitter emitter_variable_ref emitter_pointer_operand emitter_member_ref : emitter.

Lemma emitter_array_ref get_value q i :
  (∀ e, q = Some e → ∀ i, emitter (get_value e i)) → (∀ j, emitter (get_value i j)) →
  emitter (array_ref get_value q i).
Proof.
  intros Hq Hi. unfold array_ref. destruct q as [e|]; [|by apply emitter_none].
  specialize (Hq e eq_refl). emitting.
Qed.

(** Both ways to use an expression. *)
Lemma emitter_expression e : ∀ sp p,
  emitter (get_value member sp p e) ∧
  emitter (get_ref member sp p (λ e i, get_value member sp (p ++ [i]) e) e).
Proof.
  induction e as [v|l op r IHl IHr|t IHt|es IHes|es IHes|n|f args _ IHargs|q i IHq IHi|q n _|t v IHt IHv]
    using Expression_rect'; intros sp p; cbn [get_value get_ref]; (split; [|emitting]).
  - emitting.
  - apply emitter_binary; intros; [apply IHl|apply IHr].
  - apply emitter_bind; [apply IHt|]. intros; emitting.
  - unfold get_value_row. apply emitter_bind; [|intros _; apply emitter_bind; [|intros sign]].
    1-2: apply emitter_signature, Forall_true; intros; apply emitter_get_type.
    apply emitter_bind; [emitting|intros ss]. destruct (find_struct _ _); [|by apply emitter_none]. apply emitter_row_values.
    eapply Forall_impl; [exact IHes|]. intros e He i. apply He.
  - unfold get_value_array. apply emitter_bind.
    { unfold get_type_array. destruct es; [by apply emitter_none|].
      apply emitter_bind; [apply emitter_get_type|]. intros; emitting. }
    intros ?. apply emitter_array_values. eapply Forall_impl; [exact IHes|]. intros e He i. apply He.
  - emitting.
  - unfold get_value_call, callee_name, find_function. emitting.
    all: apply emitter_call_args; eapply Forall_impl; [exact IHargs|]; intros e He i; apply He.
  - apply emitter_bind; [|intros; emitting].
    apply emitter_array_ref; intros; [by eapply IHq|apply IHi].
  - apply emitter_array_ref; intros; [by eapply IHq|apply IHi].
  - emitting.
  - unfold get_value_assign. apply emitter_bind; [apply IHt|]. intros.
    apply emitter_bind; [apply IHv|]. intros; emitting.
Qed.

Lemma emitter_get_value sp p e : emitter (get_value member sp p e).
Proof. apply emitter_expression. Qed.
End expressions.
#[export] Hint Resolve emitter_get_type emitter_get_value emitter_to_i1 : emitter.

(** ** Statements *)

(** Calls that leave the blocks alone. *)
Definition quiet {A : Type} (m : cg A) : Prop := ∀ s a s', m s = Ok (a, s') → blocks s' = blocks s.

Lemma quiet_bind {A B : Type} (m : cg A) (k : A → cg B) :
  quiet m → (∀ a, quiet (k a)) → quiet (m ≫= k).
Proof.
  intros Hm Hk s b s' E. apply cg_bind_Ok in E as (a & s1 & E1 & E2).
  etransitivity; [by eapply Hk|by eapply Hm].
Qed.

Lemma quiet_tables {A : Type} (m : cg A) : (∀ s, match m s with Ok (_, s') => blocks s' = blocks s | _ => True end) → quiet m.
Proof. intros H s a s' E. specialize (H s). by rewrite E in H. Qed.

Ltac quietly :=
  repeat match goal with |- quiet (_ ≫= _) => apply quiet_bind; [|intros ?] end;
  try (by apply quiet_tables).


(** What code generation asks of an engine's interface: its calls are straight-line code, and
    declaring its functions makes none. *)
Class DBEmitter `{DB : DBInterface} := {
  define_quiet : quiet define_functions;
  begin_txn_emitter : emitter emit_begin_txn;
  precommit_txn_emitter : emitter emit_precommit_txn;
  insert_emitter k kl v vl : emitter (emit_insert k kl v vl);
  update_emitter k kl v vl : emitter (emit_update k kl v vl);
  delete_emitter k kl : emitter (emit_delete k kl);
  scan_emitter k kl o : emitter (emit_scan k kl o);
  get_cursor_emitter f fl t tl : emitter (emit_get_cursor f fl t tl);
  next_emitter c : emitter (emit_cursor_next c);
  is_valid_emitter c : emitter (emit_is_valid_cursor c);
  copy_key_emitter c b : emitter (emit_cursor_copy_key c b);
  copy_value_emitter c b : emitter (emit_cursor_copy_value c b);
  destroy_emitter c : emitter (emit_cursor_destroy c);
}.

#[export] Instance Foedus_emitter `{LLVM} : DBEmitter (DB := FoedusInterface).
Proof.
  split; intros; [unfold define_functions, FoedusInterface, Foedus.define_functions; quietly|..];
  cbn [emit_begin_txn emit_precommit_txn emit_insert emit_update emit_delete emit_scan emit_get_cursor emit_cursor_next
    emit_is_valid_cursor emit_cursor_copy_key emit_cursor_copy_value emit_cursor_destroy FoedusInterface];
  repeat match goal with
  | |- emitter (Foedus.emit_begin_txn) => unfold Foedus.emit_begin_txn
  | |- emitter (Foedus.emit_precommit_txn) => unfold Foedus.emit_precommit_txn
  end;
  unfold Foedus.emit_insert, Foedus.emit_update, Foedus.emit_delete, Foedus.emit_scan, Foedus.emit_get_cursor, Foedus.emit_cursor_next,
    Foedus.emit_is_valid_cursor, Foedus.emit_cursor_copy_key, Foedus.emit_cursor_copy_value,
    Foedus.emit_cursor_destroy, Foedus.call_table; emitting.
Qed.

#[export] Hint Resolve begin_txn_emitter precommit_txn_emitter insert_emitter update_emitter
  delete_emitter scan_emitter get_cursor_emitter
  next_emitter is_valid_emitter copy_key_emitter copy_value_emitter destroy_emitter : emitter.

(** Programs without [break] and [continue]. *)
Fixpoint no_jump (s : Statement) : bool :=
  match s with
  | Jump _ => false
  | Block l | Transaction _ l | Scan _ _ l => forallb no_jump l
  | For i _ _ l => match i with Some i => no_jump i | None => true end && forallb no_jump l
  | If _ t f => forallb no_jump t && match f with Some f => forallb no_jump f | None => true end
  | Define _ _ | Emit _ | Insert _ _ | Let _ _ _ | DefineTuple _ _ | ExprStatement _ => true
  end.

Section statements.
Context `{DB : DBInterface} `{!DBEmitter} (ann : annotations).

Lemma emitter_let sp n e : emitter (codegen_let ann sp n e).
Proof. unfold codegen_let. emitting. Qed.

Lemma emitter_emit sp e : emitter (codegen_emit ann sp e).
Proof. unfold codegen_emit. emitting. Qed.

Lemma emitter_insert_columns sc b k v i n ki vi off : emitter (insert_columns sc b k v i n ki vi off).
Proof. revert i ki vi off. induction n; intros; cbn [insert_columns]; emitting. Qed.
Hint Resolve emitter_insert_columns : emitter.

Lemma emitter_codegen_insert sp t e : emitter (codegen_insert ann sp t e).
Proof. unfold codegen_insert, node_slots. emitting. Qed.

Lemma emitter_scan_columns sc k v i n ko vo prev : emitter (scan_columns sc k v i n ko vo prev).
Proof. revert i ko vo prev. induction n; intros; cbn [scan_columns]; emitting. Qed.
Hint Resolve emitter_scan_columns : emitter.

Lemma emitter_scan_row sc t sl c : emitter (scan_row sc t sl c).
Proof. unfold scan_row. emitting. Qed.
Hint Resolve emitter_scan_row : emitter.

Lemma emits_of {A : Type} (m : cg A) s a s' cur :
  emitter m → insert_block s = Some cur → cur < length (blocks s) → m s = Ok (a, s') → emits s s'.
Proof. intros Hm Hc Lc E. eapply Hm; [by exists cur|exact E]. Qed.

Lemma emitter_if sp c t f : emitter t → emitter f → emitter (codegen_if ann sp c t f).
Proof.
  intros Ht Hf s u s' (cur & Hc & Lc) E. unfold codegen_if in E. inv_cg.
  rename a into tb, a0 into fb, a1 into fin.
  destruct (create_block_inv _ _ _ _ E0) as (Bt & Hb1 & Hi1 & P1 & F1 & S1).
  destruct (create_block_inv _ _ _ _ E) as (Bf & Hb2 & Hi2 & P2 & F2 & S2).
  destruct (create_block_inv _ _ _ _ E1) as (Bn & Hb3 & Hi3 & P3 & F3 & S3).
  assert (L1 : length (blocks s0) = S (length (blocks s))) by (rewrite Hb1, length_app; simpl; lia).
  assert (L2 : length (blocks s1) = S (length (blocks s0))) by (rewrite Hb2, length_app; simpl; lia).
  assert (L3 : length (blocks s2) = S (length (blocks s1))) by (rewrite Hb3, length_app; simpl; lia).
  assert (Hi : insert_block s2 = Some cur) by congruence.
  assert (J1 : emits s2 s4).
  { eapply (emits_of (get_value (member_of ann) sp [0] c ≫= to_i1)); [|exact Hi|lia|].
    - apply emitter_bind; intros; emitting.
    - by rewrite (cg_bind_run _ _ _ _ _ E2). }
  apply condbr_inv in E4 as (_ & w & E4).
  destruct (emits_leave (ICondBr a3 tb fb) _ _ _ _ _ _ _ _ J1 Hi eq_refl E4 E5) as (Hi6 & L6 & P6 & F6 & S6);
    [targets_here|].
  assert (J2 : emits s6 s7) by (eapply (emits_of t); [exact Ht|exact Hi6|lia|exact E6]).
  apply br_inv in E7 as (w2 & E7).
  destruct (emits_leave (IBr fin) _ _ _ _ _ _ _ _ J2 Hi6 eq_refl E7 E8) as (Hi9 & L9 & P9 & F9 & S9);
    [targets_here|].
  assert (J3 : emits s9 s10) by (eapply (emits_of f); [exact Hf|exact Hi9|lia|exact E9]).
  apply br_inv in E10 as (w3 & E10).
  destruct (emits_leave (IBr fin) _ _ _ _ _ _ _ _ J3 Hi9 eq_refl E10 E12) as (Hi' & L' & P' & F' & S');
    [targets_here|].
  join_frames.
  eapply (emits_done s s' cur fin
    (λ D, ({[fin]} ∪ ({[fb]} ∪ ({[tb]} ∪ D))) ∖ {[cur]} ∖ {[tb]} ∖ {[fb]})); auto; try lia; try congruence.
  - eapply frame_weaken; [eassumption|]. cbn. clear -Bn Bf Bt L1 L2 L3. lia.
  - intros D HD Hin. apply S'; [|set_solver by lia]. apply S9; [|set_solver by lia].
    apply S6; [|set_solver]. by apply S3, S2, S1.
  - clear -Bn Bf Bt L1 L2 L3 Lc. intros D Hlt Hin x. block_mem.
Qed.

Lemma enter_loop_inv b bo e f s u s' :
  enter_loop b bo e f s = Ok (u, s') →
  blocks s' = blocks s ∧ insert_block s' = insert_block s ∧ loop_ s' = mk_loop b bo e f :: loop_ s ∧
  frame (λ _, False) s s' ∧ (∀ D, shape s D → shape s' D).
Proof.
  intros [= _ <-]. split_and!; auto.
  split; simpl; eauto. intros ? n c Hn. exists []. by rewrite app_nil_r.
Qed.

Lemma exit_loop_inv s u s' l out :
  loop_ s = l :: out → exit_loop_ctx s = Ok (u, s') →
  blocks s' = blocks s ∧ insert_block s' = insert_block s ∧ loop_ s' = out ∧
  frame (λ _, False) s s' ∧ (∀ D, shape s D → shape s' D).
Proof.
  intros Hl. unfold exit_loop_ctx. rewrite Hl. intros [= _ <-]. split_and!; auto.
  split; simpl; eauto. intros ? n c Hn. exists []. by rewrite app_nil_r.
Qed.

Lemma emitter_for sp init c e blk : emitter init → emitter blk → emitter (codegen_for ann sp init c e blk).
Proof.
  intros Hinit Hblk. unfold codegen_for. apply emitter_bind; [done|]. intros _.
  intros s u s' (cur & Hc & Lc) E. inv_cg.
  rename a into bg, a0 into bo, a1 into ev, a2 into fin.
  destruct (create_block_inv _ _ _ _ E0) as (B1 & Hb1 & Hi1 & P1 & F1 & S1).
  destruct (create_block_inv _ _ _ _ E) as (B2 & Hb2 & Hi2 & P2 & F2 & S2).
  destruct (create_block_inv _ _ _ _ E1) as (B3 & Hb3 & Hi3 & P3 & F3 & S3).
  destruct (create_block_inv _ _ _ _ E2) as (B4 & Hb4 & Hi4 & P4 & F4 & S4).
  destruct (enter_loop_inv _ _ _ _ _ _ _ E3) as (Hb5 & Hi5 & P5 & F5 & S5).
  assert (L1 : length (blocks s0) = S (length (blocks s))) by (rewrite Hb1, length_app; simpl; lia).
  assert (L2 : length (blocks s1) = S (length (blocks s0))) by (rewrite Hb2, length_app; simpl; lia).
  assert (L3 : length (blocks s2) = S (length (blocks s1))) by (rewrite Hb3, length_app; simpl; lia).
  assert (L4 : length (blocks s3) = S (length (blocks s2))) by (rewrite Hb4, length_app; simpl; lia).
  assert (L5 : length (blocks s4) = length (blocks s3)) by by rewrite Hb5.
  assert (Hi : insert_block s4 = Some cur) by congruence.
  assert (J0 : emits s4 s4) by (apply emits_refl; exists cur; split; [done|lia]).
  apply br_inv in E4 as (w & E4).
  destruct (emits_leave (IBr bg) _ _ _ _ _ _ _ _ J0 Hi eq_refl E4 E5) as (Hi6 & L6 & P6 & F6 & S6);
    [targets_here|].
  destruct c as [c|]; [|done]. inv_cg. apply condbr_inv in E16 as (_ & w2 & E16).
  assert (J1 : emits s6 s15) by (eapply emits_of; [|exact Hi6|lia|exact E14]; emitting).
  destruct (emits_leave (ICondBr a bo fin) _ _ _ _ _ _ _ _ J1 Hi6 eq_refl E16 E7) as (Hi8 & L8 & P8 & F8 & S8);
    [targets_here|].
  assert (J2 : emits s8 s9) by (eapply emits_of; [exact Hblk|exact Hi8|lia|exact E8]).
  apply br_inv in E9 as (w3 & E9).
  destruct (emits_leave (IBr ev) _ _ _ _ _ _ _ _ J2 Hi8 eq_refl E9 E10) as (Hi11 & L11 & P11 & F11 & S11);
    [targets_here|].
  destruct e as [e|]; [|done].
  assert (J3 : emits s11 s12) by (eapply emits_of; [|exact Hi11|lia|exact E11]; emitting).
  apply br_inv in E12 as (w4 & E12).
  destruct (emits_leave (IBr bg) _ _ _ _ _ _ _ _ J3 Hi11 eq_refl E12 E13) as (Hi14 & L14 & P14 & F14 & S14);
    [targets_here|].
  assert (P : loop_ s14 = mk_loop bg bo ev fin :: loop_ s) by congruence.
  destruct (exit_loop_inv _ _ _ _ _ P E15) as (Hb' & Hi' & P' & F' & S').
  join_frames.
  eapply (emits_done s s' cur fin
    (λ D, ({[fin]} ∪ ({[ev]} ∪ ({[bo]} ∪ ({[bg]} ∪ D)))) ∖ {[cur]} ∖ {[bg]} ∖ {[bo]} ∖ {[ev]}));
    auto; try (rewrite ?Hb'; lia); try congruence.
  - eapply frame_weaken; [eassumption|]. cbn. clear -B1 B2 B3 B4 L1 L2 L3 L4. lia.
  - intros D HD Hin. apply S', S14; [|set_solver by lia]. apply S11; [|set_solver by lia].
    apply S8; [|set_solver by lia]. apply S6; [|set_solver]. by apply S5, S4, S3, S2, S1.
  - clear -B1 B2 B3 B4 L1 L2 L3 L4 Lc. intros D Hlt Hin x. block_mem.
Qed.

(** The loop of a scan, after its cursor. *)
Lemma emitter_scan_loop sc rt sl cursor blk :
  emitter blk → emitter (scan_loop sc rt sl cursor blk).
Proof.
  intros Hblk s u s' (cur & Hc & Lc) E. unfold scan_loop in E. inv_cg. rename a into ck, a0 into bg, a1 into fin.
  destruct (create_block_inv _ _ _ _ E0) as (B1 & Hb1 & Hi1 & P1 & F1 & S1).
  destruct (create_block_inv _ _ _ _ E) as (B2 & Hb2 & Hi2 & P2 & F2 & S2).
  destruct (create_block_inv _ _ _ _ E1) as (B3 & Hb3 & Hi3 & P3 & F3 & S3).
  assert (L1 : length (blocks s0) = S (length (blocks s))) by (rewrite Hb1, length_app; simpl; lia).
  assert (L2 : length (blocks s1) = S (length (blocks s0))) by (rewrite Hb2, length_app; simpl; lia).
  assert (L3 : length (blocks s2) = S (length (blocks s1))) by (rewrite Hb3, length_app; simpl; lia).
  assert (Hi : insert_block s2 = Some cur) by congruence.
  assert (J0 : emits s2 s2) by (apply emits_refl; exists cur; split; [done|lia]).
  apply br_inv in E2 as (w & E2).
  destruct (emits_leave (IBr ck) _ _ _ _ _ _ _ _ J0 Hi eq_refl E2 E3) as (Hi4 & L4 & P4 & F4 & S4);
    [targets_here|].
  assert (J1 : emits s4 s6).
  { eapply (emits_of (v ← emit_is_valid_cursor cursor; CreateICmp EQ v (CInt 1 1))); [|exact Hi4|lia|].
    - emitting.
    - by rewrite (cg_bind_run _ _ _ _ _ E4). }
  apply condbr_inv in E6 as (_ & w2 & E6).
  destruct (emits_leave (ICondBr a5 bg fin) _ _ _ _ _ _ _ _ J1 Hi4 eq_refl E6 E7) as (Hi8 & L8 & P8 & F8 & S8);
    [targets_here|].
  assert (J2 : emits s8 s12).
  { eapply (emits_of (t ← not_null rt; _ ← scan_row sc t sl cursor; _ ← blk; emit_cursor_next cursor));
      [|exact Hi8|lia|].
    - emitting.
    - rewrite (cg_bind_run _ _ _ _ _ E8), (cg_bind_run _ _ _ _ _ E9), (cg_bind_run _ _ _ _ _ E10). done. }
  apply br_inv in E12 as (w3 & E12).
  destruct (emits_leave (IBr ck) _ _ _ _ _ _ _ _ J2 Hi8 eq_refl E12 E13) as (Hi14 & L14 & P14 & F14 & S14);
    [targets_here|].
  eapply emits_trans; [|eapply emits_of; [|exact Hi14|lia|exact E15]; emitting].
  join_frames.
  eapply (emits_done s s14 cur fin
    (λ D, ({[fin]} ∪ ({[bg]} ∪ ({[ck]} ∪ D))) ∖ {[cur]} ∖ {[ck]} ∖ {[bg]})); auto; try lia; try congruence.
  - eapply frame_weaken; [eassumption|]. cbn. clear -B1 B2 B3 L1 L2 L3. lia.
  - intros D HD Hin. apply S14; [|set_solver by lia]. apply S8; [|set_solver by lia].
    apply S4; [|set_solver]. by apply S3, S2, S1.
  - clear -B1 B2 B3 L1 L2 L3 Lc. intros D Hlt Hin x. block_mem.
Qed.

Lemma emitter_scan sp t r blk : emitter blk → emitter (codegen_scan sp t r blk).
Proof.
  intros Hblk. unfold codegen_scan, node_slots. emitting. by apply emitter_scan_loop.
Qed.

Lemma emitter_statements mk sp i l :
  Forall (λ s, no_jump s = true → ∀ sp, emitter (codegen ann s sp)) l → forallb no_jump l = true →
  emitter (codegen_statements (codegen ann) mk sp i l).
Proof.
  intros Hl. revert i. induction Hl as [|s l Hs _ IH]; intros i Hj; simpl in *; [emitting|].
  apply andb_prop in Hj as [Hj1 Hj2]. apply emitter_bind; [by apply Hs|]. intros _. by apply IH.
Qed.

Lemma emitter_codegen s : no_jump s = true → ∀ sp, emitter (codegen ann s sp).
Proof.
  induction s as [l Hl|i l Hl|d n|i c e l Hi Hl|t|e|t e|t r l Hl|n e t|n t|c t f Ht Hf|e]
    using Statement_rect'; intros Hj sp; simpl in Hj; cbn [codegen].
  - by apply emitter_statements.
  - pose proof (emitter_statements In_body sp 0 l Hl Hj). emitting.
  - emitting.
  - destruct i as [i|]; [|by apply emitter_none]. apply andb_prop in Hj as [Hj1 Hj2].
    apply emitter_for; [by apply Hi|by apply emitter_statements].
  - done.
  - apply emitter_emit.
  - apply emitter_codegen_insert.
  - by apply emitter_scan, emitter_statements.
  - apply emitter_let.
  - emitting.
  - apply andb_prop in Hj as [Hj1 Hj2]. apply emitter_if; [by apply emitter_statements|].
    destruct f as [f|]; [apply emitter_statements; auto|emitting].
  - emitting.
Qed.
End statements.

(** ** The pass that reserves the stack *)

Section stack.
Context `{DB : DBInterface} (ann : annotations).

Lemma emitter_set_variables f : emitter (modify (λ s, set_variables s (f s))).
Proof. by apply emitter_modify. Qed.
Lemma emitter_set_stack f : emitter (modify (λ s, set_stack s (f s))).
Proof. by apply emitter_modify. Qed.
Lemma emitter_set_slots sp v : emitter (set_node_slots sp v).
Proof. by apply emitter_modify. Qed.
Lemma emitter_set_globals f : emitter (modify (λ s, set_globals s (f s))).
Proof. by apply emitter_modify. Qed.
Lemma emitter_set_schemas f : emitter (modify (λ s, set_schemas s (f s))).
Proof. by apply emitter_modify. Qed.
Lemma emitter_set_type f : emitter (modify (λ s, set_types s (struct_types s) (f s))).
Proof. by apply emitter_modify. Qed.
Hint Resolve emitter_set_variables emitter_set_stack emitter_set_slots emitter_set_globals
  emitter_set_schemas emitter_set_type : emitter.

Lemma emitter_alloca_node n t : emitter (alloca_node n t).
Proof. unfold alloca_node. emitting. Qed.
Hint Resolve emitter_alloca_node : emitter.

Lemma emitter_alloca_values sp v : emitter (alloca_values ann sp v).
Proof. induction v as [|[p e] v IH]; cbn [alloca_values]; emitting. Qed.
Hint Resolve emitter_alloca_values : emitter.

Lemma emitter_prefix p : emitter (find_or_create_prefix p).
Proof. unfold find_or_create_prefix. emitting. Qed.
Hint Resolve emitter_prefix : emitter.

Lemma emitter_row_attrs l : emitter (row_attrs l).
Proof. induction l; cbn [row_attrs]; emitting. Qed.
Hint Resolve emitter_row_attrs : emitter.

Lemma emitter_alloca_stack s : ∀ sp, emitter (alloca_stack ann sp s).
Proof.
  induction s as [l Hl|i l Hl|d n|i c e l Hi Hl|t|e|t e|t r l Hl|n e t|n t|c t f Ht Hf|e]
    using Statement_rect'; intros sp; cbn [alloca_stack];
    unfold alloca_define, alloca_emit, alloca_insert, alloca_scan, alloca_let, alloca_expr; emitting.
  by apply Hi.
Qed.

Lemma emitter_walk {A : Type} (func : list pstep → Statement → cg (list A)) s :
  (∀ sp s, emitter (func sp s)) → ∀ sp, emitter (walk func s sp).
Proof.
  intros Hf.
  assert (Hblk : ∀ mk sp i l, Forall (λ s, ∀ sp, emitter (walk func s sp)) l →
    emitter (walk_statements func (walk func) mk sp i l)).
  { intros mk sp i l Hl. revert i. induction Hl as [|x l Hx _ IH]; intros i; simpl; emitting. }
  induction s as [l Hl|i l Hl|d n|i c e l Hi Hl|t|e|t e|t r l Hl|n e t|n t|c t f Ht Hf'|e]
    using Statement_rect'; intros sp; cbn [walk]; try (by apply Hblk); try apply emitter_ret.
  - destruct i as [i|]; [|by apply emitter_none]. pose proof (Hblk In_body sp 0 l Hl). emitting.
  - pose proof (Hblk In_body sp 0 t Ht). destruct f as [f|]; [|done].
    pose proof (Hblk In_else sp 0 f (Hf' f eq_refl)). emitting.
Qed.
End stack.

(** ** Whole programs *)

(** Every block ends in its only terminator, and branches go to blocks of the function. *)
Definition well_formed (s : cstate) : Prop :=
  (∀ b n c, blocks s !! b = Some (n, c) → closed c = true) ∧ targets_exist s.

Section programs.
Context `{DB : DBInterface} `{!DBEmitter}.

Lemma init_quiet : quiet (_ ← init_types; init_functions).
Proof.
  apply quiet_bind; [|intros _].
  - apply quiet_tables. intros s. unfold init_types, mbind, cg_bind, gets. simpl.
    destruct (find_struct _ _); [done|]. by destruct (type_table_ s !! _).
  - unfold init_functions. quietly. apply quiet_tables. intros s. unfold string_type, mbind, cg_bind, gets, not_null.
    by destruct (type_table_ s !! _).
Qed.

Lemma emitter_body ann l :
  forallb no_jump l = true →
  emitter (created ← walk (alloca_stack ann) (Block l) []; _ ← codegen ann (Block l) []; mret created).
Proof.
  intros Hj. apply emitter_bind; [apply emitter_walk; intros; apply emitter_alloca_stack|]. intros c.
  apply emitter_bind; [by apply emitter_codegen|]. intros _. apply emitter_ret.
Qed.

(** A new function with its entry block. *)
Lemma entry_shape s b s1 u s2 :
  blocks s = [] → create_block "entry_jit" s = Ok (b, s1) → SetInsertPoint b s1 = Ok (u, s2) →
  insert_block s2 = Some b ∧ b < length (blocks s2) ∧ shape s2 {[b]} ∧ targets_exist s2.
Proof.
  intros Hb E1 E2. destruct (create_block_inv _ _ _ _ E1) as (-> & Hb1 & _ & _ & F1 & S1).
  destruct (insert_point_inv _ _ _ _ E2) as (Hb2 & Hi & _ & F2 & S2). split_and!; auto.
  - rewrite Hb2, Hb1, length_app. simpl. lia.
  - apply S2. eapply shape_ext; [apply (S1 ∅)|set_solver]. unfold shape. rewrite Hb. set_solver.
  - apply (f_targets _ _ _ F2), (f_targets _ _ _ F1). unfold targets_exist. by rewrite Hb.
Qed.
End programs.

Lemma compile_shape `{DB : DBInterface} `{!DBEmitter} show_double l created s' :
  compile_new show_double l = Ok (created, s') → forallb no_jump l = true →
  well_formed s' ∧ 0 < length (blocks s').
Proof.
  intros E Hj. unfold compile_new, context_new in E. rewrite bind_assoc in E.
  apply bind_Ok_inv in E as ([u s] & Ed & E). apply define_quiet in Ed. simpl in E.
  unfold compile in E. inv_cg.
  assert (blocks s1 = []) as Hb1.
  { transitivity (blocks s); [|by rewrite Ed]. eapply (init_quiet s). by rewrite (cg_bind_run _ _ _ _ _ E0). }
  unfold cg_lift in E1. destruct (Analyze.analyze_block _ _ _); [|done..]. injection E1 as <- <-.
  destruct (entry_shape _ _ _ _ _ Hb1 E2 E3) as (Hi & Hl & HS & HT).
  set (ann := annotate show_double l Analyze.ctx_new) in *.
  assert (J : emits s4 s6).
  { eapply (emits_of _ s4 a4 s6); [apply (emitter_body ann l Hj)|exact Hi|exact Hl|].
    by rewrite (cg_bind_run _ _ _ _ _ E4), (cg_bind_run _ _ _ _ _ E5). }
  destruct (emits_inv _ _ _ J Hi) as (c6 & Hi6 & _ & L6 & _ & F6 & _ & _ & S6).
  unfold CreateRet in E6. inv_cg. injection E7 as _ <-. injection E8 as _ <-.
  destruct (insert_terminator (IRet (CInt 1 1)) _ _ _ _ eq_refl Hi6 L6 E1) as (F7 & _ & _ & _ & S7);
    [constructor|].
  split; [split; [|apply (f_targets _ _ _ F7), (f_targets _ _ _ F6), HT]|].
  2: { apply frame_length in F6, F7. lia. }
  specialize (S6 _ HS ltac:(set_solver)). apply S7 in S6; [|set_solver].
  intros b n c Hbc. destruct S6 as (_ & _ & Hcl). eapply Hcl; [exact Hbc|]. set_solver.
Qed.

(** C6: the function compiled from a program without [break] and [continue] has a well-formed
    control flow: every basic block ends in a terminator and holds no other, and every branch goes
    to a block of the function.  This covers the blocks of [if], [for], [scan] and of short-circuit
    operators, nested in any way, for every engine whose calls are straight-line code. *)
Theorem compile_well_formed `{DB : DBInterface} `{!DBEmitter} show_double l created s' :
  compile_new show_double l = Ok (created, s') → forallb no_jump l = true → well_formed s'.
Proof. intros E Hj. by apply (compile_shape _ _ _ _ E Hj). Qed.

Definition sample_loop : list Statement :=
  [ For (Some (Let (lit "x") (PrimaryExpression (maybe_of_int 0)) None))
      (Some (BinaryExpression
         (BinaryExpression (VariableReference (lit "x")) Op.LESSTHAN (PrimaryExpression (maybe_of_int 3)))
         Op.CONDITIONAL_AND
         (BinaryExpression (PrimaryExpression (maybe_of_int 1)) Op.LESSTHAN (VariableReference (lit "x")))))
      (Some (Assign (VariableReference (lit "x"))
         (BinaryExpression (VariableReference (lit "x")) Op.PLUS (PrimaryExpression (maybe_of_int 1)))))
      [ If (VariableReference (lit "x"))
          [ Emit (RowLiteral [VariableReference (lit "x"); PrimaryExpression (maybe_of_int 7)]) ] None ] ].

(** The number of blocks of a compiled program. *)
Definition compiled_blocks (r : result (list (list ascii * list Attribute) * cstate)) : option nat :=
  match r with Ok (_, s) => Some (length (blocks s)) | _ => None end.

Lemma compile_well_formed_witness :
  ∃ created s, compile_new (λ _, []) sample_loop = Ok (created, s) ∧ length (blocks s) = 10 ∧ well_formed s.
Proof.
  assert (H : compiled_blocks (compile_new (λ _, []) sample_loop) = Some 10) by (vm_compute; reflexivity).
  destruct (compile_new (λ _, []) sample_loop) as [[created s]| | | |] eqn:E;
    [|discriminate H..].
  exists created, s. split; [reflexivity|]. split; [injection H as H; exact H|].
  exact (compile_well_formed (λ _, []) sample_loop created s E eq_refl).
Defined.
