(* ===== verification/Typing.v ===== *)
(** * Typing: the types that code generation computes

    [get_type] changes the context: the first time it meets a row it creates a struct type and
    records it under the row's signature.  Here: it changes nothing else, later calls give the same
    type and change nothing, and the struct found under a signature has the types the signature
    was made of. *)

From Stdlib Require Import ZArith NArith Ascii String Lia.
From stdpp Require Import base option list strings gmap.
From S2P Require Import Prelude Value Attr Schema Ast Visit LLVM CodegenExpr CodegenStmt Compile Shape.

Lemma gets_run {A B : Type} (f : cstate → A) (k : A → cg B) s : (gets f ≫= k) s = k (f s) s.
Proof. done. Qed.

(** ** What stays the same *)

Definition tables (s : cstate) :=
  (functions_table_ s, variable_table_ s, stack_table_ s, slots_table s, global_variable_table_ s,
   local_schema_table_ s).

(** [s'] has the tables of [s] and more types. *)
Record later (s s' : cstate) : Prop := {
  l_structs : struct_types s `prefix_of` struct_types s';
  l_types : type_table_ s ⊆ type_table_ s';
  l_tables : tables s' = tables s;
}.

#[export] Instance later_preorder : PreOrder later.
Proof.
  split.
  - intros s. split; [done|apply map_subseteq_po|done].
  - intros s1 s2 s3 [A1 B1 C1] [A2 B2 C2]. split; [by etrans|by etrans|congruence].
Qed.

Lemma known_mono n m t : known n t = true → n ≤ m → known m t = true.
Proof. intros H Hnm. induction t; simpl in *; auto. case_bool_decide; [|done]. apply bool_decide_eq_true; lia. Qed.

Definition first_brace (n : cstr) : Prop := head n = Some "{"%char.

(** The types of a context mention structs that exist; a struct whose name is a signature has the
    types of the signature. *)
Record good_types `{LLVM} (s : cstate) : Prop := {
  g_structs k n ts : struct_types s !! k = Some (n, ts) →
    Forall (λ t, known k t = true) ts ∧ (first_brace n → n = signature (struct_types s) ts);
  g_table x t : type_table_ s !! x = Some t → known (length (struct_types s)) t = true;
  g_sign x t : type_table_ s !! x = Some t → first_brace x →
    ∃ k ts, t = TStruct k ∧ struct_types s !! k = Some (x, ts);
  g_variables x v : variable_table_ s !! x = Some v → known (length (struct_types s)) (type_of v) = true;
  g_functions x f : functions_table_ s !! x = Some f → known (length (struct_types s)) (ret_type f) = true;
}.

(** It depends on the types and tables only. *)
Lemma good_types_same `{LLVM} s s' :
  struct_types s' = struct_types s → type_table_ s' = type_table_ s → tables s' = tables s →
  good_types s → good_types s'.
Proof.
  intros E1 E2 E3 [G1 G2 G3 G4 G5]. unfold tables in E3. injection E3 as F V _ _ _ _.
  split; rewrite ?E1, ?E2, ?F, ?V; auto.
Qed.

(** Calls after which only types are added. *)
Definition keeper `{LLVM} {A : Type} (m : cg A) : Prop :=
  ∀ s a s', good_types s → m s = Ok (a, s') → good_types s' ∧ later s s'.

Section keeper.
Context `{LLVM}.

Lemma keeper_bind {A B : Type} (m : cg A) (k : A → cg B) :
  keeper m → (∀ a, keeper (k a)) → keeper (m ≫= k).
Proof.
  intros Hm Hk s b s' G E. apply cg_bind_Ok in E as (a & s1 & E1 & E2).
  destruct (Hm _ _ _ G E1) as [G1 L1]. destruct (Hk _ _ _ _ G1 E2) as [G2 L2].
  split; [done|by etrans].
Qed.

Lemma keeper_none {A : Type} (m : cg A) : (∀ s, is_ok (m s) = false) → keeper m.
Proof. intros Hm s a s' _ E. specialize (Hm s). by rewrite E in Hm. Qed.

(** A call that changes neither types nor tables. *)
Lemma keeper_same {A : Type} (m : cg A) :
  (∀ s, match m s with
        | Ok (_, s') => struct_types s' = struct_types s ∧ type_table_ s' = type_table_ s ∧ tables s' = tables s
        | _ => True
        end) → keeper m.
Proof.
  intros Hm s a s' G E. specialize (Hm s). rewrite E in Hm. destruct Hm as (E1 & E2 & E3).
  split; [by eapply good_types_same|]. split; rewrite ?E1, ?E2; done.
Qed.

Lemma keeper_ret {A : Type} (a : A) : keeper (mret a).
Proof. by apply keeper_same. Qed.
Lemma keeper_gets {A : Type} (f : cstate → A) : keeper (gets f).
Proof. by apply keeper_same. Qed.
Lemma keeper_lift {A : Type} (r : result A) : keeper (cg_lift r).
Proof. apply keeper_same. intros s. by destruct r. Qed.
Lemma keeper_not_null {A : Type} (o : option A) : keeper (not_null o).
Proof. by destruct o; apply keeper_same. Qed.
Lemma keeper_assert b : keeper (llvm_assert b).
Proof. by destruct b; apply keeper_same. Qed.

Lemma keeper_insert i : keeper (insert_instr i).
Proof. apply keeper_same. intros s. unfold insert_instr. by destruct (insert_block s). Qed.
Lemma keeper_folded i : keeper (insert_folded i).
Proof. unfold insert_folded. destruct (fold i); [apply keeper_ret|apply keeper_insert]. Qed.
Lemma keeper_block name : keeper (create_block name).
Proof. by apply keeper_same. Qed.
Lemma keeper_insert_point b : keeper (SetInsertPoint b).
Proof. by apply keeper_same. Qed.
Lemma keeper_enter b bo e f : keeper (enter_loop b bo e f).
Proof. by apply keeper_same. Qed.
Lemma keeper_exit : keeper exit_loop_ctx.
Proof. apply keeper_same. intros s. unfold exit_loop_ctx. by destruct (loop_ s). Qed.
End keeper.

Create HintDb keeper.
#[export] Hint Resolve keeper_ret keeper_gets keeper_lift keeper_not_null keeper_assert keeper_insert
  keeper_folded keeper_block keeper_insert_point keeper_enter keeper_exit : keeper.

Ltac keeping :=
  repeat first
    [ solve [auto with keeper nocore]
    | match goal with
      | |- keeper (_ ≫= _) => apply keeper_bind; [|intros ?]
      | |- keeper (match ?x with _ => _ end) => destruct x
      | |- keeper (if ?x then _ else _) => destruct x
      | |- keeper (cg_throw _) => by apply keeper_none
      | |- keeper (cg_throw_text _) => by apply keeper_none
      | |- keeper cg_abort => by apply keeper_none
      | |- keeper cg_ub => by apply keeper_none
      end ].

Section builder.
Context `{LLVM}.
Lemma keeper_alloca t : keeper (CreateAlloca t).
Proof. unfold CreateAlloca. keeping. Qed.
Lemma keeper_load p : keeper (CreateLoad p).
Proof. unfold CreateLoad. keeping. Qed.
Lemma keeper_store v p : keeper (CreateStore v p).
Proof. unfold CreateStore. keeping. Qed.
Lemma keeper_bin op a b : keeper (CreateBin op a b).
Proof. unfold CreateBin. keeping. Qed.
Lemma keeper_icmp op a b : keeper (CreateICmp op a b).
Proof. unfold CreateICmp. keeping. Qed.
Lemma keeper_insert_value agg v i : keeper (CreateInsertValue agg v i).
Proof. unfold CreateInsertValue. keeping. Qed.
Lemma keeper_gep p idx : keeper (CreateInBoundsGEP p idx).
Proof. unfold CreateInBoundsGEP. keeping. Qed.
Lemma keeper_bitcast v t : keeper (CreateBitCast v t).
Proof. unfold CreateBitCast. keeping. Qed.
Lemma keeper_call f args : keeper (CreateCall f args).
Proof. unfold CreateCall. keeping. Qed.
Lemma keeper_phi t inc : keeper (CreatePHI t inc).
Proof. unfold CreatePHI. keeping. Qed.
Lemma keeper_br b : keeper (CreateBr b).
Proof. unfold CreateBr. keeping. Qed.
Lemma keeper_condbr c t f : keeper (CreateCondBr c t f).
Proof. unfold CreateCondBr. keeping. Qed.
Lemma keeper_get_insert : keeper GetInsertBlock.
Proof. unfold GetInsertBlock. keeping. Qed.
End builder.
#[export] Hint Resolve keeper_alloca keeper_load keeper_store keeper_bin keeper_icmp
  keeper_insert_value keeper_gep keeper_bitcast keeper_call keeper_phi keeper_br keeper_condbr
  keeper_get_insert : keeper.

(** ** Types *)

Section types.
Context `{LLVM} (member : nid → option (TypeId.type_id * nat)).

(** What a call of [get_type] does: its type is known, and it is the answer from then on. *)
Definition typing (m : cg ltype) : Prop := ∀ s t s',
  good_types s → m s = Ok (t, s') →
  good_types s' ∧ later s s' ∧ known (length (struct_types s')) t = true ∧
  ∀ s2, later s' s2 → m s2 = Ok (t, s2).

Lemma later_length s s' : later s s' → length (struct_types s) ≤ length (struct_types s').
Proof. intros L. apply prefix_length, L. Qed.

(** A call that only reads tables. *)
Lemma typing_read (m : cg ltype) :
  (∀ s, match m s with
        | Ok (t, s') => s' = s ∧ (good_types s → known (length (struct_types s)) t = true) ∧
                        ∀ s2, later s s2 → m s2 = Ok (t, s2)
        | _ => True
        end) → typing m.
Proof.
  intros Hm s t s' G E. specialize (Hm s). rewrite E in Hm. destruct Hm as (-> & K & S).
  split_and!; auto. reflexivity.
Qed.

Lemma typing_string : typing string_type.
Proof.
  apply typing_read. intros s. unfold string_type, mbind, cg_bind, gets, not_null.
  destruct (type_table_ s !! lit "string") as [t|] eqn:E; cbn -[lit]; [|done]. split_and!; [done| |].
  - intros G. by eapply g_table.
  - intros s2 L. by rewrite (lookup_weaken _ _ _ _ E (l_types _ _ L)).
Qed.

Lemma typing_ret t : known 0 t = true → typing (mret t).
Proof. intros K. apply typing_read. intros s. simpl. split_and!; auto. intros _. eapply known_mono; [done|lia]. Qed.

Lemma typing_none (m : cg ltype) : (∀ s, is_ok (m s) = false) → typing m.
Proof. intros Hm s t s' _ E. specialize (Hm s). by rewrite E in Hm. Qed.

(** A type built on another one. *)
Lemma typing_map (m : cg ltype) (f : ltype → ltype) :
  (∀ n t, known n t = true → known n (f t) = true) → typing m → typing (t ← m; mret (f t)).
Proof.
  intros Hf Hm s t s' G E. apply cg_bind_Ok in E as (t1 & s1 & E1 & E2). injection E2 as <- <-.
  destruct (Hm _ _ _ G E1) as (G1 & L & K & S). split_and!; auto.
  intros s2 L2. by rewrite (cg_bind_run _ _ _ _ _ (S _ L2)).
Qed.

Lemma later_variables s s' : later s s' → variable_table_ s' = variable_table_ s.
Proof. intros L. by injection (l_tables _ _ L). Qed.
Lemma later_functions s s' : later s s' → functions_table_ s' = functions_table_ s.
Proof. intros L. by injection (l_tables _ _ L). Qed.
Lemma later_stack s s' : later s s' → stack_table_ s' = stack_table_ s.
Proof. intros L. by injection (l_tables _ _ L). Qed.

Lemma typing_variable n : typing (get_type_variable n).
Proof.
  apply typing_read. intros s. unfold get_type_variable, mbind, cg_bind, gets.
  destruct (variable_table_ s !! n) as [v|] eqn:E; [|done]. split_and!; [done| |].
  - intros G. apply (g_variables _ G) in E. by destruct (type_of v).
  - intros s2 L. by rewrite (later_variables _ _ L), E.
Qed.

Lemma typing_call f : typing (get_type_call f).
Proof.
  apply typing_read. intros s. unfold get_type_call, callee_name, find_function, mbind, cg_bind, gets.
  destruct f; try done. simpl. destruct (functions_table_ s !! name_) as [f|] eqn:E; [|done]. simpl.
  split_and!; [done| |].
  - intros G. by eapply g_functions.
  - intros s2 L. by rewrite (later_functions _ _ L), E.
Qed.

Lemma typing_convert t : typing (convert_type t).
Proof.
  unfold convert_type. destruct t; try (by apply typing_none); try (by apply typing_ret).
  apply typing_string.
Qed.

Context `{PL : !PrintLaws}.

(** The loops over the elements of a row. *)
Lemma loops_typing get_type i es s r s1 :
  Forall (λ e, ∀ i, typing (get_type e i)) es → good_types s →
  signature_loop get_type i es s = Ok (r, s1) →
  ∃ ts, length ts = length es ∧ good_types s1 ∧ later s s1 ∧
    Forall (λ t, known (length (struct_types s1)) t = true) ts ∧
    (∀ s2, later s1 s2 → element_types get_type i es s2 = Ok (ts, s2)) ∧
    (∀ s2, later s1 s2 → signature_loop get_type i es s2 =
       Ok (concat ((λ t, print_type (struct_types s2) t ++ lit ",") <$> ts), s2)) ∧
    r = concat ((λ t, print_type (struct_types s1) t ++ lit ",") <$> ts).
Proof.
  intros Hes. revert i s r s1. induction Hes as [|e es He Hes IH]; intros i s r s1 G E.
  { injection E as <- <-. exists []. split_and!; auto; reflexivity. }
  cbn [signature_loop] in E. apply cg_bind_Ok in E as (t & s' & E1 & E2).
  destruct (He i _ _ _ G E1) as (G' & L' & K & S).
  apply cg_bind_Ok in E2 as (ss & s2 & E2 & E3). injection E2 as <- <-.
  apply cg_bind_Ok in E3 as (r' & s3 & E3 & E4). injection E4 as <- <-.
  destruct (IH _ _ _ _ G' E3) as (ts & Hl & G1 & L1 & Ks & St & Sg & Hr).
  assert (K1 : known (length (struct_types s3)) t = true) by (eapply known_mono; [exact K|by apply later_length]).
  assert (Hp : ∀ s2, later s3 s2 → print_type (struct_types s2) t = print_type (struct_types s') t).
  { intros s2 L2. apply print_stable; [|exact K]. etrans; [apply L1|apply L2]. }
  exists (t :: ts). split_and!; auto.
  - simpl. by rewrite Hl.
  - by transitivity s'.
  - intros s2 L2. cbn [element_types]. rewrite (cg_bind_run _ _ _ _ _ (S s2 ltac:(by transitivity s3))).
    by rewrite (cg_bind_run _ _ _ _ _ (St s2 L2)).
  - intros s2 L2. cbn [signature_loop]. rewrite (cg_bind_run _ _ _ _ _ (S s2 ltac:(by transitivity s3))).
    rewrite gets_run. rewrite (cg_bind_run _ _ _ _ _ (Sg s2 L2)).
    cbn [mret cg_ret fmap list_fmap concat]. by rewrite <- app_assoc.
  - rewrite Hr. cbn [fmap list_fmap concat]. rewrite (Hp s3 ltac:(reflexivity)). by rewrite <- app_assoc.
Qed.

Lemma signature_typing get_type es s sign s1 :
  Forall (λ e, ∀ i, typing (get_type e i)) es → good_types s →
  get_type_signature get_type es s = Ok (sign, s1) →
  ∃ ts, length ts = length es ∧ good_types s1 ∧ later s s1 ∧
    Forall (λ t, known (length (struct_types s1)) t = true) ts ∧
    (∀ s2, later s1 s2 → element_types get_type 0 es s2 = Ok (ts, s2)) ∧
    (∀ s2, later s1 s2 → get_type_signature get_type es s2 = Ok (sign, s2)) ∧
    (∀ s2, later s1 s2 → sign = signature (struct_types s2) ts).
Proof.
  intros Hes G E. unfold get_type_signature in E. apply cg_bind_Ok in E as (r & s' & E1 & E2).
  injection E2 as <- <-. destruct (loops_typing _ _ _ _ _ _ Hes G E1) as (ts & Hl & G1 & L1 & Ks & St & Sg & ->).
  assert (Hsig : ∀ s2, later s' s2 →
    concat ((λ t, print_type (struct_types s2) t ++ lit ",") <$> ts) =
    concat ((λ t, print_type (struct_types s') t ++ lit ",") <$> ts)).
  { intros s2 L2. f_equal. clear -Ks L2 PL. induction Ks as [|t ts Kt _ IH]; [done|].
    cbn [fmap list_fmap]. rewrite IH. f_equal. f_equal. apply print_stable; [apply L2|exact Kt]. }
  exists ts. split_and!; auto.
  - intros s2 L2. unfold get_type_signature. rewrite (cg_bind_run _ _ _ _ _ (Sg s2 L2)). by rewrite (Hsig s2 L2).
  - intros s2 L2. unfold signature. by rewrite (Hsig s2 L2).
Qed.

Lemma good_types_extend s n ts :
  good_types s → Forall (λ t, known (length (struct_types s)) t = true) ts →
  (first_brace n → n = signature (struct_types s ++ [(n, ts)]) ts) →
  good_types (set_types s (struct_types s ++ [(n, ts)]) (<[n := TStruct (length (struct_types s))]> (type_table_ s))).
Proof.
  intros G Ks Hn.
  assert (Hk : ∀ t, known (length (struct_types s)) t = true →
    known (length (struct_types s ++ [(n, ts)])) t = true).
  { intros t K. eapply known_mono; [exact K|]. rewrite length_app. lia. }
  split; simpl.
  - intros k m us. rewrite lookup_app. destruct (struct_types s !! k) as [[m' us']|] eqn:E.
    + intros [= -> ->]. destruct (g_structs _ G _ _ _ E) as [K S]. split; [done|].
      intros B. rewrite (S B) at 1. unfold signature. do 3 f_equal. apply lookup_lt_Some in E.
      clear -K E PL. induction K as [|t us Kt _ IH]; [done|]. cbn [fmap list_fmap]. rewrite IH. f_equal. f_equal.
      symmetry. apply print_stable; [by exists [(n, ts)]|]. eapply known_mono; [exact Kt|lia].
    + apply lookup_ge_None in E. destruct (k - length (struct_types s)) eqn:E2; simpl; [|done].
      intros [= <- <-]. split; [|done]. by replace k with (length (struct_types s)) by lia.
  - intros x t. destruct (decide (x = n)) as [->|Hx].
    + rewrite lookup_insert_eq. intros [= <-]. simpl. apply bool_decide_eq_true. rewrite length_app. simpl. lia.
    + rewrite lookup_insert_ne by done. intros E. by eapply Hk, g_table.
  - intros x t. destruct (decide (x = n)) as [->|Hx].
    + rewrite lookup_insert_eq. intros [= <-] _. exists (length (struct_types s)), ts. split; [done|].
      by rewrite list_lookup_middle.
    + rewrite lookup_insert_ne by done. intros E B. destruct (g_sign _ G _ _ E B) as (k & us & -> & Hus).
      exists k, us. split; [done|]. by apply lookup_app_l_Some.
  - intros x v E. by eapply Hk, g_variables.
  - intros x f E. by eapply Hk, g_functions.
Qed.

Lemma typing_row get_type es :
  Forall (λ e, ∀ i, typing (get_type e i)) es → typing (get_type_row get_type es).
Proof.
  intros Hes s t s' G E. unfold get_type_row in E. apply cg_bind_Ok in E as (sign & s1 & E1 & E2).
  destruct (signature_typing _ _ _ _ _ Hes G E1) as (ts & Hl & G1 & L1 & Ks & St & Sg & Hsig).
  apply cg_bind_Ok in E2 as (tt' & s1' & E2 & E3). injection E2 as <- <-.
  destruct (type_table_ s1 !! sign) as [t'|] eqn:Et.
  - injection E3 as <- <-. split_and!; auto; [by eapply g_table|]. intros s2 L2.
    unfold get_type_row. rewrite (cg_bind_run _ _ _ _ _ (Sg s2 L2)). rewrite gets_run.
    by rewrite (lookup_weaken _ _ _ _ Et (l_types _ _ L2)).
  - rewrite (cg_bind_run _ _ _ _ _ (St s1 ltac:(reflexivity))) in E3. injection E3 as <- <-.
    set (s' := set_types _ _ _).
    assert (L2 : later s1 s').
    { split; simpl; [by exists [(sign, ts)]|by apply insert_subseteq|done]. }
    split_and!; auto.
    + apply (good_types_extend s1 sign ts); [done|done|]. intros _. apply (Hsig s' L2).
    + by transitivity s1.
    + simpl. apply bool_decide_eq_true. rewrite length_app. simpl. lia.
    + intros s2 L3. unfold get_type_row.
      rewrite (cg_bind_run _ _ _ _ _ (Sg s2 ltac:(by transitivity s'))). rewrite gets_run.
      assert (Hs : type_table_ s' !! sign = Some (TStruct (length (struct_types s1)))) by apply lookup_insert_eq.
      by rewrite (lookup_weaken _ _ _ _ Hs (l_types _ _ L3)).
Qed.

Lemma typing_binary get_type l r :
  (∀ i, typing (get_type l i)) → (∀ i, typing (get_type r i)) → typing (get_type_binary get_type l r).
Proof.
  intros Hl Hr s t s' G E. unfold get_type_binary in E.
  apply cg_bind_Ok in E as (t1 & s1 & E1 & E). destruct (Hr 1 _ _ _ G E1) as (G1 & L1 & K1 & S1).
  apply cg_bind_Ok in E as (t2 & s2 & E2 & E). destruct (Hl 0 _ _ _ G1 E2) as (G2 & L2 & K2 & S2).
  destruct (decide (t1 ≠ t2)) as [|N]; [done|]. apply dec_stable in N as ->.
  rewrite (S1 _ L2) in E. injection E as <- <-. split_and!; auto; [by transitivity s1|].
  intros s3 L3. unfold get_type_binary. pose proof (S1 s3 ltac:(by transitivity s2)) as S1'.
  rewrite (cg_bind_run _ _ _ _ _ S1'), (cg_bind_run _ _ _ _ _ (S2 _ L3)), decide_False; naive_solver.
Qed.

Lemma typing_get_type e : ∀ sp p, typing (get_type member sp p e).
Proof.
  induction e as [v|l op r IHl IHr|t IHt|es IHes|es IHes|n|f args _ _|q i IHq _|q n _|t v _ IHv]
    using Expression_rect'; intros sp p; cbn [get_type].
  - unfold get_type_primary. repeat case_match; try (by apply typing_ret); try (by apply typing_none).
    apply typing_string.
  - by apply typing_binary.
  - by apply (typing_map _ TPtr).
  - apply typing_row. eapply Forall_impl; [exact IHes|]. eauto.
  - destruct IHes as [|e es He _]; [by apply typing_none|]. by apply (typing_map _ (λ t, TArray t _)).
  - apply typing_variable.
  - apply typing_call.
  - unfold get_type_array_ref. destruct q as [q|]; [|by apply typing_none].
    intros s t s' G E. apply cg_bind_Ok in E as (t1 & s1 & E1 & E2).
    destruct (IHq q eq_refl sp (p ++ [0]) _ _ _ G E1) as (G1 & L1 & K1 & S1).
    destruct t1 as [| | | |t1 n|]; simplify_eq. injection E2 as <- <-. split_and!; auto.
    intros s2 L2. by rewrite (cg_bind_run _ _ _ _ _ (S1 _ L2)).
  - unfold get_type_member, not_null. destruct (member (sp, p)) as [[a b]|]; [|by apply typing_none].
    apply (typing_convert a).
  - apply IHv.
Qed.

(** The type of a row is a struct of the types of its elements. *)
Lemma type_row_struct get_type es s t s' :
  Forall (λ e, ∀ i, typing (get_type e i)) es → good_types s → get_type_row get_type es s = Ok (t, s') →
  ∃ k n ts, t = TStruct k ∧ struct_types s' !! k = Some (n, ts) ∧ length ts = length es ∧
    element_types get_type 0 es s' = Ok (ts, s').
Proof.
  intros Hes G E. unfold get_type_row in E. apply cg_bind_Ok in E as (sign & s1 & E1 & E2).
  destruct (signature_typing _ _ _ _ _ Hes G E1) as (ts & Hl & G1 & L1 & Ks & St & Sg & Hsig).
  rewrite gets_run in E2. destruct (type_table_ s1 !! sign) as [t'|] eqn:Et.
  - injection E2 as <- <-. pose proof (Hsig s1 ltac:(reflexivity)) as Hs.
    destruct (g_sign _ G1 _ _ Et ltac:(by rewrite Hs)) as (k & us & -> & Hus).
    destruct (g_structs _ G1 _ _ _ Hus) as [_ Hus']. specialize (Hus' ltac:(by rewrite Hs)).
    rewrite Hs in Hus'. apply signature_inj in Hus' as <-. exists k, sign, ts. split_and!; auto. apply St. reflexivity.
  - rewrite (cg_bind_run _ _ _ _ _ (St s1 ltac:(reflexivity))) in E2. injection E2 as <- <-.
    exists (length (struct_types s1)), sign, ts. split_and!; auto; simpl; [by rewrite list_lookup_middle|].
    apply St. split; simpl; [by exists [(sign, ts)]|by apply insert_subseteq|done].
Qed.

(** The struct found under the signature of a row has the types of the row's elements. *)
Lemma find_row_struct get_type es s sign s1 k :
  Forall (λ e, ∀ i, typing (get_type e i)) es → good_types s →
  get_type_signature get_type es s = Ok (sign, s1) →
  find_struct (struct_types s1) sign = Some (TStruct k) →
  ∃ n ts, struct_types s1 !! k = Some (n, ts) ∧ length ts = length es ∧
    ∀ s2, later s1 s2 → element_types get_type 0 es s2 = Ok (ts, s2).
Proof.
  intros Hes G E F. destruct (signature_typing _ _ _ _ _ Hes G E) as (ts & Hl & G1 & L1 & Ks & St & Sg & Hsig).
  unfold find_struct in F. destruct (list_find _ _) as [[i [n us]]|] eqn:Ef; [|done]. simpl in F.
  apply list_find_Some in Ef as (Hi & Hn & _). simplify_eq.
  assert (us = ts) as ->.
  { apply (signature_inj (struct_types s1)). rewrite <- (Hsig s1 ltac:(reflexivity)).
    symmetry. apply (proj2 (g_structs _ G1 _ _ _ Hi)). rewrite (Hsig s1 ltac:(reflexivity)). done. }
  exists sign, ts. split_and!; auto.
Qed.
End types.

Section keepers.
Context `{LLVM} (member : nid → option (TypeId.type_id * nat)) `{PL : !PrintLaws}.

Lemma keeper_typing (m : cg ltype) : typing m → keeper m.
Proof. intros Hm s t s' G E. by destruct (Hm _ _ _ G E) as (? & ? & _). Qed.

Lemma keeper_get_type sp p e : keeper (get_type member sp p e).
Proof. apply keeper_typing. exact (typing_get_type member e sp p). Qed.

Lemma keeper_signature sp p es :
  keeper (get_type_signature (λ e i, get_type member sp (p ++ [i]) e) es).
Proof.
  intros s sign s' G E. destruct (signature_typing _ _ _ _ _ (Forall_true _ _ (λ e i, typing_get_type member e sp _)) G E)
    as (ts & _ & ? & ? & _). done.
Qed.
Hint Resolve keeper_get_type keeper_signature : keeper.

Lemma keeper_to_i1 v : keeper (to_i1 v).
Proof. unfold to_i1. keeping. Qed.
Lemma keeper_value_emitter v : keeper (value_emitter v).
Proof. unfold value_emitter, string_type. keeping. Qed.
Lemma keeper_variable_ref n : keeper (variable_ref n).
Proof. unfold variable_ref. keeping. Qed.
Lemma keeper_pointer_operand v : keeper (pointer_operand v).
Proof. unfold pointer_operand. keeping. Qed.
Lemma keeper_member_ref n q : keeper (member_ref member n q).
Proof. unfold member_ref. keeping. Qed.
Hint Resolve keeper_to_i1 keeper_value_emitter keeper_variable_ref keeper_pointer_operand
  keeper_member_ref : keeper.

Section loops.
Context (sp : list pstep) (p : list nat) (get_value : Expression → nat → cg lvalue).

Lemma keeper_pass_arg i v : keeper (pass_arg sp p i v).
Proof. unfold pass_arg. keeping. Qed.
Hint Resolve keeper_pass_arg : keeper.

Lemma keeper_call_args i es :
  Forall (λ e, ∀ i, keeper (get_value e i)) es → keeper (call_args sp p get_value i es).
Proof. intros Hes. revert i. induction Hes; intros; cbn [call_args]; keeping. Qed.

Lemma keeper_row_values i es prev :
  Forall (λ e, ∀ i, keeper (get_value e i)) es → keeper (row_values get_value i es prev).
Proof. intros Hes. revert i prev. induction Hes; intros; cbn [row_values]; keeping. Qed.

Lemma keeper_array_values i es prev :
  Forall (λ e, ∀ i, keeper (get_value e i)) es → keeper (array_values get_value i es prev).
Proof. intros Hes. revert i prev. induction Hes; intros; cbn [array_values]; keeping. Qed.

Lemma keeper_array_ref q i :
  (∀ e, q = Some e → ∀ i, keeper (get_value e i)) → (∀ j, keeper (get_value i j)) →
  keeper (array_ref get_value q i).
Proof.
  intros Hq Hi. unfold array_ref. destruct q as [e|]; [|by apply keeper_none].
  specialize (Hq e eq_refl). keeping.
Qed.

Lemma keeper_binary l op r :
  (∀ i, keeper (get_value l i)) → (∀ i, keeper (get_value r i)) →
  keeper (get_value_binary get_value l op r).
Proof. intros Hl Hr. unfold get_value_binary, get_conditional_value. destruct op; keeping. Qed.
End loops.

Lemma keeper_expression e : ∀ sp p,
  keeper (get_value member sp p e) ∧
  keeper (get_ref member sp p (λ e i, get_value member sp (p ++ [i]) e) e).
Proof.
  induction e as [v|l op r IHl IHr|t IHt|es IHes|es IHes|n|f args _ IHargs|q i IHq IHi|q n _|t v IHt IHv]
    using Expression_rect'; intros sp p; cbn [get_value get_ref]; (split; [|keeping]).
  - keeping.
  - apply keeper_binary; intros; [apply IHl|apply IHr].
  - apply keeper_bind; [apply IHt|]. intros; keeping.
  - unfold get_value_row. keeping. apply keeper_row_values.
    eapply Forall_impl; [exact IHes|]. intros e He i. apply He.
  - unfold get_value_array. apply keeper_bind.
    { unfold get_type_array. destruct es; [by apply keeper_none|].
      apply keeper_bind; [apply keeper_get_type|]. intros; keeping. }
    intros ?. apply keeper_array_values. eapply Forall_impl; [exact IHes|]. intros e He i. apply He.
  - keeping.
  - unfold get_value_call, callee_name, find_function. keeping.
    all: apply keeper_call_args; eapply Forall_impl; [exact IHargs|]; intros e He i; apply He.
  - apply keeper_bind; [|intros; keeping].
    apply keeper_array_ref; intros; [by eapply IHq|apply IHi].
  - apply keeper_array_ref; intros; [by eapply IHq|apply IHi].
  - keeping.
  - unfold get_value_assign. apply keeper_bind; [apply IHt|]. intros.
    apply keeper_bind; [apply IHv|]. intros; keeping.
Qed.

Lemma keeper_get_value sp p e : keeper (get_value member sp p e).
Proof. apply keeper_expression. Qed.
End keepers.
#[export] Hint Resolve keeper_get_type keeper_get_value keeper_to_i1 : keeper.

(** ** Types are not code *)

(** The place where the next instruction goes, and its number. *)
Definition place (s : cstate) := (blocks s, insert_block s, next_id s, loop_ s).

(** Calls that emit nothing. *)
Definition still {A : Type} (m : cg A) : Prop := ∀ s a s', m s = Ok (a, s') → place s' = place s.

Lemma still_bind {A B : Type} (m : cg A) (k : A → cg B) :
  still m → (∀ a, still (k a)) → still (m ≫= k).
Proof.
  intros Hm Hk s b s' E. apply cg_bind_Ok in E as (a & s1 & E1 & E2).
  etransitivity; [by eapply Hk|by eapply Hm].
Qed.

Lemma still_direct {A : Type} (m : cg A) :
  (∀ s, match m s with Ok (_, s') => place s' = place s | _ => True end) → still m.
Proof. intros H s a s' E. specialize (H s). by rewrite E in H. Qed.

Lemma still_none {A : Type} (m : cg A) : (∀ s, is_ok (m s) = false) → still m.
Proof. intros Hm s a s' E. specialize (Hm s). by rewrite E in Hm. Qed.
Lemma still_ret {A : Type} (a : A) : still (mret a).
Proof. by apply still_direct. Qed.
Lemma still_gets {A : Type} (f : cstate → A) : still (gets f).
Proof. by apply still_direct. Qed.
Lemma still_not_null {A : Type} (o : option A) : still (not_null o).
Proof. by destruct o; apply still_direct. Qed.
Lemma still_create_struct ts name : still (create_struct ts name).
Proof. by apply still_direct. Qed.
Lemma still_set_types f : still (modify (λ s, set_types s (struct_types s) (f s))).
Proof. by apply still_direct. Qed.

Create HintDb still.
#[export] Hint Resolve still_ret still_gets still_not_null still_create_struct still_set_types : still.

Ltac quiescent :=
  repeat first
    [ solve [auto with still nocore]
    | match goal with
      | |- still (_ ≫= _) => apply still_bind; [|intros ?]
      | |- still (match ?x with _ => _ end) => destruct x
      | |- still (cg_throw _) => by apply still_none
      | |- still (cg_throw_text _) => by apply still_none
      | |- still cg_abort => by apply still_none
      | |- still cg_ub => by apply still_none
      end ].

Section still.
Context `{LLVM} (member : nid → option (TypeId.type_id * nat)).

Lemma still_string_type : still string_type.
Proof. unfold string_type. quiescent. Qed.

Lemma still_elements get_type i es :
  Forall (λ e, ∀ i, still (get_type e i)) es → still (element_types get_type i es).
Proof. intros Hes. revert i. induction Hes; intros i; simpl; quiescent. Qed.

Lemma still_signature get_type es :
  Forall (λ e, ∀ i, still (get_type e i)) es → still (get_type_signature get_type es).
Proof.
  intros Hes. unfold get_type_signature. apply still_bind; [|intros ?; quiescent].
  generalize 0. induction Hes; intros i; simpl; quiescent.
Qed.

Lemma still_get_type e : ∀ sp p, still (get_type member sp p e).
Proof.
  pose proof still_string_type.
  induction e as [v|l op r IHl IHr|t IHt|es IHes|es IHes|n|f args _ _|q i IHq _|q n _|t v _ IHv]
    using Expression_rect'; intros sp p; cbn [get_type].
  - unfold get_type_primary. quiescent.
  - unfold get_type_binary. quiescent.
  - quiescent.
  - assert (Hes : Forall (λ e, ∀ i, still (get_type member sp (p ++ [i]) e)) es)
      by (eapply Forall_impl; [exact IHes|]; eauto).
    unfold get_type_row. apply still_bind; [by apply still_signature|intros sign].
    pose proof (still_elements (λ e i, get_type member sp (p ++ [i]) e) 0 es Hes). quiescent.
  - unfold get_type_array. destruct IHes; quiescent.
  - unfold get_type_variable. quiescent.
  - unfold get_type_call, callee_name, find_function. quiescent.
  - unfold get_type_array_ref. destruct q; [|quiescent]. specialize (IHq _ eq_refl). quiescent.
  - unfold get_type_member, convert_type. quiescent.
  - quiescent.
Qed.

Lemma still_row_signature sp p es :
  still (get_type_signature (λ e i, get_type member sp (p ++ [i]) e) es).
Proof. apply still_signature. apply Forall_true. intros e i. apply still_get_type. Qed.
End still.

(** ** Types are stable *)

(** C12: types are stable.  When [get_type] has answered for an expression in a context of good
    types, the context has only grown by struct types, the answer mentions only types of the
    context, and asking again, now or after more types have been added, gives the same answer and
    adds nothing. *)
Theorem get_type_stable `{L : LLVM} `{PL : !PrintLaws} member sp p e s t s' :
  good_types s → get_type member sp p e s = Ok (t, s') →
  good_types s' ∧ later s s' ∧ known (length (struct_types s')) t = true ∧
  ∀ s2, later s' s2 → get_type member sp p e s2 = Ok (t, s2).
Proof. intros Gd Et. by apply (typing_get_type member e sp p s). Qed.

Lemma empty_types `{L : LLVM} : good_types context_empty.
Proof. split; simpl; try done. all: intros x y; by rewrite ?lookup_empty. Qed.

Definition one_row : Expression := RowLiteral [PrimaryExpression (maybe_of_int 4)].

Definition with_row : cstate :=
  set_types context_empty [(signature [] [i64], [i64])] {[signature [] [i64] := TStruct 0]}.

Lemma get_type_stable_witness : get_type (λ _, None) [] [0] one_row with_row = Ok (TStruct 0, with_row).
Proof.
  assert (Et : get_type (λ _, None) [] [0] one_row context_empty = Ok (TStruct 0, with_row)).
  { vm_cast_no_check (eq_refl (Ok (TStruct 0, with_row))). }
  destruct (get_type_stable (λ _, None) [] [0] one_row context_empty (TStruct 0) with_row empty_types Et) as (_ & _ & _ & Hs).
  exact (Hs with_row (reflexivity with_row)).
Defined.
