(* ===== verification/Simulate.v ===== *)
(** * Simulate: running generated code

    The machine runs a module [P] that contains the code of an expression (and whatever is
    generated before and after it).  If the machine is at the place where the code starts, and its
    memory holds the variables of the reference semantics, it gets to the place where the code ends,
    the value that code generation returned denotes the value of the expression, and its memory
    holds the variables as the expression leaves them. *)

From Stdlib Require Import ZArith NArith Ascii String Lia.
From stdpp Require Import base option list strings gmap relations.
From S2P Require Import Prelude Value Attr Schema Ast Visit LLVM CodegenExpr CodegenStmt Compile Machine.
From S2P Require Import Layout Declare Runtime Semantics Shape Typing.

(** ** Values and types *)

(** What a value is in a register. *)
Fixpoint rv (v : value) : rval :=
  match v with
  | VUnit => RUndef
  | VInt z => RInt 64 (pattern 64 z)
  | VBool b => rbool b
  | VStr s => RAgg [RPtr (PString s 0); RInt 64 (pattern 64 (Z.of_nat (length s)))]
  | VRow vs => RAgg (rv <$> vs)
  end.

(** Data of a type. *)
Inductive vtyped (ss : structs) : ltype → value → Prop :=
  | VT_int z : is_i64 z → vtyped ss i64 (VInt z)
  | VT_bool b : vtyped ss i1 (VBool b)
  | VT_str k n s : ss !! k = Some (n, [i8ptr; i64]) → (Z.of_nat (length s) < two_64)%Z → vtyped ss (TStruct k) (VStr s)
  | VT_row k n ts vs : ss !! k = Some (n, ts) → Forall2 (vtyped ss) ts vs →
      vtyped ss (TStruct k) (VRow vs).

(** The result of an expression: data, or nothing. *)
Definition res_typed (ss : structs) (t : ltype) (v : value) : Prop :=
  (t = TVoid ∧ v = VUnit) ∨ vtyped ss t v.

Section value_ind.
Context (P : value → Prop).
Context (HUnit : P VUnit) (HInt : ∀ z, P (VInt z)) (HBool : ∀ b, P (VBool b)) (HStr : ∀ s, P (VStr s)).
Context (HRow : ∀ vs, Forall P vs → P (VRow vs)).
Fixpoint value_rect' (v : value) : P v :=
  let fix go (vs : list value) : Forall P vs :=
    match vs with
    | [] => Forall_nil_2 P
    | v :: vs => Forall_cons_2 P v vs (value_rect' v) (go vs)
    end in
  match v with
  | VUnit => HUnit
  | VInt z => HInt z
  | VBool b => HBool b
  | VStr s => HStr s
  | VRow vs => HRow vs (go vs)
  end.
End value_ind.

Lemma has_type_mono ss f f' t v : has_type f ss t v = true → f ≤ f' → has_type f' ss t v = true.
Proof.
  revert f' t v. induction f as [|f IH]; intros f' t v H Hf; [done|].
  destruct f' as [|f']; [lia|]. simpl in *. destruct t, v; try done.
  destruct (ss !! i) as [[n ts]|]; [|done]. apply andb_prop in H as [-> H]. simpl.
  rewrite forallb_forall in *. intros [t v] Hin. specialize (H _ Hin). simpl in *. apply IH; [done|lia].
Qed.

Lemma typed_row ss k n ts vs :
  ss !! k = Some (n, ts) → Forall2 (typed ss) ts vs → typed ss (TStruct k) (RAgg vs).
Proof.
  intros Hk H. assert (∃ f, length ts = length vs ∧ forallb (λ '(t, v), has_type f ss t v) (zip ts vs) = true) as (f & Hl & Hf).
  { clear Hk. induction H as [|t v ts vs [f1 H1] _ (f2 & Hl & H2)]; [by exists 0|].
    exists (max f1 f2). simpl. split; [by f_equal|]. rewrite (has_type_mono _ f1) by (done || lia). simpl.
    rewrite forallb_forall in *. intros [t' v'] Hin. specialize (H2 _ Hin). simpl in *.
    eapply has_type_mono; [done|lia]. }
  exists (S f). simpl. rewrite Hk, Hf, bool_decide_true; done.
Qed.

Lemma pattern_range w z : (0 ≤ pattern w z < 2 ^ Z.of_nat w)%Z.
Proof. apply Z.mod_pos_bound. lia. Qed.

Lemma typed_int ss w z : typed ss (TInt w) (RInt w (pattern w z)).
Proof. exists 1. simpl. apply bool_decide_eq_true. split; [done|]. apply pattern_range. Qed.

Lemma vtyped_typed ss t v : vtyped ss t v → typed ss t (rv v).
Proof.
  revert t. induction v as [|z|b|s|vs IH] using value_rect'; intros t H; inversion H; subst; simpl.
  - apply typed_int.
  - destruct b; [apply (typed_int ss 1 1)|apply (typed_int ss 1 0)].
  - eapply typed_row; [done|]. repeat constructor; [by exists 1|apply typed_int].
  - eapply typed_row; [done|]. apply Forall2_fmap_r.
    match goal with H : Forall2 _ _ _ |- _ => revert IH; clear -H; induction H as [|? ? ? ? Hv _ IH'] end;
      intros IH; [constructor|]. inversion IH; subst. constructor; auto.
Qed.

Lemma vtyped_not_void ss t v : vtyped ss t v → t ≠ TVoid.
Proof. by inversion 1. Qed.

(** Values of registers that are below a number do not depend on the others. *)
Definition agree {W : Type} (n : nat) (μ μ' : mstate (W := W)) : Prop :=
  ∀ r, r < n → regs μ' !! r = regs μ !! r.

Lemma eval_agree ss n (r1 r2 : registers) v :
  below n v = true → (∀ r, r < n → r2 !! r = r1 !! r) → eval ss r2 v = eval ss r1 v.
Proof.
  intros Hb Hr. induction v as [| |t vs IH| | |] using lvalue_rect'; simpl in *; auto.
  - f_equal. induction IH as [|v vs Hv _ IH']; [done|]. simpl in *. apply andb_prop in Hb as [Hb1 Hb2].
    rewrite Hv, IH' by done. done.
  - apply Hr. by apply bool_decide_eq_true in Hb.
Qed.

Lemma below_mono n m v : below n v = true → n ≤ m → below m v = true.
Proof.
  intros Hb Hn. induction v as [| |t vs IH| | |] using lvalue_rect'; simpl in *; auto.
  - induction IH as [|v vs Hv _ IH']; [done|]. simpl in *. apply andb_prop in Hb as [Hb1 Hb2].
    rewrite Hv, IH' by done. done.
  - apply bool_decide_eq_true in Hb. apply bool_decide_eq_true. lia.
Qed.

(** ** The machine and the reference *)

(** A module that is run: its struct types, its code, and what the program declares. *)
Class Module := {
  m_structs : structs;
  m_code : list (list ascii * code);
  m_decls : decls;
  m_wf : wf_structs m_structs;
  (** An element of a struct is selected by an index of 32 bits. *)
  m_small k n ts : m_structs !! k = Some (n, ts) → (Z.of_nat (length ts) ≤ 2 ^ 32)%Z;
}.

Section correct.
Context `{L : LLVM} `{LT : !LLVMTyping} `{PL : !PrintLaws} `{T : Target} `{TL : !TargetLaws}
  `{LF : !LLVMFolds}.
Context {E C G : Type} `{FA : FoedusAPI E C} `{RG : Random G} `{RL : !RandomLaws G} `{MM : Module}.
Abbreviation ss := m_structs.
Abbreviation P := m_code.

Abbreviation W := (World E C G).
Abbreviation machine := (mstate (W := W)).
Abbreviation steps := (steps_to (W := W) ss call_runtime P).

(** The region of a stack slot for a value of type [t]. *)
Definition live (μ : machine) (r : nat) (t : ltype) : Prop :=
  regs μ !! r = Some (RPtr (PStack r 0)) ∧ ∃ bs, mem μ !! r = Some bs ∧ length bs = alloc_size ss t.

(** It holds a value. *)
Definition holds (μ : machine) (r : nat) (t : ltype) (v : value) : Prop :=
  vtyped ss t v ∧ ∃ bs, mem μ !! r = Some bs ∧ decode ss t bs = Some (rv v).

(** A slot that is no variable's. *)
Definition private (vt : gmap cstr lvalue) (r : nat) : Prop := ∀ x t, vt !! x ≠ Some (Reg r t).

(** The type of a scanned row. *)
Definition row_struct (t : ltype) (n : nat) : Prop :=
  ∃ k nm ts, t = TStruct k ∧ ss !! k = Some (nm, ts) ∧ all_i64 ts ∧ length ts = n.

(** The slots of an [insert] or a [scan]: a buffer for the key, one for the value, and the row.  An
    [insert] has its row to itself, the row of a [scan] is its variable's.  [n] bounds the registers,
    [vt] is the table of variables. *)
Record slots_ok (n : nat) (vt : gmap cstr lvalue) (sp : list pstep) (sl : Slots) (t : cstr) (x : option cstr)
    (sch : Schema) (kr vr tr kn vn : nat) (tt : ltype) : Prop := {
  sl_node : d_nodes m_decls !! sp = Some (t, x);
  sl_schema : d_tables m_decls !! t = Some sch;
  sl_key : key_stack_ sl = Reg kr (TPtr (TArray i8 kn));
  sl_value : value_stack_ sl = Reg vr (TPtr (TArray i8 vn));
  sl_tuple : tuple_stack_ sl = Reg tr (TPtr tt);
  sl_key_size : get_fixed_key_length sch = Ok kn;
  sl_value_size : get_fixed_value_length sch = Ok vn;
  sl_below : kr < n ∧ vr < n ∧ tr < n;
  sl_apart : kr ≠ vr ∧ kr ≠ tr ∧ vr ≠ tr;
  sl_private : private vt kr ∧ private vt vr;
  sl_not_void : tt ≠ TVoid;
  sl_prefix : prefix_ sl = CStr (get_key_prefix sch);
  sl_kind : match x with
    | None => private vt tr
    | Some x => d_rows m_decls !! x = Some sp ∧ vt !! x = Some (tuple_stack_ sl) ∧ row_struct tt (columns sch) ∧
        ∃ p, prefix_end (get_key_prefix sch) = Ok p ∧ prefix_end_ sl = Some (CStr p)
    end;
}.

(** What the tables of a context are when code is generated: every variable, every node with stack
    space, every [insert] and every [scan] has slots of its own, and the functions and the string
    type are those of the language. *)
Record static (s : cstate) : Prop := {
  st_var x lv : variable_table_ s !! x = Some lv → ∃ r t, lv = Reg r (TPtr t) ∧ r < next_id s ∧ t ≠ TVoid;
  st_stack n lv : stack_table_ s !! n = Some lv → ∃ r t, lv = Reg r (TPtr t) ∧ r < next_id s ∧ t ≠ TVoid;
  st_inj x y r t t' :
    variable_table_ s !! x = Some (Reg r t) → variable_table_ s !! y = Some (Reg r t') → x = y;
  st_sep x n r t t' :
    variable_table_ s !! x = Some (Reg r t) → stack_table_ s !! n = Some (Reg r t') → False;
  st_string : ∃ k n, type_table_ s !! lit "string" = Some (TStruct k) ∧ ss !! k = Some (n, [i8ptr; i64]);
  st_print_int : functions_table_ s !! lit "print_int" = Some (mk_function (lit "print_int") TVoid [i64]);
  st_print_string : ∃ k, type_table_ s !! lit "string" = Some k ∧
    functions_table_ s !! lit "print_string" = Some (mk_function (lit "print_string") TVoid [TPtr k]);
  st_emit : functions_table_ s !! lit "__emit_func" =
    Some (mk_function (lit "__emit_func") TVoid [i64ptr; i8ptr; i64]);
  st_begin : functions_table_ s !! lit "__begin_xct" = Some (mk_function (lit "begin_xct") i1 [i64ptr]);
  st_precommit : functions_table_ s !! lit "__precommit_xct" =
    Some (mk_function (lit "precommit_xct") i1 [i64ptr]);
  st_insert : functions_table_ s !! lit "__insert" =
    Some (mk_function (lit "foedus_insert") i1 [i64ptr; i8ptr; i64; i8ptr; i64]);
  st_get_cursor : functions_table_ s !! lit "__get_cursor" =
    Some (mk_function (lit "foedus_generate_cursor") i64ptr [i64ptr; i8ptr; i64; i8ptr; i64]);
  st_cursor_next : functions_table_ s !! lit "__cursor_next" =
    Some (mk_function (lit "foedus_cursor_next") i1 [i64ptr]);
  st_cursor_valid : functions_table_ s !! lit "__cursor_is_valid" =
    Some (mk_function (lit "foedus_cursor_is_valid") i1 [i64ptr]);
  st_copy_key : functions_table_ s !! lit "__cursor_copy_key" =
    Some (mk_function (lit "foedus_cursor_copy_key") TVoid [i64ptr; i8ptr]);
  st_copy_value : functions_table_ s !! lit "__cursor_copy_value" =
    Some (mk_function (lit "foedus_cursor_copy_value") TVoid [i64ptr; i8ptr]);
  st_destroy : functions_table_ s !! lit "__cursor_destroy" =
    Some (mk_function (lit "foedus_cursor_destroy") TVoid [i64ptr]);
  st_schemas t sch : local_schema_table_ s !! t = Some sch → d_tables m_decls !! t = Some sch;
  st_prefix p v : global_variable_table_ s !! p = Some v → v = CStr p;
  st_slots sp sl : slots_table s !! sp = Some sl →
    ∃ t x sch kr vr tr kn vn tt, slots_ok (next_id s) (variable_table_ s) sp sl t x sch kr vr tr kn vn tt;
  st_rand : functions_table_ s !! lit "rand" = Some (mk_function (lit "rand_int") i64 [i64; i64]);
}.

Record rel (s : cstate) (σ : env E C G) (μ : machine) : Prop := {
  r_world : world μ = env_world σ;
  r_var x r t : variable_table_ s !! x = Some (Reg r (TPtr t)) →
    live μ r t ∧ ∀ v, vars σ !! x = Some v → holds μ r t v;
  r_dom x v : vars σ !! x = Some v → is_Some (variable_table_ s !! x);
  r_stack n r t : stack_table_ s !! n = Some (Reg r (TPtr t)) → live μ r t;
  r_slots sp sl r t : slots_table s !! sp = Some sl →
    Reg r (TPtr t) ∈ [key_stack_ sl; value_stack_ sl; tuple_stack_ sl] → live μ r t;
}.

Lemma slots_ok_later n m vt sp sl t x sch kr vr tr kn vn tt :
  slots_ok n vt sp sl t x sch kr vr tr kn vn tt → n ≤ m → slots_ok m vt sp sl t x sch kr vr tr kn vn tt.
Proof. intros [] Hn. split; auto. lia. Qed.

(** The slots of a statement are registers of the context. *)
Lemma slot_below s sp sl r t :
  static s → slots_table s !! sp = Some sl → Reg r (TPtr t) ∈ [key_stack_ sl; value_stack_ sl; tuple_stack_ sl] →
  r < next_id s.
Proof.
  intros Sta Hs Hin. destruct (st_slots _ Sta _ _ Hs) as (t' & x & sch & kr & vr & tr & kn & vn & tt & K).
  rewrite (sl_key _ _ _ _ _ _ _ _ _ _ _ _ _ K), (sl_value _ _ _ _ _ _ _ _ _ _ _ _ _ K),
    (sl_tuple _ _ _ _ _ _ _ _ _ _ _ _ _ K) in Hin.
  destruct (sl_below _ _ _ _ _ _ _ _ _ _ _ _ _ K) as (? & ? & ?).
  repeat (apply elem_of_cons in Hin as [[= -> _]|Hin]; [done|]). by apply not_elem_of_nil in Hin.
Qed.

(** The machine is where the next instruction will be inserted. *)
Definition at_pc (μ : machine) (s : cstate) : Prop :=
  ∃ b n c, insert_block s = Some b ∧ blocks s !! b = Some (n, c) ∧ blk μ = b ∧ idx μ = length c.

(** The module contains the code generated so far. *)
Definition extends (s : cstate) : Prop :=
  (∀ b n c, blocks s !! b = Some (n, c) → ∃ n' c', P !! b = Some (n', c ++ c')) ∧
  struct_types s `prefix_of` ss.

Lemma at_pc_valid μ s : at_pc μ s → valid_cur s.
Proof. intros (b & n & c & Hi & Hb & _). exists b. split; [done|]. by apply lookup_lt_Some in Hb. Qed.

Lemma extends_frame own s s' : frame own s s' → extends s' → extends s.
Proof.
  intros F [Hx Hs]. split; [|etrans; [apply F|done]]. intros b n c Hb.
  destruct (f_grow _ _ _ F _ _ _ Hb) as [c1 H1]. destruct (Hx _ _ _ H1) as (n' & c2 & H2).
  exists n', (c1 ++ c2). by rewrite app_assoc.
Qed.

Lemma extends_emits s s' : emits s s' → extends s' → extends s.
Proof. intros (? & ? & _ & _ & _ & _ & _ & F & _). by apply (extends_frame _ _ _ F). Qed.

Lemma emits_next s s' : emits s s' → next_id s ≤ next_id s'.
Proof. intros (? & ? & _ & _ & _ & _ & _ & F & _). apply F. Qed.

Lemma static_later s s' : later s s' → next_id s ≤ next_id s' → static s → static s'.
Proof.
  intros Lt Hn S. destruct (l_tables _ _ Lt). destruct S.
  assert (variable_table_ s' = variable_table_ s) as Ev by by apply later_variables.
  assert (functions_table_ s' = functions_table_ s) as Ef by by apply later_functions.
  assert (stack_table_ s' = stack_table_ s) as Es by by apply later_stack.
  pose proof (l_tables _ _ Lt) as Htb. unfold tables in Htb. injection Htb as _ _ _ El Eg Ec.
  split; rewrite ?Ev, ?Ef, ?Es, ?El, ?Eg, ?Ec; auto.
  - intros x lv Hx. destruct (st_var0 _ _ Hx) as (r & t & -> & Hr & ?). exists r, t. split_and!; [done|lia|done].
  - intros n lv Hx. destruct (st_stack0 _ _ Hx) as (r & t & -> & Hr & ?). exists r, t. split_and!; [done|lia|done].
  - destruct st_string0 as (k & n & Hk & Hs). exists k, n. split; [|done].
    by eapply lookup_weaken, l_types.
  - destruct st_print_string0 as (k & Hk & Hs). exists k. split; [|done].
    by eapply lookup_weaken, l_types.
  - intros sp sl Hs. destruct (st_slots0 _ _ Hs) as (t & x & sch & kr & vr & tr & kn & vn & tt & K).
    exists t, x, sch, kr, vr, tr, kn, vn, tt. by eapply slots_ok_later.
Qed.

Lemma agree_refl n (μ : machine) : agree n μ μ.
Proof. by intros r _. Qed.

Lemma agree_trans n m (μ1 μ2 μ3 : machine) : agree n μ1 μ2 → agree m μ2 μ3 → n ≤ m → agree n μ1 μ3.
Proof. intros A1 A2 Hn r Hr. rewrite A2, A1 by lia. done. Qed.

(** Registers that no slot uses may change. *)
Lemma rel_regs s s' σ (μ μ' : machine) :
  static s → tables s' = tables s → rel s σ μ → agree (next_id s) μ μ' → mem μ' = mem μ →
  world μ' = world μ → rel s' σ μ'.
Proof.
  intros S Ht R A Em Ew. unfold tables in Ht. injection Ht as _ Ev Es El _ _.
  assert (HL : ∀ r t, r < next_id s → live μ r t → live μ' r t).
  { intros r t Hr [H1 H2]. split; [by rewrite A|by rewrite Em]. }
  destruct R. split; rewrite ?Ev, ?Es, ?El, ?Ew; auto.
  - intros x r t Hx. destruct (st_var _ S _ _ Hx) as (r' & t' & [= <- <-] & Hr & _).
    destruct (r_var0 _ _ _ Hx) as [H1 H2]. split; [auto|]. unfold holds. by rewrite Em.
  - intros n r t Hx. destruct (st_stack _ S _ _ Hx) as (r' & t' & [= <- <-] & Hr & _). eauto.
  - intros sp sl r t Hs Hin. apply HL; [by eapply slot_below|eauto].
Qed.

(** *** One instruction *)

(** The machine is about to execute the instruction that was just inserted. *)
Lemma step_inserted i s v s' (μ : machine) :
  insert_instr i s = Ok (v, s') → extends s' → at_pc μ s →
  step ss call_runtime P μ = exec ss call_runtime μ (next_id s) i.
Proof.
  intros Ei [Hx _] (b & n & c & Hi & Hb & Eb & Ec).
  destruct (insert_instr_inv _ _ _ _ _ Hi ltac:(by eapply lookup_lt_Some) Ei) as (n1 & c1 & Hb1 & _ & Hb' & _).
  rewrite Hb in Hb1. injection Hb1 as <- <-.
  assert (blocks s' !! b = Some (n, c ++ [(next_id s, i)])) as H2.
  { rewrite Hb'. apply list_lookup_insert_eq. by eapply lookup_lt_Some. }
  destruct (Hx _ _ _ H2) as (n' & c' & Hp). unfold step.
  rewrite Eb, Hp. simpl. rewrite Ec, <- app_assoc. cbn [app]. by rewrite list_lookup_middle.
Qed.

Lemma step_instr i s v s' (μ μ' : machine) :
  insert_instr i s = Ok (v, s') → extends s' → at_pc μ s →
  exec ss call_runtime μ (next_id s) i = Ok (Next μ') → steps μ μ'.
Proof. intros Ei Hx A Ee. apply rtc_once. by rewrite (step_inserted _ _ _ _ _ Ei Hx A). Qed.

Lemma at_pc_next i s v s' (μ : machine) rg m w :
  insert_instr i s = Ok (v, s') → at_pc μ s →
  at_pc (mk_mstate (blk μ) (S (idx μ)) (pred μ) rg m w) s'.
Proof.
  intros Ei (b & n & c & Hi & Hb & Eb & Ec).
  destruct (insert_instr_inv _ _ _ _ _ Hi ltac:(by eapply lookup_lt_Some) Ei) as (n1 & c1 & Hb1 & _ & Hb' & Es).
  rewrite Hb in Hb1. injection Hb1 as <- <-. exists b, n, (c ++ [(next_id s, i)]).
  split_and!; simpl; [by rewrite Es| |done|rewrite length_app; simpl; lia].
  rewrite Hb'. apply list_lookup_insert_eq. by eapply lookup_lt_Some.
Qed.

Lemma insert_next i s v s' : insert_instr i s = Ok (v, s') →
  next_id s' = S (next_id s) ∧ v = Reg (next_id s) (instr_type i) ∧ later s s'.
Proof.
  unfold insert_instr. destruct (insert_block s); [|done]. intros Ei. injection Ei as <- <-.
  split_and!; auto. split; done.
Qed.

(** What an instruction that only computes a register does to the relation. *)
Definition quiet_step (s s' : cstate) (μ μ' : machine) : Prop :=
  steps μ μ' ∧ at_pc μ' s' ∧ agree (next_id s) μ μ' ∧ mem μ' = mem μ ∧ world μ' = world μ ∧ later s s' ∧
  next_id s ≤ next_id s'.

Lemma quiet_step_refl s μ : at_pc μ s → quiet_step s s μ μ.
Proof. intros A. split_and!; auto; [apply rtc_refl|apply agree_refl|reflexivity]. Qed.

Lemma quiet_step_trans s1 s2 s3 μ1 μ2 μ3 :
  quiet_step s1 s2 μ1 μ2 → quiet_step s2 s3 μ2 μ3 → quiet_step s1 s3 μ1 μ3.
Proof.
  intros (S1 & A1 & G1 & M1 & W1 & L1 & N1) (S2 & A2 & G2 & M2 & W2 & L2 & N2). split_and!; auto.
  - etrans; [exact S1|exact S2].
  - by eapply agree_trans.
  - congruence.
  - congruence.
  - by transitivity s2.
  - lia.
Qed.

Lemma quiet_rel s s' σ μ μ' : static s → quiet_step s s' μ μ' → rel s σ μ → rel s' σ μ'.
Proof. intros S (_ & _ & A & M & Wd & Lt & _) R. eapply rel_regs; eauto using l_tables. Qed.

Lemma register_step i s v s' μ x :
  insert_instr i s = Ok (v, s') → extends s' → at_pc μ s →
  exec ss call_runtime μ (next_id s) i = Ok (advance μ (next_id s) x) →
  ∃ μ', quiet_step s s' μ μ' ∧ eval ss (regs μ') v = Some x ∧ type_of v = instr_type i ∧
    below (next_id s') v = true.
Proof.
  intros Ei Hx A Ee. destruct (insert_next _ _ _ _ Ei) as (Hn & -> & Lt).
  eexists. split; [split_and!|split_and!].
  - by eapply step_instr.
  - by eapply at_pc_next.
  - intros r Hr. simpl. by rewrite lookup_insert_ne by lia.
  - done.
  - done.
  - done.
  - lia.
  - simpl. by rewrite lookup_insert_eq.
  - done.
  - simpl. apply bool_decide_eq_true. lia.
Qed.

(** An instruction that the builder may fold. *)
Lemma pure_step i s v s' μ x :
  insert_folded i s = Ok (v, s') → extends s' → at_pc μ s →
  eval_pure ss (regs μ) i = Some x → forallb (below (next_id s)) (operands i) = true →
  ∃ μ', quiet_step s s' μ μ' ∧ eval ss (regs μ') v = Some x ∧ type_of v = instr_type i ∧
    below (next_id s') v = true.
Proof.
  unfold insert_folded. destruct (fold i) as [u|] eqn:F.
  - intros [= <- <-] _ A Ex Hb. exists μ. split_and!; [by apply quiet_step_refl|..].
    + by eapply fold_eval.
    + by apply fold_type.
    + by eapply fold_below.
  - intros Ei Hx A Ex Hb. eapply register_step; [done..|]. simpl.
    destruct i; simpl in Ex |- *; try done; rewrite Ex; done.
Qed.

Lemma slice_whole bs : slice 0 (length bs) bs = bs.
Proof. unfold slice. by rewrite drop_0, firstn_all. Qed.

Lemma load_step p s v s' μ r off t bs x :
  insert_instr (ILoad p) s = Ok (v, s') → extends s' → at_pc μ s →
  eval ss (regs μ) p = Some (RPtr (PStack r off)) → type_of p = TPtr t →
  mem μ !! r = Some bs → off + alloc_size ss t ≤ length bs →
  decode ss t (slice off (alloc_size ss t) bs) = Some x →
  ∃ μ', quiet_step s s' μ μ' ∧ eval ss (regs μ') v = Some x ∧ type_of v = t ∧ below (next_id s') v = true.
Proof.
  intros Ei Hx A Ep Et Em El Ed.
  destruct (register_step _ _ _ _ _ x Ei Hx A) as (μ' & Q & V & Ty & B).
  - simpl. rewrite Ep. simpl. rewrite Em, Et. simpl. rewrite decide_True by done. simpl. by rewrite Ed.
  - exists μ'. rewrite Ty. simpl. by rewrite Et.
Qed.

(** *** Expressions *)

(** From [s] with [μ] the machine gets to [s'], where [v] denotes [val]. *)
Definition yields (s : cstate) (μ : machine) (s' : cstate) (σ' : env E C G) (v : lvalue) (val : value) : Prop :=
  ∃ μ', steps μ μ' ∧ at_pc μ' s' ∧ agree (next_id s) μ μ' ∧ rel s' σ' μ' ∧
    eval ss (regs μ') v = Some (rv val) ∧ res_typed ss (type_of v) val ∧ below (next_id s') v = true.

Definition correct (m : cg lvalue) (ev : env E C G → result (value * env E C G)) : Prop :=
  ∀ s v s' σ val σ' μ, static s → good_types s → m s = Ok (v, s') → extends s' →
    ev σ = Ok (val, σ') → at_pc μ s → rel s σ μ → yields s μ s' σ' v val.

Lemma quiet_yields s s' σ μ μ' v val :
  static s → rel s σ μ → quiet_step s s' μ μ' → eval ss (regs μ') v = Some (rv val) →
  res_typed ss (type_of v) val → below (next_id s') v = true → yields s μ s' σ v val.
Proof.
  intros S R Q V Ty B. exists μ'. pose proof (quiet_rel _ _ _ _ _ S Q R).
  destruct Q as (St & A & Ag & _). split_and!; auto.
Qed.

(** Going on from where an expression got to. *)
Lemma yields_then s1 μ1 s2 μ2 s3 σ v val :
  steps μ1 μ2 → agree (next_id s1) μ1 μ2 → next_id s1 ≤ next_id s2 →
  yields s2 μ2 s3 σ v val → yields s1 μ1 s3 σ v val.
Proof.
  intros St Ag Hn (μ3 & St3 & A3 & Ag3 & H3). exists μ3. split_and!; try apply H3; auto.
  - by etrans.
  - by eapply agree_trans.
Qed.

(** Code with its meaning, and that it is well-behaved code generation. *)
Definition sound (m : cg lvalue) (ev : env E C G → result (value * env E C G)) : Prop :=
  correct m ev ∧ emitter m ∧ keeper m.

(** After a part [m] from [s] to [s1], the rest [m'] leads to [s']. *)
Lemma sound_then (m : cg lvalue) ev s v s1 σ val σ1 μ :
  sound m ev → static s → good_types s → m s = Ok (v, s1) → extends s1 → ev σ = Ok (val, σ1) →
  at_pc μ s → rel s σ μ →
  static s1 ∧ good_types s1 ∧ later s s1 ∧ emits s s1 ∧
  ∃ μ1, steps μ μ1 ∧ at_pc μ1 s1 ∧ agree (next_id s) μ μ1 ∧ next_id s ≤ next_id s1 ∧ rel s1 σ1 μ1 ∧
    eval ss (regs μ1) v = Some (rv val) ∧ res_typed ss (type_of v) val ∧ below (next_id s1) v = true.
Proof.
  intros (Hc & He & Hk) S Gd Em Hx Ee A R.
  destruct (Hk _ _ _ Gd Em) as [G1 L1]. pose proof (He _ _ _ (at_pc_valid _ _ A) Em) as J.
  pose proof (emits_next _ _ J). split_and!; auto; [by eapply static_later|].
  destruct (Hc _ _ _ _ _ _ _ S Gd Em Hx Ee A R) as (μ1 & H1 & H2 & H3 & H4). exists μ1. naive_solver.
Qed.

(** A value computed before a step is there after it. *)
Lemma value_kept n (μ μ' : machine) v x :
  below n v = true → agree n μ μ' → eval ss (regs μ) v = Some x → eval ss (regs μ') v = Some x.
Proof. intros B A V. by rewrite (eval_agree ss n (regs μ)). Qed.

(** **** Branches *)

Lemma rel_tables s s' σ μ : static s → tables s' = tables s → rel s σ μ → rel s' σ μ.
Proof. intros S Ht R. eapply rel_regs; eauto using agree_refl. Qed.

(** A branch to a block that is still empty. *)
Definition jump_to (μ : machine) (b : nat) : machine :=
  mk_mstate b 0 (blk μ) (regs μ) (mem μ) (world μ).

Lemma rel_jump s s' σ μ b : static s → tables s' = tables s → rel s σ μ → rel s' σ (jump_to μ b).
Proof. intros Sta Ht R. eapply rel_regs; [exact Sta|done|exact R|by intros ? _|done|done]. Qed.

Lemma branch_step i s v s1 μ b :
  insert_instr i s = Ok (v, s1) → extends s1 → at_pc μ s →
  exec ss call_runtime μ (next_id s) i = Ok (goto μ b) → steps μ (jump_to μ b).
Proof. intros. by eapply step_instr. Qed.

Lemma at_pc_empty μ b s n :
  insert_block s = Some b → blocks s !! b = Some (n, []) → at_pc (jump_to μ b) s.
Proof. intros Hi Hb. by exists b, n, []. Qed.

Lemma condbr_exec c t f (μ : machine) x r :
  eval ss (regs μ) c = Some (rbool x) →
  exec ss call_runtime μ r (ICondBr c t f) = Ok (goto μ (if x then t else f)).
Proof. intros V. simpl. rewrite V. by destruct x. Qed.

Lemma phi_inv t inc s v s' :
  CreatePHI t inc s = Ok (v, s') → insert_instr (IPhi t inc) s = Ok (v, s').
Proof. unfold CreatePHI, llvm_assert. intros Ec. inv_cg. destruct (forallb _ _); [|done]. by injection E0 as _ <-. Qed.

(** The block of a place. *)
Lemma at_pc_blk μ s b : at_pc μ s → insert_block s = Some b → blk μ = b.
Proof. intros (b' & n & c & Hi & _ & Hb & _) Hi'. congruence. Qed.

(** The choice of a phi between the two edges of a short circuit. *)
Lemma phi_exec t l cl r cr (μ : machine) k x :
  (pred μ = cl ∧ eval ss (regs μ) l = Some x) ∨ (pred μ = cr ∧ cl ≠ cr ∧ eval ss (regs μ) r = Some x) →
  exec ss call_runtime μ k (IPhi t [(l, cl); (r, cr)]) = Ok (advance μ k x).
Proof.
  intros [[Hp V]|(Hp & Hn & V)]; simpl.
  - rewrite decide_True by done. simpl. by rewrite V.
  - rewrite decide_False by congruence. simpl. rewrite decide_True by done. simpl. by rewrite V.
Qed.

(** Code from the block [cur], a terminator, and on in the block [b]: what becomes of the blocks. *)
Lemma leave_facts i s s1 w s2 u s3 cur b :
  emits s s1 → good_types s1 → insert_block s = Some cur → is_terminator i = true →
  Forall (λ t, t < length (blocks s)) (targets i) →
  insert_instr i s1 = Ok (w, s2) → SetInsertPoint b s2 = Ok (u, s3) →
  insert_block s3 = Some b ∧ length (blocks s) ≤ length (blocks s1) ≤ length (blocks s3) ∧
  (∀ b', b' < length (blocks s) → b' ≠ cur → blocks s3 !! b' = blocks s !! b') ∧
  later s1 s3 ∧ good_types s3 ∧ next_id s1 ≤ next_id s3 ∧ loop_ s3 = loop_ s ∧
  (extends s3 → extends s2 ∧ extends s1).
Proof.
  intros J Gd Hc Ti Ht E1 E2.
  destruct (emits_leave _ _ _ _ _ _ _ _ _ J Hc Ti E1 E2 Ht) as (Hi & Hl & Hp & F & _).
  destruct (insert_point_inv _ _ _ _ E2) as (_ & _ & _ & F2 & _).
  destruct (insert_next _ _ _ _ E1) as (Hn & _ & L1).
  destruct (keeper_insert _ _ _ _ Gd E1) as [G2 _].
  destruct (keeper_insert_point _ _ _ _ G2 E2) as [G3 L2].
  destruct (emits_inv _ _ _ J Hc) as (c1 & Hc1 & _ & Lc1 & _ & _ & _ & Ll & _).
  destruct (insert_frame _ _ _ _ _ Hc1 Lc1 E1) as [F1 _].
  { eapply Forall_impl; [exact Ht|]. cbn. lia. }
  split_and!; auto.
  - etrans; [by eapply frame_length|by eapply frame_length].
  - intros b' Hb' Hn'. apply (f_keep _ _ _ F); [done|congruence].
  - by transitivity s2.
  - pose proof (f_next _ _ _ F2). lia.
  - intros X. pose proof (extends_frame _ _ _ F2 X) as X2. split; [done|]. by eapply extends_frame.
Qed.

(** What a new block changes. *)
Lemma create_facts name s b s' :
  create_block name s = Ok (b, s') →
  length (blocks s) ≤ b < length (blocks s') ∧ length (blocks s') = 1 + length (blocks s) ∧
  blocks s' !! b = Some (lit name, []) ∧
  (∀ b', b' < length (blocks s) → blocks s' !! b' = blocks s !! b') ∧
  insert_block s' = insert_block s ∧ next_id s' = next_id s ∧ loop_ s' = loop_ s ∧ later s s' ∧
  (good_types s → good_types s').
Proof.
  intros Ec. assert (K : good_types s → good_types s') by (intros Gd; by destruct (keeper_block _ _ _ _ Gd Ec)).
  injection Ec as <- <-. split_and!; auto; simpl; try (rewrite length_app; simpl; lia).
  - by rewrite list_lookup_middle.
  - intros b' Hb'. by rewrite lookup_app_l.
  - split; done.
Qed.

Lemma create_extends name s b s' : create_block name s = Ok (b, s') → extends s' → extends s.
Proof. intros Ec. destruct (create_block_inv _ _ _ _ Ec) as (_ & _ & _ & _ & F & _). by apply (extends_frame _ _ _ F). Qed.

Lemma create_at_pc name s b s' μ : create_block name s = Ok (b, s') → at_pc μ s → at_pc μ s'.
Proof.
  intros [= <- <-] (b0 & n & c & Hi & Hb & Hm). exists b0, n, c. split_and!; try apply Hm; auto. simpl.
  rewrite lookup_app_l; [done|by eapply lookup_lt_Some].
Qed.

(** **** Memory *)

Lemma store_inv v p s u s' :
  CreateStore v p s = Ok (u, s') →
  type_of p = TPtr (type_of v) ∧ ∃ w, insert_instr (IStore v p) s = Ok (w, s').
Proof.
  unfold CreateStore, llvm_assert. intros Ec. inv_cg. case_bool_decide as Hb; [|done].
  repeat match goal with H : mret _ _ = Ok _ |- _ => injection H as _ <- end. eauto.
Qed.

(** A region after bytes [new] were written at [off]. *)
Definition patched (off : nat) (new bs : list memval) : list memval :=
  take off bs ++ new ++ drop (off + length new) bs.

Lemma patched_length off new bs :
  off + length new ≤ length bs → length (patched off new bs) = length bs.
Proof. intros Hl. unfold patched. rewrite !length_app, length_take, length_drop. lia. Qed.

Lemma patched_whole new bs : length new = length bs → patched 0 new bs = new.
Proof. intros Hl. unfold patched. simpl. rewrite drop_ge by lia. by rewrite app_nil_r. Qed.

Lemma slice_patched off new bs :
  off + length new ≤ length bs → slice off (length new) (patched off new bs) = new.
Proof.
  intros Hl. unfold slice, patched. rewrite drop_app_length' by (rewrite length_take; lia).
  by rewrite take_app_length.
Qed.

Lemma slice_patched_other off new bs o n :
  off + length new ≤ length bs → o + n ≤ off ∨ off + length new ≤ o →
  slice o n (patched off new bs) = slice o n bs.
Proof.
  intros Hl Ho. unfold slice. apply list_eq. intros i.
  destruct (decide (i < n)) as [Hi|]; [|by rewrite !lookup_take_ge by lia].
  rewrite !lookup_take_lt, !lookup_drop by done. unfold patched.
  destruct Ho as [Ho|Ho].
  - rewrite lookup_app_l by (rewrite length_take; lia). by rewrite lookup_take_lt by lia.
  - rewrite lookup_app_r, length_take, Nat.min_l by (rewrite ?length_take; lia).
    rewrite lookup_app_r by lia. rewrite lookup_drop. f_equal. lia.
Qed.

(** A store into a slot. *)
Lemma store_step v p s u s' μ r off t x bs :
  insert_instr (IStore v p) s = Ok (u, s') → extends s' → at_pc μ s →
  eval ss (regs μ) v = Some (rv x) → vtyped ss t x → type_of v = t →
  eval ss (regs μ) p = Some (RPtr (PStack r off)) → mem μ !! r = Some bs →
  off + alloc_size ss t ≤ length bs →
  ∃ μ' new, steps μ μ' ∧ at_pc μ' s' ∧ agree (next_id s) μ μ' ∧ world μ' = world μ ∧
    encode ss t (rv x) = Some new ∧ length new = alloc_size ss t ∧ decode ss t new = Some (rv x) ∧
    mem μ' = <[r := patched off new bs]> (mem μ).
Proof.
  intros Ei Hx A Ev Ht <- Ep Em Hl.
  destruct (encode_typed ss (type_of v) (rv x) m_wf (vtyped_typed _ _ _ Ht)) as (new & He & Hn & Hd).
  exists (mk_mstate (blk μ) (S (idx μ)) (pred μ) (<[next_id s := RUndef]> (regs μ))
            (<[r := patched off new bs]> (mem μ)) (world μ)), new.
  split_and!; [eapply step_instr; [exact Ei|done|done|]|by eapply at_pc_next|..]; try done.
  - simpl. rewrite Ev, Ep. simpl. rewrite He. simpl. rewrite Em. simpl. rewrite decide_True by lia. done.
  - intros k Hk. simpl. by rewrite lookup_insert_ne by lia.
Qed.

(** What a write into a slot does to the variables. *)
Lemma rel_write s s' σ σ' (μ μ' : machine) r new old :
  static s → tables s' = tables s → rel s σ μ → agree (next_id s) μ μ' →
  mem μ !! r = Some old → length new = length old → mem μ' = <[r := new]> (mem μ) →
  world μ' = env_world σ' →
  (∀ x v, vars σ' !! x = Some v →
     match variable_table_ s !! x with
     | Some (Reg r' (TPtr t)) =>
         if decide (r' = r) then vtyped ss t v ∧ decode ss t new = Some (rv v) else vars σ !! x = Some v
     | _ => False
     end) →
  rel s' σ' μ'.
Proof.
  intros Sta Ht R Ag Em Hl Em' Ew Hv. unfold tables in Ht. injection Ht as _ Ev Es El _ _.
  assert (HL : ∀ r t, r < next_id s → live μ r t → live μ' r t).
  { intros r' t Hr [H1 (bs & H2 & H3)]. split; [by rewrite Ag|]. rewrite Em'.
    destruct (decide (r = r')) as [<-|]; [|rewrite lookup_insert_ne by done; eauto].
    rewrite lookup_insert_eq. exists new. split; [done|]. congruence. }
  split; rewrite ?Ev, ?Es, ?El; auto.
  - intros x r' t Hx. destruct (st_var _ Sta _ _ Hx) as (? & ? & [= <- <-] & Hr & _).
    destruct (r_var _ _ _ R _ _ _ Hx) as [H1 H2]. split; [auto|]. intros v Hxv.
    specialize (Hv _ _ Hxv). rewrite Hx in Hv. unfold holds. rewrite Em'.
    case_decide as Hd; [subst r'; rewrite lookup_insert_eq; naive_solver|].
    rewrite lookup_insert_ne by done. by apply H2.
  - intros x v Hx. specialize (Hv _ _ Hx). destruct (variable_table_ s !! x); [done|done].
  - intros n r' t Hx. destruct (st_stack _ Sta _ _ Hx) as (? & ? & [= <- <-] & Hr & _).
    apply HL; [done|]. by eapply r_stack.
  - intros sp sl r' t Hs Hin. apply HL; [by eapply slot_below|by eapply r_slots].
Qed.

(** A variable of the table, unless it is the one written. *)
Lemma rel_var_case s σ μ x v :
  static s → rel s σ μ → vars σ !! x = Some v →
  ∃ r t, variable_table_ s !! x = Some (Reg r (TPtr t)) ∧ live μ r t ∧ holds μ r t v.
Proof.
  intros Sta R Hx. destruct (r_dom _ _ _ R _ _ Hx) as [lv Hlv].
  destruct (st_var _ Sta _ _ Hlv) as (r & t & -> & _). exists r, t.
  destruct (r_var _ _ _ R _ _ _ Hlv) as [H1 H2]. auto.
Qed.

(** The store of a whole variable. *)
Lemma store_var v s u s' σ μ x r t val :
  static s → rel s σ μ → at_pc μ s → extends s' →
  CreateStore v (Reg r (TPtr t)) s = Ok (u, s') → variable_table_ s !! x = Some (Reg r (TPtr t)) →
  eval ss (regs μ) v = Some (rv val) → res_typed ss (type_of v) val →
  ∃ μ', steps μ μ' ∧ at_pc μ' s' ∧ agree (next_id s) μ μ' ∧ rel s' (set_var σ x val) μ'.
Proof.
  intros Sta R A Hx Ec Hv Ev Ty. apply store_inv in Ec as [Et [w Ei]]. injection Et as ->.
  destruct (st_var _ Sta _ _ Hv) as (? & ? & [= <- <-] & Hr & Hn).
  destruct Ty as [[? _]|Ty]; [done|].
  destruct (r_var _ _ _ R _ _ _ Hv) as [[Hp (bs & Hm & Hl)] _].
  destruct (store_step _ _ _ _ _ μ r 0 _ val bs Ei Hx A Ev Ty eq_refl Hp Hm) as
    (μ' & new & St & A' & Ag & Hw & He & Hln & Hd & Hm'); [lia|].
  exists μ'. split_and!; auto. rewrite patched_whole in Hm' by congruence.
  destruct (insert_next _ _ _ _ Ei) as (_ & _ & Lt).
  eapply (rel_write s _ _ _ _ _ r new); [done|apply Lt|exact R|done|exact Hm|congruence|exact Hm'|rewrite Hw; apply R|].
  intros y vy Hy. simpl in Hy. destruct (decide (x = y)) as [<-|Hne].
  - rewrite lookup_insert_eq in Hy. injection Hy as <-. rewrite Hv, decide_True by done. done.
  - rewrite lookup_insert_ne in Hy by done.
    destruct (rel_var_case _ _ _ _ _ Sta R Hy) as (r' & t' & Hy' & _ & _). rewrite Hy'.
    rewrite decide_False; [done|]. intros ->. apply Hne. by eapply st_inj.
Qed.

(** The store of an argument into the stack space of its node. *)
Lemma store_stack v s u s' σ μ n r t val :
  static s → rel s σ μ → at_pc μ s → extends s' →
  CreateStore v (Reg r (TPtr t)) s = Ok (u, s') → stack_table_ s !! n = Some (Reg r (TPtr t)) →
  eval ss (regs μ) v = Some (rv val) → res_typed ss (type_of v) val →
  ∃ μ' new, steps μ μ' ∧ at_pc μ' s' ∧ agree (next_id s) μ μ' ∧ rel s' σ μ' ∧
    regs μ' !! r = Some (RPtr (PStack r 0)) ∧ mem μ' !! r = Some new ∧
    vtyped ss t val ∧ encode ss t (rv val) = Some new ∧ length new = alloc_size ss t.
Proof.
  intros Sta R A Hx Ec Hv Ev Ty. apply store_inv in Ec as [Et [w Ei]]. injection Et as ->.
  destruct (st_stack _ Sta _ _ Hv) as (? & ? & [= <- <-] & Hr & Hn).
  destruct Ty as [[? _]|Ty]; [done|].
  destruct (r_stack _ _ _ R _ _ _ Hv) as [Hp (bs & Hm & Hl)].
  destruct (store_step _ _ _ _ _ μ r 0 _ val bs Ei Hx A Ev Ty eq_refl Hp Hm) as
    (μ' & new & St & A' & Ag & Hw & He & Hln & Hd & Hm'); [lia|].
  exists μ', new. rewrite patched_whole in Hm' by congruence.
  destruct (insert_next _ _ _ _ Ei) as (_ & _ & Lt). split_and!; auto.
  - eapply (rel_write s _ _ _ _ _ r new); [done|apply Lt|exact R|done|exact Hm|congruence|exact Hm'|rewrite Hw; apply R|].
    intros y vy Hy. destruct (rel_var_case _ _ _ _ _ Sta R Hy) as (r' & t' & Hy' & _ & _). rewrite Hy'.
    rewrite decide_False; [done|]. intros ->. by eapply st_sep.
  - by rewrite Ag.
  - rewrite Hm'. apply lookup_insert_eq.
Qed.

(** The element of a struct in memory is replaced by the store of a new one. *)
Lemma decode_patched k n ts i t bs vs new v :
  ss !! k = Some (n, ts) → ts !! i = Some t → length bs = alloc_size ss (TStruct k) →
  decode ss (TStruct k) bs = Some (RAgg vs) → decode ss t new = Some v → length new = alloc_size ss t →
  decode ss (TStruct k) (patched (field_offset ss k i) new bs) = Some (RAgg (<[i := v]> vs)).
Proof.
  intros Hk Ht Hl Hd Hn Hln. pose proof (field_bounds _ _ _ _ _ _ m_wf Hk Ht) as Hb.
  assert (Hp : field_offset ss k i + length new ≤ length bs) by lia.
  apply (decode_struct _ _ _ _ _ _ m_wf Hk Hl) in Hd as [Hvs Hd].
  apply (decode_struct _ _ _ _ _ _ m_wf Hk); [by rewrite patched_length|]. rewrite length_insert. split; [done|].
  intros j t' v' Ht' Hv'. destruct (decide (i = j)) as [<-|Hne].
  - rewrite Ht in Ht'. injection Ht' as <-.
    rewrite list_lookup_insert_eq in Hv' by (rewrite Hvs; by eapply lookup_lt_Some). injection Hv' as <-.
    by rewrite <- Hln, slice_patched.
  - rewrite list_lookup_insert_ne in Hv' by done. rewrite slice_patched_other; [by apply Hd|done|].
    rewrite Hln. apply lookup_lt_Some in Ht as Hi. apply lookup_lt_Some in Ht' as Hj.
    destruct (decide (j < i)); [left|right]; (eapply field_disjoint; [apply m_wf|exact Hk|done|lia|lia]).
Qed.

(** The variables of rows: the type is a struct, and each element is in its place. *)
Lemma holds_row μ r t vs i v :
  holds μ r t (VRow vs) → live μ r t → vs !! i = Some v →
  ∃ k n ts ti bs, t = TStruct k ∧ ss !! k = Some (n, ts) ∧ ts !! i = Some ti ∧ Forall2 (vtyped ss) ts vs ∧
    vtyped ss ti v ∧ mem μ !! r = Some bs ∧ length bs = alloc_size ss t ∧
    decode ss t bs = Some (rv (VRow vs)) ∧
    field_offset ss k i + alloc_size ss ti ≤ length bs ∧
    decode ss ti (slice (field_offset ss k i) (alloc_size ss ti) bs) = Some (rv v).
Proof.
  intros [Ht (bs & Hm & Hd)] [_ (bs' & Hm' & Hl)] Hi. rewrite Hm in Hm'. injection Hm' as <-.
  inversion Ht as [| | |k n ts ? Hk Hvs]; subst.
  destruct (Forall2_lookup_r _ _ _ _ _ Hvs Hi) as (ti & Hti & Hv).
  exists k, n, ts, ti, bs. split_and!; auto.
  - rewrite Hl. eapply field_bounds; eauto using m_wf.
  - simpl in Hd. apply (decode_struct _ _ _ _ _ _ m_wf Hk Hl) in Hd as [_ Hd]. eapply Hd; [done|].
    by rewrite list_lookup_fmap, Hi.
Qed.

(** The address of an element. *)
Lemma gep_step s v s' μ r k n ts i t :
  CreateInBoundsGEP (Reg r (TPtr (TStruct k))) [CInt 32 0; CInt 32 (Z.of_nat i)] s = Ok (v, s') →
  extends s' → at_pc μ s → regs μ !! r = Some (RPtr (PStack r 0)) → r < next_id s →
  ss !! k = Some (n, ts) → ts !! i = Some t →
  ∃ μ', quiet_step s s' μ μ' ∧ eval ss (regs μ') v = Some (RPtr (PStack r (field_offset ss k i))) ∧
    type_of v = TPtr t ∧ below (next_id s') v = true.
Proof.
  intros Ec Hx A Hr Hlt Hk Ht. unfold CreateInBoundsGEP, llvm_assert in Ec. rewrite gets_run in Ec.
  cbn in Ec. unfold mbind at 1, cg_bind at 1 in Ec. cbn in Ec. rewrite Nat2Z.id in Ec.
  destruct (_ ≫= _) as [t'|] eqn:Et; [|done].
  assert (Hi : (Z.of_nat i < 2 ^ 32)%Z) by (pose proof (m_small _ _ _ Hk); apply lookup_lt_Some in Ht; lia).
  assert (Hp : pattern 32 (Z.of_nat i) = Z.of_nat i) by (apply Z.mod_small; lia).
  assert (t' = t) as ->.
  { destruct (struct_types s !! k) as [[n' ts']|] eqn:Ek; [|done]. simpl in Et.
    destruct (ts' !! i) as [t''|] eqn:Ei; simplify_eq/=.
    assert (Hs : struct_types s = struct_types s').
    { unfold insert_folded in Ec. destruct (fold _); [by injection Ec as _ <-|].
      unfold insert_instr in Ec. destruct (insert_block s); [|done]. by injection Ec as _ <-. }
    destruct Hx as [_ Hx]. rewrite Hs in Ek.
    pose proof (prefix_lookup_Some _ _ _ _ Ek Hx) as Hk'. rewrite Hk in Hk'. simplify_eq. congruence. }
  destruct (pure_step _ _ _ _ _ (RPtr (PStack r (field_offset ss k i))) Ec Hx A) as (μ' & Q & V & Ty & B).
  - simpl. rewrite Hr. simpl. rewrite Hp, Nat2Z.id, Hk. simpl. rewrite Ht. simpl. do 3 f_equal. lia.
  - simpl. by rewrite bool_decide_true.
  - by exists μ'.
Qed.

End correct.
