(* ===== verification/ExprCorrect.v ===== *)
(** * ExprCorrect: compiled expressions compute the value of the expression

    For each kind of expression: the code that [get_value] emits leads the machine to the value and
    the variables that the reference semantics gives. *)

From Stdlib Require Import ZArith NArith Ascii String Lia.
From stdpp Require Import base option list strings gmap relations.
From S2P Require Import Prelude Value Attr Schema Ast Visit LLVM CodegenExpr CodegenStmt Compile Machine.
From S2P Require Import Runtime Semantics Shape Typing Simulate.

Section correct.
Context `{L : LLVM} `{LT : !LLVMTyping} `{PL : !PrintLaws} `{T : Target} `{TL : !TargetLaws}
  `{LF : !LLVMFolds}.
Context {E C G : Type} `{FA : FoedusAPI E C} `{RG : Random G} `{RL : !RandomLaws G} `{MM : Module}.
Abbreviation ss := m_structs.
Abbreviation P := m_code.
Abbreviation machine := (mstate (W := World E C G)).
Abbreviation steps := (steps_to (W := World E C G) ss call_runtime P).

(** **** Literals and variables *)

Lemma correct_literal v : correct (value_emitter v) (λ σ, x ← literal v; Ok (x, σ)).
Proof.
  intros s lv s' σ val σ' μ S Gd Ec Hx Ee A R. unfold value_emitter in Ec. unfold literal in Ee.
  destruct (exists_ v); [|done]. destruct (is_int (mvalue v)) eqn:Hi; [|destruct (is_varchar (mvalue v)) eqn:Hv; [|done]].
  - destruct (as_int (mvalue v)) as [z| | | |] eqn:Hz; try done. simpl in Ee. simplify_eq.
    injection Ec as <- <-.
    eapply quiet_yields; [done|done|by apply quiet_step_refl|..]; simpl; [by rewrite pattern_signed| |done].
    right. constructor. apply signed64_range.
  - destruct (as_varchar (mvalue v)) as [str| | | |] eqn:Hz; try done. simpl in Ee.
    case_decide as Hlen; simplify_eq/=. destruct (st_string _ S) as (k & n & Hk & Hs). unfold string_type, cg_lift in Ec.
    unfold mbind at 1, cg_bind at 1 in Ec. cbn [mbind result_bind] in Ec.
    unfold mbind, cg_bind, gets, not_null in Ec. rewrite Hk in Ec. injection Ec as <- <-.
    eapply quiet_yields; [done|done|by apply quiet_step_refl|..]; simpl; [done| |done].
    right. by econstructor.
Qed.

Lemma create_load_inv p s v s' :
  CreateLoad p s = Ok (v, s') → insert_instr (ILoad p) s = Ok (v, s').
Proof. unfold CreateLoad, llvm_assert. intros Ec. inv_cg. destruct (isPointerTy _); [|done]. by injection E0 as _ <-. Qed.

Lemma variable_ref_inv x s v s' :
  variable_ref x s = Ok (v, s') → s' = s ∧ variable_table_ s !! x = Some v.
Proof.
  unfold variable_ref, mbind, cg_bind, gets. destruct (variable_table_ s !! x); [|done].
  by intros [= <- <-].
Qed.

(** Reading a slot. *)
Lemma correct_load s σ μ x r t v val s' :
  static s → rel s σ μ → at_pc μ s → extends s' →
  variable_table_ s !! x = Some (Reg r (TPtr t)) → vars σ !! x = Some val →
  insert_instr (ILoad (Reg r (TPtr t))) s = Ok (v, s') → yields s μ s' σ v val.
Proof.
  intros S R A Hx Hv Hval Ei. destruct (r_var _ _ _ R _ _ _ Hv) as [[Hr (bs & Hm & Hl)] Hh].
  destruct (Hh _ Hval) as [Ht (bs' & Hm' & Hd)]. simplify_eq.
  destruct (load_step _ _ _ _ _ r 0 t bs (rv val) Ei Hx A Hr eq_refl Hm) as (μ' & Q & V & Ty & B);
    [lia|by rewrite <- Hl, slice_whole|].
  apply (quiet_yields _ _ _ _ _ _ _ S R Q V); [right; by rewrite Ty|done].
Qed.

Lemma correct_variable x :
  correct (r ← variable_ref x; CreateLoad r) (λ σ, v ← read_var σ x; Ok (v, σ)).
Proof.
  intros s lv s' σ val σ' μ S Gd Ec Hx Ee A R. inv_cg.
  apply variable_ref_inv in E0 as [-> Hv]. apply create_load_inv in E1.
  unfold read_var in Ee. destruct (vars σ !! x) as [v|] eqn:Hval; [|done]. simpl in Ee. simplify_eq.
  destruct (st_var _ S _ _ Hv) as (r & t & -> & Hr & _). by eapply correct_load.
Qed.

(** **** Operators *)

Lemma bin_inv op a b s v s' :
  CreateBin op a b s = Ok (v, s') → insert_folded (IBin op a b) s = Ok (v, s').
Proof. unfold CreateBin, llvm_assert. intros Ec. inv_cg. destruct (_ && _); [|done]. by injection E0 as _ <-. Qed.

Lemma icmp_inv op a b s v s' :
  CreateICmp op a b s = Ok (v, s') → insert_folded (IICmp op a b) s = Ok (v, s').
Proof. unfold CreateICmp, llvm_assert. intros Ec. inv_cg. destruct (_ && _); [|done]. by injection E0 as _ <-. Qed.

Lemma pattern_add a b : pattern 64 (pattern 64 a + pattern 64 b) = pattern 64 (a + b).
Proof. unfold pattern. by rewrite <- Zplus_mod. Qed.
Lemma pattern_sub a b : pattern 64 (pattern 64 a - pattern 64 b) = pattern 64 (a - b).
Proof. unfold pattern. by rewrite <- Zminus_mod. Qed.
Lemma pattern_mul a b : pattern 64 (pattern 64 a * pattern 64 b) = pattern 64 (a * b).
Proof. unfold pattern. by rewrite <- Zmult_mod. Qed.

Lemma pattern_inj a b : is_i64 a → is_i64 b → (pattern 64 a =? pattern 64 b)%Z = (a =? b)%Z.
Proof.
  intros Ha Hb. destruct (Z.eqb_spec a b) as [->|Hn]; [by apply Z.eqb_refl|].
  apply Z.eqb_neq. intros Ep. apply Hn. rewrite <- (signed_pattern a), <- (signed_pattern b) by done. congruence.
Qed.

Lemma rem_i64 a b : is_i64 a → is_i64 b → b ≠ 0%Z → is_i64 (Z.rem a b).
Proof.
  unfold is_i64, two_63. intros Ha Hb Hn. pose proof (Z.rem_bound_abs a b Hn). lia.
Qed.

(** The instruction of an operator computes what the operator means. *)
Definition op_create (op : Op.operators) : option (lvalue → lvalue → cg lvalue) :=
  match op with
  | Op.PLUS => Some (CreateBin Add) | Op.MINUS => Some (CreateBin Sub)
  | Op.MULTIPLE => Some (CreateBin Mul) | Op.DIVISION => Some (CreateBin SDiv)
  | Op.EQUAL => Some (CreateICmp EQ) | Op.MODULO => Some (CreateBin SRem)
  | Op.LESSTHAN => Some (CreateICmp SLT) | Op.LESSEQUAL => Some (CreateICmp SLE)
  | Op.MORETHAN => Some (CreateICmp SGT) | Op.MOREEQUAL => Some (CreateICmp SGE)
  | Op.NOTEQUAL => Some (CreateICmp NE)
  | Op.CONDITIONAL_AND | Op.CONDITIONAL_OR | Op.NONE => None
  end.

Lemma arith_step op create a b z s la lb v s' μ :
  op_create op = Some create → arith op a b = Ok z → is_i64 a → is_i64 b →
  create la lb s = Ok (v, s') → extends s' → at_pc μ s →
  eval ss (regs μ) la = Some (rv (VInt a)) → eval ss (regs μ) lb = Some (rv (VInt b)) →
  type_of la = i64 → below (next_id s) la = true → below (next_id s) lb = true →
  ∃ μ', quiet_step s s' μ μ' ∧ eval ss (regs μ') v = Some (rv z) ∧ vtyped ss (type_of v) z ∧
    below (next_id s') v = true.
Proof.
  intros Hop Hz Ha Hb Hc Hx A La Lb Ta Ba Bb.
  assert (Hbin : ∀ bop x, create = CreateBin bop → sem_bin bop 64 (pattern 64 a) (pattern 64 b) = Some (pattern 64 x) →
    is_i64 x → z = VInt x → ∃ μ', quiet_step s s' μ μ' ∧ eval ss (regs μ') v = Some (rv z) ∧
      vtyped ss (type_of v) z ∧ below (next_id s') v = true).
  { intros bop x -> Hsem Hi ->. apply bin_inv in Hc.
    destruct (pure_step _ _ _ _ _ (RInt 64 (pattern 64 x)) Hc Hx A) as (μ' & Q & V & Ty & B).
    - simpl. rewrite La, Lb. simpl. by rewrite Hsem.
    - simpl. by rewrite Ba, Bb.
    - exists μ'. split_and!; auto. rewrite Ty. simpl. rewrite Ta. by constructor. }
  assert (Hcmp : ∀ cop x, create = CreateICmp cop → sem_icmp cop 64 (pattern 64 a) (pattern 64 b) = x →
    z = VBool x → ∃ μ', quiet_step s s' μ μ' ∧ eval ss (regs μ') v = Some (rv z) ∧
      vtyped ss (type_of v) z ∧ below (next_id s') v = true).
  { intros cop x -> Hsem ->. apply icmp_inv in Hc.
    destruct (pure_step _ _ _ _ _ (rbool x) Hc Hx A) as (μ' & Q & V & Ty & B).
    - simpl. rewrite La, Lb. simpl. by rewrite Hsem.
    - simpl. by rewrite Ba, Bb.
    - exists μ'. split_and!; auto. rewrite Ty. constructor. }
  destruct op; simpl in Hop, Hz; simplify_eq.
  - eapply Hbin; [done| |apply signed64_range|done]. by rewrite bin_add, pattern_add, pattern_signed.
  - eapply Hbin; [done| |apply signed64_range|done]. by rewrite bin_sub, pattern_sub, pattern_signed.
  - eapply Hbin; [done| |apply signed64_range|done]. by rewrite bin_mul, pattern_mul, pattern_signed.
  - case_decide as Hd; simplify_eq. destruct Hd as [Hn Hq]. eapply Hbin; [done| |exact Hq|done].
    rewrite bin_sdiv; rewrite ?signed_pattern by done; done.
  - eapply Hcmp; [done| |done]. by rewrite cmp_eq, pattern_inj.
  - case_decide as Hd; simplify_eq. destruct Hd as [Hn Hq]. eapply (Hbin SRem (Z.rem a b)); [done| |by apply rem_i64|done].
    rewrite bin_srem; rewrite ?signed_pattern by done; done.
  - eapply Hcmp; [done| |done]. by rewrite cmp_slt, !signed_pattern.
  - eapply Hcmp; [done| |done]. by rewrite cmp_sle, !signed_pattern.
  - eapply Hcmp; [done| |done]. by rewrite cmp_sgt, !signed_pattern.
  - eapply Hcmp; [done| |done]. by rewrite cmp_sge, !signed_pattern.
  - eapply Hcmp; [done| |done]. by rewrite cmp_ne, pattern_inj.
Qed.

Lemma res_int t z : res_typed ss t (VInt z) → t = i64 ∧ is_i64 z.
Proof. intros [[_ ?]|Hv]; [done|]. by inversion Hv. Qed.

Lemma correct_to_i1 lv val b s v s' μ :
  to_i1 lv s = Ok (v, s') → truth val = Ok b → extends s' → at_pc μ s →
  eval ss (regs μ) lv = Some (rv val) → res_typed ss (type_of lv) val → below (next_id s) lv = true →
  ∃ μ', quiet_step s s' μ μ' ∧ eval ss (regs μ') v = Some (rbool b) ∧ type_of v = i1 ∧
    below (next_id s') v = true.
Proof.
  intros Ec Ht Hx A V Ty B. unfold to_i1 in Ec.
  destruct val; simpl in Ht; simplify_eq.
  - apply res_int in Ty as [Ty Hz]. rewrite Ty in Ec. cbn in Ec. apply icmp_inv in Ec.
    destruct (pure_step _ _ _ _ _ (rbool (negb (z =? 0)%Z)) Ec Hx A) as (μ' & Q & V' & Ty' & B').
    + simpl. rewrite V. simpl. rewrite cmp_ne.
      change (pattern 64 0) with (pattern 64 0%Z). rewrite pattern_inj; [done|done|]. unfold is_i64, two_63. lia.
    + simpl. by rewrite B.
    + exists μ'. split_and!; auto.
  - destruct Ty as [[_ ?]|Ty]; [done|]. inversion Ty as [|? H1| |]; subst. rewrite <- H1 in Ec.
    rewrite decide_True in Ec by done. injection Ec as <- <-. exists μ. split_and!; auto.
    by apply quiet_step_refl.
Qed.

Section operators.
Context (gv : Expression → nat → cg lvalue) (ev : Expression → nat → env E C G → result (value * env E C G)).
Context (l r : Expression) (Hl : sound (gv l 0) (ev l 0)) (Hr : sound (gv r 1) (ev r 1)).

Lemma correct_strict op create :
  op_create op = Some create →
  correct (lh ← gv l 0; rh ← gv r 1; create lh rh)
    (λ σ, '(a, σ) ← ev l 0 σ; '(b, σ) ← ev r 1 σ;
          match a, b with VInt a, VInt b => v ← arith op a b; Ok (v, σ) | _, _ => UB end).
Proof.
  intros Hop s v s' σ val σ' μ S Gd Ec Hx Ee A R. inv_cg. rename a into la, a0 into lb. inv_prog.
  destruct v0 as [|x| | |]; try done. destruct v1 as [|y| | |]; try done. inv_bind.
  assert (Hem : ∀ a b, emitter (create a b)) by (intros; destruct op; simplify_eq/=; emitting).
  pose proof Hr as (_ & Her & _). pose proof Hl as (_ & Hel & _).
  assert (V0 : valid_cur s) by by eapply at_pc_valid.
  pose proof (Hel _ _ _ V0 E0) as J1. pose proof (Her _ _ _ (emits_valid _ _ J1) E2) as J2.
  pose proof (Hem _ _ _ _ _ (emits_valid _ _ J2) E3) as J3.
  assert (X2 : extends s1) by by eapply extends_emits. assert (X1 : extends s0) by by eapply extends_emits.
  destruct (sound_then _ _ _ _ _ _ _ _ _ Hl S Gd E0 X1 Hm A R)
    as (S1 & G1 & L1 & _ & μ1 & St1 & A1 & Ag1 & N1 & R1 & V1 & T1 & B1).
  destruct (sound_then _ _ _ _ _ _ _ _ _ Hr S1 G1 E2 X2 Hm0 A1 R1)
    as (S2 & G2 & L2 & _ & μ2 & St2 & A2 & Ag2 & N2 & R2 & V2 & T2 & B2).
  apply res_int in T1 as [T1 I1]. apply res_int in T2 as [T2 I2].
  destruct (arith_step op create x y val _ la lb _ _ μ2 Hop Hm1 I1 I2 E3 Hx A2) as (μ3 & Q & V3 & T3 & B3);
    [by eapply value_kept|done|done|by eapply below_mono|done|].
  eapply (yields_then s μ s1 μ2); [by etrans|by eapply agree_trans|lia|].
  eapply quiet_yields; [exact S2|exact R2|exact Q|done|by right|done].
Qed.
End operators.

Section conditional.
Context (gv : Expression → nat → cg lvalue) (ev : Expression → nat → env E C G → result (value * env E C G)).
Context (l r : Expression) (Hl : sound (gv l 0) (ev l 0)) (Hr : sound (gv r 1) (ev r 1)).

(** The code of an operand of [&&] or [||], as a truth value. *)
Lemma operand_true (m : cg lvalue) e s x s1 v s2 σ val σ1 b μ :
  sound m e → static s → good_types s → m s = Ok (x, s1) → to_i1 x s1 = Ok (v, s2) → extends s2 →
  e σ = Ok (val, σ1) → truth val = Ok b → at_pc μ s → rel s σ μ →
  ∃ μ', steps μ μ' ∧ at_pc μ' s2 ∧ agree (next_id s) μ μ' ∧ rel s2 σ1 μ' ∧
    eval ss (regs μ') v = Some (rbool b) ∧ below (next_id s2) v = true.
Proof.
  intros Hm S Gd E1 E2 Hx Ev Ht A R. pose proof Hm as (_ & He & _).
  pose proof (He _ _ _ (at_pc_valid _ _ A) E1) as J1.
  pose proof (emitter_to_i1 x _ _ _ (emits_valid _ _ J1) E2) as J2.
  destruct (sound_then _ _ _ _ _ _ _ _ _ Hm S Gd E1 ltac:(by eapply extends_emits) Ev A R)
    as (S1 & G1 & _ & _ & μ1 & St1 & A1 & Ag1 & N1 & R1 & V1 & T1 & B1).
  destruct (correct_to_i1 _ _ _ _ _ _ _ E2 Ht Hx A1 V1 T1 B1) as (μ2 & Q & V2 & _ & B2).
  pose proof (quiet_rel _ _ _ _ _ S1 Q R1) as R2. destruct Q as (St2 & A2 & Ag2 & _).
  exists μ2. split_and!; auto; [by etrans|by eapply agree_trans].
Qed.

(** The code of an operand, statically. *)
Lemma operand_code (m : cg lvalue) s x s1 v s2 :
  emitter m → keeper m → valid_cur s → good_types s → m s = Ok (x, s1) → to_i1 x s1 = Ok (v, s2) →
  emits s s2 ∧ good_types s2 ∧ later s s2 ∧ next_id s ≤ next_id s2.
Proof.
  intros He Hk V Gd E1 E2. pose proof (He _ _ _ V E1) as J1. destruct (Hk _ _ _ Gd E1) as [G1 L1].
  pose proof (emitter_to_i1 x _ _ _ (emits_valid _ _ J1) E2) as J2. destruct (keeper_to_i1 x _ _ _ G1 E2) as [G2 L2].
  assert (J : emits s s2) by by eapply emits_trans. split_and!; auto; [by transitivity s1|by apply emits_next].
Qed.

Lemma correct_conditional forAND :
  correct (get_conditional_value gv l r forAND) (eval_cond ev l r forAND).
Proof.
  intros s v s' σ val σ' μ S Gd Ec Hx Ee A R. unfold get_conditional_value in Ec. inv_cg.
  rename a into next, a0 into fin, a2 into lh, a7 into rh.
  unfold eval_cond in Ee. inv_prog. rename r0 into bl.
  destruct (at_pc_valid _ _ A) as (cur & Hc & Lc).
  destruct (create_facts _ _ _ _ E0) as (Bn & Len0 & Hn0 & _ & Hi0 & N0 & _ & L0 & G0).
  destruct (create_facts _ _ _ _ E2) as (Bf & Len1 & Hfin & Keep1 & Hi1 & N1 & _ & L1 & G1).
  specialize (G0 Gd). specialize (G1 G0). assert (A1 : at_pc μ s1) by (eapply create_at_pc; [exact E2|]; by eapply create_at_pc).
  assert (Hcur1 : insert_block s1 = Some cur) by congruence.
  assert (Hnext : blocks s1 !! next = Some (lit "bin_next", [])) by (rewrite Keep1; [done|lia]).
  assert (Ls1 : later s s1) by by transitivity s0.
  pose proof Hl as (_ & Hel & Hkl). pose proof Hr as (_ & Her & Hkr).
  destruct (operand_code _ _ _ _ _ _ Hel Hkl ltac:(exists cur; split; [done|lia]) G1 E1 E3) as (J1 & G3 & L3 & N3).
  destruct (emits_inv _ _ _ J1 Hcur1) as (c3 & Hc3 & _ & Lc3 & M3 & _ & _ & Ll3 & _).
  apply get_insert_block_inv in E5 as [-> Hcb].
  set (i := if forAND then ICondBr lh next fin else ICondBr lh fin next).
  assert (∃ w, insert_instr i s3 = Ok (w, s4)) as [w1 Ew1].
  { destruct forAND; apply condbr_inv in E4 as (_ & w & ?); by exists w. }
  assert (a4 = c3) as -> by (apply insert_kept in Ew1 as [? _]; congruence).
  destruct (leave_facts i _ _ _ _ _ _ _ _ J1 G3 Hcur1 ltac:(by destruct forAND)
    ltac:(destruct forAND; repeat constructor; lia) Ew1 E6) as (Hi6 & Ll6 & Keep6 & L6 & G6 & N6 & _ & X6).
  destruct (operand_code _ _ _ _ _ _ Her Hkr ltac:(exists next; split; [done|lia]) G6 E7 E8) as (J2 & G8 & L8 & N8).
  destruct (emits_inv _ _ _ J2 Hi6) as (c8 & Hc8 & _ & Lc8 & M8 & _ & _ & Ll8 & _).
  apply br_inv in E9 as (w2 & E9). apply get_insert_block_inv in E10 as [-> Hcb2].
  assert (a9 = c8) as -> by (apply insert_kept in E9 as [? _]; congruence).
  destruct (leave_facts (IBr fin) _ _ _ _ _ _ _ _ J2 G8 Hi6 eq_refl ltac:(repeat constructor; lia) E9 E11)
    as (Hi11 & Ll11 & Keep11 & L11 & G11 & N11 & _ & X11).
  assert (Hfin11 : blocks s11 !! fin = Some (lit "bin_fin", [])) by (rewrite Keep11, Keep6 by lia; done).
  apply phi_inv in E13.
  assert (Hx11 : extends s11).
  { eapply extends_frame; [|exact Hx]. eapply insert_frame; [exact Hi11|lia|exact E13|constructor]. }
  destruct (X11 Hx11) as [Hx9 Hx8]. destruct (X6 ltac:(by eapply extends_emits)) as [Hx4 Hx3].
  assert (S1 : static s1) by (eapply static_later; [exact Ls1|lia|done]).
  destruct (operand_true _ _ _ _ _ _ _ _ _ _ _ _ Hl S1 G1 E1 E3 Hx3 Hm Hm0 A1
    ltac:(by eapply rel_tables, R; [|apply Ls1])) as (μ3 & St3 & A3 & Ag3 & R3 & V3 & B3).
  assert (S3 : static s3) by (eapply static_later; [exact L3|lia|done]).
  assert (Hj : steps μ3 (jump_to μ3 (if Bool.eqb bl forAND then next else fin))).
  { eapply branch_step; [exact Ew1|done|done|]. unfold i.
    destruct forAND; rewrite (condbr_exec _ _ _ _ bl) by done; by destruct bl. }
  assert (S6 : static s6) by (eapply static_later; [exact L6|lia|done]).
  assert (S11 : static s11) by (eapply (static_later s6); [by transitivity s8|lia|done]).
  destruct (Bool.eqb bl forAND).
  - (* the right operand decides *)
    inv_prog. rename r0 into br.
    destruct (operand_true _ _ _ _ _ _ _ _ _ _ _ (jump_to μ3 next) Hr S6 G6 E7 E8 Hx8 Hm1 Hm2)
      as (μ8 & St8 & A8 & Ag8 & R8 & V8 & B8).
    { eapply at_pc_empty; [done|]. by rewrite Keep6 by lia. }
    { by eapply (rel_jump s3), R3; [|apply L6]. }
    assert (S8 : static s8) by (eapply static_later; [exact L8|lia|done]).
    destruct (register_step _ _ _ _ (jump_to μ8 fin) (rbool br) E13 Hx) as (μ' & Q & V' & T' & B').
    { by eapply at_pc_empty. }
    { apply phi_exec. right. simpl. split_and!; [by eapply at_pc_blk|lia|done]. }
    eapply (yields_then s μ s11 (jump_to μ8 fin)).
    + etrans; [exact St3|]. etrans; [exact Hj|]. etrans; [exact St8|].
      by eapply branch_step; [exact E9|..].
    + intros k Hk. simpl. rewrite Ag8 by lia. simpl. apply Ag3. lia.
    + lia.
    + eapply quiet_yields; [exact S11| |exact Q|done|right; rewrite T'; constructor|done].
      by eapply (rel_jump s8), R8; [|apply L11].
  - (* the left operand decides *)
    inv_prog.
    destruct (register_step _ _ _ _ (jump_to μ3 fin) (rbool bl) E13 Hx) as (μ' & Q & V' & T' & B').
    { by eapply at_pc_empty. }
    { apply phi_exec. left. simpl. split; [by eapply at_pc_blk|done]. }
    eapply (yields_then s μ s11 (jump_to μ3 fin)).
    + etrans; [exact St3|exact Hj].
    + intros k Hk. simpl. apply Ag3. lia.
    + lia.
    + eapply quiet_yields; [exact S11| |exact Q|done|right; rewrite T'; constructor|done].
      eapply (rel_tables s6); [done|rewrite (l_tables _ _ L11); apply L8|].
      by eapply (rel_jump s3), R3; [|apply L6].
Qed.
End conditional.
(** **** Members and assignments *)

Section members.
Context (member : nid → option (TypeId.type_id * nat)).

Lemma member_ref_inv n x s v s' :
  member_ref member n (VariableReference x) s = Ok (v, s') →
  ∃ lv m, variable_table_ s !! x = Some lv ∧ member n = Some m ∧
    CreateInBoundsGEP lv [CInt 32 0; CInt 32 (Z.of_nat m.2)] s = Ok (v, s').
Proof.
  unfold member_ref. rewrite gets_run. intros Ec. destruct (variable_table_ s !! x) as [lv|]; [|done].
  destruct (member n) as [m|]; [|done]. by exists lv, m.
Qed.

(** The address of a member, where the variable holds a row. *)
Lemma member_address n x s v s' σ μ val :
  static s → rel s σ μ → at_pc μ s → extends s' →
  member_ref member n (VariableReference x) s = Ok (v, s') → read_member member σ n x = Ok val →
  ∃ m r k nm ts t, member n = Some m ∧ variable_table_ s !! x = Some (Reg r (TPtr (TStruct k))) ∧
    ss !! k = Some (nm, ts) ∧ ts !! m.2 = Some t ∧ type_of v = TPtr t ∧
    ∃ μ', quiet_step s s' μ μ' ∧ eval ss (regs μ') v = Some (RPtr (PStack r (field_offset ss k m.2))) ∧
      below (next_id s') v = true.
Proof.
  intros Sta R A Hx Ec Er. apply member_ref_inv in Ec as (lv & m & Hv & Hm & Ec).
  unfold read_member, read_var in Er. rewrite Hm in Er.
  destruct (vars σ !! x) as [y|] eqn:Hy; [|done]. cbn in Er.
  destruct y as [| | | |vs]; try done. destruct (vs !! m.2) as [v'|] eqn:Hi; [|done].
  destruct (st_var _ Sta _ _ Hv) as (r & t & -> & Hr & _).
  destruct (r_var _ _ _ R _ _ _ Hv) as [Hl Hh].
  destruct (holds_row _ _ _ _ _ _ (Hh _ Hy) Hl Hi) as (k & nm & ts & ti & bs & -> & Hk & Hti & _).
  destruct (gep_step _ _ _ _ _ _ _ _ _ _ Ec Hx A (proj1 Hl) Hr Hk Hti) as (μ' & Q & V & Ty & B).
  exists m, r, k, nm, ts, ti. split_and!; auto. eauto.
Qed.

(** Reading a member at its address. *)
Lemma load_member n x s p w s' σ μ val m r k nm ts t :
  static s → rel s σ μ → at_pc μ s → extends s' → CreateLoad p s = Ok (w, s') →
  read_member member σ n x = Ok val → member n = Some m →
  variable_table_ s !! x = Some (Reg r (TPtr (TStruct k))) → ss !! k = Some (nm, ts) → ts !! m.2 = Some t →
  type_of p = TPtr t → eval ss (regs μ) p = Some (RPtr (PStack r (field_offset ss k m.2))) →
  yields s μ s' σ w val.
Proof.
  intros Sta R A Hx Ec Er Hm Hv Hk Ht Ty V. apply create_load_inv in Ec.
  unfold read_member, read_var in Er. rewrite Hm in Er.
  destruct (vars σ !! x) as [y|] eqn:Hy; [|done]. cbn in Er.
  destruct y as [| | | |vs]; try done. destruct (vs !! m.2) as [v'|] eqn:Hi; [|done]. simplify_eq/=.
  destruct (r_var _ _ _ R _ _ _ Hv) as [Hl Hh].
  destruct (holds_row _ _ _ _ _ _ (Hh _ Hy) Hl Hi) as
    (k' & nm' & ts' & ti & bs & [= <-] & Hk' & Hti & _ & Hty & Hb & _ & _ & Hbd & Hd). simplify_eq.
  destruct (load_step _ _ _ _ _ _ _ _ _ _ Ec Hx A V Ty Hb Hbd Hd) as (μ' & Q & V' & Ty' & B').
  eapply quiet_yields; [done|done|exact Q|done|right; by rewrite Ty'|done].
Qed.

Lemma correct_member n x :
  correct (r ← member_ref member n (VariableReference x); CreateLoad r)
    (λ σ, v ← read_member member σ n x; Ok (v, σ)).
Proof.
  intros s w s' σ val σ' μ Sta Gd Ec Hx Ee A R. inv_cg. inv_prog.
  pose proof (emitter_member_ref member n (VariableReference x) _ _ _ (at_pc_valid _ _ A) E0) as J1.
  pose proof (emitter_load a _ _ _ (emits_valid _ _ J1) E1) as J2.
  assert (Hx0 : extends s0) by by eapply extends_emits.
  destruct (member_address _ _ _ _ _ _ _ _ Sta R A Hx0 E0 Hm) as
    (m & r & k & nm & ts & t & Hmm & Hv & Hk & Ht & Ty & μ1 & Q & V & B).
  pose proof (quiet_rel _ _ _ _ _ Sta Q R) as R1. destruct Q as (St & A1 & Ag & _ & _ & Lt & Hn).
  eapply yields_then; [exact St|exact Ag|done|].
  eapply load_member; eauto; [by eapply static_later|]. by rewrite (later_variables _ _ Lt).
Qed.
End members.

(** The store of a member into the variable's row. *)
Lemma store_member v p s u s' σ μ x r k nm ts i t vs val :
  static s → rel s σ μ → at_pc μ s → extends s' → CreateStore v p s = Ok (u, s') →
  variable_table_ s !! x = Some (Reg r (TPtr (TStruct k))) → ss !! k = Some (nm, ts) → ts !! i = Some t →
  type_of p = TPtr t → eval ss (regs μ) p = Some (RPtr (PStack r (field_offset ss k i))) →
  vars σ !! x = Some (VRow vs) → i < length vs → eval ss (regs μ) v = Some (rv val) →
  res_typed ss (type_of v) val →
  ∃ μ', steps μ μ' ∧ at_pc μ' s' ∧ agree (next_id s) μ μ' ∧
    rel s' (set_var σ x (VRow (<[i := val]> vs))) μ'.
Proof.
  intros Sta R A Hx Ec Hv Hk Ht Tp Vp Hy Hi Vv Ty. apply store_inv in Ec as [Et [w Ei]].
  rewrite Tp in Et. injection Et as ->. destruct (r_var _ _ _ R _ _ _ Hv) as [Hl Hh].
  destruct (lookup_lt_is_Some_2 _ _ Hi) as [old Hold].
  destruct (holds_row _ _ _ _ _ _ (Hh _ Hy) Hl Hold) as
    (? & ? & ? & ? & bs & [= <-] & Hk' & Hti & Hvs & Hvo & Hb & Hlb & Hd & Hbd & _). simplify_eq.
  destruct Ty as [[Tv _]|Ty]; [by apply vtyped_not_void in Hvo|].
  destruct (store_step _ _ _ _ _ μ r _ _ val bs Ei Hx A Vv Ty eq_refl Vp Hb Hbd) as
    (μ' & new & St & A' & Ag & Hw & He & Hln & Hdn & Hm').
  exists μ'. split_and!; auto. destruct (insert_next _ _ _ _ Ei) as (_ & _ & Lt).
  eapply (rel_write s _ _ _ _ _ r (patched (field_offset ss k i) new bs));
    [done|apply Lt|exact R|done|exact Hb|apply patched_length; lia|exact Hm'|rewrite Hw; apply R|].
  intros y vy Hvy. simpl in Hvy. destruct (decide (x = y)) as [<-|Hne].
  - rewrite lookup_insert_eq in Hvy. injection Hvy as <-. rewrite Hv, decide_True by done. split.
    + econstructor; [exact Hk|]. rewrite <- (list_insert_id ts i _ Ht). by apply Forall2_insert.
    + simpl. rewrite list_fmap_insert. eapply decode_patched; eauto.
  - rewrite lookup_insert_ne in Hvy by done.
    destruct (rel_var_case _ _ _ _ _ Sta R Hvy) as (r' & t' & Hy' & _ & _). rewrite Hy'.
    rewrite decide_False; [done|]. intros ->. apply Hne. by eapply st_inj.
Qed.

(** What [Assign::get_value] does once the target is known. *)
Lemma assign_inv gv (target : cg (option lvalue)) e s w s' :
  get_value_assign gv target e s = Ok (w, s') →
  ∃ r s1 v s2 u s3, target s = Ok (Some r, s1) ∧ gv e 1 s1 = Ok (v, s2) ∧
    CreateStore v r s2 = Ok (u, s3) ∧ CreateLoad r s3 = Ok (w, s').
Proof.
  unfold get_value_assign. intros Ec. inv_cg. destruct a as [r|]; [|done].
  match goal with H : not_null _ _ = _ |- _ => injection H as <- <- end. eauto 10.
Qed.

Section assign.
Context (gv : Expression → nat → cg lvalue) (ev : env E C G → result (value * env E C G)).
Context (e : Expression) (He : sound (gv e 1) ev).

Lemma correct_assign_var x :
  correct (get_value_assign gv (r ← variable_ref x; mret (Some r)) e)
    (λ σ, '(v, σ) ← ev σ; Ok (v, set_var σ x v)).
Proof.
  intros s w s' σ val σ' μ Sta Gd Ec Hx Ee A R. apply assign_inv in Ec as (r & s1 & v & s2 & u & s3 & E1 & E2 & E3 & E4).
  inv_cg. apply variable_ref_inv in E0 as [-> Hv]. injection E5 as <- <-. inv_prog.
  pose proof He as (_ & Hem & _). pose proof (Hem _ _ _ (at_pc_valid _ _ A) E2) as J1.
  pose proof (emitter_store _ _ _ _ _ (emits_valid _ _ J1) E3) as J2.
  pose proof (emitter_load _ _ _ _ (emits_valid _ _ J2) E4) as J3.
  assert (Hx3 : extends s3) by by eapply extends_emits. assert (Hx2 : extends s2) by by eapply extends_emits.
  destruct (sound_then _ _ _ _ _ _ _ _ _ He Sta Gd E2 Hx2 Hm A R)
    as (S2 & G2 & L2 & _ & μ2 & St2 & A2 & Ag2 & N2 & R2 & V2 & T2 & B2).
  destruct (st_var _ Sta _ _ Hv) as (r' & t & -> & Hr & _).
  assert (Hv2 : variable_table_ s2 !! x = Some (Reg r' (TPtr t))) by by rewrite (later_variables _ _ L2).
  destruct (store_var _ _ _ _ _ _ x _ _ _ S2 R2 A2 Hx3 E3 Hv2 V2 T2) as (μ3 & St3 & A3 & Ag3 & R3).
  destruct (keeper_store _ _ _ _ _ G2 E3) as [_ L3]. pose proof (emits_next _ _ J2).
  apply create_load_inv in E4. eapply (yields_then _ _ s3 μ3); [by etrans|by eapply agree_trans|lia|].
  eapply correct_load; [|exact R3|done|done| |by apply lookup_insert_eq|exact E4]; [by eapply static_later|].
  by rewrite (later_variables _ _ L3).
Qed.

Lemma write_member_inv member (σ : env E C G) n x v σ' :
  write_member member σ n x v = Ok σ' →
  ∃ m vs, member n = Some m ∧ vars σ !! x = Some (VRow vs) ∧ m.2 < length vs ∧
    σ' = set_var σ x (VRow (<[m.2 := v]> vs)).
Proof.
  unfold write_member, read_var. intros Ew. destruct (vars σ !! x) as [y|] eqn:Hy; [|done]. cbn in Ew.
  destruct (member n) as [m|]; [|done]. destruct y as [| | | |vs]; try done. cbn in Ew. case_decide; simplify_eq.
  by exists m, vs.
Qed.

Lemma correct_assign_member member n x :
  correct (get_value_assign gv (r ← member_ref member n (VariableReference x); mret (Some r)) e)
    (λ σ, _ ← read_member member σ n x; '(v, σ) ← ev σ; σ ← write_member member σ n x v; Ok (v, σ)).
Proof.
  intros s w s' σ val σ' μ Sta Gd Ec Hx Ee A R.
  apply assign_inv in Ec as (q & s1 & v & s2 & u & s3 & E1 & E2 & E3 & E4).
  inv_cg. injection E5 as <- <-. inv_prog.
  pose proof (emitter_member_ref member _ _ _ _ _ (at_pc_valid _ _ A) E0) as J0.
  pose proof He as (_ & Hem & _). pose proof (Hem _ _ _ (emits_valid _ _ J0) E2) as J1.
  pose proof (emitter_store _ _ _ _ _ (emits_valid _ _ J1) E3) as J2.
  pose proof (emitter_load _ _ _ _ (emits_valid _ _ J2) E4) as J3.
  assert (Hx3 : extends s3) by by eapply extends_emits. assert (Hx2 : extends s2) by by eapply extends_emits.
  assert (Hx1 : extends s0) by by eapply extends_emits.
  destruct (member_address _ _ _ _ _ _ _ _ _ Sta R A Hx1 E0 Hm) as
    (m & rg & k & nm & ts & t & Hmm & Hv & Hk & Ht & Ty & μ1 & Q & V & B).
  pose proof (quiet_rel _ _ _ _ _ Sta Q R) as R1. destruct Q as (St1 & A1 & Ag1 & _ & _ & L1 & N1).
  assert (S1 : static s0) by by eapply static_later.
  destruct (keeper_member_ref member _ _ _ _ _ Gd E0) as [G1 _].
  destruct (sound_then _ _ _ _ _ _ _ _ _ He S1 G1 E2 Hx2 Hm0 A1 R1)
    as (S2 & G2 & L2 & _ & μ2 & St2 & A2 & Ag2 & N2 & R2 & V2 & T2 & B2).
  destruct (write_member_inv _ _ _ _ _ _ Hm1) as (m' & vs & Hm' & Hvs & Hlt & ->). simplify_eq.
  assert (Hv2 : variable_table_ s2 !! x = Some (Reg rg (TPtr (TStruct k))))
    by by rewrite (later_variables _ _ L2), (later_variables _ _ L1).
  destruct (store_member _ _ _ _ _ _ _ x _ _ _ _ _ _ _ _ S2 R2 A2 Hx3 E3 Hv2 Hk Ht Ty
    ltac:(by eapply value_kept) Hvs Hlt V2 T2) as (μ3 & St3 & A3 & Ag3 & R3).
  destruct (keeper_store _ _ _ _ _ G2 E3) as [_ L3]. pose proof (emits_next _ _ J2).
  eapply (yields_then _ _ s3 μ3); [etrans; [exact St1|by etrans]| |lia|].
  { eapply agree_trans; [exact Ag1| |done]. by eapply agree_trans. }
  eapply (load_member member n x); [by eapply static_later|exact R3|done|done|exact E4| |exact Hmm| |exact Hk|exact Ht|done|].
  - unfold read_member, read_var. simpl. rewrite lookup_insert_eq, Hmm. simpl. by rewrite list_lookup_insert_eq.
  - by rewrite (later_variables _ _ L3).
  - eapply (value_kept (next_id s2)); [by eapply below_mono|done|]. by eapply value_kept.
Qed.
End assign.

(** **** Rows *)

Lemma res_not_pointer t v : res_typed ss t v → isPointerTy t = false.
Proof. intros [[-> _]|Ht]; [done|]. by inversion Ht. Qed.

Lemma extends_struct s k n ts : extends s → struct_types s !! k = Some (n, ts) → ss !! k = Some (n, ts).
Proof. intros [_ Hp] Hk. by eapply prefix_lookup_Some. Qed.

Lemma insert_value_step agg v i s w s' μ k n ts vs x :
  CreateInsertValue agg v i s = Ok (w, s') → extends s → extends s' → at_pc μ s →
  type_of agg = TStruct k → ss !! k = Some (n, ts) → i < length vs →
  eval ss (regs μ) agg = Some (RAgg vs) → eval ss (regs μ) v = Some x →
  below (next_id s) agg = true → below (next_id s) v = true →
  ts !! i = Some (type_of v) ∧
  ∃ μ', quiet_step s s' μ μ' ∧ eval ss (regs μ') w = Some (RAgg (<[i := x]> vs)) ∧
    type_of w = TStruct k ∧ below (next_id s') w = true.
Proof.
  intros Ec Hx Hx' A Ta Hk Hi Va Vx Ba Bx. unfold CreateInsertValue, llvm_assert in Ec. rewrite gets_run in Ec.
  case_bool_decide as He; [|done]. rewrite Ta in He. simpl in He.
  destruct (struct_types s !! k) as [[n' ts']|] eqn:Ek; [|done]. simpl in He.
  pose proof (extends_struct _ _ _ _ Hx Ek). simplify_eq. split; [done|].
  destruct (pure_step (IInsertValue agg v i) s w s' μ (RAgg (<[i := x]> vs))) as (μ' & Q & V & Ty & B); auto.
  - simpl. rewrite Va, Vx. simpl. by rewrite decide_True.
  - simpl. by rewrite Ba, Bx.
  - exists μ'. split_and!; auto. by rewrite Ty.
Qed.

Section rows.
Context (gv : Expression → nat → cg lvalue) (ev : Expression → nat → env E C G → result (value * env E C G)).

(** The elements of a row are evaluated twice: they must leave everything as it is. *)
Definition repeatable (e : Expression) : Prop := ∀ i, sound (gv e i) (ev e i) ∧
  ∀ s σ μ v σ', static s → rel s σ μ → ev e i σ = Ok (v, σ') → σ' = σ ∧ v ≠ VUnit.

Lemma correct_row_values i es prev s v s' σ vs σ' μ acc k n ts :
  Forall repeatable es → static s → good_types s → row_values gv i es prev s = Ok (v, s') → extends s' →
  eval_list ev i es σ = Ok (vs, σ') → at_pc μ s → rel s σ μ → ss !! k = Some (n, ts) →
  i + length es = length ts → length acc = i → Forall2 (vtyped ss) (take i ts) acc →
  eval ss (regs μ) prev = Some (RAgg ((rv <$> acc) ++ replicate (length es) RUndef)) →
  type_of prev = TStruct k → below (next_id s) prev = true →
  yields s μ s' σ' v (VRow (acc ++ vs)).
Proof.
  intros Hes. revert i prev s v s' σ vs σ' μ acc.
  induction Hes as [|e es He Hes IH]; intros i prev s v s' σ vs σ' μ acc Sta Gd Ec Hx Ee A R Hk Hlen Hacc Hty Vp Tp Bp.
  { injection Ec as <- <-. simplify_eq/=. rewrite app_nil_r in *.
    eapply quiet_yields; [done|done|by apply quiet_step_refl|done| |done].
    right. rewrite Tp. econstructor; [done|]. by rewrite firstn_all2 in Hty by lia. }
  destruct (He i) as [Hs Hp]. cbn [row_values] in Ec. apply cg_bind_Ok in Ec as (probe & s1 & E1 & Ec).
  apply cg_bind_Ok in Ec as (prev' & s3 & E3 & Ec). cbn [eval_list] in Ee. inv_prog.
  destruct (Hp _ _ _ _ _ Sta R Hm) as [-> Hu].
  pose proof Hs as (_ & Hem & Hkp). pose proof (Hem _ _ _ (at_pc_valid _ _ A) E1) as J1.
  match type of E3 with ?m s1 = _ => assert (J3 : emits s1 s3) by
    (apply (ltac:(emitting) : emitter m) in E3; [done|by eapply emits_valid]) end.
  assert (J' : emits s3 s').
  { eapply emitter_row_values; [|by eapply emits_valid|exact Ec]. eapply Forall_impl; [exact Hes|].
    intros ? Hr j. apply (Hr j). }
  assert (Hx3 : extends s3) by by eapply extends_emits. assert (Hx1 : extends s1) by by eapply extends_emits.
  destruct (sound_then _ _ _ _ _ _ _ _ _ Hs Sta Gd E1 Hx1 Hm A R)
    as (S1 & G1 & L1 & _ & μ1 & St1 & A1 & Ag1 & N1 & R1 & V1 & T1 & B1).
  rewrite (res_not_pointer _ _ T1) in E3. apply cg_bind_Ok in E3 as (x & s2 & E2 & E3).
  pose proof (Hem _ _ _ (at_pc_valid _ _ A1) E2) as J2.
  pose proof (emitter_insert_value _ _ _ _ _ _ (emits_valid _ _ J2) E3) as J4.
  assert (Hx2 : extends s2) by by eapply extends_emits.
  destruct (sound_then _ _ _ _ _ _ _ _ _ Hs S1 G1 E2 Hx2 Hm A1 R1)
    as (S2 & G2 & L2 & _ & μ2 & St2 & A2 & Ag2 & N2 & R2 & V2 & T2 & B2).
  assert (Vp2 : eval ss (regs μ2) prev = Some (RAgg ((rv <$> acc) ++ replicate (length (e :: es)) RUndef))).
  { eapply (value_kept (next_id s1)); [by eapply below_mono|done|]. by eapply value_kept. }
  assert (Hi : length acc < length ((rv <$> acc) ++ replicate (length (e :: es)) RUndef))
    by (rewrite length_app, length_fmap; simpl; lia).
  destruct (insert_value_step _ _ _ _ _ _ μ2 _ _ _ _ _ E3 Hx2 Hx3 A2 Tp Hk Hi Vp2 V2
    ltac:(eapply below_mono; [done|lia]) B2) as (Hti & μ3 & Q & V3 & T3 & B3).
  destruct T2 as [[_ ?]|T2]; [done|]. pose proof (quiet_rel _ _ _ _ _ S2 Q R2) as R3.
  destruct Q as (St3 & A3 & Ag3 & _ & _ & L3 & N3).
  destruct (keeper_insert_value _ _ _ _ _ _ G2 E3) as [G3 _].
  eapply (yields_then _ _ s3 μ3); [etrans; [exact St1|by etrans]| |lia|].
  { eapply agree_trans; [exact Ag1| |done]. by eapply agree_trans. }
  rewrite cons_middle, app_assoc.
  eapply (IH (S (length acc)) prev'); [|done|done|done|done|done|done|done| | | | |done|done].
  - by eapply static_later.
  - simpl in Hlen. lia.
  - rewrite length_app. simpl. lia.
  - rewrite (take_S_r _ _ _ Hti). apply Forall2_app; auto.
  - rewrite V3, fmap_app, <- app_assoc. do 2 f_equal. simpl.
    replace (length acc) with (length (rv <$> acc) + 0) by (rewrite length_fmap; lia). by rewrite insert_app_r.
Qed.
End rows.

(** A machine does not notice types. *)
Lemma still_at_pc s s' (μ : machine) : place s' = place s → at_pc μ s → at_pc μ s'.
Proof. intros Hp (b & n & c & Hm). injection Hp as Hb Hi _ _. exists b, n, c. by rewrite Hb, Hi. Qed.

Lemma still_next s s' : place s' = place s → next_id s' = next_id s.
Proof. intros Hp. by injection Hp. Qed.

Lemma correct_row member sp p ev es :
  let gv e i := get_value member sp (p ++ [i]) e in
  Forall (repeatable gv ev) es →
  correct (get_value_row member sp p gv es) (λ σ, '(vs, σ) ← eval_list ev 0 es σ; Ok (VRow vs, σ)).
Proof.
  intros gv Hes s v s' σ val σ' μ Sta Gd Ec Hx Ee A R. unfold get_value_row in Ec.
  apply cg_bind_Ok in Ec as (sign0 & s0 & E0 & Ec). apply cg_bind_Ok in Ec as (sign & s1 & E1 & Ec).
  rewrite gets_run in Ec. destruct (find_struct _ _) as [t|] eqn:Ef; [|done]. inv_prog.
  destruct (keeper_signature member sp p es _ _ _ Gd E0) as [G0 L0].
  destruct (keeper_signature member sp p es _ _ _ G0 E1) as [G1 L1].
  pose proof (still_row_signature member sp p es _ _ _ E0) as P0.
  pose proof (still_row_signature member sp p es _ _ _ E1) as P1. rewrite P0 in P1.
  assert (∃ k, t = TStruct k) as [k ->].
  { unfold find_struct in Ef. destruct (list_find _ _) as [[k ?]|]; [|done]. injection Ef as <-. by exists k. }
  destruct (find_row_struct (λ e i, get_type member sp (p ++ [i]) e) es _ _ _ k
    (Forall_true _ _ (λ e i, typing_get_type member e sp _)) G0 E1 Ef) as (n & ts & Hk & Hlen & _).
  assert (J : emits s1 s').
  { eapply emitter_row_values; [|eapply at_pc_valid, (still_at_pc _ _ _ P1 A)|exact Ec].
    apply Forall_true. intros e i. apply emitter_get_value. }
  pose proof (extends_struct _ _ _ _ (extends_emits _ _ J Hx) Hk) as Hk'.
  eapply (yields_then _ _ s1 μ); [apply rtc_refl|apply agree_refl|by rewrite (still_next _ _ P1)|].
  assert (L2 : later s s1) by by transitivity s0.
  assert (S1 : static s1) by (eapply static_later; [exact L2|by rewrite (still_next _ _ P1)|done]).
  eapply (correct_row_values gv ev 0 es (CUndef (TStruct k)) s1 v s' σ l σ' μ []); eauto; simpl.
  - by eapply still_at_pc.
  - by eapply rel_tables, R; [|apply L2].
  - by rewrite Hk', Hlen.
Qed.

(** **** Function calls *)

Lemma rel_world s s' σ (μ μ' : machine) :
  static s → tables s' = tables s → rel s σ μ → agree (next_id s) μ μ' → mem μ' = mem μ →
  rel s' (set_world σ (world μ')) μ'.
Proof.
  intros Sta Ht R Ag Hm.
  destruct (rel_regs s s' σ μ (mk_mstate (blk μ') (idx μ') (pred μ') (regs μ') (mem μ') (world μ)))
    as [H1 H2 H3 H4]; auto. by split.
Qed.

Lemma call_inv f args s v s' :
  CreateCall f args s = Ok (v, s') → type_of <$> args = param_types f ∧ insert_instr (ICall f args) s = Ok (v, s').
Proof.
  unfold CreateCall, llvm_assert. intros Ec. inv_cg. case_bool_decide; [|done]. by injection E0 as _ <-.
Qed.

(** A call of a function that leaves memory alone. *)
Lemma call_step f args s v s' σ μ xs x w val :
  insert_instr (ICall f args) s = Ok (v, s') → extends s' → static s → rel s σ μ → at_pc μ s →
  mapM (eval ss (regs μ)) args = Some xs → call_runtime (symbol f) xs (mem μ) (world μ) = Ok (x, mem μ, w) →
  x = rv val → res_typed ss (ret_type f) val → yields s μ s' (set_world σ w) v val.
Proof.
  intros Ei Hx Sta R A Hxs Hcall -> Ty. destruct (insert_next _ _ _ _ Ei) as (Hn & -> & Lt).
  set (μ' := mk_mstate (blk μ) (S (idx μ)) (pred μ) (<[next_id s := rv val]> (regs μ)) (mem μ) w).
  assert (Ag : agree (next_id s) μ μ') by (intros r Hr; simpl; by rewrite lookup_insert_ne by lia).
  exists μ'. split_and!; auto.
  - eapply step_instr; [exact Ei|done|done|]. simpl. rewrite Hxs. simpl. by rewrite Hcall.
  - by eapply at_pc_next.
  - by eapply (rel_world s s' σ μ μ'); [|apply Lt|..].
  - apply lookup_insert_eq.
  - simpl. apply bool_decide_eq_true. lia.
Qed.

(** A string in memory. *)
Lemma mapM_bytes str : mapM byte_of (MByte <$> str) = Some str.
Proof. apply mapM_fmap_Some. done. Qed.

Lemma load_string_string (m : memory) str :
  load_string m (PString str 0) (length str) = Some str.
Proof.
  unfold load_string, load_bytes. rewrite decide_True by (rewrite length_fmap, length_app; simpl; lia).
  unfold slice. rewrite drop_0, fmap_app, take_app_length' by (by rewrite length_fmap).
  apply mapM_bytes.
Qed.

Lemma load_bytes_middle (m : memory) r a b c :
  m !! r = Some (a ++ b ++ c) → load_bytes m (PStack r (length a)) (length b) = Some b.
Proof.
  intros Hm. unfold load_bytes. rewrite Hm. simpl. rewrite decide_True by (rewrite !length_app; lia).
  unfold slice. by rewrite drop_app_length, take_app_length.
Qed.

Lemma load_string_struct_stored (m : memory) r str :
  (Z.of_nat (length str) < two_64)%Z →
  m !! r = Some ((MPtr (PString str 0) <$> seq 0 8) ++ (MByte <$> le_split 8 (pattern 64 (Z.of_nat (length str))))) →
  load_string_struct m (PStack r 0) = Some str.
Proof.
  intros Hlen Hm. set (n := pattern 64 (Z.of_nat (length str))) in *.
  pose proof (load_bytes_middle m r [] (MPtr (PString str 0) <$> seq 0 8) _ Hm) as Hp.
  pose proof (load_bytes_middle m r (MPtr (PString str 0) <$> seq 0 8) (MByte <$> le_split 8 n) []) as Hl.
  rewrite app_nil_r in Hl. specialize (Hl Hm). rewrite !length_fmap, length_seq, length_le_split in Hl.
  rewrite length_fmap, length_seq in Hp. simpl length in Hp.
  assert (load_ptr m (PStack r 0) = Some (PString str 0)) as Hq 
    by (unfold load_ptr; rewrite Hp; cbn; by rewrite decide_True).
  assert (load_string m (PStack r 8) 8 = Some (le_split 8 n)) as Hs
    by (unfold load_string; rewrite Hl; apply mapM_bytes).
  unfold load_string_struct. rewrite Hq. cbn [mbind option_bind shift_ptr Nat.add]. rewrite Hs. cbn [mbind option_bind].
  replace (Z.to_nat (le_combine (le_split 8 n))) with (length str); [apply load_string_string|].
  unfold n, pattern. change (2 ^ Z.of_nat 64)%Z with two_64. rewrite Z.mod_small by lia.
  rewrite u64_roundtrip by (unfold is_u64; lia). lia.
Qed.

(** The functions, called with values in registers. *)
Lemma call_print_int z m (w : World E C G) : is_i64 z →
  call_runtime (lit "print_int") [RInt 64 (pattern 64 z)] m w = Ok (RUndef, m, print_int z w).
Proof. intros Hz. unfold call_runtime. rewrite decide_True by done. by rewrite signed_pattern. Qed.

Lemma call_print_string pt m (w : World E C G) str : load_string_struct m pt = Some str →
  call_runtime (lit "print_string") [RPtr pt] m w = Ok (RUndef, m, print_string str w).
Proof.
  intros Hs. unfold call_runtime. rewrite decide_False, decide_True by done. by rewrite Hs.
Qed.

Lemma call_rand a b m (w w' : World E C G) z : is_i64 a → is_i64 b → rand_int a b w = Ok (z, w') →
  call_runtime (lit "rand_int") [RInt 64 (pattern 64 a); RInt 64 (pattern 64 b)] m w =
  Ok (RInt 64 (pattern 64 z), m, w').
Proof.
  intros Ha Hb Hr. unfold call_runtime. rewrite !decide_False, decide_True by done.
  rewrite !signed_pattern by done. by rewrite Hr.
Qed.

Section calls.
Context (sp : list pstep) (p : list nat).
Context (gv : Expression → nat → cg lvalue) (ev : Expression → nat → env E C G → result (value * env E C G)).

Lemma call_args_cons i e es s lvs s' :
  call_args sp p gv i (e :: es) s = Ok (lvs, s') →
  ∃ v s1 a s2 rest, gv e i s = Ok (v, s1) ∧ pass_arg sp p i v s1 = Ok (a, s2) ∧
    call_args sp p gv (S i) es s2 = Ok (rest, s') ∧ lvs = a :: rest.
Proof.
  cbn [call_args]. intros Ec. inv_cg. match goal with H : mret _ _ = _ |- _ => injection H as <- <- end. eauto 10.
Qed.

(** Integer arguments are passed as they are. *)
Lemma int_args i es s lvs s' σ zs σ' μ :
  Forall (λ e, ∀ i, sound (gv e i) (ev e i)) es → static s → good_types s →
  call_args sp p gv i es s = Ok (lvs, s') → extends s' → eval_list ev i es σ = Ok (VInt <$> zs, σ') →
  at_pc μ s → rel s σ μ →
  static s' ∧ next_id s ≤ next_id s' ∧ Forall is_i64 zs ∧
  ∃ μ', steps μ μ' ∧ at_pc μ' s' ∧ agree (next_id s) μ μ' ∧ rel s' σ' μ' ∧
    mapM (eval ss (regs μ')) lvs = Some ((λ z, RInt 64 (pattern 64 z)) <$> zs).
Proof.
  intros Hes. revert i s lvs s' σ zs σ' μ.
  induction Hes as [|e es He Hes IH]; intros i s lvs s' σ zs σ' μ Sta Gd Ec Hx Ee A R.
  { injection Ec as <- <-. destruct zs; simplify_eq/=. split_and!; auto.
    exists μ. split_and!; auto using agree_refl. apply rtc_refl. }
  specialize (He i). apply call_args_cons in Ec as (a & s0 & arg & s1 & rest & E0 & E2 & E3 & ->).
  cbn [eval_list] in Ee. inv_prog. destruct zs as [|z zs]; simplify_eq/=.
  pose proof He as (_ & Hem & Hkp). pose proof (Hem _ _ _ (at_pc_valid _ _ A) E0) as J1.
  pose proof (emitter_pass_arg sp p i a _ _ _ (emits_valid _ _ J1) E2) as J2.
  assert (J3 : emits s1 s').
  { eapply emitter_call_args; [|by eapply emits_valid|exact E3]. eapply Forall_impl; [exact Hes|].
    intros ? Hs j. apply (Hs j). }
  assert (Hx1 : extends s1) by by eapply extends_emits. assert (Hx0 : extends s0) by by eapply extends_emits.
  destruct (sound_then _ _ _ _ _ _ _ _ _ He Sta Gd E0 Hx0 Hm A R)
    as (S1 & G1 & L1 & _ & μ1 & St1 & A1 & Ag1 & N1 & R1 & V1 & T1 & B1).
  apply res_int in T1 as [T1 Hz]. unfold pass_arg in E2. rewrite T1 in E2. injection E2 as <- <-.
  destruct (IH _ _ _ _ _ _ _ _ S1 G1 E3 Hx Hm0 A1 R1) as (S2 & N2 & Hzs & μ2 & St2 & A2 & Ag2 & R2 & V2).
  split_and!; auto; [lia|]. exists μ2. split_and!; auto; [by etrans|by eapply agree_trans|].
  change (mapM (eval ss (regs μ2)) (a :: rest) = Some ((λ z, RInt 64 (pattern 64 z)) <$> (z :: zs))).
  apply mapM_Some. constructor; [exact (value_kept _ _ _ _ _ B1 Ag2 V1)|by apply mapM_Some].
Qed.

(** A string argument is stored in the stack space of its node and passed by its address. *)
Lemma string_arg e s lvs s' σ str σ' μ k :
  sound (gv e 0) (ev e 0) → static s → good_types s →
  call_args sp p gv 0 [e] s = Ok (lvs, s') → extends s' → eval_list ev 0 [e] σ = Ok ([VStr str], σ') →
  at_pc μ s → rel s σ μ → type_of <$> lvs = [TPtr k] →
  static s' ∧ next_id s ≤ next_id s' ∧
  ∃ μ' r, steps μ μ' ∧ at_pc μ' s' ∧ agree (next_id s) μ μ' ∧ rel s' σ' μ' ∧
    mapM (eval ss (regs μ')) lvs = Some [RPtr (PStack r 0)] ∧
    load_string_struct (mem μ') (PStack r 0) = Some str.
Proof.
  intros He Sta Gd Ec Hx Ee A R Ty. apply call_args_cons in Ec as (a & s0 & arg & s1 & rest & E0 & E2 & E3 & ->).
  injection E3 as <- <-.
  cbn [eval_list] in Ee. inv_prog.
  pose proof He as (_ & Hem & Hkp). pose proof (Hem _ _ _ (at_pc_valid _ _ A) E0) as J1.
  pose proof (emitter_pass_arg sp p 0 a _ _ _ (emits_valid _ _ J1) E2) as J2.
  assert (Hx0 : extends s0) by by eapply extends_emits.
  destruct (sound_then _ _ _ _ _ _ _ _ _ He Sta Gd E0 Hx0 Hm A R)
    as (S1 & G1 & L1 & _ & μ1 & St1 & A1 & Ag1 & N1 & R1 & V1 & T1 & B1).
  pose proof (emits_next _ _ J2). destruct (keeper_pass_arg sp p 0 a _ _ _ G1 E2) as [_ L2].
  assert (∃ j nm, type_of a = TStruct j ∧ ss !! j = Some (nm, [i8ptr; i64]) ∧ (Z.of_nat (length str) < two_64)%Z)
    as (j & nm & Ta & Hj & Hlen).
  { destruct T1 as [[_ ?]|T1]; [done|]. inversion T1; subst; eauto. }
  unfold pass_arg in E2. rewrite Ta in E2. cbn [isIntegerTy isStructTy] in E2. rewrite gets_run in E2.
  destruct (stack_table_ s0 !! _) as [lv|] eqn:Hs; [|done].
  change ((_ ← CreateStore a lv; mret lv) s0 = Ok (arg, s1)) in E2. apply cg_bind_Ok in E2 as (u & s2 & E5 & E2).
  injection E2 as <- <-.
  destruct (st_stack _ S1 _ _ Hs) as (r & t & -> & Hr & _).
  destruct (store_stack _ _ _ _ _ _ _ _ _ _ S1 R1 A1 Hx E5 Hs V1 T1) as
    (μ2 & new & St2 & A2 & Ag2 & R2 & Hreg & Hmem & Hv & Henc & _).
  split_and!; [by eapply static_later|lia|]. exists μ2, r. split_and!; auto; [by etrans|by eapply agree_trans| |].
  - simpl. by rewrite Hreg.
  - apply load_string_struct_stored; [done|]. rewrite Hmem. f_equal.
    apply store_inv in E5 as [[= ->] _]. rewrite Ta in Henc. by eapply encode_string.
Qed.
Lemma call_value_inv f es s v s' :
  get_value_call sp p gv (VariableReference f) es s = Ok (v, s') →
  ∃ fn lvs s1, functions_table_ s !! f = Some fn ∧ call_args sp p gv 0 es s = Ok (lvs, s1) ∧
    type_of <$> lvs = param_types fn ∧ insert_instr (ICall fn lvs) s1 = Ok (v, s').
Proof.
  unfold get_value_call. cbn [callee_name]. unfold find_function. intros Ec. inv_cg.
  match goal with H : mret f _ = _ |- _ => injection H as <- <- end.
  match goal with H : gets _ _ = _ |- _ => injection H as <- <- end.
  destruct (functions_table_ s !! f) as [fn|] eqn:Hf; [|done].
  repeat match goal with H : mret _ _ = _ |- _ => injection H as <- <- end.
  match goal with H : CreateCall _ _ _ = _ |- _ => apply call_inv in H as [? ?] end. eauto 10.
Qed.

(** What a call of the language means, by function. *)
Lemma call_builtin_inv f vs (σ : env E C G) val σ' :
  call_builtin f vs σ = Ok (val, σ') →
  (f = lit "print_int" ∧ ∃ z, vs = [VInt z] ∧ val = VUnit ∧ σ' = set_world σ (print_int z (env_world σ))) ∨
  (f = lit "print_string" ∧ ∃ str, vs = [VStr str] ∧ val = VUnit ∧
    σ' = set_world σ (print_string str (env_world σ))) ∨
  (f = lit "rand" ∧ ∃ a b z w, vs = [VInt a; VInt b] ∧ rand_int a b (env_world σ) = Ok (z, w) ∧
    val = VInt z ∧ σ' = set_world σ w).
Proof.
  unfold call_builtin. repeat case_decide; intros Ec; try done.
  - left. destruct vs as [|[] []]; simplify_eq; eauto 10.
  - right; left. destruct vs as [|[] []]; simplify_eq; eauto 10.
  - right; right. destruct vs as [|[] [|[] []]]; try done. inv_prog. eauto 15.
Qed.

Lemma eval_list_length i es σ vs σ' : eval_list ev i es σ = Ok (vs, σ') → length vs = length es.
Proof.
  revert i σ vs. induction es as [|e es IH]; intros i σ vs Ee; cbn [eval_list] in Ee; [by simplify_eq|].
  inv_prog. simpl. f_equal. by eapply IH.
Qed.

Lemma rand_range a b (w : World E C G) z w' : is_i64 a → is_i64 b → rand_int a b w = Ok (z, w') → is_i64 z.
Proof.
  unfold rand_int, is_i64. intros Ha Hb Er. case_decide as Hab; [|done].
  pose proof (uniform_range a b (random w) Hab). destruct (uniform a b (random w)). simplify_eq/=. lia.
Qed.

Lemma correct_call f es :
  Forall (λ e, ∀ i, sound (gv e i) (ev e i)) es →
  correct (get_value_call sp p gv (VariableReference f) es)
    (λ σ, '(vs, σ) ← eval_list ev 0 es σ; call_builtin f vs σ).
Proof.
  intros Hes s v s' σ val σ' μ Sta Gd Ec Hx Ee A R.
  apply call_value_inv in Ec as (fn & lvs & s1 & Hf & E1 & Ty & E2). inv_prog.
  assert (J1 : emits s s1).
  { eapply emitter_call_args; [|by eapply at_pc_valid|exact E1]. eapply Forall_impl; [exact Hes|].
    intros ? Hs j. apply (Hs j). }
  assert (J2 : emits s1 s') by (by eapply (emitter_insert (ICall fn lvs) eq_refl), E2; eapply emits_valid).
  assert (Hx1 : extends s1) by by eapply extends_emits.
  destruct (call_builtin_inv _ _ _ _ _ Hk) as [(-> & z & -> & -> & ->)|[(-> & str & -> & -> & ->)|(-> & a & b & z & w & -> & Hr & -> & ->)]].
  - rewrite (st_print_int _ Sta) in Hf. injection Hf as <-.
    destruct (int_args 0 es s lvs s1 σ [z] _ μ Hes Sta Gd E1 Hx1 Hm A R) as (S1 & N1 & Hz & μ1 & St1 & A1 & Ag1 & R1 & V1).
    eapply (yields_then _ _ s1 μ1); [done|done|done|].
    eapply call_step; [exact E2|done|done|done|done|exact V1| |reflexivity|by left].
    rewrite <- (r_world _ _ _ R1). apply call_print_int. by inversion Hz.
  - destruct (st_print_string _ Sta) as (k & Hk' & Hf'). rewrite Hf' in Hf. injection Hf as <-.
    destruct es as [|e1 [|]]; try by apply eval_list_length in Hm.
    destruct (string_arg e1 s lvs s1 σ str _ μ k (Forall_inv Hes 0) Sta Gd E1 Hx1 Hm A R Ty)
      as (S1 & N1 & μ1 & r & St1 & A1 & Ag1 & R1 & V1 & Hstr).
    eapply (yields_then _ _ s1 μ1); [done|done|done|].
    eapply call_step; [exact E2|done|done|done|done|exact V1| |reflexivity|by left].
    rewrite <- (r_world _ _ _ R1). by apply call_print_string.
  - rewrite (st_rand _ Sta) in Hf. injection Hf as <-.
    destruct (int_args 0 es s lvs s1 σ [a; b] _ μ Hes Sta Gd E1 Hx1 Hm A R) as (S1 & N1 & Hz & μ1 & St1 & A1 & Ag1 & R1 & V1).
    inversion Hz as [|? ? Ha Hz']; subst. inversion Hz' as [|? ? Hb _]; subst.
    eapply (yields_then _ _ s1 μ1); [done|done|done|].
    eapply call_step; [exact E2|done|done|done|done|exact V1| |reflexivity|right; apply VT_int; exact (rand_range _ _ _ _ _ Ha Hb Hr)].
    apply call_rand; [done|done|]. by rewrite (r_world _ _ _ R1).
Qed.
End calls.

(** *** All expressions *)

(** Expressions that change nothing. *)
Fixpoint pure_expr (e : Expression) : bool :=
  match e with
  | PrimaryExpression _ | VariableReference _ => true
  | BinaryExpression l _ r => pure_expr l && pure_expr r
  | RowLiteral es => forallb pure_expr es
  | MemberReference (VariableReference _) _ => true
  | _ => false
  end.

(** The rows of an expression have elements that change nothing. *)
Fixpoint pure_rows (e : Expression) : bool :=
  match e with
  | PrimaryExpression _ | VariableReference _ | MemberReference _ _ => true
  | BinaryExpression l _ r => pure_rows l && pure_rows r
  | RowLiteral es => forallb pure_expr es
  | FunctionCall _ es => forallb pure_rows es
  | Assign _ v => pure_rows v
  | _ => false
  end.

Section expressions.
Context (member : nid → option (TypeId.type_id * nat)).
Abbreviation get_value := (get_value member).
Abbreviation eval_expr := (eval_expr member).

Lemma sound_get_value sp p e :
  correct (get_value sp p e) (eval_expr sp p e) → sound (get_value sp p e) (eval_expr sp p e).
Proof. intros Hc. split_and!; [done|exact (emitter_get_value member sp p e)|exact (keeper_get_value member sp p e)]. Qed.

Lemma pure_expr_rows e : pure_expr e = true → pure_rows e = true.
Proof.
  induction e as [v|l op r IHl IHr|t IHt|es IHes|es IHes|n|f args _ IHargs|q i IHq _|q n _|t v _ IHv]
    using Expression_rect'; simpl; try done.
  intros [Hl Hr]%andb_prop. by rewrite IHl, IHr.
Qed.

Lemma arith_data op a b v : arith op a b = Ok v → v ≠ VUnit.
Proof. destruct op; simpl; intros Ea ->; try done; by case_decide. Qed.

Lemma literal_data v x : literal v = Ok x → x ≠ VUnit.
Proof. unfold literal. intros El ->. repeat case_match; inv_prog; try done; by case_decide. Qed.

Lemma var_data s σ (μ : machine) x v : static s → rel s σ μ → read_var σ x = Ok v → v ≠ VUnit.
Proof.
  unfold read_var. intros Sta R Er ->. destruct (vars σ !! x) as [v|] eqn:Hx; simplify_eq/=.
  destruct (rel_var_case _ _ _ _ _ Sta R Hx) as (r & t & _ & _ & [Ht _]). by inversion Ht.
Qed.

Lemma member_data s σ (μ : machine) n x v : static s → rel s σ μ → read_member member σ n x = Ok v → v ≠ VUnit.
Proof.
  unfold read_member, read_var. intros Sta R Er ->. destruct (vars σ !! x) as [v|] eqn:Hx; [|done].
  destruct (member n) as [m|]; [|done]. cbn in Er. destruct v as [| | | |vs]; try done.
  destruct (vs !! m.2) as [v|] eqn:Hi; simplify_eq/=.
  destruct (rel_var_case _ _ _ _ _ Sta R Hx) as (r & t & _ & Hl & Hh).
  destruct (holds_row _ _ _ _ _ _ Hh Hl Hi) as (? & ? & ? & ? & ? & _ & _ & _ & _ & Ht & _). by inversion Ht.
Qed.

(** A pure expression leaves the variables and the world alone, and has a value. *)
Lemma pure_eval e : pure_expr e = true → ∀ sp p s σ (μ : machine) v σ', static s → rel s σ μ →
  eval_expr sp p e σ = Ok (v, σ') → σ' = σ ∧ v ≠ VUnit.
Proof.
  induction e as [v|l op r IHl IHr|t IHt|es IHes|es IHes|n|f args _ IHargs|q i IHq _|q n _|t v _ IHv]
    using Expression_rect'; simpl; try done.
  - intros _ sp p s σ μ x σ' _ _ Ee. inv_prog. split; [done|by eapply literal_data].
  - intros [Hl Hr]%andb_prop sp p s σ μ x σ' Sta R Ee.
    assert (Hc : ∀ b, eval_cond (λ e i, eval_expr sp (p ++ [i]) e) l r b σ = Ok (x, σ') → σ' = σ ∧ x ≠ VUnit).
    { intros b Eb. unfold eval_cond in Eb. inv_prog. destruct (IHl Hl _ _ _ _ _ _ _ Sta R Hm) as [-> _].
      destruct (Bool.eqb _ _); inv_prog; [|done]. by destruct (IHr Hr _ _ _ _ _ _ _ Sta R Hm1) as [-> _]. }
    destruct op; try by eapply Hc. all: unfold eval_binary in Ee; inv_prog.
    all: destruct (IHl Hl _ _ _ _ _ _ _ Sta R Hm) as [-> _]; destruct (IHr Hr _ _ _ _ _ _ _ Sta R Hm0) as [-> _].
    all: destruct v; try done; destruct v0; try done; inv_prog; (split; [done|by eapply arith_data]).
  - intros Hes sp p s σ μ x σ' Sta R Ee. inv_prog. split; [|done]. revert Hm. generalize 0.
    revert l. induction IHes as [|e es He _ IH]; intros l i El; cbn [eval_list] in El; [by simplify_eq|].
    simpl in Hes. apply andb_prop in Hes as [H1 H2]. inv_prog.
    destruct (He H1 _ _ _ _ _ _ _ Sta R Hm) as [-> _]. by eapply IH.
  - intros _ sp p s σ μ x σ' Sta R Ee. inv_prog. split; [done|by eapply var_data].
  - intros Hq sp p s σ μ x σ' Sta R Ee. destruct q; try done. inv_prog. split; [done|by eapply member_data].
Qed.

Lemma Forall_when {A : Type} (f : A → bool) (Q : A → Prop) l :
  Forall (λ x, f x = true → Q x) l → forallb f l = true → Forall Q l.
Proof. induction 1; simpl; intros Hf; [constructor|]. apply andb_prop in Hf as [H1 H2]. auto. Qed.

Lemma expression_correct e : pure_rows e = true → ∀ sp p, correct (get_value sp p e) (eval_expr sp p e).
Proof.
  induction e as [v|l op r IHl IHr|t IHt|es IHes|es IHes|n|f args _ IHargs|q i IHq _|q n _|t v _ IHv]
    using Expression_rect'; simpl; try done.
  - intros _ sp p. apply correct_literal.
  - intros [Hl Hr]%andb_prop sp p.
    assert (Sl : sound (get_value sp (p ++ [0]) l) (eval_expr sp (p ++ [0]) l)) by by apply sound_get_value, IHl.
    assert (Sr : sound (get_value sp (p ++ [1]) r) (eval_expr sp (p ++ [1]) r)) by by apply sound_get_value, IHr.
    set (gv e i := get_value sp (p ++ [i]) e). set (ev e i := eval_expr sp (p ++ [i]) e).
    destruct op.
    all: try by apply (correct_strict gv ev l r Sl Sr).
    + by apply (correct_conditional gv ev l r Sl Sr).
    + by apply (correct_conditional gv ev l r Sl Sr).
    + intros s w s' σ val σ' μ _ _ Ec. unfold get_value_binary in Ec. by inv_cg.
  - intros Hes sp p. apply (correct_row member sp p (λ e i, eval_expr sp (p ++ [i]) e)).
    eapply Forall_when; [|exact Hes]. eapply Forall_impl; [exact IHes|].
    intros e He Hp i. split; [|intros; by eapply pure_eval]. by apply sound_get_value, He, pure_expr_rows.
  - intros _ sp p. apply correct_variable.
  - intros Hes sp p. destruct f; try (intros s w s' σ val σ' μ _ _ _ _ Ee; done).
    apply correct_call. eapply Forall_when; [|exact Hes]. eapply Forall_impl; [exact IHargs|].
    intros e He Hp i. by apply sound_get_value, He.
  - intros _ sp p. destruct q; try (intros s w s' σ val σ' μ _ _ _ _ Ee; done). apply correct_member.
  - intros Hv sp p. specialize (IHv Hv sp (p ++ [1])). apply sound_get_value in IHv.
    destruct t as [| | | | |x| | |q n|]; try (intros s w s' σ val σ' μ _ _ _ _ Ee; done).
    + by apply (correct_assign_var (λ e i, get_value sp (p ++ [i]) e) (eval_expr sp (p ++ [1]) v)).
    + destruct q; try (intros s w s' σ val σ' μ _ _ _ _ Ee; done).
      by apply (correct_assign_member (λ e i, get_value sp (p ++ [i]) e) (eval_expr sp (p ++ [1]) v)).
Qed.
End expressions.

End correct.
