(* ===== verification/StmtCorrect.v ===== *)
(** * StmtCorrect: compiled statements do what the statements mean

    The code of each kind of statement leads the machine from a memory that holds the variables
    before the statement to one that holds the variables after it, and changes the world as the
    reference semantics does.  A loop of the reference that ends after finitely many rounds is left
    by the code after the same rounds. *)

From Stdlib Require Import ZArith NArith Ascii String Lia.
From stdpp Require Import base option list strings gmap relations.
From S2P Require Import Prelude Value Attr Schema Ast Visit LLVM CodegenExpr CodegenStmt Compile Machine.
From S2P Require Import Runtime Semantics Shape Typing Simulate ExprCorrect.

(** ** The statements of the reference semantics *)

Definition emit_supported (e : Expression) : bool :=
  match e with
  | RowLiteral es => forallb pure_expr es
  | VariableReference _ => true
  | _ => false
  end.

Section correct.
Context `{L : LLVM} `{LT : !LLVMTyping} `{PL : !PrintLaws} `{T : Target} `{TL : !TargetLaws}
  `{LF : !LLVMFolds}.
Context {E C G : Type} `{FA : FoedusAPI E C} `{RG : Random G} `{RL : !RandomLaws G} `{MM : Module}.
Abbreviation ss := m_structs.
Abbreviation P := m_code.
Abbreviation machine := (mstate (W := World E C G)).
Abbreviation steps := (steps_to (W := World E C G) ss call_runtime P).

(** From [s] with [μ] the machine gets to [s'] with the variables and the world of [σ']. *)
Definition reaches (s : cstate) (μ : machine) (s' : cstate) (σ' : env E C G) : Prop :=
  ∃ μ', steps μ μ' ∧ at_pc μ' s' ∧ agree (next_id s) μ μ' ∧ rel s' σ' μ'.

Definition performs (m : cg unit) (ex : env E C G → result (env E C G)) : Prop :=
  ∀ s u s' σ σ' μ, static s → good_types s → m s = Ok (u, s') → extends s' →
    ex σ = Ok σ' → at_pc μ s → rel s σ μ → reaches s μ s' σ'.

(** Code with its meaning, and that it is well-behaved code generation. *)
Definition faithful (m : cg unit) (ex : env E C G → result (env E C G)) : Prop :=
  performs m ex ∧ emitter m ∧ keeper m.

Lemma reaches_then s1 μ1 s2 μ2 s3 σ :
  steps μ1 μ2 → agree (next_id s1) μ1 μ2 → next_id s1 ≤ next_id s2 → reaches s2 μ2 s3 σ → reaches s1 μ1 s3 σ.
Proof.
  intros St Ag Hn (μ3 & St3 & A3 & Ag3 & R3). exists μ3. split_and!; auto; [by etrans|by eapply agree_trans].
Qed.

Lemma yields_reaches s μ s' σ v val : yields s μ s' σ v val → reaches s μ s' σ.
Proof. intros (μ' & H1 & H2 & H3 & H4 & _). by exists μ'. Qed.

(** A statement at the start of what follows. *)
Lemma faithful_then m ex s u s1 σ σ1 μ :
  faithful m ex → static s → good_types s → m s = Ok (u, s1) → extends s1 → ex σ = Ok σ1 →
  at_pc μ s → rel s σ μ →
  static s1 ∧ good_types s1 ∧ later s s1 ∧ next_id s ≤ next_id s1 ∧
  ∃ μ1, steps μ μ1 ∧ at_pc μ1 s1 ∧ agree (next_id s) μ μ1 ∧ rel s1 σ1 μ1.
Proof.
  intros (Hp & He & Hk) Sta Gd Em Hx Ee A R. destruct (Hk _ _ _ Gd Em) as [G1 L1].
  pose proof (emits_next _ _ (He _ _ _ (at_pc_valid _ _ A) Em)).
  split_and!; auto; [by eapply static_later|]. by eapply Hp.
Qed.

Lemma faithful_ret : faithful (mret tt) (λ σ, Ok σ).
Proof.
  split_and!; [|emitting|keeping]. intros s u s' σ σ' μ Sta Gd Ec Hx Ee A R. injection Ec as <- <-.
  injection Ee as <-. exists μ. split_and!; auto using agree_refl. apply rtc_refl.
Qed.

(** One statement after another. *)
Lemma faithful_seq m1 ex1 m2 ex2 :
  faithful m1 ex1 → faithful m2 ex2 → faithful (_ ← m1; m2) (λ σ, σ ← ex1 σ; ex2 σ).
Proof.
  intros F1 F2. pose proof F1 as (_ & He1 & Hk1). pose proof F2 as (Hp2 & He2 & Hk2).
  split_and!; [|emitting|keeping]. intros s u s' σ σ' μ Sta Gd Ec Hx Ee A R. inv_cg. inv_prog.
  assert (V1 : valid_cur s0) by (eapply emits_valid, He1; [by eapply at_pc_valid|done]).
  assert (Hx1 : extends s0) by (eapply extends_emits, Hx; by eapply He2).
  destruct (faithful_then _ _ _ _ _ _ _ _ F1 Sta Gd E0 Hx1 Hm A R) as (S1 & G1 & L1 & N1 & μ1 & St1 & A1 & Ag1 & R1).
  eapply reaches_then; [exact St1|done|done|]. by eapply Hp2.
Qed.

(** *** Expressions as statements *)

Section simple.
Context (ann : annotations).
Abbreviation member := (member_of ann).
Abbreviation get_value := (get_value member).
Abbreviation eval_expr := (eval_expr member).

(** Asking for a type is not noticed by the machine. *)
Lemma ask_type sp p e s t s' σ (μ : machine) :
  static s → good_types s → get_type member sp p e s = Ok (t, s') → at_pc μ s → rel s σ μ →
  static s' ∧ good_types s' ∧ later s s' ∧ next_id s' = next_id s ∧ at_pc μ s' ∧ rel s' σ μ.
Proof.
  intros Sta Gd Et A R. destruct (keeper_get_type member _ _ _ _ _ _ Gd Et) as [G1 L1].
  pose proof (still_get_type member _ _ _ _ _ _ Et) as Hp. pose proof (still_next _ _ Hp).
  split_and!; auto.
  - eapply static_later; [exact L1|lia|done].
  - by eapply still_at_pc.
  - eapply rel_tables; [exact Sta|apply L1|done].
Qed.

Lemma faithful_let sp x e : pure_rows e = true →
  faithful (codegen_let ann sp x e) (λ σ, '(v, σ) ← eval_expr sp [0] e σ; Ok (set_var σ x v)).
Proof.
  intros He. split_and!; [|apply emitter_let|unfold codegen_let; keeping].
  intros s u s' σ σ' μ Sta Gd Ec Hx Ee A R. unfold codegen_let in Ec.
  apply cg_bind_Ok in Ec as (t & s0 & E0 & Ec). rewrite gets_run in Ec.
  destruct (variable_table_ s0 !! x) as [lv|] eqn:Hv; [|done]. apply cg_bind_Ok in Ec as (v & s1 & E1 & E2). inv_prog.
  destruct (ask_type _ _ _ _ _ _ _ _ Sta Gd E0 A R) as (S0 & G0 & L0 & N0 & A0 & R0).
  pose proof (emitter_get_value _ _ _ _ _ _ _ (at_pc_valid _ _ A0) E1) as J1.
  pose proof (emitter_store _ _ _ _ _ (emits_valid _ _ J1) E2) as J2.
  destruct (sound_then _ _ _ _ _ _ _ _ _ (sound_get_value _ sp [0] e (expression_correct _ e He sp [0])) S0 G0 E1
    ltac:(by eapply extends_emits) Hm A0 R0) as (S1 & G1 & L1 & _ & μ1 & St1 & A1 & Ag1 & N1 & R1 & V1 & T1 & B1).
  destruct (st_var _ S0 _ _ Hv) as (r & t' & -> & _).
  assert (Hv1 : variable_table_ s1 !! x = Some (Reg r (TPtr t'))) by by rewrite (later_variables _ _ L1).
  destruct (store_var _ _ _ _ _ _ x _ _ _ S1 R1 A1 Hx E2 Hv1 V1 T1) as (μ2 & St2 & A2 & Ag2 & R2).
  eapply (reaches_then s μ s1 μ1); [done|by rewrite <- N0|lia|]. by exists μ2.
Qed.
End simple.

(** *** Transactions *)

(** A call whose value is not used. *)
Lemma call_performs f args s v s' σ μ xs x w :
  insert_instr (ICall f args) s = Ok (v, s') → extends s' → static s → rel s σ μ → at_pc μ s →
  mapM (eval ss (regs μ)) args = Some xs → call_runtime (symbol f) xs (mem μ) (world μ) = Ok (x, mem μ, w) →
  reaches s μ s' (set_world σ w).
Proof.
  intros Ei Hx Sta R A Hxs Hcall. destruct (insert_next _ _ _ _ Ei) as (_ & _ & Lt).
  set (μ' := mk_mstate (blk μ) (S (idx μ)) (pred μ) (<[next_id s := x]> (regs μ)) (mem μ) w).
  assert (Ag : agree (next_id s) μ μ') by (intros r Hr; simpl; by rewrite lookup_insert_ne by lia).
  exists μ'. split_and!; auto.
  - eapply step_instr; [exact Ei|done|done|]. simpl. rewrite Hxs. simpl. by rewrite Hcall.
  - by eapply at_pc_next.
  - by eapply (rel_world s s' σ μ μ'); [|apply Lt|..].
Qed.

Lemma call_table_inv name args s v s' :
  Foedus.call_table name args s = Ok (v, s') →
  ∃ f, functions_table_ s !! lit name = Some f ∧ insert_instr (ICall f args) s = Ok (v, s').
Proof.
  unfold Foedus.call_table. rewrite gets_run. intros Ec.
  destruct (functions_table_ s !! lit name) as [f|]; [|done]. exists f. split; [done|].
  by apply call_inv in Ec as [_ ?].
Qed.

Lemma keeper_call_table name args : keeper (Foedus.call_table name args).
Proof. unfold Foedus.call_table. keeping. Qed.

Lemma call_begin m (w : World E C G) :
  call_runtime (lit "begin_xct") [RPtr (PHost HProcArguments)] m w =
  Ok (rbool (begin_xct w).1, m, (begin_xct w).2).
Proof. unfold call_runtime. rewrite !decide_False, decide_True by done. by destruct (begin_xct w). Qed.

Lemma call_precommit m (w : World E C G) :
  call_runtime (lit "precommit_xct") [RPtr (PHost HProcArguments)] m w = Ok (RUndef, m, precommit_xct w).
Proof. unfold call_runtime. by rewrite !decide_False, decide_True by done. Qed.

Lemma faithful_begin : faithful emit_begin_txn (λ σ, Ok (set_world σ (begin_xct (env_world σ)).2)).
Proof.
  pose proof keeper_call_table. split_and!; [|apply begin_txn_emitter|simpl; unfold Foedus.emit_begin_txn; keeping].
  intros s u s' σ σ' μ Sta Gd Ec Hx Ee A R. simpl in Ec. unfold Foedus.emit_begin_txn in Ec. inv_cg. injection E1 as _ <-.
  apply call_table_inv in E0 as (f & Hf & Ei). rewrite (st_begin _ Sta) in Hf. injection Hf as <-. injection Ee as <-.
  eapply call_performs; [exact Ei|done|done|done|done|reflexivity|].
  rewrite <- (r_world _ _ _ R). apply call_begin.
Qed.

Lemma faithful_precommit :
  faithful emit_precommit_txn (λ σ, Ok (set_world σ (precommit_xct (env_world σ)))).
Proof.
  pose proof keeper_call_table. split_and!; [|apply precommit_txn_emitter|simpl; unfold Foedus.emit_precommit_txn; keeping].
  intros s u s' σ σ' μ Sta Gd Ec Hx Ee A R. simpl in Ec. unfold Foedus.emit_precommit_txn in Ec. inv_cg. injection E1 as _ <-.
  apply call_table_inv in E0 as (f & Hf & Ei). rewrite (st_precommit _ Sta) in Hf. injection Hf as <-. injection Ee as <-.
  eapply call_performs; [exact Ei|done|done|done|done|reflexivity|].
  rewrite <- (r_world _ _ _ R). apply call_precommit.
Qed.

(** *** Output *)

Lemma mapM_int_of vs zs : mapM int_of vs = Some zs → vs = VInt <$> zs.
Proof.
  intros Hm. apply mapM_Some in Hm. induction Hm as [|v z vs zs Hv _ IH]; [done|].
  destruct v; simplify_eq/=. done.
Qed.

Lemma emit_size_i64 ts : all_i64 ts → emit_size ts = 8 * length ts.
Proof.
  intros Hts. unfold emit_size. assert (∀ n, fold_left (λ size t, size + (getPrimitiveSizeInBits t + 7) / 8) ts n =
    n + 8 * length ts) as Hf; [|by rewrite Hf].
  induction Hts as [|t ts Ht Hts IH]; intros n; cbn [fold_left length]; [lia|]. rewrite IH, Ht. cbn [getPrimitiveSizeInBits]. change ((64 + 7) / 8) with 8. lia.
Qed.

Lemma length_concat_words zs : length (concat (le_split 8 <$> zs)) = 8 * length zs.
Proof. induction zs as [|z zs IH]; [done|]. cbn [fmap list_fmap concat]. rewrite length_app, length_le_split, IH. simpl. lia. Qed.

(** A row of integers in memory. *)
Lemma int_row_bytes k zs new :
  vtyped ss (TStruct k) (VRow (VInt <$> zs)) → encode ss (TStruct k) (rv (VRow (VInt <$> zs))) = Some new →
  ∃ n ts, ss !! k = Some (n, ts) ∧ all_i64 ts ∧ length ts = length zs ∧
    new = MByte <$> concat (bytes_of_i64 <$> zs) ∧ length new = 8 * length zs.
Proof.
  intros Ht He. inversion Ht as [| | |? n ts ? Hk Hvs]; subst. exists n, ts.
  rewrite Forall2_fmap_r in Hvs. pose proof (Forall2_length _ _ _ Hvs) as Hl.
  assert (Hi : all_i64 ts).
  { clear -Hvs. induction Hvs as [|t z ts' zs' Hv _ IH]; constructor; [|done]. by inversion Hv. }
  assert (Hrv : rv (VRow (VInt <$> zs)) = RAgg (RInt 64 <$> (pattern 64 <$> zs))).
  { simpl. f_equal. by rewrite <- !list_fmap_compose. }
  rewrite Hrv in He. apply (encode_i64_struct _ _ _ _ _ _ Hk Hi) in He; [|by rewrite length_fmap].
  assert (Hb : le_split 8 <$> (pattern 64 <$> zs) = bytes_of_i64 <$> zs) by by rewrite <- list_fmap_compose.
  rewrite He, length_fmap, length_concat_words, length_fmap, Hb. done.
Qed.

Lemma call_emit m (w : World E C G) pt n buff :
  (Z.of_nat n < two_64)%Z → load_bytes m pt n = Some buff →
  call_runtime (lit "__emit_func") [RPtr (PHost HContext); RPtr pt; RInt 64 (pattern 64 (Z.of_nat n))] m w =
  Ok (RUndef, m, emit buff w).
Proof.
  intros Hn Hl. unfold call_runtime. rewrite !decide_False, decide_True by done.
  unfold pattern. change (2 ^ Z.of_nat 64)%Z with two_64. rewrite Z.mod_small, Nat2Z.id by lia. by rewrite Hl.
Qed.

Section emit.
Context (ann : annotations).
Abbreviation member := (member_of ann).
Abbreviation get_value := (get_value member).
Abbreviation get_type := (get_type member).
Abbreviation eval_expr := (eval_expr member).

Lemma insert_value_type agg v i s w s' :
  CreateInsertValue agg v i s = Ok (w, s') → type_of w = type_of agg.
Proof.
  unfold CreateInsertValue, llvm_assert. rewrite gets_run. intros Ec. case_bool_decide; [|done].
  change (insert_folded (IInsertValue agg v i) s = Ok (w, s')) in Ec. unfold insert_folded in Ec.
  destruct (fold _) as [u|] eqn:F; [injection Ec as <- _; by apply fold_type in F|].
  by destruct (insert_next _ _ _ _ Ec) as (_ & -> & _).
Qed.

Lemma row_values_type gv i es prev s v s' : row_values gv i es prev s = Ok (v, s') → type_of v = type_of prev.
Proof.
  revert i prev s. induction es as [|e es IH]; intros i prev s Ec; cbn [row_values] in Ec; [by injection Ec as <- _|].
  apply cg_bind_Ok in Ec as (probe & s1 & _ & Ec). apply cg_bind_Ok in Ec as (prev' & s2 & Ep & Ec).
  rewrite (IH _ _ _ Ec). destruct (isPointerTy _); inv_cg; by eapply insert_value_type.
Qed.

(** The elements of the type that [get_type] gives are those of the value's struct. *)
Lemma emit_elements sp e s v s1 s2 k k2 s3 n n2 ts ts2 :
  emit_supported e = true → good_types s → get_value sp [0] e s = Ok (v, s1) → good_types s2 → later s1 s2 →
  get_type sp [0] e s2 = Ok (TStruct k2, s3) → extends s3 → type_of v = TStruct k →
  ss !! k = Some (n, ts) → struct_types s3 !! k2 = Some (n2, ts2) → ts2 = ts.
Proof.
  intros He Gd Ev G2 L2 Et Hx Tv Hk Hk2. destruct (keeper_get_type member _ _ _ _ _ _ G2 Et) as [_ L3].
  destruct e as [| | |es| |x| | | |]; try done; cbn [CodegenExpr.get_value CodegenExpr.get_type] in Ev, Et.
  - set (gt e i := get_type sp ([0] ++ [i]) e) in *.
    assert (Hty : Forall (λ e, ∀ i, typing (gt e i)) es) by (apply Forall_true; intros e i; exact (typing_get_type member e sp _)).
    unfold get_value_row in Ev. apply cg_bind_Ok in Ev as (sign0 & sa & E0 & Ev).
    apply cg_bind_Ok in Ev as (sign & sb & E1 & Ev). rewrite gets_run in Ev.
    destruct (find_struct _ _) as [t|] eqn:Ef; [|done]. pose proof (row_values_type _ _ _ _ _ _ _ Ev) as Tv'.
    simpl in Tv'. rewrite Tv in Tv'. subst t.
    destruct (keeper_signature member sp [0] es _ _ _ Gd E0) as [Ga La].
    destruct (find_row_struct gt es _ _ _ k Hty Ga E1 Ef) as (n' & ts' & Hk' & _ & Hel).
    destruct (keeper_signature member sp [0] es _ _ _ Ga E1) as [Gb Lb].
    assert (Lv : later sb s1).
    { eapply keeper_row_values; [|exact Gb|exact Ev]. apply Forall_true. intros e i. exact (keeper_get_value member sp _ e). }
    assert (Lc : later sb s3) by (transitivity s1; [done|by transitivity s2]).
    pose proof (extends_struct _ _ _ _ Hx (prefix_lookup_Some _ _ _ _ Hk' (l_structs _ _ Lc))) as Hk''. simplify_eq.
    destruct (type_row_struct gt es _ _ _ Hty G2 Et) as (? & ? & ts3 & [= <-] & Hk3 & _ & Hel3). simplify_eq.
    rewrite (Hel s3 Lc) in Hel3. by injection Hel3.
  - apply cg_bind_Ok in Ev as (lv & sa & E0 & Ev). apply variable_ref_inv in E0 as [-> Hv].
    apply create_load_inv in Ev. destruct (insert_next _ _ _ _ Ev) as (_ & -> & Lt). cbn in Tv.
    unfold get_type_variable in Et. rewrite gets_run in Et.
    rewrite (later_variables _ _ L2), (later_variables _ _ Lt), Hv in Et. injection Et as Et <-. simplify_eq.
    pose proof (extends_struct _ _ _ _ Hx Hk2). congruence.
Qed.
Lemma emit_supported_rows e : emit_supported e = true → pure_rows e = true.
Proof. by destruct e. Qed.

(** What [Emit::codegen] does, call by call. *)
Lemma emit_inv sp e s u s' :
  codegen_emit ann sp e s = Ok (u, s') →
  ∃ t s0 v s1 stack u1 s2 k s3 n ts from s4 f w,
    get_type sp [0] e s = Ok (t, s0) ∧ get_value sp [0] e s0 = Ok (v, s1) ∧
    stack_table_ s !! (sp, []) = Some stack ∧ CreateStore v stack s1 = Ok (u1, s2) ∧
    get_type sp [0] e s2 = Ok (TStruct k, s3) ∧ struct_types s3 !! k = Some (n, ts) ∧
    CreateBitCast stack i8ptr s3 = Ok (from, s4) ∧ functions_table_ s2 !! lit "__emit_func" = Some f ∧
    insert_instr (ICall f [CHost HContext; from; CInt 64 (Z.of_nat (emit_size ts))]) s4 = Ok (w, s').
Proof.
  unfold codegen_emit. rewrite gets_run. intros Ec. apply cg_bind_Ok in Ec as (t & s0 & E0 & Ec).
  destruct (isStructTy t); [|done]. apply cg_bind_Ok in Ec as (v & s1 & E1 & Ec).
  apply cg_bind_Ok in Ec as (stack & sx & Ex & Ec). destruct (stack_table_ s !! (sp, [])) as [lv|]; [|done].
  injection Ex as <- <-. apply cg_bind_Ok in Ec as (u1 & s2 & E2 & Ec). rewrite gets_run in Ec.
  apply cg_bind_Ok in Ec as (t3 & s3 & E3 & Ec). rewrite gets_run in Ec. destruct t3 as [| | | | |k]; try done.
  destruct (struct_types s3 !! k) as [[n ts]|] eqn:Hk; [|done]. apply cg_bind_Ok in Ec as (ts' & sx & Ex & Ec).
  injection Ex as <- <-. apply cg_bind_Ok in Ec as (from & s4 & E4 & Ec).
  apply cg_bind_Ok in Ec as (f & sx & Ex & Ec). destruct (functions_table_ s2 !! _) as [f'|] eqn:Hf; [|done].
  injection Ex as <- <-. apply cg_bind_Ok in Ec as (w & s5 & E5 & Ec). injection Ec as _ <-.
  apply call_inv in E5 as [_ E5]. do 15 eexists. split_and!; eauto.
Qed.

Lemma bitcast_step v s w s' μ t x :
  CreateBitCast v t s = Ok (w, s') → extends s' → at_pc μ s → eval ss (regs μ) v = Some x →
  below (next_id s) v = true →
  ∃ μ', quiet_step s s' μ μ' ∧ eval ss (regs μ') w = Some x ∧ below (next_id s') w = true.
Proof.
  unfold CreateBitCast, llvm_assert. intros Ec Hx A V B. case_decide.
  { injection Ec as <- <-. exists μ. split_and!; auto. by apply quiet_step_refl. }
  destruct (isPointerTy _ && _); [|done]. change (insert_folded (IBitCast v t) s = Ok (w, s')) in Ec.
  destruct (pure_step _ _ _ _ _ x Ec Hx A) as (μ' & Q & V' & _ & B'); [done|by simpl; rewrite B|]. by exists μ'.
Qed.

(** The call that hands the row over, once it is in its stack space. *)
Lemma emit_call s r k n ts zs from s4 w s' σ μ :
  static s → rel s σ μ → at_pc μ s → extends s4 → extends s' → r < next_id s →
  regs μ !! r = Some (RPtr (PStack r 0)) → mem μ !! r = Some (MByte <$> concat (bytes_of_i64 <$> zs)) →
  ss !! k = Some (n, ts) → all_i64 ts → length ts = length zs →
  CreateBitCast (Reg r (TPtr (TStruct k))) i8ptr s = Ok (from, s4) →
  insert_instr (ICall (mk_function (lit "__emit_func") TVoid [i64ptr; i8ptr; i64])
    [CHost HContext; from; CInt 64 (Z.of_nat (emit_size ts))]) s4 = Ok (w, s') →
  reaches s μ s' (set_world σ (emit (MByte <$> concat (bytes_of_i64 <$> zs)) (env_world σ))).
Proof.
  intros Sta R A Hx4 Hx Hr Hreg Hmem Hk Hi Hlen E4 E5.
  destruct (bitcast_step _ _ _ _ μ _ (RPtr (PStack r 0)) E4 Hx4 A) as (μ4 & Q & V & B); [done|by apply bool_decide_eq_true|].
  pose proof (quiet_rel _ _ _ _ _ Sta Q R) as R4. destruct Q as (St & A4 & Ag & Hm4 & Hw & Lt & Hn).
  eapply reaches_then; [exact St|done|exact Hn|].
  eapply call_performs; [exact E5|done|by eapply static_later|done|done| |].
  - apply mapM_Some. repeat constructor. exact V.
  - rewrite <- (r_world _ _ _ R4). apply call_emit.
    + rewrite (emit_size_i64 _ Hi). pose proof (m_small _ _ _ Hk). unfold two_64. lia.
    + rewrite Hm4. unfold load_bytes. rewrite Hmem. cbn [mbind option_bind].
      assert (Hl : length (MByte <$> concat (bytes_of_i64 <$> zs)) = emit_size ts).
      { rewrite length_fmap, (emit_size_i64 _ Hi), Hlen. unfold bytes_of_i64.
        rewrite (list_fmap_compose (λ z, z mod two_64)%Z (le_split 8)), length_concat_words, length_fmap. done. }
      rewrite decide_True by lia. by rewrite <- Hl, slice_whole.
Qed.

Lemma faithful_emit sp e : emit_supported e = true →
  faithful (codegen_emit ann sp e) (λ σ, '(v, σ) ← eval_expr sp [0] e σ; emit_row v σ).
Proof.
  intros He. split_and!; [|apply emitter_emit|unfold codegen_emit; keeping].
  intros s u s' σ σ' μ Sta Gd Ec Hx Ee A R.
  apply emit_inv in Ec as (t & s0 & v & s1 & stack & u1 & s2 & k & s3 & n & ts & from & s4 & f & w & E0 & E1 & Hst & E2 & E3 & Hk & E4 & Hf & E5).
  inv_prog.
  destruct (ask_type _ _ _ _ _ _ _ _ _ Sta Gd E0 A R) as (S0 & G0 & L0 & N0 & A0 & R0).
  pose proof (emitter_get_value _ _ _ _ _ _ _ (at_pc_valid _ _ A0) E1) as J1.
  pose proof (emitter_store _ _ _ _ _ (emits_valid _ _ J1) E2) as J2.
  pose proof (emitter_get_type _ _ _ _ _ _ _ (emits_valid _ _ J2) E3) as J3.
  pose proof (emitter_bitcast _ _ _ _ _ (emits_valid _ _ J3) E4) as J4.
  pose proof (emitter_insert (ICall f _) eq_refl _ _ _ (emits_valid _ _ J4) E5) as J5.
  assert (Hx4 : extends s4) by by eapply extends_emits. assert (Hx3 : extends s3) by by eapply extends_emits.
  assert (Hx2 : extends s2) by by eapply extends_emits. assert (Hx1 : extends s1) by by eapply extends_emits.
  destruct (sound_then _ _ _ _ _ _ _ _ _ (sound_get_value _ sp [0] e
    (expression_correct _ e (emit_supported_rows e He) sp [0])) S0 G0 E1 Hx1 Hm A0 R0)
    as (S1 & G1 & L1 & _ & μ1 & St1 & A1 & Ag1 & N1 & R1 & V1 & T1 & B1).
  destruct v0 as [| | | |vs]; try done. unfold emit_row in Hk0. destruct (mapM int_of vs) as [zs|] eqn:Hz; [|done].
  apply mapM_int_of in Hz as ->. injection Hk0 as <-.
  assert (Hst1 : stack_table_ s1 !! (sp, []) = Some stack) by by rewrite (later_stack _ _ L1), (later_stack _ _ L0).
  destruct (st_stack _ S1 _ _ Hst1) as (r & t' & -> & Hr & _).
  destruct (store_stack _ _ _ _ _ _ _ _ _ _ S1 R1 A1 Hx2 E2 Hst1 V1 T1) as
    (μ2 & new & St2 & A2 & Ag2 & R2 & Hreg & Hmem & Hvt & Henc & _).
  destruct (keeper_store _ _ _ _ _ G1 E2) as [G2 L2]. pose proof (emits_next _ _ J2) as N2.
  assert (S2 : static s2) by by eapply static_later.
  destruct (ask_type _ _ _ _ _ _ _ _ _ S2 G2 E3 A2 R2) as (S3 & G3 & L3 & N3 & A3 & R3).
  rewrite (st_emit _ S2) in Hf. injection Hf as <-.
  apply store_inv in E2 as [[= ->] _].
  assert (∃ k', type_of v = TStruct k') as [k' Tv] by (inversion Hvt; eauto). rewrite Tv in *.
  destruct (int_row_bytes _ _ _ Hvt Henc) as (n' & ts' & Hk' & Hi & Hlen & -> & _).
  assert (L12 : later s1 s2) by done.
  pose proof (emit_elements sp e s0 v s1 s2 k' k s3 n' n ts' ts He G0 E1 G2 L2 E3 Hx3 Tv Hk' Hk) as ->.
  eapply (reaches_then s μ s3 μ2); [by etrans|by rewrite <- N0; eapply agree_trans|lia|].
  eapply (emit_call s3 r k'); [exact S3|exact R3|done|exact Hx4|done|lia|done|done|exact Hk'|done|done|exact E4|exact E5].
Qed.
End emit.

(** *** Branches *)

(** The machine at the start of a block. *)
Definition at_start (μ : machine) (b : nat) : Prop := blk μ = b ∧ idx μ = 0.

Lemma at_start_pc μ b s n :
  at_start μ b → insert_block s = Some b → blocks s !! b = Some (n, []) → at_pc μ s.
Proof. intros [Hb Hi] Hs Hbl. by exists b, n, []. Qed.

Lemma jump_start μ b : at_start (jump_to μ b) b.
Proof. done. Qed.

(** Code that is generated in a block, a branch that ends the block, and where generation goes on. *)
Lemma block_facts {A : Type} (m : cg A) s u s1 i w s2 c u2 s3 cur :
  emitter m → keeper m → good_types s → insert_block s = Some cur → cur < length (blocks s) → m s = Ok (u, s1) →
  is_terminator i = true → Forall (λ t, t < length (blocks s)) (targets i) →
  insert_instr i s1 = Ok (w, s2) → SetInsertPoint c s2 = Ok (u2, s3) →
  insert_block s3 = Some c ∧ length (blocks s) ≤ length (blocks s3) ∧
  (∀ b', b' < length (blocks s) → b' ≠ cur → blocks s3 !! b' = blocks s !! b') ∧
  later s s3 ∧ good_types s3 ∧ next_id s ≤ next_id s3 ∧ (extends s3 → extends s2 ∧ extends s1).
Proof.
  intros He Hk Gd Hc Hlt Em Ti Ht E1 E2. pose proof (He _ _ _ (ex_intro _ cur (conj Hc Hlt)) Em) as J.
  destruct (Hk _ _ _ Gd Em) as [G1 L1]. pose proof (emits_next _ _ J).
  destruct (leave_facts i _ _ _ _ _ _ _ _ J G1 Hc Ti Ht E1 E2) as (Hi & [Ha Hb] & Keep & L3 & G3 & N3 & _ & X).
  split_and!; auto; [lia|by transitivity s1|lia].
Qed.

Lemma segment_facts m ex s u s1 i w s2 c u2 s3 cur :
  faithful m ex → good_types s → insert_block s = Some cur → cur < length (blocks s) → m s = Ok (u, s1) →
  is_terminator i = true → Forall (λ t, t < length (blocks s)) (targets i) →
  insert_instr i s1 = Ok (w, s2) → SetInsertPoint c s2 = Ok (u2, s3) →
  insert_block s3 = Some c ∧ length (blocks s) ≤ length (blocks s3) ∧
  (∀ b', b' < length (blocks s) → b' ≠ cur → blocks s3 !! b' = blocks s !! b') ∧
  later s s3 ∧ good_types s3 ∧ next_id s ≤ next_id s3 ∧ (extends s3 → extends s2 ∧ extends s1).
Proof. intros (_ & He & Hk). by apply block_facts. Qed.

Lemma segment_run m ex s u s1 b w s2 c u2 s3 σ σ' μ :
  faithful m ex → static s → good_types s → m s = Ok (u, s1) → insert_instr (IBr b) s1 = Ok (w, s2) →
  SetInsertPoint c s2 = Ok (u2, s3) → extends s2 → extends s1 → ex σ = Ok σ' → at_pc μ s → rel s σ μ →
  ∃ μ', steps μ μ' ∧ at_start μ' b ∧ agree (next_id s) μ μ' ∧ ∀ s', tables s' = tables s → rel s' σ' μ'.
Proof.
  intros F Sta Gd Em E1 E2 Hx2 Hx1 Ee A R.
  destruct (faithful_then _ _ _ _ _ _ _ _ F Sta Gd Em Hx1 Ee A R) as (S1 & G1 & L1 & N1 & μ1 & St & A1 & Ag & R1).
  exists (jump_to μ1 b). split_and!; [|done|exact Ag|].
  - etrans; [exact St|]. by eapply branch_step.
  - intros s' Hs'. eapply rel_jump; [exact S1| |exact R1]. by rewrite (l_tables _ _ L1).
Qed.

Lemma if_inv ann sp c mt mf s u s' :
  codegen_if ann sp c mt mf s = Ok (u, s') →
  ∃ t s1 f s2 fin s3 v s4 x s5 w1 s6 u1 s7 u2 s8 w2 s9 u3 s10 u4 s11 w3 s12,
    create_block "true_blk" s = Ok (t, s1) ∧ create_block "false_blk" s1 = Ok (f, s2) ∧
    create_block "fin" s2 = Ok (fin, s3) ∧ get_value (member_of ann) sp [0] c s3 = Ok (v, s4) ∧
    to_i1 v s4 = Ok (x, s5) ∧ insert_instr (ICondBr x t f) s5 = Ok (w1, s6) ∧
    SetInsertPoint t s6 = Ok (u1, s7) ∧ mt s7 = Ok (u2, s8) ∧ insert_instr (IBr fin) s8 = Ok (w2, s9) ∧
    SetInsertPoint f s9 = Ok (u3, s10) ∧ mf s10 = Ok (u4, s11) ∧ insert_instr (IBr fin) s11 = Ok (w3, s12) ∧
    SetInsertPoint fin s12 = Ok (u, s').
Proof.
  unfold codegen_if. intros Ec. inv_cg.
  repeat match goal with
  | H : CreateCondBr _ _ _ _ = _ |- _ => apply condbr_inv in H as (_ & ? & H)
  | H : CreateBr _ _ = _ |- _ => apply br_inv in H as (? & H)
  end. do 24 eexists. split_and!; eauto.
Qed.

Section branches.
Context (ann : annotations).
Abbreviation member := (member_of ann).
Abbreviation get_value := (get_value member).
Abbreviation eval_expr := (eval_expr member).

Lemma faithful_if sp c mt ext mf exf :
  pure_rows c = true → faithful mt ext → faithful mf exf →
  faithful (codegen_if ann sp c mt mf)
    (λ σ, '(v, σ) ← eval_expr sp [0] c σ; b ← truth v; if (b : bool) then ext σ else exf σ).
Proof.
  intros Hc Ft Ff. pose proof Ft as (_ & Het & Hkt). pose proof Ff as (_ & Hef & Hkf).
  split_and!; [|by apply emitter_if|unfold codegen_if; keeping].
  intros s u s' σ σ' μ Sta Gd Ec Hx Ee A R.
  apply if_inv in Ec as (t & s1 & f & s2 & fin & s3 & v & s4 & x & s5 & w1 & s6 & u1 & s7 & u2 & s8 & w2 & s9 &
    u3 & s10 & u4 & s11 & w3 & s12 & E1 & E2 & E3 & E4 & E5 & E6 & E7 & E8 & E9 & E10 & E11 & E12 & E13).
  inv_prog. rename r into b.
  destruct (at_pc_valid _ _ A) as (cur & Hcur & Lcur).
  destruct (create_facts _ _ _ _ E1) as (Bt & Len1 & Ht1 & _ & Hi1 & N1 & _ & L1 & G1).
  destruct (create_facts _ _ _ _ E2) as (Bf & Len2 & Hf2 & Keep2 & Hi2 & N2 & _ & L2 & G2).
  destruct (create_facts _ _ _ _ E3) as (Bfin & Len3 & Hfin3 & Keep3 & Hi3 & N3 & _ & L3 & G3).
  specialize (G1 Gd). specialize (G2 G1). specialize (G3 G2).
  assert (A3 : at_pc μ s3) by (do 2 (eapply create_at_pc; [eassumption|]); by eapply create_at_pc).
  assert (Hcur3 : insert_block s3 = Some cur) by congruence.
  assert (L03 : later s s3) by (transitivity s1; [done|by transitivity s2]).
  destruct (operand_code (get_value sp [0] c) _ _ _ _ _ ltac:(emitting) ltac:(keeping)
    ltac:(by eapply at_pc_valid) G3 E4 E5) as (J5 & G5 & L5 & N5).
  destruct (leave_facts (ICondBr x t f) _ _ _ _ _ _ _ _ J5 G5 Hcur3 eq_refl ltac:(repeat constructor; lia) E6 E7)
    as (Hi7 & Ll7 & Keep7 & L7 & G7 & N7 & _ & X7).
  destruct (segment_facts _ _ _ _ _ (IBr fin) _ _ _ _ _ t Ft G7 Hi7 ltac:(lia) E8 eq_refl
    ltac:(repeat constructor; lia) E9 E10) as (Hi10 & Ll10 & Keep10 & L10 & G10 & N10 & X10).
  destruct (segment_facts _ _ _ _ _ (IBr fin) _ _ _ _ _ f Ff G10 Hi10 ltac:(lia) E11 eq_refl
    ltac:(repeat constructor; lia) E12 E13) as (Hi13 & Ll13 & Keep13 & L13 & G13 & N13 & X13).
  destruct (X13 Hx) as [Hx12 Hx11].
  assert (Hx10 : extends s10) by (eapply extends_emits, Hx11; eapply Hef, E11; exists f; split; [done|lia]).
  destruct (X10 Hx10) as [Hx9 Hx8].
  assert (Hx7 : extends s7) by (eapply extends_emits, Hx8; eapply Het, E8; exists t; split; [done|lia]).
  destruct (X7 Hx7) as [Hx6 Hx5].
  assert (Hfin' : blocks s' !! fin = Some (lit "fin", [])) by (rewrite Keep13, Keep10, Keep7 by lia; done).
  assert (Hf10 : blocks s10 !! f = Some (lit "false_blk", [])) by (rewrite Keep10, Keep7, Keep3 by lia; done).
  assert (Ht7 : blocks s7 !! t = Some (lit "true_blk", [])) by (rewrite Keep7, Keep3, Keep2 by lia; done).
  assert (S3 : static s3) by (eapply static_later; [exact L03|lia|done]).
  destruct (operand_true _ _ _ _ _ _ _ _ _ _ _ μ (sound_get_value _ sp [0] c (expression_correct _ c Hc sp [0]))
    S3 G3 E4 E5 Hx5 Hm Hm0 A3 ltac:(by eapply rel_tables, R; [|apply L03])) as (μ5 & St5 & A5 & Ag5 & R5 & V5 & B5).
  assert (S5 : static s5) by (eapply static_later; [exact L5|lia|done]).
  assert (S7 : static s7) by (eapply static_later; [exact L7|lia|done]).
  assert (S10 : static s10) by (eapply static_later; [exact L10|lia|done]).
  assert (Hj : steps μ (jump_to μ5 (if b then t else f))).
  { etrans; [exact St5|]. eapply branch_step; [exact E6|done|done|]. by apply condbr_exec. }
  assert (R7 : ∀ b, rel s7 e (jump_to μ5 b)) by (intros; by eapply rel_jump, R5; [|apply L7]).
  destruct b.
  - destruct (segment_run _ _ _ _ _ _ _ _ _ _ _ e σ' (jump_to μ5 t) Ft S7 G7 E8 E9 E10 Hx9 Hx8 Hk0) as (μ' & St' & P' & Ag' & R');
      [by eapply at_start_pc|done|].
    exists μ'. split_and!; [by etrans|by eapply at_start_pc| |].
    + intros r Hr. rewrite Ag' by lia. apply Ag5. lia.
    + apply R'. rewrite (l_tables _ _ L13). apply L10.
  - destruct (segment_run _ _ _ _ _ _ _ _ _ _ _ e σ' (jump_to μ5 f) Ff S10 G10 E11 E12 E13 Hx12 Hx11 Hk0) as (μ' & St' & P' & Ag' & R');
      [by eapply at_start_pc|by eapply rel_tables, R7; [|apply L10]|].
    exists μ'. split_and!; [by etrans|by eapply at_start_pc| |].
    + intros r Hr. rewrite Ag' by lia. apply Ag5. lia.
    + apply R'. apply L13.
Qed.
End branches.

(** *** Loops *)

Section loop.
Context (mc : cg lvalue) (evc eve : env E C G → result (value * env E C G)).
Context (mb me : cg unit) (exb : env E C G → result (env E C G)).
Context (Fc : sound mc evc) (Fb : faithful mb exb) (Fe : faithful me (λ σ, '(_, σ) ← eve σ; Ok σ)).
Context (begin body every finish : nat) (s7 s8 s9 s10 s11 s12 s13 s14 s15 s16 : cstate).
Context (v w1 w2 w3 : lvalue) (u1 u2 u3 u4 : unit).
Context (E8 : mc s7 = Ok (v, s8)) (E9 : insert_instr (ICondBr v body finish) s8 = Ok (w1, s9)).
Context (E11 : mb s10 = Ok (u1, s11)) (E12 : insert_instr (IBr every) s11 = Ok (w2, s12)).
Context (E13 : SetInsertPoint every s12 = Ok (u2, s13)).
Context (E14 : me s13 = Ok (u3, s14)) (E15 : insert_instr (IBr begin) s14 = Ok (w3, s15)).
Context (E16 : SetInsertPoint finish s15 = Ok (u4, s16)).
Context (S7 : static s7) (S10 : static s10) (S13 : static s13).
Context (G7 : good_types s7) (G10 : good_types s10) (G13 : good_types s13).
Context (X8 : extends s8) (X9 : extends s9) (X11 : extends s11) (X12 : extends s12) (X14 : extends s14)
  (X15 : extends s15).
Context (T10 : tables s10 = tables s7) (T13 : tables s13 = tables s7).
Context (N10 : next_id s7 ≤ next_id s10) (N13 : next_id s7 ≤ next_id s13).
Context (I7 : insert_block s7 = Some begin) (I10 : insert_block s10 = Some body) (I13 : insert_block s13 = Some every).
Context (n1 n2 n3 : cstr) (B7 : blocks s7 !! begin = Some (n1, [])) (B10 : blocks s10 !! body = Some (n2, []))
  (B13 : blocks s13 !! every = Some (n3, [])).

(** The code of a loop goes round as often as the loop of the reference. *)
Lemma loop_run fuel σ σ' μ :
  exec_loop evc eve exb fuel σ = Ok σ' → at_start μ begin → rel s7 σ μ →
  ∃ μ', steps μ μ' ∧ at_start μ' finish ∧ agree (next_id s7) μ μ' ∧ rel s7 σ' μ'.
Proof.
  revert σ μ. induction fuel as [|fuel IH]; intros σ μ Ee A R; [done|]. cbn [exec_loop] in Ee. inv_prog.
  assert (A7 : at_pc μ s7) by by eapply at_start_pc.
  destruct (sound_then _ _ _ _ _ _ _ _ _ Fc S7 G7 E8 X8 Hm A7 R)
    as (S8 & _ & L8 & _ & μ8 & St8 & A8 & Ag8 & N8 & R8 & V8 & T8 & _).
  destruct v0 as [| |b| |]; try done.
  assert (Hj : steps μ (jump_to μ8 (if b then body else finish))).
  { etrans; [exact St8|]. eapply branch_step; [exact E9|done|done|]. by apply condbr_exec. }
  assert (R8' : ∀ b', rel s7 e (jump_to μ8 b')).
  { intros b'. eapply rel_jump; [exact S8| |exact R8]. by rewrite (l_tables _ _ L8). }
  destruct b; [|injection Hk as <-; by exists (jump_to μ8 finish)]. inv_prog.
  destruct (segment_run _ _ _ _ _ _ _ _ _ _ _ _ _ (jump_to μ8 body) Fb S10 G10 E11 E12 E13 X12 X11 Hm0)
    as (μ13 & St13 & P13 & Ag13 & R13); [by eapply at_start_pc|by eapply rel_tables, R8'|].
  destruct (segment_run _ _ _ _ _ _ _ _ _ _ _ r e0 μ13 Fe S13 G13 E14 E15 E16 X15 X14)
    as (μ7 & St7 & P7 & Ag7 & R7); [by rewrite Hm1|by eapply at_start_pc|apply R13; congruence|].
  destruct (IH _ _ Hk P7 (R7 _ (eq_sym T13))) as (μ' & St' & P' & Ag' & R').
  exists μ'. split_and!; auto.
  - etrans; [exact Hj|]. etrans; [exact St13|]. by etrans.
  - intros k Hk'. rewrite Ag' by done. rewrite Ag7 by lia. rewrite Ag13 by lia. by apply Ag8.
Qed.
End loop.

Lemma for_inv ann sp mi c e mb s u s' :
  codegen_for ann sp mi (Some c) (Some e) mb s = Ok (u, s') →
  ∃ u0 s0 begin s1 body s2 every s3 finish s4 u5 s5 w6 s6 u7 s7 v s8 w9 s9 u10 s10 u11 s11 w12 s12 u13 s13
    u14 s14 w15 s15 u16 s16,
    mi s = Ok (u0, s0) ∧ create_block "for_begin" s0 = Ok (begin, s1) ∧ create_block "for_body" s1 = Ok (body, s2) ∧
    create_block "for_every" s2 = Ok (every, s3) ∧ create_block "for_finish" s3 = Ok (finish, s4) ∧
    enter_loop begin body every finish s4 = Ok (u5, s5) ∧ insert_instr (IBr begin) s5 = Ok (w6, s6) ∧
    SetInsertPoint begin s6 = Ok (u7, s7) ∧ get_value (member_of ann) sp [0] c s7 = Ok (v, s8) ∧
    insert_instr (ICondBr v body finish) s8 = Ok (w9, s9) ∧ SetInsertPoint body s9 = Ok (u10, s10) ∧
    mb s10 = Ok (u11, s11) ∧ insert_instr (IBr every) s11 = Ok (w12, s12) ∧
    SetInsertPoint every s12 = Ok (u13, s13) ∧
    (_ ← get_value (member_of ann) sp [1] e; mret tt) s13 = Ok (u14, s14) ∧
    insert_instr (IBr begin) s14 = Ok (w15, s15) ∧ SetInsertPoint finish s15 = Ok (u16, s16) ∧
    exit_loop_ctx s16 = Ok (u, s').
Proof.
  unfold codegen_for. intros Ec.
  repeat match type of Ec with (_ ≫= _) _ = Ok _ =>
    let a := fresh "a" in let s := fresh "s" in let H1 := fresh "F" in
    apply cg_bind_Ok in Ec as (a & s & H1 & Ec); cbv beta in Ec end.
  repeat match goal with
  | H : (ret ← _; CreateCondBr ret _ _) _ = Ok _ |- _ => apply cg_bind_Ok in H as (? & ? & ? & H)
  | H : CreateCondBr _ _ _ _ = _ |- _ => apply condbr_inv in H as (_ & ? & H)
  | H : CreateBr _ _ = _ |- _ => apply br_inv in H as (? & H)
  end. do 34 eexists. split_and!; eauto.
Qed.

Lemma enter_facts b bo e f s u s' :
  enter_loop b bo e f s = Ok (u, s') →
  blocks s' = blocks s ∧ insert_block s' = insert_block s ∧ next_id s' = next_id s ∧ later s s' ∧
  (extends s' → extends s).
Proof. intros [= _ <-]. split_and!; auto. by split. Qed.

Lemma enter_at_pc b bo e f s u s' (μ : machine) : enter_loop b bo e f s = Ok (u, s') → at_pc μ s → at_pc μ s'.
Proof. by intros [= _ <-]. Qed.

Lemma exit_facts s u s' :
  exit_loop_ctx s = Ok (u, s') →
  blocks s' = blocks s ∧ insert_block s' = insert_block s ∧ tables s' = tables s ∧ struct_types s' = struct_types s.
Proof. unfold exit_loop_ctx. destruct (loop_ s); [done|]. intros [= _ <-]. done. Qed.

Section for_loop.
Context (ann : annotations).
Abbreviation member := (member_of ann).
Abbreviation get_value := (get_value member).
Abbreviation eval_expr := (eval_expr member).

Lemma faithful_every sp p e : pure_rows e = true →
  faithful (_ ← get_value sp p e; mret tt) (λ σ, '(_, σ) ← eval_expr sp p e σ; Ok σ).
Proof.
  intros He. split_and!; [|emitting|keeping]. intros s u s' σ σ' μ Sta Gd Ec Hx Ee A R. inv_cg. injection E1 as _ <-.
  inv_prog. eapply yields_reaches. by eapply expression_correct.
Qed.

Lemma faithful_for sp mi exi c e mb exb fuel :
  faithful mi exi → pure_rows c = true → pure_rows e = true → faithful mb exb →
  faithful (codegen_for ann sp mi (Some c) (Some e) mb)
    (λ σ, σ ← exi σ; exec_loop (eval_expr sp [0] c) (eval_expr sp [1] e) exb fuel σ).
Proof.
  intros Fi Hc He Fb. pose proof Fi as (_ & Hei & Hki). pose proof Fb as (_ & Heb & Hkb).
  pose proof (faithful_every sp [1] e He) as Fe. pose proof Fe as (_ & Hee & _).
  split_and!; [|by apply emitter_for|unfold codegen_for; keeping].
  intros s u s' σ σ' μ Sta Gd Ec Hx Ee A R.
  apply for_inv in Ec as (u0 & s0 & begin & s1 & body & s2 & every & s3 & finish & s4 & u5 & s5 & w6 & s6 & u7 & s7 & v & s8 &
    w9 & s9 & u10 & s10 & u11 & s11 & w12 & s12 & u13 & s13 & u14 & s14 & w15 & s15 & u16 & s16 &
    E0 & E1 & E2 & E3 & E4 & E5 & E6 & E7 & E8 & E9 & E10 & E11 & E12 & E13 & E14 & E15 & E16 & E17).
  inv_prog. rename r into σ0.
  pose proof (Hei _ _ _ (at_pc_valid _ _ A) E0) as J0. destruct (emits_valid _ _ J0) as (cur & Hcur & Lcur).
  destruct (Hki _ _ _ Gd E0) as [G0 L0].
  destruct (create_facts _ _ _ _ E1) as (Bb & Len1 & Hb1 & _ & Hi1 & N1 & _ & L1 & G1).
  destruct (create_facts _ _ _ _ E2) as (Bbo & Len2 & Hbo2 & Keep2 & Hi2 & N2 & _ & L2 & G2).
  destruct (create_facts _ _ _ _ E3) as (Be & Len3 & He3 & Keep3 & Hi3 & N3 & _ & L3 & G3).
  destruct (create_facts _ _ _ _ E4) as (Bf & Len4 & Hf4 & Keep4 & Hi4 & N4 & _ & L4 & G4).
  specialize (G1 G0). specialize (G2 G1). specialize (G3 G2). specialize (G4 G3).
  destruct (enter_facts _ _ _ _ _ _ _ E5) as (Bl5 & Hi5 & N5 & L5 & X5). destruct (keeper_enter _ _ _ _ _ _ _ G4 E5) as [G5 _].
  assert (Hcur5 : insert_block s5 = Some cur) by congruence.
  assert (Len5 : length (blocks s5) = length (blocks s4)) by by rewrite Bl5.
  assert (L05 : later s0 s5) by (transitivity s2; [by transitivity s1|]; transitivity s4; [by transitivity s3|done]).
  assert (V5 : valid_cur s5) by (exists cur; split; [done|lia]).
  destruct (leave_facts (IBr begin) _ _ _ _ _ _ _ _ (emits_refl s5 V5) G5 Hcur5
    eq_refl ltac:(repeat constructor; lia) E6 E7) as (I7 & Ll7 & Keep7 & L7 & G7 & N7 & _ & X7).
  destruct (keeper_get_value _ _ _ _ _ _ _ G7 E8) as [G8 L8].
  assert (V7 : valid_cur s7) by (exists begin; split; [done|lia]).
  pose proof (emitter_get_value _ _ _ _ _ _ _ V7 E8) as J8.
  destruct (leave_facts (ICondBr v body finish) _ _ _ _ _ _ _ _ J8 G8 I7 eq_refl ltac:(repeat constructor; lia) E9 E10)
    as (I10 & Ll10 & Keep10 & L10 & G10 & N10 & _ & X10).
  destruct (segment_facts _ _ _ _ _ (IBr every) _ _ _ _ _ body Fb G10 I10 ltac:(lia) E11 eq_refl
    ltac:(repeat constructor; lia) E12 E13) as (I13 & Ll13 & Keep13 & L13 & G13 & N13 & X13).
  destruct (segment_facts _ _ _ _ _ (IBr begin) _ _ _ _ _ every Fe G13 I13 ltac:(lia) E14 eq_refl
    ltac:(repeat constructor; lia) E15 E16) as (I16 & Ll16 & Keep16 & L16 & G16 & N16 & X16).
  destruct (exit_facts _ _ _ E17) as (Bl17 & Hi17 & T17 & Ss17).
  assert (Hx16 : extends s16) by (destruct Hx as [H1 H2]; split; by rewrite <- ?Bl17, <- ?Ss17).
  destruct (X16 Hx16) as [Hx15 Hx14].
  assert (Hx13 : extends s13) by (eapply extends_emits, Hx14; eapply Hee, E14; exists every; split; [done|lia]).
  destruct (X13 Hx13) as [Hx12 Hx11].
  assert (Hx10 : extends s10) by (eapply extends_emits, Hx11; eapply Heb, E11; exists body; split; [done|lia]).
  destruct (X10 Hx10) as [Hx9 Hx8]. destruct (X7 ltac:(by eapply extends_emits)) as [Hx6 Hx5].
  assert (Hx0 : extends s0) by (do 4 (eapply create_extends; [eassumption|]); by apply X5).
  destruct (faithful_then _ _ _ _ _ _ _ _ Fi Sta Gd E0 Hx0 Hm A R) as (S0 & _ & _ & N0 & μ0 & St0 & A0 & Ag0 & R0).
  assert (A5 : at_pc μ0 s5).
  { eapply enter_at_pc; [exact E5|]. do 3 (eapply create_at_pc; [eassumption|]). by eapply create_at_pc. }
  assert (L70 : later s0 s7) by by transitivity s5. assert (L107 : later s7 s10) by by transitivity s8.
  pose proof (emits_next _ _ J8) as N8.
  assert (S7 : static s7) by (eapply static_later; [exact L70|lia|done]).
  assert (S10 : static s10) by (eapply static_later; [exact L107|lia|done]).
  assert (S13 : static s13) by (eapply static_later; [exact L13|lia|done]).
  assert (B7 : blocks s7 !! begin = Some (lit "for_begin", [])) by (rewrite Keep7, Bl5, Keep4, Keep3, Keep2 by lia; done).
  assert (B10 : blocks s10 !! body = Some (lit "for_body", [])) by (rewrite Keep10, Keep7, Bl5, Keep4, Keep3 by lia; done).
  assert (B13 : blocks s13 !! every = Some (lit "for_every", []))
    by (rewrite Keep13, Keep10, Keep7, Bl5, Keep4 by lia; done).
  assert (B16 : blocks s' !! finish = Some (lit "for_finish", []))
    by (rewrite Bl17, Keep16, Keep13, Keep10, Keep7, Bl5 by lia; done).
  assert (T13 : tables s13 = tables s7) by (rewrite (l_tables _ _ L13); apply L107).
  assert (St6 : steps μ0 (jump_to μ0 begin)) by (by eapply branch_step; [exact E6|..]).
  destruct (loop_run _ _ _ mb _ _ (sound_get_value _ sp [0] c (expression_correct _ c Hc sp [0])) Fb Fe begin body every
    finish s7 s8 s9 s10 s11 s12 s13 s14 s15 s16 v w9 w12 w15 u11 u13 u14 u16 E8 E9 E11 E12 E13 E14 E15 E16 S7 S10 S13
    G7 G10 G13 Hx8 Hx9 Hx11 Hx12 Hx14 Hx15 (l_tables _ _ L107) T13 ltac:(lia) ltac:(lia) I7 I10 I13 _ _ _ B7 B10 B13
    fuel σ0 σ' (jump_to μ0 begin) Hk (jump_start μ0 begin)) as (μ' & St' & P' & Ag' & R').
  { eapply rel_jump; [exact S0|apply L70|done]. }
  exists μ'. split_and!.
  - etrans; [exact St0|]. by etrans.
  - eapply at_start_pc; [exact P'|by rewrite Hi17|done].
  - intros r Hr. rewrite Ag' by lia. apply Ag0. lia.
  - eapply rel_tables; [exact S7| |exact R']. rewrite T17, (l_tables _ _ L16). done.
Qed.
End for_loop.

End correct.
