(* ===== verification/TableCode.v ===== *)
(** * TableCode: compiled inserts and scans do what the statements mean

    An [insert] copies its row, piece by piece, into a buffer for the key and one for the value, and
    hands both to the engine; a [scan] goes round a loop that copies the key and the value of a
    record into its buffers and builds the row of words it loads from them.  Here: the copies put
    the bytes of the library's codec into the buffers, the loads find the numbers the record holds,
    and the loop goes round as often as the cursor has records. *)

From Stdlib Require Import ZArith NArith Ascii String Lia.
From stdpp Require Import base option list strings gmap relations.
From S2P Require Import Prelude Value Attr Schema Ast Visit LLVM CodegenExpr CodegenStmt Compile Machine.
From S2P Require Import Layout Declare Runtime Semantics Shape Typing Simulate ExprCorrect StmtCorrect.

Arguments sl_node {_ _ _ _ _ _ _ _ _ _ _ _ _ _}.
Arguments sl_schema {_ _ _ _ _ _ _ _ _ _ _ _ _ _}.
Arguments sl_key {_ _ _ _ _ _ _ _ _ _ _ _ _ _}.
Arguments sl_value {_ _ _ _ _ _ _ _ _ _ _ _ _ _}.
Arguments sl_tuple {_ _ _ _ _ _ _ _ _ _ _ _ _ _}.
Arguments sl_key_size {_ _ _ _ _ _ _ _ _ _ _ _ _ _}.
Arguments sl_value_size {_ _ _ _ _ _ _ _ _ _ _ _ _ _}.
Arguments sl_below {_ _ _ _ _ _ _ _ _ _ _ _ _ _}.
Arguments sl_apart {_ _ _ _ _ _ _ _ _ _ _ _ _ _}.
Arguments sl_private {_ _ _ _ _ _ _ _ _ _ _ _ _ _}.
Arguments sl_not_void {_ _ _ _ _ _ _ _ _ _ _ _ _ _}.
Arguments sl_prefix {_ _ _ _ _ _ _ _ _ _ _ _ _ _}.
Arguments sl_kind {_ _ _ _ _ _ _ _ _ _ _ _ _ _}.

Section code.
Context `{L : LLVM} `{LT : !LLVMTyping} `{PL : !PrintLaws} `{T : Target} `{TL : !TargetLaws}
  `{LF : !LLVMFolds}.
Context {E C G : Type} `{FA : FoedusAPI E C} `{RG : Random G} `{RL : !RandomLaws G} `{MM : Module}.
Abbreviation ss := m_structs.
Abbreviation P := m_code.
Abbreviation machine := (mstate (W := World E C G)).
Abbreviation steps := (steps_to (W := World E C G) ss call_runtime P).

(** ** Buffers *)

Lemma small_pattern w z : (0 ≤ z < 2 ^ Z.of_nat w)%Z → pattern w z = z.
Proof. apply Z.mod_small. Qed.

Lemma small_index d : (Z.of_nat d < 2 ^ 16)%Z → pattern 32 (Z.of_nat d) = Z.of_nat d.
Proof. intros Hd. apply small_pattern. change (2 ^ Z.of_nat 32)%Z with (2 ^ 32)%Z. lia. Qed.

Lemma length_mbytes (bs : cstr) : length (MByte <$> bs : list memval) = length bs.
Proof. apply length_fmap. Qed.

(** The address [d] bytes behind a [char*]. *)
Lemma gep_bytes v s d w s' μ r :
  CreateInBoundsGEP v [CInt 32 (Z.of_nat d)] s = Ok (w, s') → extends s' → at_pc μ s → type_of v = i8ptr →
  eval ss (regs μ) v = Some (RPtr (PStack r 0)) → below (next_id s) v = true → (Z.of_nat d < 2 ^ 16)%Z →
  ∃ μ', quiet_step s s' μ μ' ∧ eval ss (regs μ') w = Some (RPtr (PStack r d)) ∧
    type_of w = i8ptr ∧ below (next_id s') w = true.
Proof.
  intros Ec Hx A Tv V B Hd. unfold CreateInBoundsGEP, llvm_assert in Ec. rewrite gets_run in Ec. rewrite Tv in Ec.
  cbn in Ec. change (insert_folded (IGEP v [CInt 32 (Z.of_nat d)] i8) s = Ok (w, s')) in Ec.
  destruct (pure_step _ _ _ _ _ (RPtr (PStack r d)) Ec Hx A) as (μ' & Q & V' & Ty & B').
  - simpl. rewrite V, Tv. simpl. rewrite small_index, Nat2Z.id by done. rewrite size_i8. simpl. do 3 f_equal. lia.
  - simpl. by rewrite B.
  - by exists μ'.
Qed.

(** The address of the byte [d] of an array. *)
Lemma gep_array r n w0 d s w s' μ :
  CreateInBoundsGEP (Reg r (TPtr (TArray i8 n))) [CInt w0 0; CInt 32 (Z.of_nat d)] s = Ok (w, s') →
  extends s' → at_pc μ s → regs μ !! r = Some (RPtr (PStack r 0)) → r < next_id s → (Z.of_nat d < 2 ^ 16)%Z → d ≤ n →
  ∃ μ', quiet_step s s' μ μ' ∧ eval ss (regs μ') w = Some (RPtr (PStack r d)) ∧
    type_of w = i8ptr ∧ below (next_id s') w = true.
Proof.
  intros Ec Hx A V B Hd Hn. unfold CreateInBoundsGEP, llvm_assert in Ec. rewrite gets_run in Ec. cbn in Ec.
  change (insert_folded (IGEP (Reg r (TPtr (TArray i8 n))) [CInt w0 0; CInt 32 (Z.of_nat d)] i8) s = Ok (w, s')) in Ec.
  destruct (pure_step _ _ _ _ _ (RPtr (PStack r d)) Ec Hx A) as (μ' & Q & V' & Ty & B').
  - simpl. rewrite V. simpl. rewrite small_index, Nat2Z.id by done. rewrite decide_True by done. simpl.
    rewrite size_i8. simpl. do 3 f_equal. lia.
  - simpl. by rewrite bool_decide_true.
  - by exists μ'.
Qed.

(** What a step that writes the region [r] does. *)
Definition writes (s s' : cstate) (μ μ' : machine) (r : nat) (new : list memval) : Prop :=
  steps μ μ' ∧ at_pc μ' s' ∧ agree (next_id s) μ μ' ∧ mem μ' = <[r := new]> (mem μ) ∧ world μ' = world μ ∧
  later s s' ∧ next_id s ≤ next_id s'.

Lemma quiet_writes s1 s2 s3 μ1 μ2 μ3 r new :
  quiet_step s1 s2 μ1 μ2 → writes s2 s3 μ2 μ3 r new → writes s1 s3 μ1 μ3 r new.
Proof.
  intros (S1 & A1 & G1 & M1 & W1 & L1 & N1) (S2 & A2 & G2 & M2 & W2 & L2 & N2). split_and!; auto.
  - by etrans.
  - by eapply agree_trans.
  - by rewrite M2, M1.
  - congruence.
  - by transitivity s2.
  - lia.
Qed.

(** The machine got from [s] to [s']; where it is and what memory holds is said elsewhere. *)
Definition moves (s s' : cstate) (μ μ' : machine) : Prop :=
  steps μ μ' ∧ agree (next_id s) μ μ' ∧ next_id s ≤ next_id s'.

Lemma moves_refl s μ : moves s s μ μ.
Proof. split_and!; [apply rtc_refl|apply agree_refl|done]. Qed.

Lemma moves_trans s1 s2 s3 μ1 μ2 μ3 : moves s1 s2 μ1 μ2 → moves s2 s3 μ2 μ3 → moves s1 s3 μ1 μ3.
Proof.
  intros (S1 & A1 & N1) (S2 & A2 & N2). split_and!; [by etrans|by eapply agree_trans|lia].
Qed.

Lemma quiet_moves s s' μ μ' : quiet_step s s' μ μ' → moves s s' μ μ'.
Proof. by intros (? & ? & ? & ? & ? & ? & ?). Qed.

Lemma writes_moves s s' μ μ' r new : writes s s' μ μ' r new → moves s s' μ μ'.
Proof. by intros (? & ? & ? & ? & ? & ? & ?). Qed.

Lemma moves_reaches s1 s2 s3 μ1 μ2 σ : moves s1 s2 μ1 μ2 → reaches s2 μ2 s3 σ → reaches s1 μ1 s3 σ.
Proof. intros (? & ? & ?) ?. by eapply reaches_then. Qed.

(** Variables do not notice a write to a region of nobody's. *)
Lemma writes_rel s s' σ μ μ' r old new :
  static s → writes s s' μ μ' r new → rel s σ μ → private (variable_table_ s) r →
  mem μ !! r = Some old → length new = length old → static s' ∧ rel s' σ μ'.
Proof.
  intros Sta (_ & _ & Ag & Hm & Hw & Lt & Hn) R Pr Ho Hl. split; [by eapply static_later|].
  eapply (rel_write s); [exact Sta|apply Lt|exact R|exact Ag|exact Ho|exact Hl|exact Hm|rewrite Hw; apply R|].
  intros x v Hx. destruct (rel_var_case _ _ _ _ _ Sta R Hx) as (r' & t & Hv & _ & _). rewrite Hv.
  rewrite decide_False; [done|]. intros ->. by eapply Pr.
Qed.

Lemma bitcast_type v t s w s' : CreateBitCast v t s = Ok (w, s') → type_of w = t.
Proof.
  unfold CreateBitCast, llvm_assert. intros Ec. case_decide as Hd; [by injection Ec as <- _|].
  destruct (isPointerTy _ && _); [|done]. change (insert_folded (IBitCast v t) s = Ok (w, s')) in Ec.
  unfold insert_folded in Ec. destruct (fold _) as [u|] eqn:F; [injection Ec as <- _; by apply fold_type in F|].
  by destruct (insert_next _ _ _ _ Ec) as (_ & -> & _).
Qed.

(** A copy of bytes into a buffer. *)
Lemma memcpy_step dst src len s u s' μ r off q bs old :
  CreateMemCpy dst src (CInt 64 (Z.of_nat len)) s = Ok (u, s') → extends s' → at_pc μ s →
  eval ss (regs μ) dst = Some (RPtr (PStack r off)) → eval ss (regs μ) src = Some (RPtr q) →
  below (next_id s) dst = true → below (next_id s) src = true → (Z.of_nat len < 2 ^ 16)%Z →
  load_bytes (mem μ) q len = Some bs → mem μ !! r = Some old → off + len ≤ length old → length bs = len →
  ∃ μ', writes s s' μ μ' r (patched off bs old).
Proof.
  intros Ec Hx A Vd Vs Bd Bs Hlen Hl Ho Hoff Hbs. unfold CreateMemCpy in Ec.
  apply cg_bind_Ok in Ec as (d & s1 & E1 & Ec). apply cg_bind_Ok in Ec as (x & s2 & E2 & Ec).
  apply cg_bind_Ok in Ec as (w & s3 & E3 & Ec). injection Ec as _ <-.
  pose proof (emitter_bitcast _ _ _ _ _ (at_pc_valid _ _ A) E1) as J1.
  pose proof (emitter_bitcast _ _ _ _ _ (emits_valid _ _ J1) E2) as J2.
  pose proof (emitter_insert (IMemCpy d x (CInt 64 (Z.of_nat len))) eq_refl _ _ _ (emits_valid _ _ J2) E3) as J3.
  assert (Hx2 : extends s2) by by eapply extends_emits. assert (Hx1 : extends s1) by by eapply extends_emits.
  destruct (bitcast_step _ _ _ _ μ _ _ E1 Hx1 A Vd Bd) as (μ1 & Q1 & V1 & B1).
  pose proof Q1 as (_ & A1 & Ag1 & M1 & _ & _ & N1).
  assert (Vs1 : eval ss (regs μ1) src = Some (RPtr q)) by by eapply value_kept.
  destruct (bitcast_step _ _ _ _ μ1 _ _ E2 Hx2 A1 Vs1 ltac:(by eapply below_mono)) as (μ2 & Q2 & V2 & B2).
  pose proof Q2 as (_ & A2 & Ag2 & M2 & _ & _ & N2).
  assert (V1' : eval ss (regs μ2) d = Some (RPtr (PStack r off))) by by eapply value_kept.
  destruct (insert_next _ _ _ _ E3) as (N3 & _ & L3).
  exists (mk_mstate (blk μ2) (S (idx μ2)) (pred μ2) (<[next_id s2 := RUndef]> (regs μ2))
    (<[r := patched off bs old]> (mem μ2)) (world μ2)).
  eapply quiet_writes; [exact Q1|]. eapply quiet_writes; [exact Q2|].
  split_and!; [eapply step_instr; [exact E3|done|done|]|by eapply at_pc_next|..]; try done.
  - assert (Hn : Z.to_nat (pattern 64 (Z.of_nat len)) = len).
    { rewrite small_pattern; [apply Nat2Z.id|]. change (2 ^ Z.of_nat 64)%Z with (2 ^ 64)%Z. lia. }
    simpl. rewrite V1', V2. simpl. rewrite Hn, M2, M1, Hl. simpl. rewrite Ho. simpl.
    by rewrite decide_True by lia.
  - intros k Hk. simpl. by rewrite lookup_insert_ne by lia.
  - lia.
Qed.

(** ** [insert] *)

Lemma load_bytes_at (m : memory) r off a b c :
  m !! r = Some (a ++ b ++ c) → off = length a → load_bytes m (PStack r off) (length b) = Some b.
Proof. intros Hm ->. by eapply load_bytes_middle. Qed.

Lemma patched_here (a b c : list memval) :
  length b ≤ length c → patched (length a) b (a ++ c) = (a ++ b) ++ drop (length b) c.
Proof.
  intros Hl. unfold patched. rewrite take_app_length. rewrite <- drop_drop, drop_app_length. by rewrite app_assoc.
Qed.

Section insert_loop.
Context (sch : Schema) (buff : lvalue) (kr vr tr kn vn : nat) (row : list memval).
Context (Hb : type_of buff = i8ptr) (Hrow : (Z.of_nat (length row) < 2 ^ 16)%Z)
  (Hkn : (Z.of_nat kn < 2 ^ 16)%Z) (Hvn : (Z.of_nat vn < 2 ^ 16)%Z).
Context (Hkv : kr ≠ vr) (Hkt : kr ≠ tr) (Hvt : vr ≠ tr).

(** Both buffers are filled up to a place, the row is as it was. *)
Record filling (s : cstate) (σ : env E C G) (μ : machine) (kd vd : cstr) : Prop := {
  fi_static : static s;
  fi_pc : at_pc μ s;
  fi_rel : rel s σ μ;
  fi_buff : eval ss (regs μ) buff = Some (RPtr (PStack tr 0)) ∧ below (next_id s) buff = true;
  fi_regs : regs μ !! kr = Some (RPtr (PStack kr 0)) ∧ regs μ !! vr = Some (RPtr (PStack vr 0));
  fi_below : kr < next_id s ∧ vr < next_id s;
  fi_private : private (variable_table_ s) kr ∧ private (variable_table_ s) vr;
  fi_row : mem μ !! tr = Some row;
  fi_key : ∃ kf, mem μ !! kr = Some ((MByte <$> kd) ++ kf) ∧ length kd + length kf = kn;
  fi_value : ∃ vf, mem μ !! vr = Some ((MByte <$> vd) ++ vf) ∧ length vd + length vf = vn;
}.

Lemma filling_quiet s s' σ μ μ' kd vd :
  filling s σ μ kd vd → quiet_step s s' μ μ' → filling s' σ μ' kd vd.
Proof.
  intros F Q. pose proof (quiet_rel _ _ _ _ _ (fi_static _ _ _ _ _ F) Q (fi_rel _ _ _ _ _ F)) as R.
  destruct Q as (_ & A & Ag & M & _ & Lt & N). destruct F as [? ? ? [B1 B2] [? ?] [? ?] ? ? ? ?].
  split; rewrite ?M; auto.
  - by eapply static_later.
  - split; [by eapply value_kept|by eapply below_mono].
  - by rewrite !Ag.
  - lia.
  - by rewrite (later_variables _ _ Lt).
Qed.

(** After the next bytes of the key, or of the value. *)
Lemma filling_key s s' σ μ μ' kd vd b kf :
  filling s σ μ kd vd → mem μ !! kr = Some ((MByte <$> kd) ++ kf) → length b ≤ length kf →
  writes s s' μ μ' kr ((MByte <$> kd ++ b) ++ drop (length b) kf) → filling s' σ μ' (kd ++ b) vd.
Proof.
  intros F Hk Hb' Wr. pose proof F as [Sta A R [B1 B2] [K1 K2] [N1 N2] [P1 P2] Ht (kf' & Hk' & Lk) (vf & Hv & Lv)].
  rewrite Hk in Hk'. injection Hk' as Hk'. apply app_inv_head in Hk' as <-.
  destruct (writes_rel _ _ _ _ _ _ _ _ Sta Wr R P1 Hk) as [Sta' R'].
  { rewrite !length_app, !length_fmap, length_app, length_drop. lia. }
  destruct Wr as (_ & A' & Ag & M & _ & Lt & N).
  split; rewrite ?M; auto.
  - split; [by eapply value_kept|by eapply below_mono].
  - by rewrite !Ag.
  - lia.
  - by rewrite (later_variables _ _ Lt).
  - by rewrite lookup_insert_ne.
  - eexists. rewrite lookup_insert_eq. split; [done|]. rewrite length_app, length_drop. lia.
  - exists vf. by rewrite lookup_insert_ne.
Qed.

Lemma filling_value s s' σ μ μ' kd vd b vf :
  filling s σ μ kd vd → mem μ !! vr = Some ((MByte <$> vd) ++ vf) → length b ≤ length vf →
  writes s s' μ μ' vr ((MByte <$> vd ++ b) ++ drop (length b) vf) → filling s' σ μ' kd (vd ++ b).
Proof.
  intros F Hv Hb' Wr. pose proof F as [Sta A R [B1 B2] [K1 K2] [N1 N2] [P1 P2] Ht (kf & Hk & Lk) (vf' & Hv' & Lv)].
  rewrite Hv in Hv'. injection Hv' as Hv'. apply app_inv_head in Hv' as <-.
  destruct (writes_rel _ _ _ _ _ _ _ _ Sta Wr R P2 Hv) as [Sta' R'].
  { rewrite !length_app, !length_fmap, length_app, length_drop. lia. }
  destruct Wr as (_ & A' & Ag & M & _ & Lt & N).
  split; rewrite ?M; auto.
  - split; [by eapply value_kept|by eapply below_mono].
  - by rewrite !Ag.
  - lia.
  - by rewrite (later_variables _ _ Lt).
  - by rewrite lookup_insert_ne.
  - exists kf. by rewrite lookup_insert_ne.
  - eexists. rewrite lookup_insert_eq. split; [done|]. rewrite length_app, length_drop. lia.
Qed.

(** One column is copied behind the bytes [dd] of the buffer [dr]. *)
Lemma copy_column s s1 s2 s3 u src dst w0 σ μ kd vd dr dn dd df rpre z rest :
  CreateInBoundsGEP buff [CInt 32 (Z.of_nat (length rpre))] s = Ok (src, s1) →
  CreateInBoundsGEP (Reg dr (TPtr (TArray i8 dn))) [CInt w0 0; CInt 32 (Z.of_nat (length dd))] s1 = Ok (dst, s2) →
  CreateMemCpy dst src (CInt 64 (Z.of_nat 8)) s2 = Ok (u, s3) → extends s3 → filling s σ μ kd vd →
  row = MByte <$> (rpre ++ bytes_of_i64 z ++ rest) →
  regs μ !! dr = Some (RPtr (PStack dr 0)) → dr < next_id s → (Z.of_nat dn < 2 ^ 16)%Z →
  mem μ !! dr = Some ((MByte <$> dd) ++ df) → length dd + length df = dn → 8 ≤ length df →
  ∃ μ', writes s s3 μ μ' dr ((MByte <$> dd ++ bytes_of_i64 z) ++ drop 8 df).
Proof.
  intros E1 E2 E3 Hx F Hr V B Hdn Hd Ld H8. pose proof (fi_pc _ _ _ _ _ F) as A.
  destruct (fi_buff _ _ _ _ _ F) as [Vb Bb]. pose proof (fi_row _ _ _ _ _ F) as Ht.
  pose proof (length_bytes_of_i64 z) as L8.
  pose proof (emitter_gep _ _ _ _ _ (at_pc_valid _ _ A) E1) as J1.
  pose proof (emitter_gep _ _ _ _ _ (emits_valid _ _ J1) E2) as J2.
  pose proof (emitter_memcpy _ _ _ _ _ _ (emits_valid _ _ J2) E3) as J3.
  assert (Hx2 : extends s2) by by eapply extends_emits. assert (Hx1 : extends s1) by by eapply extends_emits.
  assert (Lr : length rpre + 8 ≤ length row) by (rewrite Hr, length_fmap, !length_app; lia).
  destruct (gep_bytes _ _ _ _ _ μ tr E1 Hx1 A Hb Vb Bb ltac:(lia)) as (μ1 & Q1 & V1 & T1 & B1).
  pose proof Q1 as (_ & A1 & Ag1 & M1 & _ & _ & N1).
  destruct (gep_array _ _ _ _ _ _ _ μ1 E2 Hx2 A1 ltac:(by rewrite Ag1) ltac:(lia) ltac:(lia) ltac:(lia))
    as (μ2 & Q2 & V2 & T2 & B2).
  pose proof Q2 as (_ & A2 & Ag2 & M2 & _ & _ & N2).
  destruct (memcpy_step _ _ _ _ _ _ μ2 dr (length dd) (PStack tr (length rpre)) (MByte <$> bytes_of_i64 z)
    ((MByte <$> dd) ++ df) E3 Hx A2 V2 ltac:(by eapply value_kept) B2 ltac:(by eapply below_mono)) as (μ3 & Wr).
  - done.
  - assert (Lb : 8 = length (fmap MByte (bytes_of_i64 z) : list memval)) by by rewrite length_mbytes.
    rewrite Lb. eapply load_bytes_at; [|by rewrite length_mbytes]. rewrite M2, M1, Ht, Hr, !fmap_app. done.
  - by rewrite M2, M1.
  - rewrite length_app, length_mbytes. lia.
  - by rewrite length_mbytes.
  - exists μ3. eapply quiet_writes; [exact Q1|]. eapply quiet_writes; [exact Q2|].
    assert (Hd' : length (fmap MByte dd : list memval) = length dd) by apply length_mbytes.
    rewrite <- Hd', patched_here in Wr by (rewrite length_mbytes; lia).
    by rewrite fmap_app; rewrite length_mbytes, L8 in Wr.
Qed.
(** The loop over the columns copies what the library's codec writes. *)
Lemma insert_columns_run pre attrs zs rpre kd vd i off s r s' σ μ :
  attrs_ sch = pre ++ attrs → Forall plain_column attrs → length zs = length attrs → i = length pre →
  off = length rpre → row = MByte <$> (rpre ++ row_bytes zs) →
  length kd + length (cells is_key attrs (cells_of zs)) ≤ kn →
  length vd + length (cells value_column attrs (cells_of zs)) ≤ vn →
  insert_columns sch buff (Reg kr (TPtr (TArray i8 kn))) (Reg vr (TPtr (TArray i8 vn))) i (length attrs)
    (length kd) (length vd) off s = Ok (r, s') →
  extends s' → filling s σ μ kd vd →
  r = (length (kd ++ cells is_key attrs (cells_of zs)), length (vd ++ cells value_column attrs (cells_of zs))) ∧
  ∃ μ', moves s s' μ μ' ∧
    filling s' σ μ' (kd ++ cells is_key attrs (cells_of zs)) (vd ++ cells value_column attrs (cells_of zs)).
Proof.
  intros Hs Ha. revert pre zs rpre kd vd i off s μ Hs.
  induction Ha as [|a attrs Ha Has IH]; intros pre zs rpre kd vd i off s μ Hs Hl -> -> Hr Hk Hv Ec Hx F.
  { destruct zs; [|done]. injection Ec as <- <-. simpl. rewrite !app_nil_r. split; [done|].
    exists μ. split; [apply moves_refl|done]. }
  destruct zs as [|z zs]; [done|]. simpl in Hl. unfold cells_of in *. rewrite fmap_cons in *.
  cbn [cells length insert_columns] in *. rewrite plain_cell in * by done. rewrite !length_app in Hk, Hv.
  pose proof (length_bytes_of_i64 z) as L8.
  apply cg_bind_Ok in Ec as (src & s1 & E1 & Ec).
  unfold schema_is_key, get_tuple_length in Ec. rewrite (column_at sch pre a attrs) in Ec by done.
  cbn [mbind result_bind] in Ec. rewrite plain_size in Ec by done.
  apply cg_bind_Ok in Ec as (k & s1' & [= <- <-] & Ec). apply cg_bind_Ok in Ec as (len & s1' & [= <- <-] & Ec).
  assert (Hs' : attrs_ sch = (pre ++ [a]) ++ attrs) by by rewrite <- app_assoc.
  assert (Hr' : row = MByte <$> ((rpre ++ bytes_of_i64 z) ++ row_bytes zs)) by by rewrite <- app_assoc.
  pose proof (fi_below _ _ _ _ _ F) as [B1 B2]. pose proof (fi_regs _ _ _ _ _ F) as [V1 V2].
  unfold value_column in *. destruct (is_key a) eqn:K; simpl in Hk, Hv |- *.
  - apply cg_bind_Ok in Ec as (dst & s2 & E2 & Ec). apply cg_bind_Ok in Ec as (u & s3 & E3 & Ec).
    destruct (fi_key _ _ _ _ _ F) as (kf & Hkf & Lk).
    assert (Hx3 : extends s3).
    { eapply extends_emits, Hx. eapply emitter_insert_columns, Ec. eapply emits_valid.
      eapply emitter_memcpy; [|exact E3]. eapply emits_valid. eapply emitter_gep; [|exact E2]. eapply emits_valid.
      eapply emitter_gep; [|exact E1]. eapply at_pc_valid, F. }
    destruct (copy_column _ _ _ _ _ _ _ _ σ μ kd vd kr kn kd kf rpre z (row_bytes zs) E1 E2 E3 Hx3 F Hr V1 B1 Hkn Hkf Lk
      ltac:(lia)) as (μ1 & Wr). rewrite <- L8 in Wr.
    assert (H8 : length (bytes_of_i64 z) ≤ length kf) by lia.
    pose proof (filling_key _ _ _ _ _ _ _ _ _ F Hkf H8 Wr) as F1.
    replace (length kd + 8) with (length (kd ++ bytes_of_i64 z)) in Ec by (rewrite length_app; lia).
    destruct (IH (pre ++ [a]) zs (rpre ++ bytes_of_i64 z) (kd ++ bytes_of_i64 z) vd _ _ s3 μ1 Hs' ltac:(lia)
      ltac:(by rewrite length_app, Nat.add_1_r) ltac:(by rewrite length_app, L8) Hr'
      ltac:(rewrite length_app; unfold cells_of; lia) Hv Ec Hx F1) as (-> & μ2 & Mv & F2).
    unfold cells_of in *. rewrite <- !app_assoc in *. split; [done|]. exists μ2. split; [|done].
    eapply moves_trans; [by eapply writes_moves|done].
  - apply cg_bind_Ok in Ec as (dst & s2 & E2 & Ec). apply cg_bind_Ok in Ec as (u & s3 & E3 & Ec).
    destruct (fi_value _ _ _ _ _ F) as (vf & Hvf & Lv).
    assert (Hx3 : extends s3).
    { eapply extends_emits, Hx. eapply emitter_insert_columns, Ec. eapply emits_valid.
      eapply emitter_memcpy; [|exact E3]. eapply emits_valid. eapply emitter_gep; [|exact E2]. eapply emits_valid.
      eapply emitter_gep; [|exact E1]. eapply at_pc_valid, F. }
    destruct (copy_column _ _ _ _ _ _ _ _ σ μ kd vd vr vn vd vf rpre z (row_bytes zs) E1 E2 E3 Hx3 F Hr V2 B2 Hvn Hvf Lv
      ltac:(lia)) as (μ1 & Wr). rewrite <- L8 in Wr.
    assert (H8 : length (bytes_of_i64 z) ≤ length vf) by lia.
    pose proof (filling_value _ _ _ _ _ _ _ _ _ F Hvf H8 Wr) as F1.
    replace (length vd + 8) with (length (vd ++ bytes_of_i64 z)) in Ec by (rewrite length_app; lia).
    destruct (IH (pre ++ [a]) zs (rpre ++ bytes_of_i64 z) kd (vd ++ bytes_of_i64 z) _ _ s3 μ1 Hs' ltac:(lia)
      ltac:(by rewrite length_app, Nat.add_1_r) ltac:(by rewrite length_app, L8) Hr' Hk
      ltac:(rewrite length_app; unfold cells_of; lia) Ec Hx F1) as (-> & μ2 & Mv & F2).
    unfold cells_of in *. rewrite <- !app_assoc in *. split; [done|]. exists μ2. split; [|done].
    eapply moves_trans; [by eapply writes_moves|done].
Qed.
End insert_loop.

(** *** What the call sees *)

Lemma load_string_here (m : memory) r (bs : cstr) rest :
  m !! r = Some ((MByte <$> bs) ++ rest) → load_string m (PStack r 0) (length bs) = Some bs.
Proof.
  intros Hm. unfold load_string. assert (Hl : length bs = length (fmap MByte bs : list memval)) by by rewrite length_mbytes.
  rewrite Hl, (load_bytes_at _ r 0 [] _ rest) by done. apply mapM_bytes.
Qed.

Lemma load_constant (m : memory) (bs : cstr) : load_bytes m (PString bs 0) (length bs) = Some (MByte <$> bs).
Proof.
  unfold load_bytes. rewrite decide_True by (rewrite length_mbytes, length_app; simpl; lia).
  unfold Machine.slice. rewrite fmap_app. simpl. f_equal. rewrite <- (length_mbytes bs) at 1. apply take_app_length.
Qed.

Lemma load_string_constant (m : memory) (bs : cstr) : load_string m (PString bs 0) (length bs) = Some bs.
Proof. unfold load_string. rewrite load_constant. apply mapM_bytes. Qed.

Lemma word_index n : (Z.of_nat n < 2 ^ 16)%Z → Z.to_nat (pattern 64 (Z.of_nat n)) = n.
Proof.
  intros Hn. rewrite small_pattern; [apply Nat2Z.id|]. change (2 ^ Z.of_nat 64)%Z with (2 ^ 64)%Z. lia.
Qed.

Lemma call_insert m (w : World E C G) k v key value :
  (Z.of_nat (length key) < 2 ^ 16)%Z → (Z.of_nat (length value) < 2 ^ 16)%Z →
  load_string m k (length key) = Some key → load_string m v (length value) = Some value →
  call_runtime (lit "foedus_insert") [RPtr (PHost HProcArguments); RPtr k; RInt 64 (pattern 64 (Z.of_nat (length key)));
    RPtr v; RInt 64 (pattern 64 (Z.of_nat (length value)))] m w =
  Ok (rbool (foedus_insert key value w).1, m, (foedus_insert key value w).2).
Proof.
  intros Hk Hv Lk Lv. unfold call_runtime. rewrite !decide_False, decide_True by done.
  rewrite !word_index by done. rewrite Lk. cbn [Machine.of_option mbind result_bind]. rewrite Lv.
  cbn [Machine.of_option mbind result_bind]. by destruct (foedus_insert key value w).
Qed.

(** *** The sizes of records *)

Lemma length_cells sel attrs zs :
  Forall plain_column attrs → length zs = length attrs → length (cells sel attrs (cells_of zs)) ≤ 8 * length attrs.
Proof.
  intros Ha. revert zs. induction Ha as [|a attrs Ha Has IH]; intros [|z zs] Hl; try done.
  unfold cells_of in *. rewrite fmap_cons. cbn [cells length] in *. rewrite length_app.
  specialize (IH zs ltac:(lia)). rewrite plain_cell by done. destruct (sel a); [rewrite length_bytes_of_i64|simpl]; lia.
Qed.

Lemma record_bounds sch zs kn vn :
  Forall plain_column (attrs_ sch) → short_records sch → length zs = columns sch →
  get_fixed_key_length sch = Ok kn → get_fixed_value_length sch = Ok vn →
  kn = length (key_bytes sch (cells_of zs)) + 1 ∧ vn = length (val_bytes sch (cells_of zs)) ∧
  (Z.of_nat kn < 2 ^ 16)%Z ∧ (Z.of_nat vn < 2 ^ 16)%Z ∧ (Z.of_nat (8 * columns sch) < 2 ^ 16)%Z.
Proof.
  intros Ha Hs Hl Hk Hv. destruct (plain_lengths sch zs Ha Hl) as [Lk Lv]. rewrite Hk in Lk. rewrite Hv in Lv.
  injection Lk as ->. injection Lv as ->. unfold short_records in Hs. unfold columns in *.
  pose proof (length_cells is_key _ zs Ha Hl). pose proof (length_cells value_column _ zs Ha Hl).
  change (get_key_prefix sch) with (get_prefix sch) in Hs.
  unfold key_bytes, val_bytes. rewrite length_app. split_and!; [done|done|lia..].
Qed.

Lemma length_row_bytes zs : length (row_bytes zs) = 8 * length zs.
Proof.
  unfold row_bytes, bytes_of_i64. rewrite (list_fmap_compose (λ z, z mod two_64)%Z (le_split 8)), length_concat_words.
  by rewrite length_fmap.
Qed.
(** *** The statement *)

Section insert.
Context (ann : annotations).
Abbreviation member := (member_of ann).
Abbreviation get_value := (get_value member).
Abbreviation get_type := (get_type member).
Abbreviation eval_expr := (eval_expr member).

(** What [Insert::codegen] does, call by call. *)
Lemma insert_inv sp table e s u s' :
  codegen_insert ann sp table e s = Ok (u, s') →
  ∃ v s1 sch t s2 k s3 n ts sl u1 s4 buff s5 u2 s6 r s7 key s8 value s9 f w,
    local_schema_table_ s !! table = Some sch ∧ get_value sp [0] e s = Ok (v, s1) ∧
    get_type sp [0] e s1 = Ok (t, s2) ∧ get_type sp [0] e s2 = Ok (TStruct k, s3) ∧
    struct_types s3 !! k = Some (n, ts) ∧ slots_table s3 !! sp = Some sl ∧
    CreateStore v (tuple_stack_ sl) s3 = Ok (u1, s4) ∧ CreateBitCast (tuple_stack_ sl) i8ptr s4 = Ok (buff, s5) ∧
    CreateMemCpy (key_stack_ sl) (prefix_ sl) (CInt 64 (Z.of_nat (length (get_key_prefix sch)))) s5 = Ok (u2, s6) ∧
    insert_columns sch buff (key_stack_ sl) (value_stack_ sl) 0 (length ts) (length (get_key_prefix sch)) 0 0 s6 = Ok (r, s7) ∧
    CreateBitCast (key_stack_ sl) i8ptr s7 = Ok (key, s8) ∧ CreateBitCast (value_stack_ sl) i8ptr s8 = Ok (value, s9) ∧
    functions_table_ s9 !! lit "__insert" = Some f ∧
    insert_instr (ICall f [CHost HProcArguments; key; CInt 64 (Z.of_nat r.1); value; CInt 64 (Z.of_nat r.2)]) s9 = Ok (w, s').
Proof.
  unfold codegen_insert. rewrite gets_run. intros Ec. apply cg_bind_Ok in Ec as (v & s1 & E1 & Ec).
  apply cg_bind_Ok in Ec as (sch & sx & Ex & Ec). destruct (local_schema_table_ s !! table) as [sch'|]; [|done].
  injection Ex as <- <-. apply cg_bind_Ok in Ec as (t & s2 & E2 & Ec). destruct (isStructTy t); [|done].
  apply cg_bind_Ok in Ec as (t3 & s3 & E3 & Ec). rewrite gets_run in Ec. destruct t3 as [| | | | |k]; try done.
  destruct (struct_types s3 !! k) as [[n ts]|] eqn:Hk; [|done]. apply cg_bind_Ok in Ec as (ts' & sx & Ex & Ec).
  injection Ex as <- <-. unfold node_slots in Ec. apply cg_bind_Ok in Ec as (sl & sx & Ex & Ec).
  rewrite gets_run in Ex. destruct (slots_table s3 !! sp) as [sl'|] eqn:Hsl; [|done]. injection Ex as <- <-.
  apply cg_bind_Ok in Ec as (u1 & s4 & E4 & Ec). apply cg_bind_Ok in Ec as (buff & s5 & E5 & Ec).
  apply cg_bind_Ok in Ec as (u2 & s6 & E6 & Ec). apply cg_bind_Ok in Ec as (r & s7 & E7 & Ec).
  apply cg_bind_Ok in Ec as (key & s8 & E8 & Ec). apply cg_bind_Ok in Ec as (value & s9 & E9 & Ec).
  simpl in Ec. unfold Foedus.emit_insert in Ec. apply cg_bind_Ok in Ec as (w & s10 & E10 & Ec). injection Ec as _ <-.
  apply call_table_inv in E10 as (f & Hf & E10). exists v, s1, sch', t, s2, k, s3, n, ts, sl', u1, s4, buff, s5, u2, s6, r, s7.
  do 6 eexists. split_and!; eauto.
Qed.

(** The row in its place and the prefix of the table in the buffer: the columns can be copied. *)
Lemma insert_start s v sl sch kr vr tr kn vn tt t u1 s4 buff s5 u2 s6 σ μ zs sp :
  static s → good_types s → rel s σ μ → at_pc μ s → slots_table s !! sp = Some sl →
  slots_ok (next_id s) (variable_table_ s) sp sl t None sch kr vr tr kn vn tt →
  eval ss (regs μ) v = Some (rv (VRow (VInt <$> zs))) → res_typed ss (type_of v) (VRow (VInt <$> zs)) →
  Forall plain_column (attrs_ sch) → short_records sch → length zs = columns sch →
  CreateStore v (tuple_stack_ sl) s = Ok (u1, s4) → CreateBitCast (tuple_stack_ sl) i8ptr s4 = Ok (buff, s5) →
  CreateMemCpy (key_stack_ sl) (prefix_ sl) (CInt 64 (Z.of_nat (length (get_key_prefix sch)))) s5 = Ok (u2, s6) →
  extends s6 →
  ∃ k n ts μ6, type_of v = TStruct k ∧ ss !! k = Some (n, ts) ∧ length ts = length zs ∧ type_of buff = i8ptr ∧
    moves s s6 μ μ6 ∧
    filling buff kr vr tr kn vn (MByte <$> row_bytes zs) s6 σ μ6 (get_key_prefix sch) [].
Proof.
  intros Sta Gd R A Hsl K V Ty Ha Hsh Hl E4 E5 E6 Hx6.
  rewrite (sl_key K), (sl_tuple K), (sl_prefix K) in *. destruct (sl_below K) as (Bk & Bv & Bt).
  destruct (sl_apart K) as (Dkv & Dkt & Dvt). destruct (sl_private K) as [Pk Pv]. pose proof (sl_kind K) as Pt. simpl in Pt.
  destruct (record_bounds _ zs _ _ Ha Hsh Hl (sl_key_size K) (sl_value_size K)) as (Ekn & Evn & Bkn & Bvn & Brow).
  apply store_inv in E4 as [[= ->] [w E4]]. destruct Ty as [[_ ?]|Ty]; [done|].
  assert (∃ k, type_of v = TStruct k) as [k Tv] by (inversion Ty; eauto).
  pose proof (emitter_insert (IStore v _) eq_refl _ _ _ (at_pc_valid _ _ A) E4) as J4.
  pose proof (emitter_bitcast _ _ _ _ _ (emits_valid _ _ J4) E5) as J5.
  pose proof (emitter_memcpy _ _ _ _ _ _ (emits_valid _ _ J5) E6) as J6.
  assert (Hx5 : extends s5) by by eapply extends_emits. assert (Hx4 : extends s4) by by eapply extends_emits.
  assert (Lt : live μ tr (type_of v)) by (eapply (r_slots _ _ _ R); [exact Hsl|rewrite (sl_tuple K); set_solver]).
  assert (Lk : live μ kr (TArray i8 kn)) by (eapply (r_slots _ _ _ R); [exact Hsl|rewrite (sl_key K); set_solver]).
  assert (Lv : live μ vr (TArray i8 vn)) by (eapply (r_slots _ _ _ R); [exact Hsl|rewrite (sl_value K); set_solver]).
  destruct Lt as [Vt (bt & Mt & Nt)]. destruct Lk as [Vk (bk & Mk & Nk)]. destruct Lv as [Vv (bv & Mv & Nv)].
  rewrite size_bytes in Nk, Nv.
  destruct (store_step _ _ _ _ _ μ tr 0 _ _ bt E4 Hx4 A V Ty eq_refl Vt Mt ltac:(lia)) as
    (μ4 & new & St & A4 & Ag & Hw & He & Hn & _ & Hm).
  rewrite patched_whole in Hm by congruence. rewrite Tv in He, Ty.
  destruct (int_row_bytes _ _ _ Ty He) as (n & ts & Hk & _ & Hlen & Hnew & _).
  destruct (insert_next _ _ _ _ E4) as (N4 & _ & L4).
  assert (W4 : writes s s4 μ μ4 tr new) by (split_and!; auto; lia).
  destruct (writes_rel _ _ _ _ _ _ bt _ Sta W4 R Pt Mt ltac:(congruence)) as [S4 R4].
  destruct (bitcast_step _ _ _ _ μ4 _ (RPtr (PStack tr 0)) E5 Hx5 A4 ltac:(simpl; by rewrite Ag) ltac:(apply bool_decide_eq_true; lia))
    as (μ5 & Q5 & V5 & B5).
  pose proof (quiet_rel _ _ _ _ _ S4 Q5 R4) as R5. pose proof Q5 as (_ & A5 & Ag5 & M5 & _ & L5 & N5).
  assert (S5 : static s5) by (eapply static_later; [exact L5|lia|done]).
  assert (M5k : mem μ5 !! kr = Some bk) by by rewrite M5, Hm, lookup_insert_ne.
  assert (Hpre : length (get_key_prefix sch) ≤ kn).
  { rewrite Ekn. unfold key_bytes. change (get_key_prefix sch) with (get_prefix sch). rewrite length_app. lia. }
  destruct (memcpy_step _ _ _ _ _ _ μ5 kr 0 (PString (get_key_prefix sch) 0) (MByte <$> get_key_prefix sch) bk E6 Hx6 A5
    ltac:(simpl; by rewrite Ag5, Ag by lia) eq_refl ltac:(apply bool_decide_eq_true; lia) eq_refl ltac:(lia)
    (load_constant _ _) M5k ltac:(lia) (length_mbytes _)) as (μ6 & W6).
  assert (Hpl : length (patched 0 (MByte <$> get_key_prefix sch) bk) = length bk)
    by (apply patched_length; rewrite length_mbytes; lia).
  assert (P5 : private (variable_table_ s5) kr) by by rewrite (later_variables _ _ L5), (later_variables _ _ L4).
  destruct (writes_rel _ _ _ _ _ _ bk _ S5 W6 R5 P5 M5k Hpl) as [S6 R6].
  pose proof W6 as (_ & A6 & Ag6 & M6 & _ & L6 & N6).
  exists k, n, ts, μ6. do 3 (split; [done|]). split; [by eapply bitcast_type|]. split.
  - eapply moves_trans; [by eapply writes_moves|]. eapply moves_trans; [by eapply quiet_moves|by eapply writes_moves].
  - assert (Lv6 : later s s6) by (transitivity s4; [done|by transitivity s5]). split; rewrite ?(later_variables _ _ Lv6); auto.
    + split; [by eapply value_kept|by eapply below_mono].
    + by rewrite !Ag6, !Ag5, !Ag by lia.
    + lia.
    + rewrite M6, lookup_insert_ne, M5, Hm by done. rewrite lookup_insert_eq. by subst new.
    + rewrite M6, lookup_insert_eq. eexists. split; [done|]. rewrite length_drop, length_mbytes. simpl. lia.
    + exists bv. split; [|simpl; lia]. by rewrite M6, lookup_insert_ne, M5, Hm, lookup_insert_ne.
Qed.
(** The call of the engine with what the buffers hold. *)
Lemma insert_call buff kr vr tr kn vn row s σ μ kd vd key s8 value s9 f w s' :
  filling buff kr vr tr kn vn row s σ μ kd vd → (Z.of_nat kn < 2 ^ 16)%Z → (Z.of_nat vn < 2 ^ 16)%Z →
  CreateBitCast (Reg kr (TPtr (TArray i8 kn))) i8ptr s = Ok (key, s8) →
  CreateBitCast (Reg vr (TPtr (TArray i8 vn))) i8ptr s8 = Ok (value, s9) →
  functions_table_ s9 !! lit "__insert" = Some f →
  insert_instr (ICall f [CHost HProcArguments; key; CInt 64 (Z.of_nat (length kd)); value; CInt 64 (Z.of_nat (length vd))])
    s9 = Ok (w, s') →
  extends s' → reaches s μ s' (set_world σ (foedus_insert kd vd (env_world σ)).2).
Proof.
  intros F Hkn Hvn E8 E9 Hf Ei Hx. destruct F as [Sta A R _ [V1 V2] [B1 B2] _ _ (kf & Hk & Lk) (vf & Hv & Lv)].
  pose proof (emitter_bitcast _ _ _ _ _ (at_pc_valid _ _ A) E8) as J8.
  pose proof (emitter_bitcast _ _ _ _ _ (emits_valid _ _ J8) E9) as J9.
  pose proof (emitter_insert (ICall _ _) eq_refl _ _ _ (emits_valid _ _ J9) Ei) as Ji.
  assert (Hx9 : extends s9) by by eapply extends_emits. assert (Hx8 : extends s8) by by eapply extends_emits.
  destruct (bitcast_step _ _ _ _ μ _ (RPtr (PStack kr 0)) E8 Hx8 A V1 ltac:(by apply bool_decide_eq_true))
    as (μ8 & Q8 & V8 & B8). pose proof Q8 as (_ & A8 & Ag8 & M8 & _ & _ & N8).
  destruct (bitcast_step _ _ _ _ μ8 _ (RPtr (PStack vr 0)) E9 Hx9 A8 ltac:(simpl; by rewrite Ag8)
    ltac:(apply bool_decide_eq_true; lia)) as (μ9 & Q9 & V9 & B9).
  pose proof (quiet_step_trans _ _ _ _ _ _ Q8 Q9) as Q. pose proof (quiet_rel _ _ _ _ _ Sta Q R) as R9.
  pose proof Q9 as (_ & A9 & Ag9 & _). pose proof Q as (_ & _ & _ & M9 & _ & L9 & N9).
  assert (S9 : static s9) by by eapply static_later. rewrite (st_insert _ S9) in Hf. injection Hf as <-.
  eapply moves_reaches; [by eapply quiet_moves|].
  eapply call_performs; [exact Ei|exact Hx|exact S9|exact R9|done|..].
  - apply mapM_Some. repeat constructor; [by eapply value_kept|done].
  - simpl symbol. rewrite <- (r_world _ _ _ R9). apply call_insert; [lia|lia|..].
    + rewrite M9. by eapply load_string_here.
    + rewrite M9. by eapply load_string_here.
Qed.

Lemma keeper_memcpy d s n : keeper (CreateMemCpy d s n).
Proof. unfold CreateMemCpy. keeping. Qed.
Lemma keeper_insert_columns sc b k v i n ki vi off : keeper (insert_columns sc b k v i n ki vi off).
Proof.
  pose proof keeper_memcpy. revert i ki vi off. induction n as [|n IH]; intros i ki vi off; cbn [insert_columns]; keeping.
Qed.
Lemma keeper_codegen_insert sp t e : keeper (codegen_insert ann sp t e).
Proof.
  pose proof keeper_memcpy. pose proof keeper_insert_columns. pose proof keeper_call_table.
  unfold codegen_insert, node_slots. simpl emit_insert. unfold Foedus.emit_insert. keeping.
Qed.
Lemma faithful_insert sp t e :
  emit_supported e = true → d_nodes m_decls !! sp = Some (t, None) →
  faithful (codegen_insert ann sp t e)
    (λ σ, '(v, σ) ← eval_expr sp [0] e σ; insert_row (d_tables m_decls) t v σ).
Proof.
  intros He Hn. split_and!; [|apply emitter_codegen_insert|apply keeper_codegen_insert].
  intros s u s' σ σ' μ Sta Gd Ec Hx Ee A R.
  apply insert_inv in Ec as (v & s1 & sch & t2 & s2 & k & s3 & n & ts & sl & u1 & s4 & buff & s5 & u2 & s6 & r & s7 & key &
    s8 & value & s9 & f & w & Hsch & E1 & E2 & E3 & Hk & Hsl & E4 & E5 & E6 & E7 & E8 & E9 & Hf & E10).
  inv_prog. rename e0 into σ1. unfold insert_row, table_of in Hk0. rewrite (st_schemas _ Sta _ _ Hsch) in Hk0. cbn [Machine.of_option mbind result_bind] in Hk0.
  destruct (decide _) as [[Hp Hsh]|]; [|done]. cbn [mbind result_bind] in Hk0. destruct v0 as [| | | |vs]; try done.
  destruct (mapM int_of vs) as [zs|] eqn:Hz; [|done]. cbn [Machine.of_option mbind result_bind] in Hk0.
  destruct (decide _) as [Hl|]; [|done]. injection Hk0 as <-. apply mapM_int_of in Hz as ->.
  pose proof (emitter_get_value _ _ _ _ _ _ _ (at_pc_valid _ _ A) E1) as J1.
  pose proof (emitter_get_type _ _ _ _ _ _ _ (emits_valid _ _ J1) E2) as J2.
  pose proof (emitter_get_type _ _ _ _ _ _ _ (emits_valid _ _ J2) E3) as J3.
  pose proof (emitter_store _ _ _ _ _ (emits_valid _ _ J3) E4) as J4.
  pose proof (emitter_bitcast _ _ _ _ _ (emits_valid _ _ J4) E5) as J5.
  pose proof (emitter_memcpy _ _ _ _ _ _ (emits_valid _ _ J5) E6) as J6.
  pose proof (emitter_insert_columns _ _ _ _ _ _ _ _ _ _ _ _ (emits_valid _ _ J6) E7) as J7.
  pose proof (emitter_bitcast _ _ _ _ _ (emits_valid _ _ J7) E8) as J8.
  pose proof (emitter_bitcast _ _ _ _ _ (emits_valid _ _ J8) E9) as J9.
  pose proof (emitter_insert (ICall f _) eq_refl _ _ _ (emits_valid _ _ J9) E10) as J10.
  assert (Hx9 : extends s9) by by eapply extends_emits. assert (Hx8 : extends s8) by by eapply extends_emits.
  assert (Hx7 : extends s7) by by eapply extends_emits. assert (Hx6 : extends s6) by by eapply extends_emits.
  assert (Hx3 : extends s3) by (eapply extends_emits, Hx6; eapply emits_trans; [exact J4|by eapply emits_trans]).
  assert (Hx1 : extends s1) by (eapply extends_emits, Hx3; by eapply emits_trans).
  destruct (sound_then _ _ _ _ _ _ _ _ _ (sound_get_value _ sp [0] e
    (expression_correct _ e (emit_supported_rows e He) sp [0])) Sta Gd E1 Hx1 Hm A R)
    as (S1 & G1 & L1 & _ & μ1 & St1 & A1 & Ag1 & N1 & R1 & V1 & T1 & B1).
  destruct (ask_type _ _ _ _ _ _ _ _ _ S1 G1 E2 A1 R1) as (S2 & G2 & L2 & N2 & A2 & R2).
  destruct (ask_type _ _ _ _ _ _ _ _ _ S2 G2 E3 A2 R2) as (S3 & G3 & L3 & N3 & A3 & R3).
  destruct (st_slots _ S3 _ _ Hsl) as (t' & x & sch' & kr & vr & tr & kn & vn & tt & K).
  pose proof (sl_node K) as Hn'. rewrite Hn in Hn'. injection Hn' as <- <-.
  assert (sch' = sch) as ->.
  { pose proof (sl_schema K) as H1. rewrite (st_schemas _ Sta _ _ Hsch) in H1. by injection H1. }
  destruct (insert_start _ _ _ _ _ _ _ _ _ _ _ _ _ _ _ _ _ _ _ _ _ S3 G3 R3 A3 Hsl K V1 T1 Hp Hsh Hl E4 E5 E6 Hx6)
    as (k' & n' & ts' & μ6 & Tv & Hk' & Hlen & Tb & Mv6 & F6).
  assert (L12 : later s1 s2) by done.
  pose proof (emit_elements _ sp e s v s1 s2 k' k s3 n' n ts' ts He Gd E1 G2 L2 E3 Hx3 Tv Hk' Hk) as ->.
  destruct (record_bounds _ zs _ _ Hp Hsh Hl (sl_key_size K) (sl_value_size K)) as (Ekn & Evn & Bkn & Bvn & Brow).
  rewrite (sl_key K), (sl_value K), Hlen, Hl in *.
  destruct (sl_apart K) as (Dkv & Dkt & Dvt).
  destruct (insert_columns_run sch buff kr vr tr kn vn (MByte <$> row_bytes zs) Tb
    ltac:(rewrite length_mbytes, length_row_bytes, Hl; done) Bkn Bvn Dkv Dkt Dvt [] (attrs_ sch) zs [] (get_key_prefix sch) [] 0 0
    s6 r s7 σ1 μ6) as (-> & μ7 & Mv7 & F7); try done.
  { rewrite Ekn. unfold key_bytes. change (get_key_prefix sch) with (get_prefix sch). rewrite length_app. lia. }
  { rewrite Evn. unfold val_bytes. simpl. lia. }
  apply (moves_reaches s s7 s' μ μ7).
  { split_and!; [|eapply agree_trans; [exact Ag1| |exact N1]|]; destruct Mv6 as (? & Ag6 & ?), Mv7 as (? & Ag7 & ?).
    - etrans; [exact St1|]. by etrans.
    - intros q Hq. rewrite Ag7 by lia. apply Ag6. lia.
    - lia. }
  by eapply insert_call.
Qed.
End insert.
End code.
