(* ===== verification/ScanCode.v ===== *)
(** * ScanCode: compiled scans do what the statements mean

    The code of a [scan] asks the engine for a cursor and goes round a loop: while the cursor is at
    a record, the engine copies the record's key and value into the scan's buffers, the row is built
    from the words at the columns' places and stored in the row variable, the body runs, and the
    cursor moves on.  At the end the cursor is destroyed. *)

From Stdlib Require Import ZArith NArith Ascii String Lia.
From stdpp Require Import base option list strings gmap relations.
From S2P Require Import Prelude Value Attr Schema Ast Visit LLVM CodegenExpr CodegenStmt Compile Machine.
From S2P Require Import Layout Declare Runtime Semantics Shape Typing Simulate ExprCorrect StmtCorrect TableCode.

Section code.
Context `{L : LLVM} `{LT : !LLVMTyping} `{PL : !PrintLaws} `{T : Target} `{TL : !TargetLaws}
  `{LF : !LLVMFolds}.
Context {E C G : Type} `{FA : FoedusAPI E C} `{RG : Random G} `{RL : !RandomLaws G} `{MM : Module}.
Abbreviation ss := m_structs.
Abbreviation P := m_code.
Abbreviation machine := (mstate (W := World E C G)).
Abbreviation steps := (steps_to (W := World E C G) ss call_runtime P).

(** ** A record *)

(** *** Reading the columns *)

(** A word of a buffer is loaded. *)
Lemma load_word p s w s1 v s2 μ r off d bs rest :
  CreateBitCast p i64ptr s = Ok (w, s1) → CreateLoad w s1 = Ok (v, s2) → extends s2 → at_pc μ s →
  eval ss (regs μ) p = Some (RPtr (PStack r off)) → below (next_id s) p = true →
  mem μ !! r = Some ((MByte <$> d) ++ rest) → mem_read d off 8 = Ok bs →
  ∃ μ', quiet_step s s2 μ μ' ∧ eval ss (regs μ') v = Some (rv (VInt (i64_of_bytes bs))) ∧ type_of v = i64 ∧
    below (next_id s2) v = true.
Proof.
  intros E1 E2 Hx A V B Hm Hr. unfold mem_read in Hr. destruct (decide _) as [Hl|]; [|done]. injection Hr as Hr.
  pose proof (emitter_bitcast _ _ _ _ _ (at_pc_valid _ _ A) E1) as J1.
  pose proof (emitter_load _ _ _ _ (emits_valid _ _ J1) E2) as J2.
  assert (Hx1 : extends s1) by by eapply extends_emits.
  destruct (bitcast_step _ _ _ _ μ _ _ E1 Hx1 A V B) as (μ1 & Q1 & V1 & B1).
  pose proof Q1 as (_ & A1 & _ & M1 & _). apply create_load_inv in E2.
  assert (L8 : length bs = 8) by (rewrite <- Hr, length_take, length_drop; lia).
  destruct (load_step _ _ _ _ μ1 r off i64 ((MByte <$> d) ++ rest) (rv (VInt (i64_of_bytes bs))) E2 Hx A1 V1)
    as (μ2 & Q2 & V2 & T2 & B2).
  - by apply bitcast_type in E1.
  - by rewrite M1.
  - rewrite size_i64, length_app, length_mbytes. lia.
  - rewrite size_i64. assert (Hs : Machine.slice off 8 ((MByte <$> d) ++ rest) = MByte <$> bs).
    { unfold Machine.slice. rewrite drop_app_le by (rewrite length_mbytes; lia).
      rewrite take_app_le by (rewrite length_drop, length_mbytes; lia). by rewrite <- fmap_drop, <- fmap_take, Hr. }
    rewrite Hs, decode_i64 by done. simpl. do 2 f_equal. unfold i64_of_bytes. rewrite pattern_signed.
    symmetry. apply small_pattern. pose proof (le_combine_range bs) as Hc. rewrite L8 in Hc. done.
  - exists μ2. split_and!; auto. by eapply quiet_step_trans.
Qed.

Section columns.
Context (sch : Schema) (key : lvalue) (kr vr kn vn : nat) (kd vd : cstr).
Context (Tk : type_of key = i8ptr) (Hkn : (Z.of_nat kn < 2 ^ 16)%Z) (Hvn : (Z.of_nat vn < 2 ^ 16)%Z).

(** Both buffers hold the record. *)
Record reading (s : cstate) (μ : machine) : Prop := {
  rd_key : eval ss (regs μ) key = Some (RPtr (PStack kr 0)) ∧ below (next_id s) key = true;
  rd_value : regs μ !! vr = Some (RPtr (PStack vr 0)) ∧ vr < next_id s;
  rd_key_data : ∃ f, mem μ !! kr = Some ((MByte <$> kd) ++ f) ∧ length kd + length f = kn;
  rd_value_data : ∃ f, mem μ !! vr = Some ((MByte <$> vd) ++ f) ∧ length vd + length f = vn;
}.

Lemma reading_quiet s s' μ μ' : reading s μ → quiet_step s s' μ μ' → reading s' μ'.
Proof.
  intros [[V1 B1] [V2 B2] K D] (_ & _ & Ag & M & _ & _ & N). split; rewrite ?M; auto.
  - split; [by eapply value_kept|by eapply below_mono].
  - rewrite Ag by done. split; [done|lia].
Qed.

(** The next element of the row; the address is in the key or in the value. *)
Lemma next_element p w v prev i w' s s1 s2 s3 s4 μ μ1 r off d bs rest acc m k n ts :
  CreateBitCast p i64ptr s1 = Ok (w, s2) → CreateLoad w s2 = Ok (v, s3) → CreateInsertValue prev v i s3 = Ok (w', s4) →
  extends s4 → quiet_step s s1 μ μ1 →
  eval ss (regs μ1) p = Some (RPtr (PStack r off)) → below (next_id s1) p = true →
  mem μ !! r = Some ((MByte <$> d) ++ rest) → mem_read d off 8 = Ok bs →
  ss !! k = Some (n, ts) → type_of prev = TStruct k → below (next_id s) prev = true → i = length acc →
  eval ss (regs μ) prev = Some (RAgg (acc ++ replicate (S m) RUndef)) →
  ∃ μ', quiet_step s s4 μ μ' ∧ type_of w' = TStruct k ∧ below (next_id s4) w' = true ∧
    eval ss (regs μ') w' = Some (RAgg ((acc ++ [rv (VInt (i64_of_bytes bs))]) ++ replicate m RUndef)).
Proof.
  intros E2 E3 E4 Hx Q1 V B Hm Hr Hk Tp Bp -> Vp. pose proof Q1 as (_ & A1 & Ag1 & M1 & _ & _ & N1).
  pose proof (emitter_bitcast _ _ _ _ _ (at_pc_valid _ _ A1) E2) as J2.
  pose proof (emitter_load _ _ _ _ (emits_valid _ _ J2) E3) as J3.
  pose proof (emitter_insert_value _ _ _ _ _ _ (emits_valid _ _ J3) E4) as J4.
  assert (Hx3 : extends s3) by by eapply extends_emits.
  destruct (load_word _ _ _ _ _ _ μ1 r off d bs rest E2 E3 Hx3 A1 V B ltac:(by rewrite M1) Hr) as (μ3 & Q3 & V3 & T3 & B3).
  pose proof (quiet_step_trans _ _ _ _ _ _ Q1 Q3) as Q. pose proof Q as (_ & A3 & Ag3 & _ & _ & _ & N3).
  destruct (insert_value_step _ _ _ _ _ _ μ3 k n ts (acc ++ replicate (S m) RUndef) (rv (VInt (i64_of_bytes bs)))
    E4 Hx3 Hx A3 Tp Hk) as (_ & μ4 & Q4 & V4 & T4 & B4); auto.
  - rewrite length_app, length_replicate. lia.
  - by eapply value_kept.
  - by eapply below_mono.
  - exists μ4. split_and!; auto; [by eapply quiet_step_trans|]. rewrite V4. do 2 f_equal.
    rewrite <- app_assoc. simpl. by rewrite insert_app_r_alt, Nat.sub_diag by lia.
Qed.

Lemma scan_columns_run m i ko vo prev s w s' μ zs acc k n ts :
  read_columns sch kd vd i m ko vo = Ok zs →
  scan_columns sch key (Reg vr (TPtr (TArray i8 vn))) i m ko vo prev s = Ok (w, s') → extends s' → at_pc μ s →
  reading s μ → ss !! k = Some (n, ts) → type_of prev = TStruct k → below (next_id s) prev = true → i = length acc →
  eval ss (regs μ) prev = Some (RAgg (acc ++ replicate m RUndef)) →
  ∃ μ', quiet_step s s' μ μ' ∧ type_of w = TStruct k ∧ below (next_id s') w = true ∧
    eval ss (regs μ') w = Some (RAgg (acc ++ (rv <$> (VInt <$> zs)))).
Proof.
  intros Hr Ec Hx A Rd Hk. revert i ko vo prev s μ zs acc Hr Ec A Rd.
  induction m as [|m IH]; intros i ko vo prev s μ zs acc Hr Ec A Rd Tp Bp -> Vp; cbn [read_columns scan_columns] in Hr, Ec.
  { injection Hr as <-. injection Ec as <- <-. exists μ. split; [by apply quiet_step_refl|]. by rewrite Vp. }
  apply cg_bind_Ok in Ec as (b & sx & Ex & Ec). unfold cg_lift in Ex.
  destruct (schema_is_key sch (length acc)) as [b'| | | |]; try done. injection Ex as <- <-. cbn [mbind result_bind] in Hr.
  destruct (rd_key _ _ Rd) as [V1 B1]. destruct (rd_value _ _ Rd) as [V2 B2].
  destruct (rd_key_data _ _ Rd) as (fk & Mk & Lk). destruct (rd_value_data _ _ Rd) as (fv & Mv & Lv).
  destruct b'.
  all: apply cg_bind_Ok in Ec as (p & s1 & E1 & Ec); apply cg_bind_Ok in Ec as (q & s2 & E2 & Ec).
  all: apply cg_bind_Ok in Ec as (v & s3 & E3 & Ec); apply cg_bind_Ok in Ec as (w' & s4 & E4 & Ec).
  all: pose proof (emitter_gep _ _ _ _ _ (at_pc_valid _ _ A) E1) as J1;
    pose proof (emitter_bitcast _ _ _ _ _ (emits_valid _ _ J1) E2) as J2;
    pose proof (emitter_load _ _ _ _ (emits_valid _ _ J2) E3) as J3;
    pose proof (emitter_insert_value _ _ _ _ _ _ (emits_valid _ _ J3) E4) as J4;
    pose proof (emitter_scan_columns _ _ _ _ _ _ _ _ _ _ _ (emits_valid _ _ J4) Ec) as J5;
    assert (Hx4 : extends s4) by (by eapply extends_emits);
    assert (Hx1 : extends s1) by (eapply extends_emits, Hx4; eapply emits_trans; [exact J2|by eapply emits_trans]).
  all: apply bind_Ok_inv in Hr as (bs & Hb & Hr); apply bind_Ok_inv in Hr as (zs' & Hz & Hr); injection Hr as <-.
  all: pose proof Hb as Hb'; unfold mem_read in Hb'; destruct (decide _) as [Hl|]; [clear Hb'|done].
  all: assert (Ls : S (length acc) = length (acc ++ [rv (VInt (i64_of_bytes bs))])) by (rewrite length_app; simpl; lia).
  - destruct (gep_bytes _ _ _ _ _ μ kr E1 Hx1 A Tk V1 B1 ltac:(lia)) as (μ1 & Q1 & Vp1 & _ & Bp1).
    destruct (next_element _ _ _ _ _ _ s s1 s2 s3 s4 μ μ1 kr ko kd bs fk acc m k n ts E2 E3 E4 Hx4 Q1 Vp1 Bp1 Mk Hb Hk Tp Bp
      eq_refl Vp) as (μ4 & Q4 & T4 & B4 & V4).
    pose proof Q4 as (_ & A4 & _).
    destruct (IH _ _ _ _ _ _ _ _ Hz Ec A4 (reading_quiet _ _ _ _ Rd Q4) T4 B4
      Ls V4) as (μ5 & Q5 & T5 & B5 & V5).
    exists μ5. split_and!; auto; [by eapply quiet_step_trans|]. by rewrite V5, <- app_assoc.
  - destruct (gep_array _ _ _ _ _ _ _ μ E1 Hx1 A V2 B2 ltac:(lia) ltac:(lia)) as (μ1 & Q1 & Vp1 & _ & Bp1).
    destruct (next_element _ _ _ _ _ _ s s1 s2 s3 s4 μ μ1 vr vo vd bs fv acc m k n ts E2 E3 E4 Hx4 Q1 Vp1 Bp1 Mv Hb Hk Tp Bp
      eq_refl Vp) as (μ4 & Q4 & T4 & B4 & V4).
    pose proof Q4 as (_ & A4 & _).
    destruct (IH _ _ _ _ _ _ _ _ Hz Ec A4 (reading_quiet _ _ _ _ Rd Q4) T4 B4
      Ls V4) as (μ5 & Q5 & T5 & B5 & V5).
    exists μ5. split_and!; auto; [by eapply quiet_step_trans|]. by rewrite V5, <- app_assoc.
Qed.
End columns.

(** *** Copying a record *)

(** A call that writes a region. *)
Lemma call_writes f args s v s' μ xs x r new :
  insert_instr (ICall f args) s = Ok (v, s') → extends s' → at_pc μ s → mapM (eval ss (regs μ)) args = Some xs →
  call_runtime (symbol f) xs (mem μ) (world μ) = Ok (x, <[r := new]> (mem μ), world μ) →
  ∃ μ', writes s s' μ μ' r new.
Proof.
  intros Ei Hx A Hxs Hc. destruct (insert_next _ _ _ _ Ei) as (N & _ & Lt).
  exists (mk_mstate (blk μ) (S (idx μ)) (pred μ) (<[next_id s := x]> (regs μ)) (<[r := new]> (mem μ)) (world μ)).
  split_and!; [|by eapply at_pc_next|..]; try done; [| |lia].
  - eapply step_instr; [exact Ei|done|done|]. simpl. rewrite Hxs. simpl. by rewrite Hc.
  - intros q Hq. simpl. by rewrite lookup_insert_ne by lia.
Qed.

Lemma store_here (m : memory) r old (bs : cstr) :
  m !! r = Some old → length bs ≤ length old →
  store_bytes m (PStack r 0) (MByte <$> bs) = Some (<[r := patched 0 (MByte <$> bs) old]> m).
Proof. intros Hm Hl. unfold store_bytes. rewrite Hm. cbn [mbind option_bind]. by rewrite decide_True by (rewrite length_mbytes; lia). Qed.

Lemma call_copy_key n p (m m' : memory) (w : World E C G) k :
  foedus_cursor_copy_key n w = Ok k → store_bytes m p (MByte <$> k) = Some m' →
  call_runtime (lit "foedus_cursor_copy_key") [RPtr (PCursor n); RPtr p] m w = Ok (RUndef, m', w).
Proof. intros Hk Hm. unfold call_runtime. rewrite !decide_False, decide_True by done. rewrite Hk. simpl. by rewrite Hm. Qed.

Lemma call_copy_value n p (m m' : memory) (w : World E C G) v :
  foedus_cursor_copy_value n w = Ok v → store_bytes m p (MByte <$> v) = Some m' →
  call_runtime (lit "foedus_cursor_copy_value") [RPtr (PCursor n); RPtr p] m w = Ok (RUndef, m', w).
Proof. intros Hk Hm. unfold call_runtime. rewrite !decide_False, decide_True by done. rewrite Hk. simpl. by rewrite Hm. Qed.

(** A buffer is filled by one of the two calls. *)
Lemma copy_step f cursor p s w s' μ r old c (bs : cstr) :
  insert_instr (ICall f [cursor; p]) s = Ok (w, s') → extends s' → at_pc μ s →
  eval ss (regs μ) cursor = Some (RPtr (PCursor c)) → eval ss (regs μ) p = Some (RPtr (PStack r 0)) →
  mem μ !! r = Some old → length bs ≤ length old →
  (∀ m', store_bytes (mem μ) (PStack r 0) (MByte <$> bs) = Some m' →
     call_runtime (symbol f) [RPtr (PCursor c); RPtr (PStack r 0)] (mem μ) (world μ) = Ok (RUndef, m', world μ)) →
  ∃ μ', writes s s' μ μ' r ((MByte <$> bs) ++ drop (length bs) old).
Proof.
  intros Ei Hx A Vc Vp Hm Hl Hc.
  destruct (call_writes _ _ _ _ _ μ [RPtr (PCursor c); RPtr (PStack r 0)] RUndef r (patched 0 (MByte <$> bs) old) Ei Hx A)
    as (μ' & W).
  - apply mapM_Some. by repeat constructor.
  - apply Hc. by apply store_here.
  - exists μ'. unfold patched in W. by rewrite length_mbytes in W.
Qed.
(** *** The code of a record *)

Lemma scan_row_inv sch rt sl (cursor : lvalue) s u s' :
  scan_row sch rt sl cursor s = Ok (u, s') →
  ∃ key s1 fk w1 s2 value s3 fv w2 s4 row s5,
    CreateBitCast (key_stack_ sl) i8ptr s = Ok (key, s1) ∧ functions_table_ s1 !! lit "__cursor_copy_key" = Some fk ∧
    insert_instr (ICall fk [cursor; key]) s1 = Ok (w1, s2) ∧ CreateBitCast (value_stack_ sl) i8ptr s2 = Ok (value, s3) ∧
    functions_table_ s3 !! lit "__cursor_copy_value" = Some fv ∧ insert_instr (ICall fv [cursor; value]) s3 = Ok (w2, s4) ∧
    scan_columns sch key (value_stack_ sl) 0 (columns sch) (length (get_key_prefix sch)) 0 (CUndef rt) s4 = Ok (row, s5) ∧
    CreateStore row (tuple_stack_ sl) s5 = Ok (u, s').
Proof.
  unfold scan_row. simpl emit_cursor_copy_key. simpl emit_cursor_copy_value.
  unfold Foedus.emit_cursor_copy_key, Foedus.emit_cursor_copy_value. intros Ec.
  apply cg_bind_Ok in Ec as (key & s1 & E1 & Ec). apply cg_bind_Ok in Ec as (u2 & s2 & E2 & Ec).
  apply cg_bind_Ok in E2 as (w2 & s2' & E2 & Ex). injection Ex as _ ->.
  apply cg_bind_Ok in Ec as (value & s3 & E3 & Ec). apply cg_bind_Ok in Ec as (u4 & s4 & E4 & Ec).
  apply cg_bind_Ok in E4 as (w4 & s4' & E4 & Ex). injection Ex as _ ->.
  apply cg_bind_Ok in Ec as (row & s5 & E5 & E6).
  apply call_table_inv in E2 as (fk & Hk & E2). apply call_table_inv in E4 as (fv & Hv & E4).
  do 12 eexists. split_and!; eauto.
Qed.

(** The types of the columns, and of the row's value. *)
Lemma scan_columns_type sch key vs i m ko vo prev s w s' :
  scan_columns sch key vs i m ko vo prev s = Ok (w, s') → type_of w = type_of prev.
Proof.
  revert i ko vo prev s. induction m as [|m IH]; intros i ko vo prev s Ec; cbn [scan_columns] in Ec; [by injection Ec as <- _|].
  apply cg_bind_Ok in Ec as (b & sx & Ex & Ec).
  destruct b; repeat match type of Ec with
    | (scan_columns _ _ _ _ _ _ _ _) _ = _ => rewrite (IH _ _ _ _ _ Ec)
    | _ => let E1 := fresh "F" in apply cg_bind_Ok in Ec as (? & ? & E1 & Ec)
    end; by eapply insert_value_type.
Qed.

Lemma int_row_typed k n ts zs :
  ss !! k = Some (n, ts) → all_i64 ts → length ts = length zs → Forall is_i64 zs →
  vtyped ss (TStruct k) (VRow (VInt <$> zs)).
Proof.
  intros Hk Hi Hl Hz. econstructor; [exact Hk|]. apply Forall2_fmap_r. clear Hk. revert zs Hl Hz.
  induction Hi as [|t ts -> Hi IH]; intros [|z zs] Hl Hz; try done. inversion Hz; subst.
  constructor; [by constructor|]. apply IH; [simpl in Hl; lia|done].
Qed.

Lemma read_columns_words sch k v i m ko vo zs :
  read_columns sch k v i m ko vo = Ok zs → Forall is_i64 zs ∧ length zs = m.
Proof.
  revert i ko vo zs. induction m as [|m IH]; intros i ko vo zs Hr; cbn [read_columns] in Hr.
  { injection Hr as <-. by split. }
  apply bind_Ok_inv in Hr as (b & _ & Hr). destruct b; apply bind_Ok_inv in Hr as (bs & _ & Hr);
    apply bind_Ok_inv in Hr as (zs' & Hz & [= <-]); destruct (IH _ _ _ _ Hz); (split; [|simpl; lia]); (constructor; [|done]);
    apply signed64_range.
Qed.
Lemma writes_later s s' μ μ' r new : writes s s' μ μ' r new → later s s'.
Proof. by intros (_ & _ & _ & _ & _ & ? & _). Qed.

(** The record is in the buffers. *)
Lemma copy_record sl t x sch kr vr tr kn vn tt sp cursor c s key s1 fk w1 s2 value s3 fv w2 s4 σ μ k v :
  static s → rel s σ μ → at_pc μ s → slots_table s !! sp = Some sl →
  slots_ok (next_id s) (variable_table_ s) sp sl t x sch kr vr tr kn vn tt →
  eval ss (regs μ) cursor = Some (RPtr (PCursor c)) → below (next_id s) cursor = true →
  foedus_cursor_copy_key c (env_world σ) = Ok k → foedus_cursor_copy_value c (env_world σ) = Ok v →
  length k ≤ kn → length v ≤ vn →
  CreateBitCast (key_stack_ sl) i8ptr s = Ok (key, s1) → functions_table_ s1 !! lit "__cursor_copy_key" = Some fk →
  insert_instr (ICall fk [cursor; key]) s1 = Ok (w1, s2) → CreateBitCast (value_stack_ sl) i8ptr s2 = Ok (value, s3) →
  functions_table_ s3 !! lit "__cursor_copy_value" = Some fv →
  insert_instr (ICall fv [cursor; value]) s3 = Ok (w2, s4) → extends s4 →
  later s s4 ∧ static s4 ∧
  ∃ μ4, moves s s4 μ μ4 ∧ at_pc μ4 s4 ∧ rel s4 σ μ4 ∧ type_of key = i8ptr ∧ reading key kr vr kn vn k v s4 μ4.
Proof.
  intros Sta R A Hsl K Vc Bc Hck Hcv Lk Lv E1 Hf1 E2 E3 Hf3 E4 Hx4.
  assert (Sk : live μ kr (TArray i8 kn)) by (eapply (r_slots _ _ _ R); [exact Hsl|rewrite (sl_key K); set_solver]).
  assert (Sv : live μ vr (TArray i8 vn)) by (eapply (r_slots _ _ _ R); [exact Hsl|rewrite (sl_value K); set_solver]).
  rewrite (sl_key K) in E1. rewrite (sl_value K) in E3.
  destruct (sl_below K) as (Bk & Bv & Bt). destruct (sl_apart K) as (Dkv & _). destruct (sl_private K) as [Pk Pv].
  destruct Sk as [Vk (bk & Mk & Nk)], Sv as [Vv (bv & Mv & Nv)]. rewrite size_bytes in Nk, Nv.
  pose proof (emitter_bitcast _ _ _ _ _ (at_pc_valid _ _ A) E1) as J1.
  pose proof (emitter_insert (ICall fk _) eq_refl _ _ _ (emits_valid _ _ J1) E2) as J2.
  pose proof (emitter_bitcast _ _ _ _ _ (emits_valid _ _ J2) E3) as J3.
  pose proof (emitter_insert (ICall fv _) eq_refl _ _ _ (emits_valid _ _ J3) E4) as J4.
  assert (Hx3 : extends s3) by by eapply extends_emits. assert (Hx2 : extends s2) by by eapply extends_emits.
  assert (Hx1 : extends s1) by by eapply extends_emits.
  destruct (bitcast_step _ _ _ _ μ _ (RPtr (PStack kr 0)) E1 Hx1 A Vk ltac:(by apply bool_decide_eq_true))
    as (μ1 & Q1 & V1 & B1). pose proof (quiet_rel _ _ _ _ _ Sta Q1 R) as R1.
  pose proof Q1 as (_ & A1 & Ag1 & M1 & _ & L1 & N1). assert (S1 : static s1) by by eapply static_later.
  rewrite (st_copy_key _ S1) in Hf1. injection Hf1 as <-.
  destruct (copy_step _ _ _ _ _ _ μ1 kr bk c k E2 Hx2 A1 ltac:(by eapply value_kept) V1 ltac:(by rewrite M1) ltac:(lia))
    as (μ2 & W2).
  { intros m' Hm'. simpl symbol. eapply call_copy_key; [by rewrite (r_world _ _ _ R1)|done]. }
  destruct (writes_rel _ _ _ _ _ _ bk _ S1 W2 R1 ltac:(by rewrite (later_variables _ _ L1)) ltac:(by rewrite M1))
    as [S2 R2]. { rewrite length_app, length_mbytes, length_drop. lia. }
  pose proof W2 as (_ & A2 & Ag2 & M2 & _ & L2 & N2).
  destruct (bitcast_step _ _ _ _ μ2 _ (RPtr (PStack vr 0)) E3 Hx3 A2 ltac:(simpl; by rewrite Ag2, Ag1 by lia)
    ltac:(apply bool_decide_eq_true; lia)) as (μ3 & Q3 & V3 & B3). pose proof (quiet_rel _ _ _ _ _ S2 Q3 R2) as R3.
  pose proof Q3 as (_ & A3 & Ag3 & M3 & _ & L3 & N3). assert (S3 : static s3) by by eapply static_later.
  rewrite (st_copy_value _ S3) in Hf3. injection Hf3 as <-.
  assert (M3v : mem μ3 !! vr = Some bv) by by rewrite M3, M2, lookup_insert_ne, M1.
  destruct (copy_step _ _ _ _ _ _ μ3 vr bv c v E4 Hx4 A3
    ltac:(rewrite (eval_agree ss (next_id s) (regs μ)); [done|done|intros q Hq; by rewrite Ag3, Ag2, Ag1 by lia])
    V3 M3v ltac:(lia)) as (μ4 & W4).
  { intros m' Hm'. simpl symbol. eapply call_copy_value; [by rewrite (r_world _ _ _ R3)|done]. }
  destruct (writes_rel _ _ _ _ _ _ bv _ S3 W4 R3
    ltac:(by rewrite (later_variables _ _ L3), (later_variables _ _ L2), (later_variables _ _ L1)) M3v) as [S4 R4].
  { rewrite length_app, length_mbytes, length_drop. lia. }
  pose proof W4 as (_ & A4 & Ag4 & M4 & _ & L4 & N4).
  split; [transitivity s2; [by transitivity s1|by transitivity s3]|]. split; [done|].
  exists μ4. split; [|split; [done|split; [done|split; [by eapply bitcast_type|split]]]].
  - eapply moves_trans; [by eapply quiet_moves|]. eapply moves_trans; [by eapply writes_moves|].
    eapply moves_trans; [by eapply quiet_moves|by eapply writes_moves].
  - split; [|eapply below_mono; [exact B1|lia]].
    rewrite (eval_agree ss (next_id s1) (regs μ1)); [done|done|]. intros q Hq. by rewrite Ag4, Ag3, Ag2 by lia.
  - split; [by rewrite Ag4, Ag3, Ag2, Ag1 by lia|lia].
  - exists (drop (length k) bk). rewrite M4, lookup_insert_ne, M3, M2, lookup_insert_eq by done.
    split; [done|]. rewrite length_drop. lia.
  - exists (drop (length v) bv). rewrite M4, lookup_insert_eq. split; [done|]. rewrite length_drop. lia.
Qed.
(** The row variable holds the row of the record. *)
Lemma scan_row_run sl t x sch kr vr tr kn vn tt sp cursor c rt s u s' σ μ k v zs :
  static s → rel s σ μ → at_pc μ s → extends s' → slots_table s !! sp = Some sl →
  slots_ok (next_id s) (variable_table_ s) sp sl t (Some x) sch kr vr tr kn vn tt →
  Forall plain_column (attrs_ sch) → short_records sch →
  eval ss (regs μ) cursor = Some (RPtr (PCursor c)) → below (next_id s) cursor = true →
  foedus_cursor_copy_key c (env_world σ) = Ok k → foedus_cursor_copy_value c (env_world σ) = Ok v →
  read_record sch k v = Ok zs → scan_row sch rt sl cursor s = Ok (u, s') →
  reaches s μ s' (set_var σ x (VRow (VInt <$> zs))).
Proof.
  intros Sta R A Hx Hsl K Ha Hsh Vc Bc Hck Hcv Hr Ec.
  apply scan_row_inv in Ec as (key & s1 & fk & w1 & s2 & value & s3 & fv & w2 & s4 & row & s5 & E1 & Hf1 & E2 & E3 & Hf3 & E4 & E5 & E6).
  unfold read_record in Hr. rewrite (sl_key_size K), (sl_value_size K) in Hr. cbn [mbind result_bind] in Hr.
  destruct (decide _) as [[Lk Lv]|]; [|done].
  destruct (record_bounds sch (replicate (columns sch) 0%Z) _ _ Ha Hsh (length_replicate _ _) (sl_key_size K) (sl_value_size K))
    as (_ & _ & Bkn & Bvn & _).
  pose proof (emitter_bitcast _ _ _ _ _ (at_pc_valid _ _ A) E1) as J1.
  pose proof (emitter_insert (ICall fk _) eq_refl _ _ _ (emits_valid _ _ J1) E2) as J2.
  pose proof (emitter_bitcast _ _ _ _ _ (emits_valid _ _ J2) E3) as J3.
  pose proof (emitter_insert (ICall fv _) eq_refl _ _ _ (emits_valid _ _ J3) E4) as J4.
  pose proof (emitter_scan_columns _ _ _ _ _ _ _ _ _ _ _ (emits_valid _ _ J4) E5) as J5.
  pose proof (emitter_store _ _ _ _ _ (emits_valid _ _ J5) E6) as J6.
  assert (Hx5 : extends s5) by by eapply extends_emits. assert (Hx4 : extends s4) by by eapply extends_emits.
  destruct (copy_record _ _ _ _ _ _ _ _ _ _ _ _ _ _ _ _ _ _ _ _ _ _ _ _ _ _ _ _ Sta R A Hsl K Vc Bc Hck Hcv Lk Lv E1 Hf1 E2 E3 Hf3 E4 Hx4)
    as (L4 & S4 & μ4 & Mv4 & A4 & R4 & Tk & Rd4).
  destruct (sl_kind K) as (_ & Hvx & (kk & nm & ts & -> & Hk & Hi & Hl) & _).
  destruct (read_columns_words _ _ _ _ _ _ _ _ Hr) as [Hz Lz].
  pose proof (scan_columns_type _ _ _ _ _ _ _ _ _ _ _ E5) as Trow. simpl in Trow.
  pose proof E6 as E6'. apply store_inv in E6' as [Et _]. rewrite (sl_tuple K), Trow in Et. injection Et as <-.
  rewrite (sl_value K) in E5.
  destruct (scan_columns_run sch key kr vr kn vn k v Tk Bkn Bvn (columns sch) 0 _ 0 (CUndef (TStruct kk)) s4 row s5 μ4 zs []
    kk nm ts Hr E5 Hx5 A4 Rd4 Hk eq_refl eq_refl eq_refl) as (μ5 & Q5 & T5 & B5 & V5).
  { simpl. by rewrite Hk, Hl. }
  pose proof (quiet_rel _ _ _ _ _ S4 Q5 R4) as R5. pose proof Q5 as (_ & A5 & _ & _ & _ & L5 & N5).
  assert (S5 : static s5) by by eapply static_later. rewrite (sl_tuple K) in E6, Hvx.
  destruct (store_var row s5 u s' σ μ5 x tr (TStruct kk) (VRow (VInt <$> zs)) S5 R5 A5 Hx E6
    ltac:(by rewrite (later_variables _ _ L5), (later_variables _ _ L4)) V5) as (μ6 & St6 & A6 & Ag6 & R6).
  { right. rewrite T5. eapply int_row_typed; [exact Hk|done|lia|done]. }
  eapply moves_reaches; [exact Mv4|]. eapply (moves_reaches s4 s5); [by eapply quiet_moves|]. by exists μ6.
Qed.

(** ** The loop *)

Lemma keeper_scan_columns sch k v i n ko vo prev : keeper (scan_columns sch k v i n ko vo prev).
Proof.
  revert i ko vo prev. induction n as [|n IH]; intros i ko vo prev; cbn [scan_columns]; keeping.
Qed.
Lemma keeper_scan_row sch rt sl (c : lvalue) : keeper (scan_row sch rt sl c).
Proof.
  pose proof keeper_scan_columns. pose proof keeper_call_table. unfold scan_row. simpl emit_cursor_copy_key.
  simpl emit_cursor_copy_value. unfold Foedus.emit_cursor_copy_key, Foedus.emit_cursor_copy_value. keeping.
Qed.
Lemma keeper_scan_loop sch rt sl (c : lvalue) blk : keeper blk → keeper (scan_loop sch rt sl c blk).
Proof.
  pose proof keeper_scan_row. pose proof keeper_call_table. intros Hb. unfold scan_loop. simpl emit_is_valid_cursor.
  simpl emit_cursor_next. simpl emit_cursor_destroy.
  unfold Foedus.emit_is_valid_cursor, Foedus.emit_cursor_next, Foedus.emit_cursor_destroy. keeping.
Qed.
Lemma keeper_scan sp t r blk : keeper blk → keeper (codegen_scan sp t r blk).
Proof.
  pose proof keeper_call_table. intros Hb. unfold codegen_scan, node_slots. simpl emit_get_cursor. unfold Foedus.emit_get_cursor.
  keeping. by apply keeper_scan_loop.
Qed.
Lemma scan_loop_inv sch rowtype sl (cursor : lvalue) blk s u s' :
  scan_loop sch rowtype sl cursor blk s = Ok (u, s') →
  ∃ check s1 begin s2 fin s3 w4 s4 u5 s5 fv valid s6 cond s7 w8 s8 u9 s9 rt u10 s10 u11 s11 fn w12 s12 w13 s13 u14 s14 fd w,
    create_block "fullscan_check" s = Ok (check, s1) ∧ create_block "fullscan_begin" s1 = Ok (begin, s2) ∧
    create_block "fullscan_fin" s2 = Ok (fin, s3) ∧ insert_instr (IBr check) s3 = Ok (w4, s4) ∧
    SetInsertPoint check s4 = Ok (u5, s5) ∧ functions_table_ s5 !! lit "__cursor_is_valid" = Some fv ∧
    insert_instr (ICall fv [cursor]) s5 = Ok (valid, s6) ∧ CreateICmp EQ valid (CInt 1 1) s6 = Ok (cond, s7) ∧
    insert_instr (ICondBr cond begin fin) s7 = Ok (w8, s8) ∧ SetInsertPoint begin s8 = Ok (u9, s9) ∧
    scan_row sch rt sl cursor s9 = Ok (u10, s10) ∧ blk s10 = Ok (u11, s11) ∧
    functions_table_ s11 !! lit "__cursor_next" = Some fn ∧ insert_instr (ICall fn [cursor]) s11 = Ok (w12, s12) ∧
    insert_instr (IBr check) s12 = Ok (w13, s13) ∧ SetInsertPoint fin s13 = Ok (u14, s14) ∧
    functions_table_ s14 !! lit "__cursor_destroy" = Some fd ∧ insert_instr (ICall fd [cursor]) s14 = Ok (w, s').
Proof.
  unfold scan_loop. simpl emit_is_valid_cursor. simpl emit_cursor_next. simpl emit_cursor_destroy.
  unfold Foedus.emit_is_valid_cursor, Foedus.emit_cursor_next, Foedus.emit_cursor_destroy. intros Ec.
  repeat match type of Ec with (_ ≫= _) _ = Ok _ =>
    let a := fresh "a" in let s := fresh "s" in let H1 := fresh "F" in
    apply cg_bind_Ok in Ec as (a & s & H1 & Ec); cbv beta in Ec end.
  injection Ec as _ <-.
  repeat match goal with
  | H : CreateCondBr _ _ _ _ = _ |- _ => apply condbr_inv in H as (_ & ? & H)
  | H : CreateBr _ _ = _ |- _ => apply br_inv in H as (? & H)
  | H : Foedus.call_table _ _ _ = _ |- _ => apply call_table_inv in H as (? & ? & H)
  | H : not_null rowtype _ = _ |- _ => destruct rowtype; [injection H as <- <-|done]
  end. do 33 eexists. split_and!; eauto.
Qed.
(** *** Going round *)

Lemma call_valid n m (w : World E C G) b :
  foedus_cursor_is_valid n w = Ok b →
  call_runtime (lit "foedus_cursor_is_valid") [RPtr (PCursor n)] m w = Ok (rbool b, m, w).
Proof. intros Hb. unfold call_runtime. rewrite !decide_False, decide_True by done. by rewrite Hb. Qed.

Lemma call_next n m (w w' : World E C G) b :
  foedus_cursor_next n w = Ok (b, w') →
  call_runtime (lit "foedus_cursor_next") [RPtr (PCursor n)] m w = Ok (rbool b, m, w').
Proof. intros Hb. unfold call_runtime. rewrite !decide_False, decide_True by done. by rewrite Hb. Qed.

Lemma call_destroy n m (w w' : World E C G) :
  foedus_cursor_destroy n w = Ok w' →
  call_runtime (lit "foedus_cursor_destroy") [RPtr (PCursor n)] m w = Ok (RUndef, m, w').
Proof. intros Hb. unfold call_runtime. rewrite !decide_False, decide_True by done. by rewrite Hb. Qed.

(** The test at the head of the loop. *)
Lemma test_cursor (cursor : lvalue) s fv valid s1 cond s2 σ μ c b :
  static s → rel s σ μ → at_pc μ s → extends s2 → functions_table_ s !! lit "__cursor_is_valid" = Some fv →
  insert_instr (ICall fv [cursor]) s = Ok (valid, s1) → CreateICmp EQ valid (CInt 1 1) s1 = Ok (cond, s2) →
  eval ss (regs μ) cursor = Some (RPtr (PCursor c)) → foedus_cursor_is_valid c (env_world σ) = Ok b →
  ∃ μ', quiet_step s s2 μ μ' ∧ eval ss (regs μ') cond = Some (rbool b).
Proof.
  intros Sta R A Hx Hf E1 E2 Vc Hv. rewrite (st_cursor_valid _ Sta) in Hf. injection Hf as <-.
  pose proof (emitter_insert (ICall _ _) eq_refl _ _ _ (at_pc_valid _ _ A) E1) as J1.
  pose proof (emitter_icmp _ _ _ _ _ _ (emits_valid _ _ J1) E2) as J2. assert (Hx1 : extends s1) by by eapply extends_emits.
  destruct (register_step _ _ _ _ μ (rbool b) E1 Hx1 A) as (μ1 & Q1 & V1 & _ & B1).
  { simpl. rewrite Vc. simpl. rewrite (call_valid c _ _ b); [done|]. by rewrite (r_world _ _ _ R). }
  pose proof Q1 as (_ & A1 & _). apply icmp_inv in E2.
  destruct (pure_step _ _ _ _ μ1 (rbool b) E2 Hx A1) as (μ2 & Q2 & V2 & _).
  - simpl. rewrite V1. destruct b; simpl; by rewrite cmp_eq.
  - simpl. by rewrite B1.
  - exists μ2. split; [by eapply quiet_step_trans|done].
Qed.

Section loop.
Context (sch : Schema) (sl : Slots) (t x : cstr) (kr vr tr kn vn : nat) (tt : ltype) (sp : list pstep) (rt : ltype).
Context (cursor : lvalue) (c : nat) (mb : cg unit) (exb : env E C G → result (env E C G)) (Fb : faithful mb exb).
Context (Ha : Forall plain_column (attrs_ sch)) (Hsh : short_records sch).
Context (check begin fin : nat) (s5 s6 s7 s8 s9 s10 s11 s12 s13 s14 : cstate) (fv fn : lfunction).
Context (valid cond w8 w12 w13 : lvalue) (u10 u11 u14 : unit).
Context (Hfv : functions_table_ s5 !! lit "__cursor_is_valid" = Some fv)
  (E6 : insert_instr (ICall fv [cursor]) s5 = Ok (valid, s6)) (E7 : CreateICmp EQ valid (CInt 1 1) s6 = Ok (cond, s7))
  (E8 : insert_instr (ICondBr cond begin fin) s7 = Ok (w8, s8))
  (E10 : scan_row sch rt sl cursor s9 = Ok (u10, s10)) (E11 : mb s10 = Ok (u11, s11))
  (Hfn : functions_table_ s11 !! lit "__cursor_next" = Some fn)
  (E12 : insert_instr (ICall fn [cursor]) s11 = Ok (w12, s12)) (E13 : insert_instr (IBr check) s12 = Ok (w13, s13))
  (E14 : SetInsertPoint fin s13 = Ok (u14, s14)).
Context (S5 : static s5) (S9 : static s9) (G9 : good_types s9) (X7 : extends s7) (X8 : extends s8) (X10 : extends s10)
  (X11 : extends s11) (X12 : extends s12) (X13 : extends s13).
Context (T9 : tables s9 = tables s5) (N9 : next_id s5 ≤ next_id s9).
Context (I5 : insert_block s5 = Some check) (I9 : insert_block s9 = Some begin).
Context (n1 n2 : cstr) (B5 : blocks s5 !! check = Some (n1, [])) (B9 : blocks s9 !! begin = Some (n2, [])).
Context (Hsl : slots_table s9 !! sp = Some sl)
  (K : slots_ok (next_id s9) (variable_table_ s9) sp sl t (Some x) sch kr vr tr kn vn tt).
Context (Bc : below (next_id s5) cursor = true).

(** One record: its row, the body, and the cursor moves on. *)
Lemma round σ k v zs σ1 r w μ :
  rel s9 σ μ → at_start μ begin → eval ss (regs μ) cursor = Some (RPtr (PCursor c)) →
  foedus_cursor_copy_key c (env_world σ) = Ok k → foedus_cursor_copy_value c (env_world σ) = Ok v →
  read_record sch k v = Ok zs → exb (set_var σ x (VRow (VInt <$> zs))) = Ok σ1 →
  foedus_cursor_next c (env_world σ1) = Ok (r, w) →
  ∃ μ', steps μ μ' ∧ at_start μ' check ∧ agree (next_id s9) μ μ' ∧ rel s5 (set_world σ1 w) μ'.
Proof using All.
  intros R A Vc Hk Hv Hr Hb Hn. assert (A9 : at_pc μ s9) by by eapply at_start_pc.
  assert (Bc9 : below (next_id s9) cursor = true) by by eapply below_mono.
  destruct (scan_row_run _ _ _ _ _ _ _ _ _ _ _ _ _ _ _ _ _ _ _ _ _ _ S9 R A9 X10 Hsl K Ha Hsh Vc Bc9 Hk Hv Hr E10)
    as (μ10 & St10 & A10 & Ag10 & R10).
  destruct (keeper_scan_row _ _ _ _ _ _ _ G9 E10) as [G10 L10].
  pose proof (emits_next _ _ (emitter_scan_row _ _ _ _ _ _ _ (at_pc_valid _ _ A9) E10)) as N10.
  assert (S10 : static s10) by by eapply static_later.
  destruct (faithful_then _ _ _ _ _ _ _ _ Fb S10 G10 E11 X11 Hb A10 R10) as (S11 & _ & L11 & N11 & μ11 & St11 & A11 & Ag11 & R11).
  rewrite (st_cursor_next _ S11) in Hfn. injection Hfn as <-.
  assert (Ag9 : agree (next_id s9) μ μ11) by by eapply agree_trans.
  destruct (call_performs _ _ _ _ _ σ1 μ11 [RPtr (PCursor c)] (rbool r) w E12 X12 S11 R11 A11) as (μ12 & St12 & A12 & Ag12 & R12).
  { apply mapM_Some. repeat constructor. by eapply value_kept. }
  { simpl symbol. apply call_next. by rewrite (r_world _ _ _ R11). }
  destruct (insert_next _ _ _ _ E12) as (N12 & _ & L12). assert (S12 : static s12) by (eapply static_later; [exact L12|lia|done]).
  exists (jump_to μ12 check). split; [|split; [done|split]].
  - etrans; [exact St10|]. etrans; [exact St11|]. etrans; [exact St12|]. by eapply branch_step.
  - eapply agree_trans; [exact Ag9|exact Ag12|lia].
  - eapply rel_jump; [exact S12| |exact R12].
    by rewrite <- T9, (l_tables _ _ L12), (l_tables _ _ L11), (l_tables _ _ L10).
Qed.

(** The code goes round as often as the cursor has records. *)
Lemma scan_run fuel σ σ' μ :
  exec_scan sch x c exb fuel σ = Ok σ' → at_start μ check → rel s5 σ μ →
  eval ss (regs μ) cursor = Some (RPtr (PCursor c)) →
  ∃ μ' σ2 w, steps μ μ' ∧ at_start μ' fin ∧ agree (next_id s5) μ μ' ∧ rel s5 σ2 μ' ∧
    foedus_cursor_destroy c (env_world σ2) = Ok w ∧ σ' = set_world σ2 w.
Proof using All.
  revert σ μ. induction fuel as [|fuel IH]; intros σ μ Ee A R Vc; [done|]. cbn [exec_scan] in Ee.
  apply bind_Ok_inv in Ee as (b & Hb & Ee). assert (A5 : at_pc μ s5) by by eapply at_start_pc.
  destruct (test_cursor _ _ _ _ _ _ _ _ μ c b S5 R A5 X7 Hfv E6 E7 Vc Hb) as (μ7 & Q7 & V7).
  pose proof (quiet_rel _ _ _ _ _ S5 Q7 R) as R7. destruct Q7 as (St7 & A7 & Ag7 & _ & _ & L7 & N7).
  assert (S7 : static s7) by by eapply static_later.
  assert (Hj : steps μ (jump_to μ7 (if b then begin else fin))).
  { etrans; [exact St7|]. eapply branch_step; [exact E8|done|done|]. by apply condbr_exec. }
  assert (Rj : ∀ b' s, tables s = tables s5 → rel s σ (jump_to μ7 b')).
  { intros b' s' Ht. eapply rel_jump; [exact S7| |exact R7]. by rewrite (l_tables _ _ L7). }
  destruct b.
  - apply bind_Ok_inv in Ee as (k & Hk & Ee). apply bind_Ok_inv in Ee as (v & Hv & Ee).
    apply bind_Ok_inv in Ee as (zs & Hr & Ee). apply bind_Ok_inv in Ee as (σ1 & He & Ee).
    apply bind_Ok_inv in Ee as ([r w] & Hn & Ee).
    destruct (round σ k v zs σ1 r w (jump_to μ7 begin) (Rj _ _ T9) (jump_start _ _) ltac:(by eapply value_kept) Hk Hv Hr He Hn)
      as (μ1 & St1 & P1 & Ag1 & R1).
    assert (Ag : agree (next_id s5) μ μ1) by (eapply (agree_trans _ _ _ (jump_to μ7 begin)); [exact Ag7|exact Ag1|done]).
    destruct (IH _ _ Ee P1 R1 ltac:(by eapply value_kept)) as (μ' & σ2 & w' & St' & P' & Ag' & R' & Hd & ->).
    exists μ', σ2, w'. split; [etrans; [exact Hj|by etrans]|]. split; [done|]. split; [|done].
    by eapply agree_trans.
  - apply bind_Ok_inv in Ee as (w & Hd & Ee). injection Ee as <-. exists (jump_to μ7 fin), σ, w.
    split; [done|]. split; [done|]. split; [exact Ag7|]. split; [by apply Rj|done].
Qed.
End loop.
(** ** The statement *)

Lemma scan_inv sp table row_name blk s u s' :
  codegen_scan sp table row_name blk s = Ok (u, s') →
  ∃ sch e sl pe fc cursor s1,
    local_schema_table_ s !! table = Some sch ∧ prefix_end (get_key_prefix sch) = Ok e ∧
    slots_table s !! sp = Some sl ∧ prefix_end_ sl = Some pe ∧ functions_table_ s !! lit "__get_cursor" = Some fc ∧
    insert_instr (ICall fc [CHost HProcArguments; prefix_ sl; CInt 64 (Z.of_nat (length (get_key_prefix sch)));
      pe; CInt 64 (Z.of_nat (length e))]) s = Ok (cursor, s1) ∧
    scan_loop sch (type_table_ s !! row_name) sl cursor blk s1 = Ok (u, s').
Proof.
  unfold codegen_scan. rewrite gets_run. intros Ec. apply cg_bind_Ok in Ec as (sch & sx & Ex & Ec).
  destruct (local_schema_table_ s !! table) as [sch'|] eqn:Hsch; [|done]. injection Ex as <- <-.
  apply cg_bind_Ok in Ec as (e & sx & Ex & Ec). unfold cg_lift in Ex.
  destruct (prefix_end (get_key_prefix sch')) as [e'| | | |] eqn:He; try done. injection Ex as <- <-. rewrite gets_run in Ec.
  unfold node_slots in Ec. apply cg_bind_Ok in Ec as (sl & sx & Ex & Ec). rewrite gets_run in Ex.
  destruct (slots_table s !! sp) as [sl'|] eqn:Hsl; [|done]. injection Ex as <- <-.
  apply cg_bind_Ok in Ec as (pe & sx & Ex & Ec). destruct (prefix_end_ sl') as [pe'|] eqn:Hpe; [|done]. injection Ex as <- <-.
  apply cg_bind_Ok in Ec as (cursor & s1 & E1 & E2). simpl in E1. unfold Foedus.emit_get_cursor in E1.
  apply call_table_inv in E1 as (fc & Hf & E1). by exists sch', e', sl', pe', fc, cursor, s1.
Qed.

Lemma call_cursor m (w : World E C G) from to :
  (Z.of_nat (length from) < 2 ^ 16)%Z → (Z.of_nat (length to) < 2 ^ 16)%Z →
  call_runtime (lit "foedus_generate_cursor") [RPtr (PHost HProcArguments); RPtr (PString from 0);
    RInt 64 (pattern 64 (Z.of_nat (length from))); RPtr (PString to 0); RInt 64 (pattern 64 (Z.of_nat (length to)))] m w =
  Ok (RPtr (PCursor (foedus_generate_cursor from to w).1), m, (foedus_generate_cursor from to w).2).
Proof.
  intros Hf Ht. unfold call_runtime. rewrite !decide_False, decide_True by done. rewrite !word_index by done.
  rewrite load_string_constant. cbn [Machine.of_option mbind result_bind]. rewrite load_string_constant.
  cbn [Machine.of_option mbind result_bind]. by destruct (foedus_generate_cursor from to w).
Qed.

(** A call whose value is used. *)
Lemma call_value f args s v s' σ μ xs x w :
  insert_instr (ICall f args) s = Ok (v, s') → extends s' → static s → rel s σ μ → at_pc μ s →
  mapM (eval ss (regs μ)) args = Some xs → call_runtime (symbol f) xs (mem μ) (world μ) = Ok (x, mem μ, w) →
  static s' ∧ ∃ μ', moves s s' μ μ' ∧ at_pc μ' s' ∧ rel s' (set_world σ w) μ' ∧
    eval ss (regs μ') v = Some x ∧ below (next_id s') v = true.
Proof.
  intros Ei Hx Sta R A Hxs Hcall. destruct (insert_next _ _ _ _ Ei) as (Hn & -> & Lt).
  split; [eapply static_later; [exact Lt|lia|done]|].
  set (μ' := mk_mstate (blk μ) (S (idx μ)) (pred μ) (<[next_id s := x]> (regs μ)) (mem μ) w).
  assert (Ag : agree (next_id s) μ μ') by (intros r Hr; simpl; by rewrite lookup_insert_ne by lia).
  exists μ'. split; [split_and!; [|done|lia]|split_and!].
  - eapply step_instr; [exact Ei|done|done|]. simpl. rewrite Hxs. simpl. by rewrite Hcall.
  - by eapply at_pc_next.
  - by eapply (rel_world s s' σ μ μ'); [|apply Lt|..].
  - simpl. by rewrite lookup_insert_eq.
  - simpl. apply bool_decide_eq_true. lia.
Qed.

Lemma prefix_end_length p e : prefix_end p = Ok e → length e = length p.
Proof.
  unfold prefix_end. destruct (decide _); [done|]. intros He. apply bind_Ok_inv in He as (c & _ & [= <-]).
  by rewrite length_insert.
Qed.

(** The code of the loop, from the branch that enters it to the call that destroys the cursor. *)
Lemma scan_loop_run sch rowtype sl sp t x cursor c mb exb fuel s u s' kr vr tr kn vn tt σ σ' μ :
  faithful mb exb → static s → good_types s → rel s σ μ → at_pc μ s → extends s' → slots_table s !! sp = Some sl →
  slots_ok (next_id s) (variable_table_ s) sp sl t (Some x) sch kr vr tr kn vn tt →
  Forall plain_column (attrs_ sch) → short_records sch →
  eval ss (regs μ) cursor = Some (RPtr (PCursor c)) → below (next_id s) cursor = true →
  scan_loop sch rowtype sl cursor mb s = Ok (u, s') → exec_scan sch x c exb fuel σ = Ok σ' → reaches s μ s' σ'.
Proof.
  intros Fb Sta Gd R A Hx Hsl K Ha Hsh Vc Bc Ec Ee. pose proof Fb as (_ & Heb & Hkb).
  apply scan_loop_inv in Ec as (check & s1 & begin & s2 & fin & s3 & w4 & s4 & u5 & s5 & fv & valid & s6 & cond & s7 & w8 & s8 &
    u9 & s9 & rt & u10 & s10 & u11 & s11 & fn & w12 & s12 & w13 & s13 & u14 & s14 & fd & w & E1 & E2 & E3 & E4 & E5 & Hfv &
    E6 & E7 & E8 & E9 & E10 & E11 & Hfn & E12 & E13 & E14 & Hfd & E15).
  destruct (at_pc_valid _ _ A) as (cur & Hcur & Lcur).
  destruct (create_facts _ _ _ _ E1) as (Bck & Len1 & Hck1 & _ & Hi1 & N1 & _ & L1 & G1).
  destruct (create_facts _ _ _ _ E2) as (Bbg & Len2 & Hbg2 & Keep2 & Hi2 & N2 & _ & L2 & G2).
  destruct (create_facts _ _ _ _ E3) as (Bfin & Len3 & Hfin3 & Keep3 & Hi3 & N3 & _ & L3 & G3).
  specialize (G1 Gd). specialize (G2 G1). specialize (G3 G2).
  assert (A3 : at_pc μ s3) by (do 2 (eapply create_at_pc; [eassumption|]); by eapply create_at_pc).
  assert (Hcur3 : insert_block s3 = Some cur) by congruence.
  assert (L03 : later s s3) by (transitivity s1; [done|by transitivity s2]).
  assert (V3 : valid_cur s3) by (exists cur; split; [done|lia]).
  destruct (leave_facts (IBr check) _ _ _ _ _ _ _ _ (emits_refl s3 V3) G3 Hcur3 eq_refl ltac:(repeat constructor; lia) E4 E5)
    as (I5 & Ll5 & Keep5 & L5 & G5 & N5 & _ & X5).
  assert (V5 : valid_cur s5) by (exists check; split; [done|lia]).
  pose proof (emitter_insert (ICall fv _) eq_refl _ _ _ V5 E6) as J6.
  pose proof (emits_trans _ _ _ J6 (emitter_icmp _ _ _ _ _ _ (emits_valid _ _ J6) E7)) as J7.
  destruct (keeper_insert _ _ _ _ G5 E6) as [G6 L6]. destruct (keeper_icmp _ _ _ _ _ _ G6 E7) as [G7 L7].
  destruct (leave_facts (ICondBr cond begin fin) _ _ _ _ _ _ _ _ J7 G7 I5 eq_refl ltac:(repeat constructor; lia) E8 E9)
    as (I9 & Ll9 & Keep9 & L9 & G9 & N9 & _ & X9).
  assert (V9 : valid_cur s9) by (exists begin; split; [done|lia]).
  pose proof (emitter_scan_row _ _ _ _ _ _ _ V9 E10) as J10.
  pose proof (Heb _ _ _ (emits_valid _ _ J10) E11) as J11.
  pose proof (emitter_insert (ICall fn _) eq_refl _ _ _ (emits_valid _ _ J11) E12) as J12.
  destruct (keeper_scan_row _ _ _ _ _ _ _ G9 E10) as [G10 L10]. destruct (Hkb _ _ _ G10 E11) as [G11 L11].
  destruct (keeper_insert _ _ _ _ G11 E12) as [G12 L12].
  destruct (leave_facts (IBr check) _ _ _ _ _ _ _ _ (emits_trans _ _ _ J10 (emits_trans _ _ _ J11 J12)) G12 I9 eq_refl
    ltac:(repeat constructor; lia) E13 E14) as (I14 & Ll14 & Keep14 & L14 & G14 & N14 & _ & X14).
  assert (V14 : valid_cur s14) by (exists fin; split; [done|lia]).
  pose proof (emitter_insert (ICall fd _) eq_refl _ _ _ V14 E15) as J15.
  destruct (X14 ltac:(by eapply extends_emits)) as [Hx13 Hx12].
  assert (Hx11 : extends s11) by by eapply extends_emits. assert (Hx10 : extends s10) by by eapply extends_emits.
  destruct (X9 ltac:(by eapply extends_emits)) as [Hx8 Hx7]. destruct (X5 ltac:(by eapply extends_emits)) as [Hx4 Hx3].
  assert (L05 : later s s5) by by transitivity s3. assert (L59 : later s5 s9) by (transitivity s7; [by transitivity s6|done]).
  assert (L914 : later s9 s14) by (transitivity s12; [transitivity s10; [done|by transitivity s11]|done]).
  pose proof (emits_next _ _ J7) as N7. pose proof (emits_next _ _ J10) as N10. pose proof (emits_next _ _ J11) as N11.
  pose proof (emits_next _ _ J12) as N12.
  assert (S3 : static s3) by (eapply static_later; [exact L03|lia|done]).
  assert (S5 : static s5) by (eapply static_later; [exact L05|lia|done]).
  assert (S9 : static s9) by (eapply static_later; [exact L59|lia|done]).
  assert (S14 : static s14) by (eapply static_later; [exact L914|lia|done]).
  assert (B5 : blocks s5 !! check = Some (lit "fullscan_check", [])) by (rewrite Keep5, Keep3, Keep2 by lia; done).
  assert (B9 : blocks s9 !! begin = Some (lit "fullscan_begin", [])) by (rewrite Keep9, Keep5, Keep3 by lia; done).
  assert (B14 : blocks s14 !! fin = Some (lit "fullscan_fin", [])) by (rewrite Keep14, Keep9, Keep5 by lia; done).
  assert (T9 : tables s9 = tables s5) by apply L59. assert (T5 : tables s5 = tables s) by apply L05.
  assert (Hslots : slots_table s9 = slots_table s ∧ variable_table_ s9 = variable_table_ s).
  { pose proof (eq_trans T9 T5) as Ht. unfold tables in Ht. by injection Ht. }
  destruct Hslots as [Hst9 Hvt9].
  assert (St4 : steps μ (jump_to μ check)) by (by eapply branch_step; [exact E4|..]).
  destruct (scan_run sch sl t x kr vr tr kn vn tt sp rt cursor c mb exb Fb Ha Hsh check begin fin s5 s6 s7 s8 s9 s10 s11 s12 s13 s14
    fv fn valid cond w8 w12 w13 u10 u11 u14 Hfv E6 E7 E8 E10 E11 Hfn E12 E13 E14 S5 S9 G9 Hx7 Hx8 Hx10 Hx11 Hx12 Hx13 T9
    ltac:(lia) I5 I9 _ _ B5 B9 ltac:(by rewrite Hst9) ltac:(rewrite Hvt9; eapply slots_ok_later; [exact K|lia])
    ltac:(eapply below_mono; [exact Bc|lia]) fuel σ σ' (jump_to μ check) Ee (jump_start _ _)
    ltac:(by eapply rel_jump; [exact Sta|exact T5|]) Vc) as (μ' & σ2 & w' & St' & P' & Ag' & R' & Hd & ->).
  rewrite (st_destroy _ S14) in Hfd. injection Hfd as <-.
  assert (Ag : agree (next_id s) μ μ') by (intros q Hq; apply Ag'; lia).
  apply (reaches_then s μ s14 μ'); [by etrans|done|lia|].
  eapply call_performs; [exact E15|exact Hx|exact S14| |by eapply at_start_pc|..].
  - eapply rel_tables; [exact S9|apply L914|]. eapply rel_tables, R'; [exact S5|exact T9].
  - apply mapM_Some. repeat constructor. by eapply value_kept.
  - simpl symbol. apply call_destroy. by rewrite (r_world _ _ _ R').
Qed.

Lemma faithful_scan sp t x mb exb fuel :
  faithful mb exb → d_nodes m_decls !! sp = Some (t, Some x) →
  faithful (codegen_scan sp t x mb)
    (λ σ, sch ← table_of (d_tables m_decls) t; e ← prefix_end (get_key_prefix sch);
       let '(n, w) := foedus_generate_cursor (get_key_prefix sch) e (env_world σ) in
       exec_scan sch x n exb fuel (set_world σ w)).
Proof.
  intros Fb Hn. pose proof Fb as (_ & Heb & Hkb). split_and!; [|by apply emitter_scan|by apply keeper_scan].
  intros s u s' σ σ' μ Sta Gd Ec Hx Ee A R.
  apply scan_inv in Ec as (sch & e & sl & pe & fc & cursor & s1 & Hsch & He & Hsl & Hpe & Hfc & E1 & E2).
  unfold table_of in Ee. rewrite (st_schemas _ Sta _ _ Hsch) in Ee. cbn [Machine.of_option mbind result_bind] in Ee.
  destruct (decide _) as [[Hp Hsh]|]; [|done]. cbn [mbind result_bind] in Ee. rewrite He in Ee. cbn [mbind result_bind] in Ee.
  destruct (st_slots _ Sta _ _ Hsl) as (t' & x' & sch' & kr & vr & tr & kn & vn & tt & K).
  pose proof (sl_node K) as Hn'. rewrite Hn in Hn'. injection Hn' as <- <-.
  assert (sch' = sch) as ->.
  { pose proof (sl_schema K) as H1. rewrite (st_schemas _ Sta _ _ Hsch) in H1. by injection H1. }
  destruct (sl_kind K) as (_ & _ & _ & p & Hp' & Hpe'). rewrite Hpe in Hpe'. injection Hpe' as ->.
  rewrite He in Hp'. injection Hp' as <-.
  rewrite (st_get_cursor _ Sta) in Hfc. injection Hfc as <-. rewrite (sl_prefix K) in E1.
  pose proof (emitter_insert (ICall _ _) eq_refl _ _ _ (at_pc_valid _ _ A) E1) as J1.
  assert (Hx1 : extends s1) by (eapply extends_emits, Hx; eapply emitter_scan_loop; [exact Heb|by eapply emits_valid|exact E2]).
  destruct (keeper_insert _ _ _ _ Gd E1) as [G1 L1]. pose proof (emits_next _ _ J1) as N1.
  assert (Hsz : (Z.of_nat (length (get_key_prefix sch)) < 2 ^ 16)%Z) by (unfold short_records in Hsh; lia).
  destruct (call_value _ _ _ _ _ σ μ [RPtr (PHost HProcArguments); RPtr (PString (get_key_prefix sch) 0);
    RInt 64 (pattern 64 (Z.of_nat (length (get_key_prefix sch)))); RPtr (PString e 0);
    RInt 64 (pattern 64 (Z.of_nat (length e)))]
    (RPtr (PCursor (foedus_generate_cursor (get_key_prefix sch) e (env_world σ)).1))
    (foedus_generate_cursor (get_key_prefix sch) e (env_world σ)).2 E1 Hx1 Sta R A eq_refl)
    as (S1 & μ1 & Mv1 & A1 & R1 & V1 & B1).
  { simpl symbol. rewrite <- (r_world _ _ _ R). apply call_cursor; [done|]. by rewrite (prefix_end_length _ _ He). }
  destruct (foedus_generate_cursor (get_key_prefix sch) e (env_world σ)) as [n w]. simpl in V1, R1.
  eapply moves_reaches; [exact Mv1|].
  pose proof (l_tables _ _ L1) as T1. unfold tables in T1. injection T1 as _ Hv _ Hst _ _.
  eapply (scan_loop_run _ _ sl sp); [exact Fb|exact S1|exact G1|exact R1|exact A1|exact Hx|by rewrite Hst| |done|done|exact V1|
    exact B1|exact E2|exact Ee].
  rewrite Hv. by eapply slots_ok_later.
Qed.
End code.
