(* ===== verification/Faithful.v ===== *)
(** * Faithful: the code of every statement does what the statement means

    The lemmas of StmtCorrect.v and ScanCode.v, put together by induction over statements. *)

From Stdlib Require Import ZArith NArith Ascii String Lia.
From stdpp Require Import base option list strings gmap relations.
From S2P Require Import Prelude Value Attr Schema Ast Visit LLVM CodegenExpr CodegenStmt Compile Machine.
From S2P Require Import Layout Declare Runtime Semantics Shape Typing Simulate ExprCorrect StmtCorrect TableCode ScanCode.

(** The statements the reference semantics covers; rows have elements without effects. *)
Fixpoint supported (s : Statement) : bool :=
  match s with
  | Block l | Transaction _ l | Scan _ _ l => forallb supported l
  | Define _ _ | DefineTuple _ _ => true
  | For (Some i) (Some c) (Some e) l =>
      supported i && pure_rows c && pure_rows e && forallb supported l
  | Emit e | Insert _ e => emit_supported e
  | Let _ e _ | ExprStatement e => pure_rows e
  | If c t f =>
      pure_rows c && forallb supported t && match f with Some f => forallb supported f | None => true end
  | _ => false
  end.

Section faithful.
Context `{L : LLVM} `{LT : !LLVMTyping} `{PL : !PrintLaws} `{T : Target} `{TL : !TargetLaws}
  `{LF : !LLVMFolds}.
Context {E C G : Type} `{FA : FoedusAPI E C} `{RG : Random G} `{RL : !RandomLaws G} `{MM : Module}.
Context (ann : annotations).
Abbreviation exec_stmt := (exec_stmt (member_of ann) (d_tables m_decls)).
Abbreviation declared := (declares ann m_decls).

(** The meaning of code, up to equality of functions. *)
Lemma faithful_ext m ex ex' : (∀ σ : env E C G, ex' σ = ex σ) → faithful m ex → faithful m ex'.
Proof.
  intros Hex (Hp & He & Hk). split_and!; [|done|done]. intros s u s' σ σ' μ Sta Gd Ec Hx Ee A R.
  rewrite Hex in Ee. by eapply Hp.
Qed.

Lemma faithful_statements fuel mk sp i l :
  Forall (λ s, supported s = true → ∀ sp, declared s sp = true → faithful (codegen ann s sp) (exec_stmt fuel s sp)) l →
  forallb supported l = true → check_statements declared mk sp i l = true →
  faithful (codegen_statements (codegen ann) mk sp i l) (exec_statements (exec_stmt fuel) mk sp i l).
Proof.
  intros Hl. revert i. induction Hl as [|s l Hs _ IH]; intros i Hf Hd; cbn [codegen_statements exec_statements].
  - apply faithful_ret.
  - simpl in Hf, Hd. apply andb_prop in Hf as [H1 H2], Hd as [D1 D2]. apply faithful_seq; auto.
Qed.

Lemma faithful_codegen fuel s :
  supported s = true → ∀ sp, declared s sp = true → faithful (codegen ann s sp) (exec_stmt fuel s sp).
Proof.
  induction s as [l Hl|i l Hl|d n|i c e l Hi Hl|t|e|t e|t r l Hl|n e t|n t|c t f Ht Hf|e]
    using Statement_rect'; intros Hs sp Hd; simpl in Hs, Hd; try done; cbn [codegen].
  - by apply faithful_statements.
  - pose proof (faithful_statements fuel In_body sp 0 l Hl Hs Hd) as Hblk.
    pose proof (faithful_seq _ _ _ _ faithful_begin (faithful_seq _ _ _ _ Hblk faithful_precommit)) as F.
    by eapply faithful_ext, F.
  - apply faithful_ret.
  - destruct i as [i|], c as [c|], e as [e|]; try done. apply andb_prop in Hd as [D1 D2].
    apply andb_prop in Hs as [Hs H4]. apply andb_prop in Hs as [Hs H3]. apply andb_prop in Hs as [H1 H2].
    apply faithful_for; [by apply Hi|done|done|by apply faithful_statements].
  - by apply faithful_emit.
  - apply faithful_insert; [done|]. by apply bool_decide_eq_true in Hd.
  - apply andb_prop in Hd as [Hd D2]. apply andb_prop in Hd as [Hd _]. apply andb_prop in Hd as [D1 _].
    apply bool_decide_eq_true in D1.
    by apply faithful_scan; [apply faithful_statements|].
  - by apply faithful_let.
  - apply faithful_ret.
  - apply andb_prop in Hs as [Hs H3]. apply andb_prop in Hs as [H1 H2]. apply andb_prop in Hd as [D1 D2].
    apply faithful_if; [done|by apply faithful_statements|]. destruct f as [f|]; [|apply faithful_ret].
    apply faithful_statements; auto.
  - by apply faithful_every.
Qed.
End faithful.
