(* ===== verification/Prepare.v ===== *)
(** * Prepare: the stack of a program

    Before code is generated, a walk over all statements reserves their stack: a slot for every
    variable, for the row of every [emit], for the arguments that calls pass by address, and the
    buffers of every [insert] and [scan].  It also declares the tables.  Here: what the pass puts
    into the tables of the context has the shape [static] asks for, and running the code it emits
    makes the slots. *)

From Stdlib Require Import ZArith NArith Ascii String Lia.
From stdpp Require Import base option list strings gmap relations.
From S2P Require Import Prelude Value Attr Schema Ast Visit LLVM CodegenExpr CodegenStmt Compile Machine.
From S2P Require Import Layout Declare Runtime Semantics Shape Typing Simulate ExprCorrect StmtCorrect TableCode Faithful.

Section prepare.
Context `{L : LLVM} `{LT : !LLVMTyping} `{PL : !PrintLaws} `{T : Target} `{TL : !TargetLaws}
  `{LF : !LLVMFolds}.
Context {E C G : Type} `{FA : FoedusAPI E C} `{RG : Random G} `{RL : !RandomLaws G} `{MM : Module}.
Abbreviation ss := m_structs.
Abbreviation P := m_code.
Abbreviation machine := (mstate (W := World E C G)).
Abbreviation steps := (steps_to (W := World E C G) ss call_runtime P).

(** ** The pass that reserves the stack *)

(** No variable has a value yet. *)
Definition env_new (w : World E C G) : env E C G := mk_env ∅ w.

(** The types stay good; and the machine gets to where the variables and nodes have their slots. *)
Definition sane {A : Type} (m : cg A) : Prop := ∀ s a s', good_types s → m s = Ok (a, s') → good_types s'.

Definition prepares {A : Type} (m : cg A) : Prop :=
  emitter m ∧ sane m ∧
  ∀ s a s' (μ : machine) w, static s → good_types s → m s = Ok (a, s') → extends s' → at_pc μ s →
    rel s (env_new w) μ → static s' ∧ ∃ μ', steps μ μ' ∧ at_pc μ' s' ∧ rel s' (env_new w) μ'.

Lemma prepares_bind {A B : Type} (m : cg A) (k : A → cg B) :
  prepares m → (∀ a, prepares (k a)) → prepares (m ≫= k).
Proof.
  intros (Em & Gm & Hm) Hk. split_and!; [apply emitter_bind; [done|apply Hk]|..].
  { intros s b s' Gd Ec. apply cg_bind_Ok in Ec as (a & s1 & E1 & E2). destruct (Hk a) as (_ & Gk & _).
    eapply Gk, E2. by eapply Gm. }
  intros s b s' μ w Sta Gd Ec Hx A0 R. apply cg_bind_Ok in Ec as (a & s1 & E1 & E2).
  destruct (Hk a) as (Ek & _ & Hka). pose proof (Ek _ _ _ (emits_valid _ _ (Em _ _ _ (at_pc_valid _ _ A0) E1)) E2) as J.
  destruct (Hm _ _ _ _ _ Sta Gd E1 (extends_emits _ _ J Hx) A0 R) as (S1 & μ1 & St1 & A1 & R1).
  destruct (Hka _ _ _ _ _ S1 (Gm _ _ _ Gd E1) E2 Hx A1 R1) as (S2 & μ2 & St2 & A2 & R2).
  split_and!; auto. exists μ2. split_and!; auto. by etrans.
Qed.

(** Calls that emit nothing and leave the tables alone. *)
Lemma prepares_still {A : Type} (m : cg A) : emitter m → still m → keeper m → prepares m.
Proof.
  intros Em Sm Km. split_and!; [done|by intros s a s' Gd Ec; destruct (Km _ _ _ Gd Ec)|].
  intros s a s' μ w Sta Gd Ec Hx A0 R.
  destruct (Km _ _ _ Gd Ec) as [G1 L1]. pose proof (Sm _ _ _ Ec) as Hp. pose proof (still_next _ _ Hp).
  split_and!; [eapply static_later; [exact L1|lia|done]|]. exists μ.
  split_and!; [apply rtc_refl|by eapply still_at_pc|by eapply rel_tables, R; [|apply L1]].
Qed.

Lemma prepares_ret {A : Type} (a : A) : prepares (mret a).
Proof. apply prepares_still; [emitting|quiescent|keeping]. Qed.
Lemma prepares_not_null {A : Type} (o : option A) : prepares (not_null o).
Proof. apply prepares_still; [emitting|quiescent|keeping]. Qed.
Lemma prepares_lift {A : Type} (r : result A) : prepares (cg_lift r).
Proof. apply prepares_still; [emitting| |keeping]. apply still_direct. intros s. by destruct r. Qed.
(** *** Slots *)

(** A register that nothing refers to. *)
Definition unused (s : cstate) (r : nat) : Prop :=
  r < next_id s ∧ private (variable_table_ s) r ∧ (∀ n t, stack_table_ s !! n ≠ Some (Reg r t)) ∧
  ∀ sp sl t, slots_table s !! sp = Some sl → Reg r t ∉ [key_stack_ sl; value_stack_ sl; tuple_stack_ sl].

Lemma unused_tables s s' r : tables s' = tables s → next_id s ≤ next_id s' → unused s r → unused s' r.
Proof.
  unfold tables. intros Ht Hn (H1 & H2 & H3 & H4). injection Ht as _ Hv Hs Hl _ _.
  split_and!; rewrite ?Hv, ?Hs, ?Hl; auto. lia.
Qed.

Lemma unused_new s s' : static s → tables s' = tables s → next_id s' = S (next_id s) → unused s' (next_id s).
Proof.
  unfold tables. intros Sta Ht Hn. injection Ht as _ Hv Hs Hl _ _.
  split_and!; rewrite ?Hv, ?Hs, ?Hl; [lia|..].
  - intros x t Hx. destruct (st_var _ Sta _ _ Hx) as (? & ? & [= <- _] & ? & _). lia.
  - intros n t Hx. destruct (st_stack _ Sta _ _ Hx) as (? & ? & [= <- _] & ? & _). lia.
  - intros sp sl t Hx Hin. destruct (st_slots _ Sta _ _ Hx) as (? & ? & ? & kr & vr & tr & kn & vn & tt & K).
    rewrite (sl_key K), (sl_value K), (sl_tuple K) in Hin. destruct (sl_below K) as (? & ? & ?).
    repeat (apply elem_of_cons in Hin as [[= Hr _]|Hin]; [lia|]). by apply not_elem_of_nil in Hin.
Qed.

(** The code of an [alloca] makes a region; nothing else changes. *)
Lemma alloca_step t s v s' w (μ : machine) :
  static s → rel s (env_new w) μ → CreateAlloca t s = Ok (v, s') → extends s' → at_pc μ s →
  v = Reg (next_id s) (TPtr t) ∧ t ≠ TVoid ∧ later s s' ∧ next_id s' = S (next_id s) ∧ static s' ∧
  unused s' (next_id s) ∧
  ∃ μ', steps μ μ' ∧ at_pc μ' s' ∧ rel s' (env_new w) μ' ∧ live μ' (next_id s) t ∧
    ∀ r t, r < next_id s → live μ r t → live μ' r t.
Proof.
  unfold CreateAlloca, llvm_assert. intros Sta R Ec Hx A. destruct (isVoidTy t) eqn:Hv; [done|].
  change (insert_instr (IAlloca t) s = Ok (v, s')) in Ec. destruct (insert_next _ _ _ _ Ec) as (Hn & -> & Lt).
  set (μ' := mk_mstate (blk μ) (S (idx μ)) (pred μ) (<[next_id s := RPtr (PStack (next_id s) 0)]> (regs μ))
            (<[next_id s := replicate (alloc_size ss t) MUndef]> (mem μ)) (world μ)).
  assert (Hl : ∀ r t, r < next_id s → live μ r t → live μ' r t).
  { intros r t' Hr [H1 (bs & H2 & H3)]. split; simpl; [by rewrite lookup_insert_ne by lia|].
    exists bs. split; [|done]. by rewrite lookup_insert_ne by lia. }
  split_and!; auto.
  { by intros ->. }
  { eapply static_later; [exact Lt|lia|done]. }
  { eapply unused_new; [done|apply Lt|done]. }
  exists μ'. split; [by eapply step_instr|]. split; [by eapply at_pc_next|]. split; [|split; [|done]].
  - pose proof (l_tables _ _ Lt) as Ht. unfold tables in Ht. injection Ht as _ Evt Est Esl _ _.
    split; rewrite ?Evt, ?Est, ?Esl; [apply R|..].
    + intros x r t' Hx'. split; [|done]. destruct (st_var _ Sta _ _ Hx') as (? & ? & [= <- <-] & Hr & _).
      apply Hl; [done|]. by eapply r_var.
    + done.
    + intros n r t' Hx'. destruct (st_stack _ Sta _ _ Hx') as (? & ? & [= <- <-] & Hr & _).
      apply Hl; [done|]. by eapply r_stack.
    + intros sp sl r t' Hs Hin. apply Hl; [by eapply slot_below|by eapply r_slots].
  - split; simpl; [by rewrite lookup_insert_eq|]. eexists. rewrite lookup_insert_eq. split; [done|].
    by rewrite length_replicate.
Qed.

(** *** Entries of the tables *)

(** A variable's slot; no slots of another statement rely on the name. *)
Lemma static_variable s x r t :
  static s → unused s r → t ≠ TVoid →
  (∀ sp, d_rows m_decls !! x = Some sp → slots_table s !! sp = None) →
  static (set_variables s (<[x := Reg r (TPtr t)]> (variable_table_ s))).
Proof.
  intros Sta (Ur & Uv & Us & Ul) Ht Hx. pose proof (st_slots _ Sta) as Hslots. destruct Sta. split; simpl; auto.
  - intros y lv. rewrite lookup_insert_Some. intros [[<- <-]|[_ Hy]]; [by exists r, t|eauto].
  - intros y z q t1 t2. rewrite !lookup_insert_Some. intros [[<- [= <- <-]]|[_ Hy]] [[<- [= <-]]|[_ Hz]]; auto.
    + by apply Uv in Hz.
    + by apply Uv in Hy.
    + by eapply st_inj.
  - intros y n q t1 t2. rewrite lookup_insert_Some. intros [[<- [= <- <-]]|[_ Hy]] Hn; [by eapply Us|by eapply st_sep].
  - intros sp sl Hsl. destruct (Hslots _ _ Hsl) as (t' & x' & sch & kr & vr & tr & kn & vn & tt & K).
    exists t', x', sch, kr, vr, tr, kn, vn, tt.
    assert (Hp : ∀ q t0, private (variable_table_ s) q → Reg q t0 ∈ [key_stack_ sl; value_stack_ sl; tuple_stack_ sl] →
      private (<[x := Reg r (TPtr t)]> (variable_table_ s)) q).
    { intros q t0 Pq Hin y ty. rewrite lookup_insert_Some. intros [[_ [= <- _]]|[_ Hy]]; [by eapply Ul|by eapply Pq]. }
    destruct K as [H1 H2 Hk Hv Htu H6 H7 H8 H9 [H10 H11] H12 H13 H14]. split; auto.
    + rewrite Hk, Hv in Hp. split; eapply Hp; eauto using list_elem_of_here, list_elem_of_further.
    + destruct x' as [y|]; [|rewrite Htu in Hp; eapply Hp; eauto using list_elem_of_here, list_elem_of_further].
      destruct H14 as (Hd & Hvy & H15). split_and!; try apply H15; auto. rewrite lookup_insert_ne; [done|].
      intros <-. rewrite (Hx _ Hd) in Hsl. done.
Qed.

Lemma static_node s n r t :
  static s → unused s r → t ≠ TVoid → static (set_stack s (<[n := Reg r (TPtr t)]> (stack_table_ s))).
Proof.
  intros Sta (Ur & Uv & Us & Ul) Ht. destruct Sta. split; simpl; auto.
  - intros m lv. rewrite lookup_insert_Some. intros [[<- <-]|[_ Hy]]; [by exists r, t|eauto].
  - intros y m q t1 t2 Hy. rewrite lookup_insert_Some. intros [[<- [= <- <-]]|[_ Hn]]; [by eapply Uv|by eapply st_sep].
Qed.

Lemma static_slots s sp sl t x sch kr vr tr kn vn tt :
  static s → slots_ok (next_id s) (variable_table_ s) sp sl t x sch kr vr tr kn vn tt →
  static (set_slots s (<[sp := sl]> (slots_table s))).
Proof.
  intros Sta K. destruct Sta. split; simpl; auto. intros sp' sl'. rewrite lookup_insert_Some.
  intros [[<- <-]|[_ H]]; [|auto]. by exists t, x, sch, kr, vr, tr, kn, vn, tt.
Qed.

Lemma static_global s p : static s → static (set_globals s (<[p := CStr p]> (global_variable_table_ s))).
Proof. intros []. split; simpl; auto. intros q v. rewrite lookup_insert_Some. intros [[<- <-]|[_ H]]; auto. Qed.

Lemma static_schema s n sch :
  static s → d_tables m_decls !! n = Some sch → static (set_schemas s (<[n := sch]> (local_schema_table_ s))).
Proof. intros [] Hd. split; simpl; auto. intros t sch'. rewrite lookup_insert_Some. intros [[<- <-]|[_ H]]; auto. Qed.

Lemma static_type s st x t :
  static s → x ≠ lit "string" → static (set_types s st (<[x := t]> (type_table_ s))).
Proof. intros [] Hx. split; simpl; auto; rewrite lookup_insert_ne by done; auto. Qed.

(** The memory of new entries. *)
Lemma rel_variable s w (μ : machine) x r t :
  rel s (env_new w) μ → live μ r t → rel (set_variables s (<[x := Reg r (TPtr t)]> (variable_table_ s))) (env_new w) μ.
Proof.
  intros [] Hl. split; simpl; auto; [|done]. intros y q t'. rewrite lookup_insert_Some.
  intros [[_ [= <- <-]]|[_ Hy]]; [done|auto].
Qed.

Lemma rel_node s w (μ : machine) n r t :
  rel s (env_new w) μ → live μ r t → rel (set_stack s (<[n := Reg r (TPtr t)]> (stack_table_ s))) (env_new w) μ.
Proof. intros [] Hl. split; simpl; auto. intros m q t'. rewrite lookup_insert_Some. intros [[_ [= <- <-]]|[_ Hy]]; eauto. Qed.

Lemma rel_slots s w (μ : machine) sp sl :
  rel s (env_new w) μ →
  (∀ r t, Reg r (TPtr t) ∈ [key_stack_ sl; value_stack_ sl; tuple_stack_ sl] → live μ r t) →
  rel (set_slots s (<[sp := sl]> (slots_table s))) (env_new w) μ.
Proof. intros [] Hl. split; simpl; auto. intros sp' sl' q t'. rewrite lookup_insert_Some. intros [[_ <-]|[_ Hy]]; eauto. Qed.

Lemma alloca_type t s v s' : CreateAlloca t s = Ok (v, s') → type_of v = TPtr t ∧ later s s'.
Proof.
  unfold CreateAlloca, llvm_assert. intros Ec. destruct (isVoidTy t); [done|].
  change (insert_instr (IAlloca t) s = Ok (v, s')) in Ec. by destruct (insert_next _ _ _ _ Ec) as (_ & -> & ?).
Qed.

Lemma prepares_type ann sp p e : prepares (get_type (member_of ann) sp p e).
Proof. apply prepares_still; [apply emitter_get_type|apply still_get_type|exact (keeper_get_type (member_of ann) sp p e)]. Qed.

(** ** The statements *)

Context (ann : annotations).

Lemma prepares_node n t : prepares (alloca_node n t).
Proof.
  split_and!; [apply emitter_alloca_node|..].
  { intros s a s' Gd Ec. unfold alloca_node in Ec. inv_cg. injection E1 as _ <-.
    destruct (keeper_alloca _ _ _ _ Gd E0) as [G1 _]. by destruct G1; split. }
  intros s a s' μ w Sta Gd Ec Hx A R. unfold alloca_node in Ec.
  apply cg_bind_Ok in Ec as (v & s1 & E1 & E2). injection E2 as _ <-.
  destruct (alloca_step _ _ _ _ w μ Sta R E1 Hx A) as (-> & Ht & _ & _ & S1 & U & μ' & St & A' & R' & Hl & _).
  split; [by apply static_node|]. exists μ'. split_and!; [done|done|by apply rel_node].
Qed.

Lemma sane_let sp x e : sane (alloca_let ann sp x e).
Proof.
  intros s a s' Gd Ec. unfold alloca_let in Ec. inv_cg. injection E3 as _ <-.
  destruct (typing_get_type _ e sp [0] _ _ _ Gd E0) as (G0 & _ & Kt & _).
  destruct (keeper_alloca _ _ _ _ G0 E2) as [G1 L1]. destruct (alloca_type _ _ _ _ E2) as [Tv _].
  destruct G1. split; simpl; auto. intros y lv. rewrite lookup_insert_Some.
  intros [[<- <-]|[_ Hy]]; [|eauto]. rewrite Tv. eapply known_mono; [exact Kt|by apply later_length].
Qed.

Lemma prepares_let sp x e : d_rows m_decls !! x = None → prepares (alloca_let ann sp x e).
Proof.
  intros Hd. split_and!; [|apply sane_let|].
  { unfold alloca_let. apply emitter_bind; [apply emitter_get_type|intros t].
    apply emitter_bind; [apply emitter_alloca|intros v]. apply emitter_set_variables. }
  intros s a s' μ w Sta Gd Ec Hx A R. unfold alloca_let in Ec.
  apply cg_bind_Ok in Ec as (t & s0 & E0 & Ec). apply cg_bind_Ok in Ec as (v & s1 & E1 & E2). injection E2 as _ <-.
  destruct (ask_type _ _ _ _ _ _ _ _ _ Sta Gd E0 A R) as (S0 & G0 & L0 & N0 & A0 & R0).
  destruct (alloca_step _ _ _ _ w μ S0 R0 E1 Hx A0) as (-> & Ht & _ & _ & S1 & U & μ' & St & A' & R' & Hl & _).
  split; [apply static_variable; auto; intros sp'; by rewrite Hd|].
  exists μ'. split_and!; [done|done|by apply rel_variable].
Qed.

Lemma prepares_values sp v : prepares (alloca_values ann sp v).
Proof.
  induction v as [|[p e] v IH]; cbn [alloca_values]; [apply prepares_ret|].
  apply prepares_bind; [apply prepares_type|intros t]. apply prepares_bind; [|done].
  destruct (isStructTy t); [|apply prepares_ret].
  apply prepares_bind; [apply prepares_type|intros st; apply prepares_node].
Qed.

Lemma prepares_expr sp e : prepares (alloca_expr ann sp e).
Proof.
  unfold alloca_expr. apply prepares_bind; [apply prepares_type|intros t].
  apply prepares_bind; [destruct (isStructTy t); [apply prepares_node|apply prepares_ret]|intros _].
  apply prepares_bind; [apply prepares_lift|intros v; apply prepares_values].
Qed.

Lemma prepares_define sp d n :
  d_tables m_decls !! n = defined_schema ann sp d n → prepares (alloca_define ann sp d n).
Proof.
  intros Hd. assert (Hrun : ∀ s attrs s', alloca_define ann sp d n s = Ok (attrs, s') → ∃ sch,
    d_tables m_decls !! n = Some sch ∧ s' = set_schemas s (<[n := sch]> (local_schema_table_ s))).
  { intros s attrs s' Ec. unfold alloca_define in Ec. apply cg_bind_Ok in Ec as (d' & s1 & E1 & Ec).
    destruct d as [d|]; [|done]. injection E1 as <- <-. apply cg_bind_Ok in Ec as (ts & s1 & E1 & Ec).
    unfold defined_schema in Hd. cbn [mbind option_bind] in Hd. destruct (types_of ann sp) as [ts'|]; [|done].
    injection E1 as <- <-. cbn [mbind option_bind] in Hd. apply cg_bind_Ok in Ec as (l & s1 & E1 & Ec). unfold cg_lift in E1.
    destruct (define_attrs d ts' 0 (names_ d)) as [attrs'| | | |]; try done. injection E1 as <- <-.
    apply cg_bind_Ok in Ec as (u & s1 & [= _ <-] & [= _ <-]). eauto. }
  split_and!; [unfold alloca_define; emitting; apply emitter_set_schemas|..].
  - intros s a s' Gd Ec. destruct (Hrun _ _ _ Ec) as (sch & _ & ->). by destruct Gd; split.
  - intros s a s' μ w Sta Gd Ec Hx A R. destruct (Hrun _ _ _ Ec) as (sch & Hs & ->).
    split; [by apply static_schema|]. exists μ. split_and!; [apply rtc_refl|done|]. by destruct R; split.
Qed.
(** *** [insert] and [scan] *)

(** A constant of the module. *)
Lemma prefix_run p s v s' :
  find_or_create_prefix p s = Ok (v, s') → static s →
  v = CStr p ∧ static s' ∧ local_schema_table_ s' = local_schema_table_ s ∧ slots_table s' = slots_table s ∧
  (s' = s ∨ s' = set_globals s (<[p := CStr p]> (global_variable_table_ s))).
Proof.
  unfold find_or_create_prefix. rewrite gets_run. intros Ec Sta.
  destruct (global_variable_table_ s !! p) as [v'|] eqn:Hp.
  - injection Ec as -> <-. split_and!; auto. by eapply st_prefix.
  - apply cg_bind_Ok in Ec as (u & s1 & [= _ <-] & [= <- <-]). split_and!; auto. by apply static_global.
Qed.

(** What does not look at constants. *)
Lemma prefix_kept p s s' (μ : machine) w :
  (s' = s ∨ s' = set_globals s (<[p := CStr p]> (global_variable_table_ s))) →
  good_types s → at_pc μ s → rel s (env_new w) μ → good_types s' ∧ at_pc μ s' ∧ rel s' (env_new w) μ.
Proof. intros [->| ->] Gd A R; [done|]. split_and!; [by destruct Gd; split|done|by destruct R; split]. Qed.

Lemma sane_prefix p s v s' : find_or_create_prefix p s = Ok (v, s') → good_types s → good_types s'.
Proof.
  unfold find_or_create_prefix. rewrite gets_run. intros Ec Gd. destruct (_ !! p); [by injection Ec as _ <-|].
  apply cg_bind_Ok in Ec as (u & s1 & [= _ <-] & [= _ <-]). by destruct Gd; split.
Qed.

Lemma alloca_insert_inv sp table e s u s' :
  alloca_insert ann sp table e s = Ok (u, s') →
  ∃ sch prefix s1 kn vn key s2 value s3 t s4 tup s5,
    local_schema_table_ s !! table = Some sch ∧ find_or_create_prefix (get_key_prefix sch) s = Ok (prefix, s1) ∧
    get_fixed_key_length sch = Ok kn ∧ get_fixed_value_length sch = Ok vn ∧
    CreateAlloca (TArray i8 kn) s1 = Ok (key, s2) ∧ CreateAlloca (TArray i8 vn) s2 = Ok (value, s3) ∧
    get_type (member_of ann) sp [0] e s3 = Ok (t, s4) ∧ CreateAlloca t s4 = Ok (tup, s5) ∧
    s' = set_slots s5 (<[sp := mk_slots prefix None key value tup]> (slots_table s5)).
Proof.
  unfold alloca_insert. rewrite gets_run. intros Ec. destruct (local_schema_table_ s !! table) as [sch|]; [|done].
  destruct (negb _); [done|]. destruct (negb _); [done|]. apply cg_bind_Ok in Ec as (prefix & s1 & E1 & Ec).
  apply cg_bind_Ok in Ec as (kn & sx & Ex & Ec). unfold cg_lift in Ex.
  destruct (get_fixed_key_length sch) as [kn'| | | |] eqn:Hkn; try done. injection Ex as <- <-.
  apply cg_bind_Ok in Ec as (vn & sx & Ex & Ec). unfold cg_lift in Ex.
  destruct (get_fixed_value_length sch) as [vn'| | | |] eqn:Hvn; try done. injection Ex as <- <-.
  rewrite gets_run in Ec. destruct (decide _); [done|].
  apply cg_bind_Ok in Ec as (key & s2 & E2 & Ec). apply cg_bind_Ok in Ec as (value & s3 & E3 & Ec).
  apply cg_bind_Ok in Ec as (t & s4 & E4 & Ec). apply cg_bind_Ok in Ec as (tup & s5 & E5 & Ec). injection Ec as _ <-.
  exists sch, prefix, s1, kn', vn', key, s2, value, s3. do 4 eexists. split_and!; eauto.
Qed.

Lemma sane_insert sp table e : sane (alloca_insert ann sp table e).
Proof.
  intros s u s' Gd Ec.
  apply alloca_insert_inv in Ec as (sch & prefix & s1 & kn & vn & key & s2 & value & s3 & t & s4 & tup & s5 & _ & E1 & _ & _ &
    E2 & E3 & E4 & E5 & ->).
  pose proof (sane_prefix _ _ _ _ E1 Gd) as G1. destruct (keeper_alloca _ _ _ _ G1 E2) as [G2 _].
  destruct (keeper_alloca _ _ _ _ G2 E3) as [G3 _]. destruct (keeper_get_type (member_of ann) _ _ _ _ _ _ G3 E4) as [G4 _].
  destruct (keeper_alloca _ _ _ _ G4 E5) as [G5 _]. by destruct G5; split.
Qed.

(** The three slots of a statement. *)
Lemma slots_live s w (μ : machine) sp sl kr vr tr kn vn tt :
  rel s (env_new w) μ → key_stack_ sl = Reg kr (TPtr (TArray i8 kn)) → value_stack_ sl = Reg vr (TPtr (TArray i8 vn)) →
  tuple_stack_ sl = Reg tr (TPtr tt) → live μ kr (TArray i8 kn) → live μ vr (TArray i8 vn) → live μ tr tt →
  rel (set_slots s (<[sp := sl]> (slots_table s))) (env_new w) μ.
Proof.
  intros R Hk Hv Ht Lk Lv Lt. apply rel_slots; [done|]. intros r t. rewrite Hk, Hv, Ht.
  rewrite !elem_of_cons, elem_of_nil. by intros [[= -> ->]|[[= -> ->]|[[= -> ->]|?]]].
Qed.

Lemma prepares_insert sp table e :
  d_nodes m_decls !! sp = Some (table, None) → prepares (alloca_insert ann sp table e).
Proof.
  intros Hd. split_and!; [|apply sane_insert|].
  { pose proof (emitter_alloca_stack ann (Insert table e) sp) as Em. cbn [alloca_stack] in Em.
    intros s a s' V Ec. eapply Em; [done|]. by rewrite (cg_bind_run _ _ _ _ _ Ec). }
  intros s u s' μ w Sta Gd Ec Hx A R.
  apply alloca_insert_inv in Ec as (sch & prefix & s1 & kn & vn & key & s2 & value & s3 & t & s4 & tup & s5 & Hsch & E1 & Hkn &
    Hvn & E2 & E3 & E4 & E5 & ->).
  destruct (prefix_run _ _ _ _ E1 Sta) as (-> & S1 & Hl1 & _ & Hs1).
  destruct (prefix_kept _ _ _ μ w Hs1 Gd A R) as (G1 & A1 & R1).
  pose proof (emitter_alloca _ _ _ _ (at_pc_valid _ _ A1) E2) as J2.
  pose proof (emitter_alloca _ _ _ _ (emits_valid _ _ J2) E3) as J3.
  pose proof (emitter_get_type _ _ _ _ _ _ _ (emits_valid _ _ J3) E4) as J4.
  pose proof (emitter_alloca _ _ _ _ (emits_valid _ _ J4) E5) as J5.
  assert (Hx5 : extends s5) by exact Hx. assert (Hx4 : extends s4) by by eapply extends_emits.
  assert (Hx3 : extends s3) by by eapply extends_emits. assert (Hx2 : extends s2) by by eapply extends_emits.
  destruct (keeper_alloca _ _ _ _ G1 E2) as [G2 _]. destruct (keeper_alloca _ _ _ _ G2 E3) as [G3 _].
  destruct (alloca_step _ _ _ _ w μ S1 R1 E2 Hx2 A1) as (-> & _ & L2 & N2 & S2 & U2 & μ2 & St2 & A2 & R2 & Lk2 & _).
  destruct (alloca_step _ _ _ _ w μ2 S2 R2 E3 Hx3 A2) as (-> & _ & L3 & N3 & S3 & U3 & μ3 & St3 & A3 & R3 & Lv3 & K3).
  destruct (ask_type _ _ _ _ _ _ _ _ _ S3 G3 E4 A3 R3) as (S4 & G4 & L4 & N4 & A4 & R4).
  destruct (alloca_step _ _ _ _ w μ3 S4 R4 E5 Hx5 A4) as (-> & Ht & L5 & N5 & S5 & U5 & μ5 & St5 & A5 & R5 & Lt5 & K5).
  assert (L35 : later s3 s5) by by transitivity s4.
  assert (U3' : unused s5 (next_id s2)) by (eapply (unused_tables s3); [apply L35|lia|done]).
  assert (U2' : unused s5 (next_id s1)) by (eapply (unused_tables s2); [by rewrite (l_tables _ _ L35); apply L3|lia|done]).
  split.
  - eapply static_slots; [exact S5|]. split; simpl; try reflexivity; try done.
    + by apply (st_schemas _ Sta).
    + lia.
    + lia.
    + split; [apply U2'|apply U3'].
    + apply U5.
  - exists μ5. split; [etrans; [exact St2|]; by etrans|]. split; [done|].
    eapply slots_live; [exact R5|reflexivity..|apply K5, K3; [lia|lia|done]|apply K5; [lia|done]|done].
Qed.
Lemma row_attrs_run attrs s ts s' :
  row_attrs attrs s = Ok (ts, s') → s' = s ∧ all_i64 ts ∧ length ts = length attrs.
Proof.
  revert ts. induction attrs as [|a attrs IH]; intros ts Ec; cbn [row_attrs] in Ec.
  { injection Ec as <- <-. by repeat constructor. }
  destruct (is_integer _); [|done]. apply cg_bind_Ok in Ec as (r & s1 & E1 & [= <- <-]).
  destruct (IH _ E1) as (-> & Hi & Hl). split_and!; [done|by constructor|simpl; by f_equal].
Qed.

(** The types of a scan's row are created. *)
Definition with_row_type (s : cstate) (ts : list ltype) (x : cstr) : cstate :=
  set_types s (struct_types s ++ [(x, ts)]) (<[x := TStruct (length (struct_types s))]> (type_table_ s)).

Lemma alloca_scan_inv sp table x s u s' :
  alloca_scan sp table x s = Ok (u, s') →
  ∃ sch pb s1 e pe s2 kn vn key s3 value s4 ts row s6,
    local_schema_table_ s !! table = Some sch ∧ find_or_create_prefix (get_key_prefix sch) s = Ok (pb, s1) ∧
    prefix_end (get_key_prefix sch) = Ok e ∧ find_or_create_prefix e s1 = Ok (pe, s2) ∧
    get_fixed_key_length sch = Ok kn ∧ get_fixed_value_length sch = Ok vn ∧ slots_table s2 !! sp = None ∧
    CreateAlloca (TArray i8 kn) s2 = Ok (key, s3) ∧ CreateAlloca (TArray i8 vn) s3 = Ok (value, s4) ∧
    all_i64 ts ∧ length ts = columns sch ∧
    CreateAlloca (TStruct (length (struct_types s4))) (with_row_type s4 ts x) = Ok (row, s6) ∧
    s' = set_slots (set_variables s6 (<[x := row]> (variable_table_ s6)))
           (<[sp := mk_slots pb (Some pe) key value row]> (slots_table s6)).
Proof.
  unfold alloca_scan. rewrite gets_run. intros Ec. apply cg_bind_Ok in Ec as (sch & sx & Ex & Ec).
  destruct (local_schema_table_ s !! table) as [sch'|]; [|done]. injection Ex as <- <-.
  destruct (negb _); [done|]. destruct (negb _); [done|]. apply cg_bind_Ok in Ec as (pb & s1 & E1 & Ec).
  apply cg_bind_Ok in Ec as (e & sx & Ex & Ec). unfold cg_lift in Ex.
  destruct (prefix_end (get_key_prefix sch')) as [e'| | | |] eqn:He; try done. injection Ex as <- <-.
  apply cg_bind_Ok in Ec as (pe & s2 & E2 & Ec).
  apply cg_bind_Ok in Ec as (kn & sx & Ex & Ec). unfold cg_lift in Ex.
  destruct (get_fixed_key_length sch') as [kn'| | | |] eqn:Hkn; try done. injection Ex as <- <-.
  apply cg_bind_Ok in Ec as (vn & sx & Ex & Ec). unfold cg_lift in Ex.
  destruct (get_fixed_value_length sch') as [vn'| | | |] eqn:Hvn; try done. injection Ex as <- <-.
  rewrite gets_run in Ec. destruct (decide _) as [|Hno]; [done|].
  apply cg_bind_Ok in Ec as (key & s3 & E3 & Ec). apply cg_bind_Ok in Ec as (value & s4 & E4 & Ec).
  apply cg_bind_Ok in Ec as (ts & s5 & E5 & Ec). destruct (row_attrs_run _ _ _ _ E5) as (-> & Hi & Hl).
  apply cg_bind_Ok in Ec as (rt & s5 & [= <- <-] & Ec). apply cg_bind_Ok in Ec as (u5 & s5 & [= _ <-] & Ec).
  apply cg_bind_Ok in Ec as (row & s6 & E6 & Ec). apply cg_bind_Ok in Ec as (u6 & s7 & [= _ <-] & [= _ <-]).
  exists sch', pb, s1, e', pe, s2, kn', vn', key, s3, value, s4, ts, row, s6. split_and!; auto.
  by apply eq_None_not_Some.
Qed.

Lemma row_name_facts x : row_name_ok x = true → ¬ first_brace x ∧ x ≠ lit "string".
Proof. unfold row_name_ok. intros [H1 H2]%andb_prop. apply bool_decide_eq_true in H1, H2. by split. Qed.

Lemma good_row_type s ts x :
  good_types s → all_i64 ts → ¬ first_brace x → good_types (with_row_type s ts x).
Proof.
  intros Gd Hi Hx. apply good_types_extend; [done| |by intros ?]. eapply Forall_impl; [exact Hi|]. by intros ? ->.
Qed.

Lemma sane_scan sp table x : row_name_ok x = true → sane (alloca_scan sp table x).
Proof.
  intros Hx s u s' Gd Ec. apply row_name_facts in Hx as [Hb _].
  apply alloca_scan_inv in Ec as (sch & pb & s1 & e & pe & s2 & kn & vn & key & s3 & value & s4 & ts & row & s6 & _ & E1 & _ &
    E2 & _ & _ & _ & E3 & E4 & Hi & _ & E6 & ->).
  pose proof (sane_prefix _ _ _ _ E2 (sane_prefix _ _ _ _ E1 Gd)) as G2. destruct (keeper_alloca _ _ _ _ G2 E3) as [G3 _].
  destruct (keeper_alloca _ _ _ _ G3 E4) as [G4 _]. pose proof (good_row_type _ _ _ G4 Hi Hb) as G5.
  destruct (keeper_alloca _ _ _ _ G5 E6) as [G6 L6]. destruct (alloca_type _ _ _ _ E6) as [Tv _].
  destruct G6. split; simpl; auto. intros y lv. rewrite lookup_insert_Some. intros [[<- <-]|[_ Hy]]; [|eauto].
  rewrite Tv. simpl. apply bool_decide_eq_true. pose proof (later_length _ _ L6) as Hl. simpl in Hl.
  rewrite length_app in Hl. simpl in Hl. lia.
Qed.

Lemma prepares_scan sp table x :
  d_nodes m_decls !! sp = Some (table, Some x) → d_rows m_decls !! x = Some sp → row_name_ok x = true →
  prepares (alloca_scan sp table x).
Proof.
  intros Hd Hr Hx0. split_and!; [|by apply sane_scan|].
  { pose proof (emitter_alloca_stack ann (Scan table x []) sp) as Em. cbn [alloca_stack] in Em.
    intros s a s' V Ec. eapply Em; [done|]. by rewrite (cg_bind_run _ _ _ _ _ Ec). }
  intros s u s' μ w Sta Gd Ec Hx A R. apply row_name_facts in Hx0 as [Hb Hstr].
  apply alloca_scan_inv in Ec as (sch & pb & s1 & e & pe & s2 & kn & vn & key & s3 & value & s4 & ts & row & s6 & Hsch & E1 & He &
    E2 & Hkn & Hvn & Hno & E3 & E4 & Hi & Hlen & E6 & ->).
  destruct (prefix_run _ _ _ _ E1 Sta) as (-> & S1 & Hl1 & _ & Hs1).
  destruct (prefix_kept _ _ _ μ w Hs1 Gd A R) as (G1 & A1 & R1).
  destruct (prefix_run _ _ _ _ E2 S1) as (-> & S2 & Hl2 & _ & Hs2).
  destruct (prefix_kept _ _ _ μ w Hs2 G1 A1 R1) as (G2 & A2 & R2).
  pose proof (emitter_alloca _ _ _ _ (at_pc_valid _ _ A2) E3) as J3.
  pose proof (emitter_alloca _ _ _ _ (emits_valid _ _ J3) E4) as J4.
  assert (V5 : valid_cur (with_row_type s4 ts x)) by exact (emits_valid _ _ J4).
  pose proof (emitter_alloca _ _ _ _ V5 E6) as J6.
  assert (Hx6 : extends s6) by exact Hx. assert (Hx5 : extends (with_row_type s4 ts x)) by by eapply extends_emits.
  assert (Hx4 : extends s4).
  { destruct Hx5 as [H1 H2]. split; [done|]. etrans; [|exact H2]. by exists [(x, ts)]. }
  assert (Hx3 : extends s3) by by eapply extends_emits.
  destruct (alloca_step _ _ _ _ w μ S2 R2 E3 Hx3 A2) as (-> & _ & L3 & N3 & S3 & U3 & μ3 & St3 & A3 & R3 & Lk3 & _).
  destruct (alloca_step _ _ _ _ w μ3 S3 R3 E4 Hx4 A3) as (-> & _ & L4 & N4 & S4 & U4 & μ4 & St4 & A4 & R4 & Lv4 & K4).
  assert (S5 : static (with_row_type s4 ts x)) by by apply static_type.
  assert (R5 : rel (with_row_type s4 ts x) (env_new w) μ4) by by destruct R4; split.
  destruct (alloca_step _ _ _ _ w μ4 S5 R5 E6 Hx6 A4) as (-> & Ht & L6 & N6 & S6 & U6 & μ6 & St6 & A6 & R6 & Lt6 & K6).
  change (next_id (with_row_type s4 ts x)) with (next_id s4) in *.
  assert (T64 : tables s6 = tables s4) by apply L6.
  assert (T62 : tables s6 = tables s2) by (rewrite T64, (l_tables _ _ L4); apply L3).
  assert (U4' : unused s6 (next_id s3)) by (eapply (unused_tables s4); [done|lia|done]).
  assert (U3' : unused s6 (next_id s2)) by (eapply (unused_tables s3); [by rewrite T64; apply L4|lia|done]).
  assert (Hk : ss !! length (struct_types s4) = Some (x, ts)).
  { destruct Hx5 as [_ Hp]. eapply prefix_lookup_Some; [|exact Hp]. simpl. by rewrite list_lookup_middle. }
  assert (Hns : slots_table s6 = slots_table s2) by (unfold tables in T62; by injection T62).
  assert (S7 : static (set_variables s6 (<[x := Reg (next_id s4) (TPtr (TStruct (length (struct_types s4))))]> (variable_table_ s6)))).
  { apply static_variable; auto. intros sp'. rewrite Hr. intros [= <-]. by rewrite Hns. }
  assert (Hpriv : ∀ r t, unused s6 r → r ≠ next_id s4 → private (<[x := Reg (next_id s4) t]> (variable_table_ s6)) r).
  { intros r t (_ & Hp & _) Hne y ty. rewrite lookup_insert_Some. intros [[_ [= Heq _]]|[_ Hy]]; [by apply Hne|by eapply Hp]. }
  split.
  - eapply (static_slots (set_variables s6 _)); [exact S7|].
    split; simpl; try reflexivity; try done.
    + by apply (st_schemas _ Sta).
    + lia.
    + lia.
    + split; apply Hpriv; auto; lia.
    + split_and!; [done|by rewrite lookup_insert_eq| |by exists e]. exists (length (struct_types s4)), x, ts. done.
  - exists μ6. split; [etrans; [exact St3|]; by etrans|]. split; [done|].
    eapply (slots_live (set_variables s6 _)); [by apply rel_variable|reflexivity..|apply K6, K4; [simpl; lia|lia|done]|
      apply K6; [simpl; lia|done]|done].
Qed.

(** *** All statements *)

Lemma prepares_alloca_stack s :
  supported s = true → ∀ sp, declares ann m_decls s sp = true → prepares (alloca_stack ann sp s).
Proof.
  induction s as [l Hl|i l Hl|d n|i c e l Hi Hl|t|e|t e|t r l Hl|n e t|n t|c t f Ht Hf|e]
    using Statement_rect'; intros Hs sp Hd; simpl in Hs, Hd; try done; cbn [alloca_stack]; try apply prepares_ret.
  - apply bool_decide_eq_true in Hd. apply prepares_bind; [by apply prepares_define|intros attrs; apply prepares_ret].
  - destruct i as [i|], c as [c|], e as [e|]; try done. apply andb_prop in Hd as [D1 D2].
    apply Hi; [done| |done]. by repeat match goal with H : _ && _ = true |- _ => apply andb_prop in H as [H _] end.
  - apply prepares_bind; [|intros _; apply prepares_ret]. unfold alloca_emit.
    apply prepares_bind; [apply prepares_type|intros t; apply prepares_node].
  - apply bool_decide_eq_true in Hd. apply prepares_bind; [by apply prepares_insert|intros _; apply prepares_ret].
  - apply andb_prop in Hd as [Hd D4]. apply andb_prop in Hd as [Hd D3]. apply andb_prop in Hd as [D1 D2].
    apply bool_decide_eq_true in D1, D2. apply prepares_bind; [by apply prepares_scan|intros _; apply prepares_ret].
  - apply bool_decide_eq_true in Hd. apply prepares_bind; [by apply prepares_let|intros _; apply prepares_ret].
  - apply prepares_bind; [apply prepares_expr|intros _; apply prepares_ret].
Qed.

Lemma prepares_walk s :
  supported s = true → ∀ sp, declares ann m_decls s sp = true → prepares (walk (alloca_stack ann) s sp).
Proof.
  assert (Hblk : ∀ mk sp l i,
    Forall (λ s, supported s = true → ∀ sp, declares ann m_decls s sp = true → prepares (walk (alloca_stack ann) s sp)) l →
    forallb supported l = true → check_statements (declares ann m_decls) mk sp i l = true →
    prepares (walk_statements (alloca_stack ann) (walk (alloca_stack ann)) mk sp i l)).
  { intros mk sp l i Hl. revert i.
    induction Hl as [|s0 l Hs _ IH]; intros i Hf Hd; cbn [walk_statements]; [apply prepares_ret|].
    simpl in Hf, Hd. apply andb_prop in Hf as [H1 H2], Hd as [D1 D2].
    apply prepares_bind; [by apply prepares_alloca_stack|intros a].
    apply prepares_bind; [by apply Hs|intros b]. apply prepares_bind; [by apply IH|intros c; apply prepares_ret]. }
  induction s as [l Hl|i l Hl|d n|i c e l Hi Hl|t|e|t e|t r l Hl|n e t|n t|c t f Ht Hf|e]
    using Statement_rect'; intros Hs sp Hd; simpl in Hs, Hd; try done; cbn [walk]; try apply prepares_ret; try by apply Hblk.
  - destruct i as [i|], c as [c|], e as [e|]; try done. apply andb_prop in Hs as [Hs H4]. apply andb_prop in Hd as [D1 D2].
    repeat match goal with H : _ && _ = true |- _ => apply andb_prop in H as [H _] end.
    apply prepares_bind; [by apply prepares_alloca_stack|intros a].
    apply prepares_bind; [by apply Hblk|intros b; apply prepares_ret].
  - apply andb_prop in Hd as [Hd D4]. by apply Hblk.
  - apply andb_prop in Hs as [Hs H3]. apply andb_prop in Hs as [H1 H2]. apply andb_prop in Hd as [D1 D2].
    destruct f as [f|]; [|by apply Hblk].
    apply prepares_bind; [by apply Hblk|intros a]. apply prepares_bind; [|intros b; apply prepares_ret].
    apply Hblk; [|done|done]. by apply Hf.
Qed.
End prepare.
