(* ===== verification/CompileCorrect.v ===== *)
(** * CompileCorrect: a compiled program runs as the program means

    The context in which the code of a program is generated, and the machine's initial state,
    satisfy what Prepare.v asks for; with Faithful.v: whenever compilation succeeds and the
    reference semantics runs the program to its end, so does the machine on the compiled module, and
    it leaves the same world behind. *)

From Stdlib Require Import ZArith NArith Ascii String Lia.
From stdpp Require Import base option list strings gmap relations.
From S2P Require Import Prelude Value Attr Schema Ast Visit StmtParser Analyze LLVM CodegenExpr.
From S2P Require Import CodegenStmt Compile Machine Runtime Concrete Layout Declare Semantics Shape Typing Simulate.
From S2P Require Import ExprCorrect StmtCorrect Faithful Prepare.

(** ** The context at the start *)

Section start.
Context `{L : LLVM} `{LT : !LLVMTyping} `{PL : !PrintLaws}.

(** The context in which the code of a program is generated: the functions of FOEDUS and of the
    language, and the type of strings. *)
Definition context_ready : result cstate :=
  s ← context_new; '(_, s) ← (_ ← init_types; init_functions) s; Ok s.

Definition ready_functions : gmap cstr lfunction :=
  list_to_map (reverse ((λ '(name, sym, ret, params), (lit name, mk_function (lit sym) ret params)) <$>
    [("__begin_xct", "begin_xct", i1, [i64ptr]); ("__precommit_xct", "precommit_xct", i1, [i64ptr]);
     ("__insert", "foedus_insert", i1, [i64ptr; i8ptr; i64; i8ptr; i64]);
     ("__get_cursor", "foedus_generate_cursor", i64ptr, [i64ptr; i8ptr; i64; i8ptr; i64]);
     ("__cursor_next", "foedus_cursor_next", i1, [i64ptr]);
     ("__cursor_is_valid", "foedus_cursor_is_valid", i1, [i64ptr]);
     ("__cursor_copy_key", "foedus_cursor_copy_key", TVoid, [i64ptr; i8ptr]);
     ("__cursor_copy_value", "foedus_cursor_copy_value", TVoid, [i64ptr; i8ptr]);
     ("__cursor_destroy", "foedus_cursor_destroy", TVoid, [i64ptr]);
     ("malloc", "malloc", i8ptr, [i64]); ("drop_table", "drop_table_func", TVoid, [i64ptr; i64ptr]);
     ("print_int", "print_int", TVoid, [i64]); ("print_string", "print_string", TVoid, [TPtr (TStruct 0)]);
     ("rand", "rand_int", i64, [i64; i64]); ("__emit_func", "__emit_func", TVoid, [i64ptr; i8ptr; i64])]%string)).

Definition ready_state : cstate :=
  mk_cstate [] None 0 [(lit "string_type", [i8ptr; i64])] {[lit "string" := TStruct 0]} ready_functions
    ∅ ∅ ∅ ∅ ∅ [].

Lemma context_ready_ok : context_ready = Ok ready_state.
Proof. vm_cast_no_check (eq_refl (Ok ready_state)). Qed.

Lemma ready_types : good_types ready_state.
Proof.
  split; simpl.
  - intros [|k] n ts; [|done]. intros [= <- <-]. split; [by repeat constructor|]. by intros [=].
  - intros x t. rewrite lookup_singleton_Some. by intros [_ <-].
  - intros x t. rewrite lookup_singleton_Some. intros [<- _]. by intros [=].
  - done.
  - assert (Forall (λ p, known 1 (ret_type p.2) = true) (map_to_list ready_functions)) as Hall.
    { vm_compute. repeat constructor. }
    rewrite Forall_forall in Hall. intros x f Hf. apply (Hall (x, f)). by apply elem_of_map_to_list.
Qed.

(** The types of a context make a module whose structs are well-founded. *)
Lemma known_below k t : known k t = true → type_below k t = true.
Proof. induction t; simpl; auto. Qed.

Lemma good_structs s : good_types s → wf_structs (struct_types s).
Proof.
  intros Gd k n ts Hk. destruct (g_structs _ Gd _ _ _ Hk) as [K _]. eapply Forall_impl; [exact K|].
  intros t. apply known_below.
Qed.

(** Every struct has at most [2^32] elements, so that an index of 32 bits selects one. *)
Definition small_structs (st : structs) : Prop :=
  Forall (λ s : list ascii * list ltype, Z.of_nat (length s.2) ≤ 2 ^ 32)%Z st.

Definition module_of (D : decls) (s : cstate) (Gd : good_types s) (Sm : small_structs (struct_types s)) : Module := {|
  m_structs := struct_types s;
  m_code := blocks s;
  m_decls := D;
  m_wf := good_structs s Gd;
  m_small k n ts Hk := proj1 (Forall_lookup _ _) Sm k (n, ts) Hk;
|}.

Definition module_none (D : decls) : Module.
Proof. refine {| m_structs := []; m_code := []; m_decls := D |}; intros k n ts; done. Defined.
End start.

(** ** Whole programs *)

Lemma run_steps `{T : Target} {W : Type} (ss : structs) call_fn P (μ μ' : mstate (W := W)) k r :
  steps_to ss call_fn P μ μ' → run ss call_fn k P μ' = Ok r → ∃ n, run ss call_fn n P μ = Ok r.
Proof.
  induction 1 as [μ|μ μ1 μ2 H1 _ IH]; intros Hr; [by exists k|]. destruct (IH Hr) as [n Hn].
  exists (S n). simpl. by rewrite H1.
Qed.

Section whole.
Context `{L : LLVM} `{LT : !LLVMTyping} `{PL : !PrintLaws} `{T : Target} `{TL : !TargetLaws}
  `{LF : !LLVMFolds}.
Context {E C G : Type} `{FA : FoedusAPI E C} `{RG : Random G} `{RL : !RandomLaws G}.
Context (show_double : Z → cstr).
Abbreviation annotated l := (annotate show_double l ctx_new).

Lemma compile_inv l created s0 s' :
  context_ready = Ok s0 → compile_new show_double l = Ok (created, s') →
  ∃ bb s1 u2 s2 s3 u4 s4 w, create_block "entry_jit" s0 = Ok (bb, s1) ∧
    SetInsertPoint bb s1 = Ok (u2, s2) ∧ walk (alloca_stack (annotated l)) (Block l) [] s2 = Ok (created, s3) ∧
    codegen (annotated l) (Block l) [] s3 = Ok (u4, s4) ∧ insert_instr (IRet (CInt 1 1)) s4 = Ok (w, s').
Proof.
  unfold context_ready, compile_new. intros Hr Ec.
  apply bind_Ok_inv in Hr as (sc & Hc & Hr). apply bind_Ok_inv in Ec as (sc' & Hc' & Ec).
  rewrite Hc in Hc'. injection Hc' as <-. apply bind_Ok_inv in Hr as ([u sr] & Hi & Hr). injection Hr as ->.
  apply cg_bind_Ok in Hi as (ui & si & Hi1 & Hi2). unfold compile in Ec. rewrite (cg_bind_run _ _ _ _ _ Hi1) in Ec.
  rewrite (cg_bind_run _ _ _ _ _ Hi2) in Ec. apply cg_bind_Ok in Ec as (st & sa & Ea & Ec).
  unfold cg_lift in Ea. apply bind_Ok_inv in Ea as (st' & _ & Ea). injection Ea as _ <-.
  apply cg_bind_Ok in Ec as (bb & s1 & E1 & Ec). apply cg_bind_Ok in Ec as (u2 & s2 & E2 & Ec).
  apply cg_bind_Ok in Ec as (cr & s3 & E3 & Ec). apply cg_bind_Ok in Ec as (u4 & s4 & E4 & Ec).
  apply cg_bind_Ok in Ec as (u5 & s5 & E5 & Ec). injection Ec as <- <-. unfold CreateRet in E5.
  apply cg_bind_Ok in E5 as (w & s6 & E6 & E5). injection E5 as _ <-. by exists bb, s1, u2, s2, s3, u4, s4, w.
Qed.
(** The start of a program's code. *)
Lemma entry_start bb s1 u2 s2 :
  create_block "entry_jit" ready_state = Ok (bb, s1) → SetInsertPoint bb s1 = Ok (u2, s2) →
  insert_block s2 = Some 0 ∧ blocks s2 = [(lit "entry_jit", [])] ∧ tables s2 = tables ready_state ∧
  struct_types s2 = struct_types ready_state ∧ type_table_ s2 = type_table_ ready_state ∧ next_id s2 = 0.
Proof. intros [= <- <-] [= _ <-]. done. Qed.

Lemma entry_static `{MM : Module} s2 :
  tables s2 = tables ready_state → type_table_ s2 = type_table_ ready_state →
  struct_types s2 = struct_types ready_state → struct_types s2 `prefix_of` m_structs → static s2.
Proof.
  intros Ht Hty Hst Hpre. injection Ht as Hf Hv Hs Hl Hg Hc.
  assert (H0 : m_structs !! 0 = Some (lit "string_type", [i8ptr; i64])) by (eapply prefix_lookup_Some, Hpre; by rewrite Hst).
  assert (Hstr : type_table_ s2 !! lit "string" = Some (TStruct 0)) by (rewrite Hty; apply lookup_singleton_eq).
  split; rewrite ?Hf, ?Hv, ?Hs, ?Hl, ?Hg, ?Hc; try done; try (by vm_compute); try naive_solver.
Qed.
(** The initial state of the machine: at the start of the function, with nothing in registers. *)
Definition machine_start (w : World E C G) : mstate (W := World E C G) := mk_mstate 0 0 0 ∅ ∅ w.

Lemma types_of_compiled l s2 created s3 u4 s4 w s' :
  forallb supported l = true → well_declared (annotated l) l = true → good_types s2 →
  walk (alloca_stack (annotated l)) (Block l) [] s2 = Ok (created, s3) →
  codegen (annotated l) (Block l) [] s3 = Ok (u4, s4) → insert_instr (IRet (CInt 1 1)) s4 = Ok (w, s') →
  good_types s3 ∧ good_types s'.
Proof.
  intros Hs Hd Gd E3 E4 E5. pose (MM := module_none (decls_of (annotated l) l)).
  destruct (prepares_walk (MM := MM) (FA := FA) (RG := RG) (annotated l) (Block l) Hs [] Hd) as (_ & Sw & _).
  destruct (faithful_codegen (MM := MM) (FA := FA) (RG := RG) (annotated l) 0 (Block l) Hs [] Hd) as (_ & _ & Kc).
  pose proof (Sw _ _ _ Gd E3) as G3. destruct (Kc _ _ _ G3 E4) as [G4 _].
  destruct (keeper_insert _ _ _ _ G4 E5) as [G' _]. done.
Qed.

(** Whenever compilation of a program succeeds and the reference semantics runs the program to
    its end, the machine runs the compiled module to its return: it returns 1, and what the program
    printed, emitted and did to the engine is what the reference says.  Programs are those whose
    statements the reference covers and whose declarations do not get in each other's way; rows have
    elements without effects. *)
Theorem compile_correct l created s' fuel w σ' :
  compile_new show_double l = Ok (created, s') → forallb supported l = true →
  well_declared (annotated l) l = true → small_structs (struct_types s') →
  exec_stmt (member_of (annotated l)) (d_tables (decls_of (annotated l) l)) fuel (Block l) [] (env_new w) = Ok σ' →
  ∃ n m, run (struct_types s') call_runtime n (blocks s') (machine_start w) = Ok (RInt 1 1, m, env_world σ').
Proof.
  intros Ec Hs Hd Sm Ee.
  destruct (compile_inv _ _ _ _ context_ready_ok Ec) as (bb & s1 & u2 & s2 & s3 & u4 & s4 & wr & E1 & E2 & E3 & E4 & E5).
  destruct (entry_start _ _ _ _ E1 E2) as (Hi & Hb & Ht & Hst & Hty & Hn).
  assert (G2 : good_types s2) by by eapply good_types_same, ready_types.
  destruct (types_of_compiled _ _ _ _ _ _ _ _ Hs Hd G2 E3 E4 E5) as [G3 G'].
  pose (MM := module_of (decls_of (annotated l) l) s' G' Sm).
  destruct (prepares_walk (MM := MM) (FA := FA) (RG := RG) (annotated l) (Block l) Hs [] Hd) as (Ew & _ & Hw).
  destruct (faithful_codegen (MM := MM) (FA := FA) (RG := RG) (annotated l) fuel (Block l) Hs [] Hd) as (Hp & Eg & _).
  assert (V2 : valid_cur s2) by (exists 0; rewrite Hb; split; [done|simpl; lia]).
  pose proof (Ew _ _ _ V2 E3) as J3. pose proof (Eg _ _ _ (emits_valid _ _ J3) E4) as J4.
  destruct (emits_valid _ _ J4) as (c4 & Hc4 & Lc4).
  assert (Hx : extends s').
  { split; [|done]. intros b n c Hbc. exists n, []. by rewrite app_nil_r. }
  assert (Hx4 : extends s4) by (eapply extends_frame, Hx; eapply insert_frame; [exact Hc4|done|exact E5|constructor]).
  assert (Hx3 : extends s3) by by eapply extends_emits. assert (Hx2 : extends s2) by by eapply extends_emits.
  assert (S2 : static s2) by (eapply entry_static; [done..|apply Hx2]).
  destruct (Hw _ _ _ (machine_start w) w S2 G2 E3 Hx3) as (S3 & μ3 & St3 & A3 & R3).
  { exists 0, (lit "entry_jit"), []. by rewrite Hi, Hb. }
  { injection Ht as _ Hv Hsk Hsl _ _. split; rewrite ?Hv, ?Hsk, ?Hsl; done. }
  destruct (Hp _ _ _ _ _ _ S3 G3 E4 Hx4 Ee A3 R3) as (μ4 & St4 & A4 & _ & R4).
  destruct (run_steps (struct_types s') call_runtime (blocks s') (machine_start w) μ4 1 (RInt 1 1, mem μ4, world μ4))
    as [n Hrun].
  - by etrans.
  - simpl. pose proof (step_inserted _ _ _ _ μ4 E5 Hx A4) as Hstep. simpl in Hstep. by rewrite Hstep.
  - rewrite <- (r_world _ _ _ R4) in *. eauto.
Qed.
End whole.
