(* ===== verification/Execute.v ===== *)
(** * Execute: compiling a program and running it
      ([Compiler::compile_and_exec] of [src/src/reir/exec/compiler.cpp])

    The compiled module is run and the rows it emitted are printed.  Here: the whole of what the
    user sees is what the reference semantics says. *)

From Stdlib Require Import ZArith NArith Ascii String Lia.
From stdpp Require Import base option list strings gmap relations.
From S2P Require Import Prelude Slice Value Attr Schema Ast Visit StmtParser Analyze LLVM CodegenExpr.
From S2P Require Import CodegenStmt Compile Machine Runtime Concrete Layout Declare Semantics Shape Typing Simulate.
From S2P Require Import ExprCorrect StmtCorrect Faithful Prepare CompileCorrect.

(** ** The program *)

Section execute.
Context `{DB : DBInterface} `{T : Target} {E C G : Type} `{FA : FoedusAPI E C} `{RG : Random G}.
Context (show_double : Z → cstr).

(** The bytes of the rows that were emitted. *)
Definition emitted_rows (w : World E C G) : option (list (list ascii)) := mapM (mapM byte_of) (outputs_ w).

(** [++i] of an [int]. *)
Definition int_succ (i : Z) : result Z := if decide (i = 2 ^ 31 - 1)%Z then UB else Ok (i + 1)%Z.

(** The loop over the rows; it counts them with an [int]. *)
Fixpoint show_rows (i : Z) (rows : list (list ascii)) : result cstr :=
  match rows with
  | [] => Ok []
  | r :: rows =>
      let row := (if decide (0 < i)%Z then endl else []) ++ show_RawRow r in
      i ← int_succ i;
      rest ← show_rows i rows;
      Ok (row ++ rest)
  end.

Definition print_emitted (w : World E C G) (rows : list (list ascii)) : result (World E C G) :=
  text ← show_rows 0 rows;
  Ok (print w (lit "emitted values: " ++ text ++ endl)).

(** In a context that exists already; the module's function is called with the machine's fuel. *)
Definition compile_and_exec_in (fuel : nat) (ctx : cstate) (ast : option (list Statement)) (w : World E C G)
    : result (World E C G) :=
  match ast with
  | None => Ok w
  | Some l =>
      '(_, s) ← compile show_double l ctx;
      '(_, _, w) ← run (struct_types s) call_runtime fuel (blocks s) (machine_start w);
      rows ← of_option (emitted_rows w);
      print_emitted w rows
  end.

(** In a context of its own. *)
Definition compile_and_exec (fuel : nat) (ast : option (list Statement)) (w : World E C G)
    : result (World E C G) :=
  ctx ← context_new;
  compile_and_exec_in fuel ctx ast (set_outputs w []).

(** What is printed of the rows: each on its line. *)
Definition emitted_text (rows : list (list ascii)) : cstr :=
  lit "emitted values: " ++ intercalate endl (show_RawRow <$> rows) ++ endl.

(** Their number fits the counter. *)
Definition rows_fit (w : World E C G) : Prop := (Z.of_nat (length (outputs_ w)) < 2 ^ 31)%Z.

Lemma show_rows_from rows : ∀ i, (0 < i)%Z → (i + Z.of_nat (length rows) < 2 ^ 31)%Z →
  show_rows i rows = Ok (concat ((λ r, endl ++ show_RawRow r) <$> rows)).
Proof.
  induction rows as [|r rows IH]; intros i Hi Hl; [done|]. cbn [show_rows length] in *. unfold int_succ.
  rewrite decide_True by done. rewrite decide_False by lia. cbn [mbind result_bind]. rewrite IH by lia. done.
Qed.

Lemma intercalate_concat g x xs : intercalate g (x :: xs) = x ++ concat ((λ y, g ++ y) <$> xs).
Proof.
  revert x. induction xs as [|y xs IH]; intros x; [by rewrite app_nil_r|].
  rewrite intercalate_cons, IH by done. cbn [fmap list_fmap concat]. by rewrite <- app_assoc.
Qed.

Lemma print_emitted_fit w w' rows :
  emitted_rows w' = Some rows → rows_fit w' → print_emitted w rows = Ok (print w (emitted_text rows)).
Proof.
  unfold rows_fit. intros Hr Hl. apply length_mapM in Hr. rewrite Hr in Hl.
  unfold print_emitted, emitted_text. destruct rows as [|r rows]; [done|]. cbn [show_rows length] in *. unfold int_succ.
  rewrite decide_False by lia. rewrite decide_False by lia. cbn [mbind result_bind].
  rewrite show_rows_from by lia. cbn [mbind result_bind fmap list_fmap]. by rewrite intercalate_concat, <- list_fmap_compose.
Qed.

(** With more rows the counter overflows. *)
Lemma show_rows_overflows rows : ∀ i, (0 ≤ i < 2 ^ 31)%Z → (2 ^ 31 ≤ i + Z.of_nat (length rows))%Z → show_rows i rows = UB.
Proof.
  induction rows as [|r rows IH]; intros i Hi Hl; cbn [show_rows length] in *; [lia|]. unfold int_succ.
  destruct (decide (i = 2 ^ 31 - 1)%Z); [done|]. cbn [mbind result_bind]. by rewrite IH by lia.
Qed.

Lemma compile_and_exec_run l created s' fuel w r m w' rows :
  compile_new show_double l = Ok (created, s') →
  run (struct_types s') call_runtime fuel (blocks s') (machine_start (set_outputs w [])) = Ok (r, m, w') →
  emitted_rows w' = Some rows → rows_fit w' →
  compile_and_exec fuel (Some l) w = Ok (print w' (emitted_text rows)).
Proof.
  intros Ec Hrun Hrows Hfit. apply bind_Ok_inv in Ec as (ctx & Hctx & Ec). unfold compile_and_exec, compile_and_exec_in.
  rewrite Hctx. simpl. rewrite Ec. simpl. rewrite Hrun. simpl. rewrite Hrows. simpl. by eapply print_emitted_fit.
Qed.
End execute.

(** ** What is emitted is bytes *)

Section bytes.
Context {E C G : Type} `{FA : FoedusAPI E C} `{RG : Random G}.
Context (member : nid → option (TypeId.type_id * nat)).
Abbreviation outputs σ := (outputs_ (env_world σ)).

Lemma builtin_outputs f vs (σ : env E C G) v σ' : call_builtin f vs σ = Ok (v, σ') → outputs σ' = outputs σ.
Proof.
  intros Ec. destruct (call_builtin_inv _ _ _ _ _ Ec) as [(_ & z & _ & _ & ->)|[(_ & str & _ & _ & ->)|(_ & a & b & z & w & _ & Hr & _ & ->)]];
    [done..|]. unfold rand_int in Hr. case_decide; [|done]. destruct (uniform _ _ _). by simplify_eq.
Qed.

Lemma list_outputs ev es : Forall (λ e, ∀ i (σ : env E C G) v σ', ev e i σ = Ok (v, σ') → outputs σ' = outputs σ) es →
  ∀ i σ vs σ', eval_list ev i es σ = Ok (vs, σ') → outputs σ' = outputs σ.
Proof.
  induction 1 as [|e es He _ IH]; intros i σ vs σ' El; cbn [eval_list] in El; [by simplify_eq|]. inv_prog.
  etransitivity; [by eapply IH|by eapply He].
Qed.

(** Expressions emit nothing. *)
Lemma expr_outputs e : ∀ sp p (σ : env E C G) v σ', eval_expr member sp p e σ = Ok (v, σ') → outputs σ' = outputs σ.
Proof.
  induction e as [v|l op r IHl IHr|t IHt|es IHes|es IHes|n|f args _ IHargs|q i IHq _|q n _|t v _ IHv]
    using Expression_rect'; intros sp p σ x σ' Ee; cbn [eval_expr] in Ee; try done.
  - by inv_prog.
  - assert (Hc : ∀ b, eval_cond (λ e i, eval_expr member sp (p ++ [i]) e) l r b σ = Ok (x, σ') → outputs σ' = outputs σ).
    { intros b Eb. unfold eval_cond in Eb. inv_prog. apply IHl in Hm. destruct (Bool.eqb _ _); inv_prog; [|done].
      apply IHr in Hm1. congruence. }
    destruct op; try by eapply Hc. all: unfold eval_binary in Ee; inv_prog; apply IHl in Hm; apply IHr in Hm0.
    all: destruct v; try done; destruct v0; try done; inv_prog; congruence.
  - inv_prog. eapply list_outputs, Hm. eapply Forall_impl; [exact IHes|]. intros x' He i. apply He.
  - by inv_prog.
  - destruct f; try done. inv_prog. apply builtin_outputs in Hk. rewrite Hk. eapply list_outputs, Hm.
    eapply Forall_impl; [exact IHargs|]. intros x' He i. apply He.
  - destruct q; try done. by inv_prog.
  - destruct t as [| | | | |y| | |q n|]; try done; [inv_prog; by apply IHv in Hm|].
    destruct q; try done. inv_prog. apply IHv in Hm0. apply write_member_inv in Hm1 as (? & ? & _ & _ & _ & ->). done.
Qed.
End bytes.

Section statements.
Context {E C G : Type} `{FA : FoedusAPI E C} `{RG : Random G}.
Context (member : nid → option (TypeId.type_id * nat)) (tables : gmap cstr Schema).
Abbreviation exec_stmt := (exec_stmt member tables).

Definition bytes_only (σ : env E C G) : Prop := is_Some (emitted_rows (env_world σ)).

Lemma bytes_only_same (σ σ' : env E C G) :
  outputs_ (env_world σ') = outputs_ (env_world σ) → bytes_only σ → bytes_only σ'.
Proof. unfold bytes_only, emitted_rows. by intros ->. Qed.

Lemma emit_bytes v (σ σ' : env E C G) : emit_row v σ = Ok σ' → bytes_only σ → bytes_only σ'.
Proof.
  unfold emit_row, bytes_only, emitted_rows. intros Ee [rows Hr]. destruct v as [| | | |vs]; try done.
  inv_prog. exists (rows ++ [concat (bytes_of_i64 <$> r)]). simpl. apply mapM_Some. apply mapM_Some in Hr.
  apply Forall2_app; [done|]. repeat constructor. apply mapM_bytes.
Qed.

Lemma begin_outputs (w : World E C G) : outputs_ (begin_xct w).2 = outputs_ w.
Proof. unfold begin_xct. destruct (foedus_begin _) as [e []]; done. Qed.

Lemma precommit_outputs (w : World E C G) : outputs_ (precommit_xct w) = outputs_ w.
Proof. unfold precommit_xct. destruct (foedus_precommit _) as [e []]; done. Qed.

Lemma insert_outputs k v (w : World E C G) : outputs_ (foedus_insert k v w).2 = outputs_ w.
Proof. unfold foedus_insert. destruct (Runtime.insert_record _ _ _) as [e []]; done. Qed.

Lemma cursor_outputs f t n (w w' : World E C G) : foedus_generate_cursor f t w = (n, w') → outputs_ w' = outputs_ w.
Proof. unfold foedus_generate_cursor. destruct (cursor_open _ _ _) as [[e c] []]; intros [= _ <-]; done. Qed.

Lemma next_outputs n b (w w' : World E C G) : foedus_cursor_next n w = Ok (b, w') → outputs_ w' = outputs_ w.
Proof. unfold foedus_cursor_next. intros Hn. apply bind_Ok_inv in Hn as (c & _ & Hn). destruct (cursor_next _ _) as [[e c'] ok]. by injection Hn as _ <-. Qed.

Lemma destroy_outputs n (w w' : World E C G) : foedus_cursor_destroy n w = Ok w' → outputs_ w' = outputs_ w.
Proof. unfold foedus_cursor_destroy. intros Hn. apply bind_Ok_inv in Hn as (c & _ & [= <-]). done. Qed.

Lemma insert_bytes t v (σ σ' : env E C G) : insert_row tables t v σ = Ok σ' → bytes_only σ → bytes_only σ'.
Proof.
  unfold insert_row. intros Ei. apply bind_Ok_inv in Ei as (sch & _ & Ei). destruct v as [| | | |vs]; try done.
  apply bind_Ok_inv in Ei as (zs & _ & Ei). destruct (decide _); [|done]. injection Ei as <-.
  apply bytes_only_same. apply insert_outputs.
Qed.

Lemma scan_bytes sch x n body m : (∀ σ σ' : env E C G, body σ = Ok σ' → bytes_only σ → bytes_only σ') →
  ∀ σ σ', exec_scan sch x n body m σ = Ok σ' → bytes_only σ → bytes_only σ'.
Proof.
  intros Hb. induction m as [|m IH]; intros σ σ' Ee B; [done|]. cbn [exec_scan] in Ee.
  apply bind_Ok_inv in Ee as ([] & _ & Ee).
  - apply bind_Ok_inv in Ee as (k & _ & Ee). apply bind_Ok_inv in Ee as (v & _ & Ee).
    apply bind_Ok_inv in Ee as (zs & _ & Ee). apply bind_Ok_inv in Ee as (σ1 & He & Ee).
    apply bind_Ok_inv in Ee as ([r w] & Hn & Ee). eapply IH; [exact Ee|].
    eapply bytes_only_same; [by eapply next_outputs|]. by eapply Hb.
  - apply bind_Ok_inv in Ee as (w & Hd & [= <-]). eapply bytes_only_same, B. by eapply destroy_outputs.
Qed.

(** What a program emits is bytes. *)
Lemma exec_bytes fuel s : ∀ sp (σ σ' : env E C G), exec_stmt fuel s sp σ = Ok σ' → bytes_only σ → bytes_only σ'.
Proof.
  assert (Hblk : ∀ mk sp l i, Forall (λ s, ∀ sp (σ σ' : env E C G), exec_stmt fuel s sp σ = Ok σ' → bytes_only σ → bytes_only σ') l →
    ∀ σ σ', exec_statements (exec_stmt fuel) mk sp i l σ = Ok σ' → bytes_only σ → bytes_only σ').
  { intros mk sp l i Hl. revert i. induction Hl as [|s0 l Hs _ IH]; intros i σ σ' Ee B; cbn [exec_statements] in Ee.
    - by simplify_eq.
    - inv_prog. eapply IH; [done|]. by eapply Hs. }
  assert (Hexp : ∀ sp p e (σ : env E C G) v σ', eval_expr member sp p e σ = Ok (v, σ') → bytes_only σ → bytes_only σ').
  { intros sp p e σ v σ' Ee. apply bytes_only_same. by eapply expr_outputs. }
  induction s as [l Hl|i l Hl|d n|i c e l Hi Hl|t|e|t e|t r l Hl|n e t|n t|c t f Ht Hf|e]
    using Statement_rect'; intros sp σ σ' Ee B; cbn [Semantics.exec_stmt] in Ee; try done.
  - by eapply Hblk.
  - inv_prog. eapply bytes_only_same; [apply precommit_outputs|]. eapply Hblk; [exact Hl|done|].
    eapply bytes_only_same, B. apply begin_outputs.
  - by simplify_eq.
  - destruct i as [i|], c as [c|], e as [e|]; try done. inv_prog.
    assert (Hloop : ∀ m (σ1 σ2 : env E C G), exec_loop (eval_expr member sp [0] c) (eval_expr member sp [1] e)
      (exec_statements (exec_stmt fuel) In_body sp 0 l) m σ1 = Ok σ2 → bytes_only σ1 → bytes_only σ2).
    { induction m as [|m IH]; intros σ1 σ2 El B1; [done|]. cbn [exec_loop] in El. inv_prog.
      apply Hexp in Hm0; [|done]. destruct v as [| |[]| |]; try done; [|by simplify_eq]. inv_prog.
      eapply IH; [done|]. eapply Hexp; [done|]. by eapply Hblk. }
    eapply Hloop; [done|]. by eapply Hi.
  - inv_prog. eapply emit_bytes; [done|]. by eapply Hexp.
  - inv_prog. eapply insert_bytes; [done|]. by eapply Hexp.
  - apply bind_Ok_inv in Ee as (sch & _ & Ee). apply bind_Ok_inv in Ee as (e & _ & Ee).
    destruct (foedus_generate_cursor _ _ _) as [n w] eqn:Hg. eapply scan_bytes; [|exact Ee|].
    + intros σ1 σ2. by apply Hblk.
    + eapply bytes_only_same, B. by eapply cursor_outputs.
  - inv_prog. apply Hexp in Hm; [|done]. by eapply bytes_only_same, Hm.
  - by simplify_eq.
  - inv_prog. apply Hexp in Hm; [|done]. destruct r; [by eapply Hblk|]. destruct f as [f|]; [|by simplify_eq].
    by eapply Hblk; [apply Hf|..].
  - inv_prog. by eapply Hexp.
Qed.
End statements.

(** ** The whole *)

(** What analysis leaves for the program [l], and the tables it declares. *)
Abbreviation notes show_double l := (annotate show_double l ctx_new).
Abbreviation tables_of show_double l := (d_tables (decls_of (notes show_double l) l)).

Section whole.
Context `{L : LLVM} `{LT : !LLVMTyping} `{PL : !PrintLaws} `{T : Target} `{TL : !TargetLaws}
  `{LF : !LLVMFolds}.
Context {E C G : Type} `{FA : FoedusAPI E C} `{RG : Random G} `{RL : !RandomLaws G}.

Lemma compile_and_exec_ends show_double l created s' fuel (w : World E C G) σ :
  compile_new show_double l = Ok (created, s') → forallb supported l = true →
  well_declared (notes show_double l) l = true → small_structs (struct_types s') →
  exec_stmt (member_of (notes show_double l)) (tables_of show_double l) fuel (Block l) [] (env_new (set_outputs w [])) = Ok σ →
  rows_fit (env_world σ) →
  ∃ n rows, emitted_rows (env_world σ) = Some rows ∧
    compile_and_exec show_double n (Some l) w = Ok (print (env_world σ) (emitted_text rows)).
Proof.
  intros Ec Hs Hd Sm Ee Hf.
  destruct (compile_correct _ _ _ _ _ _ _ Ec Hs Hd Sm Ee) as (n & m & Hrun).
  destruct (exec_bytes _ _ _ _ _ _ _ Ee) as [rows Hrows]; [by exists []|].
  exists n, rows. split; [exact Hrows|]. exact (compile_and_exec_run _ _ _ _ _ _ _ _ _ _ Ec Hrun Hrows Hf).
Qed.

(** C1: what the user sees of a program is what the program means.  Whenever compilation succeeds
    and the reference semantics runs the program to its end, [compile_and_exec] ends, too: the
    compiled code prints, emits and does to the engine what the reference says (the records it
    inserts and the cursors it goes through included), and the rows emitted are printed after
    that.  For programs whose statements the reference covers and whose rows have elements without
    effects ([supported]), whose declarations do not get in each other's way ([well_declared]), whose
    structs have indices that fit the byte they are given as ([small_structs]), and which emit less
    than 2^31 rows, as many as the [int] that counts them can ([rows_fit]). *)
Theorem compile_and_exec_correct show_double l created s' fuel (w : World E C G) σ :
  compile_new show_double l = Ok (created, s') → forallb supported l = true →
  well_declared (notes show_double l) l = true → small_structs (struct_types s') →
  exec_stmt (member_of (notes show_double l)) (tables_of show_double l) fuel (Block l) [] (env_new (set_outputs w [])) = Ok σ →
  rows_fit (env_world σ) →
  ∃ n rows, emitted_rows (env_world σ) = Some rows ∧
    compile_and_exec show_double n (Some l) w = Ok (print (env_world σ) (emitted_text rows)).
Proof. exact (compile_and_exec_ends show_double l created s' fuel w σ). Qed.
End whole.

(** ** A program *)

(** [print_string("sum:") let s = 0 for let x = 1; x <= 3; x = x + 1 { ... } ...], parsed. *)
Definition sample_text : cstr :=
  lit "print_string(" ++ [ch 34] ++ lit "sum:" ++ [ch 34] ++
  lit ") let s = 0 for let x = 1; x <= 3; x = x + 1 { if (x == 2) && (s > 0) { emit {x, s * 2} } else { s = s + x + rand(5, 5) } } " ++
  lit "define<{int:id key, int:v}>t transaction { insert t {9, s} insert t {4, 1} } transaction { scan t, r { print_int(r.v) emit {r.id, r.v} } }".

Definition sample_program : list Statement :=
  match StmtParser.parse sample_text with Ok (l, _) => l | _ => [] end.

Definition no_doubles (z : Z) : cstr := [].

(** What was printed, and how many rows were emitted. *)
Definition prints_of {E C G : Type} (r : result (env E C G)) : option (list ascii * nat) :=
  match r with Ok σ => Some (stdout (env_world σ), length (outputs_ (env_world σ))) | _ => None end.

(** The sizes of the structs of a compiled program. *)
Definition structs_of (r : result (list (list ascii * list Attribute) * cstate)) : option (list nat) :=
  match r with Ok (_, s) => Some ((λ x, length x.2) <$> struct_types s) | _ => None end.

(** What a transaction that commits prints, around what its statements do. *)
Definition logged (inside : cstr) : cstr :=
  lit "FOEDUS transaction started " ++ endl ++ inside ++ lit "FOEDUS commit" ++ endl ++ lit "success." ++ endl.

Definition sample_printed : cstr :=
  lit "sum:" ++ logged [] ++ logged (lit "1" ++ endl ++ lit "14" ++ endl).

Lemma small_of_lengths (st : structs) ns :
  ((λ x, length x.2) <$> st) = ns → Forall (λ n, n ≤ 8) ns → small_structs st.
Proof.
  intros <- Hn. rewrite Forall_fmap in Hn. eapply Forall_impl; [exact Hn|]. intros x Hx. cbn in Hx. lia.
Qed.

Definition sample_shown : cstr := lit "emitted values: [2, 12]" ++ endl ++ lit "[4, 1]" ++ endl ++ lit "[9, 14]" ++ endl.

Definition sample_rows : list (list ascii) := row_bytes <$> [[2; 12]; [4; 1]; [9; 14]]%Z.

Definition rows_of {E C G : Type} (r : result (env E C G)) : option (list (list ascii)) :=
  match r with Ok σ => emitted_rows (env_world σ) | _ => None end.

Abbreviation sample_run :=
  (exec_stmt (member_of (notes no_doubles sample_program)) (tables_of no_doubles sample_program) 10 (Block sample_program) []
    (env_new (set_outputs world_new []))).

Lemma compile_and_exec_correct_witness :
  ∃ n w, compile_and_exec no_doubles n (Some sample_program) world_new = Ok w ∧
    stdout w = sample_printed ++ sample_shown.
Proof.
  assert (Hp : prints_of sample_run = Some (sample_printed, 3)) by (vm_compute; reflexivity).
  assert (Hr : rows_of sample_run = Some sample_rows) by (vm_compute; reflexivity).
  assert (Hs : structs_of (compile_new no_doubles sample_program) = Some [2; 2; 2]) by (vm_compute; reflexivity).
  assert (Hsup : forallb supported sample_program = true) by (vm_compute; reflexivity).
  assert (Hd : well_declared (notes no_doubles sample_program) sample_program = true) by (vm_compute; reflexivity).
  destruct (exec_stmt _ _ _ _ _ _) as [σ| | | |] eqn:Er; [|discriminate Hp..].
  destruct (compile_new no_doubles sample_program) as [[created s']| | | |] eqn:Ec; [|discriminate Hs..].
  injection Hp as Hout Hlen. injection Hs as Hs.
  assert (Hf : rows_fit (env_world σ)) by (unfold rows_fit; by rewrite Hlen).
  pose proof (compile_and_exec_correct no_doubles sample_program created s' 10 world_new σ Ec Hsup Hd
    (small_of_lengths _ [2; 2; 2] Hs ltac:(repeat constructor)) Er Hf) as (n & rows & Hrows & Hrun).
  exists n, (print (env_world σ) (emitted_text rows)). split; [exact Hrun|].
  change (emitted_rows (env_world σ) = Some sample_rows) in Hr.
  rewrite Hr in Hrows. injection Hrows as <-.
  change (stdout (env_world σ) ++ emitted_text sample_rows = sample_printed ++ sample_shown).
  rewrite Hout. reflexivity.
Defined.
