(* ===== verification/Checker.v ===== *)
(** * Checker: a type checker for what code generation accepts

    LLVM checks the types of the instructions it is asked for with assertions, and the code
    generator follows table entries without a look: a program that passes the semantic analysis can
    still end the compiler.  [checks] decides from the syntax tree, without running the code
    generator, that this does not happen.  It goes through a program in the order of the pass that
    reserves the stack and collects what that pass will have put into the tables of the context
    ([claims]); code generation is typed against these. *)

From Stdlib Require Import ZArith NArith Ascii String Lia.
From stdpp Require Import base option list strings gmap.
From S2P Require Import Prelude Value Attr Schema Ast Visit Analyze LLVM CodegenExpr Layout.
From S2P Require Import CodegenStmt Compile Declare.

(** ** Types *)

(** What the code of an expression computes.  A row literal has the struct of [n] integers that
    goes by its signature, the row variable of a scan the struct that goes by its name. *)
Inductive code_type :=
  | CInt64
  | CBit
  | CVoid
  | CString
  | CRow (n : nat)
  | CScanRow (x : cstr) (n : nat).

#[export] Instance code_type_eq_dec : EqDecision code_type.
Proof. solve_decision. Defined.

(** A condition; something a variable can hold; a struct; and the number of its elements. *)
Definition conditional (τ : code_type) : bool := match τ with CInt64 | CBit => true | _ => false end.
Definition storable (τ : code_type) : bool := match τ with CBit | CVoid => false | _ => true end.
Definition structural (τ : code_type) : bool :=
  match τ with CString | CRow _ | CScanRow _ _ => true | _ => false end.
Definition row_size (τ : code_type) : option nat :=
  match τ with CRow n | CScanRow _ n => Some n | _ => None end.

(** What is known to be in the tables: the types of variables, of nodes with stack space and of the
    rows of inserts and scans (with the bounds of a scan or without), the tables of the program and
    the row variables of its scans. *)
Record claims := mk_claims {
  c_vars : gmap cstr code_type;
  c_nodes : gmap nid code_type;
  c_slots : gmap (list pstep) (bool * code_type);
  c_tables : gmap cstr Schema;
  c_rows : gset cstr;
}.

Definition claims_none : claims := mk_claims ∅ ∅ ∅ ∅ ∅.

(** [C'] knows all that [C] knows, and no variable of [C] has become a row variable. *)
Record extends_claims (C C' : claims) : Prop := {
  e_vars : c_vars C ⊆ c_vars C';
  e_nodes : c_nodes C ⊆ c_nodes C';
  e_slots : c_slots C ⊆ c_slots C';
  e_tables : c_tables C ⊆ c_tables C';
  e_rows : c_rows C ⊆ c_rows C';
  e_fresh x : is_Some (c_vars C !! x) → x ∉ c_rows C → x ∉ c_rows C';
}.

#[export] Instance extends_claims_preorder : PreOrder extends_claims.
Proof.
  split; [by split|]. intros C1 C2 C3 [] []. split; try by etrans.
  intros x [τ Hx] Hr. apply e_fresh1; [|by apply e_fresh0; [exists τ|]]. exists τ. by eapply lookup_weaken.
Qed.

(** An entry that is new or repeats the one that is there. *)
Definition claim {K A : Type} `{Countable K, EqDecision A} (m : gmap K A) (k : K) (a : A) : option (gmap K A) :=
  match m !! k with
  | None => Some (<[k := a]> m)
  | Some b => if decide (a = b) then Some m else None
  end.

Definition claim_var (C : claims) (x : cstr) (τ : code_type) : option claims :=
  m ← claim (c_vars C) x τ; Some (mk_claims m (c_nodes C) (c_slots C) (c_tables C) (c_rows C)).
Definition claim_node (C : claims) (n : nid) (τ : code_type) : option claims :=
  m ← claim (c_nodes C) n τ; Some (mk_claims (c_vars C) m (c_slots C) (c_tables C) (c_rows C)).
Definition claim_table (C : claims) (t : cstr) (sch : Schema) : option claims :=
  m ← claim (c_tables C) t sch; Some (mk_claims (c_vars C) (c_nodes C) (c_slots C) m (c_rows C)).

(** The slots of an insert or a scan are reserved once. *)
Definition claim_slots (C : claims) (sp : list pstep) (bounds : bool) (τ : code_type) : option claims :=
  match c_slots C !! sp with
  | None => Some (mk_claims (c_vars C) (c_nodes C) (<[sp := (bounds, τ)]> (c_slots C)) (c_tables C) (c_rows C))
  | Some _ => None
  end.

(** The row variable of a scan has a name of its own. *)
Definition claim_row (C : claims) (r : cstr) (n : nat) : option claims :=
  if decide (c_vars C !! r = None ∧ r ∉ c_rows C ∧ row_name_ok r = true)
  then Some (mk_claims (<[r := CScanRow r n]> (c_vars C)) (c_nodes C) (c_slots C) (c_tables C) ({[r]} ∪ c_rows C))
  else None.

(** ** Expressions *)

Section expressions.
Context (member : nid → option (TypeId.type_id * nat)) (V : gmap cstr code_type).

Section elements.
Context (type_of : Expression → nat → option code_type).
Fixpoint element_code_types (i : nat) (es : list Expression) : option (list code_type) :=
  match es with
  | [] => Some []
  | e :: es => τ ← type_of e i; τs ← element_code_types (S i) es; Some (τ :: τs)
  end.
End elements.

Definition operator_type (l : code_type) (op : Op.operators) (r : code_type) : option code_type :=
  match op with
  | Op.NONE => None
  | Op.CONDITIONAL_AND | Op.CONDITIONAL_OR => if conditional l && conditional r then Some CBit else None
  | _ =>
      if decide (l = CInt64 ∧ r = CInt64) then Some (if is_arithmetic op then CInt64 else CBit) else None
  end.

(** The functions of the language. *)
Definition call_type (f : cstr) (args : list code_type) : option code_type :=
  if decide (f = lit "print_int" ∧ args = [CInt64]) then Some CVoid
  else if decide (f = lit "print_string" ∧ args = [CString]) then Some CVoid
  else if decide (f = lit "rand" ∧ args = [CInt64; CInt64]) then Some CInt64
  else None.

(** A member of a row: an integer, at the index the analysis found. *)
Definition member_type (n : nid) (x : cstr) : option code_type :=
  τ ← V !! x;
  size ← row_size τ;
  '(t, i) ← member n;
  if decide (t = TypeId.INTEGER ∧ i < size) then Some CInt64 else None.

Definition is_target (e : Expression) : bool :=
  match e with VariableReference _ | MemberReference _ _ => true | _ => false end.

Fixpoint type_code (sp : list pstep) (p : list nat) (e : Expression) : option code_type :=
  let child e i := type_code sp (p ++ [i]) e in
  match e with
  | PrimaryExpression v =>
      if exists_ v then
        if is_ok (as_int (mvalue v)) then Some CInt64
        else if is_ok (as_varchar (mvalue v)) then Some CString else None
      else None
  | BinaryExpression l op r => tl ← child l 0; tr ← child r 1; operator_type tl op tr
  | RowLiteral es =>
      τs ← element_code_types child 0 es;
      if decide (Forall (λ τ, τ = CInt64) τs) then Some (CRow (length es)) else None
  | VariableReference x => V !! x
  | FunctionCall (VariableReference f) args => τs ← element_code_types child 0 args; call_type f τs
  | MemberReference (VariableReference x) _ => member_type (sp, p) x
  | Assign t v =>
      tt ← child t 0; tv ← child v 1;
      if decide (is_target t = true ∧ tt = tv ∧ (tv = CInt64 ∨ tv = CString)) then Some tv else None
  | _ => None
  end.

(** A string passed to a function has stack space of its own. *)
Context (N : gmap nid code_type).

Section arguments.
Context (stacked : Expression → nat → bool).
Fixpoint stacked_elements (i : nat) (es : list Expression) : bool :=
  match es with [] => true | e :: es => stacked e i && stacked_elements (S i) es end.
End arguments.

Fixpoint stacked (sp : list pstep) (p : list nat) (e : Expression) : bool :=
  let child e i := stacked sp (p ++ [i]) e in
  match e with
  | BinaryExpression l _ r => child l 0 && child r 1
  | RowLiteral es => stacked_elements child 0 es
  | FunctionCall f args =>
      stacked_elements child 0 args &&
      match f with
      | VariableReference f =>
          if decide (f = lit "print_string") then bool_decide (N !! (sp, p ++ [0]) = Some CString) else true
      | _ => true
      end
  | Assign _ v => child v 1
  | _ => true
  end.
End expressions.

(** ** Statements *)

Section statements.
Context (ann : annotations).

Abbreviation type_code C := (type_code (member_of ann) (c_vars C)).
Abbreviation stacked C := (stacked (c_nodes C)).

(** A struct of [n] elements that 32-bit indices select. *)
Definition small_row (n : nat) : bool := (Z.of_nat n <=? 2 ^ 32)%Z.
Definition small_type (τ : code_type) : bool := match row_size τ with Some n => small_row n | None => true end.

(** An expression that is a child of the statement at [sp]. *)
Definition check_expr (C : claims) (sp : list pstep) (i : nat) (e : Expression) : option code_type :=
  τ ← type_code C sp [i] e;
  if decide (small_type τ = true ∧ stacked C sp [i] e = true) then Some τ else None.

(** The visitor of an expression statement. *)
Fixpoint claim_values (C : claims) (sp : list pstep) (v : list (list nat * Expression)) : option claims :=
  match v with
  | [] => Some C
  | (p, e) :: v =>
      τ ← type_code C sp p e;
      if small_type τ then
        C ← (if structural τ then claim_node C (sp, p) τ else Some C);
        claim_values C sp v
      else None
  end.

Definition check_statement_expr (C : claims) (sp : list pstep) (e : Expression) : option claims :=
  τ ← type_code C sp [0] e;
  if small_type τ then
    C ← (if structural τ then claim_node C (sp, []) τ else Some C);
    match each_value_at [0] e with
    | Ok v => C ← claim_values C sp v; _ ← check_expr C sp 0 e; Some C
    | _ => None
    end
  else None.

(** A variable has not the name of a row variable. *)
Definition check_let (C : claims) (sp : list pstep) (x : cstr) (e : Expression) : option claims :=
  τ ← check_expr C sp 0 e;
  if decide (storable τ = true ∧ x ∉ c_rows C) then claim_var C x τ else None.

Definition check_define (C : claims) (sp : list pstep) (d : option TupleDecl) (t : cstr) : option claims :=
  sch ← defined_schema ann sp d t; claim_table C t sch.

Definition check_emit (C : claims) (sp : list pstep) (e : Expression) : option claims :=
  τ ← check_expr C sp 0 e;
  _ ← row_size τ;
  claim_node C (sp, []) τ.

(** The lengths and columns the code of an insert of [n] elements or of a scan asks the schema for. *)
Definition fixed_lengths (sch : Schema) : bool :=
  fixed_key_length sch && fixed_value_length sch &&
  is_ok (get_fixed_key_length sch) && is_ok (get_fixed_value_length sch).
Definition insert_column_ok (sch : Schema) (i : nat) : bool :=
  is_ok (schema_is_key sch i) && is_ok (get_tuple_length sch i).
Definition scan_column_ok (sch : Schema) (i : nat) : bool := is_ok (schema_is_key sch i).

Definition check_insert (C : claims) (sp : list pstep) (t : cstr) (e : Expression) : option claims :=
  sch ← c_tables C !! t;
  τ ← check_expr C sp 0 e;
  n ← row_size τ;
  if fixed_lengths sch && forallb (insert_column_ok sch) (seq 0 n) then claim_slots C sp false τ else None.

Definition check_scan (C : claims) (sp : list pstep) (t r : cstr) : option claims :=
  sch ← c_tables C !! t;
  if fixed_lengths sch && is_ok (prefix_end (get_key_prefix sch)) && small_row (columns sch) &&
     forallb (λ a, is_integer (a_type a)) (attrs_ sch) && forallb (scan_column_ok sch) (seq 0 (columns sch))
  then C ← claim_row C r (columns sch); claim_slots C sp true (CScanRow r (columns sch))
  else None.

(** The initialisation of a [for], whose stack is reserved twice. *)
Definition check_init (C : claims) (sp : list pstep) (i : Statement) : option claims :=
  match i with
  | Let x e _ => C ← check_let C sp x e; check_let C sp x e
  | ExprStatement e => C ← check_statement_expr C sp e; check_statement_expr C sp e
  | _ => None
  end.

Section block.
Context (check : claims → Statement → list pstep → option claims) (mk : nat → pstep) (sp : list pstep).
Fixpoint check_block (i : nat) (l : list Statement) (C : claims) : option claims :=
  match l with
  | [] => Some C
  | s :: l => C ← check C s (sp ++ [mk i]); check_block (S i) l C
  end.
End block.

(** [loop] tells whether there is a loop around the statement. *)
Fixpoint checks (loop : bool) (C : claims) (s : Statement) (sp : list pstep) {struct s} : option claims :=
  let block loop := check_block (checks loop) In_body sp 0 in
  match s with
  | Block l | Transaction _ l => block loop l C
  | Define d t => check_define C sp d t
  | DefineTuple _ _ => Some C
  | For (Some i) (Some c) (Some e) l =>
      C ← check_init C (sp ++ [In_init]) i;
      τc ← check_expr C sp 0 c;
      τe ← check_expr C sp 1 e;
      if decide (τc = CBit ∧ is_row_literal e = false) then block true l C else None
  | For _ _ _ _ => None
  | Jump _ => if loop then Some C else None
  | Emit e => check_emit C sp e
  | Insert t e => check_insert C sp t e
  | Scan t r l => C ← check_scan C sp t r; block loop l C
  | Let x e _ => check_let C sp x e
  | If c t f =>
      τ ← check_expr C sp 0 c;
      if conditional τ then
        C ← block loop t C;
        match f with Some f => check_block (checks loop) In_else sp 0 f C | None => Some C end
      else None
  | ExprStatement e => check_statement_expr C sp e
  end.
End statements.

(** A program the analysis and the checker accept. *)
Definition accepted (show_double : Z → cstr) (l : list Statement) : bool :=
  is_ok (analyze_block show_double l ctx_new) &&
  bool_decide (is_Some (checks (annotate show_double l ctx_new) false claims_none (Block l) [])).
