(* ===== verification/Progress.v ===== *)
(** * Progress: code generation accepts what the checker accepts

    Total correctness of code generation, by weakest preconditions: [wp m Q s] says that the call
    [m] in the context [s] neither throws nor aborts nor follows a null pointer, and that [Q] holds
    of what it answers.  [knows C s] says that the tables of [s] hold what [C] claims.  The pass that
    reserves the stack takes a context that knows what the checker knew before a statement to one
    that knows what it knows after; in a context that knows all of it, every statement's code is
    generated. *)

From Stdlib Require Import ZArith NArith Ascii String Lia.
From stdpp Require Import base option list strings gmap.
From S2P Require Import Prelude Value Attr Schema Ast Visit Analyze LLVM CodegenExpr Layout.
From S2P Require Import CodegenStmt Compile Declare Typing CompileCorrect Checker.

(** ** Weakest preconditions *)

Definition wp {A : Type} (m : cg A) (Q : A → cstate → Prop) (s : cstate) : Prop :=
  match m s with Ok (a, s') => Q a s' | _ => False end.

Section wp.
Context {A B : Type}.

Lemma wp_Ok (m : cg A) Q s : wp m Q s ↔ ∃ a s', m s = Ok (a, s') ∧ Q a s'.
Proof.
  unfold wp. destruct (m s) as [[a s']| | | |]; split; try done; try naive_solver.
Qed.

Lemma wp_bind (m : cg A) (k : A → cg B) Q s : wp m (λ a, wp (k a) Q) s → wp (m ≫= k) Q s.
Proof. unfold wp, mbind, cg_bind. by destruct (m s) as [[]| | | |]. Qed.

Lemma wp_mono (m : cg A) (P Q : A → cstate → Prop) s : wp m P s → (∀ a s', P a s' → Q a s') → wp m Q s.
Proof. unfold wp. destruct (m s) as [[]| | | |]; auto. Qed.

Lemma wp_ret (a : A) (Q : A → cstate → Prop) s : Q a s → wp (mret a) Q s.
Proof. done. Qed.
Lemma wp_gets (f : cstate → A) (Q : A → cstate → Prop) s : Q (f s) s → wp (gets f) Q s.
Proof. done. Qed.
Lemma wp_lift (r : result A) a (Q : A → cstate → Prop) s : r = Ok a → Q a s → wp (cg_lift r) Q s.
Proof. by intros ->. Qed.
Lemma wp_not_null (o : option A) a (Q : A → cstate → Prop) s : o = Some a → Q a s → wp (not_null o) Q s.
Proof. by intros ->. Qed.
End wp.

Lemma wp_modify f (Q : unit → cstate → Prop) s : Q tt (f s) → wp (modify f) Q s.
Proof. done. Qed.
Lemma wp_assert b (Q : unit → cstate → Prop) s : b = true → Q tt s → wp (llvm_assert b) Q s.
Proof. by intros ->. Qed.

(** ** Calls that only append code *)

(** [s'] is [s] but for its code; there still is a block to insert into. *)
Record same (s s' : cstate) : Prop := {
  same_structs : struct_types s' = struct_types s;
  same_types : type_table_ s' = type_table_ s;
  same_tables : tables s' = tables s;
  same_loop : loop_ s' = loop_ s;
  same_block : is_Some (insert_block s) → is_Some (insert_block s');
}.

#[export] Instance same_preorder : PreOrder same.
Proof. split; [by split|]. intros s1 s2 s3 [] []. split; try congruence; auto. Qed.

Abbreviation open s := (is_Some (insert_block s)).

Section builder.
Context `{L : LLVM} `{LT : !LLVMTyping}.
Implicit Types (Q : lvalue → cstate → Prop).

(** Each rule: the builder's call succeeds, its value has the expected type. *)

Lemma wp_insert i Q s :
  open s → (∀ v s', same s s' → type_of v = instr_type i → Q v s') → wp (insert_instr i) Q s.
Proof.
  intros [b Hb] HQ. unfold wp, insert_instr. rewrite Hb. apply HQ; [|done]. by split.
Qed.

Lemma wp_folded i Q s :
  open s → (∀ v s', same s s' → type_of v = instr_type i → Q v s') → wp (insert_folded i) Q s.
Proof.
  intros Ho HQ. unfold insert_folded. destruct (fold i) as [v|] eqn:Hf; [|by apply wp_insert].
  apply wp_ret, HQ; [done|]. by apply fold_type.
Qed.

Lemma wp_block name (Q : nat → cstate → Prop) s : (∀ b s', same s s' → Q b s') → wp (create_block name) Q s.
Proof. intros HQ. by apply HQ. Qed.

Lemma wp_insert_point b (Q : unit → cstate → Prop) s :
  (∀ s', same s s' → open s' → Q tt s') → wp (SetInsertPoint b) Q s.
Proof. intros HQ. apply HQ; [by split|by exists b]. Qed.

Lemma wp_get_block (Q : nat → cstate → Prop) s : open s → (∀ b, Q b s) → wp GetInsertBlock Q s.
Proof. intros [b Hb] HQ. apply wp_bind, wp_gets. by eapply wp_not_null. Qed.

Lemma wp_alloca t Q s :
  open s → t ≠ TVoid → (∀ v s', same s s' → type_of v = TPtr t → Q v s') → wp (CreateAlloca t) Q s.
Proof.
  intros Ho Ht HQ. unfold CreateAlloca. apply wp_bind, wp_assert; [by destruct t|]. by apply wp_insert.
Qed.

Lemma wp_load p t Q s :
  open s → type_of p = TPtr t → (∀ v s', same s s' → type_of v = t → Q v s') → wp (CreateLoad p) Q s.
Proof.
  intros Ho Hp HQ. unfold CreateLoad. apply wp_bind, wp_assert; [by rewrite Hp|]. apply wp_insert; [done|].
  intros v s' Hs Hv. apply HQ; [done|]. simpl in Hv. by rewrite Hp in Hv.
Qed.

Lemma wp_store v p (Q : unit → cstate → Prop) s :
  open s → type_of p = TPtr (type_of v) → (∀ s', same s s' → Q tt s') → wp (CreateStore v p) Q s.
Proof.
  intros Ho Hp HQ. unfold CreateStore. apply wp_bind, wp_assert; [by apply bool_decide_eq_true|].
  apply wp_bind, wp_insert; [done|]. intros w s' Hs _. by apply wp_ret, HQ.
Qed.

Lemma wp_bin op a b Q s :
  open s → type_of a = i64 → type_of b = i64 → (∀ v s', same s s' → type_of v = i64 → Q v s') →
  wp (CreateBin op a b) Q s.
Proof.
  intros Ho Ha Hb HQ. unfold CreateBin. apply wp_bind, wp_assert; [by rewrite Ha, Hb, bool_decide_true|].
  apply wp_folded; [done|]. intros v s' Hs Hv. apply HQ; [done|]. simpl in Hv. by rewrite Ha in Hv.
Qed.

Lemma wp_icmp op a b Q s :
  open s → isIntegerTy (type_of a) = true → type_of a = type_of b →
  (∀ v s', same s s' → type_of v = i1 → Q v s') → wp (CreateICmp op a b) Q s.
Proof.
  intros Ho Ha Hb HQ. unfold CreateICmp. apply wp_bind, wp_assert; [by rewrite Ha, bool_decide_true|].
  by apply wp_folded.
Qed.

Lemma wp_insert_value agg v i t Q s :
  open s → element_type (struct_types s) (type_of agg) i = Some (type_of v) → type_of agg = t →
  (∀ w s', same s s' → type_of w = t → Q w s') → wp (CreateInsertValue agg v i) Q s.
Proof.
  intros Ho He <- HQ. unfold CreateInsertValue. apply wp_bind, wp_gets, wp_bind, wp_assert; [by apply bool_decide_eq_true|].
  by apply wp_folded.
Qed.

Lemma wp_gep p x idx t Q s :
  open s → isPointerTy (type_of p) = true → indexed_type (struct_types s) (pointee (type_of p)) idx = Some t →
  (∀ v s', same s s' → type_of v = TPtr t → Q v s') → wp (CreateInBoundsGEP p (x :: idx)) Q s.
Proof.
  intros Ho Hp Hi HQ. unfold CreateInBoundsGEP. apply wp_bind, wp_gets, wp_bind, wp_assert; [done|].
  rewrite Hi. by apply wp_folded.
Qed.

Lemma wp_bitcast v t Q s :
  open s → isPointerTy (type_of v) = true → isPointerTy t = true →
  (∀ w s', same s s' → type_of w = t → Q w s') → wp (CreateBitCast v t) Q s.
Proof.
  intros Ho Hv Ht HQ. unfold CreateBitCast. case_decide; [by apply wp_ret, HQ|].
  apply wp_bind, wp_assert; [by rewrite Hv|]. by apply wp_folded.
Qed.

Lemma wp_memcpy dst src len (Q : unit → cstate → Prop) s :
  open s → isPointerTy (type_of dst) = true → isPointerTy (type_of src) = true →
  (∀ s', same s s' → Q tt s') → wp (CreateMemCpy dst src len) Q s.
Proof.
  intros Ho Hd Hs HQ. unfold CreateMemCpy.
  apply wp_bind, wp_bitcast; [done..|intros d s1 S1 _].
  apply wp_bind, wp_bitcast; [by apply S1|done..|intros w s2 S2 _].
  apply wp_bind, wp_insert; [by apply S2, S1|intros u s3 S3 _]. apply wp_ret, HQ. by do 2 (etrans; [done|]).
Qed.

Lemma wp_call f args Q s :
  open s → type_of <$> args = param_types f → (∀ v s', same s s' → type_of v = ret_type f → Q v s') →
  wp (CreateCall f args) Q s.
Proof.
  intros Ho Ha HQ. unfold CreateCall. apply wp_bind, wp_assert; [by apply bool_decide_eq_true|]. by apply wp_insert.
Qed.

Lemma wp_phi a x b y Q s :
  open s → type_of a = i1 → type_of b = i1 → (∀ v s', same s s' → type_of v = i1 → Q v s') →
  wp (CreatePHI i1 [(a, x); (b, y)]) Q s.
Proof.
  intros Ho Ha Hb HQ. unfold CreatePHI. apply wp_bind, wp_assert; [cbn; by rewrite Ha, Hb|]. by apply wp_insert.
Qed.

Lemma wp_br b (Q : unit → cstate → Prop) s : open s → (∀ s', same s s' → Q tt s') → wp (CreateBr b) Q s.
Proof. intros Ho HQ. apply wp_bind, wp_insert; [done|]. intros v s' Hs _. by apply wp_ret, HQ. Qed.

Lemma wp_condbr c t f (Q : unit → cstate → Prop) s :
  open s → type_of c = i1 → (∀ s', same s s' → Q tt s') → wp (CreateCondBr c t f) Q s.
Proof.
  intros Ho Hc HQ. unfold CreateCondBr. apply wp_bind, wp_assert; [by apply bool_decide_eq_true|].
  apply wp_bind, wp_insert; [done|]. intros v s' Hs _. by apply wp_ret, HQ.
Qed.

Lemma wp_to_i1 v Q s :
  open s → type_of v = i1 ∨ type_of v = i64 → (∀ w s', same s s' → type_of w = i1 → Q w s') → wp (to_i1 v) Q s.
Proof.
  intros Ho Hv HQ. unfold to_i1. case_decide as Hd; [by apply wp_ret, HQ|]. destruct Hv as [Hv|Hv]; [done|].
  apply wp_icmp; [done|by rewrite Hv|by rewrite Hv|done].
Qed.
End builder.

(** ** What a context knows *)

Section knows.
Context `{L : LLVM}.

(** The name of the struct of [n] integers. *)
Definition row_sign (n : nat) : cstr := signature [] (replicate n i64).

(** The type [get_type] answers with. *)
Definition type_at (s : cstate) (τ : code_type) : option ltype :=
  match τ with
  | CInt64 | CBit => Some i64
  | CVoid => Some TVoid
  | CString => type_table_ s !! lit "string"
  | CRow n => type_table_ s !! row_sign n
  | CScanRow x _ => type_table_ s !! x
  end.

Definition typed (s : cstate) (τ : code_type) (t : ltype) : Prop :=
  type_at s τ = Some t ∧
  match row_size τ with
  | Some n => ∃ k name, t = TStruct k ∧ struct_types s !! k = Some (name, replicate n i64)
  | None => τ = CString → t = TStruct 0
  end.

(** The address of something of this type. *)
Definition slot_of (s : cstate) (τ : code_type) (v : lvalue) : Prop := ∃ t, typed s τ t ∧ type_of v = TPtr t.

Record slots_typed (s : cstate) (bounds : bool) (τ : code_type) (sl : Slots) : Prop := {
  sl_prefix : type_of (prefix_ sl) = i8ptr;
  sl_end : bounds = true → ∃ e, prefix_end_ sl = Some e ∧ type_of e = i8ptr;
  sl_key : ∃ n, type_of (key_stack_ sl) = TPtr (TArray i8 n);
  sl_value : ∃ n, type_of (value_stack_ sl) = TPtr (TArray i8 n);
  sl_tuple : slot_of s τ (tuple_stack_ sl);
}.

(** The types of a context: the struct of each row literal is the one found under its signature;
    other names are those of row variables. *)
Record known_types (rows : gset cstr) (s : cstate) : Prop := {
  k_string : type_table_ s !! lit "string" = Some (TStruct 0);
  k_signs n : match type_table_ s !! row_sign n with
              | Some t => find_struct (struct_types s) (row_sign n) = Some t ∧
                          ∃ k, t = TStruct k ∧ struct_types s !! k = Some (row_sign n, replicate n i64)
              | None => find_struct (struct_types s) (row_sign n) = None
              end;
  k_names x : is_Some (type_table_ s !! x) → x = lit "string" ∨ first_brace x ∨ x ∈ rows;
  k_small : small_structs (struct_types s);
}.

Record knows (C : claims) (s : cstate) : Prop := {
  k_open : open s;
  k_types : known_types (c_rows C) s;
  k_functions : functions_table_ s = ready_functions;
  k_vars x τ : c_vars C !! x = Some τ →
    storable τ = true ∧ ∃ v, variable_table_ s !! x = Some v ∧ slot_of s τ v;
  k_nodes n τ : c_nodes C !! n = Some τ → ∃ v, stack_table_ s !! n = Some v ∧ slot_of s τ v;
  k_slots sp : match c_slots C !! sp with
               | Some (bounds, τ) => ∃ sl, slots_table s !! sp = Some sl ∧ slots_typed s bounds τ sl
               | None => slots_table s !! sp = None
               end;
  k_tables t sch : c_tables C !! t = Some sch → local_schema_table_ s !! t = Some sch;
  k_globals p v : global_variable_table_ s !! p = Some v → type_of v = i8ptr;
}.

(** More types in the context. *)
Definition grown (s s' : cstate) : Prop :=
  struct_types s `prefix_of` struct_types s' ∧ type_table_ s ⊆ type_table_ s'.

Lemma grown_same s s' : struct_types s' = struct_types s → type_table_ s' = type_table_ s → grown s s'.
Proof. intros Hs Ht. split; by rewrite ?Hs, ?Ht. Qed.

Lemma typed_grown s s' τ t : grown s s' → typed s τ t → typed s' τ t.
Proof.
  intros [Hp Ht] [H1 H2]. split.
  - destruct τ; simpl in *; try done; by eapply lookup_weaken.
  - destruct (row_size τ); [|done]. destruct H2 as (k & nm & -> & Hk). exists k, nm.
    split; [done|]. by eapply prefix_lookup_Some.
Qed.

Lemma slot_grown s s' τ v : grown s s' → slot_of s τ v → slot_of s' τ v.
Proof. intros Hg (t & Ht & Hv). exists t. split; [by eapply typed_grown|done]. Qed.

Lemma slots_grown s s' b τ sl : grown s s' → slots_typed s b τ sl → slots_typed s' b τ sl.
Proof. intros Hg []. split; auto. by eapply slot_grown. Qed.

(** Only the types change. *)
Definition with_rows (C : claims) (rows : gset cstr) : claims :=
  mk_claims (c_vars C) (c_nodes C) (c_slots C) (c_tables C) rows.

Lemma knows_grown C rows s s' :
  grown s s' → tables s' = tables s → (open s → open s') → known_types rows s' →
  knows C s → knows (with_rows C rows) s'.
Proof.
  unfold tables. intros Hg Ht Ho Hk []. injection Ht as Hf Hv Hs Hl Hgl Hsc.
  split; simpl; rewrite ?Hf, ?Hv, ?Hs, ?Hl, ?Hgl, ?Hsc; auto.
  - intros x τ Hx. destruct (k_vars0 _ _ Hx) as (? & v & ? & ?). split; [done|]. exists v.
    split; [done|by eapply slot_grown].
  - intros n τ Hn. destruct (k_nodes0 _ _ Hn) as (v & ? & ?). exists v. split; [done|by eapply slot_grown].
  - intros sp. specialize (k_slots0 sp). destruct (c_slots C !! sp) as [[b τ]|]; [|done].
    destruct k_slots0 as (sl & ? & ?). exists sl. split; [done|by eapply slots_grown].
Qed.

Lemma knows_kept C s s' :
  grown s s' → tables s' = tables s → (open s → open s') → known_types (c_rows C) s' → knows C s → knows C s'.
Proof. intros Hg Ht Ho Hk K. pose proof (knows_grown C _ s s' Hg Ht Ho Hk K) as K'. by destruct C. Qed.

Lemma known_types_same rows s s' :
  struct_types s' = struct_types s → type_table_ s' = type_table_ s → known_types rows s → known_types rows s'.
Proof. intros Hs Ht []. split; rewrite ?Hs, ?Ht; auto. Qed.

Lemma knows_same C s s' : same s s' → knows C s → knows C s'.
Proof.
  intros [] K. eapply knows_kept; [by apply grown_same|done|done|by eapply known_types_same, K|done].
Qed.

Lemma typed_same s s' τ t : same s s' → typed s τ t → typed s' τ t.
Proof. intros []. by apply typed_grown, grown_same. Qed.
End knows.

(** *** Types of expressions *)

Section types.
Context `{L : LLVM} `{PL : !PrintLaws} (member : nid → option (TypeId.type_id * nat)).

Lemma print_i64 ss : print_type ss i64 = print_type [] i64.
Proof. apply print_stable; [apply prefix_nil|done]. Qed.

(** The struct of a row literal is there. *)
Definition row_ready (s : cstate) (e : Expression) : Prop :=
  match e with RowLiteral es => is_Some (type_table_ s !! row_sign (length es)) | _ => True end.

(** [get_type] answers without adding a type. *)
Definition answers (s : cstate) (m : cg ltype) (τ : code_type) : Prop := ∃ t, m s = Ok (t, s) ∧ typed s τ t.

Lemma ints_elements (get_type : Expression → nat → cg ltype) f s i es τs :
  Forall (λ e, ∀ i, f e i = Some CInt64 → get_type e i s = Ok (i64, s)) es →
  element_code_types f i es = Some τs → Forall (λ τ, τ = CInt64) τs →
  element_types get_type i es s = Ok (replicate (length es) i64, s) ∧
  signature_loop get_type i es s = Ok (concat ((λ t, print_type [] t ++ lit ",") <$> replicate (length es) i64), s).
Proof using PL.
  intros He. revert i τs. induction He as [|e es He _ IH]; intros i τs Hc Hi; [done|].
  cbn [element_code_types] in Hc. apply bind_Some in Hc as (τ & Hτ & Hc). apply bind_Some in Hc as (τs' & Hc & [= <-]).
  apply Forall_cons in Hi as [-> Hi]. destruct (IH _ _ Hc Hi) as [H1 H2].
  cbn [element_types signature_loop length replicate].
  rewrite !(cg_bind_run _ _ _ _ _ (He _ Hτ)), (cg_bind_run _ _ _ _ _ H1), gets_run, (cg_bind_run _ _ _ _ _ H2).
  split; [done|]. cbn [fmap list_fmap concat mret cg_ret]. by rewrite print_i64, <- app_assoc.
Qed.

Lemma ints_signature (get_type : Expression → nat → cg ltype) f s es τs :
  Forall (λ e, ∀ i, f e i = Some CInt64 → get_type e i s = Ok (i64, s)) es →
  element_code_types f 0 es = Some τs → Forall (λ τ, τ = CInt64) τs →
  get_type_signature get_type es s = Ok (row_sign (length es), s).
Proof using PL.
  intros He Hc Hi. unfold get_type_signature. destruct (ints_elements _ _ _ _ _ _ He Hc Hi) as [_ H].
  by rewrite (cg_bind_run _ _ _ _ _ H).
Qed.

Context (C : claims) (s : cstate) (K : knows C s).
Abbreviation type_code := (type_code member (c_vars C)).

Lemma literal_kind v τ sp p :
  type_code sp p (PrimaryExpression v) = Some τ →
  exists_ v = true ∧
  ((is_int (mvalue v) = true ∧ (∃ z, as_int (mvalue v) = Ok z) ∧ τ = CInt64) ∨
   (is_int (mvalue v) = false ∧ is_varchar (mvalue v) = true ∧ (∃ z, as_varchar (mvalue v) = Ok z) ∧ τ = CString)).
Proof using Type.
  cbn [Checker.type_code]. destruct (exists_ v); [|done]. intros H. split; [done|].
  unfold as_int, as_varchar, is_int, is_varchar in *.
  destruct (bool_decide_reflect (type_ (mvalue v) = V_INT)) as [Hi|Hi]; simpl in H.
  - left. destruct (get_int (value_ (mvalue v))); simpl in H; try done; try (injection H as <-; by eauto).
    all: rewrite bool_decide_false in H by (by rewrite Hi); done.
  - right. destruct (bool_decide_reflect (type_ (mvalue v) = V_VARCHAR)); simpl in H; [|done].
    destruct (get_string (value_ (mvalue v))); simpl in H; try done. injection H as <-. by eauto 6.
Qed.

Lemma call_kind f τs τ :
  call_type f τs = Some τ →
  (f = lit "print_int" ∧ τs = [CInt64] ∧ τ = CVoid) ∨ (f = lit "print_string" ∧ τs = [CString] ∧ τ = CVoid) ∨
  (f = lit "rand" ∧ τs = [CInt64; CInt64] ∧ τ = CInt64).
Proof using Type. unfold call_type. repeat case_decide; intros [= <-]; naive_solver. Qed.

(** What [find_function] answers for the functions of the language. *)
Lemma ready_function f τs τ :
  call_type f τs = Some τ → ∃ fn, functions_table_ s !! f = Some fn ∧ ret_type fn = (if τ is CVoid then TVoid else i64) ∧
    param_types fn = (λ τ, if τ is CString then TPtr (TStruct 0) else i64) <$> τs.
Proof using K.
  rewrite (k_functions _ _ K).
  intros [(-> & -> & ->)|[(-> & -> & ->)|(-> & -> & ->)]]%call_kind; (eexists; split; [vm_compute; reflexivity|done]).
Qed.

Lemma typed_literal_int τ : conditional τ = true → typed s τ i64.
Proof using Type. by destruct τ. Qed.

Lemma typed_conditional τ t : conditional τ = true → typed s τ t → t = i64.
Proof using Type. intros Hτ [H _]. destruct τ; simpl in *; simplify_eq; done. Qed.

Lemma typed_string t : typed s CString t → t = TStruct 0.
Proof using Type. intros [_ H]. by apply H. Qed.

Lemma string_typed : typed s CString (TStruct 0).
Proof using K. split; [apply (k_types _ _ K)|done]. Qed.

(** Only a row literal has to be made first. *)
Lemma ready_other e sp p τ :
  type_code sp p e = Some τ → (∀ n, τ ≠ CRow n) → row_ready s e.
Proof using Type.
  destruct e; try done. cbn [Checker.type_code]. intros (τs & _ & H)%bind_Some Hn. case_decide; [|done].
  injection H as <-. by destruct (Hn (length elements_)).
Qed.

Lemma operands op tl tr τ : operator_type tl op tr = Some τ →
  conditional tl = true ∧ conditional tr = true ∧ conditional τ = true.
Proof using Type.
  unfold operator_type. destruct op; try done; try (case_decide as Hd; [destruct Hd as [-> ->]|done]; by intros [= <-]).
  all: destruct (conditional tl), (conditional tr); try done; by intros [= <-].
Qed.

Lemma member_known n x τ : member_type member (c_vars C) n x = Some τ →
  τ = CInt64 ∧ ∃ i v k name size, member n = Some (TypeId.INTEGER, i) ∧ i < size ∧ variable_table_ s !! x = Some v ∧
    type_of v = TPtr (TStruct k) ∧ struct_types s !! k = Some (name, replicate size i64).
Proof using K.
  unfold member_type. intros (σ & Hx & H)%bind_Some. apply bind_Some in H as (size & Hs & H).
  apply bind_Some in H as ([t i] & Hm & H). case_decide as Hd; [|done]. destruct Hd as [-> Hi]. injection H as <-.
  split; [done|]. destruct (k_vars _ _ K _ _ Hx) as (_ & v & Hv & t & [_ Ht] & Hp). rewrite Hs in Ht.
  destruct Ht as (k & nm & -> & Hk). by exists i, v, k, nm, size.
Qed.

(** Asking for the type of an expression that passes: an answer, and nothing changes, unless it is a
    row literal whose struct does not exist yet. *)
Lemma type_answers e : ∀ sp p τ, type_code sp p e = Some τ → row_ready s e → answers s (get_type member sp p e) τ.
Proof using K PL.
  assert (Hsub : ∀ e sp p τ, (∀ sp p τ, type_code sp p e = Some τ → row_ready s e → answers s (get_type member sp p e) τ) →
    type_code sp p e = Some τ → conditional τ = true → get_type member sp p e s = Ok (i64, s)).
  { intros e' sp p τ He Hτ Hc. destruct (He _ _ _ Hτ) as (t & -> & Ht).
    - eapply ready_other; [done|]. by intros n ->.
    - by rewrite (typed_conditional _ _ Hc Ht). }
  induction e as [v|l op r IHl IHr|t IHt|es IHes|es IHes|n|f args _ IHargs|q i IHq _|q n _|t v _ IHv]
    using Expression_rect'; intros sp p τ Hτ Hr; try done; cbn [get_type]; unfold answers.
  - apply literal_kind in Hτ as (He & [(Hi & _ & ->)|(Hi & Hv & _ & ->)]); unfold get_type_primary;
      rewrite He, Hi, ?Hv; [by exists i64|]. exists (TStruct 0). split; [|apply string_typed].
    unfold string_type. rewrite gets_run, (k_string _ _ (k_types _ _ K)). done.
  - cbn [Checker.type_code] in Hτ. apply bind_Some in Hτ as (tl & Hl & Hτ). apply bind_Some in Hτ as (tr & Hr' & Hop).
    destruct (operands _ _ _ _ Hop) as (Cl & Cr & Cτ). unfold get_type_binary. cbv beta.
    rewrite (cg_bind_run _ _ _ _ _ (Hsub _ _ _ _ IHr Hr' Cr)), (cg_bind_run _ _ _ _ _ (Hsub _ _ _ _ IHl Hl Cl)).
    rewrite decide_False by (by intros []). exists i64. split; [by eapply Hsub|by apply typed_literal_int].
  - cbn [Checker.type_code] in Hτ. apply bind_Some in Hτ as (τs & Hts & Hτ). case_decide as Hd; [|done]. injection Hτ as <-.
    simpl in Hr. destruct Hr as [t Ht]. unfold get_type_row.
    assert (Hes : Forall (λ e, ∀ i, type_code sp (p ++ [i]) e = Some CInt64 → get_type member sp (p ++ [i]) e s = Ok (i64, s)) es).
    { eapply Forall_impl; [exact IHes|]. intros e He i Hi. by eapply Hsub. }
    rewrite (cg_bind_run _ _ _ _ _ (ints_signature _ _ _ _ _ Hes Hts Hd)).
    rewrite gets_run, Ht. exists t. split; [done|]. split; [done|]. simpl.
    pose proof (k_signs _ _ (k_types _ _ K) (length es)) as Hk. rewrite Ht in Hk. destruct Hk as (_ & k & -> & Hk). eauto.
  - cbn [Checker.type_code] in Hτ. destruct (k_vars _ _ K _ _ Hτ) as (_ & v & Hv & t & Ht & Hp). exists t. split; [|done].
    unfold get_type_variable. rewrite gets_run, Hv, Hp. done.
  - destruct f as [| | | | |f| | | |]; try done. cbn [Checker.type_code] in Hτ. apply bind_Some in Hτ as (τs & _ & Hc).
    destruct (ready_function _ _ _ Hc) as (fn & Hf & Hret & _). unfold get_type_call. cbn [callee_name].
    unfold find_function. rewrite (cg_bind_run (mret f) _ s f s eq_refl). unfold mbind at 1, cg_bind at 1. rewrite gets_run, Hf.
    simpl. rewrite Hret. apply call_kind in Hc as [(_ & _ & ->)|[(_ & _ & ->)|(_ & _ & ->)]]; by eexists.
  - destruct q as [| | | | |x| | | |]; try done. cbn [Checker.type_code] in Hτ.
    apply member_known in Hτ as (-> & i & _ & _ & _ & _ & Hm & _). unfold get_type_member. rewrite Hm. by exists i64.
  - cbn [Checker.type_code] in Hτ. apply bind_Some in Hτ as (tt' & _ & Hτ). apply bind_Some in Hτ as (tv & Hv & Hτ).
    case_decide as Hd; [|done]. injection Hτ as <-. apply IHv; [done|]. eapply ready_other; [done|].
    destruct Hd as (_ & _ & [-> | ->]); done.
Qed.
End types.

(** ** New types *)

Lemma find_struct_app (ss : structs) n ts x :
  find_struct (ss ++ [(n, ts)]) x =
  match find_struct ss x with
  | Some t => Some t
  | None => if decide (n = x) then Some (TStruct (length ss)) else None
  end.
Proof.
  unfold find_struct. destruct (list_find (λ '(m, _), m = x) ss) as [[i [m us]]|] eqn:E.
  - by rewrite (list_find_app_l _ _ _ _ _ E).
  - rewrite (list_find_app_r _ _ _ E). simpl. by repeat case_decide.
Qed.

Section new_types.
Context `{L : LLVM} `{PL : !PrintLaws}.

Lemma row_sign_inj n m : row_sign n = row_sign m → n = m.
Proof using PL.
  unfold row_sign. intros H%signature_inj. apply (f_equal length) in H. by rewrite !length_replicate in H.
Qed.

Lemma row_sign_brace n : first_brace (row_sign n).
Proof. done. Qed.

(** A context with one more struct, under its name. *)
Definition with_struct (s : cstate) (x : cstr) (ts : list ltype) : cstate :=
  set_types s (struct_types s ++ [(x, ts)]) (<[x := TStruct (length (struct_types s))]> (type_table_ s)).

Lemma with_struct_grown s x ts : type_table_ s !! x = None → grown s (with_struct s x ts).
Proof. intros Hx. split; simpl; [by exists [(x, ts)]|by apply insert_subseteq]. Qed.

Lemma with_struct_small s x n :
  small_row n = true → small_structs (struct_types s) → small_structs (struct_types (with_struct s x (replicate n i64))).
Proof.
  unfold small_row. intros Hn Hs. apply Forall_app. split; [done|]. repeat constructor. simpl. rewrite length_replicate. lia.
Qed.

(** The struct of a row literal. *)
Lemma known_row rows s n :
  known_types rows s → type_table_ s !! row_sign n = None → small_row n = true →
  known_types rows (with_struct s (row_sign n) (replicate n i64)).
Proof using PL.
  intros K Hn Hs. split; simpl.
  - rewrite lookup_insert_ne by done. apply K.
  - intros m. rewrite find_struct_app. pose proof (k_signs _ _ K m) as Hm. destruct (decide (n = m)) as [<-|Hne].
    + rewrite lookup_insert_eq. rewrite Hn in Hm. rewrite Hm, decide_True by done. split; [done|].
      eexists. split; [done|]. by rewrite list_lookup_middle.
    + rewrite lookup_insert_ne by (by intros ?%row_sign_inj). destruct (type_table_ s !! row_sign m) as [t|].
      * destruct Hm as (-> & k & -> & Hk). split; [done|]. eexists. split; [done|]. by apply lookup_app_l_Some.
      * rewrite Hm, decide_False; [done|]. by intros ?%row_sign_inj.
  - intros x [t Hx]. destruct (decide (x = row_sign n)) as [->|Hne]; [by right; left|].
    rewrite lookup_insert_ne in Hx by done. apply (k_names _ _ K). by exists t.
  - apply with_struct_small; [done|apply K].
Qed.

(** The struct of a row variable. *)
Lemma known_scan_row rows s r n :
  known_types rows s → r ∉ rows → row_name_ok r = true → small_row n = true →
  type_table_ s !! r = None ∧ known_types ({[r]} ∪ rows) (with_struct s r (replicate n i64)).
Proof.
  intros K Hr [Hb Hstr]%andb_prop Hs. apply bool_decide_eq_true in Hb, Hstr.
  assert (Hsign : ∀ m, r ≠ row_sign m) by (intros m ->; by apply Hb).
  assert (Hn : type_table_ s !! r = None).
  { apply eq_None_not_Some. intros [?|[?|?]]%(k_names _ _ K); done. }
  split; [done|]. split; simpl.
  - rewrite lookup_insert_ne by done. apply K.
  - intros m. rewrite lookup_insert_ne by done. rewrite find_struct_app. pose proof (k_signs _ _ K m) as Hm.
    destruct (type_table_ s !! row_sign m) as [t|].
    + destruct Hm as (-> & k & -> & Hk). split; [done|]. eexists. split; [done|]. by apply lookup_app_l_Some.
    + by rewrite Hm, decide_False.
  - intros x [t Hx]. destruct (decide (x = r)) as [->|Hne]; [right; right; set_solver|].
    rewrite lookup_insert_ne in Hx by done. destruct (k_names _ _ K x) as [?|[?|?]]; [by exists t|by left|by right; left|].
    right; right; set_solver.
  - apply with_struct_small; [done|apply K].
Qed.

Context (member : nid → option (TypeId.type_id * nat)).

(** Elements that are integers are asked for their type without a change. *)
Lemma ints_known C s sp p es : knows C s →
  Forall (λ e, ∀ i, type_code member (c_vars C) sp (p ++ [i]) e = Some CInt64 →
    get_type member sp (p ++ [i]) e s = Ok (i64, s)) es.
Proof using PL.
  intros K. apply Forall_true. intros e i Hi.
  destruct (type_answers member C s K e _ _ _ Hi) as (t & -> & Ht); [by eapply ready_other|].
  by rewrite (typed_conditional _ CInt64 _ eq_refl Ht).
Qed.

(** Asking for the type of an expression that passes, while the stack is reserved. *)
Lemma wp_type C s sp p e τ (Q : ltype → cstate → Prop) :
  knows C s → type_code member (c_vars C) sp p e = Some τ → small_type τ = true →
  (∀ t s', knows C s' → grown s s' → tables s' = tables s → typed s' τ t → row_ready s' e → Q t s') →
  wp (get_type member sp p e) Q s.
Proof using PL.
  intros K Hτ Hs HQ. destruct e as [| | |es| | | | | |].
  all: try (apply wp_Ok; destruct (type_answers member C s K _ sp p _ Hτ I) as (t & Et & Ht); exists t, s;
            split; [exact Et|]; by apply HQ).
  destruct (type_table_ s !! row_sign (length es)) as [t|] eqn:Et.
  { apply wp_Ok. destruct (type_answers member C s K (RowLiteral es) sp p _ Hτ ltac:(by eexists)) as (t' & Et' & Ht).
    exists t', s. split; [exact Et'|]. apply HQ; [done..|by exists t]. }
  cbn [type_code] in Hτ. apply bind_Some in Hτ as (τs & Hts & Hτ). case_decide as Hd; [|done]. injection Hτ as <-.
  pose proof (ints_known C s sp p es K) as Hes.
  destruct (ints_elements (λ e i, get_type member sp (p ++ [i]) e) _ s 0 es τs Hes Hts Hd) as [Hel _].
  apply wp_Ok. cbn [get_type]. unfold get_type_row.
  rewrite (cg_bind_run _ _ _ _ _ (ints_signature _ _ _ _ _ Hes Hts Hd)), gets_run, Et, (cg_bind_run _ _ _ _ _ Hel).
  eexists _, _. split; [reflexivity|]. change (set_types _ _ _) with (with_struct s (row_sign (length es)) (replicate (length es) i64)).
  apply HQ.
  - eapply knows_kept; [by apply with_struct_grown|done|done| |done]. by apply known_row; [apply K|..].
  - by apply with_struct_grown.
  - done.
  - split; simpl; [apply lookup_insert_eq|]. eexists _, _. split; [done|]. by rewrite list_lookup_middle.
  - simpl. rewrite lookup_insert_eq. eauto.
Qed.

(** The same, once the stack is reserved. *)
Lemma wp_type_known C s sp p e τ (Q : ltype → cstate → Prop) :
  knows C s → type_code member (c_vars C) sp p e = Some τ → row_ready s e →
  (∀ t, typed s τ t → Q t s) → wp (get_type member sp p e) Q s.
Proof using PL.
  intros K Hτ Hr HQ. apply wp_Ok. destruct (type_answers member C s K _ sp p _ Hτ Hr) as (t & Et & Ht). eauto.
Qed.
End new_types.

(** ** Values *)

Section values.
Context `{L : LLVM} `{LT : !LLVMTyping} `{PL : !PrintLaws} (member : nid → option (TypeId.type_id * nat)) (C : claims).
Abbreviation type_code := (type_code member (c_vars C)).
Abbreviation stacked := (stacked (c_nodes C)).

(** The value of an expression of this type. *)
Definition valued (s : cstate) (τ : code_type) (v : lvalue) : Prop :=
  match τ with CBit => type_of v = i1 | _ => typed s τ (type_of v) end.

(** The value of [e] is generated whenever [e] passes. *)
Definition generates (e : Expression) : Prop := ∀ s sp p τ (Q : lvalue → cstate → Prop),
  knows C s → type_code sp p e = Some τ → stacked sp p e = true → row_ready s e →
  (∀ v s', same s s' → valued s' τ v → Q v s') → wp (get_value member sp p e) Q s.

Lemma valued_conditional s τ v : conditional τ = true → valued s τ v → type_of v = i1 ∨ type_of v = i64.
Proof using Type. destruct τ; try done; [|by left]. intros _ [H _]. right. simpl in H. congruence. Qed.

Lemma valued_int s v : valued s CInt64 v → type_of v = i64.
Proof using Type. intros [H _]. simpl in H. congruence. Qed.

Lemma int_valued s v : type_of v = i64 → valued s CInt64 v.
Proof using Type. intros Hv. unfold valued. by rewrite Hv. Qed.

(** An integer operand, element or argument. *)
Lemma generates_int e s sp p (Q : lvalue → cstate → Prop) :
  generates e → knows C s → type_code sp p e = Some CInt64 → stacked sp p e = true →
  (∀ v s', same s s' → knows C s' → type_of v = i64 → Q v s') → wp (get_value member sp p e) Q s.
Proof using Type.
  intros He K Hτ Hst HQ. eapply He; [done..|by eapply ready_other|].
  intros v s' S V. apply HQ; [done|by eapply knows_same|by eapply valued_int].
Qed.

Lemma generates_condition e s sp p τ (Q : lvalue → cstate → Prop) :
  generates e → knows C s → type_code sp p e = Some τ → conditional τ = true → stacked sp p e = true →
  (∀ v s', same s s' → knows C s' → type_of v = i1 → Q v s') → wp (v ← get_value member sp p e; to_i1 v) Q s.
Proof using LT.
  intros He K Hτ Hc Hst HQ. apply wp_bind. eapply He; [done..|eapply ready_other; [done|by intros n ->]|].
  intros v s1 S1 V. pose proof (knows_same _ _ _ S1 K) as K1.
  apply wp_to_i1; [apply K1|by eapply valued_conditional|]. intros w s2 S2 W.
  apply HQ; [by etrans|by eapply knows_same|done].
Qed.

(** *** Binary operators *)

Lemma generates_strict l r s sp p tl tr (create : lvalue → lvalue → cg lvalue) Q :
  generates l → generates r → knows C s →
  type_code sp (p ++ [0]) l = Some tl → type_code sp (p ++ [1]) r = Some tr → tl = CInt64 → tr = CInt64 →
  stacked sp (p ++ [0]) l = true → stacked sp (p ++ [1]) r = true →
  (∀ a b s', same s s' → open s' → type_of a = i64 → type_of b = i64 → wp (create a b) Q s') →
  wp (lh ← get_value member sp (p ++ [0]) l; rh ← get_value member sp (p ++ [1]) r; create lh rh) Q s.
Proof using Type.
  intros Hl Hr K Tl Tr -> -> Sl Sr HQ. apply wp_bind, generates_int; [done..|]. intros a s1 S1 K1 A.
  apply wp_bind, generates_int; [done..|]. intros b s2 S2 K2 B. apply HQ; [by etrans|apply K2|done..].
Qed.

Lemma generates_conditional l r s sp p tl tr forAND (Q : lvalue → cstate → Prop) :
  generates l → generates r → knows C s →
  type_code sp (p ++ [0]) l = Some tl → type_code sp (p ++ [1]) r = Some tr →
  conditional tl = true → conditional tr = true →
  stacked sp (p ++ [0]) l = true → stacked sp (p ++ [1]) r = true →
  (∀ v s', same s s' → type_of v = i1 → Q v s') →
  wp (get_conditional_value (λ e i, get_value member sp (p ++ [i]) e) l r forAND) Q s.
Proof using LT.
  intros Hl Hr K Tl Tr Cl Cr Sl Sr HQ. unfold get_conditional_value.
  apply wp_bind, wp_block. intros next s1 S1. apply wp_bind, wp_block. intros fin s2 S2.
  assert (K2 : knows C s2) by (eapply knows_same, K; by etrans).
  assert (Hassoc : ∀ (e : Expression) sp p (k : lvalue → cg lvalue) (R : lvalue → cstate → Prop) s,
    wp ((v ← get_value member sp p e; to_i1 v) ≫= k) R s → wp (v ← get_value member sp p e; w ← to_i1 v; k w) R s).
  { intros e' sp' p' k R s'. unfold wp, mbind, cg_bind. by destruct (get_value _ _ _ _ _) as [[]| | | |]. }
  apply Hassoc, wp_bind. eapply generates_condition; [done..|]. intros lh s3 S3 K3 Tlh.
  apply wp_bind. assert (Hbr : ∀ (R : unit → cstate → Prop), (∀ s', same s3 s' → R tt s') →
    wp (if forAND then CreateCondBr lh next fin else CreateCondBr lh fin next) R s3).
  { intros R HR. destruct forAND; by apply wp_condbr; [apply K3|..]. }
  apply Hbr. intros s4 S4. pose proof (knows_same _ _ _ S4 K3) as K4.
  apply wp_bind, wp_get_block; [apply K4|]. intros current. apply wp_bind, wp_insert_point. intros s5 S5 _.
  apply Hassoc, wp_bind. eapply generates_condition; [done|by eapply knows_same|done..|]. intros rh s6 S6 K6 Trh.
  apply wp_bind, wp_br; [apply K6|]. intros s7 S7. apply wp_bind, wp_get_block; [by apply S7, K6|]. intros b.
  apply wp_bind, wp_insert_point. intros s8 S8 O8. apply wp_phi; [done..|]. intros v s9 S9 Tv.
  apply HQ; [|done]. by repeat (etrans; [eassumption|]).
Qed.

Lemma generates_binary l op r : generates l → generates r → generates (BinaryExpression l op r).
Proof using LT.
  intros Hl Hr s sp p τ Q K Hτ Hst _ HQ. cbn [Checker.type_code Checker.stacked get_value] in *.
  apply bind_Some in Hτ as (tl & Tl & Hτ). apply bind_Some in Hτ as (tr & Tr & Hop).
  apply andb_prop in Hst as [Sl Sr]. unfold get_value_binary.
  unfold operator_type in Hop. destruct op; try done.
  all: try (destruct (conditional tl) eqn:Cl, (conditional tr) eqn:Cr; try done; injection Hop as <-;
    by eapply generates_conditional).
  all: case_decide as Hd; [|done]; destruct Hd as [? ?]; injection Hop as <-;
    eapply generates_strict; [done..|]; intros a b s' S' O' Ta Tb.
  all: first [apply wp_bin; [done..|]|apply wp_icmp; [done|by rewrite Ta|by rewrite Ta, Tb|]];
    intros v s2 S2 Tv; apply HQ; [by etrans|by first [apply int_valued|apply Tv]].
Qed.

(** *** Rows *)

Lemma row_values_ok n k name sp p es : Forall generates es →
  ∀ i prev s τs (Q : lvalue → cstate → Prop),
  knows C s → element_code_types (λ e i, type_code sp (p ++ [i]) e) i es = Some τs → Forall (λ τ, τ = CInt64) τs →
  stacked_elements (λ e i, stacked sp (p ++ [i]) e) i es = true →
  type_of prev = TStruct k → struct_types s !! k = Some (name, replicate n i64) → i + length es ≤ n →
  (∀ v s', same s s' → type_of v = TStruct k → Q v s') →
  wp (row_values (λ e i, get_value member sp (p ++ [i]) e) i es prev) Q s.
Proof using LT.
  induction 1 as [|e es He _ IH]; intros i prev s τs Q K Hts Hd Hst Hp Hk Hn HQ; cbn [row_values].
  { by apply wp_ret, HQ. }
  cbn [element_code_types stacked_elements length] in *. apply bind_Some in Hts as (τ & Hτ & Hts).
  apply bind_Some in Hts as (τs' & Hts & [= <-]). apply Forall_cons in Hd as [-> Hd]. apply andb_prop in Hst as [St1 St2].
  apply wp_bind, generates_int; [done..|]. intros probe s1 S1 K1 T1. rewrite T1. cbn [isPointerTy].
  apply wp_bind, wp_bind, generates_int; [done..|]. intros v s2 S2 K2 T2.
  assert (S12 : same s s2) by by etrans.
  eapply wp_insert_value; [apply K2| |done|].
  { rewrite Hp, T2. simpl. rewrite (same_structs _ _ S12), Hk. simpl. apply lookup_replicate. split; [done|lia]. }
  intros w s3 S3 T3. eapply (IH (S i)); [by eapply knows_same|done..|congruence| |lia|].
  { by rewrite (same_structs _ _ S3), (same_structs _ _ S12). }
  intros u s4 S4 T4. apply HQ; [|done]. etrans; [done|]. by etrans.
Qed.

Lemma generates_row es : Forall generates es → generates (RowLiteral es).
Proof using LT PL.
  intros He s sp p τ Q K Hτ Hst Hr HQ. cbn [Checker.type_code Checker.stacked get_value] in *.
  apply bind_Some in Hτ as (τs & Hts & Hτ). case_decide as Hd; [|done]. injection Hτ as <-.
  unfold get_value_row.
  assert (Es : get_type_signature (λ e i, get_type member sp (p ++ [i]) e) es s = Ok (row_sign (length es), s))
    by by eapply ints_signature; [apply ints_known|..].
  apply wp_bind, wp_Ok. eexists _, _. split; [exact Es|]. apply wp_bind, wp_Ok. eexists _, _. split; [exact Es|].
  apply wp_bind, wp_gets. destruct Hr as [t Ht]. pose proof (k_signs _ _ (k_types _ _ K) (length es)) as Hk.
  rewrite Ht in Hk. destruct Hk as (-> & k & -> & Hk).
  eapply (row_values_ok (length es) k (row_sign (length es))); [done..|].
  intros v s' S Tv. apply HQ; [done|]. unfold valued. rewrite Tv. eapply typed_same; [done|]. split; [done|]. simpl. eauto.
Qed.

(** *** Calls *)

Lemma pass_int sp p i v s (Q : lvalue → cstate → Prop) : type_of v = i64 → Q v s → wp (pass_arg sp p i v) Q s.
Proof using Type. intros Hv HQ. unfold pass_arg. rewrite Hv. by apply wp_ret. Qed.

Lemma pass_string sp p i v s (Q : lvalue → cstate → Prop) :
  knows C s → valued s CString v → c_nodes C !! (sp, p ++ [i]) = Some CString →
  (∀ a s', same s s' → type_of a = TPtr (TStruct 0) → Q a s') → wp (pass_arg sp p i v) Q s.
Proof using Type.
  intros K V Hn HQ. apply typed_string in V. unfold pass_arg. rewrite V. cbn [isIntegerTy isStructTy].
  destruct (k_nodes _ _ K _ _ Hn) as (stack & Hs & t & Ht & Hp). apply typed_string in Ht as ->.
  apply wp_bind, wp_gets, wp_bind. eapply wp_not_null; [done|].
  apply wp_bind, wp_store; [apply K|by rewrite V|]. intros s' S. by apply wp_ret, HQ.
Qed.

Lemma generates_call f args : Forall generates args → generates (FunctionCall f args).
Proof using LT.
  intros He s sp p τ Q K Hτ Hst _ HQ. destruct f as [| | | | |f| | | |]; try done.
  cbn [Checker.type_code Checker.stacked get_value] in *. apply bind_Some in Hτ as (τs & Hts & Hc).
  destruct (ready_function C s K _ _ _ Hc) as (fn & Hf & Hret & Hpar). apply andb_prop in Hst as [Hst Hstr].
  unfold get_value_call. cbn [callee_name]. apply wp_bind, wp_ret, wp_bind. unfold find_function.
  apply wp_bind, wp_gets. rewrite Hf. apply wp_ret, wp_bind.
  assert (Hcall : ∀ as' s', same s s' → open s' → type_of <$> as' = param_types fn → wp (CreateCall fn as') Q s').
  { intros as' s' S' O' Ha. apply wp_call; [done..|]. intros v s2 S2 Tv. apply HQ; [by etrans|].
    rewrite Hret in Tv. apply call_kind in Hc as [(_ & _ & ->)|[(_ & _ & ->)|(_ & _ & ->)]];
      unfold valued; rewrite Tv; by split. }
  apply call_kind in Hc as [(-> & -> & ->)|[(-> & -> & ->)|(-> & -> & ->)]]; cbn [fmap list_fmap] in Hpar.
  - destruct He as [|a args Ha [|]]; cbn [element_code_types] in Hts; try done; simplify_option_eq.
    cbn [stacked_elements] in Hst. apply andb_prop in Hst as [Sa _]. cbn [call_args].
    apply wp_bind, generates_int; [done..|]. intros v s1 S1 K1 Tv. apply wp_bind, pass_int; [done|].
    apply wp_bind, wp_ret, wp_ret, Hcall; [done|apply K1|]. cbn. by rewrite Tv, Hpar.
  - rewrite decide_True in Hstr by done. apply bool_decide_eq_true in Hstr.
    destruct He as [|a args Ha [|]]; cbn [element_code_types] in Hts; try done; simplify_option_eq.
    cbn [stacked_elements] in Hst. apply andb_prop in Hst as [Sa _]. cbn [call_args].
    apply wp_bind. eapply Ha; [done..|by eapply ready_other|].
    intros v s1 S1 V. pose proof (knows_same _ _ _ S1 K) as K1. apply wp_bind. eapply pass_string; [done..|].
    intros w s2 S2 Tw. apply wp_bind, wp_ret, wp_ret, Hcall; [by etrans|by apply S2, K1|]. cbn. by rewrite Tw, Hpar.
  - destruct He as [|a args Ha [|b args' Hb [|]]]; cbn [element_code_types] in Hts; try done; simplify_option_eq.
    cbn [stacked_elements] in Hst. apply andb_prop in Hst as [Sa Hst]. apply andb_prop in Hst as [Sb _]. cbn [call_args].
    apply wp_bind, generates_int; [done..|]. intros v s1 S1 K1 Tv. apply wp_bind, pass_int; [done|].
    apply wp_bind, wp_bind, generates_int; [done..|]. intros w s2 S2 K2 Tw. apply wp_bind, pass_int; [done|].
    apply wp_bind, wp_ret, wp_ret, wp_ret, Hcall; [by etrans|apply K2|]. cbn. by rewrite Tv, Tw, Hpar.
Qed.

(** *** Variables and members *)

Lemma variable_address x τ s (Q : lvalue → cstate → Prop) :
  knows C s → c_vars C !! x = Some τ → (∀ v t, typed s τ t → type_of v = TPtr t → Q v s) → wp (variable_ref x) Q s.
Proof using Type.
  intros K Hx HQ. destruct (k_vars _ _ K _ _ Hx) as (_ & v & Hv & t & Ht & Tv). unfold variable_ref.
  apply wp_bind, wp_gets. rewrite Hv. by eapply wp_ret, HQ.
Qed.

Lemma row_member_address sp p x s τ (Q : lvalue → cstate → Prop) :
  knows C s → member_type member (c_vars C) (sp, p) x = Some τ →
  (∀ v s', same s s' → type_of v = i64ptr → Q v s') → wp (member_ref member (sp, p) (VariableReference x)) Q s.
Proof using LT.
  intros K Hm HQ. destruct (member_known member C s K _ _ _ Hm) as (_ & i & v & k & nm & size & Hn & Hi & Hv & Tv & Hk).
  unfold member_ref. apply wp_bind, wp_gets, wp_bind. eapply wp_not_null; [done|]. apply wp_bind.
  eapply wp_not_null; [done|]. eapply wp_gep; [apply K|by rewrite Tv| |exact HQ].
  rewrite Tv. simpl. rewrite Hk. simpl. rewrite Nat2Z.id. rewrite lookup_replicate_2 by done. done.
Qed.

Lemma typed_valued s τ v : storable τ = true → typed s τ (type_of v) → valued s τ v.
Proof using Type. by destruct τ. Qed.

Lemma generates_variable x : generates (VariableReference x).
Proof using LT.
  intros s sp p τ Q K Hτ _ _ HQ. cbn [Checker.type_code get_value] in *. apply wp_bind.
  eapply variable_address; [done..|]. intros v t Ht Tv. eapply wp_load; [apply K|done|]. intros w s' S Tw.
  apply HQ; [done|]. apply typed_valued; [by eapply k_vars|]. rewrite Tw. by eapply typed_same.
Qed.

Lemma generates_member q n : generates (MemberReference q n).
Proof using LT.
  intros s sp p τ Q K Hτ _ _ HQ. destruct q as [| | | | |x| | | |]; try done. cbn [Checker.type_code get_value] in *.
  destruct (member_known member C s K _ _ _ Hτ) as [-> _].
  apply wp_bind. eapply row_member_address; [done..|]. intros v s1 S1 Tv. eapply wp_load; [by apply S1, K|done|].
  intros w s2 S2 Tw. apply HQ; [by etrans|by apply int_valued].
Qed.

(** The address an assignment stores to. *)
Lemma target_address t sp p τ s (Q : option lvalue → cstate → Prop) gv :
  knows C s → is_target t = true → type_code sp p t = Some τ →
  (∀ v s' u, same s s' → typed s' τ u → type_of v = TPtr u → Q (Some v) s') → wp (get_ref member sp p gv t) Q s.
Proof using LT.
  intros K Ht Hτ HQ. destruct t as [| | | | |x| | |q n|]; try done; cbn [Checker.type_code get_ref] in *.
  - apply wp_bind. eapply variable_address; [done..|]. intros v u Hu Tv. by eapply wp_ret, HQ.
  - destruct q as [| | | | |x| | | |]; try done. destruct (member_known member C s K _ _ _ Hτ) as [-> _].
    apply wp_bind. eapply row_member_address; [done..|]. intros v s1 S1 Tv. by eapply wp_ret, HQ.
Qed.

Lemma generates_assign t v : generates v → generates (Assign t v).
Proof using LT.
  intros Hv s sp p τ Q K Hτ Hst _ HQ. cbn [Checker.type_code Checker.stacked get_value] in *.
  apply bind_Some in Hτ as (tt' & Tt & Hτ). apply bind_Some in Hτ as (tv & Tv & Hτ).
  case_decide as Hd; [|done]. injection Hτ as <-. destruct Hd as (Ht & -> & Hk).
  unfold get_value_assign. apply wp_bind. eapply target_address; [done..|]. intros a s1 u S1 Hu Ta.
  pose proof (knows_same _ _ _ S1 K) as K1. apply wp_bind.
  eapply Hv; [done..|eapply ready_other; [done|intros n ->; naive_solver]|]. intros w s2 S2 V.
  pose proof (knows_same _ _ _ S2 K1) as K2. apply wp_bind. eapply wp_not_null; [done|].
  assert (Hs : storable tv = true) by (by destruct Hk as [-> | ->]).
  assert (Tw : type_of w = u).
  { pose proof (typed_same _ _ _ _ S2 Hu) as [Hu' _]. destruct Hk as [-> | ->]; destruct V as [V' _]; congruence. }
  apply wp_bind, wp_store; [apply K2|by rewrite Ta, Tw|]. intros s3 S3.
  eapply wp_load; [by apply S3, K2|done|]. intros x s4 S4 Tx. apply HQ; [by repeat (etrans; [eassumption|])|].
  apply typed_valued; [done|]. rewrite Tx. do 3 (eapply typed_same; [eassumption|]). done.
Qed.

Lemma generates_literal v : generates (PrimaryExpression v).
Proof using Type.
  intros s sp p τ Q K Hτ _ _ HQ. cbn [get_value]. unfold value_emitter.
  apply literal_kind in Hτ as (-> & [(-> & (z & Hz) & ->)|(-> & -> & (z & Hz) & ->)]).
  - apply wp_bind. eapply wp_lift; [done|]. by apply wp_ret, HQ.
  - apply wp_bind. eapply wp_lift; [done|]. apply wp_bind. unfold string_type. apply wp_bind, wp_gets.
    eapply wp_not_null; [by apply (k_types _ _ K)|]. apply wp_ret, HQ; [done|]. by apply string_typed with C.
Qed.

(** The value of every expression that passes is generated. *)
Lemma expressions_generate e : generates e.
Proof using LT PL.
  induction e as [v|l op r IHl IHr|t IHt|es IHes|es IHes|n|f args _ IHargs|q i IHq _|q n _|t v _ IHv]
    using Expression_rect'; try (by intros s sp p τ Q K Hτ).
  - apply generates_literal.
  - by apply generates_binary.
  - by apply generates_row.
  - apply generates_variable.
  - by apply generates_call.
  - apply generates_member.
  - by apply generates_assign.
Qed.
End values.
