(* ===== verification/Accepted.v ===== *)
(** * Accepted: what the checker accepts compiles

    The lemmas of Progress.v on expressions, carried to statements: the pass that reserves the stack
    establishes what the checker claims, and under the claims of the whole program the code of every
    statement is generated. *)

From Stdlib Require Import ZArith NArith Ascii String Lia.
From stdpp Require Import base option list strings gmap.
From S2P Require Import Prelude Value Attr Schema Ast Visit Analyze LLVM CodegenExpr Layout.
From S2P Require Import CodegenStmt Compile Declare Machine Runtime Concrete Semantics Typing Faithful Prepare.
From S2P Require Import CompileCorrect Execute Checker Progress.

(** ** Claims only grow *)

Section claim.
Context {K A : Type} `{Countable K, EqDecision A}.

Lemma claim_spec (m m' : gmap K A) k a :
  claim m k a = Some m' → m ⊆ m' ∧ m' !! k = Some a ∧ ∀ j, j ≠ k → m' !! j = m !! j.
Proof.
  unfold claim. destruct (m !! k) as [b|] eqn:E.
  - case_decide; [|done]. intros [= <-]. subst. done.
  - intros [= <-]. split; [by apply insert_subseteq|]. split; [apply lookup_insert_eq|].
    intros j Hj. by apply lookup_insert_ne.
Qed.

(** What holds of the new entry and of the old ones holds of all. *)
Lemma claim_each (m m' : gmap K A) k a (P : K → A → Prop) :
  claim m k a = Some m' → P k a → (∀ j b, j ≠ k → m !! j = Some b → P j b) → ∀ j b, m' !! j = Some b → P j b.
Proof.
  intros (_ & Hk & Hj)%claim_spec Ha Hm j b Hb. destruct (decide (j = k)) as [->|Hne]; [congruence|].
  apply Hm; [done|]. by rewrite <- Hj.
Qed.
End claim.

Lemma claim_var_extends C x τ C' :
  claim_var C x τ = Some C' → extends_claims C C' ∧ c_vars C' !! x = Some τ.
Proof. unfold claim_var. intros (m & Hm & [= <-])%bind_Some. apply claim_spec in Hm as (? & ? & _). by repeat split. Qed.
Lemma claim_node_extends C n τ C' :
  claim_node C n τ = Some C' → extends_claims C C' ∧ c_nodes C' !! n = Some τ.
Proof. unfold claim_node. intros (m & Hm & [= <-])%bind_Some. apply claim_spec in Hm as (? & ? & _). by repeat split. Qed.
Lemma claim_table_extends C t sch C' :
  claim_table C t sch = Some C' → extends_claims C C' ∧ c_tables C' !! t = Some sch.
Proof. unfold claim_table. intros (m & Hm & [= <-])%bind_Some. apply claim_spec in Hm as (? & ? & _). by repeat split. Qed.
Lemma claim_slots_extends C sp b τ C' :
  claim_slots C sp b τ = Some C' → extends_claims C C' ∧ c_slots C' !! sp = Some (b, τ).
Proof.
  unfold claim_slots. destruct (c_slots C !! sp) eqn:E; [done|]. intros [= <-].
  split; [|apply lookup_insert_eq]. split; simpl; try done. by apply insert_subseteq.
Qed.
Lemma claim_row_extends C r n C' :
  claim_row C r n = Some C' → extends_claims C C' ∧ c_vars C' !! r = Some (CScanRow r n).
Proof.
  unfold claim_row. case_decide as Hd; [|done]. destruct Hd as (Hr & _ & _). intros [= <-].
  split; [|apply lookup_insert_eq]. split; simpl; try done; [by apply insert_subseteq|set_solver|].
  intros x Hx. assert (x ≠ r) by (intros ->; rewrite Hr in Hx; by destruct Hx). set_solver.
Qed.

(** ** More claims, the same types *)

Section monotone.
Context (member : nid → option (TypeId.type_id * nat)) (V V' : gmap cstr code_type) (HV : V ⊆ V').

Lemma elements_mono f f' es : Forall (λ e, ∀ i τ, f e i = Some τ → f' e i = Some τ) es →
  ∀ i τs, element_code_types f i es = Some τs → element_code_types f' i es = Some τs.
Proof using Type.
  induction 1 as [|e es He _ IH]; intros i τs Hts; [done|]. cbn [element_code_types] in *.
  apply bind_Some in Hts as (τ & Hτ & Hts). apply bind_Some in Hts as (τs' & Hts & [= <-]).
  rewrite (He _ _ Hτ). simpl. by rewrite (IH _ _ Hts).
Qed.

Lemma type_code_mono e : ∀ sp p τ, type_code member V sp p e = Some τ → type_code member V' sp p e = Some τ.
Proof using HV.
  induction e as [v|l op r IHl IHr|t IHt|es IHes|es IHes|n|f args _ IHargs|q i IHq _|q n _|t v IHt IHv]
    using Expression_rect'; intros sp p τ Hτ; try done; cbn [type_code] in *.
  - apply bind_Some in Hτ as (tl & Hl & Hτ). apply bind_Some in Hτ as (tr & Hr & Hτ).
    by rewrite (IHl _ _ _ Hl), (IHr _ _ _ Hr).
  - apply bind_Some in Hτ as (τs & Hts & Hτ). erewrite elements_mono; [exact Hτ| |exact Hts].
    eapply Forall_impl; [exact IHes|]. simpl. eauto.
  - by eapply lookup_weaken.
  - destruct f; try done. apply bind_Some in Hτ as (τs & Hts & Hτ). erewrite elements_mono; [exact Hτ| |exact Hts].
    eapply Forall_impl; [exact IHargs|]. simpl. eauto.
  - destruct q; try done. unfold member_type in *. apply bind_Some in Hτ as (σ & Hx & Hτ).
    by rewrite (lookup_weaken _ _ _ _ Hx HV).
  - apply bind_Some in Hτ as (tl & Hl & Hτ). apply bind_Some in Hτ as (tr & Hr & Hτ).
    by rewrite (IHt _ _ _ Hl), (IHv _ _ _ Hr).
Qed.

Lemma stacked_mono N N' e : N ⊆ N' → ∀ sp p, stacked N sp p e = true → stacked N' sp p e = true.
Proof using Type.
  intros HN. induction e as [v|l op r IHl IHr|t IHt|es IHes|es IHes|n|f args _ IHargs|q i IHq _|q n _|t v IHt IHv]
    using Expression_rect'; intros sp p Hst; try done; cbn [stacked] in *.
  - apply andb_prop in Hst as [Hl Hr]. by rewrite IHl, IHr.
  - revert Hst. generalize 0. induction IHes as [|e es He _ IH]; intros i Hst; [done|]. cbn [stacked_elements] in *.
    apply andb_prop in Hst as [H1 H2]. by rewrite He, IH.
  - apply andb_prop in Hst as [Ha Hs]. apply andb_true_intro. split.
    + revert Ha. generalize 0. induction IHargs as [|e es He _ IH]; intros i Hst; [done|]. cbn [stacked_elements] in *.
      apply andb_prop in Hst as [H1 H2]. by rewrite He, IH.
    + destruct f; try done. case_decide; [|done]. apply bool_decide_eq_true in Hs. apply bool_decide_eq_true.
      by eapply lookup_weaken.
  - by apply IHv.
Qed.
End monotone.

Section checks.
Context (ann : annotations).
Abbreviation checks := (checks ann).

Lemma check_expr_inv C sp i e τ : check_expr ann C sp i e = Some τ →
  type_code (member_of ann) (c_vars C) sp [i] e = Some τ ∧ small_type τ = true ∧ stacked (c_nodes C) sp [i] e = true.
Proof. unfold check_expr. intros (σ & Hσ & H)%bind_Some. case_decide as Hd; [|done]. injection H as <-. naive_solver. Qed.

Lemma check_expr_mono C C' sp i e τ :
  extends_claims C C' → check_expr ann C sp i e = Some τ → check_expr ann C' sp i e = Some τ.
Proof.
  intros HC (Hτ & Hs & Hst)%check_expr_inv. unfold check_expr.
  rewrite (type_code_mono _ _ _ (e_vars _ _ HC) _ _ _ _ Hτ). simpl. rewrite decide_True; [done|].
  split; [done|]. eapply stacked_mono; [apply HC|done].
Qed.

Lemma claim_values_extends sp v : ∀ C C', claim_values ann C sp v = Some C' → extends_claims C C'.
Proof.
  induction v as [|[p e] v IH]; intros C C' Hv; cbn [claim_values] in Hv; [by injection Hv as <-|].
  apply bind_Some in Hv as (τ & _ & Hv). destruct (small_type τ); [|done]. apply bind_Some in Hv as (C1 & H1 & Hv).
  etrans; [|by apply IH]. destruct (structural τ); [by apply claim_node_extends in H1 as [? _]|by injection H1 as <-].
Qed.

Lemma check_statement_expr_extends C sp e C' : check_statement_expr ann C sp e = Some C' → extends_claims C C'.
Proof.
  unfold check_statement_expr. intros (τ & _ & Hv)%bind_Some. destruct (small_type τ); [|done].
  apply bind_Some in Hv as (C1 & H1 & Hv). destruct (each_value_at [0] e) as [v| | | |]; try done.
  apply bind_Some in Hv as (C2 & H2 & Hv). apply bind_Some in Hv as (_ & _ & [= <-]).
  etrans; [|by eapply claim_values_extends].
  destruct (structural τ); [by apply claim_node_extends in H1 as [? _]|by injection H1 as <-].
Qed.

Lemma check_let_inv C sp x e C' : check_let ann C sp x e = Some C' →
  ∃ τ, check_expr ann C sp 0 e = Some τ ∧ storable τ = true ∧ x ∉ c_rows C ∧ claim_var C x τ = Some C'.
Proof. unfold check_let. intros (τ & Hτ & H)%bind_Some. case_decide as Hd; [|done]. naive_solver. Qed.

Lemma check_let_extends C sp x e C' : check_let ann C sp x e = Some C' → extends_claims C C'.
Proof. intros (τ & _ & _ & _ & H)%check_let_inv. by apply claim_var_extends in H as [? _]. Qed.

Lemma check_init_extends C sp i C' : check_init ann C sp i = Some C' → extends_claims C C'.
Proof.
  destruct i; try done; cbn [check_init]; intros (C1 & H1 & H2)%bind_Some.
  - etrans; by eapply check_let_extends.
  - etrans; by eapply check_statement_expr_extends.
Qed.

Lemma check_emit_inv C sp e C' : check_emit ann C sp e = Some C' →
  ∃ τ n, check_expr ann C sp 0 e = Some τ ∧ row_size τ = Some n ∧ claim_node C (sp, []) τ = Some C'.
Proof. unfold check_emit. intros (τ & Hτ & H)%bind_Some. apply bind_Some in H as (n & Hn & H). eauto. Qed.

Lemma fixed_lengths_inv sch : fixed_lengths sch = true →
  fixed_key_length sch = true ∧ fixed_value_length sch = true ∧
  (∃ k, get_fixed_key_length sch = Ok k) ∧ ∃ v, get_fixed_value_length sch = Ok v.
Proof.
  unfold fixed_lengths. intros H. repeat (apply andb_prop in H as [H ?]).
  destruct (get_fixed_key_length sch), (get_fixed_value_length sch); naive_solver.
Qed.

Lemma check_insert_inv C sp t e C' : check_insert ann C sp t e = Some C' →
  ∃ sch τ n, c_tables C !! t = Some sch ∧ check_expr ann C sp 0 e = Some τ ∧ row_size τ = Some n ∧
    fixed_lengths sch = true ∧ forallb (insert_column_ok sch) (seq 0 n) = true ∧ claim_slots C sp false τ = Some C'.
Proof.
  unfold check_insert. intros (sch & Hsch & H)%bind_Some. apply bind_Some in H as (τ & Hτ & H).
  apply bind_Some in H as (n & Hn & H). destruct (fixed_lengths sch) eqn:Hf, (forallb _ _) eqn:Hc; try done. eauto 10.
Qed.

Lemma check_scan_inv C sp t r C' : check_scan C sp t r = Some C' →
  ∃ sch C1 e, c_tables C !! t = Some sch ∧ fixed_lengths sch = true ∧ prefix_end (get_key_prefix sch) = Ok e ∧
    small_row (columns sch) = true ∧ forallb (λ a, is_integer (a_type a)) (attrs_ sch) = true ∧
    forallb (scan_column_ok sch) (seq 0 (columns sch)) = true ∧
    claim_row C r (columns sch) = Some C1 ∧ claim_slots C1 sp true (CScanRow r (columns sch)) = Some C'.
Proof.
  unfold check_scan. intros (sch & Hsch & H)%bind_Some. destruct (_ && _) eqn:Hb; [|done].
  apply bind_Some in H as (C1 & H1 & H2). rewrite !andb_true_iff in Hb. destruct Hb as ((((? & ?) & ?) & ?) & ?).
  destruct (prefix_end (get_key_prefix sch)) as [e| | | |] eqn:He; try done. by exists sch, C1, e.
Qed.

Lemma check_block_extends loop mk sp l :
  Forall (λ s, ∀ loop C C' sp, checks loop C s sp = Some C' → extends_claims C C') l →
  ∀ i C C', check_block (checks loop) mk sp i l C = Some C' → extends_claims C C'.
Proof.
  induction 1 as [|s l Hs _ IH]; intros i C C' H; cbn [check_block] in H; [by injection H as <-|].
  apply bind_Some in H as (C1 & H1 & H2). etrans; [by eapply Hs|by eapply IH].
Qed.

Lemma checks_extends s : ∀ loop C C' sp, checks loop C s sp = Some C' → extends_claims C C'.
Proof.
  induction s as [l Hl|i l Hl|d n|i c e l Hi Hl|t|e|t e|t r l Hl|n e t|n t|c t f Ht Hf|e]
    using Statement_rect'; intros loop C C' sp H; cbn [Checker.checks] in H.
  - by eapply check_block_extends.
  - by eapply check_block_extends.
  - unfold check_define in H. apply bind_Some in H as (sch & _ & H). by apply claim_table_extends in H as [? _].
  - destruct i as [i|], c as [c|], e as [e|]; try done. apply bind_Some in H as (C1 & H1 & H).
    apply bind_Some in H as (τc & _ & H). apply bind_Some in H as (τe & _ & H). case_decide; [|done].
    etrans; [by eapply check_init_extends|by eapply check_block_extends].
  - destruct loop; [|done]. by injection H as <-.
  - apply check_emit_inv in H as (τ & n & _ & _ & H). by apply claim_node_extends in H as [? _].
  - apply check_insert_inv in H as (? & ? & ? & _ & _ & _ & _ & _ & H). by apply claim_slots_extends in H as [? _].
  - apply bind_Some in H as (C1 & H1 & H). apply check_scan_inv in H1 as (? & ? & ? & _ & _ & _ & _ & _ & _ & H1 & H2).
    apply claim_row_extends in H1 as [? _]. apply claim_slots_extends in H2 as [? _].
    etrans; [done|]. etrans; [done|]. by eapply check_block_extends.
  - by eapply check_let_extends.
  - by injection H as <-.
  - apply bind_Some in H as (τ & _ & H). destruct (conditional τ); [|done]. apply bind_Some in H as (C1 & H1 & H).
    etrans; [by eapply check_block_extends|]. destruct f as [f|]; [|by injection H as <-].
    eapply check_block_extends; [|exact H]. by apply Hf.
  - by eapply check_statement_expr_extends.
Qed.
End checks.

(** ** The tables are filled *)

Section reserve.
Context `{L : LLVM} `{LT : !LLVMTyping} `{PL : !PrintLaws}.

Lemma typed_not_void s τ t : storable τ = true → typed s τ t → t ≠ TVoid.
Proof.
  intros Hτ [H1 H2] ->. destruct τ; simpl in *; try done; [by specialize (H2 eq_refl)|..];
    by destruct H2 as (? & ? & ? & _).
Qed.

Lemma typed_struct s τ t : typed s τ t → isStructTy t = structural τ.
Proof.
  intros [H1 H2]. destruct τ; simpl in *; try (by injection H1 as <-); [by rewrite H2|..];
    by destruct H2 as (? & ? & -> & _).
Qed.

(** The slots of statements stay typed while the types stay. *)
Definition slots_known (C : claims) (s : cstate) : Prop := ∀ sp,
  match c_slots C !! sp with
  | Some (bounds, τ) => ∃ sl, slots_table s !! sp = Some sl ∧ slots_typed s bounds τ sl
  | None => slots_table s !! sp = None
  end.

Lemma slots_kept C s s' : knows C s → struct_types s' = struct_types s → type_table_ s' = type_table_ s →
  slots_table s' = slots_table s → slots_known C s'.
Proof.
  intros K Es Et Esl sp. rewrite Esl. pose proof (k_slots _ _ K sp) as H. destruct (c_slots C !! sp) as [[b τ]|]; [|done].
  destruct H as (sl & Hsl & Ht). exists sl. split; [done|]. eapply slots_grown, Ht. by apply grown_same.
Qed.

(** Entries of the tables: each claim is made good by the entry of its node. *)

Ltac keep_slots K :=
  match goal with |- context [slots_typed ?s' _ _ _] => exact (slots_kept _ _ s' K eq_refl eq_refl eq_refl) end.

Lemma knows_var C C' s x τ v :
  knows C s → claim_var C x τ = Some C' → storable τ = true → slot_of s τ v →
  knows C' (set_variables s (<[x := v]> (variable_table_ s))).
Proof.
  intros K Hc Hs Hv. unfold claim_var in Hc. apply bind_Some in Hc as (m & Hm & [= <-]). split; simpl; try apply K; try keep_slots K.
  - by eapply known_types_same, K.
  - eapply claim_each; [exact Hm| |].
    + split; [done|]. exists v. split; [apply lookup_insert_eq|done].
    + intros y σ Hy Hσ. rewrite lookup_insert_ne by done. by apply K.
Qed.

Lemma knows_node C C' s n τ v :
  knows C s → claim_node C n τ = Some C' → slot_of s τ v →
  knows C' (set_stack s (<[n := v]> (stack_table_ s))).
Proof.
  intros K Hc Hv. unfold claim_node in Hc. apply bind_Some in Hc as (m & Hm & [= <-]). split; simpl; try apply K; try keep_slots K.
  - by eapply known_types_same, K.
  - eapply claim_each; [exact Hm| |].
    + exists v. split; [apply lookup_insert_eq|done].
    + intros y σ Hy Hσ. rewrite lookup_insert_ne by done. by apply K.
Qed.

Lemma knows_table C C' s t sch :
  knows C s → claim_table C t sch = Some C' → knows C' (set_schemas s (<[t := sch]> (local_schema_table_ s))).
Proof.
  intros K Hc. unfold claim_table in Hc. apply bind_Some in Hc as (m & Hm & [= <-]). split; simpl; try apply K; try keep_slots K.
  - by eapply known_types_same, K.
  - eapply claim_each; [exact Hm|apply lookup_insert_eq|]. intros y σ Hy Hσ. rewrite lookup_insert_ne by done. by apply K.
Qed.

Lemma knows_slots C C' s sp b τ sl :
  knows C s → claim_slots C sp b τ = Some C' → slots_typed s b τ sl →
  knows C' (set_slots s (<[sp := sl]> (slots_table s))).
Proof.
  intros K Hc Hsl. unfold claim_slots in Hc. destruct (c_slots C !! sp) eqn:E; [done|]. injection Hc as <-.
  split; simpl; try apply K; [by eapply known_types_same, K|]. intros sp'. destruct (decide (sp' = sp)) as [->|Hne].
  - rewrite !lookup_insert_eq. exists sl. split; [done|]. eapply slots_grown, Hsl. by apply grown_same.
  - rewrite !lookup_insert_ne by done. pose proof (k_slots _ _ K sp') as H.
    destruct (c_slots C !! sp') as [[b' τ']|]; [|done]. destruct H as (sl' & H' & Ht). exists sl'. split; [done|].
    eapply slots_grown, Ht. by apply grown_same.
Qed.

Lemma knows_global C s p : knows C s → knows C (set_globals s (<[p := CStr p]> (global_variable_table_ s))).
Proof.
  intros K. split; simpl; try apply K; try keep_slots K.
  { by eapply known_types_same, K. }
  intros q v.
  rewrite lookup_insert_Some. intros [[_ <-]|[_ H]]; [done|by eapply k_globals].
Qed.

Lemma wp_prefix C s p (Q : lvalue → cstate → Prop) :
  knows C s → (∀ v s', knows C s' → struct_types s' = struct_types s → type_table_ s' = type_table_ s →
    slots_table s' = slots_table s → type_of v = i8ptr → Q v s') → wp (find_or_create_prefix p) Q s.
Proof.
  intros K HQ. unfold find_or_create_prefix. apply wp_bind, wp_gets.
  destruct (global_variable_table_ s !! p) as [v|] eqn:E; [apply wp_ret, HQ; try done; by eapply k_globals|].
  apply wp_bind, wp_modify, wp_ret, HQ; try done. by apply knows_global.
Qed.

(** *** [alloca_stack] *)

Context (ann : annotations).
Abbreviation alloca := (alloca_stack ann).

Lemma alloca_node_ok C C' s n τ t (Q : unit → cstate → Prop) :
  knows C s → claim_node C n τ = Some C' → typed s τ t → storable τ = true →
  (∀ s', knows C' s' → grown s s' → Q tt s') → wp (alloca_node n t) Q s.
Proof.
  intros K Hc Ht Hs HQ. unfold alloca_node. apply wp_bind, wp_alloca; [apply K|by eapply typed_not_void|].
  intros v s1 S1 Tv. apply wp_modify, HQ.
  - eapply knows_node; [by eapply knows_same|done|]. exists t. split; [by eapply typed_same|done].
  - destruct S1. by apply grown_same.
Qed.

Lemma structural_storable τ : structural τ = true → storable τ = true.
Proof. by destruct τ. Qed.

(** The stack space of a node whose type is a struct. *)
Lemma alloca_struct_ok C C' s n τ t (m : cg ltype) (Q : unit → cstate → Prop) :
  knows C s → (if structural τ then claim_node C n τ else Some C) = Some C' → typed s τ t →
  (∀ Q : ltype → cstate → Prop, Q t s → wp m Q s) →
  (∀ s', knows C' s' → grown s s' → Q tt s') →
  wp (if isStructTy t then st ← m; alloca_node n st else mret tt) Q s.
Proof.
  intros K Hc Ht Hm HQ. rewrite (typed_struct _ _ _ Ht). destruct (structural τ) eqn:Hs.
  - apply wp_bind, Hm. eapply alloca_node_ok; [done..|by apply structural_storable|done].
  - injection Hc as <-. apply wp_ret, HQ; [done|by apply grown_same].
Qed.

Lemma alloca_values_ok sp v : ∀ C C' s, knows C s → claim_values ann C sp v = Some C' →
  wp (alloca_values ann sp v) (λ _ s', knows C' s') s.
Proof.
  induction v as [|[p e] v IH]; intros C C' s K Hv; cbn [claim_values alloca_values] in *.
  { injection Hv as <-. by apply wp_ret. }
  apply bind_Some in Hv as (τ & Hτ & Hv). destruct (small_type τ) eqn:Hs; [|done].
  apply bind_Some in Hv as (C1 & H1 & Hv). apply wp_bind. eapply wp_type; [done..|]. intros t s1 K1 _ _ Ht Hr.
  apply wp_bind. eapply alloca_struct_ok; [done..| |].
  - intros R HR. eapply wp_type_known; [done..|]. intros t' Ht'. destruct Ht as [Ht _], Ht' as [Ht' _]. congruence.
  - intros s2 K2 _. by eapply IH.
Qed.

Lemma alloca_expr_ok C C' s sp e :
  knows C s → check_statement_expr ann C sp e = Some C' → wp (alloca_expr ann sp e) (λ _ s', knows C' s') s.
Proof.
  unfold check_statement_expr, alloca_expr. intros K (τ & Hτ & Hv)%bind_Some. destruct (small_type τ) eqn:Hs; [|done].
  apply bind_Some in Hv as (C1 & H1 & Hv). destruct (each_value_at [0] e) as [v| | | |]; try done.
  apply bind_Some in Hv as (C2 & H2 & Hv). apply bind_Some in Hv as (_ & _ & [= <-]).
  apply wp_bind. eapply wp_type; [done..|]. intros t s1 K1 _ _ Ht _. apply wp_bind.
  rewrite (typed_struct _ _ _ Ht). destruct (structural τ) eqn:Hst.
  - eapply alloca_node_ok; [done..|by apply structural_storable|]. intros s2 K2 _.
    apply wp_bind. eapply wp_lift; [done|]. by eapply alloca_values_ok.
  - injection H1 as <-. apply wp_ret, wp_bind. eapply wp_lift; [done|]. by eapply alloca_values_ok.
Qed.

Lemma alloca_let_ok C C' s sp x e :
  knows C s → check_let ann C sp x e = Some C' → wp (alloca_let ann sp x e) (λ _ s', knows C' s') s.
Proof.
  intros K (τ & (Hτ & Hsm & _)%check_expr_inv & Hs & _ & Hc)%check_let_inv. unfold alloca_let.
  apply wp_bind. eapply wp_type; [done..|]. intros t s1 K1 _ _ Ht _.
  apply wp_bind, wp_alloca; [apply K1|by eapply typed_not_void|]. intros v s2 S2 Tv.
  apply wp_modify. eapply knows_var; [by eapply knows_same|done..|]. exists t. split; [by eapply typed_same|done].
Qed.

Lemma alloca_emit_ok C C' s sp e :
  knows C s → check_emit ann C sp e = Some C' → wp (alloca_emit ann sp e) (λ _ s', knows C' s') s.
Proof.
  intros K (τ & n & (Hτ & Hsm & _)%check_expr_inv & Hn & Hc)%check_emit_inv. unfold alloca_emit.
  apply wp_bind. eapply wp_type; [done..|]. intros t s1 K1 _ _ Ht _.
  eapply alloca_node_ok; [done..|by destruct τ|done].
Qed.

Lemma alloca_define_ok C C' s sp d t :
  knows C s → check_define ann C sp d t = Some C' → wp (alloca_define ann sp d t) (λ _ s', knows C' s') s.
Proof.
  unfold check_define, defined_schema, alloca_define. intros K (sch & H & Hc)%bind_Some.
  destruct d as [d|]; [|done]. cbn [mbind option_bind] in H. destruct (types_of ann sp) as [ts|]; [|done].
  cbn [mbind option_bind] in H. destruct (define_attrs d ts 0 (names_ d)) as [attrs| | | |] eqn:Ed; try done. injection H as <-.
  apply wp_bind. eapply wp_not_null; [done|]. apply wp_bind. eapply wp_not_null; [done|].
  apply wp_bind. eapply wp_lift; [done|]. apply wp_bind, wp_modify, wp_ret. by eapply knows_table.
Qed.

Lemma alloca_insert_ok C C' s sp t e :
  knows C s → check_insert ann C sp t e = Some C' → wp (alloca_insert ann sp t e) (λ _ s', knows C' s') s.
Proof.
  intros K (sch & τ & n & Hsch & (Hτ & Hsm & _)%check_expr_inv & Hn & Hf & _ & Hc)%check_insert_inv.
  apply fixed_lengths_inv in Hf as (Fk & Fv & (k & Hk) & v & Hv).
  unfold alloca_insert. apply wp_bind, wp_gets. rewrite (k_tables _ _ K _ _ Hsch), Fk, Fv. cbn [negb].
  apply wp_bind. eapply wp_prefix; [done|]. intros pre s1 K1 Es Et Esl Tp.
  apply wp_bind. eapply wp_lift; [done|]. apply wp_bind. eapply wp_lift; [done|]. apply wp_bind, wp_gets.
  assert (Hno : slots_table s1 !! sp = None).
  { pose proof (k_slots _ _ K1 sp) as H. unfold claim_slots in Hc. by destruct (c_slots C !! sp). }
  rewrite decide_False by (rewrite Hno; by intros []).
  apply wp_bind, wp_alloca; [apply K1|done|]. intros ks s2 S2 T2. pose proof (knows_same _ _ _ S2 K1) as K2.
  apply wp_bind, wp_alloca; [apply K2|done|]. intros vs s3 S3 T3. pose proof (knows_same _ _ _ S3 K2) as K3.
  apply wp_bind. eapply wp_type; [done..|]. intros bt s4 K4 _ _ Ht _.
  apply wp_bind, wp_alloca; [apply K4|eapply typed_not_void, Ht; by destruct τ|]. intros ts s5 S5 T5.
  apply wp_modify. eapply knows_slots; [by eapply knows_same|done|]. split; simpl; eauto; [done|].
  exists bt. split; [by eapply typed_same|done].
Qed.

Lemma row_attrs_ok attrs s (Q : list ltype → cstate → Prop) :
  forallb (λ a, is_integer (a_type a)) attrs = true → Q (replicate (length attrs) i64) s → wp (row_attrs attrs) Q s.
Proof.
  revert Q. induction attrs as [|a attrs IH]; intros Q Ha HQ; cbn [row_attrs forallb length replicate] in *; [by apply wp_ret|].
  apply andb_prop in Ha as [-> Ha]. by apply wp_bind, IH.
Qed.

Lemma alloca_scan_ok C C' s sp t r :
  knows C s → check_scan C sp t r = Some C' → wp (alloca_scan sp t r) (λ _ s', knows C' s') s.
Proof.
  intros K (sch & C1 & pe & Hsch & Hf & He & Hsm & Hi & _ & Hr & Hc)%check_scan_inv.
  apply fixed_lengths_inv in Hf as (Fk & Fv & (k & Hk) & v & Hv).
  unfold alloca_scan. apply wp_bind, wp_gets, wp_bind. eapply wp_not_null; [by eapply k_tables|]. rewrite Fk, Fv. cbn [negb].
  apply wp_bind. eapply wp_prefix; [done|]. intros pre s1 K1 _ _ _ Tp. apply wp_bind. eapply wp_lift; [done|].
  apply wp_bind. eapply wp_prefix; [done|]. intros pre' s2 K2 _ _ _ Tp'.
  apply wp_bind. eapply wp_lift; [done|]. apply wp_bind. eapply wp_lift; [done|]. apply wp_bind, wp_gets.
  unfold claim_row in Hr. case_decide as Hd; [|done]. destruct Hd as (Hx & Hrow & Hok). injection Hr as <-.
  assert (Hno : slots_table s2 !! sp = None).
  { pose proof (k_slots _ _ K2 sp) as H. unfold claim_slots in Hc. simpl in Hc. by destruct (c_slots C !! sp). }
  rewrite decide_False by (rewrite Hno; by intros []).
  apply wp_bind, wp_alloca; [apply K2|done|]. intros ks s3 S3 T3. pose proof (knows_same _ _ _ S3 K2) as K3.
  apply wp_bind, wp_alloca; [apply K3|done|]. intros vs s4 S4 T4. pose proof (knows_same _ _ _ S4 K3) as K4.
  apply wp_bind, row_attrs_ok; [done|]. fold (columns sch).
  destruct (known_scan_row _ _ _ _ (k_types _ _ K4) Hrow Hok Hsm) as [Hn KT].
  apply wp_bind. unfold create_struct, wp at 1. apply wp_bind, wp_modify. cbn [set_types type_table_ struct_types].
  change (LLVM.set_types _ _ _) with (with_struct s4 r (replicate (columns sch) i64)).
  set (s5 := with_struct s4 r _). pose proof (with_struct_grown s4 r (replicate (columns sch) i64) Hn) as G5.
  pose proof (knows_grown _ _ _ s5 G5 eq_refl ltac:(done) KT K4) as K5.
  apply wp_bind, wp_alloca; [apply K5|done|]. intros store s6 S6 T6. pose proof (knows_same _ _ _ S6 K5) as K6.
  assert (Hstore : slot_of s6 (CScanRow r (columns sch)) store).
  { exists (TStruct (length (struct_types s4))). split; [|done]. eapply typed_same; [done|]. split; simpl; [apply lookup_insert_eq|].
    eexists _, _. split; [done|]. by rewrite list_lookup_middle. }
  apply wp_bind, wp_modify, wp_modify. eapply knows_slots; [eapply (knows_var _ _ _ r (CScanRow r (columns sch)) store); [exact K6| |done|exact Hstore]|exact Hc|].
  { unfold claim_var, claim. simpl. by rewrite Hx. }
  assert (S46 : struct_types s5 = struct_types s6 ∧ type_table_ s5 = type_table_ s6) by by destruct S6.
  split; simpl; eauto; done.
Qed.

(** *** The walk over the statements *)

(** The initialisation of a [for], whose stack is reserved twice. *)
Lemma init_ok C C' sp i : check_init ann C sp i = Some C' → ∃ C1, extends_claims C C1 ∧
  (∀ s, knows C s → wp (alloca sp i) (λ _ s', knows C1 s') s) ∧
  (∀ s, knows C1 s → wp (alloca sp i) (λ _ s', knows C' s') s).
Proof.
  destruct i; try done; cbn [check_init alloca_stack]; intros (C1 & H1 & H2)%bind_Some; exists C1.
  - split; [by eapply check_let_extends|].
    split; intros s K; apply wp_bind; (eapply wp_mono; [by eapply alloca_let_ok|]); intros u s' K'; by apply wp_ret.
  - split; [by eapply check_statement_expr_extends|].
    split; intros s K; apply wp_bind; (eapply wp_mono; [by eapply alloca_expr_ok|]); intros u s' K'; by apply wp_ret.
Qed.

(** Reserving the stack of a statement and of the statements in it makes the claims good. *)
Definition reserves (s : Statement) : Prop := ∀ loop C C' sp st,
  checks ann loop C s sp = Some C' → knows C st →
  wp (alloca sp s) (λ _, wp (walk alloca s sp) (λ _ s', knows C' s')) st.

Lemma walk_block mk sp l : Forall reserves l → ∀ loop i C C' st,
  check_block (checks ann loop) mk sp i l C = Some C' → knows C st →
  wp (walk_statements alloca (walk alloca) mk sp i l) (λ _ s', knows C' s') st.
Proof.
  induction 1 as [|s l Hs _ IH]; intros loop i C C' st Hc K; cbn [check_block walk_statements] in *.
  { injection Hc as <-. by apply wp_ret. }
  apply bind_Some in Hc as (C1 & H1 & Hc). apply wp_bind. eapply wp_mono; [by eapply Hs|]. intros a s1 Hw.
  apply wp_bind. eapply wp_mono; [exact Hw|]. intros b s2 K2.
  apply wp_bind. eapply wp_mono; [by eapply IH|]. intros c s3 K3. by apply wp_ret.
Qed.

(** A statement without statements in it. *)
Lemma leaf_reserves s sp (Q : cstate → Prop) {A : Type} (m : cg A) (a : list (list ascii * list Attribute)) st :
  alloca sp s = (_ ← m; mret a) → walk alloca s sp = mret [] → wp m (λ _, Q) st →
  wp (alloca sp s) (λ _, wp (walk alloca s sp) (λ _, Q)) st.
Proof.
  intros -> -> Hm. apply wp_bind. eapply wp_mono; [exact Hm|]. intros b s' HQ. by apply wp_ret, wp_ret.
Qed.

Lemma statements_reserve s : reserves s.
Proof.
  induction s as [l Hl|i l Hl|d n|i c e l Hi Hl|t|e|t e|t r l Hl|n e t|n t|c t f Ht Hf|e]
    using Statement_rect'; intros loop C C' sp st H K; cbn [Checker.checks] in H.
  - apply wp_ret. by eapply walk_block.
  - apply wp_ret. by eapply walk_block.
  - cbn [alloca_stack walk]. apply wp_bind. eapply wp_mono; [by eapply alloca_define_ok|]. intros a s' K'. done.
  - destruct i as [i|], c as [c|], e as [e|]; try done. apply bind_Some in H as (C1 & H1 & H).
    apply bind_Some in H as (τc & _ & H). apply bind_Some in H as (τe & _ & H). case_decide; [|done].
    cbn [alloca_stack walk]. apply init_ok in H1 as (C0 & _ & I1 & I2).
    eapply wp_mono; [by apply I1|]. intros a s1 K1. apply wp_bind. eapply wp_mono; [by apply I2|]. intros b s2 K2.
    apply wp_bind. eapply wp_mono; [by eapply walk_block|]. intros r s3 K3. by apply wp_ret.
  - destruct loop; [|done]. injection H as <-. by apply wp_ret, wp_ret.
  - eapply leaf_reserves; [done..|]. by eapply alloca_emit_ok.
  - eapply leaf_reserves; [done..|]. by eapply alloca_insert_ok.
  - apply bind_Some in H as (C1 & H1 & H). cbn [alloca_stack walk]. apply wp_bind.
    eapply wp_mono; [by eapply alloca_scan_ok|]. intros a s1 K1. apply wp_ret. by eapply walk_block.
  - eapply leaf_reserves; [done..|]. by eapply alloca_let_ok.
  - injection H as <-. by apply wp_ret, wp_ret.
  - apply bind_Some in H as (τ & _ & H). destruct (conditional τ); [|done]. apply bind_Some in H as (C1 & H1 & H).
    apply wp_ret. cbn [walk]. destruct f as [f|].
    + apply wp_bind. eapply wp_mono; [by eapply walk_block|]. intros a s1 K1.
      apply wp_bind. eapply wp_mono; [by eapply walk_block; [apply Hf|..]|]. intros b s2 K2. by apply wp_ret.
    + injection H as <-. by eapply walk_block.
  - eapply leaf_reserves; [done..|]. by eapply alloca_expr_ok.
Qed.
End reserve.

(** ** The code of statements *)

Section code.
Context `{L : LLVM} `{LT : !LLVMTyping} `{PL : !PrintLaws} (ann : annotations).
(** What is claimed of the whole program. *)
Context (C : claims).

(** The code [m] is generated in every context that knows the program, inside a loop if need be. *)
Definition codes (loop : bool) (m : cg unit) : Prop := ∀ s (Q : unit → cstate → Prop),
  knows C s → (loop = true → loop_ s ≠ []) → (∀ s', same s s' → Q tt s') → wp m Q s.

Lemma codes_ret loop : codes loop (mret tt).
Proof. intros s Q K _ HQ. by apply wp_ret, HQ. Qed.

Lemma codes_seq loop m1 m2 : codes loop m1 → codes loop m2 → codes loop (_ ← m1; m2).
Proof.
  intros H1 H2 s Q K Hl HQ. apply wp_bind, H1; [done..|]. intros s1 S1. apply H2; [by eapply knows_same| |].
  - intros Hloop. rewrite (same_loop _ _ S1). auto.
  - intros s2 S2. apply HQ. by etrans.
Qed.

Lemma typed_unique s τ t t' : typed s τ t → typed s τ t' → t = t'.
Proof. intros [H _] [H' _]. congruence. Qed.

(** A claim of a row literal's type means that its struct exists. *)
Lemma typed_ready s sp p e τ t :
  type_code (member_of ann) (c_vars C) sp p e = Some τ → typed s τ t → row_ready s e.
Proof.
  intros Hτ [Ht _]. destruct e; try done. cbn [type_code] in Hτ. apply bind_Some in Hτ as (τs & _ & Hτ).
  case_decide; [|done]. injection Hτ as <-. simpl in *. eauto.
Qed.

Lemma wp_value s sp i e τ (Q : lvalue → cstate → Prop) :
  knows C s → check_expr ann C sp i e = Some τ → row_ready s e →
  (∀ v s', same s s' → knows C s' → valued s' τ v → Q v s') → wp (get_value (member_of ann) sp [i] e) Q s.
Proof.
  intros K (Hτ & _ & Hst)%check_expr_inv Hr HQ. eapply (expressions_generate (member_of ann) C e); [done..|].
  intros v s' S V. apply HQ; [done|by eapply knows_same|done].
Qed.

Lemma wp_ask s sp i e τ t (Q : ltype → cstate → Prop) :
  knows C s → check_expr ann C sp i e = Some τ → typed s τ t → Q t s → wp (get_type (member_of ann) sp [i] e) Q s.
Proof.
  intros K (Hτ & _ & _)%check_expr_inv Ht HQ. eapply wp_type_known; [done..|by eapply typed_ready|].
  intros t' Ht'. by rewrite <- (typed_unique _ _ _ _ Ht Ht').
Qed.

Lemma valued_storable s τ v : storable τ = true → valued s τ v → typed s τ (type_of v).
Proof. by destruct τ. Qed.

(** A value and the slot of its type. *)
Lemma wp_store_slot s s1 τ v p (Q : unit → cstate → Prop) :
  slot_of s τ p → same s s1 → open s1 → storable τ = true → valued s1 τ v →
  (∀ s', same s1 s' → Q tt s') → wp (CreateStore v p) Q s1.
Proof.
  intros (t & Ht & Tp) S O Hs V HQ. apply wp_store; [done| |done]. rewrite Tp. f_equal.
  eapply typed_unique; [by eapply typed_same|by apply valued_storable].
Qed.

(** *** Statements without statements in them *)

Lemma codes_let loop C0 C' sp x e :
  check_let ann C0 sp x e = Some C' → extends_claims C' C → codes loop (codegen_let ann sp x e).
Proof.
  intros H HC s Q K _ HQ. pose proof (check_let_extends _ _ _ _ _ _ H) as HC0.
  apply check_let_inv in H as (τ & Hτ & Hs & _ & Hc). apply claim_var_extends in Hc as [_ Hx].
  apply (check_expr_mono ann C0 C) in Hτ; [|by etrans].
  apply (lookup_weaken _ (c_vars C)) in Hx; [|by apply HC].
  destruct (k_vars _ _ K _ _ Hx) as (_ & v & Hv & t & Ht & Tv). unfold codegen_let.
  apply wp_bind. eapply wp_ask; [done..|]. apply wp_bind, wp_gets. rewrite Hv.
  apply wp_bind. eapply wp_value; [done..|eapply typed_ready; [by apply check_expr_inv in Hτ as [? _]|done]|].
  intros w s1 S1 K1 V. eapply wp_store_slot; [by exists t|done|apply K1|done..|].
  intros s2 S2. apply HQ. by etrans.
Qed.

Lemma codes_expr loop C0 C' sp e :
  check_statement_expr ann C0 sp e = Some C' → extends_claims C' C →
  codes loop (_ ← get_value (member_of ann) sp [0] e; mret tt).
Proof.
  intros H HC s Q K _ HQ. pose proof (check_statement_expr_extends _ _ _ _ _ H) as HC0.
  unfold check_statement_expr in H. apply bind_Some in H as (τ & Hτ & H). destruct (small_type τ); [|done].
  apply bind_Some in H as (C1 & H1 & H). destruct (each_value_at [0] e) as [v| | | |]; try done.
  apply bind_Some in H as (C2 & H2 & H). apply bind_Some in H as (σ & Hσ & [= <-]).
  apply (check_expr_mono ann _ C) in Hσ; [|done].
  apply (type_code_mono _ _ (c_vars C)) in Hτ; [|apply e_vars; by etrans].
  assert (σ = τ) as -> by (apply check_expr_inv in Hσ as (Hσ & _); congruence).
  apply wp_bind. eapply wp_value; [done..| |].
  - destruct (structural τ) eqn:Hst; [|by eapply ready_other; [exact Hτ|intros n ->]].
    apply claim_node_extends in H1 as [_ Hn].
    apply (lookup_weaken _ (c_nodes C)) in Hn; [|apply e_nodes; etrans; [by eapply claim_values_extends|done]].
    destruct (k_nodes _ _ K _ _ Hn) as (w & _ & t & Ht & _). by eapply typed_ready.
  - intros w s1 S1 _ _. by apply wp_ret, HQ.
Qed.

Lemma codes_emit loop C0 C' sp e :
  check_emit ann C0 sp e = Some C' → extends_claims C' C → codes loop (codegen_emit ann sp e).
Proof.
  intros H HC s Q K _ HQ. apply check_emit_inv in H as (τ & n & Hτ & Hn & Hc). apply claim_node_extends in Hc as [HC0 Hx].
  apply (check_expr_mono ann C0 C) in Hτ; [|by etrans]. apply (lookup_weaken _ (c_nodes C)) in Hx; [|by apply HC].
  destruct (k_nodes _ _ K _ _ Hx) as (v & Hv & t & Ht & Tv).
  assert (Hk : ∃ k nm, t = TStruct k ∧ struct_types s !! k = Some (nm, replicate n i64))
    by (destruct Ht as [_ Ht]; by rewrite Hn in Ht).
  assert (Hs : storable τ = true) by by destruct τ. destruct Hk as (k & nm & -> & Hk).
  unfold codegen_emit. apply wp_bind, wp_gets, wp_bind. eapply wp_ask; [done..|]. cbn [isStructTy].
  apply wp_bind. eapply wp_value; [done..|eapply typed_ready; [by apply check_expr_inv in Hτ as [? _]|done]|].
  intros w s1 S1 K1 V. apply wp_bind. eapply wp_not_null; [done|].
  apply wp_bind. eapply wp_store_slot; [by exists (TStruct k)|done|apply K1|done..|]. intros s2 S2.
  pose proof (knows_same _ _ _ S2 K1) as K2. assert (S02 : same s s2) by by etrans.
  apply wp_bind, wp_gets, wp_bind. eapply wp_ask; [done..|by eapply typed_same|].
  apply wp_bind, wp_gets, wp_bind. eapply wp_not_null; [by rewrite (same_structs _ _ S02), Hk|].
  apply wp_bind, wp_bitcast; [apply K2|by rewrite Tv|done|]. intros from s3 S3 T3.
  apply wp_bind. eapply wp_not_null; [rewrite (k_functions _ _ K2); vm_compute; reflexivity|].
  apply wp_bind, wp_call; [by apply S3, K2|cbn; by rewrite T3|]. intros u s4 S4 _.
  apply wp_ret, HQ. etrans; [done|]. by etrans.
Qed.

Lemma codes_jump t : codes true (codegen_jump t).
Proof.
  intros s Q K Hl HQ. unfold codegen_jump. apply wp_bind, wp_gets. specialize (Hl eq_refl).
  destruct (loop_ s) as [|lc ls]; [done|]. apply wp_bind. eapply wp_not_null; [done|].
  destruct t; by apply wp_br; [apply K|].
Qed.

(** *** Calls of the engine *)

Lemma wp_call_table name f args s (Q : lvalue → cstate → Prop) :
  knows C s → ready_functions !! lit name = Some f → type_of <$> args = param_types f →
  (∀ v s', same s s' → knows C s' → type_of v = ret_type f → Q v s') → wp (Foedus.call_table name args) Q s.
Proof.
  intros K Hf Ha HQ. unfold Foedus.call_table. apply wp_bind, wp_gets, wp_bind.
  eapply wp_not_null; [by rewrite (k_functions _ _ K)|]. apply wp_call; [apply K|done|].
  intros v s' S Tv. apply HQ; [done|by eapply knows_same|done].
Qed.

Lemma codes_begin loop : codes loop Foedus.emit_begin_txn.
Proof.
  intros s Q K _ HQ. apply wp_bind. eapply wp_call_table; [done|vm_compute; reflexivity|done|]. intros v s' S _ _.
  by apply wp_ret, HQ.
Qed.
Lemma codes_precommit loop : codes loop Foedus.emit_precommit_txn.
Proof.
  intros s Q K _ HQ. apply wp_bind. eapply wp_call_table; [done|vm_compute; reflexivity|done|]. intros v s' S _ _.
  by apply wp_ret, HQ.
Qed.

(** *** Inserts *)

Lemma insert_columns_ok sch buff ks vs a b n : type_of buff = i8ptr → type_of ks = TPtr (TArray i8 a) →
  type_of vs = TPtr (TArray i8 b) → ∀ i ki vi off s (Q : nat * nat → cstate → Prop), open s →
  forallb (insert_column_ok sch) (seq i n) = true → (∀ r s', same s s' → Q r s') →
  wp (insert_columns sch buff ks vs i n ki vi off) Q s.
Proof.
  intros Tb Tk Tv. induction n as [|n IH]; intros i ki vi off s Q O Hc HQ; cbn [insert_columns seq forallb] in *.
  { by apply wp_ret, HQ. }
  apply andb_prop in Hc as [Hi Hc]. unfold insert_column_ok in Hi. apply andb_prop in Hi as [Hk Hl].
  destruct (schema_is_key sch i) as [k| | | |]; try done. destruct (get_tuple_length sch i) as [len| | | |]; try done.
  apply wp_bind. eapply wp_gep; [done|by rewrite Tb|by rewrite Tb|]. intros src s1 S1 T1.
  pose proof (same_block _ _ S1 O) as O1.
  apply wp_bind. eapply wp_lift; [done|]. apply wp_bind. eapply wp_lift; [done|].
  destruct k; (apply wp_bind; eapply wp_gep; [done|by rewrite ?Tk, ?Tv|by rewrite ?Tk, ?Tv|]; intros dst s2 S2 T2;
    apply wp_bind, wp_memcpy; [by apply S2|by rewrite T2|by rewrite T1|]; intros s3 S3;
    apply IH; [by apply S3, S2|done|]; intros r s4 S4; apply HQ; by repeat (etrans; [eassumption|])).
Qed.

Lemma codes_insert loop C0 C' sp t e :
  check_insert ann C0 sp t e = Some C' → extends_claims C' C → codes loop (codegen_insert ann sp t e).
Proof.
  intros H HC s Q K _ HQ. apply check_insert_inv in H as (sch & τ & n & Hsch & Hτ & Hn & _ & Hcol & Hc).
  apply claim_slots_extends in Hc as [HC0 Hx]. apply (check_expr_mono ann C0 C) in Hτ; [|by etrans].
  apply (lookup_weaken _ (c_tables C)) in Hsch; [|apply e_tables; by etrans].
  apply (lookup_weaken _ (c_slots C)) in Hx; [|by apply HC].
  pose proof (k_slots _ _ K sp) as Hsl. rewrite Hx in Hsl. destruct Hsl as (sl & Hsl & [Tp _ (a & Tk) (b & Tv) Htup]).
  assert (Hs : storable τ = true) by by destruct τ. pose proof Htup as (t' & Ht & Tt).
  assert (Hk : ∃ k nm, t' = TStruct k ∧ struct_types s !! k = Some (nm, replicate n i64))
    by (destruct Ht as [_ Ht]; by rewrite Hn in Ht).
  destruct Hk as (k & nm & -> & Hk). unfold codegen_insert. apply wp_bind, wp_gets.
  apply wp_bind. eapply wp_value; [done..|eapply typed_ready; [by apply check_expr_inv in Hτ as [? _]|done]|].
  intros w s1 S1 K1 V. apply wp_bind. eapply wp_not_null; [by eapply k_tables|].
  pose proof (typed_same _ _ _ _ S1 Ht) as Ht1.
  apply wp_bind. eapply wp_ask; [done..|]. cbn [isStructTy]. apply wp_bind. eapply wp_ask; [done..|].
  apply wp_bind, wp_gets, wp_bind. eapply wp_not_null; [by rewrite (same_structs _ _ S1), Hk|].
  assert (Hsl1 : slots_table s1 !! sp = Some sl).
  { pose proof (same_tables _ _ S1) as Htb. injection Htb as _ _ _ Hst _ _. by rewrite Hst. }
  apply wp_bind. unfold node_slots. apply wp_bind, wp_gets. eapply wp_not_null; [exact Hsl1|].
  apply wp_bind. eapply wp_store_slot; [exact Htup|done|apply K1|done..|]. intros s2 S2.
  pose proof (knows_same _ _ _ S2 K1) as K2.
  apply wp_bind, wp_bitcast; [apply K2|by rewrite Tt|done|]. intros buff s3 S3 T3. pose proof (knows_same _ _ _ S3 K2) as K3.
  apply wp_bind, wp_memcpy; [apply K3|by rewrite Tk|by rewrite Tp|]. intros s4 S4. pose proof (knows_same _ _ _ S4 K3) as K4.
  apply wp_bind. simpl. eapply insert_columns_ok; [done..|apply K4|by rewrite length_replicate|]. intros r s5 S5.
  pose proof (knows_same _ _ _ S5 K4) as K5.
  apply wp_bind, wp_bitcast; [apply K5|by rewrite Tk|done|]. intros key s6 S6 T6. pose proof (knows_same _ _ _ S6 K5) as K6.
  apply wp_bind, wp_bitcast; [apply K6|by rewrite Tv|done|]. intros value s7 S7 T7. pose proof (knows_same _ _ _ S7 K6) as K7.
  apply wp_bind. eapply wp_call_table; [done|vm_compute; reflexivity|cbn; by rewrite T6, T7|]. intros u s8 S8 _ _.
  apply wp_ret, HQ. by repeat (etrans; [eassumption|]).
Qed.

(** *** Scans *)

Lemma scan_columns_ok sch key vs b k nm size n : type_of key = i8ptr → type_of vs = TPtr (TArray i8 b) →
  ∀ i ko vo prev s (Q : lvalue → cstate → Prop), open s → forallb (scan_column_ok sch) (seq i n) = true →
  type_of prev = TStruct k → struct_types s !! k = Some (nm, replicate size i64) → i + n ≤ size →
  (∀ v s', same s s' → type_of v = TStruct k → Q v s') → wp (scan_columns sch key vs i n ko vo prev) Q s.
Proof.
  intros Tk Tv. induction n as [|n IH]; intros i ko vo prev s Q O Hc Tp Hk Hn HQ; cbn [scan_columns seq forallb] in *.
  { by apply wp_ret, HQ. }
  apply andb_prop in Hc as [Hi Hc]. unfold scan_column_ok in Hi. destruct (schema_is_key sch i) as [key'| | | |]; try done.
  apply wp_bind. eapply wp_lift; [done|].
  destruct key'; (apply wp_bind; eapply wp_gep; [done|by rewrite ?Tk, ?Tv|by rewrite ?Tk, ?Tv|]; intros off s1 S1 T1;
    apply wp_bind, wp_bitcast; [by apply S1|by rewrite T1|done|]; intros ptr s2 S2 T2;
    apply wp_bind; eapply wp_load; [by apply S2, S1|done|]; intros rec s3 S3 T3;
    assert (S03 : same s s3) by (by repeat (etrans; [eassumption|]));
    apply wp_bind; eapply wp_insert_value; [by apply S03| |done|];
    [rewrite Tp, T3; simpl; rewrite (same_structs _ _ S03), Hk; simpl; apply lookup_replicate; split; [done|lia]|];
    intros row s4 S4 T4; apply IH; [by apply S4, S03|done|done| |lia|];
    [by rewrite (same_structs _ _ S4), (same_structs _ _ S03)|];
    intros v s5 S5 T5; apply HQ; [|done]; by repeat (etrans; [eassumption|])).
Qed.

(** The slots of a scan and what the struct of its row is. *)
Record scan_ready (s : cstate) (sch : Schema) (r : cstr) (sl : Slots) (k : nat) : Prop := {
  sr_columns : forallb (scan_column_ok sch) (seq 0 (columns sch)) = true;
  sr_type : type_table_ s !! r = Some (TStruct k);
  sr_struct : ∃ nm, struct_types s !! k = Some (nm, replicate (columns sch) i64);
  sr_key : ∃ n, type_of (key_stack_ sl) = TPtr (TArray i8 n);
  sr_value : ∃ n, type_of (value_stack_ sl) = TPtr (TArray i8 n);
  sr_tuple : type_of (tuple_stack_ sl) = TPtr (TStruct k);
}.

Lemma scan_row_ok s s0 sch r sl k cursor (Q : unit → cstate → Prop) :
  scan_ready s0 sch r sl k → same s0 s → knows C s → type_of cursor = i64ptr →
  (∀ s', same s s' → Q tt s') → wp (scan_row sch (TStruct k) sl cursor) Q s.
Proof.
  intros [Hcol _ (nm & Hk) (a & Tk) (b & Tv) Tt] S0 K Tc HQ. unfold scan_row.
  apply wp_bind, wp_bitcast; [apply K|by rewrite Tk|done|]. intros key s1 S1 T1. pose proof (knows_same _ _ _ S1 K) as K1.
  apply wp_bind, wp_bind. eapply wp_call_table; [done|vm_compute; reflexivity|cbn; by rewrite Tc, T1|]. intros u1 s2 S2 K2 _.
  apply wp_ret, wp_bind, wp_bitcast; [apply K2|by rewrite Tv|done|]. intros value s3 S3 T3. pose proof (knows_same _ _ _ S3 K2) as K3.
  apply wp_bind, wp_bind. eapply wp_call_table; [done|vm_compute; reflexivity|cbn; by rewrite Tc, T3|]. intros u2 s4 S4 K4 _.
  assert (S04 : same s0 s4) by by repeat (etrans; [eassumption|]).
  apply wp_ret, wp_bind. eapply (scan_columns_ok _ _ _ _ k); [done|done|apply K4|done|done| |reflexivity|].
  { by rewrite (same_structs _ _ S04). }
  intros row s5 S5 T5. apply wp_store; [by apply S5, K4|by rewrite Tt, T5|]. intros s6 S6. apply HQ.
  by repeat (etrans; [eassumption|]).
Qed.

Lemma scan_loop_ok loop s s0 sch r sl k cursor blk (Q : unit → cstate → Prop) :
  scan_ready s0 sch r sl k → same s0 s → knows C s → (loop = true → loop_ s ≠ []) → type_of cursor = i64ptr →
  codes loop blk → (∀ s', same s s' → Q tt s') →
  wp (scan_loop sch (type_table_ s0 !! r) sl cursor blk) Q s.
Proof.
  intros R S0 K Hl Tc Hblk HQ. unfold scan_loop.
  apply wp_bind, wp_block. intros check s1 S1. apply wp_bind, wp_block. intros begin s2 S2.
  apply wp_bind, wp_block. intros fin s3 S3. assert (S03 : same s s3) by by repeat (etrans; [eassumption|]).
  pose proof (knows_same _ _ _ S03 K) as K3. apply wp_bind, wp_br; [apply K3|]. intros s4 S4.
  apply wp_bind, wp_insert_point. intros s5 S5 O5.
  assert (K5 : knows C s5) by (eapply knows_same, K3; by etrans).
  apply wp_bind. eapply wp_call_table; [done|vm_compute; reflexivity|cbn; by rewrite Tc|]. intros valid s6 S6 K6 T6.
  apply wp_bind, wp_icmp; [apply K6|by rewrite T6|by rewrite T6|]. intros cond s7 S7 T7. pose proof (knows_same _ _ _ S7 K6) as K7.
  apply wp_bind, wp_condbr; [apply K7|done|]. intros s8 S8. apply wp_bind, wp_insert_point. intros s9 S9 O9.
  assert (S79 : same s7 s9) by by etrans. pose proof (knows_same _ _ _ S79 K7) as K9.
  assert (S9' : same s s9) by by repeat (etrans; [eassumption|]).
  apply wp_bind. eapply wp_not_null; [by apply R|]. apply wp_bind.
  eapply scan_row_ok; [exact R|by etrans|done|done|]. intros s10 S10. pose proof (knows_same _ _ _ S10 K9) as K10.
  assert (S10' : same s s10) by by etrans.
  apply wp_bind, Hblk; [done|by rewrite (same_loop _ _ S10')|]. intros s11 S11. pose proof (knows_same _ _ _ S11 K10) as K11.
  apply wp_bind. eapply wp_call_table; [done|vm_compute; reflexivity|cbn; by rewrite Tc|]. intros nx s12 S12 K12 _.
  apply wp_bind, wp_br; [apply K12|]. intros s13 S13. apply wp_bind, wp_insert_point. intros s14 S14 O14.
  assert (K14 : knows C s14) by (eapply knows_same, K12; by etrans).
  apply wp_bind. eapply wp_call_table; [done|vm_compute; reflexivity|cbn; by rewrite Tc|]. intros d s15 S15 _ _.
  apply wp_ret, HQ. by repeat (etrans; [eassumption|]).
Qed.

Lemma codes_scan loop C0 C' sp t r blk :
  check_scan C0 sp t r = Some C' → extends_claims C' C → codes loop blk → codes loop (codegen_scan sp t r blk).
Proof.
  intros H HC Hblk s Q K Hl HQ. apply check_scan_inv in H as (sch & C1 & pe & Hsch & _ & He & _ & _ & Hcol & Hr & Hc).
  apply claim_row_extends in Hr as [HC1 _]. apply claim_slots_extends in Hc as [HC2 Hx].
  apply (lookup_weaken _ (c_tables C)) in Hsch; [|apply e_tables; etrans; [done|by etrans]].
  apply (lookup_weaken _ (c_slots C)) in Hx; [|by apply HC].
  pose proof (k_slots _ _ K sp) as Hsl. rewrite Hx in Hsl.
  destruct Hsl as (sl & Hsl & [Tp Te (a & Tk) (b & Tv) (t' & [Ht Hst] & Tt)]). destruct (Te eq_refl) as (e & He' & Tee).
  destruct Hst as (k & nm & -> & Hk). unfold codegen_scan. apply wp_bind, wp_gets, wp_bind.
  eapply wp_not_null; [by eapply k_tables|]. apply wp_bind. eapply wp_lift; [done|]. apply wp_bind, wp_gets.
  apply wp_bind. unfold node_slots. apply wp_bind, wp_gets. eapply wp_not_null; [exact Hsl|].
  apply wp_bind. eapply wp_not_null; [done|]. apply wp_bind.
  eapply wp_call_table; [done|vm_compute; reflexivity|cbn; by rewrite Tp, Tee|]. intros cursor s1 S1 K1 Tc.
  eapply scan_loop_ok; [|exact S1|done|by rewrite (same_loop _ _ S1)|done|done|].
  - split; eauto.
  - intros s2 S2. apply HQ. by etrans.
Qed.

(** *** Conditions and loops *)

Lemma codes_if loop sp c τ m1 m2 :
  check_expr ann C sp 0 c = Some τ → conditional τ = true → codes loop m1 → codes loop m2 →
  codes loop (codegen_if ann sp c m1 m2).
Proof.
  intros Hτ Hc H1 H2 s Q K Hl HQ. unfold codegen_if.
  apply wp_bind, wp_block. intros bt s1 S1. apply wp_bind, wp_block. intros bf s2 S2. apply wp_bind, wp_block. intros fin s3 S3.
  assert (S03 : same s s3) by by repeat (etrans; [eassumption|]). pose proof (knows_same _ _ _ S03 K) as K3.
  apply wp_bind. eapply wp_value; [done..|by eapply ready_other; [apply check_expr_inv in Hτ as [Hτ _]; exact Hτ|intros n ->]|].
  intros v s4 S4 K4 V. apply wp_bind, wp_to_i1; [apply K4|by eapply valued_conditional|]. intros w s5 S5 T5.
  pose proof (knows_same _ _ _ S5 K4) as K5. apply wp_bind, wp_condbr; [apply K5|done|]. intros s6 S6.
  apply wp_bind, wp_insert_point. intros s7 S7 O7. assert (S07 : same s s7) by by repeat (etrans; [eassumption|]).
  apply wp_bind, H1; [by eapply knows_same|by rewrite (same_loop _ _ S07)|]. intros s8 S8.
  pose proof (same_block _ _ S8 O7) as O8. apply wp_bind, wp_br; [done|]. intros s9 S9.
  apply wp_bind, wp_insert_point. intros s10 S10 O10. assert (S010 : same s s10) by by repeat (etrans; [eassumption|]).
  apply wp_bind, H2; [by eapply knows_same|by rewrite (same_loop _ _ S010)|]. intros s11 S11.
  pose proof (same_block _ _ S11 O10) as O11. apply wp_bind, wp_br; [done|]. intros s12 S12.
  apply wp_insert_point. intros s13 S13 _. apply HQ. by repeat (etrans; [eassumption|]).
Qed.

(** Only the loops around change. *)
Lemma knows_loop s ls : knows C s → knows C (set_loop s ls).
Proof. intros K. apply (knows_kept C s); [by apply grown_same|done|done|by eapply known_types_same, K|done]. Qed.

Lemma codes_for loop sp init c e blk τ :
  codes loop init → check_expr ann C sp 0 c = Some CBit → check_expr ann C sp 1 e = Some τ →
  is_row_literal e = false → codes true blk → codes loop (codegen_for ann sp init (Some c) (Some e) blk).
Proof.
  intros Hi Hc He Hr Hblk s Q K Hl HQ. unfold codegen_for. apply wp_bind, Hi; [done..|]. intros s1 S1.
  apply wp_bind, wp_block. intros bb s2 S2. apply wp_bind, wp_block. intros bo s3 S3.
  apply wp_bind, wp_block. intros be s4 S4. apply wp_bind, wp_block. intros bf s5 S5.
  assert (S05 : same s s5) by by repeat (etrans; [eassumption|]). pose proof (knows_same _ _ _ S05 K) as K5.
  apply wp_bind, wp_modify. set (s6 := set_loop s5 _). assert (K6 : knows C s6) by by apply knows_loop.
  apply wp_bind, wp_br; [apply K6|]. intros s7 S7. apply wp_bind, wp_insert_point. intros s8 S8 O8.
  assert (S68 : same s6 s8) by by etrans. pose proof (knows_same _ _ _ S68 K6) as K8.
  apply wp_bind, wp_bind. eapply wp_value; [done..|by eapply ready_other; [apply check_expr_inv in Hc as [Hc _]; exact Hc|]|].
  intros v s9 S9 K9 V. apply wp_condbr; [apply K9|done|]. intros s10 S10.
  apply wp_bind, wp_insert_point. intros s11 S11 O11. assert (S611 : same s6 s11) by by repeat (etrans; [eassumption|]).
  apply wp_bind, Hblk; [by eapply knows_same|by rewrite (same_loop _ _ S611)|]. intros s12 S12.
  apply wp_bind, wp_br; [by apply S12|]. intros s13 S13. apply wp_bind, wp_insert_point. intros s14 S14 O14.
  assert (S614 : same s6 s14) by by repeat (etrans; [eassumption|]). pose proof (knows_same _ _ _ S614 K6) as K14.
  apply wp_bind, wp_bind. eapply wp_value; [done..|by destruct e|]. intros w s15 S15 K15 _. apply wp_ret.
  apply wp_bind, wp_br; [apply K15|]. intros s16 S16. apply wp_bind, wp_insert_point. intros s17 S17 O17.
  assert (S617 : same s6 s17) by by repeat (etrans; [eassumption|]).
  unfold exit_loop_ctx, wp. rewrite (same_loop _ _ S617). apply HQ. etrans; [exact S05|]. destruct S617. by split.
Qed.

(** *** All statements *)

Lemma codes_block mk sp l :
  Forall (λ s, ∀ loop C0 C' sp, checks ann loop C0 s sp = Some C' → extends_claims C' C → codes loop (codegen ann s sp)) l →
  ∀ loop i C0 C', check_block (checks ann loop) mk sp i l C0 = Some C' → extends_claims C' C →
  codes loop (codegen_statements (codegen ann) mk sp i l).
Proof.
  induction 1 as [|s l Hs _ IH]; intros loop i C0 C' Hc HC; cbn [check_block codegen_statements] in *; [apply codes_ret|].
  apply bind_Some in Hc as (C1 & H1 & Hc). apply codes_seq; [|by eapply IH]. eapply Hs; [done|].
  etrans; [|exact HC]. eapply check_block_extends; [|exact Hc]. apply Forall_true. intros s'. apply checks_extends.
Qed.

Lemma block_extends loop mk sp i l C0 C' : check_block (checks ann loop) mk sp i l C0 = Some C' → extends_claims C0 C'.
Proof. apply check_block_extends, Forall_true. intros s'. apply checks_extends. Qed.

Lemma codes_init loop C0 C' sp i :
  check_init ann C0 sp i = Some C' → extends_claims C' C → codes loop (codegen ann i sp).
Proof.
  destruct i; try done; cbn [check_init codegen]; intros (C1 & H1 & H2)%bind_Some HC.
  - by eapply codes_let.
  - by eapply codes_expr.
Qed.

Lemma statements_code s : ∀ loop C0 C' sp, checks ann loop C0 s sp = Some C' → extends_claims C' C →
  codes loop (codegen ann s sp).
Proof.
  induction s as [l Hl|i l Hl|d n|i c e l Hi Hl|t|e|t e|t r l Hl|n e t|n t|c t f Ht Hf|e]
    using Statement_rect'; intros loop C0 C' sp H HC; cbn [Checker.checks] in H; cbn [codegen].
  - by eapply codes_block.
  - apply codes_seq; [apply codes_begin|]. apply codes_seq; [by eapply codes_block|apply codes_precommit].
  - apply codes_ret.
  - destruct i as [i|], c as [c|], e as [e|]; try done. apply bind_Some in H as (C1 & H1 & H).
    apply bind_Some in H as (τc & Hc & H). apply bind_Some in H as (τe & He & H). case_decide as Hd; [|done].
    destruct Hd as [-> Hd]. pose proof (block_extends _ _ _ _ _ _ _ H) as HC1. assert (HC1' : extends_claims C1 C) by by etrans.
    eapply codes_for; [by eapply codes_init|by eapply check_expr_mono|by eapply check_expr_mono|done|by eapply codes_block].
  - destruct loop; [apply codes_jump|done].
  - by eapply codes_emit.
  - by eapply codes_insert.
  - apply bind_Some in H as (C1 & H1 & H). pose proof (block_extends _ _ _ _ _ _ _ H) as HC1.
    eapply codes_scan; [done|by etrans|by eapply codes_block].
  - by eapply codes_let.
  - apply codes_ret.
  - apply bind_Some in H as (τ & Hτ & H). destruct (conditional τ) eqn:Hc; [|done]. apply bind_Some in H as (C1 & H1 & H).
    assert (HC1 : extends_claims C1 C).
    { destruct f as [f|]; [|by injection H as <-]. apply block_extends in H. by etrans. }
    pose proof (block_extends _ _ _ _ _ _ _ H1) as HC0.
    eapply codes_if; [eapply check_expr_mono; [|exact Hτ]; by etrans|done|by eapply codes_block|].
    destruct f as [f|]; [|apply codes_ret]. eapply codes_block; [|done..]. by apply Hf.
  - by eapply codes_expr.
Qed.
End code.

(** ** Whole programs *)

Section accepted.
Context `{L : LLVM} `{LT : !LLVMTyping} `{PL : !PrintLaws}.

(** The context at the start of a program's code knows nothing of the program. *)
Lemma entry_known s : struct_types s = struct_types ready_state → type_table_ s = type_table_ ready_state →
  tables s = tables ready_state → open s → knows claims_none s.
Proof.
  unfold tables. intros Es Et Htb O. injection Htb as Hf Hv Hs Hl Hg Hsc.
  split; rewrite ?Hf, ?Hv, ?Hs, ?Hl, ?Hg, ?Hsc; try done.
  change (type_table_ ready_state) with ({[lit "string" := TStruct 0]} : gmap cstr ltype) in Et.
  change (struct_types ready_state) with [(lit "string_type", [i8ptr; i64])] in Es.
  split; rewrite ?Es, ?Et.
  - apply lookup_singleton_eq.
  - intros n. rewrite lookup_singleton_ne by done. done.
  - intros x [t Hx]. apply lookup_singleton_Some in Hx as [<- _]. by left.
  - repeat constructor. simpl. lia.
Qed.

#[local] Strategy 1000 [init_types init_functions walk codegen annotate analyze_block create_block insert_instr context_new].

(** Compilation of a program from what its parts do in the context of the start. *)
Lemma compile_run show_double l s0 st s1 s2 created s3 s4 w s' :
  context_ready = Ok s0 →
  analyze_block show_double l ctx_new = Ok st → create_block "entry_jit" s0 = Ok (0, s1) →
  SetInsertPoint 0 s1 = Ok (tt, s2) →
  walk (alloca_stack (annotate show_double l ctx_new)) (Block l) [] s2 = Ok (created, s3) →
  codegen (annotate show_double l ctx_new) (Block l) [] s3 = Ok (tt, s4) →
  insert_instr (IRet (CInt 1 1)) s4 = Ok (w, s') →
  compile_new show_double l = Ok (created, s').
Proof.
  intros Hr Ha E1 E2 E3 E4 E5. unfold context_ready in Hr.
  apply bind_Ok_inv in Hr as (sc & Hc & Hr). apply bind_Ok_inv in Hr as ([u sr] & Hi & Hr). injection Hr as ->.
  apply cg_bind_Ok in Hi as (ui & si & Hi1 & Hi2). unfold compile_new. rewrite Hc.
  change (compile show_double l sc = Ok (created, s')). unfold compile. apply cg_bind_Ok. exists ui, si. split; [exact Hi1|].
  apply cg_bind_Ok. exists u, s0. split; [exact Hi2|].
  apply cg_bind_Ok. exists st, s0. split; [unfold cg_lift; by rewrite Ha|].
  apply cg_bind_Ok. exists 0, s1. split; [exact E1|]. apply cg_bind_Ok. exists tt, s2. split; [exact E2|].
  apply cg_bind_Ok. exists created, s3. split; [exact E3|]. apply cg_bind_Ok. exists tt, s4. split; [exact E4|].
  apply cg_bind_Ok. exists tt, s'. split; [|reflexivity]. unfold CreateRet. apply cg_bind_Ok. exists w, s'. split; [exact E5|reflexivity].
Qed.

Lemma accepted_ends show_double l : accepted show_double l = true →
  ∃ created s', compile_new show_double l = Ok (created, s') ∧ small_structs (struct_types s').
Proof.
  unfold accepted. intros [Ha [C Hc]%bool_decide_eq_true]%andb_prop.
  destruct (analyze_block show_double l ctx_new) as [st| | | |] eqn:Ea; try done. clear Ha.
  set (ann := annotate show_double l ctx_new) in *.
  set (s1 := set_blocks ready_state (blocks ready_state ++ [(lit "entry_jit", [])])). set (s2 := set_insert s1 0).
  assert (K2 : knows claims_none s2) by (apply entry_known; [done..|by exists 0]).
  pose proof (statements_reserve ann (Block l) false claims_none C [] s2 Hc K2) as Hw.
  cbn [alloca_stack] in Hw. unfold wp in Hw. cbn [mret cg_ret] in Hw.
  destruct (walk (alloca_stack ann) (Block l) [] s2) as [[created s3]| | | |] eqn:E3; try done.
  assert (Hcg : wp (codegen ann (Block l) []) (λ _ s', same s3 s') s3).
  { apply (statements_code ann C (Block l) false claims_none C [] Hc); [reflexivity|done..]. }
  unfold wp in Hcg. destruct (codegen ann (Block l) [] s3) as [[[] s4]| | | |] eqn:E4; try done.
  assert (Hret : wp (insert_instr (IRet (CInt 1 1))) (λ _ s', same s4 s') s4).
  { apply wp_insert; [by apply Hcg, Hw|by intros v s' S _]. }
  unfold wp in Hret. destruct (insert_instr (IRet (CInt 1 1)) s4) as [[w s']| | | |] eqn:E5; try done.
  exists created, s'. split; [by eapply (compile_run show_double l ready_state st s1 s2); [apply context_ready_ok|..]|].
  rewrite (same_structs _ _ Hret), (same_structs _ _ Hcg). apply (k_types _ _ Hw).
Qed.

(** C2: what the checker accepts compiles.  When a program passes the semantic analysis and the
    checker, its compilation throws nothing, fails no assertion of LLVM or of the compiler and
    follows no null pointer: it ends with the module, whose structs are small enough for the
    indices of 32 bits. *)
Theorem accepted_compiles show_double l : accepted show_double l = true →
  ∃ created s', compile_new show_double l = Ok (created, s') ∧ small_structs (struct_types s').
Proof. apply accepted_ends. Qed.
End accepted.

(** *** A program *)

Lemma accepted_compiles_witness : ∃ created s', compile_new no_doubles sample_program = Ok (created, s') ∧
  small_structs (struct_types s').
Proof. apply (accepted_compiles no_doubles sample_program). vm_compute. reflexivity. Defined.
