(* ===== verification/WellDeclared.v ===== *)
(** * WellDeclared: the declarations of an accepted program

    The maps of [CompilerContext] keep one entry per table, per row variable and per node.  The
    checker claims each of them once, so the declarations of a program it accepts do not get in each
    other's way; with Accepted.v and Execute.v: an accepted program that the reference semantics runs
    to its end is compiled and run to its end, with nothing assumed of the compiler. *)

From Stdlib Require Import ZArith NArith Ascii String Lia.
From stdpp Require Import base option list strings gmap.
From S2P Require Import Prelude Value Attr Schema Ast Visit Analyze LLVM CodegenExpr Layout.
From S2P Require Import CodegenStmt Compile Declare Machine Runtime Concrete Semantics Faithful Prepare.
From S2P Require Import CompileCorrect Execute Checker Accepted.

(** ** Declarations and claims *)

(** The tables, row variables and nodes declared are those claimed. *)
Record agree (C : claims) (D : decls) : Prop := {
  a_tables : d_tables D = c_tables C;
  a_rows r : r ∈ c_rows C ↔ is_Some (d_rows D !! r);
  a_nodes sp : is_Some (c_slots C !! sp) ↔ is_Some (d_nodes D !! sp);
}.

(** Nothing declared is declared again. *)
Record more (D D' : decls) : Prop := {
  m_tables : d_tables D ⊆ d_tables D';
  m_rows : d_rows D ⊆ d_rows D';
  m_nodes : d_nodes D ⊆ d_nodes D';
}.

#[export] Instance more_preorder : PreOrder more.
Proof. split; [by split|]. intros D1 D2 D3 [] []. split; by etrans. Qed.

Lemma claim_insert {K A : Type} `{Countable K, EqDecision A} (m m' : gmap K A) k a :
  claim m k a = Some m' → m' = <[k := a]> m.
Proof.
  unfold claim. destruct (m !! k) as [b|] eqn:E; [|by intros [= <-]].
  case_decide; [|done]. intros [= <-]. subst. by rewrite insert_id.
Qed.

(** Claims of variables and nodes declare nothing. *)
Definition declares_nothing (C C' : claims) : Prop :=
  c_tables C' = c_tables C ∧ c_rows C' = c_rows C ∧ c_slots C' = c_slots C.

#[export] Instance declares_nothing_preorder : PreOrder declares_nothing.
Proof. split; [by split|]. intros C1 C2 C3 (? & ? & ?) (? & ? & ?). split_and!; congruence. Qed.

Lemma agree_nothing C C' D : declares_nothing C C' → agree C D → agree C' D.
Proof. intros (Ht & Hr & Hs) []. split; rewrite ?Ht, ?Hr, ?Hs; auto. Qed.

Lemma claim_var_nothing C x τ C' : claim_var C x τ = Some C' → declares_nothing C C'.
Proof. unfold claim_var. by intros (m & _ & [= <-])%bind_Some. Qed.
Lemma claim_node_nothing C n τ C' : claim_node C n τ = Some C' → declares_nothing C C'.
Proof. unfold claim_node. by intros (m & _ & [= <-])%bind_Some. Qed.

Section declare.
Context (ann : annotations).
Abbreviation checks := (checks ann).
Abbreviation collect := (collect ann).

Lemma check_let_nothing C sp x e C' : check_let ann C sp x e = Some C' → declares_nothing C C'.
Proof. intros (τ & _ & _ & _ & H)%check_let_inv. by eapply claim_var_nothing. Qed.

Lemma claim_values_nothing sp v : ∀ C C', claim_values ann C sp v = Some C' → declares_nothing C C'.
Proof.
  induction v as [|[p e] v IH]; intros C C' Hv; cbn [claim_values] in Hv; [by injection Hv as <-|].
  apply bind_Some in Hv as (τ & _ & Hv). destruct (small_type τ); [|done]. apply bind_Some in Hv as (C1 & H1 & Hv).
  etrans; [|by apply IH]. destruct (structural τ); [by eapply claim_node_nothing|by injection H1 as <-].
Qed.

Lemma check_statement_expr_nothing C sp e C' :
  check_statement_expr ann C sp e = Some C' → declares_nothing C C'.
Proof.
  unfold check_statement_expr. intros (τ & _ & Hv)%bind_Some. destruct (small_type τ); [|done].
  apply bind_Some in Hv as (C1 & H1 & Hv). destruct (each_value_at [0] e) as [v| | | |]; try done.
  apply bind_Some in Hv as (C2 & H2 & Hv). apply bind_Some in Hv as (_ & _ & [= <-]).
  etrans; [|by eapply claim_values_nothing].
  destruct (structural τ); [by eapply claim_node_nothing|by injection H1 as <-].
Qed.

(** The initialisation of a [for] is a statement that declares nothing. *)
Lemma check_init_nothing C sp i C' : check_init ann C sp i = Some C' →
  declares_nothing C C' ∧ ∀ (q : list pstep) D, collect i q D = D.
Proof.
  destruct i; try done; cbn [check_init]; intros (C1 & H1 & H2)%bind_Some; (split; [|done]).
  - etrans; by eapply check_let_nothing.
  - etrans; by eapply check_statement_expr_nothing.
Qed.

(** *** Collecting *)

Lemma agree_define C C' D t sch :
  claim_table C t sch = Some C' → agree C D →
  agree C' (mk_decls (<[t := sch]> (d_tables D)) (d_rows D) (d_nodes D)) ∧
  more D (mk_decls (<[t := sch]> (d_tables D)) (d_rows D) (d_nodes D)).
Proof.
  unfold claim_table. intros (m & Hm & [= <-])%bind_Some [At Ar An]. pose proof (claim_spec _ _ _ _ Hm) as (Hsub & _).
  apply claim_insert in Hm as ->. split; split; simpl; try done; by rewrite At.
Qed.

Lemma agree_node C C' D sp b τ n :
  claim_slots C sp b τ = Some C' → agree C D →
  agree C' (mk_decls (d_tables D) (d_rows D) (<[sp := n]> (d_nodes D))) ∧
  more D (mk_decls (d_tables D) (d_rows D) (<[sp := n]> (d_nodes D))).
Proof.
  unfold claim_slots. destruct (c_slots C !! sp) eqn:E; [done|]. intros [= <-] [At Ar An].
  assert (Hn : d_nodes D !! sp = None).
  { apply eq_None_not_Some. intros H%An. rewrite E in H. by destruct H. }
  split; split; simpl; try done; [|by apply insert_subseteq].
  intros sp'. destruct (decide (sp' = sp)) as [->|Hne]; [by rewrite !lookup_insert_eq|by rewrite !lookup_insert_ne].
Qed.

Lemma agree_row C C' D r n sp :
  claim_row C r n = Some C' → agree C D →
  agree C' (mk_decls (d_tables D) (<[r := sp]> (d_rows D)) (d_nodes D)) ∧
  more D (mk_decls (d_tables D) (<[r := sp]> (d_rows D)) (d_nodes D)).
Proof.
  unfold claim_row. case_decide as Hd; [|done]. destruct Hd as (_ & Hr & _). intros [= <-] [At Ar An].
  assert (Hn : d_rows D !! r = None) by (apply eq_None_not_Some; by intros H%Ar).
  split; split; simpl; try done; [|by apply insert_subseteq].
  intros r'. destruct (decide (r' = r)) as [->|Hne]; [rewrite lookup_insert_eq; set_solver|].
  rewrite lookup_insert_ne by done. rewrite <- Ar. set_solver.
Qed.

(** What a checked statement declares is claimed for the first time, and stays. *)
Definition collects (s : Statement) : Prop := ∀ loop C C' sp D,
  checks loop C s sp = Some C' → agree C D → agree C' (collect s sp D) ∧ more D (collect s sp D).

Lemma block_collects mk sp l : Forall collects l → ∀ loop i C C' D,
  check_block (checks loop) mk sp i l C = Some C' → agree C D →
  agree C' (collect_statements collect mk sp i l D) ∧ more D (collect_statements collect mk sp i l D).
Proof.
  induction 1 as [|s l Hs _ IH]; intros loop i C C' D H A; cbn [check_block collect_statements] in *; [by injection H as <-|].
  apply bind_Some in H as (C1 & H1 & H). destruct (Hs _ _ _ _ _ H1 A) as [A1 M1].
  destruct (IH _ _ _ _ _ H A1) as [A2 M2]. split; [done|by etrans].
Qed.

Lemma statements_collect s : collects s.
Proof.
  induction s as [l Hl|i l Hl|d n|i c e l Hi Hl|t|e|t e|t r l Hl|n e t|n t|c t f Ht Hf|e]
    using Statement_rect'; intros loop C C' sp D H A; cbn [Checker.checks] in H; cbn [Declare.collect].
  - by eapply block_collects.
  - by eapply block_collects.
  - unfold check_define in H. apply bind_Some in H as (sch & -> & H). by eapply agree_define.
  - destruct i as [i|], c as [c|], e as [e|]; try done. apply bind_Some in H as (C1 & H1 & H).
    apply bind_Some in H as (τc & _ & H). apply bind_Some in H as (τe & _ & H). case_decide; [|done].
    apply check_init_nothing in H1 as (Hn & ->). eapply block_collects; [done..|]. by eapply agree_nothing.
  - destruct loop; [|done]. by injection H as <-.
  - apply check_emit_inv in H as (τ & n & _ & _ & H). split; [|done]. eapply agree_nothing, A. by eapply claim_node_nothing.
  - apply check_insert_inv in H as (? & ? & ? & _ & _ & _ & _ & _ & H). by eapply agree_node.
  - apply bind_Some in H as (C1 & H1 & H). apply check_scan_inv in H1 as (sch & C0 & ? & _ & _ & _ & _ & _ & _ & H1 & H2).
    destruct (agree_row _ _ _ _ _ sp H1 A) as [A1 M1]. destruct (agree_node _ _ _ _ _ _ (t, Some r) H2 A1) as [A2 M2].
    destruct (block_collects In_body sp l Hl _ _ _ _ _ H A2) as [A3 M3]. split; [exact A3|]. etrans; [exact M1|]. by etrans.
  - split; [|done]. eapply agree_nothing, A. by eapply check_let_nothing.
  - by injection H as <-.
  - apply bind_Some in H as (τ & _ & H). destruct (conditional τ); [|done]. apply bind_Some in H as (C1 & H1 & H).
    destruct (block_collects In_body sp t Ht _ _ _ _ _ H1 A) as [A1 M1]. destruct f as [f|]; [|injection H as <-; done].
    destruct (block_collects In_else sp f (Hf f eq_refl) _ _ _ _ _ H A1) as [A2 M2]. split; [done|by etrans].
  - split; [|done]. eapply agree_nothing, A. by eapply check_statement_expr_nothing.
Qed.

(** *** Checking *)

(** What is declared and claimed in the end. *)
Context (D : decls) (C : claims) (A : agree C D).

(** A variable of the program is no row variable. *)
Lemma let_declared C0 C' sp x e : check_let ann C0 sp x e = Some C' → extends_claims C' C → d_rows D !! x = None.
Proof using A.
  intros H HC. pose proof (check_let_nothing _ _ _ _ _ H) as (_ & Hr & _).
  apply check_let_inv in H as (τ & _ & _ & Hx & H). apply claim_var_extends in H as [_ H].
  apply eq_None_not_Some. intros Hd%(a_rows _ _ A). eapply (e_fresh _ _ HC x); [by exists τ|by rewrite Hr|done].
Qed.

Definition declared (s : Statement) : Prop := ∀ loop C0 C' sp D0,
  checks loop C0 s sp = Some C' → extends_claims C' C → agree C0 D0 → more (collect s sp D0) D →
  declares ann D s sp = true.

Lemma block_declared mk sp l : Forall declared l → ∀ loop i C0 C' D0,
  check_block (checks loop) mk sp i l C0 = Some C' → extends_claims C' C → agree C0 D0 →
  more (collect_statements collect mk sp i l D0) D → check_statements (declares ann D) mk sp i l = true.
Proof.
  induction 1 as [|s l Hs _ IH]; intros loop i C0 C' D0 H HC A0 M; cbn [check_block collect_statements check_statements] in *; [done|].
  apply bind_Some in H as (C1 & H1 & H). destruct (statements_collect s _ _ _ _ _ H1 A0) as [A1 M1].
  destruct (block_collects mk sp l (Forall_true _ _ statements_collect) _ _ _ _ _ H A1) as [_ M2].
  apply andb_true_intro. split; [|by eapply IH]. eapply Hs; [done| |done|by etrans].
  etrans; [by eapply block_extends|done].
Qed.

Lemma statements_declared s : declared s.
Proof using A.
  induction s as [l Hl|i l Hl|d n|i c e l Hi Hl|t|e|t e|t r l Hl|n e t|n t|c t f Ht Hf|e]
    using Statement_rect'; intros loop C0 C' sp D0 H HC A0 M; cbn [Checker.checks] in H; cbn [Declare.collect declares] in *; try done.
  - by eapply block_declared.
  - by eapply block_declared.
  - unfold check_define in H. apply bind_Some in H as (sch & Hs & _). rewrite Hs in *. apply bool_decide_eq_true.
    eapply lookup_weaken, M. apply lookup_insert_eq.
  - destruct i as [i|], c as [c|], e as [e|]; try done. apply bind_Some in H as (C1 & H1 & H).
    apply bind_Some in H as (τc & _ & H). apply bind_Some in H as (τe & _ & H). case_decide; [|done].
    pose proof (block_extends _ _ _ _ _ _ _ _ H) as HC1. assert (HC1' : extends_claims C1 C) by by etrans.
    pose proof (check_init_nothing _ _ _ _ H1) as (Hn & Hi'). rewrite Hi' in M. apply andb_true_intro. split.
    + destruct i; try done; cbn [check_init] in H1; apply bind_Some in H1 as (C2 & _ & H1).
      apply bool_decide_eq_true. by eapply let_declared.
    + eapply block_declared; [done..|by eapply agree_nothing|done].
  - apply bool_decide_eq_true. eapply lookup_weaken, M. apply lookup_insert_eq.
  - apply bind_Some in H as (C1 & H1 & H). apply check_scan_inv in H1 as (sch & C2 & ? & _ & _ & _ & _ & _ & _ & H1 & H2).
    destruct (agree_row _ _ _ _ _ sp H1 A0) as [A1 M1]. destruct (agree_node _ _ _ _ _ _ (t, Some r) H2 A1) as [A2 M2].
    destruct (block_collects In_body sp l (Forall_true _ _ statements_collect) _ _ _ _ _ H A2) as [_ M3].
    cbn [d_tables d_rows d_nodes] in *. pose proof (transitivity M3 M) as M'. rewrite !andb_true_iff, !bool_decide_eq_true.
    split_and!; [eapply lookup_weaken, M'; apply lookup_insert_eq|eapply lookup_weaken, M'; apply lookup_insert_eq| |].
    + unfold claim_row in H1. case_decide as Hd; [|done]. apply Hd.
    + by eapply block_declared.
  - apply bool_decide_eq_true. by eapply let_declared.
  - apply bind_Some in H as (τ & _ & H). destruct (conditional τ); [|done]. apply bind_Some in H as (C1 & H1 & H).
    pose proof (Forall_true collects t statements_collect) as Ft.
    destruct (block_collects In_body sp t Ft _ _ _ _ _ H1 A0) as [A1 M1].
    destruct f as [f|]; [|injection H as <-; rewrite andb_true_r; by eapply block_declared].
    destruct (block_collects In_else sp f (Forall_true _ _ statements_collect) _ _ _ _ _ H A1) as [_ M2].
    apply andb_true_intro. split; [|by eapply block_declared; [by apply Hf|..]].
    eapply block_declared; [done..| |done|by etrans]. etrans; [by eapply block_extends|done].
Qed.
End declare.

(** ** Accepted programs run *)

Lemma accepted_declared show_double l :
  accepted show_double l = true → well_declared (notes show_double l) l = true.
Proof.
  unfold accepted, well_declared. intros [_ [C Hc]%bool_decide_eq_true]%andb_prop.
  assert (A0 : agree claims_none decls_none).
  { split; [done|..]; intros x; simpl; rewrite lookup_empty; split; try set_solver; try by intros []. }
  destruct (statements_collect (notes show_double l) (Block l) _ _ _ _ _ Hc A0) as [A _].
  by eapply (statements_declared (notes show_double l) _ C A (Block l)).
Qed.

Section runs.
Context `{L : LLVM} `{LT : !LLVMTyping} `{PL : !PrintLaws} `{T : Target} `{TL : !TargetLaws}
  `{LF : !LLVMFolds}.
Context {E C G : Type} `{FA : FoedusAPI E C} `{RG : Random G} `{RL : !RandomLaws G}.

(** An accepted program, whose statements the reference semantics covers, does what it means: it is
    compiled and run to the end that the reference gives it, when its rows can be counted. *)
Lemma accepted_runs show_double l fuel (w : World E C G) σ :
  accepted show_double l = true → forallb supported l = true →
  exec_stmt (member_of (notes show_double l)) (tables_of show_double l) fuel (Block l) [] (env_new (set_outputs w [])) = Ok σ →
  rows_fit (env_world σ) →
  ∃ created s' n rows, compile_new show_double l = Ok (created, s') ∧ emitted_rows (env_world σ) = Some rows ∧
    compile_and_exec show_double n (Some l) w = Ok (print (env_world σ) (emitted_text rows)).
Proof.
  intros Ha Hs Ee Hf. destruct (accepted_ends _ _ Ha) as (created & s' & Ec & Sm).
  destruct (compile_and_exec_ends show_double l created s' fuel w σ Ec Hs (accepted_declared _ _ Ha) Sm Ee Hf)
    as (n & rows & Hrows & Hx). eauto 10.
Qed.
End runs.
