(* ===== verification/Tables.v ===== *)
(** * Tables: what a program that fills a table and scans it prints

    Compiled inserts and scans, the engine's transactions and order of keys and the library's codec
    together: the rows a program inserts in one transaction are the rows it scans in the next, in
    the order of their keys. *)

From Stdlib Require Import ZArith NArith Ascii String Lia.
From Stdlib Require Import Sorting.Sorted.
From stdpp Require Import base option list strings gmap relations.
From S2P Require Import Prelude Slice Value Attr Schema Ast Visit StmtParser Analyze LLVM CodegenExpr.
From S2P Require Import CodegenStmt Compile Machine Runtime Concrete Layout Declare Semantics Shape Typing Simulate.
From S2P Require Import ExprCorrect StmtCorrect Faithful Prepare CompileCorrect Execute Checker Accepted.
From S2P Require Import WellDeclared Engine.

Abbreviation literal_int z := (PrimaryExpression (maybe_of_int z)).

(** [insert t {z1, z2, ...}] for every row. *)
Definition insert_all (t : cstr) (rows : list (list Z)) : list Statement :=
  (λ zs, Insert t (RowLiteral ((λ z, literal_int z) <$> zs))) <$> rows.

(** [define<d>t transaction { insert t {...} ... } transaction { scan t, x { emit x } }] *)
Definition fill_and_scan (d : TupleDecl) (t x : cstr) (rows : list (list Z)) : list Statement :=
  [ Define (Some d) t;
    Transaction (lit "SERIALIZABLE") (insert_all t rows);
    Transaction (lit "SERIALIZABLE") [Scan t x [Emit (VariableReference x)]] ].

Section tables.
Context {E C G : Type} `{FL : FoedusLaws E C} `{RG : Random G}.
Context (member : nid → option (TypeId.type_id * nat)) (tables : gmap cstr Schema).
Context (t : cstr) (attrs : list Attribute).
Abbreviation sch := (mk_schema t attrs).
Context (Ht : tables !! t = Some sch) (Hp : Forall plain_column attrs) (Hs : short_records sch).

(** A row of the table, its record and its key. *)
Definition table_row (zs : list Z) : Prop := length zs = length attrs ∧ Forall is_i64 zs.
Definition record_of (zs : list Z) : record := (key_bytes sch (cells_of zs), val_bytes sch (cells_of zs)).
Definition key_of (zs : list Z) : cstr := key_bytes sch (cells_of zs).

Lemma table_known : table_of tables t = Ok sch.
Proof. unfold table_of. rewrite Ht. simpl. by rewrite decide_True. Qed.

(** ** Inserts *)

Lemma signed64_id z : is_i64 z → signed64 z = z.
Proof. intros Hz. rewrite <- (signed64_mod z Hz) at 2. unfold signed64. by rewrite Zmod_mod. Qed.

Lemma literal_value z : is_i64 z → literal (maybe_of_int z) = Ok (VInt z).
Proof. intros Hz. transitivity (Ok (VInt (signed64 z))); [done|by rewrite signed64_id]. Qed.

Lemma literal_row ev i zs (σ : env E C G) :
  (∀ z i, is_i64 z → ev (literal_int z) i σ = Ok (VInt z, σ)) → Forall is_i64 zs →
  eval_list ev i ((λ z, literal_int z) <$> zs) σ = Ok (VInt <$> zs, σ).
Proof.
  intros Hev Hz. revert i. induction Hz as [|z zs Hz _ IH]; intros i; [done|]. cbn [fmap list_fmap eval_list].
  rewrite Hev by done. cbn [mbind result_bind]. by rewrite IH.
Qed.

Lemma mapM_ints zs : mapM int_of (VInt <$> zs) = Some zs.
Proof. by apply mapM_fmap_Some. Qed.

(** One row goes to the engine. *)
Lemma insert_step fuel sp zs (σ : env E C G) e :
  table_row zs → Runtime.insert_record (engine (env_world σ)) (record_of zs).1 (record_of zs).2 = (e, true) →
  exec_stmt member tables fuel (Insert t (RowLiteral ((λ z, literal_int z) <$> zs))) sp σ =
    Ok (set_world σ (set_engine (env_world σ) e)).
Proof.
  intros [Hl Hz] He. cbn [exec_stmt eval_expr].
  rewrite literal_row; [|intros z i Hi; cbn [eval_expr]; by rewrite literal_value|done].
  cbn [mbind result_bind]. unfold insert_row. rewrite table_known. cbn [mbind result_bind]. rewrite mapM_ints.
  cbn [of_option mbind result_bind]. rewrite decide_True by exact Hl.
  unfold foedus_insert. change (key_bytes sch (cells_of zs)) with (record_of zs).1.
  change (val_bytes sch (cells_of zs)) with (record_of zs).2. by rewrite He.
Qed.

Lemma inserts_step fuel mk sp rows : ∀ i (σ : env E C G) ws e,
  Forall table_row rows → NoDup (key_of <$> rows) → running (engine (env_world σ)) = Some ws →
  inserted (record_of <$> rows) (engine (env_world σ)) = Some e →
  exec_statements (exec_stmt member tables fuel) mk sp i (insert_all t rows) σ =
    Ok (set_world σ (set_engine (env_world σ) e)) ∧
  committed e = committed (engine (env_world σ)) ∧ running e = Some (list_to_map (record_of <$> rows) ∪ ws).
Proof.
  induction rows as [|zs rows IH]; intros i σ ws e Hr Hn Hw He; cbn [fmap list_fmap inserted] in He.
  { injection He as <-. split; [by destruct σ as [? []]|]. rewrite Hw. simpl. by rewrite (left_id_L ∅ (∪)). }
  apply Forall_cons in Hr as [Hz Hr]. rewrite fmap_cons in Hn. apply NoDup_cons in Hn as [Hni Hn].
  apply bind_Some in He as (e1 & E1%succeeded_Some & He). destruct (insert_law _ _ _ _ _ Hw E1) as [C1 R1].
  destruct (IH (S i) (set_world σ (set_engine (env_world σ) e1)) _ e Hr Hn R1 He) as (E2 & C2 & R2). split_and!.
  - unfold insert_all. rewrite fmap_cons. cbn [exec_statements]. by rewrite (insert_step _ _ _ _ e1 Hz E1).
  - by rewrite C2, <- C1.
  - rewrite R2. simpl. rewrite <- insert_union_r; [by rewrite insert_union_l|].
    apply not_elem_of_list_to_map_1. intros Hin. apply Hni. apply list_elem_of_fmap in Hin as (r & Heq & Hin).
    apply list_elem_of_fmap in Hin as (zs' & -> & Hin). change (key_of zs = key_of zs') in Heq. rewrite Heq.
    by apply (list_elem_of_fmap_2 key_of).
Qed.

(** ** The scan *)

Lemma read_own_record zs : table_row zs → read_record sch (record_of zs).1 (record_of zs).2 = Ok zs.
Proof.
  intros [Hl Hz]. destruct (plain_lengths sch zs Hp Hl) as [Lk Lv]. unfold read_record. rewrite Lk, Lv.
  cbn [mbind result_bind record_of fst snd]. rewrite decide_True by lia.
  pose proof (read_columns_cells sch [] attrs zs (get_prefix sch) [] [] [] 0 _ 0 eq_refl Hp Hl Hz eq_refl eq_refl eq_refl) as Hr.
  rewrite !app_nil_r in Hr. exact Hr.
Qed.

(** The loop of a scan whose body emits the row. *)
Lemma scan_rows x n body rows : Forall table_row rows →
  (∀ zs (σ : env E C G), body (set_var σ x (VRow (VInt <$> zs))) =
     Ok (set_world (set_var σ x (VRow (VInt <$> zs))) (emit (MByte <$> row_bytes zs) (env_world σ)))) →
  ∀ fuel c (σ : env E C G) e, cursors (env_world σ) !! n = Some (Some c) →
  at_records (engine (env_world σ)) c (record_of <$> rows) → length rows < fuel →
  passed (length rows) (engine (env_world σ)) c = Some e →
  ∃ σ', exec_scan sch x n body fuel σ = Ok σ' ∧ engine (env_world σ') = e ∧
    committed e = committed (engine (env_world σ)) ∧ running e = running (engine (env_world σ)) ∧
    stdout (env_world σ') = stdout (env_world σ) ∧
    outputs_ (env_world σ') = outputs_ (env_world σ) ++ ((λ zs, MByte <$> row_bytes zs) <$> rows).
Proof.
  intros Hr Hb. induction Hr as [|zs rows Hz _ IH]; intros fuel c σ e Hc Hat Hf Hpa; destruct fuel as [|fuel]; try (simpl in Hf; lia).
  - injection Hpa as <-. cbn [exec_scan]. unfold foedus_cursor_is_valid, get_cursor. rewrite Hc. cbn [mbind result_bind].
    rewrite (valid_law _ _ _ Hat), bool_decide_false by auto. unfold foedus_cursor_destroy, get_cursor. rewrite Hc.
    cbn [mbind result_bind]. eexists. split; [done|]. split_and!; [done..|]. simpl. by rewrite app_nil_r.
  - cbn [exec_scan]. unfold foedus_cursor_is_valid, foedus_cursor_copy_key, foedus_cursor_copy_value, get_cursor.
    rewrite Hc. cbn [mbind result_bind]. rewrite (valid_law _ _ _ Hat), bool_decide_true by done.
    destruct (copy_law _ _ _ _ Hat) as [-> ->]. rewrite read_own_record by done. cbn [mbind result_bind]. rewrite Hb.
    cbn [mbind result_bind]. unfold foedus_cursor_next, get_cursor. simpl. rewrite Hc. cbn [mbind result_bind].
    cbn [length passed] in Hpa. destruct (cursor_next _ _) as [[e1 c1] []] eqn:Hnx; [|done].
    destruct (next_law _ _ _ _ _ _ Hat Hnx) as (C1 & R1 & A1).
    set (w := set_cursors _ _). apply lookup_lt_Some in Hc.
    destruct (IH fuel c1 (set_world (set_var σ x (VRow (VInt <$> zs))) w) e) as (σ' & He & Hen & C2 & R2 & Hst & Ho).
    + simpl. by rewrite list_lookup_insert_eq.
    + exact A1.
    + simpl in Hf. lia.
    + exact Hpa.
    + exists σ'. split; [exact He|]. rewrite C2, R2, Hst, Ho. split_and!; [done..|]. simpl. by rewrite <- app_assoc.
Qed.

Lemma emit_body fuel sp x zs (σ : env E C G) :
  exec_statements (exec_stmt member tables fuel) In_body sp 0 [Emit (VariableReference x)] (set_var σ x (VRow (VInt <$> zs))) =
  Ok (set_world (set_var σ x (VRow (VInt <$> zs))) (emit (MByte <$> row_bytes zs) (env_world σ))).
Proof.
  cbn [exec_statements exec_stmt eval_expr]. unfold read_var. simpl. rewrite lookup_insert_eq. simpl.
  by rewrite mapM_ints.
Qed.

(** Its range holds these rows, in the order of their keys. *)
Lemma scan_step fuel sp x m c rows (σ : env E C G) e1 cur e2 :
  t = m ++ [c] → (Z_of_byte c < 255)%Z → Forall table_row rows → running (engine (env_world σ)) = Some ∅ →
  filter (within (get_key_prefix sch) (m ++ [next_byte c; ":"%char])) (map_to_list (committed (engine (env_world σ))))
    ≡ₚ record_of <$> rows → length rows < fuel →
  cursor_open (engine (env_world σ)) (get_key_prefix sch) (m ++ [next_byte c; ":"%char]) = (e1, cur, true) →
  passed (length rows) e1 cur = Some e2 →
  ∃ σ' rows', exec_stmt member tables fuel (Scan t x [Emit (VariableReference x)]) sp σ = Ok σ' ∧
    rows' ≡ₚ rows ∧ StronglySorted before (record_of <$> rows') ∧
    engine (env_world σ') = e2 ∧ committed e2 = committed (engine (env_world σ)) ∧ running e2 = Some ∅ ∧
    stdout (env_world σ') = stdout (env_world σ) ∧
    outputs_ (env_world σ') = outputs_ (env_world σ) ++ ((λ zs, MByte <$> row_bytes zs) <$> rows').
Proof.
  intros Hm Hc Hr Hrun Hin Hf He Hpa. cbn [exec_stmt]. rewrite table_known. cbn [mbind result_bind].
  assert (prefix_end (get_key_prefix sch) = Ok (m ++ [next_byte c; ":"%char])) as ->.
  { unfold get_key_prefix. simpl. rewrite Hm, <- app_assoc. apply prefix_end_snoc. }
  cbn [mbind result_bind]. destruct (open_law _ _ _ _ _ Hrun He) as (C1 & R1 & l & Hat & Hpd & Hso).
  unfold foedus_generate_cursor. rewrite He. rewrite Hin in Hpd.
  apply Permutation_map_inv in Hpd as (rows' & Hpd & Hperm). rewrite (Permutation_length Hperm) in Hf, Hpa.
  set (w := set_cursors _ _).
  destruct (scan_rows x (length (cursors (env_world σ))) _ rows' ltac:(by rewrite <- Hperm)
    (emit_body fuel sp x) fuel cur (set_world σ w) e2) as (σ' & Hx & Hen & C2 & R2 & Hst & Hou).
  - simpl. by rewrite list_lookup_middle.
  - rewrite Hpd in Hat. exact Hat.
  - exact Hf.
  - exact Hpa.
  - exists σ', rows'. split; [exact Hx|]. rewrite Hst, Hou, C2, R2. rewrite Hpd in Hso. simpl. by split_and!.
Qed.

(** ** Transactions *)

(** A transaction whose begin and precommit succeed. *)
Lemma transaction_step fuel sp i l (σ σ' : env E C G) e1 e2 :
  foedus_begin (engine (env_world σ)) = (e1, true) →
  exec_statements (exec_stmt member tables fuel) In_body sp 0 l
    (set_world σ (set_engine (print (env_world σ) (lit "FOEDUS transaction started " ++ endl)) e1)) = Ok σ' →
  foedus_precommit (engine (env_world σ')) = (e2, true) →
  exec_stmt member tables fuel (Transaction i l) sp σ =
    Ok (set_world σ' (print (set_engine (print (env_world σ') (lit "FOEDUS commit" ++ endl)) e2) (lit "success." ++ endl))).
Proof.
  intros Hb Hx Hpc. cbn [exec_stmt]. unfold begin_xct. cbn [engine print set_stdout]. rewrite Hb. cbn [snd].
  rewrite Hx. cbn [mbind result_bind]. unfold precommit_xct. cbn [engine print set_stdout]. by rewrite Hpc.
Qed.

(** The transaction that inserts the rows. *)
Lemma fill_step fuel sp i rows (σ : env E C G) e :
  Forall table_row rows → NoDup (key_of <$> rows) → running (engine (env_world σ)) = None →
  filled (record_of <$> rows) (engine (env_world σ)) = Some e →
  exec_stmt member tables fuel (Transaction i (insert_all t rows)) sp σ =
    Ok (set_world σ (print (set_engine (env_world σ) e) (logged []))) ∧
  committed e = list_to_map (record_of <$> rows) ∪ committed (engine (env_world σ)) ∧ running e = None.
Proof.
  intros Hr Hn Hrun He. apply bind_Some in He as (e1 & E1%succeeded_Some & He).
  apply bind_Some in He as (e2 & E2 & E3%succeeded_Some). destruct (begin_law _ _ Hrun E1) as [C1 R1].
  destruct (inserts_step fuel In_body sp rows 0
    (set_world σ (set_engine (print (env_world σ) (lit "FOEDUS transaction started " ++ endl)) e1)) _ e2 Hr Hn R1 E2) as (Ex & C2 & R2).
  destruct (precommit_law _ _ _ R2 E3) as [C3 R3]. split_and!.
  - rewrite (transaction_step _ _ _ _ _ _ _ _ E1 Ex E3). unfold logged, print. do 2 f_equal. destruct σ as [? []]. simpl.
    by rewrite <- !app_assoc.
  - rewrite C3, C2. simpl. by rewrite C1, (right_id_L ∅ (∪)).
  - exact R3.
Qed.

(** The transaction that scans them. *)
Lemma read_step fuel sp i x m c rows (σ : env E C G) e :
  t = m ++ [c] → (Z_of_byte c < 255)%Z → Forall table_row rows → running (engine (env_world σ)) = None →
  filter (within (get_key_prefix sch) (m ++ [next_byte c; ":"%char])) (map_to_list (committed (engine (env_world σ))))
    ≡ₚ record_of <$> rows → length rows < fuel →
  scanned (get_key_prefix sch) (m ++ [next_byte c; ":"%char]) (length rows) (engine (env_world σ)) = Some e →
  ∃ σ' rows', exec_stmt member tables fuel (Transaction i [Scan t x [Emit (VariableReference x)]]) sp σ = Ok σ' ∧
    rows' ≡ₚ rows ∧ StronglySorted before (record_of <$> rows') ∧
    engine (env_world σ') = e ∧ committed e = committed (engine (env_world σ)) ∧
    stdout (env_world σ') = stdout (env_world σ) ++ logged [] ∧
    outputs_ (env_world σ') = outputs_ (env_world σ) ++ ((λ zs, MByte <$> row_bytes zs) <$> rows').
Proof.
  intros Hm Hc Hr Hrun Hin Hf He. apply bind_Some in He as (e1 & E1%succeeded_Some & He).
  destruct (begin_law _ _ Hrun E1) as [C1 R1]. destruct (cursor_open _ _ _) as [[e2 cur] []] eqn:E2; [|done].
  apply bind_Some in He as (e3 & E3 & E4%succeeded_Some).
  destruct (scan_step fuel (sp ++ [In_body 0]) x m c rows
    (set_world σ (set_engine (print (env_world σ) (lit "FOEDUS transaction started " ++ endl)) e1)) e2 cur e3 Hm Hc Hr R1)
    as (σ' & rows' & Ex & Hperm & Hso & Hen & C3 & R3 & Hst & Hou).
  - simpl. by rewrite C1.
  - exact Hf.
  - exact E2.
  - exact E3.
  - subst e3. destruct (precommit_law _ _ _ R3 E4) as [C4 _]. eexists _, rows'. split_and!.
    + apply (transaction_step _ _ _ _ _ σ' e1 e); [exact E1| |exact E4]. cbn [exec_statements]. by rewrite Ex.
    + exact Hperm.
    + exact Hso.
    + done.
    + rewrite C4, C3, (left_id_L ∅ (∪)). simpl. by rewrite C1.
    + simpl. rewrite Hst. simpl. unfold logged. by rewrite <- !app_assoc.
    + simpl. by rewrite Hou.
Qed.

(** ** The program *)

Lemma keys_of_records (rows : list (list Z)) : (record_of <$> rows).*1 = key_of <$> rows.
Proof. by rewrite <- list_fmap_compose. Qed.

(** The range holds what was inserted and nothing else. *)
Lemma filled_range (m : cstr) (c : ascii) (rows : list (list Z)) (old : gmap (list ascii) (list ascii)) :
  t = m ++ [c] → (Z_of_byte c < 255)%Z → NoDup (key_of <$> rows) →
  (∀ k v, old !! k = Some v → ¬ within (get_key_prefix sch) (m ++ [next_byte c; ":"%char]) (k, v)) →
  filter (within (get_key_prefix sch) (m ++ [next_byte c; ":"%char]))
    (map_to_list (list_to_map (record_of <$> rows) ∪ old)) ≡ₚ record_of <$> rows.
Proof.
  intros Hm Hc Hn Hold. assert (Hk : NoDup (record_of <$> rows).*1) by by rewrite keys_of_records.
  assert (Hin : ∀ r, r ∈ record_of <$> rows → within (get_key_prefix sch) (m ++ [next_byte c; ":"%char]) r).
  { intros r (zs & -> & _)%list_elem_of_fmap. by apply (key_in_range sch). }
  apply NoDup_Permutation; [apply NoDup_filter, NoDup_map_to_list|by eapply NoDup_fmap_1|].
  intros [k v]. rewrite list_elem_of_filter, elem_of_map_to_list, lookup_union_Some_raw.
  rewrite <- (elem_of_list_to_map (M := gmap (list ascii))) by done. split.
  - intros [Hw [Hr|[_ Ho]]]; [done|]. by destruct (Hold _ _ Ho).
  - intros Hr. split; [|by left]. by apply Hin.
Qed.

Lemma fill_and_scan_means d x m c rows fuel (w : World E C G) e1 e2 :
  t = m ++ [c] → (Z_of_byte c < 255)%Z → Forall table_row rows → NoDup (key_of <$> rows) → running (engine w) = None →
  (∀ k v, committed (engine w) !! k = Some v → ¬ within (get_key_prefix sch) (m ++ [next_byte c; ":"%char]) (k, v)) →
  filled (record_of <$> rows) (engine w) = Some e1 →
  scanned (get_key_prefix sch) (m ++ [next_byte c; ":"%char]) (length rows) e1 = Some e2 → length rows < fuel →
  ∃ σ rows', exec_stmt member tables fuel (Block (fill_and_scan d t x rows)) [] (env_new w) = Ok σ ∧
    rows' ≡ₚ rows ∧ StronglySorted before (record_of <$> rows') ∧ engine (env_world σ) = e2 ∧
    committed e2 = list_to_map (record_of <$> rows) ∪ committed (engine w) ∧
    stdout (env_world σ) = stdout w ++ logged [] ++ logged [] ∧
    outputs_ (env_world σ) = outputs_ w ++ ((λ zs, MByte <$> row_bytes zs) <$> rows').
Proof.
  intros Hm Hc Hr Hn Hrun Hold H1 H2 Hf. unfold fill_and_scan.
  destruct (fill_step fuel [In_body 1] (lit "SERIALIZABLE") rows (env_new w) e1 Hr Hn Hrun H1) as (X1 & C1 & R1).
  destruct (read_step fuel [In_body 2] (lit "SERIALIZABLE") x m c rows
    (set_world (env_new w) (print (set_engine w e1) (logged []))) e2 Hm Hc Hr R1)
    as (σ & rows' & X2 & Hperm & Hso & Hen & C2 & Hst & Hou).
  - simpl. rewrite C1. by apply filled_range.
  - exact Hf.
  - exact H2.
  - exists σ, rows'. split_and!; [|done|done|done| | |exact Hou].
    + transitivity (σ ← exec_stmt member tables fuel (Transaction (lit "SERIALIZABLE") (insert_all t rows)) [In_body 1] (env_new w);
        σ ← exec_stmt member tables fuel (Transaction (lit "SERIALIZABLE") [Scan t x [Emit (VariableReference x)]]) [In_body 2] σ;
        Ok σ); [reflexivity|].
      rewrite X1. exact (f_equal (λ r, r ≫= λ σ, Ok σ) X2).
    + rewrite C2. exact C1.
    + rewrite Hst. simpl. by rewrite <- app_assoc.
Qed.
End tables.

(** ** What the user sees *)

Section whole.
Context `{L : LLVM} `{LT : !LLVMTyping} `{PL : !PrintLaws} `{T : Target} `{TL : !TargetLaws}
  `{LF : !LLVMFolds}.
Context {E C G : Type} `{FL : FoedusLaws E C} `{RG : Random G} `{RL : !RandomLaws G}.

Lemma emitted_bytes (rows : list (list Z)) :
  mapM (mapM byte_of) ((λ zs, (MByte <$> row_bytes zs : list memval)) <$> rows) = Some (row_bytes <$> rows).
Proof. apply mapM_Some. induction rows as [|zs rows IH]; constructor; [apply mapM_bytes|exact IH]. Qed.

(** The statements of the program are covered by the reference semantics. *)
Lemma fill_and_scan_supported d t x rows : forallb supported (fill_and_scan d t x rows) = true.
Proof.
  cbn [fill_and_scan forallb supported andb]. rewrite !andb_true_r. apply forallb_forall.
  intros st Hin. apply in_map_iff in Hin as (zs & <- & _). cbn [supported emit_supported].
  apply forallb_forall. intros e He. apply in_map_iff in He as (z & <- & _). done.
Qed.

End whole.

(** *** A table of pairs *)

Definition pair_decl : TupleDecl := mk_decl [lit "id"; lit "v"] [lit "int"; lit "int"] [P_KEY; P_NONE] [None; None].
Definition pair_attrs : list Attribute := [mk_attribute (lit "id") int_type P_KEY; mk_attribute (lit "v") int_type P_NONE].
Definition pair_rows : list (list Z) := [[2; 20]; [256; 1]; [1; -10]]%Z.
Definition pair_program : list Statement := fill_and_scan pair_decl (lit "t") (lit "r") pair_rows.

(** The engine's calls for it. *)
Definition pair_records : list record := record_of (lit "t") pair_attrs <$> pair_rows.
Definition pair_engine : option store :=
  filled pair_records store_new ≫= scanned (lit "t:") (lit "u:") 3.

