(* ===== verification/Driver.v ===== *)
(** * Driver: from the command line to what a program prints
      ([src/src/reir/reirc.cpp], [exec/reir_context.cpp], [exec/executor.cpp],
      [engine/foedus_runner.cpp], [engine/foedus_executor.cpp], [engine/db_handle.hpp])

    [main] makes a context, which starts the engine and opens the catalogue, and has it execute a
    text: the text is parsed, compiled, run, and everything is taken down again.  Here the parts
    of the development come together. *)

From Stdlib Require Import ZArith NArith Ascii String Lia.
From stdpp Require Import base option list strings gmap relations.
From S2P Require Import Prelude Tokenizer Value Attr Schema MetaData Ast Visit StmtParser Printer StmtPrinter Analyze LLVM CodegenExpr.
From S2P Require Import CodegenStmt Compile Machine Runtime Concrete Layout Declare Semantics Shape Typing Simulate.
From S2P Require Import ExprCorrect StmtCorrect Faithful Prepare CompileCorrect Execute Checker Accepted WellDeclared.

(** ** The engine *)

(** What [FoedusRunner] sets of FOEDUS's options; the others keep their defaults. *)
Record engine_options := mk_options {
  debug_log_min_threshold_ : cstr;
  use_numa_alloc_ : bool;
  page_pool_size_mb_per_node_ : Z;
  private_page_pool_initial_grab_ : Z;
  snapshot_folder_path_pattern_ : cstr;
  log_folder_path_pattern_ : cstr;
  group_count_ : Z;
  thread_count_per_group_ : Z;
  log_buffer_kb_ : Z;
  flush_at_shutdown_ : bool;
  snapshot_cache_size_mb_per_node_ : Z;
  private_snapshot_cache_initial_grab_ : Z;
  max_write_set_size_ : Z;
  log_mapper_io_buffer_mb_ : Z;
  log_reducer_buffer_mb_ : Z;
  log_reducer_dump_io_buffer_mb_ : Z;
  snapshot_writer_page_pool_size_mb_ : Z;
  snapshot_writer_intermediate_pool_size_mb_ : Z;
  max_storages_ : Z;
}.

(** FOEDUS as a process: [engine_initialize] says whether it was no error; [impersonate_synchronous]
    gives the state a registered procedure starts in, when a thread takes it. *)
Class FoedusEngine (E : Type) := {
  engine_new : engine_options → E;
  pre_register : E → cstr → E;
  engine_initialize : E → E * bool;
  storage_exists : E → cstr → bool;
  create_storage : E → cstr → E;
  impersonate_synchronous : E → cstr → option E;
}.

Section driver.
Context `{L : LLVM} `{T : Target} {E C G St : Type} `{FA : FoedusAPI E C} `{FE : FoedusEngine E} `{RG : Random G}
  `{KV : KVStore St}.
Context (show_double : Z → cstr).
Abbreviation W := (World E C G).

(** [numa_num_task_cpus()] is [cpus]; dividing by zero is [UB]. *)
Definition runner_options (cpus : Z) : result engine_options :=
  let path := lit "./" in
  let path := if decide (last path = Some "/"%char) then path else path ++ lit "/" in
  let threads := 1%Z in
  if decide (cpus = 0%Z) then UB else
  let use_nodes := (Z.quot (threads - 1) cpus + 1)%Z in
  if decide (use_nodes = 0%Z) then UB else
  let threads_per_node := Z.quot (threads + (use_nodes - 1)) use_nodes in
  Ok (mk_options (lit "kDebugLogError") true 32 8 (path ++ lit "snapshot/node_$NODE$")
        (path ++ lit "log/node_$NODE$/logger_$LOGGER$") (use_nodes mod 2 ^ 16) threads_per_node 512 true 2 16 4096
        2 2 4 4 2 128).

(** [FoedusRunner()]: the engine and what was printed; [COERCE_ERROR] ends the process. *)
Definition FoedusRunner_new (cpus : Z) : result (E * cstr) :=
  options ← runner_options cpus;
  let engine_ := engine_new options in
  let out := lit "engine initialized" ++ endl in
  let '(engine_, ok) := engine_initialize (pre_register engine_ (lit "func")) in
  if negb ok then Abort else
  if negb (storage_exists engine_ (lit "db")) then Ok (create_storage engine_ (lit "db"), out)
  else Ok (engine_, out ++ lit "massstree already exist" ++ endl).

(** ** A context *)

(** [reir_context]: the runner's engine is in the world. *)
Record reir_context := mk_reir_context { rc_world : W; rc_md : MetaData St }.

(** [trampoline] calls the function [run] stored in the runner. *)
Definition trampoline (f_ : reir_context → result reir_context) (x : reir_context) : result reir_context := f_ x.

(** [FoedusRunner::run]: what [impersonate_synchronous] returns is dropped. *)
Definition runner_run (f : reir_context → result reir_context) (x : reir_context) : result reir_context :=
  match impersonate_synchronous (engine (rc_world x)) (lit "func") with
  | Some e => trampoline f (mk_reir_context (set_engine (rc_world x) e) (rc_md x))
  | None => Ok x
  end.

(** [Compiler::compile_and_exec] with its catalogue: the tables are created while compiling. *)
Definition compile_and_exec_md (fuel : nat) (ast : option (list Statement)) (x : reir_context) : result reir_context :=
  md ← match ast with
       | Some l => '(created, _) ← compile_new show_double l; Ok (create_all (rc_md x) created)
       | None => Ok (rc_md x)
       end;
  w ← compile_and_exec show_double fuel ast (rc_world x);
  Ok (mk_reir_context w md).

(** [reir_context()]; [opened] is the database the catalogue opens, [g] the random device. *)
Definition reir_context_new (cpus : Z) (opened : option St) (g : G) : result reir_context :=
  '(e, out) ← FoedusRunner_new cpus;
  md ← MetaData_new opened;
  Ok (mk_reir_context (mk_world out [] e [] g) md).

(** The parser prints while it parses; what it has printed when it throws is not kept. *)
Definition reir_context_execute (fuel : nat) (code : cstr) (x : reir_context) : result reir_context :=
  runner_run (λ x,
    '(l, printed) ← StmtParser.parse code;
    compile_and_exec_md fuel (Some l) (mk_reir_context (print (rc_world x) printed) (rc_md x))) x.

(** The destructors: [~MetaData] closes the database, [~FoedusRunner] ends the engine. *)
Definition reir_context_delete (x : reir_context) : cstr * St :=
  (stdout (rc_world x) ++ lit "foedus engine successfully uninitialized." ++ endl, db_ (rc_md x)).

(** ** The command line *)

(** What [cmdline] found on the command line: [exist] and [get]. *)
Record cmdline := mk_cmdline { version : bool; file : option cstr; exec_ : option cstr }.

(** What a process leaves: its exit code, its output, and the catalogue's database. *)
Definition outcome : Type := Z * cstr * option St.

Definition exit_with (code : Z) (x : reir_context) : outcome :=
  let '(out, db) := reir_context_delete x in (code, out, Some db).

(** [files] are the files that open, with what they hold. *)
Definition main (a : cmdline) (files : cstr → option cstr) (cpus : Z) (opened : option St) (g : G) (fuel : nat)
    : result outcome :=
  if version a then Ok (0%Z, lit "reir-0.1dev" ++ endl, opened) else
  match file a with
  | Some name =>
      ctx ← reir_context_new cpus opened g;
      match files name with
      | Some code => ctx ← reir_context_execute fuel code ctx; Ok (exit_with 0 ctx)
      | None =>
          Ok (exit_with 1 (mk_reir_context (print (rc_world ctx) (lit "file " ++ name ++ lit " does not exist" ++ endl))
                (rc_md ctx)))
      end
  | None =>
      match exec_ a with
      | Some code =>
          ctx ← reir_context_new cpus opened g;
          ctx ← reir_context_execute fuel code ctx;
          Ok (exit_with 0 ctx)
      | None => Ok (0%Z, lit "specify -e or -f option to execute some reir" ++ endl, opened)
      end
  end.

(** ** Without the compiler *)

(** [Executor::execute] *)
Definition Executor_execute (fuel : nat) (ast : option (list Statement)) (jit : bool) (x : reir_context)
    : result reir_context :=
  if jit then compile_and_exec_md fuel ast x else Throw (lit "executor not implemented for ").

(** [foedus::insert]: a transaction of one insert; only the insert's error is looked at. *)
Definition executor_insert (e : E) (key value : cstr) : result E :=
  let '(e, _) := foedus_begin e in
  let '(e, ok) := Runtime.insert_record e key value in
  if ok then Ok (foedus_precommit e).1 else Throw (error_message e).

(** *** [DBHandle] *)

(** [P] is what [ptr_] points to: nothing is there before [set]. *)
Record DBHandle (P : Type) := mk_handle { name_ : cstr; ptr_ : option P }.

Definition DBHandle_new {P} (name : cstr) : result (DBHandle P) :=
  if decide (name = lit "foedus") then Ok (mk_handle P name None)
  else Throw (lit "unknown db type: " ++ name).
Definition DBHandle_set {P} (h : DBHandle P) (p : P) : DBHandle P := mk_handle P (name_ P h) (Some p).
Definition get_name {P} (h : DBHandle P) : cstr := name_ P h.

(** An assertion, and the cast of a pointer that must have been set. *)
Definition handle_as {P} (kind : cstr) (h : DBHandle P) : result P :=
  if decide (name_ P h = kind) then match ptr_ P h with Some p => Ok p | None => UB end else Abort.
Definition get_foedus_engine {P} (h : DBHandle P) : result P := handle_as (lit "foedus") h.
Definition get_leveldb {P} (h : DBHandle P) : result P := handle_as (lit "leveldb") h.
End driver.
Arguments reir_context : clear implicits.

(** ** The tables a program creates *)

Section tables.
Context `{L : LLVM} (ann : annotations).

Definition add_tables (created : list (cstr * list Attribute)) (m : gmap cstr Schema) : gmap cstr Schema :=
  fold_left (λ m '(n, attrs), <[n := mk_schema n attrs]> m) created m.

Lemma add_tables_app a b m : add_tables (a ++ b) m = add_tables b (add_tables a m).
Proof. apply fold_left_app. Qed.

Definition creates (m : cg (list (cstr * list Attribute))) (D D' : decls) : Prop :=
  ∀ s a s', m s = Ok (a, s') → add_tables a (d_tables D) = d_tables D'.

Lemma alloca_define_creates sp d n s attrs s' :
  alloca_define ann sp d n s = Ok (attrs, s') → defined_schema ann sp d n = Some (mk_schema n attrs).
Proof.
  unfold alloca_define, defined_schema. intros Ec. apply cg_bind_Ok in Ec as (d' & s1 & E1 & Ec).
  destruct d as [d|]; [|done]. injection E1 as <- <-. apply cg_bind_Ok in Ec as (ts & s2 & E2 & Ec).
  simpl. destruct (types_of ann sp) as [ts'|]; [|done]. injection E2 as <- <-.
  apply cg_bind_Ok in Ec as (at' & s3 & E3 & Ec). simpl. unfold cg_lift in E3.
  destruct (define_attrs _ _ _ _) as [at''| | | |]; try done. injection E3 as <- <-.
  apply cg_bind_Ok in Ec as (u & s4 & _ & [= <- _]). done.
Qed.

Lemma alloca_leaf_creates s sp D : is_leaf s = true → creates (alloca_stack ann sp s) D (collect ann s sp D).
Proof.
  intros Hl st a st' Ec. destruct s; try done; cbn [alloca_stack collect] in *;
    try (by injection Ec as <- _);
    apply cg_bind_Ok in Ec as (x & s1 & E1 & [= <- _]); try done.
  apply alloca_define_creates in E1 as ->. done.
Qed.

Lemma collect_twice s sp D :
  is_leaf s = true → d_tables (collect ann s sp (collect ann s sp D)) = d_tables (collect ann s sp D).
Proof.
  intros Hl. destruct s; try done. cbn [collect]. destruct (defined_schema _ _ _ _); [|done]. apply insert_insert_eq.
Qed.

Definition visited (s : Statement) : Prop := plain_inits s = true → ∀ sp D,
  creates (a ← alloca_stack ann sp s; b ← walk (alloca_stack ann) s sp; mret (a ++ b)) D (collect ann s sp D).

Lemma creates_bind m1 m2 D D1 D2 :
  creates m1 D D1 → creates m2 D1 D2 →
  creates (a ← m1; b ← m2; mret (a ++ b)) D D2.
Proof.
  intros H1 H2 s a s' Ec. apply cg_bind_Ok in Ec as (x & s1 & E1 & Ec). apply cg_bind_Ok in Ec as (y & s2 & E2 & [= <- _]).
  rewrite add_tables_app, (H1 _ _ _ E1). by eapply H2.
Qed.

Lemma creates_nil D : creates (mret []) D D.
Proof. intros s a s' [= <- _]. done. Qed.

Lemma walk_block_creates mk sp l : Forall visited l → forallb plain_inits l = true → ∀ i D,
  creates (walk_statements (alloca_stack ann) (walk (alloca_stack ann)) mk sp i l) D
    (collect_statements (collect ann) mk sp i l D).
Proof.
  induction 1 as [|s l Hs _ IH]; intros Hp i D; cbn [walk_statements collect_statements]; [apply creates_nil|].
  simpl in Hp. apply andb_prop in Hp as [Hp Hp'].
  intros st a st' Ec. apply cg_bind_Ok in Ec as (x & s1 & E1 & Ec). apply cg_bind_Ok in Ec as (y & s2 & E2 & Ec).
  apply cg_bind_Ok in Ec as (z & s3 & E3 & [= <- _]). rewrite app_assoc, add_tables_app.
  erewrite (Hs Hp (sp ++ [mk i]) D st (x ++ y)); [by eapply IH|].
  rewrite (cg_bind_run _ _ _ _ _ E1), (cg_bind_run _ _ _ _ _ E2). done.
Qed.
Lemma all_visited s : visited s.
Proof.
  induction s as [l Hl|i l Hl|d n|i c e l Hi Hl|t|e|t e|t r l Hl|n e t|n t|c t f Ht Hf|e]
    using Statement_rect'; intros Hp sp D; cbn [plain_inits] in Hp.
  all: try (eapply creates_bind; [by apply alloca_leaf_creates|apply creates_nil]).
  all: try (eapply creates_bind; [apply creates_nil|by apply walk_block_creates]).
  - destruct i as [i|]; [|done]. apply andb_prop in Hp as [Hi' Hp].
    pose proof (alloca_leaf_creates i (sp ++ [In_init]) D Hi') as H1.
    pose proof (alloca_leaf_creates i (sp ++ [In_init]) (collect ann i (sp ++ [In_init]) D) Hi') as H2.
    intros s a s' Ec. apply cg_bind_Ok in Ec as (x & s1 & E1 & Ec). apply cg_bind_Ok in Ec as (y & s2 & E2 & [= <- _]).
    cbn [alloca_stack walk collect] in *. rewrite add_tables_app, (H1 _ _ _ E1).
    apply cg_bind_Ok in E2 as (x' & s3 & E3 & E2). apply cg_bind_Ok in E2 as (z & s4 & E4 & [= <- _]).
    rewrite add_tables_app, (H2 _ _ _ E3), collect_twice by done.
    exact (walk_block_creates In_body sp l Hl Hp 0 _ _ _ _ E4).
  - cbn [collect]. set (D1 := mk_decls _ _ _). intros s a s' Ec. apply cg_bind_Ok in Ec as (x & s1 & E1 & Ec).
    cbn [alloca_stack] in E1. apply cg_bind_Ok in E1 as (u & s2 & _ & [= <- <-]).
    apply cg_bind_Ok in Ec as (y & s3 & E3 & [= <- _]). exact (walk_block_creates In_body sp l Hl Hp 0 D1 _ _ _ E3).
  - apply andb_prop in Hp as [H1 H2]. eapply creates_bind; [apply creates_nil|]. cbn [walk collect].
    destruct f as [f|]; [|by apply walk_block_creates].
    eapply creates_bind; apply walk_block_creates; auto.
Qed.

End tables.

(** The tables compilation creates are those the program declares. *)
Lemma compile_creates `{L : LLVM} show_double l created s' :
  compile_new show_double l = Ok (created, s') → plain_inits (Block l) = true →
  add_tables created ∅ = tables_of show_double l.
Proof.
  intros Ec Hp. destruct (compile_inv _ _ _ _ _ context_ready_ok Ec) as (bb & s1 & u2 & s2 & s3 & u4 & s4 & wr & _ & _ & E3 & _).
  assert (Hv := all_visited (annotate show_double l ctx_new) (Block l) Hp [] decls_none s2 created s3).
  apply Hv. cbn [alloca_stack]. erewrite cg_bind_run by reflexivity.
  by rewrite (cg_bind_run _ _ _ _ _ E3).
Qed.

(** ** The catalogue after a program *)

Section catalogue.
Context `{L : LLVM} `{T : Target} {E C G St : Type} `{FA : FoedusAPI E C} `{RG : Random G} `{KL : KVLaws St}.

Lemma create_all_represents (md : MetaData St) ops : (∀ st k v, (kv_put st k v).2 = true) →
  Forall (λ '(n, attrs), Schema_wf (mk_schema n attrs)) ops →
  ∀ c, represents c md → represents (spec_all c ops) (create_all md ops).
Proof.
  intros Hput Hops. revert md. induction Hops as [|[n attrs] ops Hwf _ IH]; intros md c Hr; [done|].
  apply IH, represents_create; done.
Qed.

Lemma spec_all_tables ops : ∀ (c : catalogue) (m : gmap cstr Schema),
  spec_all ((attrs_ <$> m) ∪ c) ops = (attrs_ <$> add_tables ops m) ∪ c.
Proof.
  induction ops as [|[n attrs] ops IH]; intros c m; [done|].
  specialize (IH c (<[n := mk_schema n attrs]> m)). rewrite fmap_insert, <- insert_union_l in IH. exact IH.
Qed.

#[local] Strategy 1000 [compile_new compile_and_exec].

Lemma compiled_catalogue show_double fuel l created s' (x x' : reir_context E C G St) :
  compile_new show_double l = Ok (created, s') →
  compile_and_exec_md show_double fuel (Some l) x = Ok x' → rc_md x' = create_all (rc_md x) created.
Proof.
  intros Ec Ex. unfold compile_and_exec_md in Ex. rewrite Ec in Ex.
  apply bind_Ok_inv in Ex as (md & Em & Ex). apply bind_Ok_inv in Ex as (w & _ & Ex).
  injection Em as <-. by injection Ex as <-.
Qed.

(** C19: after a program the catalogue holds the catalogue before it, overridden by the tables the
    program defines, with the schemas its own inserts and scans used.  For a program that compiles
    and runs to its end, each of whose [for]s has an initialisation that holds no other statements
    ([plain_inits]; a [define] in a block used as an initialisation creates no table), that creates
    well-formed schemas (no colon in a table's name, no blank in a column's, numbers in range), on a
    store whose writes all succeed. *)
Theorem catalogue_after show_double fuel l created s' (x x' : reir_context E C G St) c name :
  compile_new show_double l = Ok (created, s') →
  compile_and_exec_md show_double fuel (Some l) x = Ok x' →
  (∀ st k v, (kv_put st k v).2 = true) → plain_inits (Block l) = true →
  Forall (λ '(n, attrs), Schema_wf (mk_schema n attrs)) created → represents c (rc_md x) →
  get_schema (rc_md x') name = spec_get ((attrs_ <$> tables_of show_double l) ∪ c) name.
Proof.
  intros Ec Ex Hput Hp Hwf Hr. rewrite (compiled_catalogue _ _ _ _ _ _ _ Ec Ex).
  rewrite <- (compile_creates _ _ _ _ Ec Hp). apply represents_get.
  rewrite <- spec_all_tables, fmap_empty, (left_id_L ∅ (∪)). by apply create_all_represents.
Qed.
End catalogue.

(** ** From the text to the output *)

(** The text a command line has executed. *)
Definition text_of (a : cmdline) (files : cstr → option cstr) : option cstr :=
  if version a then None else match file a with Some name => files name | None => exec_ a end.

Section whole.
Context `{L : LLVM} `{LT : !LLVMTyping} `{PL : !PrintLaws} `{T : Target} `{TL : !TargetLaws} `{LF : !LLVMFolds}.
Context {E C G St : Type} `{FA : FoedusAPI E C} `{FE : FoedusEngine E} `{RG : Random G} `{RL : !RandomLaws G} `{KV : KVStore St}.

(** What a command line with a text does: it takes a context up, executes the text, takes it down. *)
Lemma main_text show_double a files text cpus (opened : option St) (g : G) fuel :
  text_of a files = Some text →
  main show_double a files cpus opened g fuel =
  (ctx ← reir_context_new cpus opened g; ctx ← reir_context_execute show_double fuel text ctx; Ok (exit_with 0 ctx)).
Proof.
  unfold text_of, main. destruct (version a); [done|]. destruct (file a) as [name|]; intros Ht; rewrite Ht; [|done].
  by destruct (reir_context_new cpus opened g).
Qed.

Lemma compile_and_exec_md_run show_double fuel l created s' (x : reir_context E C G St) w :
  compile_new show_double l = Ok (created, s') → compile_and_exec show_double fuel (Some l) (rc_world x) = Ok w →
  compile_and_exec_md show_double fuel (Some l) x = Ok (mk_reir_context w (create_all (rc_md x) created)).
Proof. intros Ec Hw. unfold compile_and_exec_md. by rewrite Ec, Hw. Qed.

Lemma execute_text show_double fuel text l created s' (x : reir_context E C G St) e w printed :
  StmtParser.parse text = Ok (l, printed) → compile_new show_double l = Ok (created, s') →
  impersonate_synchronous (engine (rc_world x)) (lit "func") = Some e →
  compile_and_exec show_double fuel (Some l) (print (set_engine (rc_world x) e) printed) = Ok w →
  reir_context_execute show_double fuel text x = Ok (mk_reir_context w (create_all (rc_md x) created)).
Proof.
  intros Hp Ec Hi Hw. unfold reir_context_execute, runner_run. rewrite Hi. unfold trampoline. rewrite Hp.
  exact (compile_and_exec_md_run _ _ _ _ _ (mk_reir_context (print (set_engine (rc_world x) e) printed) (rc_md x)) _ Ec Hw).
Qed.

(** [main] around an execution that ends. *)
Lemma main_executes show_double a files cpus db (g : G) text l printed created s' e0 out e n w rows :
  text_of a files = Some text → FoedusRunner_new cpus = Ok (e0, out) →
  impersonate_synchronous e0 (lit "func") = Some e → StmtParser.parse text = Ok (l, printed) →
  compile_new show_double l = Ok (created, s') →
  compile_and_exec show_double n (Some l) (mk_world (out ++ printed) [] e [] g) = Ok (print w (emitted_text rows)) →
  main show_double a files cpus (Some db) g n =
    Ok (0%Z, stdout w ++ emitted_text rows ++ lit "foedus engine successfully uninitialized." ++ endl,
        Some (db_ (create_all (mk_metadata ∅ db) created))).
Proof.
  intros Ht Hr Hi Hp Ec Hx. rewrite (main_text _ _ _ _ _ _ _ _ Ht).
  unfold reir_context_new. rewrite Hr. cbn [mbind result_bind MetaData_new].
  rewrite (execute_text _ _ _ _ _ _ (mk_reir_context (mk_world out [] e0 [] g) (mk_metadata ∅ db)) _ _ _ Hp Ec Hi Hx).
  cbn [mbind result_bind]. unfold exit_with, reir_context_delete, print.
  cbn [rc_world rc_md set_stdout stdout]. by rewrite <- !app_assoc.
Qed.

(** the whole program does what its input means.  Given the text of a well-formed program, on
    the command line or in a file, [main] starts the engine and the catalogue, parses, compiles
    and runs the text, and exits with 0; it has printed the isolation words of the program's
    transactions ([announced_all]), what the reference semantics prints, the rows emitted, and the
    messages of start and end; the catalogue's database has got the tables the program defines. *)
Theorem main_runs_program show_double a files cpus db (g : G) l created s' e0 out e fuel σ :
  text_of a files = Some (Tokenizer.render (print_program l)) → wf_block l →
  FoedusRunner_new cpus = Ok (e0, out) → impersonate_synchronous e0 (lit "func") = Some e →
  compile_new show_double l = Ok (created, s') → forallb supported l = true →
  well_declared (notes show_double l) l = true → small_structs (struct_types s') →
  exec_stmt (member_of (notes show_double l)) (tables_of show_double l) fuel (Block l) [] (env_new (mk_world (out ++ announced_all l) [] e [] g)) = Ok σ →
  rows_fit (env_world σ) →
  ∃ n rows, emitted_rows (env_world σ) = Some rows ∧
    main show_double a files cpus (Some db) g n =
      Ok (0%Z, stdout (env_world σ) ++ emitted_text rows ++ lit "foedus engine successfully uninitialized." ++ endl,
          Some (db_ (create_all (mk_metadata ∅ db) created))).
Proof.
  intros Ht Hwf Hr Hi Ec Hs Hd Sm Ee Hf.
  destruct (compile_and_exec_ends show_double l created s' fuel (mk_world (out ++ announced_all l) [] e [] g) σ Ec Hs Hd Sm Ee Hf)
    as (n & rows & Hrows & Hx).
  exists n, rows. split; [exact Hrows|].
  exact (main_executes _ _ _ _ _ _ _ _ _ _ _ _ _ _ _ _ _ Ht Hr Hi (program_roundtrip _ Hwf) Ec Hx).
Qed.

(** C3: every text whose program the checker accepts is executed.  Nothing is assumed of the compiler:
    given a text, on the command line or in a file, that parses to an accepted program whose
    statements the reference covers and whose rows have elements without effects ([supported]), on an
    engine that starts and takes the procedure, when the reference runs the program to an end with
    less than 2^31 rows, [main] starts the engine and the catalogue, compiles and runs the program and
    exits with 0; it has printed the message of the start, what the parser prints (the isolation words
    of transactions), what the reference semantics prints, the rows emitted, and the message of the
    end (debug builds print more); the catalogue's database has got the tables the program defines. *)
Theorem main_runs_accepted show_double a files cpus db (g : G) text l printed e0 out e fuel σ :
  text_of a files = Some text → StmtParser.parse text = Ok (l, printed) →
  accepted show_double l = true → forallb supported l = true →
  FoedusRunner_new cpus = Ok (e0, out) → impersonate_synchronous e0 (lit "func") = Some e →
  exec_stmt (member_of (notes show_double l)) (tables_of show_double l) fuel (Block l) [] (env_new (mk_world (out ++ printed) [] e [] g)) = Ok σ →
  rows_fit (env_world σ) →
  ∃ created s' n rows, compile_new show_double l = Ok (created, s') ∧ emitted_rows (env_world σ) = Some rows ∧
    main show_double a files cpus (Some db) g n =
      Ok (0%Z, stdout (env_world σ) ++ emitted_text rows ++ lit "foedus engine successfully uninitialized." ++ endl,
          Some (db_ (create_all (mk_metadata ∅ db) created))).
Proof.
  intros Ht Hp Ha Hs Hr Hi Ee Hf.
  destruct (accepted_runs show_double l fuel (mk_world (out ++ printed) [] e [] g) σ Ha Hs Ee Hf) as (created & s' & n & rows & Ec & Hrows & Hx).
  exists created, s', n, rows. split_and!; [exact Ec|exact Hrows|].
  exact (main_executes _ _ _ _ _ _ _ _ _ _ _ _ _ _ _ _ _ Ht Hr Hi Hp Ec Hx).
Qed.
End whole.

(** ** A run *)

(** The engine of Concrete.v as a process. *)
#[export] Instance list_engine : FoedusEngine store := {
  engine_new _ := store_new;
  pre_register e _ := e;
  engine_initialize e := (e, true);
  storage_exists _ _ := false;
  create_storage e _ := e;
  impersonate_synchronous e _ := Some e;
}.

Definition start_text : cstr := lit "engine initialized" ++ endl.
Definition end_text : cstr := lit "foedus engine successfully uninitialized." ++ endl.

(** The sample program, given with [-e]. *)
Definition sample_line : cmdline := mk_cmdline false None (Some (Tokenizer.render (print_program sample_program))).

Definition created_of (r : result (list (cstr * list Attribute) * cstate)) : option (list (cstr * list Attribute)) :=
  match r with Ok (created, _) => Some created | _ => None end.

Abbreviation started := (mk_world start_text [] store_new [] (random world_new)).
Abbreviation started_run :=
  (exec_stmt (member_of (notes no_doubles sample_program)) (tables_of no_doubles sample_program) 10 (Block sample_program) []
    (env_new started)).

Lemma main_runs_program_witness :
  ∃ n db', main no_doubles sample_line (λ _, None) 4 (Some ∅) (random world_new) n =
    Ok (0%Z, (start_text ++ sample_printed) ++ sample_shown ++ end_text, Some (db' : gmap cstr cstr)).
Proof.
  assert (Hp : prints_of started_run = Some (start_text ++ sample_printed, 3)) by (vm_compute; reflexivity).
  assert (Hr : rows_of started_run = Some sample_rows) by (vm_compute; reflexivity).
  assert (Hs : structs_of (compile_new no_doubles sample_program) = Some [2; 2; 2]) by (vm_compute; reflexivity).
  assert (Hsup : forallb supported sample_program = true) by (vm_compute; reflexivity).
  assert (Hd : well_declared (notes no_doubles sample_program) sample_program = true) by (vm_compute; reflexivity).
  assert (Hw : wf_blockb sample_program = true) by (vm_compute; reflexivity).
  assert (Hrn : FoedusRunner_new (E := store) 4 = Ok (store_new, start_text)) by (vm_compute; reflexivity).
  destruct (exec_stmt _ _ _ _ _ _) as [σ| | | |] eqn:Er; [|discriminate Hp..].
  destruct (compile_new no_doubles sample_program) as [[created s']| | | |] eqn:Ec; [|discriminate Hs..].
  injection Hp as Hout Hlen. injection Hs as Hs.
  assert (Hf : rows_fit (env_world σ)) by (unfold rows_fit; by rewrite Hlen).
  destruct (main_runs_program no_doubles sample_line (λ _, None) 4 ∅ (random world_new) sample_program created s' store_new start_text store_new
    10 σ eq_refl (wf_blockb_sound _ Hw) Hrn eq_refl Ec Hsup Hd
    (small_of_lengths _ [2; 2; 2] Hs ltac:(repeat constructor)) Er Hf) as (n & rows & Hrows & Hrun).
  exists n, (db_ (create_all (mk_metadata ∅ ∅) created)). rewrite Hrun.
  change (emitted_rows (env_world σ) = Some sample_rows) in Hr.
  rewrite Hr in Hrows. injection Hrows as <-. change (stdout (env_world σ) = start_text ++ sample_printed) in Hout.
  rewrite Hout. reflexivity.
Defined.

(** The same for a text as a user writes it, in a file; one transaction has an isolation word. *)
Definition file_line : cmdline := mk_cmdline false (Some (lit "p.reir")) None.
Definition file_text : cstr := sample_text ++ lit " transaction serializable { print_int(7) }".
Definition file_program : list Statement := match StmtParser.parse file_text with Ok (l, _) => l | _ => [] end.
Definition file_system (name : cstr) : option cstr := if decide (name = lit "p.reir") then Some file_text else None.

Definition file_announced : cstr := lit "to: [SERIALIZABLE]" ++ endl.
Definition file_printed : cstr := (start_text ++ file_announced) ++ sample_printed ++ logged (lit "7" ++ endl).

Abbreviation file_run :=
  (exec_stmt (member_of (notes no_doubles file_program)) (tables_of no_doubles file_program) 10 (Block file_program) []
    (env_new (mk_world (start_text ++ file_announced) [] store_new [] (random world_new)))).

Lemma main_runs_accepted_witness :
  ∃ n db', main no_doubles file_line file_system 4 (Some ∅) (random world_new) n =
    Ok (0%Z, file_printed ++ sample_shown ++ end_text, Some (db' : gmap cstr cstr)).
Proof.
  assert (Hp : prints_of file_run = Some (file_printed, 3)) by (vm_compute; reflexivity).
  assert (Hr : rows_of file_run = Some sample_rows) by (vm_compute; reflexivity).
  assert (Ha : accepted no_doubles file_program = true) by (vm_compute; reflexivity).
  assert (Hsup : forallb supported file_program = true) by (vm_compute; reflexivity).
  assert (Hparse : StmtParser.parse file_text = Ok (file_program, file_announced)) by (vm_compute; reflexivity).
  assert (Hrn : FoedusRunner_new (E := store) 4 = Ok (store_new, start_text)) by (vm_compute; reflexivity).
  destruct (exec_stmt _ _ _ _ _ _) as [σ| | | |] eqn:Er; [|discriminate Hp..].
  injection Hp as Hout Hlen. assert (Hf : rows_fit (env_world σ)) by (unfold rows_fit; by rewrite Hlen).
  destruct (main_runs_accepted no_doubles file_line file_system 4 ∅ (random world_new) file_text file_program file_announced
    store_new start_text store_new 10 σ eq_refl Hparse Ha Hsup Hrn eq_refl Er Hf) as (created & s' & n & rows & _ & Hrows & Hrun).
  exists n, (db_ (create_all (mk_metadata ∅ ∅) created)). rewrite Hrun.
  change (emitted_rows (env_world σ) = Some sample_rows) in Hr.
  rewrite Hr in Hrows. injection Hrows as <-. change (stdout (env_world σ) = file_printed) in Hout.
  rewrite Hout. reflexivity.
Defined.

Definition sample_attrs : list Attribute :=
  [mk_attribute (lit "id") int_type P_KEY; mk_attribute (lit "v") int_type P_NONE].

Lemma catalogue_after_witness :
  ∃ x', compile_and_exec_md no_doubles 2000 (Some sample_program) (mk_reir_context world_new empty_md) = Ok x' ∧
    get_schema (rc_md x') (lit "t") = Ok (mk_schema (lit "t") sample_attrs).
Proof.
  assert (Hx : is_ok (compile_and_exec_md no_doubles 2000 (Some sample_program) (mk_reir_context world_new empty_md)) = true)
    by (vm_compute; reflexivity).
  assert (Hc : created_of (compile_new no_doubles sample_program) = Some [(lit "t", sample_attrs)]) by (vm_compute; reflexivity).
  assert (Ht : spec_get ((attrs_ <$> tables_of no_doubles sample_program) ∪ ∅) (lit "t") = Ok (mk_schema (lit "t") sample_attrs))
    by (vm_compute; reflexivity).
  destruct (compile_and_exec_md _ _ _ _) as [x'| | | |] eqn:Ex; [|discriminate Hx..].
  destruct (compile_new no_doubles sample_program) as [[created s']| | | |] eqn:Ec; [|discriminate Hc..].
  injection Hc as ->. exists x'. split; [reflexivity|]. rewrite <- Ht.
  apply (catalogue_after no_doubles 2000 sample_program [(lit "t", sample_attrs)] s' (mk_reir_context world_new empty_md) x' ∅
    (lit "t") Ec Ex); [done|vm_compute; reflexivity| |].
  - constructor; [|constructor]. split; [apply (bool_decide_unpack _); vm_compute; exact I|].
    repeat constructor; try (apply (bool_decide_unpack _); vm_compute; exact I); discriminate.
  - split; [apply map_Forall_empty|]. intros n. by rewrite lookup_empty.
Defined.

(** ** Errors *)

(** A file that does not open: the engine has been started, the exit code is 1. *)
Lemma main_missing_file : 
  main (St := gmap cstr cstr) no_doubles (mk_cmdline false (Some (lit "p.reir")) None) (λ _, None) 4 (Some ∅) (random world_new) 0 =
  Ok (1%Z, start_text ++ lit "file p.reir does not exist" ++ endl ++ end_text, Some ∅).
Proof. vm_compute. reflexivity. Qed.

(** A text that does not parse ends the process with an exception nothing catches. *)
Lemma main_parse_error : 
  is_ok (main (St := gmap cstr cstr) no_doubles (mk_cmdline false None (Some (lit "let"))) (λ _, None) 4 (Some ∅) (random world_new) 0) = false.
Proof. vm_compute. reflexivity. Qed.

(** A thread pool that takes no procedure: nothing is parsed or run, and the exit code is still 0. *)
Lemma refused_runs_nothing {E C G St : Type} `{L : LLVM} `{T : Target} `{FA : FoedusAPI E C} `{FE : FoedusEngine E} `{RG : Random G}
    `{KV : KVStore St} show_double fuel code (x : reir_context E C G St) :
  impersonate_synchronous (engine (rc_world x)) (lit "func") = None →
  reir_context_execute show_double fuel code x = Ok x.
Proof. intros Hi. unfold reir_context_execute, runner_run. by rewrite Hi. Qed.

(** [DBHandle] knows no database but FOEDUS: asking one for LevelDB fails an assertion. *)
Lemma handle_never_leveldb {P} name (h : DBHandle P) (p : P) :
  DBHandle_new name = Ok h → get_leveldb (DBHandle_set h p) = Abort ∧ get_foedus_engine (DBHandle_set h p) = Ok p.
Proof. unfold DBHandle_new. case_decide as Hn; [|done]. intros [= <-]. by subst name. Qed.
