(* ===== verification/Behaviours.v ===== *)
(** * Behaviours: what compiled programs do beyond the reference semantics

    Properties of whole compiled programs: the machine never leaves the code, loops that count
    come to their end, types are stable; and the places where code generation departs from what
    the language suggests. *)

From Stdlib Require Import ZArith NArith Ascii String Lia.
From stdpp Require Import base option list strings gmap relations.
From S2P Require Import Prelude Slice Value Attr Schema Ast Visit StmtParser Analyze LLVM CodegenExpr.
From S2P Require Import CodegenStmt Layout Declare Compile Machine Runtime Concrete Semantics Shape Typing.
From S2P Require Import Simulate ExprCorrect StmtCorrect Faithful Prepare CompileCorrect Execute Engine Tables.

(** ** The machine stays in the code *)

Section stays.
Context `{T : Target} {W : Type} (ss : structs) (call_fn : cstr → list rval → memory → W → result (rval * memory * W)).
Context (s : cstate) (WF : well_formed s).

(** There is an instruction where the machine is. *)
Definition in_code (μ : mstate (W := W)) : Prop :=
  ∃ n c r i, blocks s !! blk μ = Some (n, c) ∧ c !! idx μ = Some (r, i).

Lemma start_in_code b p rg m w : b < length (blocks s) → in_code (mk_mstate b 0 p rg m w).
Proof.
  intros [[n c] Hb]%lookup_lt_is_Some_2. pose proof (proj1 WF _ _ _ Hb) as Hc.
  destruct c as [|[r i] c]; [done|]. by exists n, ((r, i) :: c), r, i.
Qed.

(** Behind an instruction that is no terminator there is another one. *)
Lemma closed_next c k x : closed c = true → c !! k = Some x → is_terminator x.2 = false → is_Some (c !! S k).
Proof.
  unfold closed. destruct (last c) as [y|] eqn:Hl; [|done]. intros [Hy _]%andb_prop Hk Hx.
  apply lookup_lt_is_Some_2. pose proof (lookup_lt_Some _ _ _ Hk). destruct (decide (S k = length c)) as [He|]; [|lia].
  rewrite last_lookup, <- He in Hl. simpl in Hl. congruence.
Qed.

(** Instructions that are no terminators go on to the next one; terminators to a target. *)
Lemma exec_next (μ μ' : mstate (W := W)) r i :
  exec ss call_fn μ r i = Ok (Next μ') →
  (is_terminator i = false ∧ blk μ' = blk μ ∧ idx μ' = S (idx μ)) ∨ (blk μ' ∈ targets i ∧ idx μ' = 0).
Proof.
  destruct i; cbn [exec]; intros Ex; inv_prog; repeat case_match; inv_prog;
    repeat match goal with H : Ok _ = Ok _ |- _ => injection H as <- end;
    try (left; done); right; cbn; split; set_solver.
Qed.

Lemma step_in_code μ μ' : in_code μ → step ss call_fn (blocks s) μ = Ok (Next μ') → in_code μ'.
Proof.
  intros (n & c & r & i & Hb & Hc) St. unfold step, of_option in St. rewrite Hb in St. simpl in St.
  rewrite Hc in St. simpl in St.
  destruct (exec_next _ _ _ _ St) as [(Hi & Eb & Ei)|(Ht & Ei)].
  - destruct (closed_next c _ _ (proj1 WF _ _ _ Hb) Hc Hi) as [[r' i'] Hn].
    exists n, c, r', i'. by rewrite Eb, Ei.
  - assert (blk μ' < length (blocks s)) as Hlt.
    { eapply (proj2 WF _ _ _ (r, i) Hb), Ht. by eapply list_elem_of_lookup_2. }
    destruct μ'; simpl in *; subst. by apply start_in_code.
Qed.

Lemma steps_in_code μ μ' : in_code μ → steps_to ss call_fn (blocks s) μ μ' → in_code μ'.
Proof. intros H0 St. induction St as [|μ μ1 μ2 H1 _ IH]; [done|]. by eapply IH, step_in_code. Qed.
End stays.

(** C10: the machine never runs off the code.  Started at the entry of a function compiled from a
    program without [break] and [continue], with any engine, memory layout and runtime functions,
    it has an instruction to execute in every state it reaches: no path leads past the end of a
    block or to a block that does not exist. *)
Theorem compiled_stays_in_code `{L : LLVM} `{T : Target} {E C G : Type} show_double l created s' ss call_fn
    (w : World E C G) μ :
  compile_new show_double l = Ok (created, s') → forallb no_jump l = true →
  steps_to ss call_fn (blocks s') (machine_start w) μ →
  in_code s' μ.
Proof.
  intros Ec Hj St. destruct (compile_shape _ _ _ _ Ec Hj) as [WF H0].
  eapply steps_in_code; [done| |exact St]. by apply start_in_code.
Qed.

(** The state after [n] steps. *)
Section after.
Context `{T : Target} {W : Type} (ss : structs) (call_fn : cstr → list rval → memory → W → result (rval * memory * W)).
Context (bs : list (list ascii * code)).

Fixpoint after (n : nat) (μ : mstate (W := W)) : option (mstate (W := W)) :=
  match n with
  | O => Some μ
  | S n => match step ss call_fn bs μ with Ok (Next μ') => after n μ' | _ => None end
  end.

Lemma after_steps n : ∀ μ μ', after n μ = Some μ' → steps_to ss call_fn bs μ μ'.
Proof.
  induction n as [|n IH]; intros μ μ' Ha; cbn [after] in Ha; [by injection Ha as <-|].
  destruct (step ss call_fn bs μ) as [[μ1|]| | | |] eqn:St; try done. econstructor; [exact St|by apply IH].
Qed.
End after.

(** Ten steps into the sample: the machine has gone on to other blocks. *)
Definition sample_after (s' : cstate) : option (mstate (W := World store list_cursor nat)) :=
  after (struct_types s') call_runtime (blocks s') 10 (machine_start world_new).
Definition sample_place (r : result (list (cstr * list Attribute) * cstate)) : option nat :=
  match r with Ok (_, s') => blk <$> sample_after s' | _ => None end.

Lemma compiled_stays_in_code_witness :
  ∃ created s' μ, compile_new no_doubles sample_loop = Ok (created, s') ∧ sample_after s' = Some μ ∧ blk μ ≠ 0 ∧ in_code s' μ.
Proof.
  assert (H : exists b, sample_place (compile_new no_doubles sample_loop) = Some (S b)) by (vm_compute; by eexists).
  destruct H as [b H]. destruct (compile_new no_doubles sample_loop) as [[created s']| | | |] eqn:Ec; [|discriminate H..].
  unfold sample_place in H. destruct (sample_after s') as [μ|] eqn:Ea; [|discriminate H].
  injection H as H. exists created, s', μ. split; [reflexivity|]. split; [exact Ea|]. split; [by rewrite H|].
  exact (compiled_stays_in_code no_doubles sample_loop created s' (struct_types s') call_runtime world_new μ Ec eq_refl
    (after_steps _ _ _ _ _ _ Ea)).
Defined.

(** ** What is printed of a row *)

(** The elements modulo 2^64, in brackets. *)
Definition unsigned_row (zs : list Z) : cstr :=
  lit "[" ++ intercalate (lit ", ") ((λ z, show_Z (z mod two_64)) <$> zs) ++ lit "]".

Lemma show_words_ints zs first :
  show_words (length zs) first (row_bytes zs) =
  (if first || bool_decide (zs = []) then [] else lit ", ") ++ intercalate (lit ", ") ((λ z, show_Z (z mod two_64)) <$> zs).
Proof.
  revert first. induction zs as [|z zs IH]; intros first; [by destruct first|].
  cbn [length show_words]. change (row_bytes (z :: zs)) with (bytes_of_i64 z ++ row_bytes zs).
  rewrite take_app_length', drop_app_length' by by rewrite length_bytes_of_i64.
  rewrite IH. unfold bytes_of_i64 at 1. rewrite le_combine_split. change (256 ^ Z.of_nat 8)%Z with two_64.
  rewrite Zmod_mod. rewrite orb_false_r. f_equal. destruct zs as [|z' zs]; [by rewrite app_nil_r|done].
Qed.

(** An emitted row of integers is printed as the list of its elements modulo 2^64: a negative
    element appears as a large positive number. *)
Lemma show_RawRow_unsigned zs :
  show_RawRow (row_bytes zs) = unsigned_row zs.
Proof.
  assert (Hl : length (row_bytes zs) = length zs * 8).
  { induction zs as [|z zs IH]; [done|]. change (row_bytes (z :: zs)) with (bytes_of_i64 z ++ row_bytes zs).
    rewrite length_app, IH, length_bytes_of_i64. done. }
  unfold show_RawRow. rewrite Hl, Nat.div_mul, show_words_ints by done. done.
Qed.

(** ** Where code generation departs from the language *)

(** Run a program in the concrete world: what it prints. *)
Definition printed (fuel : nat) (l : list Statement) : option cstr :=
  match compile_and_exec no_doubles fuel (Some l) world_new with Ok w => Some (stdout w) | _ => None end.

(** [let x = 1 emit {x = x + 1}] *)
Definition row_with_effect : list Statement :=
  [ Let (lit "x") (PrimaryExpression (maybe_of_int 1)) None;
    Emit (RowLiteral [Assign (VariableReference (lit "x"))
      (BinaryExpression (VariableReference (lit "x")) Op.PLUS (PrimaryExpression (maybe_of_int 1)))]) ].

(** the elements of a row are evaluated twice: [let x = 1 emit {x = x + 1}] emits 3. *)
Theorem row_elements_twice : printed 50 row_with_effect = Some (lit "emitted values: [3]" ++ endl).
Proof. vm_compute. reflexivity. Qed.

(** [for let i = 0; i < 9; i = i + 1 { if i == 3 { break } }] *)
Definition loop_with_break : list Statement :=
  [ For (Some (Let (lit "i") (PrimaryExpression (maybe_of_int 0)) None))
      (Some (BinaryExpression (VariableReference (lit "i")) Op.LESSTHAN (PrimaryExpression (maybe_of_int 9))))
      (Some (Assign (VariableReference (lit "i"))
         (BinaryExpression (VariableReference (lit "i")) Op.PLUS (PrimaryExpression (maybe_of_int 1)))))
      [ If (BinaryExpression (VariableReference (lit "i")) Op.EQUAL (PrimaryExpression (maybe_of_int 3)))
          [ Jump break_jump ] None ] ].

(** The number of blocks that do not end in their only terminator. *)
Definition open_blocks (r : result (list (list ascii * list Attribute) * cstate)) : option nat :=
  match r with Ok (_, s) => Some (length (filter (λ b, closed b.2 = false) (blocks s))) | _ => None end.

Lemma open_not_well_formed s : length (filter (λ b, closed b.2 = false) (blocks s)) ≠ 0 → ¬ well_formed s.
Proof.
  intros Hl [Hc _]. destruct (filter _ (blocks s)) as [|[n c] l] eqn:Hf; [done|].
  assert (Hin : (n, c) ∈ filter (λ b : list ascii * code, closed b.2 = false) (blocks s)) by (rewrite Hf; set_solver).
  apply list_elem_of_filter in Hin as [Ho Hin]. apply list_elem_of_lookup in Hin as [b Hb].
  simpl in Ho. by rewrite (Hc _ _ _ Hb) in Ho.
Qed.

(** a [break] under an [if] compiles without an error to a function that is not well-formed:
    the branch of the [if] to the code behind it follows the branch of the [break] in one block. *)
Theorem break_two_terminators :
  ∃ created s', compile_new no_doubles loop_with_break = Ok (created, s') ∧ ¬ well_formed s'.
Proof.
  assert (H : open_blocks (compile_new no_doubles loop_with_break) = Some 1) by (vm_compute; reflexivity).
  destruct (compile_new no_doubles loop_with_break) as [[created s']| | | |] eqn:Ec; [|discriminate H..].
  exists created, s'. split; [done|]. apply open_not_well_formed. simpl in H. congruence.
Qed.

(** ** Tables beyond the reference semantics *)

(** [define<...>t scan t, r {} scan t, r {}]: the second scan finds the entry of the first under
    the name of the row variable, and an assertion fails. *)
Definition scan_twice : list Statement :=
  [Define (Some pair_decl) (lit "t"); Scan (lit "t") (lit "r") []; Scan (lit "t") (lit "r") []].

Lemma scan_twice_aborts : compile_new no_doubles scan_twice = Abort.
Proof. vm_compute. reflexivity. Qed.

(** [define<...>t scan t, string { print_string("x") }]: the row type replaces the context's entry
    for [string]. *)
Definition row_named_string : list Statement :=
  [Define (Some pair_decl) (lit "t");
   Scan (lit "t") (lit "string")
     [ExprStatement (FunctionCall (VariableReference (lit "print_string"))
        [PrimaryExpression (maybe_of_slice (lit "x"))])]].

Lemma row_named_string_aborts : compile_new no_doubles row_named_string = Abort.
Proof. vm_compute. reflexivity. Qed.

(** A row of one element goes into a table of two columns as a record without its value: the scan
    reads the row before it there. *)
Lemma short_insert_reads_stale :
  printed 300 (fill_and_scan pair_decl (lit "t") (lit "r") [[1; 20]; [2]]%Z) =
  Some (logged [] ++ logged [] ++ lit "emitted values: [1, 20]" ++ endl ++ lit "[2, 20]" ++ endl).
Proof. vm_compute. reflexivity. Qed.

(** A table [t] of pairs is scanned while [tz], with one more key column, has a record: the record
    lies in the range of [t], and its key is longer than the buffer it is copied to. *)
Definition scan_beside : list Statement :=
  [ Define (Some pair_decl) (lit "t");
    Define (Some (mk_decl [lit "a"; lit "b"; lit "c"] [lit "int"; lit "int"; lit "int"] [P_KEY; P_KEY; P_NONE]
      [None; None; None])) (lit "tz");
    Transaction (lit "SERIALIZABLE") (insert_all (lit "tz") [[1; 1; 1]]%Z);
    Transaction (lit "SERIALIZABLE") [Scan (lit "t") (lit "r") [Emit (VariableReference (lit "r"))]] ].

Lemma foreign_record_overruns :
  compiled_blocks (compile_new no_doubles scan_beside) = Some 4 ∧
  compile_and_exec no_doubles 300 (Some scan_beside) world_new = UB.
Proof. split; vm_compute; reflexivity. Qed.

(** The operators that compare. *)
Definition compares (op : Op.operators) : bool :=
  match op with
  | Op.EQUAL | Op.NOTEQUAL | Op.LESSTHAN | Op.LESSEQUAL | Op.MORETHAN | Op.MOREEQUAL => true
  | _ => false
  end.

Section comparison.
Context `{L : LLVM} `{LT : !LLVMTyping} `{PL : !PrintLaws}.

(** The value of a comparison is a bit. *)
Lemma icmp_type op a b s v s' : CreateICmp op a b s = Ok (v, s') → type_of v = i1.
Proof.
  intros Ec%icmp_inv. unfold insert_folded in Ec. destruct (fold _) as [u|] eqn:Hf.
  - apply fold_type in Hf. by injection Ec as <- _.
  - unfold insert_instr in Ec. destruct (insert_block s); [|done]. by injection Ec as <- _.
Qed.

Lemma comparison_value member sp p l op r s v s' :
  compares op = true → get_value member sp p (BinaryExpression l op r) s = Ok (v, s') → type_of v = i1.
Proof.
  intros Hop Ev. cbn [get_value] in Ev. unfold get_value_binary in Ev. destruct op; try done.
  all: apply cg_bind_Ok in Ev as (a & s1 & _ & Ev); apply cg_bind_Ok in Ev as (b & s2 & _ & Ev); by apply icmp_type in Ev.
Qed.

(** The type of a comparison is that of its right operand. *)
Lemma comparison_type member sp p l op b s t s' :
  get_type member sp p (BinaryExpression l op (PrimaryExpression (maybe_of_int b))) s = Ok (t, s') → t = i64.
Proof.
  cbn [get_type]. unfold get_type_binary. intros Et. apply cg_bind_Ok in Et as (rt & s1 & [= <- <-] & Et).
  apply cg_bind_Ok in Et as (lt & s2 & _ & Et). case_decide; [done|]. by injection Et as <- _.
Qed.

(** The slot of a variable has the type of its expression. *)
Lemma alloca_let_slot ann sp x e s u s' :
  alloca_let ann sp x e s = Ok (u, s') → ∃ t s1 v, get_type (member_of ann) sp [0] e s = Ok (t, s1) ∧
    variable_table_ s' !! x = Some v ∧ type_of v = TPtr t.
Proof.
  unfold alloca_let. intros (t & s1 & Et & Ec)%cg_bind_Ok. apply cg_bind_Ok in Ec as (v & s2 & Ev & [= _ <-]).
  exists t, s1, v. split_and!; [done|apply lookup_insert_eq|]. by apply alloca_type in Ev as [-> _].
Qed.

(** A value is stored in a slot of its type. *)
Lemma codegen_let_value ann sp x e s u s' :
  good_types s → codegen_let ann sp x e s = Ok (u, s') → ∃ slot s1 v s2, variable_table_ s !! x = Some slot ∧
    get_value (member_of ann) sp [0] e s1 = Ok (v, s2) ∧ type_of slot = TPtr (type_of v).
Proof.
  unfold codegen_let. intros Gd Ec. apply cg_bind_Ok in Ec as (t & s1 & Et & Ec). rewrite gets_run in Ec.
  destruct (typing_get_type (member_of ann) e sp [0] _ _ _ Gd Et) as (_ & L1 & _).
  pose proof (l_tables _ _ L1) as Htb. injection Htb as _ Hv _ _ _ _. rewrite Hv in Ec.
  destruct (variable_table_ s !! x) as [slot|]; [|done]. apply cg_bind_Ok in Ec as (v & s2 & Ev & Ec).
  exists slot, s1, v, s2. split_and!; [done..|]. unfold CreateStore, llvm_assert in Ec.
  apply cg_bind_Ok in Ec as (w & s3 & Ea & _). by case_bool_decide.
Qed.

(** C38: a variable cannot be initialised with a comparison.  Whatever the left operand, the right
    one an integer, compilation of [let x = l < b] (and the other comparisons) never succeeds: the
    variable's slot has the type of the operands, the value is a bit. *)
Theorem let_comparison_fails show_double x l op b :
  compares op = true →
  is_ok (compile_new show_double [Let x (BinaryExpression l op (PrimaryExpression (maybe_of_int b))) None]) = false.
Proof.
  intros Hop. destruct (compile_new _ _) as [[created s']| | | |] eqn:Ec; try done.
  destruct (compile_inv _ _ _ _ _ context_ready_ok Ec) as (bb & s1 & u2 & s2 & s3 & u4 & s4 & wr & E1 & E2 & E3 & E4 & _).
  destruct (entry_start _ _ _ _ E1 E2) as (_ & _ & Ht & Hst & Hty & _).
  assert (G2 : good_types s2) by by eapply good_types_same, ready_types.
  cbn [walk walk_statements alloca_stack] in E3. apply cg_bind_Ok in E3 as (a & s2' & Ea & E3).
  apply cg_bind_Ok in Ea as (ua & sa & Ea & [= <- <-]).
  apply cg_bind_Ok in E3 as (a' & sb & [= <- <-] & E3). apply cg_bind_Ok in E3 as (a'' & sc & [= <- <-] & [= _ <-]).
  destruct (alloca_let_slot _ _ _ _ _ _ _ Ea) as (t & s5 & v & Et & Hv & Tv).
  apply comparison_type in Et as ->. pose proof (sane_let _ _ _ _ _ _ _ G2 Ea) as G3.
  cbn [codegen codegen_statements] in E4. apply cg_bind_Ok in E4 as (ub & sd & Eb & _).
  destruct (codegen_let_value _ _ _ _ _ _ _ G3 Eb) as (slot & s6 & v' & s7 & Hs & Ev & Ts).
  apply (comparison_value _ _ _ _ _ _ _ _ _ Hop) in Ev. rewrite Hv in Hs. simplify_eq. congruence.
Qed.
End comparison.

Lemma let_comparison_fails_witness :
  let l := [Let (lit "b") (BinaryExpression (PrimaryExpression (maybe_of_int 1)) Op.LESSTHAN
    (PrimaryExpression (maybe_of_int 2))) None] in
  is_ok (compile_new no_doubles l) = false ∧ compile_new no_doubles l = Abort.
Proof.
  split; [|vm_compute; reflexivity].
  apply (let_comparison_fails no_doubles (lit "b") (PrimaryExpression (maybe_of_int 1)) Op.LESSTHAN 2). reflexivity.
Defined.

(** ** Loops that count *)

Abbreviation num z := (PrimaryExpression (maybe_of_int z)).
Abbreviation var_i := (VariableReference (lit "i")).

(** [for let i = 0; i < n; i = i + 1 { emit {i} }] *)
Definition counting (n : nat) : list Statement :=
  [ For (Some (Let (lit "i") (num 0) None))
      (Some (BinaryExpression var_i Op.LESSTHAN (num (Z.of_nat n))))
      (Some (Assign var_i (BinaryExpression var_i Op.PLUS (num 1))))
      [ Emit (RowLiteral [var_i]) ] ].

Section counting.
Context {E C G : Type} `{FA : FoedusAPI E C} `{RG : Random G}.
Context (member : nid → option (TypeId.type_id * nat)) (tables : gmap cstr Schema) (n : nat) (Hn : (Z.of_nat n < two_63)%Z).

Definition words (from len : nat) : list (list ascii) := (λ k, bytes_of_i64 (Z.of_nat k)) <$> seq from len.

Abbreviation cond := (BinaryExpression var_i Op.LESSTHAN (num (Z.of_nat n))).
Abbreviation next_i := (Assign var_i (BinaryExpression var_i Op.PLUS (num 1))).

Lemma small_int z : (0 ≤ z < two_63)%Z → signed64 z = z.
Proof. unfold signed64, two_63, two_64. intros Hz. rewrite Z.mod_small by lia. by destruct (Z.ltb_spec z (2 ^ 63)); [|lia]. Qed.

Context (sp : list pstep) (σ : env E C G) (k : nat) (Hk : k ≤ n) (Hi : vars σ !! lit "i" = Some (VInt (Z.of_nat k))).

Lemma count_cond : eval_expr member sp [0] cond σ = Ok (VBool (Z.of_nat k <? Z.of_nat n)%Z, σ).
Proof.
  cbn [eval_expr eval_binary]. unfold read_var, literal. rewrite Hi. simpl. by rewrite small_int by lia.
Qed.

Lemma count_body : exec_statements (exec_stmt member tables (S n)) In_body sp 0 [Emit (RowLiteral [var_i])] σ =
  Ok (set_world σ (emit (MByte <$> bytes_of_i64 (Z.of_nat k)) (env_world σ))).
Proof.
  cbn [exec_statements exec_stmt eval_expr eval_list]. unfold read_var. rewrite Hi. simpl. by rewrite app_nil_r.
Qed.

Lemma count_next : k < n → eval_expr member sp [1] next_i σ =
  Ok (VInt (Z.of_nat (S k)), set_var σ (lit "i") (VInt (Z.of_nat (S k)))).
Proof.
  intros Hlt. cbn [eval_expr eval_binary]. unfold read_var, literal. rewrite Hi. simpl. rewrite (small_int 1), small_int by (unfold two_63 in *; lia).
  by replace (Z.of_nat k + 1)%Z with (Z.of_nat (S k)) by lia.
Qed.
End counting.

Lemma counting_loop {E C G : Type} `{FA : FoedusAPI E C} `{RG : Random G} member tables n sp m :
  (Z.of_nat n < two_63)%Z → ∀ k (σ : env E C G), k + m = n → vars σ !! lit "i" = Some (VInt (Z.of_nat k)) →
  ∃ σ', exec_loop (eval_expr member sp [0] (BinaryExpression var_i Op.LESSTHAN (num (Z.of_nat n))))
      (eval_expr member sp [1] (Assign var_i (BinaryExpression var_i Op.PLUS (num 1))))
      (exec_statements (exec_stmt member tables (S n)) In_body sp 0 [Emit (RowLiteral [var_i])]) (S m) σ = Ok σ' ∧
    env_world σ' = set_outputs (env_world σ) (outputs_ (env_world σ) ++ ((fmap MByte : cstr → list memval) <$> words k m)).
Proof.
  intros Hn. induction m as [|m IH]; intros k σ Hk Hi; cbn [exec_loop]; rewrite (count_cond member n Hn sp σ k) by (lia || done).
  - exists σ. split; [|by destruct σ as [? []]; rewrite app_nil_r]. simpl. by destruct (Z.ltb_spec (Z.of_nat k) (Z.of_nat n)); [lia|].
  - set (σ1 := set_world σ (emit (MByte <$> bytes_of_i64 (Z.of_nat k)) (env_world σ))).
    destruct (IH (S k) (set_var σ1 (lit "i") (VInt (Z.of_nat (S k))))) as (σ' & He & Hw); [lia|apply lookup_insert_eq|].
    exists σ'. split.
    + cbn [mbind result_bind]. destruct (Z.ltb_spec (Z.of_nat k) (Z.of_nat n)); [|lia].
      rewrite (count_body member tables n sp σ k Hi). fold σ1. cbn [mbind result_bind].
      rewrite (count_next member n Hn sp σ1 k ltac:(lia) Hi) by lia. exact He.
    + rewrite Hw. simpl. unfold get_output, set_outputs. simpl. by rewrite <- app_assoc.
Qed.

Lemma counting_means {E C G : Type} `{FA : FoedusAPI E C} `{RG : Random G} member tables n (w : World E C G) :
  (Z.of_nat n < two_63)%Z →
  ∃ σ', exec_stmt member tables (S n) (Block (counting n)) [] (env_new w) = Ok σ' ∧
    env_world σ' = set_outputs w (outputs_ w ++ ((fmap MByte : cstr → list memval) <$> words 0 n)).
Proof.
  intros Hn. destruct (counting_loop member tables n [In_body 0] n Hn 0 (set_var (env_new w) (lit "i") (VInt 0)))
    as (σ' & He & Hw); [done|apply lookup_insert_eq|].
  exists σ'. split; [|exact Hw]. cbn [counting exec_stmt exec_statements eval_expr app]. unfold literal at 1. cbn.
  exact (f_equal (λ r, r ≫= λ σ, Ok σ) He).
Qed.

Lemma words_bytes ws : mapM (mapM byte_of) ((fmap MByte : cstr → list memval) <$> ws) = Some ws.
Proof. apply mapM_fmap_Some. intros x. apply mapM_bytes. Qed.

Lemma length_words from len : length (words from len) = len.
Proof. unfold words. by rewrite length_fmap, length_seq. Qed.

Lemma show_counted n : (Z.of_nat n < two_63)%Z →
  show_RawRow <$> words 0 n = (λ k, lit "[" ++ show_Z (Z.of_nat k) ++ lit "]") <$> seq 0 n.
Proof.
  intros Hn. unfold words. rewrite <- list_fmap_compose. apply list_fmap_ext. intros i k Hk%lookup_seq. simpl.
  transitivity (show_RawRow (row_bytes [Z.of_nat k])); [unfold row_bytes; simpl; by rewrite app_nil_r|].
  rewrite show_RawRow_unsigned. unfold unsigned_row. simpl. rewrite Z.mod_small by (unfold two_63, two_64 in *; lia). done.
Qed.

(** The structs of the compiled program: the string and the row. *)
Lemma counting_structs n : structs_of (compile_new no_doubles (counting n)) = Some [2; 1].
Proof. vm_compute. reflexivity. Qed.

(** C11: a counting loop comes to its end.  For every [n] below 2^31, compiling
    [for let i = 0; i < n; i = i + 1 { emit {i} }] and running it ends, on every engine, and prints
    the rows [[0]] to [[n - 1]] in order. *)
Theorem counting_finishes {E C G : Type} `{FA : FoedusAPI E C} `{RG : Random G} `{RL : !RandomLaws G} n (w : World E C G) :
  (Z.of_nat n < 2 ^ 31)%Z →
  ∃ fuel w', compile_and_exec no_doubles fuel (Some (counting n)) w = Ok w' ∧
    stdout w' = stdout w ++ lit "emitted values: " ++ intercalate endl ((λ k, lit "[" ++ show_Z (Z.of_nat k) ++ lit "]") <$> seq 0 n) ++ endl.
Proof.
  intros Hn. pose proof (counting_structs n) as Hs.
  destruct (compile_new no_doubles (counting n)) as [[created s']| | | |] eqn:Ec; [|discriminate Hs..].
  injection Hs as Hs. assert (Hn' : (Z.of_nat n < two_63)%Z) by (unfold two_63; lia).
  destruct (counting_means (member_of (notes no_doubles (counting n))) (tables_of no_doubles (counting n)) n (set_outputs w []) Hn')
    as (σ & He & Hw).
  destruct (compile_and_exec_ends no_doubles (counting n) created s' (S n) w σ Ec eq_refl eq_refl) as (fuel & rows & Hr & Hx).
  - by eapply small_of_lengths; [exact Hs|repeat constructor].
  - exact He.
  - unfold rows_fit. rewrite Hw. simpl. by rewrite length_fmap, length_words.
  - exists fuel, (print (env_world σ) (emitted_text rows)). split; [exact Hx|].
    unfold emitted_rows in Hr. rewrite Hw in Hr |- *. simpl in Hr. rewrite words_bytes in Hr. injection Hr as <-.
    unfold emitted_text. by rewrite show_counted.
Qed.

Lemma counting_finishes_witness :
  ∃ fuel w', compile_and_exec no_doubles fuel (Some (counting 3)) world_new = Ok w' ∧
    stdout w' = [] ++ lit "emitted values: " ++
      (lit "[0]" ++ endl ++ lit "[1]" ++ endl ++ lit "[2]") ++ endl.
Proof. apply (counting_finishes 3 world_new). reflexivity. Defined.
